(* ===== verification/_CoqProject ===== *)
-Q . S2P
Prelude.v
Interfaces.v
Timer.v
TimerProps.v
Buffer.v
Waker.v
Task.v
Executor.v
ExecutorProps.v
Io.v
Cpu.v
CpuProps.v
Multicore.v
MulticoreProps.v
MulticoreLive.v
MulticoreSystem.v
MulticoreDemo.v
Runtime.v
TimerFutures.v
TimerRun.v
HelloWorld.v
TimerDemo.v
AsyncIo.v
Net.v
Fs.v
Sockaddr.v
Uring.v
NetUring.v
IoTyping.v
Mio.v
Epoll.v
EpollProps.v
Kqueue.v
KqueueProps.v
Cancellation.v
Signal.v
Str.v
Http.v
HttpHandlers.v
HttpConn.v
HttpEcho.v
FileDemo.v
UdpDemo.v
BuildScript.v
