(* ===== verification/Prelude.v ===== *)
(** * A verification development for rust-miniss

    rust-miniss is a small asynchronous runtime: an executor that polls boxed
    futures, a thread-per-core runtime that passes messages between cores, a
    timer wheel, pooled buffers, and I/O backends behind one trait. This library
    models it by shallow embedding: each function of the source is a Rocq
    function on an explicit state, and what it does to that state is proved.
    Paths below are relative to the repository.

    ** The program and its parts

    A future is polled with a waker ([src/waker.rs]) that pushes its task's id
    on a run queue. [Executor] ([src/executor.rs]) takes ids from the queue,
    polls the tasks and sends each result through a channel to a [JoinHandle]
    ([src/task.rs]). [Runtime::block_on] drives one future and the thread's I/O
    backend: an [IoFuture] ([src/io/future.rs]) leaves its waker in the thread's
    [CpuIoState], and [poll_io_completions] ([src/cpu.rs]) files results there.
    [Cpu] ([src/cpu.rs]) is an executor with an inbox, a timer wheel
    ([src/timer/mod.rs]) and an I/O state; [MultiCoreRuntime]
    ([src/multicore.rs]) starts one [CpuCore] per thread and gives it tasks and
    a shutdown message through a queue. [SleepFuture], [Timeout] and [Interval]
    ([src/timer/]) wait for instants; [src/signal.rs] turns signals into
    shutdown messages; [src/cancellation.rs] wraps futures with a flag;
    [src/io/uring.rs] implements the I/O trait over io_uring with buffers of
    [src/buffer.rs], [src/io/epoll.rs] over a selector and a thread pool,
    [src/io/kqueue.rs] over a selector alone;
    [src/net.rs] and [src/fs.rs] are the asynchronous sockets and files, which
    submit operations to the thread's backend and await them; [src/http.rs]
    parses and prints HTTP and reads and writes it on a TCP stream; [build.rs]
    chooses the backend. The programs of [examples/] are its clients;
    [examples/http_echo.rs] is a server on top of it all.

    ** Files

    - [Prelude]: results of Rust code ([outcome], [result], [Poll]), 64-bit
      integers, tactics, hint databases, lemmas on lists, rings and maps.
    - [Interfaces]: the classes [SegQueue] and [Channel] for the crossbeam
      queues and channels, with laws that state their documented behaviour, and
      list instances on which everything evaluates.
    - [Timer], [TimerProps]: [TimerWheel]. [Timer] has [new], [schedule],
      [cancel], [expire] under their source names and the invariant;
      [TimerProps] the abstract deadline queue and the refinement.
    - [Buffer]: [Buffer], [BufferPool] and the per-thread pool.
    - [Waker]: [TaskId], [MinissWaker] and its vtable over an [Arc] with a
      strong count.
    - [Task]: [Task], [JoinHandle], [TaskError]; [polled] and [poll_out] say
      what one poll of an arbitrary future can do.
    - [Executor], [ExecutorProps]: [Executor::spawn], [tick], [run]; steps of an
      executor and of its surroundings, the invariant over reachable states.
    - [Io]: the [IoProvider] trait as a class with its contract, [Op], tokens,
      [DummyIoBackend], [CpuIoState], [IoFuture].
    - [Cpu], [CpuProps]: [Cpu], [CpuHandle], cross-CPU messages.
    - [Multicore], [MulticoreProps]: [CpuCore], [MultiCoreRuntime], the global
      runtime; [caller_step] splits [spawn] and [shutdown] into their atomic
      actions for the theorems on concurrent callers.
    - [MulticoreLive]: from [spawn] to the end of the tasks on their cores.
    - [MulticoreSystem]: the runtime with its callers and the threads of its
      cores as one machine that a schedule drives, from [new] to [join].
      [MulticoreDemo]: [examples/multicore_demo.rs] on it.
    - [Runtime]: [Runtime::block_on], [Executor::block_on], the [spawn]
      functions of [src/task.rs].
    - [TimerFutures]: [SleepFuture], [Timeout], [Interval], [spawn_periodic], each
      polled at given instants.
    - [TimerRun]: futures that read the clock as they are polled ([timed]), how
      [async] blocks are put together from them, and what either [block_on] does
      with them. [TimerDemo], [HelloWorld]: the examples built from these futures
      ([comprehensive_demo.rs], [timer_demo.rs], [periodic_task_demo.rs]) and
      [hello_world.rs].
    - [AsyncIo]: the state machine of an async function that submits operations
      and awaits them ([AsyncBody]: what it does first, and after each await),
      and what [block_on] does with it when the backend answers ([runs]);
      [Script], a backend that answers from a list.
    - [Net], [Fs]: [src/net.rs] and [src/fs.rs] over [AsyncIo]: for each function
      with one operation ([once]) the code before the await ([_prepare]) and
      after it ([_finish]); [write_all] with its loop.
    - [Sockaddr], [Uring]: [UringBackend] over a heap of allocations, with
      socket addresses at byte level; the ring itself, with what the kernel
      writes into that heap, is the class [IoUring].
    - [NetUring], [IoTyping]: TCP [accept], [read] and [write] on the io_uring
      backend; the kinds of completions as result types of operations.
    - [Mio]: what the two backends over a selector share: the selector and the
      system calls as the class [Kernel], and runs that interleave submissions,
      polls and steps of the backend's own.
    - [Epoll], [EpollProps]: [EpollBackend], whose own steps are the jobs of its
      thread pool.
    - [Kqueue], [KqueueProps]: [KqueueBackend].
    - [Cancellation], [Signal]: [src/cancellation.rs], [src/signal.rs].
    - [Str], [Http], [HttpHandlers], [HttpConn], [BuildScript]: strings as
      Unicode scalar values with UTF-8, [src/http.rs], its [EchoHandler], its
      [HttpConnection] over [Net], [build.rs].
    - [HttpEcho]: [examples/http_echo.rs]. [FileDemo]: file reads on io_uring and
      [examples/async_file_demo.rs]. [UdpDemo]: [examples/udp_echo_demo.rs].

    ** State and operations

    A struct is a record with the source's fields; a function that takes
    [&mut self] returns the new record; a panic is [Panic] of [outcome]; a
    [Result] is [result]. Maps are [gmap]s. [u64] counters are integers with
    their wrap-around ([wrap64], [fetch_add1]). Instants and durations are
    integers of nanoseconds; the clock, the wakes of other threads and the
    messages that arrive are arguments of each step. A shared object that the
    code reaches through several references (the channels of join handles, the
    waker's allocation, cancellation flags, memory given to the kernel) is an
    entry of an explicit store.

    ** What the theorems show

    - Timer wheel: safety and invariant of every reachable wheel; the exact
      effect of [cancel] and of both branches of [expire]; up to the first full
      rotation the wheel refines an abstract queue of deadlines, and past it
      [expire] fires timers early.
    - Buffers and wakers: the pool's bound, no data of an earlier user in a
      buffer, which vectors [recycle] keeps; the [Arc] of a waker is balanced
      under every sequence of vtable calls.
    - Executor and CPU: invariants of all reachable states (in particular a task
      can always send its result without blocking), termination of [tick],
      completion of every task that wakes itself, isolation of panics, finality
      of cancellation, the end of the loop on [Shutdown], and the collision of
      local with submitted task ids.
    - Multi-core runtime: what one batch of messages and one batch of polls do,
      no panic in a core's loop, round-robin spawning, and, for all
      interleavings of concurrent callers, exactly one [Shutdown] per core; the
      interleaving that loses a task. Tasks that need finitely many polls are
      all finished by the cores they were spread over, in a bounded number of
      turns. The life of a runtime: for every schedule that gives each caller
      and each core enough steps, the tasks of concurrent callers finish exactly
      once, [shutdown] stops every core and [join] returns; and when [new] fails
      halfway, the cores it started go on running. The multi-core example counts
      all of its tasks.
    - Join handles: a task that awaits the handle of another one before that one
      is done is never polled again; [hello_world.rs] hangs in its third block.
    - I/O: no lost wake-up and exactly-once delivery of completions; [block_on]
      returns the result of an operation the backend holds and hangs on one it
      does not hold; memory given to io_uring stays allocated while the
      operation is pending, except for the headers of datagram operations; the
      round trip of socket addresses.
    - Sockets and files: [write_all] driven by [block_on] is its loop in direct
      style and delivers exactly the caller's bytes; [read], [recv_from],
      [read_at], [write_at] and [sync_all] return what the backend answered, on
      every branch, and [recv_from] stays within the caller's buffer; [open]
      leaks no descriptor; on io_uring a TCP accept, read and write give the
      caller what the kernel reported and wrote into the memory it was given,
      and no function ever sees a completion of another operation's kind.
    - epoll: every operation completes at most once, under its own token, in
      every interleaving; an operation the selector refuses is never completed;
      reads and writes of a socket fail and close it; [Fsync] and [Close] report
      an error.
    - kqueue: at most one completion per operation as well; every file operation
      is carried out when it is submitted and reported as failed; submitting a
      datagram operation closes the socket.
    - Time: a sleep is neither early nor missed when polled, an interval does
      not drift, and a sleeping task on the executor is never woken. Under
      [block_on] a sleep returns, not before its deadline, and of a future and
      its timeout the first wins; the timer examples print what they announce,
      except that a periodic task never runs.
    - Text: what [Request::parse] makes of a request and when the body survives,
      the round trip of response headers; a request read from a connection is
      what one read delivers, a response sent is its bytes in order; what
      [EchoHandler] says of a request determines its headers; the choice of the
      I/O backend by kernel version; signals. The server of the examples serves
      its connections one after the other and closes each once, the assertions of
      the file example hold on io_uring, and the datagram example receives what
      it sent.

    ** Fuel

    Loops that are not structural take fuel and give [NoFuel] when it runs out.
    Termination is proved as the existence of enough fuel for the loop at hand
    (a function of the queue and of how often each future can still return
    [Pending]); "never returns" is proved for every amount of fuel. The loop of
    [expire] gets the number of slots plus one, the inbox loop one more than the
    number of messages, [task_loop] and [message_loop] the bounds 16 and 32 the
    source has.

    ** Clocks and schedules

    A clock is a function from the number of earlier readings to an instant. That
    a sleep returns needs it to be monotone and unbounded; the theorems on a race
    of two deadlines also bound the step from one reading to the next, and say by
    how much the deadlines have to differ. A schedule is a list that names the
    caller or the core that acts next: a caller makes one atomic action, a core
    one turn of its loop. The theorems on whole runs ask only that each of them
    is named often enough. A runtime has at most [CPU_SETSIZE] (1024) cores
    there, since the thread of a further one panics when it is bound.

    ** Not modelled

    Logging, [Debug] and [Display] output of the runtime's own types, and the
    benchmarks. Of the examples, those that run on tokio, whose code is not in the
    repository ([timer_sleep.rs], [interval.rs], [task_builder_demo.rs]), and [graceful_shutdown.rs], which is one sleep; of [multicore_demo.rs] what it
    measures and prints. A turn of a core's loop is one step of a schedule.
    Memory orderings weaker than sequential consistency are not distinguished,
    and a job of the epoll thread pool, which the code does not synchronise with
    the backend's thread, is one atomic step. What the standard library's Unicode tables say
    beyond ASCII (case mapping, and which characters [Debug] shows) are
    parameters. [src/io/epoll.rs] and [src/io/kqueue.rs] do not compile as they
    stand: the model of the first takes the one undefined name as an argument,
    and the second is read as [Kqueue] says at its top. *)

From stdpp Require Export base tactics option list list_numbers numbers strings gmap.
From Stdlib Require Export ZArith Lia.

Declare Scope miniss_scope.
Delimit Scope miniss_scope with miniss.
Open Scope Z_scope.

(** ** Control results of Rust code

    [outcome A] is what running a piece of Rust code can give: a value, a
    panic (index out of bounds, division by zero, [expect]/[unwrap] on the
    wrong variant), or, for a loop modelled with fuel, running out of it. *)

Inductive outcome (A : Type) : Type :=
  | Ret (a : A)
  | Panic
  | NoFuel.
Arguments Ret {A} a.
Arguments Panic {A}.
Arguments NoFuel {A}.

#[export] Instance outcome_ret : MRet outcome := @Ret.
#[export] Instance outcome_bind : MBind outcome := λ _ _ f m,
  match m with
  | Ret a => f a
  | Panic => Panic
  | NoFuel => NoFuel
  end.
#[export] Instance outcome_fmap : FMap outcome := λ _ _ f m,
  match m with
  | Ret a => Ret (f a)
  | Panic => Panic
  | NoFuel => NoFuel
  end.

(** [Option::expect] / [Option::unwrap] / a checked index. *)
Definition expect {A} (o : option A) : outcome A :=
  match o with
  | Some a => Ret a
  | None => Panic
  end.

(** ** [Result] and [Poll] *)

Inductive result (A E : Type) : Type :=
  | Ok (a : A)
  | Err (e : E).
Arguments Ok {A E} a.
Arguments Err {A E} e.

Definition result_map {A B E} (f : A → B) (r : result A E) : result B E :=
  match r with
  | Ok a => Ok (f a)
  | Err e => Err e
  end.

Definition result_map_err {A E E'} (f : E → E') (r : result A E) : result A E' :=
  match r with
  | Ok a => Ok a
  | Err e => Err (f e)
  end.

Inductive Poll (A : Type) : Type :=
  | Ready (a : A)
  | Pending.
Arguments Ready {A} a.
Arguments Pending {A}.

(** ** 64-bit machine integers *)

Definition u64_max : Z := 2 ^ 64 - 1.
Definition wrap64 (z : Z) : Z := z mod 2 ^ 64.
Definition is_u64 (z : Z) : Prop := 0 ≤ z < 2 ^ 64.

(** [AtomicU64::fetch_add(1)]: the value before, and the wrapped counter. *)
Definition fetch_add1 (counter : Z) : Z * Z := (counter, wrap64 (counter + 1)).

(** ** Tactics and hint databases *)

Create HintDb miniss.
Create Rewrite HintDb miniss_rw.

(** Reduce a hypothesis about a sequence of [outcome] binds to its steps. *)
Ltac bind_inv :=
  repeat match goal with
  | H : mbind ?f ?m = Ret _ |- _ =>
      let E := fresh "E" in
      destruct m eqn:E; simpl in H; [| discriminate H | discriminate H]
  | H : Ret _ = Ret _ |- _ => injection H; clear H; intros; subst
  | H : expect ?o = Ret _ |- _ =>
      let E := fresh "E" in
      destruct o eqn:E; simpl in H; [| discriminate H]
  end.

(** ** Machine integers: lemmas *)

Lemma wrap64_range z : is_u64 (wrap64 z).
Proof. unfold is_u64, wrap64. apply Z.mod_pos_bound. lia. Qed.

Lemma wrap64_small z : is_u64 z → wrap64 z = z.
Proof. unfold is_u64, wrap64. intros. by apply Z.mod_small. Qed.

Lemma wrap64_wrap_add a b : wrap64 (wrap64 a + b) = wrap64 (a + b).
Proof. unfold wrap64. by rewrite Zplus_mod_idemp_l. Qed.

#[export] Hint Resolve wrap64_range : miniss.
#[export] Hint Rewrite wrap64_small using (unfold is_u64 in *; lia) : miniss_rw.

(** Stepping round a ring of [n] slots. *)
Lemma ring_step_range n c : 0 < n → 0 ≤ (c + 1) mod n < n.
Proof. intros. apply Z.mod_pos_bound. lia. Qed.

Lemma ring_step_small n c : 0 ≤ c → c + 1 < n → (c + 1) mod n = c + 1.
Proof. intros. apply Z.mod_small. lia. Qed.

Lemma ring_dist_0 n a b : 0 ≤ a < n → 0 ≤ b < n → (a - b) mod n = 0 → a = b.
Proof.
  intros Ha Hb Hz. apply Z.mod_divide in Hz as [q Hq]; [|lia].
  assert (q = 0) as -> by nia. lia.
Qed.

Lemma ring_round n c i : 0 ≤ i < n → (c + (i - c) mod n) mod n = i.
Proof.
  intros. rewrite Zplus_mod_idemp_r. replace (c + (i - c)) with i by lia.
  apply Z.mod_small. lia.
Qed.

Lemma ring_wrap n a : n ≤ a < 2 * n → a mod n = a - n.
Proof.
  intros. replace a with (a - n + 1 * n) by lia. rewrite Z_mod_plus_full, Z.mod_small; lia.
Qed.

#[export] Hint Resolve ring_step_range : miniss.

(** ** Lists: filters, positions, concatenations *)

Section list_facts.
Context {A : Type}.
Implicit Types (l : list A) (P Q R : A → Prop).

Lemma filter_ext_Forall P Q `{∀ x, Decision (P x), ∀ x, Decision (Q x)} l :
  Forall (λ x, P x ↔ Q x) l → filter P l = filter Q l.
Proof.
  induction 1 as [|x l Hx _ IH]; [done|].
  rewrite !filter_cons, IH. repeat case_decide; tauto.
Qed.

Lemma filter_Forall_none P `{∀ x, Decision (P x)} l :
  Forall (λ x, ¬ P x) l → filter P l = [].
Proof. induction 1; [done|]. by rewrite filter_cons_False. Qed.

Lemma filter_Forall_all P `{∀ x, Decision (P x)} l : Forall P l → filter P l = l.
Proof. induction 1 as [|x l ? _ IH]; [done|]. by rewrite filter_cons_True, IH. Qed.

Lemma filter_filter P Q `{∀ x, Decision (P x), ∀ x, Decision (Q x)} l :
  filter P (filter Q l) = filter (λ x, P x ∧ Q x) l.
Proof.
  induction l as [|x l IH]; [done|].
  rewrite !filter_cons. repeat case_decide; rewrite ?filter_cons; repeat case_decide;
    first [tauto | by rewrite IH].
Qed.

(** A filter whose predicate splits into two exclusive ones. *)
Lemma filter_split_perm P Q R `{∀ x, Decision (P x), ∀ x, Decision (Q x), ∀ x, Decision (R x)} l :
  (∀ x, P x ↔ Q x ∨ R x) → (∀ x, Q x → ¬ R x) →
  filter P l ≡ₚ filter Q l ++ filter R l.
Proof.
  intros Hor Hex. induction l as [|x l IH]; [done|].
  specialize (Hor x). specialize (Hex x). rewrite !filter_cons. repeat case_decide; try tauto.
  - simpl. by constructor.
  - rewrite IH. apply Permutation_middle.
Qed.

Lemma join_replicate_nil n : mjoin (replicate n (@nil A)) = [].
Proof. by induction n. Qed.

Lemma join_insert_perm (ls : list (list A)) i l l' :
  ls !! i = Some l → mjoin (<[i := l']> ls) ++ l ≡ₚ mjoin ls ++ l'.
Proof.
  intros Hi. assert (i < length ls)%nat by eauto using lookup_lt_Some.
  rewrite insert_take_drop by done. rewrite <-(take_drop_middle ls i l Hi) at 3.
  rewrite !join_app; simpl. solve_Permutation.
Qed.

Lemma filter_fmap_list {B} (f : B → A) P `{∀ x, Decision (P x)} (l : list B) :
  filter P (f <$> l) = f <$> filter (λ y, P (f y)) l.
Proof.
  induction l as [|y l IH]; [done|]. rewrite fmap_cons, !filter_cons, IH.
  by case_decide.
Qed.

Lemma fmap_mjoin {B} (f : A → B) (ls : list (list A)) :
  f <$> mjoin ls = mjoin (fmap f <$> ls).
Proof. induction ls as [|l ls IH]; [done|]. simpl. by rewrite fmap_app, IH. Qed.

End list_facts.

(** Overwriting a stretch inside a list. *)
Lemma list_inserts_splice {A} i (k l : list A) :
  (i + length k ≤ length l)%nat →
  list_inserts i k l = take i l ++ k ++ drop (i + length k) l.
Proof.
  revert i. induction k as [|x k IH]; intros i Hi; simpl in *.
  { by rewrite Nat.add_0_r, take_drop. }
  rewrite IH by lia. rewrite insert_app_l by (rewrite length_take; lia).
  destruct (lookup_lt_is_Some_2 l i) as [y Hy]; [lia|].
  rewrite (take_S_r _ _ _ Hy), insert_app_r_alt by (rewrite length_take; lia).
  rewrite length_take, Nat.min_l, Nat.sub_diag by lia; simpl.
  by rewrite <-app_assoc, Nat.add_succ_r.
Qed.

(** ** Maps: the sum of a measure over the values *)

Section map_total.
Context {K A : Type} `{Countable K}.
Implicit Types (f : A → nat) (m : gmap K A).

Definition map_total f m : nat := map_fold (λ _ a n, (f a + n)%nat) 0%nat m.

Lemma map_total_delete f m k a :
  m !! k = Some a → map_total f m = (f a + map_total f (delete k m))%nat.
Proof.
  intros Hk. unfold map_total.
  rewrite (map_fold_delete_L _ 0%nat k a m); [done| |done]. intros; lia.
Qed.

Lemma map_total_insert f m k a a' :
  m !! k = Some a → map_total f (<[k := a']> m) = (f a' + map_total f (delete k m))%nat.
Proof.
  intros Hk. rewrite (map_total_delete _ _ k a') by apply lookup_insert_eq.
  by rewrite delete_insert_eq.
Qed.

End map_total.

Lemma difference_absent `{Countable K} (k : K) (X : gset K) : k ∉ X → X ∖ {[ k ]} = X.
Proof.
  intros Hk. apply set_eq. intros x. rewrite elem_of_difference, elem_of_singleton.
  split; [by intros [? _]|]. intros Hx. split; [done|]. by intros ->.
Qed.
