(* ===== verification/Interfaces.v ===== *)
(** * What the runtime relies on from the crates it uses

    [crossbeam_queue::SegQueue] and [crossbeam_channel::bounded] are not part
    of the repository. The components that use them are defined and proved over
    the operations and laws of the two classes below, which state the documented
    behaviour: an unbounded first-in first-out queue, and a bounded first-in
    first-out channel whose two ends can be dropped. The instances at the end
    run the definitions on concrete inputs. *)

From S2P Require Import Prelude.

(** ** [SegQueue<A>] *)

Class SegQueue (Q A : Type) := {
  seg_new : Q;
  seg_push : A → Q → Q;
  seg_pop : Q → option A * Q;
  seg_is_empty : Q → bool;
  (** the queued elements, oldest first *)
  seg_elems : Q → list A
}.

Class SegQueueLaws (Q A : Type) `{SegQueue Q A} : Prop := {
  seg_new_elems : seg_elems seg_new = [];
  seg_push_elems a q : seg_elems (seg_push a q) = seg_elems q ++ [a];
  seg_pop_elems q :
    match seg_pop q with
    | (None, q') => seg_elems q = [] ∧ seg_elems q' = []
    | (Some a, q') => seg_elems q = a :: seg_elems q'
    end;
  seg_is_empty_elems q : seg_is_empty q = true ↔ seg_elems q = []
}.

(** Pushing several elements, in order. *)
Definition seg_push_all {Q A} `{SegQueue Q A} (l : list A) (q : Q) : Q :=
  fold_left (λ q a, seg_push a q) l q.

Lemma seg_push_all_elems {Q A} `{SegQueueLaws Q A} (l : list A) (q : Q) :
  seg_elems (seg_push_all l q) = seg_elems q ++ l.
Proof.
  unfold seg_push_all. revert q. induction l as [|a l IH]; intros q; simpl; [by rewrite app_nil_r|].
  by rewrite IH, seg_push_elems, <-app_assoc.
Qed.

(** ** [crossbeam_channel::bounded] *)

(** What [send] does: it queues the value, or finds the receiver gone, or
    has to wait because the channel is full. *)
Inductive send_result (C : Type) : Type :=
  | Sent (c : C)
  | SendDisconnected
  | SendBlocks.
Arguments Sent {C} c.
Arguments SendDisconnected {C}.
Arguments SendBlocks {C}.

Inductive TryRecvError := Empty | Disconnected.

Class Channel (C A : Type) := {
  ch_bounded : nat → C;
  ch_send : A → C → send_result C;
  ch_try_recv : C → result A TryRecvError * C;
  ch_clone_sender : C → C;
  ch_drop_sender : C → C;
  ch_drop_receiver : C → C;
  (** the messages in flight, the capacity, the live ends *)
  ch_elems : C → list A;
  ch_cap : C → nat;
  ch_senders : C → nat;
  ch_receiver : C → bool
}.

Class ChannelLaws (C A : Type) `{Channel C A} : Prop := {
  ch_bounded_spec n :
    ch_elems (ch_bounded n) = [] ∧ ch_cap (ch_bounded n) = n ∧
    ch_senders (ch_bounded n) = 1%nat ∧ ch_receiver (ch_bounded n) = true;
  ch_send_spec a c :
    match ch_send a c with
    | Sent c' => ch_receiver c = true ∧ (length (ch_elems c) < ch_cap c)%nat ∧
        ch_elems c' = ch_elems c ++ [a] ∧ ch_cap c' = ch_cap c ∧
        ch_senders c' = ch_senders c ∧ ch_receiver c' = ch_receiver c
    | SendDisconnected => ch_receiver c = false
    | SendBlocks => ch_receiver c = true ∧ (ch_cap c ≤ length (ch_elems c))%nat
    end;
  ch_try_recv_spec c :
    match ch_try_recv c with
    | (Ok a, c') => ch_elems c = a :: ch_elems c' ∧ ch_cap c' = ch_cap c ∧
        ch_senders c' = ch_senders c ∧ ch_receiver c' = ch_receiver c
    | (Err Empty, c') => ch_elems c = [] ∧ (0 < ch_senders c)%nat ∧ c' = c
    | (Err Disconnected, c') => ch_elems c = [] ∧ ch_senders c = 0%nat ∧ c' = c
    end;
  ch_clone_sender_spec c :
    ch_elems (ch_clone_sender c) = ch_elems c ∧ ch_cap (ch_clone_sender c) = ch_cap c ∧
    ch_senders (ch_clone_sender c) = S (ch_senders c) ∧
    ch_receiver (ch_clone_sender c) = ch_receiver c;
  ch_drop_sender_spec c :
    ch_elems (ch_drop_sender c) = ch_elems c ∧ ch_cap (ch_drop_sender c) = ch_cap c ∧
    ch_senders (ch_drop_sender c) = (ch_senders c - 1)%nat ∧
    ch_receiver (ch_drop_sender c) = ch_receiver c;
  ch_drop_receiver_spec c :
    ch_elems (ch_drop_receiver c) = [] ∧ ch_cap (ch_drop_receiver c) = ch_cap c ∧
    ch_senders (ch_drop_receiver c) = ch_senders c ∧
    ch_receiver (ch_drop_receiver c) = false
}.

(** ** Instances that compute *)

#[export] Instance list_seg_queue {A} : SegQueue (list A) A := {
  seg_new := [];
  seg_push a q := q ++ [a];
  seg_pop q := match q with [] => (None, []) | a :: q => (Some a, q) end;
  seg_is_empty q := match q with [] => true | _ => false end;
  seg_elems q := q
}.

#[export] Instance list_seg_queue_laws {A} : SegQueueLaws (list A) A.
Proof. split; try done; intros []; naive_solver. Qed.

Record list_channel (A : Type) := mkListChannel {
  lc_elems : list A;
  lc_cap : nat;
  lc_senders : nat;
  lc_receiver : bool
}.
Arguments mkListChannel {A} _ _ _ _.
Arguments lc_elems {A} _.
Arguments lc_cap {A} _.
Arguments lc_senders {A} _.
Arguments lc_receiver {A} _.

#[export] Instance list_channel_ops {A} : Channel (list_channel A) A := {
  ch_bounded n := mkListChannel [] n 1 true;
  ch_send a c :=
    if lc_receiver c then
      if (length (lc_elems c) <? lc_cap c)%nat
      then Sent (mkListChannel (lc_elems c ++ [a]) (lc_cap c) (lc_senders c) (lc_receiver c))
      else SendBlocks
    else SendDisconnected;
  ch_try_recv c :=
    match lc_elems c with
    | a :: rest => (Ok a, mkListChannel rest (lc_cap c) (lc_senders c) (lc_receiver c))
    | [] => (Err (if (lc_senders c =? 0)%nat then Disconnected else Empty), c)
    end;
  ch_clone_sender c := mkListChannel (lc_elems c) (lc_cap c) (S (lc_senders c)) (lc_receiver c);
  ch_drop_sender c := mkListChannel (lc_elems c) (lc_cap c) (lc_senders c - 1) (lc_receiver c);
  ch_drop_receiver c := mkListChannel [] (lc_cap c) (lc_senders c) false;
  ch_elems := lc_elems;
  ch_cap := lc_cap;
  ch_senders := lc_senders;
  ch_receiver := lc_receiver
}.

#[export] Instance list_channel_laws {A} : ChannelLaws (list_channel A) A.
Proof.
  split; simpl; try done.
  - intros a [l n s [|]]; simpl; [|done].
    destruct (Nat.ltb_spec (length l) n); simpl; auto 10.
  - intros [[|a l] n s r]; simpl; [|auto].
    destruct (Nat.eqb_spec s 0); simpl; auto with lia.
Qed.
