(* ===== verification/Timer.v ===== *)
(** * The timer wheel (src/timer/mod.rs, src/timer/entry.rs, src/timer/id.rs) *)

From S2P Require Import Prelude.

(** An [Instant] or [Duration] is a number of nanoseconds. *)

(** ** Timer ids: the global counter [TIMER_COUNTER] *)

Definition TIMER_COUNTER_INIT : Z := 1.

Definition TimerId_new (counter : Z) : Z * Z := fetch_add1 counter.

Section timer_wheel.
Context {W : Type}.

Record Entry := mkEntry {
  entry_id : Z;
  entry_waker : W
}.

Record TimerWheel := mkTimerWheel {
  slots : list (list Entry);
  resolution_ms : Z;
  num_slots : Z;
  current_slot : Z;
  start_time : Z
}.

Definition set_slots (w : TimerWheel) (ss : list (list Entry)) : TimerWheel :=
  mkTimerWheel ss (resolution_ms w) (num_slots w) (current_slot w) (start_time w).

(** [TimerWheel::new]; [now] is the result of [Instant::now()]. *)
Definition new (num_slots resolution_ms now : Z) : TimerWheel :=
  mkTimerWheel (replicate (Z.to_nat num_slots) []) resolution_ms num_slots 0 now.

(** [elapsed.as_millis() as u64 / self.resolution_ms], with
    [elapsed = t.saturating_duration_since(self.start_time)]. *)
Definition slot_offset (w : TimerWheel) (t : Z) : outcome Z :=
  let elapsed := Z.max 0 (t - start_time w) in
  let millis := wrap64 (elapsed / 1000000) in
  if resolution_ms w =? 0 then Panic else Ret (millis / resolution_ms w).

Definition calculate_slot (w : TimerWheel) (at_ : Z) : outcome Z :=
  offset ← slot_offset w at_;
  if num_slots w =? 0 then Panic else Ret (offset mod num_slots w).

Definition schedule (counter : Z) (w : TimerWheel) (at_ : Z) (waker : W)
    : outcome (Z * Z * TimerWheel) :=
  let '(timer_id, counter') := TimerId_new counter in
  slot_index ← calculate_slot w at_;
  slot ← expect (slots w !! Z.to_nat slot_index);
  Ret (timer_id, counter',
       set_slots w (<[Z.to_nat slot_index := slot ++ [mkEntry timer_id waker]]> (slots w))).

(** [slot.iter().position(|entry| entry.id == id)] *)
Fixpoint position (id : Z) (slot : list Entry) : option nat :=
  match slot with
  | [] => None
  | e :: rest => if entry_id e =? id then Some O else S <$> position id rest
  end.

(** The loop of [cancel] over the slots: the first slot that holds the id
    loses its first entry with that id, and the search stops. *)
Fixpoint cancel_slots (id : Z) (ss : list (list Entry)) : bool * list (list Entry) :=
  match ss with
  | [] => (false, [])
  | slot :: rest =>
      match position id slot with
      | Some pos => (true, delete pos slot :: rest)
      | None => let '(found, rest') := cancel_slots id rest in (found, slot :: rest')
      end
  end.

Definition cancel (w : TimerWheel) (id : Z) : bool * TimerWheel :=
  let '(found, ss) := cancel_slots id (slots w) in (found, set_slots w ss).

(** [while let Some(entry) = slot.pop_front() { ready.push(entry.waker) }] *)
Fixpoint drain_slot (slot : list Entry) (ready : list W) : list W :=
  match slot with
  | [] => ready
  | e :: rest => drain_slot rest (ready ++ [entry_waker e])
  end.

(** One turn of the wheel: empty the current slot and step to the next. *)
Definition turn (w : TimerWheel) (ready : list W) : outcome (TimerWheel * list W) :=
  slot ← expect (slots w !! Z.to_nat (current_slot w));
  if num_slots w =? 0 then Panic else
  Ret (mkTimerWheel (<[Z.to_nat (current_slot w) := []]> (slots w)) (resolution_ms w)
         (num_slots w) ((current_slot w + 1) mod num_slots w) (start_time w),
       drain_slot slot ready).

(** [for _ in 0..self.num_slots { ... }] of the full-rotation branch *)
Fixpoint turns (n : nat) (w : TimerWheel) (ready : list W) : outcome (TimerWheel * list W) :=
  match n with
  | O => Ret (w, ready)
  | S n => '(w', ready') ← turn w ready; turns n w' ready'
  end.

(** The [while] loop of [expire]. *)
Fixpoint expire_loop (fuel : nat) (target_slot_offset target_slot : Z)
    (w : TimerWheel) (ready : list W) : outcome (TimerWheel * list W) :=
  match fuel with
  | O => NoFuel
  | S fuel =>
      if negb (current_slot w =? target_slot) || (num_slots w <=? target_slot_offset) then
        '(w', ready') ← turn w ready;
        if num_slots w' <=? target_slot_offset
        then turns (Z.to_nat (num_slots w')) w' ready'
        else expire_loop fuel target_slot_offset target_slot w' ready'
      else Ret (w, ready)
  end.

Definition expire (w : TimerWheel) (now : Z) (ready : list W)
    : outcome (TimerWheel * list W) :=
  target_slot_offset ← slot_offset w now;
  if num_slots w =? 0 then Panic else
  let target_slot := target_slot_offset mod num_slots w in
  expire_loop (S (Z.to_nat (num_slots w))) target_slot_offset target_slot w ready.

Definition pending_count (w : TimerWheel) : Z :=
  Z.of_nat (sum_list (length <$> slots w)).

End timer_wheel.
Arguments Entry W : clear implicits.
Arguments TimerWheel W : clear implicits.

(** [TimerWheel::default]: 4096 slots of one millisecond. *)
Definition TimerWheel_default {W} (now : Z) : TimerWheel W := new 4096 1 now.

(** ** Well-formed wheels *)

Section wheel_facts.
Context {W : Type}.
Implicit Types (w : TimerWheel W) (ready : list W).

Definition wheel_wf w : Prop :=
  0 < num_slots w < 2 ^ 64 ∧ 0 < resolution_ms w ∧
  Z.of_nat (length (slots w)) = num_slots w ∧ 0 ≤ current_slot w < num_slots w.

Definition wakers (es : list (Entry W)) : list W := entry_waker <$> es.

(** The slots in the order the wheel visits them, the current one first. *)
Definition rotation w : list (list (Entry W)) :=
  drop (Z.to_nat (current_slot w)) (slots w) ++ take (Z.to_nat (current_slot w)) (slots w).

Lemma drain_slot_app slot ready : drain_slot slot ready = ready ++ wakers slot.
Proof.
  revert ready. induction slot as [|e slot IH]; intros ready; simpl; [by rewrite app_nil_r|].
  by rewrite IH, <-app_assoc.
Qed.

Lemma new_wf n r now :
  0 < n < 2 ^ 64 → 0 < r → wheel_wf (@new W n r now).
Proof. unfold wheel_wf; simpl. rewrite length_replicate. lia. Qed.

Lemma rotation_length w : length (rotation w) = length (slots w).
Proof. unfold rotation. rewrite length_app, length_drop, length_take. lia. Qed.

Lemma slot_offset_wf w t :
  wheel_wf w →
  slot_offset w t = Ret (wrap64 (Z.max 0 (t - start_time w) / 1000000) / resolution_ms w).
Proof.
  intros (_ & Hr & _). unfold slot_offset. case (Z.eqb_spec (resolution_ms w) 0); [lia|done].
Qed.

Lemma slot_offset_nonneg w t off : wheel_wf w → slot_offset w t = Ret off → 0 ≤ off.
Proof.
  intros Hwf. rewrite slot_offset_wf by done. intros [= <-].
  pose proof (wrap64_range (Z.max 0 (t - start_time w) / 1000000)) as [? _].
  destruct Hwf as (_ & ? & _). apply Z.div_pos; lia.
Qed.

Lemma calculate_slot_wf w t off :
  wheel_wf w → slot_offset w t = Ret off → calculate_slot w t = Ret (off mod num_slots w).
Proof.
  intros (Hn & _) Ho. unfold calculate_slot. rewrite Ho; simpl.
  case (Z.eqb_spec (num_slots w) 0); [lia|done].
Qed.

Lemma slot_lookup_wf w i :
  wheel_wf w → 0 ≤ i < num_slots w → ∃ slot, slots w !! Z.to_nat i = Some slot.
Proof. intros (_ & _ & Hl & _) ?. apply lookup_lt_is_Some_2. lia. Qed.

Lemma schedule_wf counter w at_ waker off :
  wheel_wf w → slot_offset w at_ = Ret off →
  ∃ slot, slots w !! Z.to_nat (off mod num_slots w) = Some slot ∧
    schedule counter w at_ waker =
      Ret (counter, wrap64 (counter + 1),
           set_slots w (<[Z.to_nat (off mod num_slots w) := slot ++ [mkEntry counter waker]]>
                          (slots w))).
Proof.
  intros Hwf Ho. unfold schedule; simpl. rewrite (calculate_slot_wf _ _ off) by done; simpl.
  destruct (slot_lookup_wf w (off mod num_slots w)) as [slot Hs]; [done| |].
  { apply Z.mod_pos_bound. destruct Hwf; lia. }
  rewrite Hs. eauto.
Qed.

Lemma set_slots_wf w ss : wheel_wf w → length ss = length (slots w) → wheel_wf (set_slots w ss).
Proof. intros (?&?&?&?) Hl. unfold wheel_wf; simpl. rewrite Hl. auto. Qed.

Lemma cancel_slots_length id (ss : list (list (Entry W))) :
  length (cancel_slots id ss).2 = length ss.
Proof.
  induction ss as [|s ss IH]; simpl; [done|].
  destruct (position id s); simpl; [done|]. destruct (cancel_slots id ss); simpl in *. lia.
Qed.

(** A turn of a well-formed wheel moves the head of the rotation to [ready]
    and leaves an empty slot at its end. *)
Lemma turn_rotation w ready slot rest :
  wheel_wf w → rotation w = slot :: rest →
  ∃ w', turn w ready = Ret (w', ready ++ wakers slot) ∧ wheel_wf w' ∧
    rotation w' = rest ++ [[]] ∧
    current_slot w' = (current_slot w + 1) mod num_slots w ∧
    num_slots w' = num_slots w ∧ resolution_ms w' = resolution_ms w ∧
    start_time w' = start_time w.
Proof.
  intros Hwf Hrot. pose proof Hwf as (Hn & Hr & Hl & Hc).
  destruct (slot_lookup_wf w (current_slot w) Hwf Hc) as [s Hs].
  unfold turn. rewrite Hs; simpl.
  destruct (Z.eqb_spec (num_slots w) 0) as [|_]; [lia|].
  unfold rotation in Hrot. rewrite (drop_S _ _ _ Hs) in Hrot. injection Hrot as <- <-.
  eexists; split; [by rewrite drain_slot_app|].
  split; [|split; [|done]].
  { unfold wheel_wf; simpl. rewrite length_insert.
    pose proof (ring_step_range (num_slots w) (current_slot w)). lia. }
  unfold rotation; simpl. set (c := current_slot w) in *.
  destruct (decide (c + 1 = num_slots w)) as [Heq|Hne].
  - rewrite Heq, Z_mod_same_full, Z2Nat.inj_0, drop_0, app_nil_r.
    rewrite insert_take_drop by lia. by rewrite !drop_ge by lia.
  - rewrite (Z.mod_small (c + 1)) by lia.
    replace (Z.to_nat (c + 1)) with (S (Z.to_nat c)) by lia.
    rewrite drop_insert_lt by lia.
    rewrite (take_S_r _ _ []) by (rewrite list_lookup_insert_eq; [done|lia]).
    rewrite take_insert_ge by lia. by rewrite app_assoc.
Qed.

Lemma turn_some w ready :
  wheel_wf w →
  ∃ slot rest w', rotation w = slot :: rest ∧ turn w ready = Ret (w', ready ++ wakers slot) ∧
    wheel_wf w' ∧ current_slot w' = (current_slot w + 1) mod num_slots w ∧
    num_slots w' = num_slots w.
Proof.
  intros Hwf. destruct (rotation w) as [|slot rest] eqn:Hrot.
  { pose proof (rotation_length w) as Hl. destruct Hwf as (?&?&?&?). rewrite Hrot in Hl.
    simpl in Hl. lia. }
  destruct (turn_rotation w ready slot rest Hwf Hrot) as (w' & ? & ? & _ & ? & ? & _). eauto 10.
Qed.

(** [k] turns empty the first [k] slots of the rotation, in order. *)
Lemma turns_rotation k w ready :
  wheel_wf w → (k ≤ length (slots w))%nat →
  ∃ w', turns k w ready = Ret (w', ready ++ wakers (mjoin (take k (rotation w)))) ∧ wheel_wf w' ∧
    rotation w' = drop k (rotation w) ++ replicate k [] ∧
    current_slot w' = (current_slot w + Z.of_nat k) mod num_slots w ∧
    num_slots w' = num_slots w ∧ resolution_ms w' = resolution_ms w ∧
    start_time w' = start_time w.
Proof.
  revert w ready. induction k as [|k IH]; intros w ready Hwf Hk; simpl.
  { exists w. destruct Hwf as (?&?&?&?). unfold wheel_wf.
    rewrite !app_nil_r, Z.add_0_r, Z.mod_small by lia. auto 10. }
  destruct (rotation w) as [|slot rest] eqn:Hrot.
  { pose proof (rotation_length w) as Hl. rewrite Hrot in Hl. simpl in Hl. lia. }
  destruct (turn_rotation w ready slot rest Hwf Hrot)
    as (w1 & -> & Hwf1 & Hrot1 & Hc1 & Hn1 & Hr1 & Hst1); simpl.
  pose proof (rotation_length w) as Hlen. rewrite Hrot in Hlen. simpl in Hlen.
  pose proof (rotation_length w1) as Hlen1. rewrite Hrot1, length_app in Hlen1. simpl in Hlen1.
  destruct (IH w1 (ready ++ wakers slot) Hwf1 ltac:(lia))
    as (w2 & -> & Hwf2 & Hrot2 & Hc2 & Hn2 & Hr2 & Hst2); simpl.
  exists w2. rewrite Hrot1 in *.
  rewrite take_app_le in * by lia. rewrite drop_app_le in Hrot2 by lia.
  split; [unfold wakers; by rewrite fmap_app, app_assoc|].
  split; [done|]. split; [by rewrite Hrot2, <-app_assoc|].
  rewrite Hc2, Hc1, Hn2, Hn1, Hr2, Hr1, Hst2, Hst1.
  rewrite Zplus_mod_idemp_l. split; [f_equal; lia|done].
Qed.

Lemma rotation_lookup w (j : nat) :
  wheel_wf w → Z.of_nat j < num_slots w →
  rotation w !! j = slots w !! Z.to_nat ((current_slot w + Z.of_nat j) mod num_slots w).
Proof.
  intros (Hn & _ & Hl & Hc) Hj. unfold rotation.
  destruct (decide (current_slot w + Z.of_nat j < num_slots w)).
  - rewrite lookup_app_l by (rewrite length_drop; lia).
    rewrite lookup_drop, Z.mod_small by lia. f_equal; lia.
  - rewrite lookup_app_r by (rewrite length_drop; lia).
    rewrite length_drop, lookup_take_lt by lia.
    rewrite (ring_wrap (num_slots w)) by lia. f_equal; lia.
Qed.

(** [k] turns empty exactly the [k] slots that follow the current one. *)
Lemma turns_slots k w ready w' ready' (i : nat) :
  wheel_wf w → (k ≤ length (slots w))%nat → turns k w ready = Ret (w', ready') →
  Z.of_nat i < num_slots w →
  slots w' !! i =
    if decide ((Z.of_nat i - current_slot w) mod num_slots w < Z.of_nat k)
    then Some [] else slots w !! i.
Proof.
  intros Hwf Hk Ht Hi.
  destruct (turns_rotation k w ready Hwf Hk) as (w1 & Ht1 & Hwf1 & Hrot & Hc1 & Hn1 & _ & _).
  rewrite Ht in Ht1. injection Ht1 as <- _.
  pose proof Hwf as (Hn & _ & Hl & Hc).
  set (n := num_slots w) in *. set (d := (Z.of_nat i - current_slot w) mod n).
  pose proof (Z.mod_pos_bound (Z.of_nat i - current_slot w) n ltac:(lia)) as Hd. fold d in Hd.
  set (j := Z.to_nat (if decide (d < Z.of_nat k) then d - Z.of_nat k + n else d - Z.of_nat k)).
  pose proof (rotation_lookup w' j Hwf1) as Hlook. rewrite Hn1, Hc1, Zplus_mod_idemp_l in Hlook.
  assert (Z.to_nat ((current_slot w + Z.of_nat k + Z.of_nat j) mod n) = i) as Hij.
  { assert ((current_slot w + Z.of_nat k + Z.of_nat j) mod n = (current_slot w + d) mod n) as ->.
    { unfold j. case_decide; [|f_equal; lia].
      replace (current_slot w + Z.of_nat k + Z.of_nat (Z.to_nat (d - Z.of_nat k + n)))
        with (current_slot w + d + 1 * n) by lia. apply Z_mod_plus_full. }
    unfold d. rewrite ring_round; lia. }
  rewrite Hij in Hlook. rewrite <-Hlook, Hrot by (unfold j; case_decide; lia).
  pose proof (rotation_length w) as Hrl. unfold j. case_decide.
  - rewrite lookup_app_r by (rewrite length_drop; lia).
    apply lookup_replicate_2. rewrite length_drop. lia.
  - rewrite lookup_app_l, lookup_drop by (rewrite length_drop; lia).
    rewrite rotation_lookup by (done || lia). fold n.
    replace (current_slot w + Z.of_nat (k + Z.to_nat (d - Z.of_nat k)))
      with (current_slot w + d) by lia.
    unfold d. rewrite ring_round by lia. f_equal; lia.
Qed.

Lemma rotation_perm w : mjoin (rotation w) ≡ₚ mjoin (slots w).
Proof.
  unfold rotation. rewrite <-(take_drop (Z.to_nat (current_slot w)) (slots w)) at 3.
  rewrite !join_app. apply Permutation_app_comm.
Qed.

(** Any number of turns loses no entry and duplicates none. *)
Lemma turns_conserve k w ready :
  wheel_wf w → ∃ w' fired, turns k w ready = Ret (w', ready ++ wakers fired) ∧ wheel_wf w' ∧
    num_slots w' = num_slots w ∧ mjoin (slots w) ≡ₚ fired ++ mjoin (slots w').
Proof.
  revert w ready. induction k as [|k IH]; intros w ready Hwf; simpl.
  { exists w, []. by rewrite app_nil_r. }
  destruct (turn_some w ready Hwf) as (slot & rest & w1 & Hrot & Hw1 & _).
  destruct (turn_rotation w ready slot rest Hwf Hrot)
    as (w1' & Ht & Hwf1 & Hrot1 & _ & Hn1 & _). rewrite Ht; simpl.
  destruct (IH w1' (ready ++ wakers slot) Hwf1) as (w2 & fired & -> & Hwf2 & Hn2 & Hp).
  exists w2, (slot ++ fired). unfold wakers. rewrite fmap_app, app_assoc, Hn2, Hn1.
  split; [done|]. split; [done|]. split; [done|].
  rewrite <-app_assoc, <-Hp, <-(rotation_perm w), <-(rotation_perm w1'), Hrot, Hrot1.
  rewrite join_app; simpl. by rewrite app_nil_r.
Qed.

(** The number of turns [expire] makes for a target offset. *)
Definition expire_turns w (off : Z) : nat :=
  if num_slots w <=? off then S (Z.to_nat (num_slots w))
  else Z.to_nat ((off - current_slot w) mod num_slots w).

Lemma turns_S k w ready :
  turns (S k) w ready = ('(w', r') ← turn w ready; turns k w' r').
Proof. done. Qed.

Lemma expire_loop_partial fuel k off w ready :
  wheel_wf w → 0 ≤ off < num_slots w →
  k = Z.to_nat ((off - current_slot w) mod num_slots w) → (k < fuel)%nat →
  expire_loop fuel off off w ready = turns k w ready.
Proof.
  revert k w ready. induction fuel as [|fuel IH]; intros k w ready Hwf Hoff Hk Hf; [lia|].
  pose proof Hwf as (Hn & _ & _ & Hc). simpl.
  destruct (Z.leb_spec (num_slots w) off); [lia|]. rewrite orb_false_r.
  pose proof (Z.mod_pos_bound (off - current_slot w) (num_slots w) ltac:(lia)) as Hb.
  destruct (Z.eqb_spec (current_slot w) off) as [Heq|Hne]; simpl.
  { rewrite Heq, Z.sub_diag, Z.mod_0_l in Hk by lia. by subst k. }
  destruct k as [|k].
  { exfalso. apply Hne. symmetry. apply (ring_dist_0 (num_slots w)); lia. }
  rewrite turns_S. destruct (turn_some w ready Hwf) as (slot & rest & w1 & _ & -> & Hwf1 & Hc1 & Hn1).
  simpl. rewrite Hn1. destruct (Z.leb_spec (num_slots w) off); [lia|].
  apply IH; [done|lia| |lia].
  rewrite Hc1, Hn1, Zminus_mod_idemp_r.
  replace (off - (current_slot w + 1)) with (off - current_slot w - 1) by lia.
  rewrite <-Zminus_mod_idemp_l, Z.mod_small; lia.
Qed.

Lemma expire_is_turns w now off ready :
  wheel_wf w → slot_offset w now = Ret off →
  expire w now ready = turns (expire_turns w off) w ready.
Proof.
  intros Hwf Ho. pose proof (slot_offset_nonneg _ _ _ Hwf Ho) as H0.
  pose proof Hwf as (Hn & _ & _ & Hc). unfold expire. rewrite Ho; simpl.
  destruct (Z.eqb_spec (num_slots w) 0); [lia|]. unfold expire_turns.
  destruct (Z.leb_spec (num_slots w) off) as [Hge|Hlt].
  - rewrite orb_true_r. rewrite turns_S.
    destruct (turn_some w ready Hwf) as (slot & rest & w1 & _ & -> & Hwf1 & Hc1 & Hn1).
    simpl. rewrite Hn1. by destruct (Z.leb_spec (num_slots w) off); [|lia].
  - rewrite Z.mod_small by lia.
    pose proof (Z.mod_pos_bound (off - current_slot w) (num_slots w) ltac:(lia)).
    rewrite <-(expire_loop_partial (S (Z.to_nat (num_slots w)))
      (Z.to_nat ((off - current_slot w) mod num_slots w)) off w ready); [|done|lia|done|lia].
    simpl. by destruct (Z.leb_spec (num_slots w) off); [lia|].
Qed.

(** A target less than one rotation away: the slots before it are emptied. *)
Lemma expire_partial w now off ready :
  wheel_wf w → slot_offset w now = Ret off → off < num_slots w →
  let k := Z.to_nat ((off - current_slot w) mod num_slots w) in
  ∃ w', expire w now ready = Ret (w', ready ++ wakers (mjoin (take k (rotation w)))) ∧
    wheel_wf w' ∧ current_slot w' = off ∧ num_slots w' = num_slots w ∧
    resolution_ms w' = resolution_ms w ∧ start_time w' = start_time w ∧
    ∀ i : nat, Z.of_nat i < num_slots w → slots w' !! i =
      if decide ((Z.of_nat i - current_slot w) mod num_slots w < Z.of_nat k)
      then Some [] else slots w !! i.
Proof.
  intros Hwf Ho Hlt k. pose proof (slot_offset_nonneg _ _ _ Hwf Ho) as H0.
  pose proof Hwf as (Hn & _ & Hl & _).
  pose proof (Z.mod_pos_bound (off - current_slot w) (num_slots w) ltac:(lia)) as Hb.
  rewrite (expire_is_turns _ _ _ _ Hwf Ho). unfold expire_turns.
  destruct (Z.leb_spec (num_slots w) off); [lia|]. fold k.
  destruct (turns_rotation k w ready Hwf ltac:(lia))
    as (w' & Ht & Hwf' & _ & Hc & Hn' & Hr' & Hs').
  exists w'. rewrite Ht. split_and!; try done.
  - rewrite Hc. unfold k. rewrite Z2Nat.id, ring_round; lia.
  - intros i Hi. apply (turns_slots k w ready _ _ i Hwf ltac:(lia) Ht Hi).
Qed.

(** A target one rotation or more after the start: every slot is emptied. *)
Lemma expire_full w now off ready :
  wheel_wf w → slot_offset w now = Ret off → num_slots w ≤ off →
  ∃ w' fired, expire w now ready = Ret (w', ready ++ wakers fired) ∧ wheel_wf w' ∧
    fired ≡ₚ mjoin (slots w) ∧ mjoin (slots w') = [] ∧
    current_slot w' = (current_slot w + 1) mod num_slots w.
Proof.
  intros Hwf Ho Hge. rewrite (expire_is_turns _ _ _ _ Hwf Ho). unfold expire_turns.
  destruct (Z.leb_spec (num_slots w) off); [|lia]. rewrite turns_S.
  destruct (turn_some w ready Hwf) as (slot & rest & w0 & Hrot & _).
  destruct (turn_rotation w ready slot rest Hwf Hrot)
    as (w1 & -> & Hwf1 & Hrot1 & Hc1 & Hn1 & _). simpl.
  pose proof Hwf1 as (Hn & _ & Hl & Hc).
  pose proof (rotation_length w1) as Hlen.
  destruct (turns_rotation (Z.to_nat (num_slots w)) w1 (ready ++ wakers slot) Hwf1 ltac:(lia))
    as (w2 & -> & Hwf2 & Hrot2 & Hc2 & _).
  exists w2, (slot ++ mjoin (rotation w1)). rewrite take_ge by lia.
  split_and!; try done.
  - unfold wakers. by rewrite fmap_app, app_assoc.
  - rewrite <-(rotation_perm w), Hrot, Hrot1, join_app; simpl. by rewrite app_nil_r.
  - apply Permutation_nil_r. rewrite <-(rotation_perm w2), Hrot2, drop_ge by lia. simpl.
    by rewrite join_replicate_nil.
  - rewrite Hc2, Hn1, Z2Nat.id by lia. rewrite <-(Z_mod_plus_full _ (-1) (num_slots w)).
    replace (current_slot w1 + num_slots w + -1 * num_slots w) with (current_slot w1) by lia.
    rewrite Z.mod_small by lia. done.
Qed.

End wheel_facts.
#[export] Hint Resolve new_wf set_slots_wf : miniss.

(** ** Searching and cancelling *)

Section cancel_facts.
Context {W : Type}.
Implicit Types (slot : list (Entry W)) (ss : list (list (Entry W))).

Lemma position_None id slot : position id slot = None ↔ Forall (λ e, entry_id e ≠ id) slot.
Proof.
  induction slot as [|e slot IH]; simpl; [by split|]. rewrite Forall_cons.
  destruct (Z.eqb_spec (entry_id e) id); [split; [done|tauto]|].
  rewrite fmap_None, IH. tauto.
Qed.

Lemma position_Some id slot pos :
  position id slot = Some pos → ∃ pre e post,
    slot = pre ++ e :: post ∧ length pre = pos ∧ entry_id e = id ∧
    Forall (λ e, entry_id e ≠ id) pre.
Proof.
  revert pos. induction slot as [|e slot IH]; simpl; intros pos; [done|].
  destruct (Z.eqb_spec (entry_id e) id) as [?|Hne].
  - intros [= <-]. by exists [], e, slot.
  - intros (p & Hp & ->)%fmap_Some. destruct (IH p Hp) as (pre & e' & post & -> & <- & ? & ?).
    exists (e :: pre), e', post. simpl. auto using Forall_cons.
Qed.

(** The search of [cancel]: either no entry has the id and nothing changes,
    or one entry with it leaves its slot. *)
Lemma cancel_slots_spec id ss :
  match cancel_slots id ss with
  | (true, ss') => ∃ i slot pre e post,
      ss !! i = Some slot ∧ slot = pre ++ e :: post ∧ entry_id e = id ∧
      Forall (λ e, entry_id e ≠ id) pre ∧ Forall (Forall (λ e, entry_id e ≠ id)) (take i ss) ∧
      ss' = <[i := pre ++ post]> ss
  | (false, ss') => ss' = ss ∧ Forall (λ e, entry_id e ≠ id) (mjoin ss)
  end.
Proof.
  induction ss as [|slot ss IH]; simpl; [by split|].
  destruct (position id slot) as [pos|] eqn:Hpos.
  - apply position_Some in Hpos as (pre & e & post & -> & <- & ? & ?).
    exists O, (pre ++ e :: post), pre, e, post. simpl. rewrite delete_middle. auto 10.
  - apply position_None in Hpos. destruct (cancel_slots id ss) as [[|] ss'].
    + destruct IH as (i & sl & pre & e & post & ? & ? & ? & ? & ? & ->).
      exists (S i), sl, pre, e, post. simpl. auto 10 using Forall_cons.
    + destruct IH as [-> ?]. split; [done|]. by apply Forall_app.
Qed.

Lemma position_snoc_fresh id slot e :
  Forall (λ e, entry_id e ≠ id) slot → entry_id e = id →
  position id (slot ++ [e]) = Some (length slot).
Proof.
  intros Hf He. induction Hf as [|e' l He' _ IHl]; simpl; [by rewrite He, Z.eqb_refl|].
  apply Z.eqb_neq in He'. by rewrite He', IHl.
Qed.

Lemma cancel_slots_insert_fresh id wk ss i slot :
  ss !! i = Some slot → Forall (λ e, entry_id e ≠ id) (mjoin ss) →
  cancel_slots id (<[i := slot ++ [mkEntry id wk]]> ss) = (true, ss).
Proof.
  revert i. induction ss as [|s ss IH]; intros [|i]; simpl; try done; intros Hi [Hf1 Hf2]%Forall_app.
  - injection Hi as ->. rewrite (position_snoc_fresh id slot (mkEntry id wk)) by done.
    by rewrite delete_middle, app_nil_r.
  - apply position_None in Hf1. by rewrite Hf1, (IH i Hi Hf2).
Qed.

Lemma filter_other_ids id slot :
  id ∉ (entry_id <$> slot) → filter (λ e, entry_id e ≠ id) slot = slot.
Proof.
  intros Hni. apply filter_Forall_all, Forall_forall. intros e He <-. apply Hni.
  by apply list_elem_of_fmap_2.
Qed.

Lemma filter_other_ids_join id ss :
  id ∉ (entry_id <$> mjoin ss) → filter (λ e, entry_id e ≠ id) <$> ss = ss.
Proof.
  induction ss as [|slot ss IH]; csimpl; [done|]. rewrite fmap_app, not_elem_of_app.
  intros [??]. by rewrite filter_other_ids, IH.
Qed.

(** With distinct ids the search removes the entry from wherever it is. *)
Lemma cancel_slots_filter id ss :
  NoDup (entry_id <$> mjoin ss) →
  (cancel_slots id ss).2 = filter (λ e, entry_id e ≠ id) <$> ss.
Proof.
  induction ss as [|slot ss IH]; csimpl; [done|].
  rewrite fmap_app, NoDup_app. intros (Hnd & Hdisj & Hrest).
  destruct (position id slot) as [pos|] eqn:Hpos; simpl.
  - apply position_Some in Hpos as (pre & e & post & -> & <- & <- & Hpre).
    rewrite delete_middle, filter_other_ids_join; [|apply Hdisj; rewrite fmap_app; set_solver]. f_equal.
    rewrite fmap_app, fmap_cons, NoDup_app, NoDup_cons in Hnd.
    destruct Hnd as (_ & Hd & Hni & _). rewrite filter_app, filter_cons_False by auto.
    rewrite !filter_other_ids; [done|done|]. intros Hin. apply (Hd _ Hin). apply list_elem_of_here.
  - apply position_None in Hpos. specialize (IH Hrest).
    destruct (cancel_slots id ss) as [b ss']; simpl in *. rewrite IH. f_equal.
    by rewrite filter_Forall_all.
Qed.

End cancel_facts.
