(* ===== verification/TimerProps.v ===== *)
(** * Properties of the timer wheel

    The abstract timer queue of the first rotation, the simulation between it
    and the wheel, the reachable states of a wheel and the behaviour of
    [expire] on every branch. *)

From stdpp Require Import sorting.
From S2P Require Import Prelude Timer.

(** ** Abstract specification: a queue of timers with their deadline ticks *)

Section timer_spec.
Context {W : Type}.
Implicit Types (w : TimerWheel W) (q : list (Z * Entry W)) (ready : list W).

(** The pending timers of a wheel and their ids. *)
Definition entries w : list (Entry W) := mjoin (slots w).
Definition ids w : list Z := entry_id <$> entries w.

Definition spec_schedule q (tick : Z) (e : Entry W) : list (Z * Entry W) := q ++ [(tick, e)].

Definition spec_cancel q (id : Z) : list (Z * Entry W) :=
  filter (λ te, entry_id te.2 ≠ id) q.

(** At tick [now] the timers of the ticks strictly before [now] are due. *)
Definition spec_due q (now : Z) : list (Z * Entry W) := filter (λ te, te.1 < now) q.
Definition spec_later q (now : Z) : list (Z * Entry W) := filter (λ te, now ≤ te.1) q.

Definition tick_le (a b : Z * Entry W) : Prop := a.1 ≤ b.1.

(** The wheel implements the queue: slot [i] holds, in order of insertion, the
    timers of tick [i], and no timer is behind the current slot. *)
Definition wheel_refines w q : Prop :=
  wheel_wf w ∧
  (∀ i : nat, Z.of_nat i < num_slots w →
     slots w !! i = Some (snd <$> filter (λ te, te.1 = Z.of_nat i) q)) ∧
  Forall (λ te, current_slot w ≤ te.1 < num_slots w) q.

(** ** Entries of a slot range *)

Definition by_ticks (lo k : nat) q : list (Z * Entry W) :=
  mjoin ((λ i : nat, filter (λ te, te.1 = Z.of_nat i) q) <$> seq lo k).

Lemma by_ticks_S lo k q :
  by_ticks lo (S k) q = filter (λ te, te.1 = Z.of_nat lo) q ++ by_ticks (S lo) k q.
Proof. done. Qed.

Lemma by_ticks_perm lo k q :
  by_ticks lo k q ≡ₚ filter (λ te, Z.of_nat lo ≤ te.1 < Z.of_nat (lo + k)) q.
Proof.
  revert lo. induction k as [|k IH]; intros lo.
  { rewrite filter_Forall_none; [done|]. apply Forall_forall; intros; lia. }
  rewrite by_ticks_S, IH. symmetry. apply filter_split_perm; intros te; lia.
Qed.

Lemma elem_of_by_ticks lo k q te :
  te ∈ by_ticks lo k q → Z.of_nat lo ≤ te.1 < Z.of_nat (lo + k).
Proof. rewrite by_ticks_perm, list_elem_of_filter. tauto. Qed.

Lemma same_tick_sorted t q : StronglySorted tick_le (filter (λ te, te.1 = t) q).
Proof.
  induction q as [|te q IH]; [constructor|].
  rewrite filter_cons. case_decide as Ht; [|done]. constructor; [done|].
  apply Forall_forall. intros te' [??]%list_elem_of_filter. unfold tick_le. lia.
Qed.

Lemma by_ticks_sorted lo k q : StronglySorted tick_le (by_ticks lo k q).
Proof.
  revert lo. induction k as [|k IH]; intros lo; [constructor|].
  rewrite by_ticks_S. apply StronglySorted_app_2; [|apply same_tick_sorted|apply IH].
  intros te1 te2 [? _]%list_elem_of_filter ?%elem_of_by_ticks. unfold tick_le. lia.
Qed.

(** The next [k] slots of a refining wheel are the entries of its next [k] ticks. *)
Lemma rotation_by_ticks w q k :
  wheel_refines w q → current_slot w + Z.of_nat k ≤ num_slots w →
  mjoin (take k (rotation w)) = snd <$> by_ticks (Z.to_nat (current_slot w)) k q.
Proof.
  intros (Hwf & Hslots & _) Hk. destruct Hwf as (_ & _ & Hl & Hc).
  unfold by_ticks, rotation. rewrite take_app_le by (rewrite length_drop; lia).
  rewrite fmap_mjoin. f_equal. apply list_eq; intros i.
  rewrite <-list_fmap_compose, list_lookup_fmap.
  destruct (decide (i < k)%nat) as [Hi|Hi].
  - rewrite lookup_take_lt, lookup_drop, Hslots, lookup_seq_lt by lia. simpl.
    done.
  - by rewrite lookup_take_ge, lookup_seq_ge by lia.
Qed.

(** ** Simulation: each operation of the wheel follows the abstract queue *)

Lemma refines_schedule w q c at_ wk off :
  wheel_refines w q → slot_offset w at_ = Ret off → current_slot w ≤ off < num_slots w →
  ∃ w', schedule c w at_ wk = Ret (c, wrap64 (c + 1), w') ∧
    wheel_refines w' (spec_schedule q off (mkEntry c wk)).
Proof.
  intros (Hwf & Hslots & Hq) Ho Hoff. pose proof Hwf as (Hn & Hr & Hl & Hc).
  destruct (schedule_wf c w at_ wk off Hwf Ho) as (slot & Hs & ->).
  rewrite Z.mod_small in * by lia. eexists; split; [done|]. unfold spec_schedule.
  split_and!; simpl.
  - apply set_slots_wf; [done|]. by rewrite length_insert.
  - intros i Hi. rewrite Hslots in Hs by lia. injection Hs as <-.
    rewrite filter_app, fmap_app, filter_cons, filter_nil; simpl.
    destruct (decide (Z.to_nat off = i)) as [<-|Hne].
    + rewrite list_lookup_insert_eq by lia. rewrite decide_True by lia. simpl. done.
    + rewrite list_lookup_insert_ne, Hslots by (done || lia).
      rewrite decide_False by lia. simpl. by rewrite app_nil_r.
  - apply Forall_app. split; [done|]. constructor; [simpl; lia|constructor].
Qed.

Lemma refines_expire w q now ready off :
  wheel_refines w q → slot_offset w now = Ret off → current_slot w ≤ off < num_slots w →
  ∃ w' fired, expire w now ready = Ret (w', ready ++ wakers (snd <$> fired)) ∧
    fired ≡ₚ spec_due q off ∧ StronglySorted tick_le fired ∧
    current_slot w' = off ∧ wheel_refines w' (spec_later q off).
Proof.
  intros Href Ho Hoff. pose proof Href as (Hwf & Hslots & Hq). pose proof Hwf as (Hn & _ & Hl & Hc).
  destruct (expire_partial w now off ready Hwf Ho ltac:(lia))
    as (w' & -> & Hwf' & Hc' & Hn' & _ & _ & Hs').
  rewrite Z.mod_small in * by lia.
  exists w', (by_ticks (Z.to_nat (current_slot w)) (Z.to_nat (off - current_slot w)) q).
  split_and!; [|by rewrite by_ticks_perm; apply reflexive_eq, filter_ext_Forall;
                 eapply Forall_impl; [exact Hq|simpl; lia]|apply by_ticks_sorted|done|].
  { by rewrite (rotation_by_ticks w q) by (done || lia). }
  split_and!; [done| |].
  - intros i Hi. rewrite Hs' by lia. unfold spec_later. rewrite filter_filter.
    case_decide as Hd.
    + rewrite filter_Forall_none; [done|]. eapply Forall_impl; [exact Hq|]. simpl. intros te Hte [??].
      rewrite Z.mod_small in Hd; lia.
    + rewrite Hslots by lia. f_equal. f_equal. apply filter_ext_Forall.
      eapply Forall_impl; [exact Hq|]. simpl. intros te Hte.
      split; [|tauto]. intros Heq. split; [done|]. rewrite Z.mod_small in Hd; lia.
  - apply Forall_forall. intros te [? Hin]%list_elem_of_filter.
    rewrite Forall_forall in Hq. specialize (Hq te Hin). simpl in *. lia.
Qed.

Lemma refines_cancel w q id found w' :
  wheel_refines w q → NoDup (ids w) → cancel w id = (found, w') →
  wheel_refines w' (spec_cancel q id).
Proof.
  intros (Hwf & Hslots & Hq) Hnd. unfold cancel.
  pose proof (cancel_slots_length id (slots w)) as Hlen.
  pose proof (cancel_slots_filter id (slots w) Hnd) as Hf.
  destruct (cancel_slots id (slots w)) as [b ss]; simpl in *. intros [= _ <-]. subst ss.
  split_and!; simpl.
  - by apply set_slots_wf.
  - intros i Hi. rewrite list_lookup_fmap, Hslots by done. simpl. f_equal.
    unfold spec_cancel. rewrite filter_filter. rewrite filter_fmap_list, filter_filter.
    f_equal. apply filter_ext_Forall, Forall_forall. tauto.
  - apply Forall_forall. intros te [_ Hin]%list_elem_of_filter.
    rewrite Forall_forall in Hq. by apply Hq.
Qed.

(** ** Reachable states *)

(** Operations on one wheel and on the id counter all wheels share, while the
    counter has not wrapped. *)
Inductive wheel_step : Z * TimerWheel W → Z * TimerWheel W → Prop :=
  | step_schedule c w at_ wk id c' w' :
      c + 1 < 2 ^ 64 → schedule c w at_ wk = Ret (id, c', w') →
      wheel_step (c, w) (c', w')
  | step_other_wheel c w id c' :
      c + 1 < 2 ^ 64 → TimerId_new c = (id, c') → wheel_step (c, w) (c', w)
  | step_cancel c w id found w' :
      cancel w id = (found, w') → wheel_step (c, w) (c, w')
  | step_expire c w now ready w' ready' :
      expire w now ready = Ret (w', ready') → wheel_step (c, w) (c, w').

Definition wheel_inv (cw : Z * TimerWheel W) : Prop :=
  wheel_wf cw.2 ∧ 0 < cw.1 < 2 ^ 64 ∧ NoDup (ids cw.2) ∧ Forall (λ id, id < cw.1) (ids cw.2).

Lemma schedule_entries c w at_ wk id c' w' :
  wheel_wf w → schedule c w at_ wk = Ret (id, c', w') →
  id = c ∧ c' = wrap64 (c + 1) ∧ wheel_wf w' ∧ entries w' ≡ₚ entries w ++ [mkEntry c wk].
Proof.
  intros Hwf Hs. pose proof (slot_offset_wf w at_ Hwf) as Ho.
  destruct (schedule_wf c w at_ wk _ Hwf Ho) as (slot & Hl & Heq).
  rewrite Heq in Hs. injection Hs as <- <- <-. split_and!; try done.
  - apply set_slots_wf; [done|]. by rewrite length_insert.
  - unfold entries; simpl. apply (Permutation_app_inv_r slot).
    rewrite (join_insert_perm _ _ _ (slot ++ [mkEntry c wk]) Hl). solve_Permutation.
Qed.

Lemma schedule_frame c w at_ wk id c' w' :
  schedule c w at_ wk = Ret (id, c', w') →
  num_slots w' = num_slots w ∧ resolution_ms w' = resolution_ms w ∧
  start_time w' = start_time w ∧ current_slot w' = current_slot w.
Proof. unfold schedule; simpl. intros. by bind_inv. Qed.

Lemma cancel_entries w id found w' :
  wheel_wf w → cancel w id = (found, w') →
  wheel_wf w' ∧
  if found then ∃ e, entry_id e = id ∧ entries w ≡ₚ e :: entries w'
  else w' = w ∧ id ∉ ids w.
Proof.
  intros Hwf. unfold cancel. pose proof (cancel_slots_length id (slots w)) as Hlen.
  pose proof (cancel_slots_spec id (slots w)) as Hspec.
  destruct (cancel_slots id (slots w)) as [b ss]. intros [= <- <-].
  split; [by apply set_slots_wf|]. destruct b.
  - destruct Hspec as (i & slot & pre & e & post & Hi & -> & He & _ & _ & ->).
    exists e. split; [done|]. unfold entries; simpl.
    apply (Permutation_app_inv_r (pre ++ post)).
    rewrite <-(join_insert_perm _ _ _ (pre ++ post) Hi). solve_Permutation.
  - destruct Hspec as [-> Hf]. split; [by destruct w|].
    unfold ids, entries. rewrite list_elem_of_fmap. intros (e & -> & He).
    rewrite Forall_forall in Hf. by apply (Hf e).
Qed.

Lemma expire_entries w now ready :
  wheel_wf w → ∃ w' fired, expire w now ready = Ret (w', ready ++ wakers fired) ∧
    wheel_wf w' ∧ num_slots w' = num_slots w ∧ entries w ≡ₚ fired ++ entries w'.
Proof.
  intros Hwf. rewrite (expire_is_turns _ _ _ _ Hwf (slot_offset_wf w now Hwf)).
  by apply turns_conserve.
Qed.

Lemma wheel_step_inv cw cw' : wheel_inv cw → wheel_step cw cw' → wheel_inv cw'.
Proof.
  intros (Hwf & Hc & Hnd & Hlt) Hstep.
  destruct Hstep as [c w at_ wk id c' w' Hb Hs|c w id c' Hb Hid|c w id found w' Hcan
                    |c w now ready w' ready' He]; simpl in *.
  - destruct (schedule_entries _ _ _ _ _ _ _ Hwf Hs) as (-> & -> & Hwf' & Hp).
    unfold wheel_inv, ids in *; simpl. rewrite Hp, fmap_app.
    autorewrite with miniss_rw. split_and!; try done; try lia.
    + apply NoDup_app. split_and!; [done| |apply NoDup_singleton].
      intros i Hi Hi'. simpl in Hi'. rewrite list_elem_of_singleton in Hi'. subst i.
      rewrite Forall_forall in Hlt. specialize (Hlt _ Hi). lia.
    + apply Forall_app. split; [|constructor; simpl; [lia|constructor]].
      eapply Forall_impl; [exact Hlt|]. simpl. intros; lia.
  - unfold TimerId_new, fetch_add1 in Hid. injection Hid as <- <-.
    autorewrite with miniss_rw. split_and!; try done; simpl; try lia.
    eapply Forall_impl; [exact Hlt|]. simpl. intros; lia.
  - destruct (cancel_entries _ _ _ _ Hwf Hcan) as [Hwf' Hf]. destruct found.
    + destruct Hf as (e & He & Hp). unfold wheel_inv, ids in *; simpl.
      rewrite Hp in Hnd, Hlt. simpl in *. apply NoDup_cons in Hnd as [_ ?].
      by apply Forall_cons in Hlt as [_ ?].
    + destruct Hf as [-> _]. done.
  - destruct (expire_entries w now ready Hwf) as (w1 & fired & He1 & Hwf1 & _ & Hp).
    rewrite He in He1. injection He1 as <- _. unfold wheel_inv, ids in *; simpl.
    rewrite Hp, fmap_app in Hnd, Hlt. apply NoDup_app in Hnd as (_ & _ & ?).
    by apply Forall_app in Hlt as [_ ?].
Qed.

Lemma wheel_reachable_inv cw cw' : wheel_inv cw → rtc wheel_step cw cw' → wheel_inv cw'.
Proof. induction 2; eauto using wheel_step_inv. Qed.

Lemma new_inv n r now c : 0 < n < 2 ^ 64 → 0 < r → 0 < c < 2 ^ 64 → wheel_inv (c, new n r now).
Proof.
  intros. unfold wheel_inv, ids, entries; simpl. rewrite join_replicate_nil. split_and!; auto with miniss.
  all: try lia; constructor.
Qed.

End timer_spec.

(** Every state a wheel reaches from [TimerWheel::new] with a positive
    number of slots and a positive resolution is well formed, its pending
    timers have distinct ids below the shared counter, and in it neither
    [schedule] nor [expire] panics, whatever the instants given. *)
Theorem wheel_reachable_safe {W} (n r now0 c0 c : Z) (w : TimerWheel W) :
  0 < n < 2 ^ 64 → 0 < r → 0 < c0 < 2 ^ 64 →
  rtc wheel_step (c0, new n r now0) (c, w) →
  wheel_inv (c, w) ∧
  (∀ at_ wk, ∃ w', schedule c w at_ wk = Ret (c, wrap64 (c + 1), w')) ∧
  (∀ now ready, ∃ w' fired, expire w now ready = Ret (w', ready ++ fired)).
Proof.
  intros Hn Hr Hc0 Hreach.
  pose proof (wheel_reachable_inv _ _ (new_inv n r now0 c0 Hn Hr Hc0) Hreach) as Hinv.
  pose proof Hinv as [Hwf _]. simpl in Hwf. split_and!; [done| |].
  - intros at_ wk. destruct (schedule_wf c w at_ wk _ Hwf (slot_offset_wf w at_ Hwf)) as (? & _ & ->).
    eauto.
  - intros now ready. destruct (expire_entries w now ready Hwf) as (w' & fired & -> & _). eauto.
Qed.

Lemma wheel_reachable_safe_witness :
  ∃ w : TimerWheel nat, rtc wheel_step (1, new 4 1 0) (2, w) ∧ wheel_inv (2, w).
Proof.
  eexists. split; [eapply rtc_once, (step_schedule _ _ 1000000 7%nat); [lia|reflexivity]|].
  eapply (wheel_reachable_safe 4 1 0 1); [lia|lia|lia|].
  eapply rtc_once, (step_schedule _ _ 1000000 7%nat); [lia|reflexivity].
Defined.

(** [cancel] undoes [schedule]: cancelling a timer just scheduled under a
    fresh id succeeds and gives back the wheel exactly as it was. *)
Theorem cancel_after_schedule {W} c (w w' : TimerWheel W) at_ wk id c' :
  Forall (λ e, entry_id e ≠ c) (mjoin (slots w)) →
  schedule c w at_ wk = Ret (id, c', w') →
  cancel w' id = (true, w).
Proof.
  unfold schedule; simpl. intros Hf Hs. bind_inv.
  unfold cancel; simpl. by rewrite cancel_slots_insert_fresh; [destruct w|..].
Qed.

Lemma cancel_after_schedule_witness :
  ∃ w', schedule 5 (new 4 1 0) 2000000 9%nat = Ret (5, 6, w') ∧ cancel w' 5 = (true, new 4 1 0).
Proof.
  eexists. split; [reflexivity|]. eapply (cancel_after_schedule 5 _ _ 2000000 9%nat 5 6); [|reflexivity].
  vm_compute. constructor.
Defined.

(** [cancel] returns [true] exactly when some pending timer has the id; it
    then removes one such timer and keeps all the others, and otherwise it
    changes nothing. When the ids are distinct the timer is gone afterwards. *)
Theorem cancel_correct {W} (w w' : TimerWheel W) id found :
  wheel_wf w → cancel w id = (found, w') →
  (found = true ↔ id ∈ ids w) ∧
  (found = false → w' = w) ∧
  (found = true → ∃ e, entry_id e = id ∧ entries w ≡ₚ e :: entries w') ∧
  pending_count w' = pending_count w - (if found then 1 else 0) ∧
  (NoDup (ids w) → id ∉ ids w').
Proof.
  intros Hwf Hc. destruct (cancel_entries _ _ _ _ Hwf Hc) as [_ Hf].
  unfold pending_count. rewrite <-!length_join. fold (entries w) (entries w'). unfold ids in *.
  destruct found.
  - destruct Hf as (e & He & Hp). rewrite Hp. simpl.
    split_and!; [split; [|done]|done|eauto|lia|].
    + intros _. rewrite He. apply list_elem_of_here.
    + rewrite He. intros [? _]%NoDup_cons. done.
  - destruct Hf as [-> Hni]. split_and!; try done; lia.
Qed.

Lemma cancel_correct_witness :
  let w := set_slots (new 2 1 0) [[mkEntry 1 10%nat]; [mkEntry 2 20%nat]] in
  wheel_wf w ∧ (true = true ↔ 2 ∈ ids w).
Proof.
  simpl. assert (wheel_wf (set_slots (new 2 1 0) [[mkEntry 1 10%nat]; [mkEntry 2 20%nat]])) as H.
  { unfold wheel_wf; simpl; lia. }
  split; [exact H|]. exact (proj1 (cancel_correct _ _ 2 true H eq_refl)).
Defined.

(** C12. What one [expire] does, on both of its branches, for a wheel in any
    well-formed state. It terminates without a panic and every pending timer
    is either fired or still pending. When the target is less than one full
    rotation after the start, it fires in slot order exactly the slots from the
    current one up to the target, and stops at the target; otherwise it
    empties the whole wheel and moves the current slot by one. *)
Theorem expire_correct {W} (w : TimerWheel W) now off ready :
  wheel_wf w → slot_offset w now = Ret off →
  let d := (off - current_slot w) mod num_slots w in
  ∃ w' fired, expire w now ready = Ret (w', ready ++ wakers fired) ∧ wheel_wf w' ∧
    entries w ≡ₚ fired ++ entries w' ∧
    (off < num_slots w →
       current_slot w' = off ∧ fired = mjoin (take (Z.to_nat d) (rotation w)) ∧
       ∀ i : nat, Z.of_nat i < num_slots w → slots w' !! i =
         if decide ((Z.of_nat i - current_slot w) mod num_slots w < d)
         then Some [] else slots w !! i) ∧
    (num_slots w ≤ off →
       entries w' = [] ∧ current_slot w' = (current_slot w + 1) mod num_slots w).
Proof.
  intros Hwf Ho d. destruct (expire_entries w now ready Hwf) as (w1 & fired1 & He1 & _ & _ & Hp1).
  destruct (decide (off < num_slots w)) as [Hlt|Hge].
  - destruct (expire_partial w now off ready Hwf Ho Hlt) as (w' & He & Hwf' & Hc & _ & _ & _ & Hs).
    fold d in He, Hs.
    assert (0 ≤ d) by (apply Z.mod_pos_bound; destruct Hwf; lia).
    rewrite Z2Nat.id in Hs by done.
    assert (w1 = w') as -> by congruence.
    exists w', (mjoin (take (Z.to_nat d) (rotation w))). split_and!; [done|done| |auto|intros; lia].
    destruct (turns_rotation (Z.to_nat d) w ready Hwf) as (w2 & Ht & _ & Hrot & _).
    { assert (d < num_slots w) by (apply Z.mod_pos_bound; destruct Hwf; lia).
      destruct Hwf as (_ & _ & ? & _). lia. }
    assert (w2 = w') as ->.
    { rewrite (expire_is_turns _ _ _ _ Hwf Ho) in He. unfold expire_turns in He.
      destruct (Z.leb_spec (num_slots w) off); [lia|]. fold d in He. congruence. }
    unfold entries. rewrite <-(rotation_perm w), <-(rotation_perm w'), Hrot, join_app,
      join_replicate_nil, app_nil_r, <-join_app, take_drop. done.
  - destruct (expire_full w now off ready Hwf Ho ltac:(lia)) as (w' & fired & He & Hwf' & Hp & Hem & Hc).
    exists w', fired. unfold entries. rewrite Hem, app_nil_r. 
    split_and!; [done|done|by symmetry|intros; lia|auto].
Qed.

Lemma expire_correct_witness :
  let w := set_slots (new 4 1 0) [[]; [mkEntry 1 11%nat]; [mkEntry 2 22%nat]; []] in
  ∃ w' fired, expire w 2000000 [] = Ret (w', [] ++ wakers fired) ∧ current_slot w' = 2.
Proof.
  set (w := set_slots (new 4 1 0) [[]; [mkEntry 1 11%nat]; [mkEntry 2 22%nat]; []]).
  destruct (expire_correct w 2000000 2 []) as (w' & fired & He & _ & _ & Hlt & _).
  - unfold wheel_wf; simpl; lia.
  - reflexivity.
  - exists w', fired. split; [exact He|]. apply Hlt. simpl. lia.
Defined.



(** C40. Once the wheel is a full rotation past its start, [expire] no longer
    looks at deadlines: a timer scheduled for any instant, however far in the
    future, is fired by the next [expire]. *)
Theorem expire_after_rotation_fires_early {W} c (w w' : TimerWheel W) now at_ wk id c' off ready :
  wheel_wf w → slot_offset w now = Ret off → num_slots w ≤ off → now < at_ →
  schedule c w at_ wk = Ret (id, c', w') →
  ∃ w'' ready', expire w' now ready = Ret (w'', ready') ∧ wk ∈ ready' ∧ entries w'' = [].
Proof.
  intros Hwf Ho Hge _ Hs. destruct (schedule_entries _ _ _ _ _ _ _ Hwf Hs) as (_ & _ & Hwf' & Hp).
  destruct (schedule_frame _ _ _ _ _ _ _ Hs) as (Hn & Hr & Hst & _).
  assert (slot_offset w' now = Ret off) as Ho'.
  { unfold slot_offset in *. by rewrite Hr, Hst. }
  destruct (expire_full w' now off ready Hwf' Ho' ltac:(lia)) as (w'' & fired & He & _ & Hf & Hem & _).
  eexists _, _. split; [exact He|]. split; [|done].
  apply elem_of_app. right. apply (list_elem_of_fmap_2' _ _ (mkEntry c wk)); [|done].
  rewrite Hf. fold (entries w'). rewrite Hp. set_solver.
Qed.

Lemma expire_after_rotation_fires_early_witness :
  ∃ w'' ready', expire (set_slots (new 4 1 0) [[]; [mkEntry 1 11%nat]; []; []]) 4000000 []
    = Ret (w'', ready') ∧ 11%nat ∈ ready' ∧ entries w'' = [].
Proof.
  eapply (expire_after_rotation_fires_early 1 (new 4 1 0) _ 4000000 3601000000 11%nat 1 2 4).
  - unfold wheel_wf; simpl; lia.
  - reflexivity.
  - simpl; lia.
  - lia.
  - reflexivity.
Defined.
