(* ===== verification/Buffer.v ===== *)
(** * Buffers and the per-CPU buffer pool (src/buffer.rs)

    A [Vec<u8>] is modelled with its allocation: [mem] has one cell per byte
    of capacity, [None] for a byte that was never written, and [vlen] is the
    length. The bytes a slice of the vector shows are the first [vlen] cells,
    so data left over from an earlier use, or never initialised, is visible in
    the model exactly when it is visible in the program. *)

From S2P Require Import Prelude.

Definition BUFFER_SIZE : nat := Z.to_nat 4096.
Definition POOL_SIZE : nat := 100.

(** ** [Vec<u8>] *)

Record Vec := mkVec {
  mem : list (option Z);
  vlen : nat
}.

Definition vec_capacity (v : Vec) : nat := length (mem v).

(** The slice of initialised bytes, [&v[..]]. *)
Definition visible (v : Vec) : list (option Z) := take (vlen v) (mem v).

(** [vec![0; n]]: an allocation of exactly [n] zeroed bytes. *)
Definition vec_zeroed (n : nat) : Vec := mkVec (replicate n (Some 0)) n.

(** [slice.to_vec()] *)
Definition vec_of_slice (s : list Z) : Vec := mkVec (Some <$> s) (length s).

Definition vec_clear (v : Vec) : Vec := mkVec (mem v) 0.

(** Reallocation to capacity [cap]; the new bytes are uninitialised. *)
Definition vec_grow_to (cap : nat) (v : Vec) : Vec :=
  mkVec (mem v ++ replicate (cap - vec_capacity v) None) (vlen v).

(** [Vec::reserve_exact] *)
Definition vec_reserve_exact (additional : nat) (v : Vec) : Vec :=
  if decide (vec_capacity v - vlen v < additional)%nat
  then vec_grow_to (vlen v + additional) v else v.

(** [Vec::reserve], which doubles the capacity at least, and starts at eight. *)
Definition vec_reserve (additional : nat) (v : Vec) : Vec :=
  if decide (vec_capacity v - vlen v < additional)%nat
  then vec_grow_to (8 `max` ((2 * vec_capacity v) `max` (vlen v + additional))) v else v.

(** Writing bytes at the front of the allocation, through the slice or
    through [as_mut_ptr]. *)
Definition vec_write (bytes : list Z) (v : Vec) : Vec :=
  mkVec (list_inserts 0 (Some <$> bytes) (mem v)) (vlen v).

(** [Vec::resize(new_len, x)] *)
Definition vec_resize (new_len : nat) (x : Z) (v : Vec) : Vec :=
  if decide (vlen v < new_len)%nat then
    let v' := vec_reserve (new_len - vlen v) v in
    mkVec (list_inserts (vlen v) (replicate (new_len - vlen v) (Some x)) (mem v')) new_len
  else mkVec (mem v) new_len.

(** ** [Buffer] *)

Definition Buffer := Vec.

Definition new_zeroed (capacity : nat) : Buffer := vec_zeroed capacity.

Definition from_slice (slice : list Z) : Buffer := vec_of_slice slice.

Definition buffer_len (b : Buffer) : nat := vlen b.

Definition is_empty (b : Buffer) : bool := Nat.eqb (vlen b) 0.

Definition capacity (b : Buffer) : nat := vec_capacity b.

(** [self.0.resize(slice.len(), 0); self.0.copy_from_slice(slice)] *)
Definition copy_from_slice (slice : list Z) (b : Buffer) : Buffer :=
  vec_write slice (vec_resize (length slice) 0 b).

(** [unsafe fn set_len] *)
Definition set_len (new_len : nat) (b : Buffer) : Buffer := mkVec (mem b) new_len.

(** ** The pool: the thread-local [CPU_BUFFER_POOL], a queue of vectors *)

Definition Pool := list Vec.

(** [Buffer::recycle] *)
Definition recycle (b : Buffer) (pool : Pool) : Pool :=
  let v := vec_clear b in
  let v := vec_reserve_exact (BUFFER_SIZE - vec_capacity v) v in
  if decide (vec_capacity v = BUFFER_SIZE) then
    if decide (length pool < POOL_SIZE)%nat then pool ++ [v] else pool
  else pool.

(** [BufferPool::get] *)
Definition get (cap : nat) (pool : Pool) : Buffer * Pool :=
  if decide (cap = 0 ∨ BUFFER_SIZE < cap)%nat then (vec_zeroed cap, pool)
  else match pool with
       | buffer :: rest =>
           if decide (cap ≤ vec_capacity buffer)%nat
           then (vec_resize cap 0 buffer, rest)
           else (vec_zeroed cap, rest)
       | [] => (vec_zeroed cap, [])
       end.

(** ** Well-formedness *)

Definition vec_wf (v : Vec) : Prop := (vlen v ≤ vec_capacity v)%nat.

(** Every byte the slice shows was written. *)
Definition initialised (v : Vec) : Prop := Forall is_Some (visible v).

Definition pooled_ok (v : Vec) : Prop := vlen v = 0%nat ∧ vec_capacity v = BUFFER_SIZE.

Definition pool_inv (pool : Pool) : Prop :=
  (length pool ≤ POOL_SIZE)%nat ∧ Forall pooled_ok pool.

(** Uses of the pool: [get] with any capacity, and [recycle] of any buffer. *)
Inductive pool_step : Pool → Pool → Prop :=
  | step_get cap b pool pool' : get cap pool = (b, pool') → pool_step pool pool'
  | step_recycle b pool : vec_wf b → pool_step pool (recycle b pool).

(** ** Vectors: lemmas *)

Lemma length_visible v : vec_wf v → length (visible v) = vlen v.
Proof. intros Hwf. unfold visible. rewrite length_take. unfold vec_wf, vec_capacity in Hwf. lia. Qed.

Lemma vec_zeroed_visible n : visible (vec_zeroed n) = replicate n (Some 0).
Proof. unfold visible; simpl. rewrite take_ge; [done|]. by rewrite length_replicate. Qed.

Lemma vec_zeroed_capacity n : vec_capacity (vec_zeroed n) = n.
Proof. apply length_replicate. Qed.

Lemma vec_grow_to_capacity c v :
  (vec_capacity v ≤ c)%nat → vec_capacity (vec_grow_to c v) = c.
Proof. intros. unfold vec_grow_to, vec_capacity in *; simpl. rewrite length_app, length_replicate. lia. Qed.

Lemma vec_reserve_capacity k v :
  (vlen v + k ≤ vec_capacity v)%nat → vec_reserve k v = v.
Proof. intros. unfold vec_reserve. rewrite decide_False; [done|lia]. Qed.

Lemma vec_reserve_enough k v :
  vec_wf v → (vlen v + k ≤ vec_capacity (vec_reserve k v))%nat ∧
  take (vlen v) (mem (vec_reserve k v)) = take (vlen v) (mem v).
Proof.
  intros Hwf. unfold vec_reserve, vec_wf in *. case_decide.
  - rewrite vec_grow_to_capacity by lia. split; [lia|]. simpl.
    by rewrite take_app_le.
  - split; [lia|done].
Qed.

(** [resize] shows the old bytes, cut or padded to the new length. *)
Lemma vec_resize_visible n x v :
  vec_wf v → vec_wf (vec_resize n x v) ∧ vlen (vec_resize n x v) = n ∧
  visible (vec_resize n x v) = take n (visible v) ++ replicate (n - vlen v) (Some x).
Proof.
  intros Hwf. unfold vec_resize, visible. case_decide as Hn; simpl.
  - destruct (vec_reserve_enough (n - vlen v) v Hwf) as [Hcap Htake].
    unfold vec_wf, vec_capacity in *; simpl. rewrite length_inserts.
    rewrite list_inserts_splice by (rewrite length_replicate; lia).
    rewrite length_replicate, Htake. split_and!; [lia|done|].
    rewrite app_assoc, take_app_le by (rewrite length_app, length_take, length_replicate; lia).
    rewrite take_take, Nat.min_r by lia. rewrite take_ge; [done|].
    rewrite length_app, length_take, length_replicate. lia.
  - unfold vec_wf, vec_capacity in *; simpl. split_and!; [lia|done|].
    rewrite take_take, Nat.min_l by lia.
    replace (n - vlen v)%nat with 0%nat by lia. by rewrite app_nil_r.
Qed.

Lemma vec_write_visible bytes v :
  vec_wf v → (length bytes ≤ vlen v)%nat →
  visible (vec_write bytes v) = (Some <$> bytes) ++ drop (length bytes) (visible v).
Proof.
  intros Hwf Hl. unfold visible, vec_write, vec_wf, vec_capacity in *; simpl.
  rewrite list_inserts_splice by (rewrite length_fmap; lia). rewrite take_0, length_fmap. simpl.
  rewrite take_app_ge by (rewrite length_fmap; lia). rewrite length_fmap.
  by rewrite take_drop_commute, Nat.add_comm, Nat.sub_add.
Qed.

Lemma recycle_cases b pool :
  recycle b pool = pool ∨
  ∃ v, recycle b pool = pool ++ [v] ∧ pooled_ok v ∧ (length pool < POOL_SIZE)%nat.
Proof.
  unfold recycle. case_decide; [case_decide|]; [right|by left..].
  eexists; split; [done|]. split; [|done]. split; [|done].
  unfold vec_reserve_exact. by case_decide.
Qed.

(** The capacity [recycle] leaves a vector with. *)
Lemma recycle_capacity b :
  vec_capacity (vec_reserve_exact (BUFFER_SIZE - vec_capacity (vec_clear b)) (vec_clear b)) =
  if decide (2 * capacity b < BUFFER_SIZE)%nat then (BUFFER_SIZE - capacity b)%nat else capacity b.
Proof.
  unfold vec_reserve_exact, capacity. change (vec_capacity (vec_clear b)) with (vec_capacity b).
  simpl. unfold BUFFER_SIZE. repeat case_decide; try lia.
  - rewrite vec_grow_to_capacity; simpl; unfold vec_capacity in *; simpl; lia.
  - done.
Qed.

Lemma get_spec cap pool b pool' :
  pool_inv pool → get cap pool = (b, pool') →
  vec_wf b ∧ vlen b = cap ∧ visible b = replicate cap (Some 0) ∧
  capacity b = (if decide (cap = 0 ∨ BUFFER_SIZE < cap ∨ pool = [])%nat then cap else BUFFER_SIZE) ∧
  pool' = (if decide (cap = 0 ∨ BUFFER_SIZE < cap)%nat then pool else tail pool).
Proof.
  intros [_ Hok]. unfold get. case_decide as Hc.
  { intros [= <- <-]. unfold vec_wf, capacity. rewrite vec_zeroed_capacity.
    rewrite decide_True by tauto. auto using vec_zeroed_visible. }
  destruct pool as [|v rest].
  { intros [= <- <-]. unfold vec_wf, capacity. rewrite vec_zeroed_capacity.
    rewrite decide_True by tauto. auto using vec_zeroed_visible. }
  apply Forall_cons in Hok as [[Hl Hcap] _]. rewrite Hcap.
  rewrite decide_True by lia. intros [= <- <-].
  assert (vec_wf v) as Hwf by (unfold vec_wf; lia).
  destruct (vec_resize_visible cap 0 v Hwf) as (Hwf' & Hlen & Hvis). 
  rewrite decide_False by (intros [?|[?|?]]; [tauto|tauto|done]).
  split_and!; [done|done| |..|done].
  - rewrite Hvis, Hl, Nat.sub_0_r. unfold visible. rewrite Hl, take_0. by rewrite take_nil.
  - unfold vec_resize, capacity, vec_capacity in *. rewrite decide_True by lia. simpl.
    rewrite length_inserts, vec_reserve_capacity; [done|]. unfold vec_capacity. lia.
Qed.

Lemma get_full_size pool b pool' :
  pool_inv pool → get BUFFER_SIZE pool = (b, pool') →
  capacity b = BUFFER_SIZE ∧ pool' = tail pool.
Proof.
  intros Hinv Hg. destruct (get_spec _ _ _ _ Hinv Hg) as (_ & _ & _ & Hc & Hp).
  assert (0 < BUFFER_SIZE)%nat as Hpos by (unfold BUFFER_SIZE; lia).
  clear Hinv Hg. revert Hc Hp Hpos. generalize BUFFER_SIZE as n. intros n Hc Hp Hpos.
  rewrite Hc, Hp. repeat case_decide; intuition lia.
Qed.

Lemma pool_step_inv pool pool' : pool_inv pool → pool_step pool pool' → pool_inv pool'.
Proof.
  intros Hinv Hstep. destruct Hstep as [cap b pool pool' Hg|b pool _].
  - destruct (get_spec _ _ _ _ Hinv Hg) as (_ & _ & _ & _ & ->). destruct Hinv as [Hl Hok].
    case_decide; [done|]. destruct pool as [|v pool]; [done|].
    apply Forall_cons in Hok as [_ ?]. split; [simpl in *; lia|done].
  - destruct Hinv as [Hl Hok]. destruct (recycle_cases b pool) as [->|(v & -> & Hv & Hlt)]; [done|].
    split; [rewrite length_app; simpl; lia|]. apply Forall_app; auto.
Qed.

Lemma pool_reachable_inv pool : rtc pool_step [] pool → pool_inv pool.
Proof.
  assert (pool_inv []) as H0 by (split; [simpl; lia|constructor]).
  revert H0. generalize (@nil Vec). induction 2; eauto using pool_step_inv.
Qed.

(** C33. Whatever sequence of [BufferPool::get] and [Buffer::recycle] calls a
    thread makes, with any capacities and any buffers, its pool never holds
    more than [POOL_SIZE] vectors, and each of them is empty with a capacity of
    exactly [BUFFER_SIZE]. *)
Theorem pool_bounded pool :
  rtc pool_step [] pool →
  (length pool ≤ POOL_SIZE)%nat ∧
  Forall (λ v, vlen v = 0%nat ∧ vec_capacity v = BUFFER_SIZE) pool.
Proof. apply pool_reachable_inv. Qed.

Lemma pool_bounded_witness :
  rtc pool_step [] [vec_clear (vec_zeroed BUFFER_SIZE)] ∧
  (length [vec_clear (vec_zeroed BUFFER_SIZE)] ≤ POOL_SIZE)%nat.
Proof.
  assert (rtc pool_step [] [vec_clear (vec_zeroed BUFFER_SIZE)]) as H.
  { eapply rtc_once. change [vec_clear (vec_zeroed BUFFER_SIZE)] with (recycle (vec_zeroed BUFFER_SIZE) []).
    apply step_recycle. unfold vec_wf. rewrite vec_zeroed_capacity. simpl. lia. }
  split; [exact H|]. exact (proj1 (pool_bounded _ H)).
Defined.

(** A buffer from the pool never shows data of an earlier user: in every
    reachable pool, [get cap] returns a buffer of length [cap] whose bytes are
    all zero, reusing the oldest pooled vector when there is one and the
    request is between 1 and [BUFFER_SIZE] bytes. *)
Theorem get_zeroed pool cap b pool' :
  rtc pool_step [] pool → get cap pool = (b, pool') →
  buffer_len b = cap ∧ visible b = replicate cap (Some 0) ∧ (cap ≤ capacity b)%nat ∧
  (0 < cap ≤ BUFFER_SIZE → ∀ v rest, pool = v :: rest →
     pool' = rest ∧ capacity b = BUFFER_SIZE)%nat.
Proof.
  intros Hr Hg. destruct (get_spec _ _ _ _ (pool_reachable_inv _ Hr) Hg) as (Hwf & Hl & Hv & Hc & ->).
  unfold buffer_len. split_and!; [done|done| |].
  - unfold vec_wf, capacity in *. lia.
  - intros Hcap v rest ->. rewrite Hc, decide_False by lia. simpl.
    rewrite decide_False; [done|]. intros [?|[?|?]]; [lia|lia|done].
Qed.

Lemma get_zeroed_witness :
  let b := vec_write [115; 101; 99] (vec_zeroed BUFFER_SIZE) in
  visible (get 3 (recycle b [])).1 = replicate 3 (Some 0).
Proof.
  intros b. destruct (get 3 (recycle b [])) as [g pool'] eqn:Hg.
  assert (rtc pool_step [] (recycle b [])) as Hr.
  { eapply rtc_once, step_recycle. vm_compute. lia. }
  exact (proj1 (proj2 (get_zeroed _ _ _ _ Hr Hg))).
Defined.

(** [recycle] puts a vector back in a pool that is not full exactly when
    its capacity is [BUFFER_SIZE] or zero: the [reserve_exact] call meant to
    bring other capacities to [BUFFER_SIZE] leaves a smaller one with
    [BUFFER_SIZE - capacity] bytes, or unchanged, and the vector is dropped. *)
Theorem recycle_pools_iff b pool :
  (length pool < POOL_SIZE)%nat →
  (recycle b pool ≠ pool ↔ capacity b = BUFFER_SIZE ∨ capacity b = 0%nat) ∧
  (recycle b pool ≠ pool → ∃ v, recycle b pool = pool ++ [v] ∧ pooled_ok v).
Proof.
  intros Hlt. split.
  - unfold recycle. rewrite recycle_capacity.
    assert (∀ v, pool ++ [v] ≠ pool) as Hne.
    { intros v Heq. apply (f_equal length) in Heq. rewrite length_app in Heq. simpl in Heq. lia. }
    unfold BUFFER_SIZE. repeat case_decide; (split; [intros ?|intros [?|?]]); first [lia | done | apply Hne].
  - destruct (recycle_cases b pool) as [->|(v & -> & ? & _)]; [done|]. eauto.
Qed.

Lemma recycle_pools_iff_witness :
  recycle (vec_zeroed 2048) [] = [] ∧ (0 < POOL_SIZE)%nat.
Proof.
  split; [|unfold POOL_SIZE; lia].
  destruct (decide (recycle (vec_zeroed 2048) [] = [])) as [H|H]; [exact H|exfalso].
  destruct (recycle_pools_iff (vec_zeroed 2048) []) as [[Hiff _] _]; [unfold POOL_SIZE; simpl; lia|].
  destruct (Hiff H) as [Hc|Hc]; vm_compute in Hc; discriminate Hc.
Defined.

(** [copy_from_slice] on any well-formed buffer makes it show exactly the
    bytes of the slice, growing or shrinking it to the slice's length. *)
Theorem copy_from_slice_correct slice b :
  vec_wf b →
  visible (copy_from_slice slice b) = Some <$> slice ∧
  buffer_len (copy_from_slice slice b) = length slice ∧ vec_wf (copy_from_slice slice b).
Proof.
  intros Hwf. destruct (vec_resize_visible (length slice) 0 b Hwf) as (Hwf' & Hl & Hv).
  unfold copy_from_slice. rewrite vec_write_visible by (done || lia).
  rewrite drop_ge by (rewrite length_visible; [lia|done]). rewrite app_nil_r.
  split_and!; [done|done|]. unfold vec_wf, vec_capacity, vec_write in *; simpl.
  by rewrite length_inserts.
Qed.

Lemma copy_from_slice_correct_witness :
  vec_wf (vec_zeroed 1) ∧ visible (copy_from_slice [7; 8; 9] (vec_zeroed 1)) = [Some 7; Some 8; Some 9].
Proof.
  assert (vec_wf (vec_zeroed 1)) as H by (vm_compute; lia).
  split; [exact H|]. exact (proj1 (copy_from_slice_correct [7; 8; 9] _ H)).
Defined.
