(* ===== verification/Waker.v ===== *)
(** * Task ids and wakers (src/waker.rs)

    A [std::task::Waker] made by [MinissWaker::create_waker] is a raw pointer
    to an [Arc<MinissWaker>] with a table of four functions. The model keeps
    the [Arc]'s strong count, so that the ownership the four functions pass
    around is visible: [None] is an access to a freed allocation. *)

From S2P Require Import Prelude Interfaces.

(** ** [TaskId] *)

Definition TaskId := Z.

Definition cpu_id (id : TaskId) : Z := Z.shiftr id 32.

(** ** [MinissWaker] *)

Section waker.
Context {Q : Type} `{SegQueue Q TaskId}.

Record MinissWaker := mkMinissWaker { waker_task_id : TaskId }.

(** The [Arc] allocation, and the run queue its [queue] field points to. *)
Record WakerArc := mkWakerArc {
  strong : nat;
  arc_waker : MinissWaker;
  arc_queue : Q
}.

Definition wake_impl (a : WakerArc) : WakerArc :=
  mkWakerArc (strong a) (arc_waker a) (seg_push (waker_task_id (arc_waker a)) (arc_queue a)).

Definition create_waker (task_id : TaskId) (queue : Q) : WakerArc :=
  mkWakerArc 1 (mkMinissWaker task_id) queue.

(** Dropping one strong reference; the allocation is freed at zero. *)
Definition arc_drop (a : WakerArc) : option WakerArc :=
  match strong a with
  | O => None
  | S n => Some (mkWakerArc n (arc_waker a) (arc_queue a))
  end.

(** An access through the raw pointer needs a live allocation. *)
Definition arc_access (a : WakerArc) : option WakerArc :=
  match strong a with O => None | S _ => Some a end.

(** [from_raw], [clone], [forget] the original, [into_raw] the clone *)
Definition waker_clone (a : WakerArc) : option WakerArc :=
  a ← arc_access a; Some (mkWakerArc (S (strong a)) (arc_waker a) (arc_queue a)).

(** [from_raw], [wake_impl], and the [Arc] is dropped at the end *)
Definition waker_wake (a : WakerArc) : option WakerArc :=
  a ← arc_access a; arc_drop (wake_impl a).

Definition waker_wake_by_ref (a : WakerArc) : option WakerArc :=
  a ← arc_access a; Some (wake_impl a).

Definition waker_drop (a : WakerArc) : option WakerArc := arc_drop a.

(** ** Uses of a waker by safe code *)

Inductive waker_op := OpClone | OpWake | OpWakeByRef | OpDrop.

Definition waker_vtable (op : waker_op) : WakerArc → option WakerArc :=
  match op with
  | OpClone => waker_clone
  | OpWake => waker_wake
  | OpWakeByRef => waker_wake_by_ref
  | OpDrop => waker_drop
  end.

Fixpoint waker_run (ops : list waker_op) (a : WakerArc) : option WakerArc :=
  match ops with
  | [] => Some a
  | op :: ops => a' ← waker_vtable op a; waker_run ops a'
  end.

(** The number of [Waker] values after the calls, when each call was made on
    one that exists: [wake] and [drop] take it, [clone] adds one. *)
Fixpoint handles_after (n : nat) (ops : list waker_op) : option nat :=
  match ops with
  | [] => Some n
  | op :: ops =>
      match n with
      | O => None
      | S m => handles_after (match op with
                              | OpClone => S n
                              | OpWakeByRef => n
                              | OpWake | OpDrop => m
                              end) ops
      end
  end.

Definition is_wake (op : waker_op) : bool :=
  match op with OpWake | OpWakeByRef => true | _ => false end.

End waker.
Arguments WakerArc Q : clear implicits.

(** ** [dummy_waker]: its table's functions do nothing *)

Definition dummy_wake {W} (world : W) : W := world.

Lemma cpu_id_high_half cpu n :
  0 ≤ cpu → 0 ≤ n < 2 ^ 32 → cpu_id (Z.shiftl cpu 32 + n) = cpu.
Proof.
  intros Hc Hn. unfold cpu_id. rewrite Z.shiftl_mul_pow2, Z.shiftr_div_pow2 by lia.
  rewrite Z.div_add_l, Z.div_small by lia. lia.
Qed.

Section waker_facts.
Context {Q : Type} `{SegQueueLaws Q TaskId}.

Lemma waker_run_spec ops (a : WakerArc Q) m :
  handles_after (strong a) ops = Some m →
  ∃ a', waker_run ops a = Some a' ∧ strong a' = m ∧ arc_waker a' = arc_waker a ∧
    seg_elems (arc_queue a') =
      seg_elems (arc_queue a) ++
      replicate (length (filter is_wake ops)) (waker_task_id (arc_waker a)).
Proof.
  revert a. induction ops as [|op ops IH]; intros a Hh; simpl in *.
  { exists a. injection Hh as <-. by rewrite app_nil_r. }
  destruct (strong a) as [|n] eqn:Hn; [done|].
  destruct op; simpl;
    unfold waker_clone, waker_wake, waker_wake_by_ref, waker_drop, arc_access, arc_drop;
    rewrite ?Hn; simpl; rewrite ?Hn; simpl.
  all: match goal with |- context [waker_run _ ?x] =>
         destruct (IH x ltac:(simpl; rewrite ?Hn; exact Hh)) as (a' & -> & ? & ? & Hq) end.
  all: exists a'; split_and!; [done..|]; rewrite Hq; simpl; rewrite ?seg_push_elems; simpl.
  all: rewrite <-?app_assoc; done.
Qed.

End waker_facts.

(** C6. The four functions of the waker table keep the [Arc] balanced: for
    every sequence of [clone], [wake], [wake_by_ref] and [drop] calls, each
    made on a waker that is still alive, no freed memory is accessed, the
    strong count is the number of wakers alive (so the allocation is freed
    exactly with the last one), and the run queue gets the task's id once for
    each wake and nothing else. *)
Theorem waker_balanced {Q} `{SegQueueLaws Q TaskId} (id : TaskId) (q : Q) ops m :
  handles_after 1 ops = Some m →
  ∃ a, waker_run ops (create_waker id q) = Some a ∧ strong a = m ∧
    seg_elems (arc_queue a) = seg_elems q ++ replicate (length (filter is_wake ops)) id.
Proof.
  intros Hh. destruct (waker_run_spec ops (create_waker id q) m Hh) as (a & ? & ? & _ & ?).
  eauto.
Qed.

Lemma waker_balanced_witness :
  ∃ a : WakerArc (list TaskId),
    waker_run [OpClone; OpWake; OpWakeByRef; OpWake] (create_waker 99 []) = Some a ∧
    strong a = 0%nat ∧ seg_elems (arc_queue a) = [99; 99; 99].
Proof. exact (waker_balanced 99 [] [OpClone; OpWake; OpWakeByRef; OpWake] 0 eq_refl). Defined.
