(* ===== verification/Task.v ===== *)
(** * Tasks and join handles (src/task.rs)

    A task is a boxed future with its id. What a future's [poll] does is up to
    the user, so a future is a state of an arbitrary type with an arbitrary
    poll function; [polled] is what one poll gives, a panic included. A
    [JoinHandle] is the receiving end of the channel its task sends into. *)

From S2P Require Import Prelude Interfaces Waker.

(** ** Results of tasks *)

Inductive TaskError (P : Type) : Type :=
  | PanicErr (payload : P)
  | Cancelled.
Arguments PanicErr {P} payload.
Arguments Cancelled {P}.

Abbreviation TaskResult T P := (result T (TaskError P)).

(** ** Polling *)

Inductive polled (T : Type) : Type :=
  | PReady (t : T)
  | PPending
  | PPanicked.
Arguments PReady {T} t.
Arguments PPending {T}.
Arguments PPanicked {T}.

#[export] Instance polled_eq_dec `{EqDecision T} : EqDecision (polled T).
Proof. solve_decision. Defined.

(** What a poll of a future of type [F] with output [T] leaves behind: its
    result, the future, the world it acted on, and the task ids pushed, in
    order, on the run queue by wakers used during the poll. *)
Record poll_out (F W T : Type) := mkPollOut {
  po_res : polled T;
  po_fut : F;
  po_world : W;
  po_wakes : list TaskId
}.
Arguments mkPollOut {F W T} _ _ _ _.
Arguments po_res {F W T} _.
Arguments po_fut {F W T} _.
Arguments po_world {F W T} _.
Arguments po_wakes {F W T} _.

(** ** [Task] *)

Record Task (F : Type) := mkTask {
  task_id : TaskId;
  future : F
}.
Arguments mkTask {F} _ _.
Arguments task_id {F} _.
Arguments future {F} _.

Definition Task_new {F} (id : TaskId) (fut : F) : Task F := mkTask id fut.

Definition from_pinned {F} (id : TaskId) (fut : F) : Task F := mkTask id fut.

(** [Task::poll] polls the boxed future. *)
Definition Task_poll {F E R} (future_poll : TaskId → F → E → R)
    (waker : TaskId) (t : Task F) (env : E) : R :=
  future_poll waker (future t) env.

(** ** [JoinHandle] *)

Section join_handle.
Context {C T P W : Type} `{Channel C (TaskResult T P)}.

(** The handle's own fields; [C] is the state of the channel it receives from. *)
Record JoinHandle := mkJoinHandle {
  jh_task_id : TaskId;
  jh_waker : option W
}.

Definition JoinHandle_new (task_id : TaskId) : JoinHandle := mkJoinHandle task_id None.

Definition is_finished (c : C) : bool * C :=
  match ch_try_recv c with
  | (Ok _, c') => (true, c')
  | (Err Disconnected, c') => (true, c')
  | (Err Empty, c') => (false, c')
  end.

(** [cancel] logs, asks [is_finished] and reports success. *)
Definition cancel (c : C) : result unit unit * C :=
  let '(_, c') := is_finished c in (Ok tt, c').

(** [<JoinHandle as Future>::poll] *)
Definition poll (waker : W) (h : JoinHandle) (c : C) : Poll (TaskResult T P) * JoinHandle * C :=
  match ch_try_recv c with
  | (Ok r, c') => (Ready r, h, c')
  | (Err Empty, c') => (Pending, mkJoinHandle (jh_task_id h) (Some waker), c')
  | (Err Disconnected, c') => (Ready (Err Cancelled), h, c')
  end.

End join_handle.
Arguments JoinHandle W : clear implicits.

(** ** Properties *)

(** Polling a join handle gives the task's result if it was sent, keeps
    waiting (with the waker stored) while the task may still send one, and
    reports [Cancelled] if the task is gone without a result; the result is
    taken out of the channel, so it is delivered at most once. *)
Theorem join_poll_correct {C T P W} `{ChannelLaws C (TaskResult T P)} (wk : W) h (c : C) :
  (∀ r rest, ch_elems c = r :: rest →
     ∃ c', poll wk h c = (Ready r, h, c') ∧ ch_elems c' = rest ∧ ch_senders c' = ch_senders c) ∧
  (ch_elems c = [] → (0 < ch_senders c)%nat →
     poll wk h c = (Pending, mkJoinHandle (jh_task_id h) (Some wk), c)) ∧
  (ch_elems c = [] → ch_senders c = 0%nat → poll wk h c = (Ready (Err Cancelled), h, c)).
Proof.
  unfold poll. pose proof (ch_try_recv_spec c) as Hspec.
  destruct (ch_try_recv c) as [[r'|[|]] c']; destruct_and?; subst.
  - split_and!; intros *; try congruence. intros Hr. exists c'. split_and!; congruence.
  - split_and!; intros *; try congruence; lia.
  - split_and!; intros *; try congruence; lia.
Qed.

Lemma join_poll_correct_witness :
  poll (T:=nat) (P:=unit) 1%nat (JoinHandle_new 4) (mkListChannel [] 1 0 true)
  = (Ready (Err Cancelled), JoinHandle_new 4, mkListChannel [] 1 0 true).
Proof. apply (join_poll_correct 1%nat (JoinHandle_new 4)); reflexivity. Defined.

(** [is_finished] and [cancel] are not observers: asking either of them
    about a task that has sent its result and ended throws the result away,
    and awaiting the handle afterwards gives [Err(Cancelled)]. *)
Theorem is_finished_discards_result {C T P W} `{ChannelLaws C (TaskResult T P)} (wk : W) h (c : C) r :
  ch_elems c = [r] → ch_senders c = 0%nat →
  (is_finished c).1 = true ∧
  (poll wk h (is_finished c).2).1.1 = Ready (Err Cancelled) ∧
  (cancel c).1 = Ok tt ∧ (poll wk h (cancel c).2).1.1 = Ready (Err Cancelled).
Proof.
  intros Hr Hs. assert (∃ c', is_finished c = (true, c') ∧ ch_elems c' = [] ∧ ch_senders c' = 0%nat)
    as (c' & Hf & He & Hs').
  { unfold is_finished. pose proof (ch_try_recv_spec c) as Hspec.
    destruct (ch_try_recv c) as [[r'|[|]] c']; destruct_and?; try congruence.
    exists c'. split_and!; congruence. }
  assert ((poll wk h c').1.1 = Ready (Err Cancelled)).
  { unfold poll. pose proof (ch_try_recv_spec c') as Hspec.
    destruct (ch_try_recv c') as [[r'|[|]] c'']; destruct_and?; try congruence; [lia|done]. }
  unfold cancel. by rewrite Hf.
Qed.

Lemma is_finished_discards_result_witness :
  let c : list_channel (TaskResult nat unit) := mkListChannel [Ok 42%nat] 1 0 true in
  (is_finished c).1 = true ∧
  (poll 1%nat (JoinHandle_new 4) (is_finished c).2).1.1 = Ready (Err Cancelled).
Proof.
  intros c. destruct (is_finished_discards_result 1%nat (JoinHandle_new 4) c (Ok 42%nat))
    as (H1 & H2 & _); [reflexivity..|]. split; [exact H1|exact H2].
Defined.
