(* ===== verification/Executor.v ===== *)
(** * The single-threaded executor (src/executor.rs, [Executor])

    The executor's three fields are [Executor]; the channels its join handles
    receive from, and whatever else the futures act on, are the environment
    [Env]. A spawned future is wrapped so that it sends its output into its
    channel; dropping a task drops the sending end. *)

From S2P Require Import Prelude Interfaces Waker Task.

Section executor.
Context {Q C F W T P : Type} `{SegQueue Q TaskId} `{Channel C (TaskResult T P)}.

(** Polling a user future with the waker of the given task. *)
Variable fut_poll : TaskId → F → W → poll_out F W T.

(** What other threads do to the world while this one is parked, and the
    task ids they push on the run queue. *)
Variable park : W → W * list TaskId.

(** The [async move] block of [spawn]: the user's future and the sender. *)
Record Wrapped := mkWrapped {
  inner : F;
  sender : nat
}.

Record Executor := mkExecutor {
  tasks : gmap TaskId (Task Wrapped);
  ready_queue : Q;
  next_task_id : Z
}.

Record Env := mkEnv {
  chans : gmap nat C;
  next_chan : nat;
  world : W
}.

Definition new : Executor := mkExecutor ∅ seg_new 1.

Definition set_world (env : Env) (w : W) : Env := mkEnv (chans env) (next_chan env) w.

Definition set_chan (env : Env) (i : nat) (c : C) : Env :=
  mkEnv (<[i := c]> (chans env)) (next_chan env) (world env).

(** Dropping a task drops its future and so the sender it owns. *)
Definition drop_task (t : Task Wrapped) (env : Env) : Env :=
  match chans env !! sender (future t) with
  | Some c => set_chan env (sender (future t)) (ch_drop_sender c)
  | None => env
  end.

(** [HashMap::insert] on the task table; a task it replaces is dropped. *)
Definition insert_task (id : TaskId) (t : Task Wrapped) (ts : gmap TaskId (Task Wrapped)) (env : Env)
    : gmap TaskId (Task Wrapped) * Env :=
  (<[id := t]> ts, match ts !! id with Some old => drop_task old env | None => env end).

(** [Executor::spawn]: the task id, the channel of the returned join handle
    and the new state. *)
Definition spawn (fut : F) (ex : Executor) (env : Env)
    : TaskId * nat * Executor * Env :=
  let '(id, next') := fetch_add1 (next_task_id ex) in
  let ch := next_chan env in
  let env := mkEnv (<[ch := ch_bounded 1]> (chans env)) (S ch) (world env) in
  let task := Task_new id (mkWrapped fut ch) in
  let '(ts, env) := insert_task id task (tasks ex) env in
  (id, ch, mkExecutor ts (seg_push id (ready_queue ex)) next', env).

(** Polling the wrapped future. A full channel would block the thread. *)
Definition wrapped_poll (waker : TaskId) (w : Wrapped) (env : Env)
    : outcome (polled unit * Wrapped * list TaskId * Env) :=
  let o := fut_poll waker (inner w) (world env) in
  let w' := mkWrapped (po_fut o) (sender w) in
  let env' := set_world env (po_world o) in
  match po_res o with
  | PPending => Ret (PPending, w', po_wakes o, env')
  | PPanicked => Ret (PPanicked, w', po_wakes o, env')
  | PReady v =>
      c ← expect (chans env' !! sender w);
      match ch_send (Ok v) c with
      | Sent c' => Ret (PReady tt, w', po_wakes o, set_chan env' (sender w) c')
      | SendDisconnected => Ret (PReady tt, w', po_wakes o, env')
      | SendBlocks => NoFuel
      end
  end.

(** One turn of the loop of [tick] after [pop] gave [id]; the result tells
    whether a task was polled. *)
Definition tick_one (id : TaskId) (ex : Executor) (env : Env)
    : outcome (bool * Executor * Env) :=
  match tasks ex !! id with
  | None => Ret (false, ex, env)
  | Some task =>
      let ts := delete id (tasks ex) in
      '(res, fut, wakes, env) ← Task_poll wrapped_poll id task env;
      let task := mkTask (task_id task) fut in
      let q := seg_push_all wakes (ready_queue ex) in
      match res with
      | PReady _ | PPanicked => Ret (true, mkExecutor ts q (next_task_id ex), drop_task task env)
      | PPending =>
          let '(ts, env) := insert_task id task ts env in
          Ret (true, mkExecutor ts q (next_task_id ex), env)
      end
  end.

(** [while let Some(task_id) = self.ready_queue.pop()] *)
Fixpoint tick_loop (fuel : nat) (made_progress : bool) (ex : Executor) (env : Env)
    : outcome (bool * Executor * Env) :=
  match fuel with
  | O => NoFuel
  | S fuel =>
      match seg_pop (ready_queue ex) with
      | (None, q) => Ret (made_progress, mkExecutor (tasks ex) q (next_task_id ex), env)
      | (Some id, q) =>
          '(polled_one, ex, env) ← tick_one id (mkExecutor (tasks ex) q (next_task_id ex)) env;
          tick_loop fuel (made_progress || polled_one) ex env
      end
  end.

Definition tick (fuel : nat) (ex : Executor) (env : Env) : outcome (bool * Executor * Env) :=
  tick_loop fuel false ex env.

(** [run]: tick until no task is left, parking when a tick did nothing. *)
Fixpoint run (fuel tick_fuel : nat) (ex : Executor) (env : Env) : outcome (Executor * Env) :=
  match fuel with
  | O => NoFuel
  | S fuel =>
      if decide (tasks ex = ∅) then Ret (ex, env) else
      '(made_progress, ex, env) ← tick tick_fuel ex env;
      if made_progress : bool then run fuel tick_fuel ex env
      else
        let '(w, wakes) := park (world env) in
        run fuel tick_fuel
          (mkExecutor (tasks ex) (seg_push_all wakes (ready_queue ex)) (next_task_id ex))
          (set_world env w)
  end.

Definition task_count (ex : Executor) : nat := size (tasks ex).

End executor.
Arguments Wrapped F : clear implicits.
Arguments Executor Q F : clear implicits.
Arguments Env C W : clear implicits.

(** ** Invariant *)

Section executor_facts.
Context {Q C F W T P : Type} `{SegQueueLaws Q TaskId} `{ChannelLaws C (TaskResult T P)}.
Context (fut_poll : TaskId → F → W → poll_out F W T) (park : W → W * list TaskId).
Implicit Types (ex : Executor Q F) (env : Env C W).

(** The channel of a task that has not finished: room for the one message
    the task will send, and exactly one sender. *)
Definition chan_open (c : C) : Prop :=
  ch_elems c = [] ∧ ch_cap c = 1%nat ∧ ch_senders c = 1%nat.

Lemma ch_bounded_open : chan_open (ch_bounded 1).
Proof. destruct (ch_bounded_spec 1) as (? & ? & ? & _). by split_and!. Qed.

(** Polling or dropping the join handle leaves an unfinished task's channel
    open. *)
Lemma try_recv_open (c : C) : chan_open c → chan_open (ch_try_recv c).2.
Proof.
  intros (He & ? & ?). pose proof (ch_try_recv_spec c) as Hspec.
  destruct (ch_try_recv c) as [[r|[|]] c']; destruct_and?; subst; simpl; try congruence; done.
Qed.

Lemma drop_receiver_open (c : C) : chan_open c → chan_open (ch_drop_receiver c).
Proof.
  intros (? & ? & ?). destruct (ch_drop_receiver_spec c) as (? & ? & ? & _). split_and!; congruence.
Qed.

(** A finished task's channel: no sender, and the result if it was sent. *)
Definition chan_closed (c : C) (sent : list (TaskResult T P)) : Prop :=
  ch_senders c = 0%nat ∧ ch_elems c = sent.

(** Awaiting the handle of a channel closed without a result. *)
Lemma closed_cancelled {V} (wk : V) h (ch : C) :
  chan_closed ch [] → (poll wk h ch).1.1 = Ready (Err Cancelled).
Proof.
  intros [Hs He]. unfold poll. pose proof (ch_try_recv_spec ch) as Hspec.
  destruct (ch_try_recv ch) as [[r|[|]] ch']; destruct_and?; [congruence|lia|done].
Qed.

Definition exec_inv ex env : Prop :=
  0 < next_task_id ex < 2 ^ 64 ∧
  (∀ id t, tasks ex !! id = Some t →
     task_id t = id ∧ 0 < id < next_task_id ex ∧ (sender (future t) < next_chan env)%nat ∧
     ∃ c, chans env !! sender (future t) = Some c ∧ chan_open c) ∧
  (∀ id1 id2 t1 t2, tasks ex !! id1 = Some t1 → tasks ex !! id2 = Some t2 →
     sender (future t1) = sender (future t2) → id1 = id2).

(** What polling task [t] does to its entry and its channel. *)
Definition polled_effect (id : TaskId) (t : Task (Wrapped F)) (o : poll_out F W T)
    ex env ex' env' : Prop :=
  match po_res o with
  | PPending =>
      tasks ex' = <[id := mkTask id (mkWrapped (po_fut o) (sender (future t)))]> (tasks ex) ∧
      chans env' = chans env
  | PReady v =>
      tasks ex' = delete id (tasks ex) ∧ ∃ c c',
        chans env !! sender (future t) = Some c ∧ chans env' !! sender (future t) = Some c' ∧
        chan_closed c' (if ch_receiver c then [Ok v] else []) ∧
        ∀ i, i ≠ sender (future t) → chans env' !! i = chans env !! i
  | PPanicked =>
      tasks ex' = delete id (tasks ex) ∧ ∃ c',
        chans env' !! sender (future t) = Some c' ∧ chan_closed c' [] ∧
        ∀ i, i ≠ sender (future t) → chans env' !! i = chans env !! i
  end.

Lemma tick_one_polls id ex env t :
  exec_inv ex env → tasks ex !! id = Some t →
  let o := fut_poll id (inner (future t)) (world env) in
  ∃ ex' env', tick_one fut_poll id ex env = Ret (true, ex', env') ∧
    seg_elems (ready_queue ex') = seg_elems (ready_queue ex) ++ po_wakes o ∧
    next_task_id ex' = next_task_id ex ∧ next_chan env' = next_chan env ∧
    world env' = po_world o ∧ polled_effect id t o ex env ex' env'.
Proof.
  intros (_ & Hts & _) Ht o. destruct (Hts id t Ht) as (Hid & _ & _ & c & Hc & He & Hcap & Hs).
  unfold tick_one, Task_poll, wrapped_poll. rewrite Ht. fold o. simpl.
  destruct (po_res o) as [v| |] eqn:Hres; unfold polled_effect; rewrite Hres; simpl.
  - rewrite Hc; simpl. pose proof (ch_send_spec (Ok v) c) as Hspec.
    destruct (ch_send (Ok v) c) as [c1| |]; simpl in *.
    + destruct Hspec as (Hrx & _ & He1 & _ & Hs1 & _). unfold drop_task; simpl.
      rewrite lookup_insert_eq; simpl. destruct (ch_drop_sender_spec c1) as (He2 & _ & Hs2 & _).
      do 2 eexists; split; [done|]. simpl. rewrite seg_push_all_elems. split_and!; try done.
      exists c, (ch_drop_sender c1). rewrite lookup_insert_eq, Hrx. split_and!; try done.
      * split; [lia|]. by rewrite He2, He1, He.
      * intros i Hi. by rewrite !lookup_insert_ne.
    + unfold drop_task; simpl. rewrite Hc.
      destruct (ch_drop_sender_spec c) as (He2 & _ & Hs2 & _).
      do 2 eexists; split; [done|]. simpl. rewrite seg_push_all_elems. split_and!; try done.
      exists c, (ch_drop_sender c). rewrite lookup_insert_eq, Hspec. split_and!; try done.
      * split; [lia|congruence].
      * intros i Hi. by rewrite lookup_insert_ne.
    + rewrite He, Hcap in Hspec. simpl in Hspec. lia.
  - do 2 eexists; split; [done|]. unfold insert_task; simpl.
    rewrite lookup_delete_eq, insert_delete_eq, seg_push_all_elems, Hid. done.
  - unfold drop_task; simpl. rewrite Hc.
    destruct (ch_drop_sender_spec c) as (He2 & _ & Hs2 & _).
    do 2 eexists; split; [done|]. simpl. rewrite seg_push_all_elems. split_and!; try done.
    exists (ch_drop_sender c). rewrite lookup_insert_eq. split_and!; try done.
    + split; [lia|congruence].
    + intros i Hi. by rewrite lookup_insert_ne.
Qed.

Lemma tick_one_pending id ex env t f w wakes :
  tasks ex !! id = Some t →
  fut_poll id (inner (future t)) (world env) = mkPollOut PPending f w wakes →
  tick_one fut_poll id ex env =
    Ret (true, mkExecutor (<[id := mkTask (task_id t) (mkWrapped f (sender (future t)))]> (tasks ex))
                 (seg_push_all wakes (ready_queue ex)) (next_task_id ex), set_world env w).
Proof.
  intros Ht Hp. unfold tick_one, Task_poll, wrapped_poll. rewrite Ht, Hp. simpl.
  unfold insert_task. by rewrite lookup_delete_eq, insert_delete_eq.
Qed.

Lemma polled_effect_inv id t o ex env ex' env' :
  exec_inv ex env → tasks ex !! id = Some t →
  next_task_id ex' = next_task_id ex → next_chan env' = next_chan env →
  polled_effect id t o ex env ex' env' → exec_inv ex' env'.
Proof.
  intros (Hn & Hts & Hinj) Ht Hnt Hnc Heff. unfold polled_effect, exec_inv in *.
  rewrite Hnt, Hnc. split; [done|].
  assert (tasks ex' = delete id (tasks ex) →
    (∀ i, i ≠ sender (future t) → chans env' !! i = chans env !! i) →
    (∀ id t, tasks ex' !! id = Some t →
     task_id t = id ∧ 0 < id < next_task_id ex ∧ (sender (future t) < next_chan env)%nat ∧
     ∃ c, chans env' !! sender (future t) = Some c ∧ chan_open c) ∧
    (∀ id1 id2 t1 t2, tasks ex' !! id1 = Some t1 → tasks ex' !! id2 = Some t2 →
     sender (future t1) = sender (future t2) → id1 = id2)) as Hdel.
  { intros -> Hch. split.
    - intros id2 t2 [Hne Ht2]%lookup_delete_Some.
      destruct (Hts _ _ Ht2) as (? & ? & ? & c & ? & ?). split_and!; try done; try lia.
      exists c. rewrite Hch; [done|]. intros Heq. by rewrite (Hinj _ _ _ _ Ht2 Ht Heq) in Hne.
    - intros id1 id2 t1 t2 [_ ?]%lookup_delete_Some [_ ?]%lookup_delete_Some. eauto. }
  destruct (po_res o).
  - destruct Heff as (? & c & c' & _ & _ & _ & ?). auto.
  - destruct Heff as (-> & ->). split.
    + intros id2 t2 [[<- <-]|[Hne Ht2]]%lookup_insert_Some; [|eauto].
      destruct (Hts _ _ Ht) as (? & ? & ? & c & ? & ?). simpl. eauto 10.
    + intros id1 id2 t1 t2 [[<- <-]|[? ?]]%lookup_insert_Some
        [[<- <-]|[? ?]]%lookup_insert_Some; simpl; eauto.
  - destruct Heff as (? & c' & _ & _ & ?). auto.
Qed.

(** ** The loop of [tick] as a step relation *)

Inductive exec_step : Executor Q F * Env C W → Executor Q F * Env C W → Prop :=
  | exec_step_pop ex env id q b ex' env' :
      seg_pop (ready_queue ex) = (Some id, q) →
      tick_one fut_poll id (mkExecutor (tasks ex) q (next_task_id ex)) env = Ret (b, ex', env') →
      exec_step (ex, env) (ex', env').

(** A pop followed by a poll, or by nothing when the task is gone. *)
Lemma exec_step_cases ex env ex' env' :
  exec_inv ex env → exec_step (ex, env) (ex', env') →
  exec_inv ex' env' ∧ next_task_id ex' = next_task_id ex ∧ ∃ id rest,
    seg_elems (ready_queue ex) = id :: rest ∧
    match tasks ex !! id with
    | None => tasks ex' = tasks ex ∧ env' = env ∧ seg_elems (ready_queue ex') = rest
    | Some t =>
        let o := fut_poll id (inner (future t)) (world env) in
        seg_elems (ready_queue ex') = rest ++ po_wakes o ∧ world env' = po_world o ∧
        polled_effect id t o ex env ex' env'
    end.
Proof.
  intros Hinv Hstep. inversion_clear Hstep as [? ? id q b ? ? Hpop Hone].
  pose proof (seg_pop_elems (ready_queue ex)) as Hq. rewrite Hpop in Hq.
  set (ex1 := mkExecutor (tasks ex) q (next_task_id ex)) in *.
  assert (exec_inv ex1 env) as Hinv1 by exact Hinv.
  destruct (tasks ex !! id) as [t|] eqn:Ht.
  - destruct (tick_one_polls id ex1 env t Hinv1 Ht)
      as (ex2 & env2 & Hone2 & Hq2 & Hn2 & Hc2 & Hw2 & Heff).
    rewrite Hone in Hone2. injection Hone2 as -> -> ->.
    assert (polled_effect id t (fut_poll id (inner (future t)) (world env)) ex env ex2 env2) by exact Heff.
    split_and!; [by eapply (polled_effect_inv id t _ ex1)|done|].
    exists id, (seg_elems q). by rewrite Ht.
  - unfold tick_one in Hone. simpl in Hone. rewrite Ht in Hone. injection Hone as <- <- <-.
    split_and!; [done|done|]. exists id, (seg_elems q). by rewrite Ht.
Qed.

Lemma exec_steps_inv ex env ex' env' :
  exec_inv ex env → rtc exec_step (ex, env) (ex', env') → exec_inv ex' env'.
Proof.
  intros Hinv Hr. remember (ex, env) as s eqn:Es. remember (ex', env') as s' eqn:Es'.
  revert ex env Es Hinv. induction Hr as [s|s [ex1 env1] s' Hstep _ IH]; intros ex env -> Hinv.
  - by injection Es' as -> ->.
  - apply (IH Es' ex1 env1 eq_refl). by destruct (exec_step_cases _ _ _ _ Hinv Hstep).
Qed.

(** When [tick] returns, it has made steps until the queue was empty. *)
Lemma tick_loop_steps fuel made ex env made' ex' env' :
  tick_loop fut_poll fuel made ex env = Ret (made', ex', env') →
  ∃ ex1, rtc exec_step (ex, env) (ex1, env') ∧ seg_elems (ready_queue ex1) = [] ∧
    seg_elems (ready_queue ex') = [] ∧
    tasks ex' = tasks ex1 ∧ next_task_id ex' = next_task_id ex1.
Proof.
  revert made ex env. induction fuel as [|fuel IH]; intros made ex env Ht; [done|].
  simpl in Ht. destruct (seg_pop (ready_queue ex)) as [[id|] q] eqn:Hpop.
  - destruct (tick_one _ _ _ _) as [[[b ex1] env1]| |] eqn:Hone; simpl in Ht; try done.
    destruct (IH _ _ _ Ht) as (ex2 & ? & ? & ? & ?). exists ex2. split; [|done].
    eapply rtc_l; [by eapply exec_step_pop|done].
  - injection Ht as <- <- <-. pose proof (seg_pop_elems (ready_queue ex)) as Hq.
    rewrite Hpop in Hq. exists ex. by destruct Hq.
Qed.

(** ** Termination of [tick] for futures that finish

    [rank] bounds how often a future can still return [Pending]. *)

Section bounded.
Context (rank : F → nat).
Hypothesis rank_decreases : ∀ id f w,
  po_res (fut_poll id f w) = PPending → (rank (po_fut (fut_poll id f w)) < rank f)%nat.

Definition task_work (t : Task (Wrapped F)) : nat := S (rank (inner (future t))).

Definition work (ts : gmap TaskId (Task (Wrapped F))) : nat := map_total task_work ts.

Lemma polled_effect_work id t ex env ex' env' :
  tasks ex !! id = Some t →
  polled_effect id t (fut_poll id (inner (future t)) (world env)) ex env ex' env' →
  (work (tasks ex') < work (tasks ex))%nat.
Proof.
  intros Ht Heff. unfold work. rewrite (map_total_delete _ _ _ _ Ht). unfold polled_effect in Heff.
  destruct (po_res _) eqn:Hres.
  - destruct Heff as (-> & _). unfold task_work. lia.
  - destruct Heff as (-> & _). rewrite (map_total_insert _ _ _ _ _ Ht).
    apply rank_decreases in Hres. unfold task_work; simpl. lia.
  - destruct Heff as (-> & _). unfold task_work. lia.
Qed.

(** Each turn of the loop decreases the work left, or leaves it and shortens
    the queue. *)
Lemma tick_loop_terminates ex env made :
  exec_inv ex env →
  ∃ fuel made' ex' env', tick_loop fut_poll fuel made ex env = Ret (made', ex', env').
Proof.
  remember (work (tasks ex)) as n eqn:Hn. revert ex env made Hn.
  induction n as [n IHn] using lt_wf_ind. intros ex env made Hn Hinv.
  remember (length (seg_elems (ready_queue ex))) as k eqn:Hk. revert ex env made Hn Hinv Hk.
  induction k as [k IHk] using lt_wf_ind. intros ex env made -> Hinv ->.
  destruct (seg_pop (ready_queue ex)) as [[id|] q] eqn:Hpop.
  2: { exists 1%nat. simpl. rewrite Hpop. eauto. }
  pose proof (seg_pop_elems (ready_queue ex)) as Hq. rewrite Hpop in Hq.
  set (ex1 := mkExecutor (tasks ex) q (next_task_id ex)).
  assert (∃ b ex2 env2, tick_one fut_poll id ex1 env = Ret (b, ex2, env2)) as (b & ex2 & env2 & Hone).
  { destruct (tasks ex !! id) as [t|] eqn:Ht.
    - destruct (tick_one_polls id ex1 env t Hinv Ht) as (? & ? & ? & _). eauto.
    - unfold tick_one; simpl. rewrite Ht. eauto. }
  assert (exec_step (ex, env) (ex2, env2)) as Hstep by (by econstructor).
  destruct (exec_step_cases _ _ _ _ Hinv Hstep) as (Hinv2 & _ & id' & rest & Hq' & Hcase).
  assert (∃ fuel made' ex' env',
    tick_loop fut_poll fuel (made || b) ex2 env2 = Ret (made', ex', env')) as (fuel & ? & ? & ? & Hl).
  { destruct (tasks ex !! id') as [t|] eqn:Ht.
    - destruct Hcase as (_ & _ & Heff).
      eapply (IHn (work (tasks ex2))); [|done|done]. by eapply polled_effect_work.
    - destruct Hcase as (Hts & -> & Hq2).
      eapply (IHk (length (seg_elems (ready_queue ex2)))); [|by rewrite Hts|done|done].
      rewrite Hq2, Hq'. simpl. lia. }
  exists (S fuel). simpl. rewrite Hpop. fold ex1. rewrite Hone; simpl. eauto.
Qed.

End bounded.

(** ** [run] with nothing to run *)

Lemma run_idle fuel tick_fuel ex env :
  tasks ex ≠ ∅ → seg_elems (ready_queue ex) = [] → (∀ w, (park w).2 = []) →
  run fut_poll park fuel (S tick_fuel) ex env = NoFuel.
Proof.
  intros Hne Hq Hpark. revert ex env Hne Hq.
  induction fuel as [|fuel IH]; intros ex env Hne Hq; [done|].
  cbn [run]. rewrite decide_False by done. unfold tick. cbn [tick_loop].
  pose proof (seg_pop_elems (ready_queue ex)) as Hpop.
  destruct (seg_pop (ready_queue ex)) as [[id|] q]; [congruence|]. destruct Hpop as [_ Hq'].
  simpl. specialize (Hpark (world env)). destruct (park (world env)) as [w' wakes].
  simpl in Hpark. subst wakes. simpl. by apply IH.
Qed.

End executor_facts.

(** ** A task whose first poll hands out no waker *)

(** A task that hands out no waker at its first poll: the first tick polls it,
    it goes back to the table, and nothing is left on the run queue. *)
Lemma silent_first_tick {Q C P F W T} `{SegQueueLaws Q TaskId} `{ChannelLaws C (TaskResult T P)}
    (fut_poll : TaskId → F → W → poll_out F W T) fut fut' w' tick_fuel (ex : Executor Q F) (env : Env C W) :
  ready_queue ex = seg_push (1 : TaskId) seg_new → tasks ex !! (1 : TaskId) = Some (Task_new 1 (mkWrapped fut 0)) →
  fut_poll 1 fut (world env) = mkPollOut PPending fut' w' [] →
  tick fut_poll tick_fuel ex env = NoFuel ∧ (tick_fuel < 2)%nat ∨ ∃ ex',
    tick fut_poll tick_fuel ex env = Ret (true, ex', set_world env w') ∧ tasks ex' ≠ ∅ ∧
    seg_elems (ready_queue ex') = [].
Proof.
  intros Hrq Ht Hp. unfold tick. destruct tick_fuel as [|tf]; [left; split; [done|lia]|]. cbn [tick_loop].
  pose proof (seg_pop_elems (ready_queue ex)) as Hpop. rewrite Hrq in *.
  rewrite seg_push_elems, seg_new_elems in Hpop. cbn [app] in Hpop.
  destruct (seg_pop _) as [[id|] q]; [|by destruct Hpop].
  injection Hpop as <- Hq. cbn [mbind outcome_bind].
  rewrite (tick_one_pending fut_poll 1 (mkExecutor (tasks ex) q (next_task_id ex)) env _ fut' w' [] Ht Hp).
  cbn [mbind outcome_bind]. destruct tf as [|tf]; [left; split; [done|lia]|]. right. cbn.
  pose proof (seg_pop_elems q) as Hpop. destruct (seg_pop q) as [[id|] q1]; [congruence|].
  destruct Hpop as [_ Hq2]. eexists. split_and!; [done| |done]. apply insert_non_empty.
Qed.

(** Spawned alone on a new executor, it keeps [run] from ever returning. *)
Lemma silent_run {Q C P F W T} `{SegQueueLaws Q TaskId} `{ChannelLaws C (TaskResult T P)}
    (fut_poll : TaskId → F → W → poll_out F W T) (park : W → W * list TaskId) fut fut' w w' fuel tick_fuel :
  fut_poll 1 fut w = mkPollOut PPending fut' w' [] → (∀ w, (park w).2 = []) →
  let '(_, _, ex, env) := spawn fut (new (Q:=Q)) (mkEnv (∅ : gmap nat C) 0 w) in
  run fut_poll park fuel tick_fuel ex env = NoFuel.
Proof.
  intros Hp Hpark. unfold spawn. cbn [fetch_add1 new next_task_id insert_task tasks].
  rewrite lookup_empty. destruct fuel as [|fuel]; [done|]. cbn [run]. rewrite decide_False by (apply insert_non_empty).
  set (ex := mkExecutor _ _ _). set (env := mkEnv _ _ _).
  destruct (silent_first_tick fut_poll fut fut' w' tick_fuel ex env eq_refl (lookup_insert_eq _ _ _) Hp)
    as [[-> _]|(ex' & -> & Hne & Hq)]; [done|]. cbn [mbind outcome_bind].
  destruct tick_fuel as [|tf]; [|by apply run_idle].
  destruct fuel as [|fuel]; [done|]. cbn [run]. by rewrite decide_False.
Qed.
