(* ===== verification/ExecutorProps.v ===== *)
(** * Properties of the single-threaded executor

    Reachable states, termination of [tick] and [run], delivery of results,
    isolation of panics, and what happens to a task nobody wakes. *)

From S2P Require Import Prelude Interfaces Waker Task Executor.

Section executor_props.
Context {Q C F W T P : Type} `{SegQueueLaws Q TaskId} `{ChannelLaws C (TaskResult T P)}.
Context (fut_poll : TaskId → F → W → poll_out F W T) (park : W → W * list TaskId).
Implicit Types (ex : Executor Q F) (env : Env C W).

(** Everything that can happen to an executor and its channels: [spawn],
    [tick], other threads changing the world and using wakers, and join
    handles being polled or dropped. *)
Inductive sys_step : Executor Q F * Env C W → Executor Q F * Env C W → Prop :=
  | sys_spawn fut ex env id ch ex' env' :
      next_task_id ex + 1 < 2 ^ 64 → spawn fut ex env = (id, ch, ex', env') →
      sys_step (ex, env) (ex', env')
  | sys_tick fuel ex env made ex' env' :
      tick fut_poll fuel ex env = Ret (made, ex', env') → sys_step (ex, env) (ex', env')
  | sys_other ex env w wakes :
      sys_step (ex, env)
        (mkExecutor (tasks ex) (seg_push_all wakes (ready_queue ex)) (next_task_id ex),
         set_world env w)
  | sys_join ex env i c :
      chans env !! i = Some c → sys_step (ex, env) (ex, set_chan env i (ch_try_recv c).2)
  | sys_drop_handle ex env i c :
      chans env !! i = Some c → sys_step (ex, env) (ex, set_chan env i (ch_drop_receiver c)).

Definition initial_env (w : W) : Env C W := mkEnv ∅ 0 w.

(** ** The invariant is preserved *)

Lemma spawn_spec fut ex env :
  exec_inv ex env →
  let id : TaskId := next_task_id ex in let ch := next_chan env in
  tasks ex !! id = None ∧
  spawn fut ex env =
    (id, ch, mkExecutor (<[id := mkTask id (mkWrapped fut ch)]> (tasks ex))
               (seg_push id (ready_queue ex)) (wrap64 (id + 1)),
     mkEnv (<[ch := ch_bounded 1]> (chans env)) (S ch) (world env)).
Proof.
  intros (_ & Hts & _) id ch. assert (tasks ex !! id = None) as Hnone.
  { destruct (tasks ex !! id) as [t|] eqn:Ht; [|done].
    destruct (Hts _ _ Ht) as (_ & ? & _). unfold id in *. lia. }
  split; [done|]. unfold spawn, fetch_add1, insert_task; simpl. fold id. by rewrite Hnone.
Qed.

Lemma spawn_inv fut ex env id ch ex' env' :
  exec_inv ex env → next_task_id ex + 1 < 2 ^ 64 →
  spawn fut ex env = (id, ch, ex', env') → exec_inv ex' env'.
Proof.
  intros Hinv Hb Hs. destruct (spawn_spec fut ex env Hinv) as [Hnone Heq].
  rewrite Heq in Hs. injection Hs as <- <- <- <-. destruct Hinv as (Hn & Hts & Hinj).
  unfold exec_inv; simpl. autorewrite with miniss_rw. split; [lia|split].
  - intros id t [[<- <-]|[Hne Ht]]%lookup_insert_Some; simpl.
    + split_and!; try lia. exists (ch_bounded 1). rewrite lookup_insert_eq.
      auto using ch_bounded_open.
    + destruct (Hts _ _ Ht) as (? & ? & ? & c & ? & ?). split_and!; try lia.
      exists c. by rewrite lookup_insert_ne by lia.
  - assert (∀ id t, tasks ex !! id = Some t → sender (future t) ≠ next_chan env) as Hfresh.
    { intros id t Ht. destruct (Hts _ _ Ht) as (_ & _ & ? & _). lia. }
    intros id1 id2 t1 t2 [[<- <-]|[? Ht1]]%lookup_insert_Some
      [[<- <-]|[? Ht2]]%lookup_insert_Some; simpl; intros Heq'; eauto.
    + by destruct (Hfresh _ _ Ht2).
    + by destruct (Hfresh _ _ Ht1).
Qed.

(** A change of one channel that keeps an unfinished task's channel open. *)
Lemma set_chan_inv ex env i c c' :
  exec_inv ex env → chans env !! i = Some c → (chan_open c → chan_open c') →
  exec_inv ex (set_chan env i c').
Proof.
  intros (Hn & Hts & Hinj) Hi Hopen. split; [done|split; [|done]].
  intros id t Ht. destruct (Hts _ _ Ht) as (? & ? & ? & d & Hd & Ho). simpl.
  split_and!; try first [done|lia]. destruct (decide (i = sender (future t))) as [->|Hne].
  - exists c'. rewrite lookup_insert_eq. split; [done|]. apply Hopen. congruence.
  - exists d. by rewrite lookup_insert_ne.
Qed.

Lemma tick_inv fuel ex env made ex' env' :
  exec_inv ex env → tick fut_poll fuel ex env = Ret (made, ex', env') → exec_inv ex' env'.
Proof.
  intros Hinv Ht. destruct (tick_loop_steps _ _ _ _ _ _ _ _ Ht) as (ex1 & Hr & _ & _ & Hts & Hn).
  pose proof (exec_steps_inv _ _ _ _ _ Hinv Hr) as (? & ? & ?). unfold exec_inv.
  by rewrite Hts, Hn.
Qed.

Lemma sys_step_inv s s' : exec_inv s.1 s.2 → sys_step s s' → exec_inv s'.1 s'.2.
Proof.
  intros Hinv Hstep. destruct Hstep; simpl in *.
  - by eapply spawn_inv.
  - by eapply tick_inv.
  - exact Hinv.
  - by eapply set_chan_inv, try_recv_open.
  - by eapply set_chan_inv, drop_receiver_open.
Qed.

Lemma new_exec_inv w : exec_inv (new : Executor Q F) (initial_env w).
Proof. unfold exec_inv; simpl. split; [lia|]. split; intros *; by rewrite lookup_empty. Qed.

Lemma sys_reachable_inv s s' : exec_inv s.1 s.2 → rtc sys_step s s' → exec_inv s'.1 s'.2.
Proof. intros Hinv Hr. induction Hr; eauto using sys_step_inv. Qed.

Lemma reachable_inv w ex env :
  rtc sys_step (new, initial_env w) (ex, env) → exec_inv ex env.
Proof. intros Hr. exact (sys_reachable_inv (new, _) (ex, env) (new_exec_inv w) Hr). Qed.

(** ** Delivery: no task's channel is lost *)

(** The channel is disconnected and holds the task's result, or nothing (the
    task panicked, its handle was dropped, or the result was received). *)
Definition settled env (i : nat) : Prop :=
  ∃ c, chans env !! i = Some c ∧
    (chan_closed c [] ∨ ∃ v : T, chan_closed c [Ok v]).

(** Task [id] is still in the table, or its channel is settled. *)
Definition accounted (id : TaskId) (i : nat) ex env : Prop :=
  (∃ t, tasks ex !! id = Some t ∧ sender (future t) = i) ∨ settled env i.

Lemma settled_not_live ex env i id t :
  exec_inv ex env → settled env i → tasks ex !! id = Some t → sender (future t) ≠ i.
Proof.
  intros (_ & Hts & _) (c & Hc & Hcl) Ht <-.
  destruct (Hts _ _ Ht) as (_ & _ & _ & c' & Hc' & _ & _ & Hs).
  destruct Hcl as [[? _]|[v [? _]]]; simplify_eq; lia.
Qed.

Lemma polled_effect_settled id t o ex env ex' env' :
  polled_effect id t o ex env ex' env' → po_res o ≠ PPending →
  settled env' (sender (future t)).
Proof.
  unfold polled_effect, settled. destruct (po_res o) as [v| |]; [| |]; intros Heff Hne; [|done|].
  - destruct Heff as (_ & c & c' & _ & Hc' & Hcl & _). exists c'. split; [done|].
    destruct (ch_receiver c); eauto.
  - destruct Heff as (_ & c' & Hc' & Hcl & _). eauto.
Qed.

Lemma polled_effect_chans id t o ex env ex' env' i :
  polled_effect id t o ex env ex' env' → i ≠ sender (future t) →
  chans env' !! i = chans env !! i.
Proof.
  unfold polled_effect. destruct (po_res o); intros Heff Hi.
  - destruct Heff as (_ & c & c' & _ & _ & _ & Hch). auto.
  - by destruct Heff as (_ & ->).
  - destruct Heff as (_ & c' & _ & _ & Hch). auto.
Qed.

Lemma polled_effect_tasks id t o ex env ex' env' id2 :
  polled_effect id t o ex env ex' env' → id2 ≠ id → tasks ex' !! id2 = tasks ex !! id2.
Proof.
  unfold polled_effect. destruct (po_res o); intros [-> _] Hne;
    by rewrite ?lookup_insert_ne, ?lookup_delete_ne.
Qed.

Lemma polled_effect_accounted id t o ex env ex' env' id2 i :
  exec_inv ex env → tasks ex !! id = Some t →
  polled_effect id t o ex env ex' env' → accounted id2 i ex env → accounted id2 i ex' env'.
Proof.
  intros Hinv Ht Heff [(t2 & Ht2 & Hs2)|Hset].
  - destruct (decide (id2 = id)) as [->|Hne].
    + rewrite Ht in Ht2. injection Ht2 as ->. destruct (po_res o) eqn:Hres.
      * right. rewrite <-Hs2. eapply polled_effect_settled; [done|congruence].
      * left. unfold polled_effect in Heff. rewrite Hres in Heff. destruct Heff as [-> _].
        rewrite lookup_insert_eq. by eexists.
      * right. rewrite <-Hs2. eapply polled_effect_settled; [done|congruence].
    + left. exists t2. by rewrite (polled_effect_tasks _ _ _ _ _ _ _ _ Heff Hne).
  - right. pose proof (settled_not_live _ _ _ _ _ Hinv Hset Ht). destruct Hset as (c & Hc & ?).
    exists c. by rewrite (polled_effect_chans _ _ _ _ _ _ _ _ Heff).
Qed.

Lemma exec_step_accounted ex env ex' env' id i :
  exec_inv ex env → exec_step fut_poll (ex, env) (ex', env') →
  accounted id i ex env → accounted id i ex' env'.
Proof.
  intros Hinv Hstep Hacc.
  destruct (exec_step_cases _ _ _ _ _ Hinv Hstep) as (_ & _ & id' & rest & _ & Hcase).
  destruct (tasks ex !! id') as [t|] eqn:Ht.
  - destruct Hcase as (_ & _ & Heff). by eapply polled_effect_accounted.
  - destruct Hcase as (Hts & -> & _). unfold accounted. by rewrite Hts.
Qed.

(** Awaiting the handle of a settled channel is over. *)
Lemma settled_ready {V} env i (wk : V) h :
  settled env i → ∃ c r, chans env !! i = Some c ∧ (poll wk h c).1.1 = Ready r.
Proof.
  intros (c & Hc & Hcl). exists c. unfold poll. pose proof (ch_try_recv_spec c) as Hspec.
  destruct (ch_try_recv c) as [[r|[|]] c']; [by exists r| |by eexists].
  destruct Hspec as (_ & ? & _). destruct Hcl as [[? _]|[v [? _]]]; lia.
Qed.

(** ** Tasks that are always woken again *)

Definition all_queued ex : Prop :=
  ∀ id, is_Some (tasks ex !! id) → id ∈ seg_elems (ready_queue ex).

(** Spawning a list of futures, with the ids and channels of the handles. *)
Fixpoint spawn_all (futs : list F) ex env : list (TaskId * nat) * Executor Q F * Env C W :=
  match futs with
  | [] => ([], ex, env)
  | fut :: futs =>
      let '(id, ch, ex, env) := spawn fut ex env in
      let '(hs, ex, env) := spawn_all futs ex env in ((id, ch) :: hs, ex, env)
  end.

Lemma spawn_queued fut ex env id ch ex' env' :
  exec_inv ex env → spawn fut ex env = (id, ch, ex', env') → all_queued ex → all_queued ex'.
Proof.
  intros Hinv Hs Hall. destruct (spawn_spec fut ex env Hinv) as [_ Heq].
  rewrite Heq in Hs. injection Hs as <- <- <- <-. intros id. simpl.
  rewrite seg_push_elems, elem_of_app, list_elem_of_singleton, lookup_insert_is_Some'.
  intros [<-|Hid]; [by right|left; by apply Hall].
Qed.

Lemma spawn_all_spec futs ex env hs ex' env' :
  exec_inv ex env → next_task_id ex + Z.of_nat (length futs) < 2 ^ 64 → all_queued ex →
  spawn_all futs ex env = (hs, ex', env') →
  exec_inv ex' env' ∧ all_queued ex' ∧ hs.*1 = seqZ (next_task_id ex) (Z.of_nat (length futs)) ∧
  (∀ id t, tasks ex !! id = Some t → tasks ex' !! id = Some t) ∧
  Forall (λ h, ∃ t, tasks ex' !! h.1 = Some t ∧ sender (future t) = h.2) hs.
Proof.
  revert ex env hs. induction futs as [|fut futs IH]; intros ex env hs Hinv Hb Hall Hs; cbn [spawn_all length] in *.
  { injection Hs as <- <- <-. by split_and!. }
  destruct (spawn fut ex env) as [[[id ch] ex1] env1] eqn:Hsp.
  destruct (spawn_all futs ex1 env1) as [[hs1 ex2] env2] eqn:Hsa. injection Hs as <- <- <-.
  pose proof (spawn_inv _ _ _ _ _ _ _ Hinv ltac:(lia) Hsp) as Hinv1.
  pose proof (spawn_queued _ _ _ _ _ _ _ Hinv Hsp Hall) as Hall1.
  destruct (spawn_spec fut ex env Hinv) as [Hnone Heq]. rewrite Heq in Hsp.
  injection Hsp as <- <- <- <-. destruct Hinv as [Hn _].
  assert (wrap64 (next_task_id ex + 1) = next_task_id ex + 1) as Hw
    by (autorewrite with miniss_rw; done).
  destruct (IH _ _ _ Hinv1 ltac:(simpl; lia) Hall1 Hsa) as (? & ? & Hids & Hkeep & Hf).
  split_and!; [done|done| | |].
  - rewrite fmap_cons, Hids, (seqZ_cons (next_task_id ex)) by lia. simpl. rewrite Hw.
    f_equal. f_equal; lia.
  - intros id t Ht. apply Hkeep; simpl. rewrite lookup_insert_ne; [done|congruence].
  - constructor; [|done]. simpl. eexists. split; [apply Hkeep; simpl; apply lookup_insert_eq|done].
Qed.

Hypothesis self_waking : ∀ id f w,
  po_res (fut_poll id f w) = PPending → id ∈ po_wakes (fut_poll id f w).

Lemma exec_step_queued ex env ex' env' :
  exec_inv ex env → exec_step fut_poll (ex, env) (ex', env') → all_queued ex → all_queued ex'.
Proof.
  intros Hinv Hstep Hall id Hid.
  destruct (exec_step_cases _ _ _ _ _ Hinv Hstep) as (_ & _ & id' & rest & Hq & Hcase).
  unfold all_queued in Hall. rewrite Hq in Hall. destruct (tasks ex !! id') as [t|] eqn:Ht.
  - destruct Hcase as (-> & _ & Heff). rewrite elem_of_app. destruct (decide (id = id')) as [->|Hne].
    + right. apply self_waking. unfold polled_effect in Heff. destruct (po_res _); [exfalso| |exfalso].
      all: first [done | destruct Heff as [Hts _]; rewrite Hts, lookup_delete_eq in Hid; by destruct Hid].
    + left. rewrite (polled_effect_tasks _ _ _ _ _ _ _ _ Heff Hne) in Hid.
      apply Hall in Hid. by apply elem_of_cons in Hid as [->|].
  - destruct Hcase as (Hts & _ & ->). rewrite Hts in Hid. pose proof (Hall _ Hid) as Hin.
    apply elem_of_cons in Hin as [->|]; [|done]. rewrite Ht in Hid. by destruct Hid.
Qed.

Lemma exec_steps_accounted ex env ex' env' :
  rtc (exec_step fut_poll) (ex, env) (ex', env') → exec_inv ex env → all_queued ex →
  all_queued ex' ∧ ∀ id i, accounted id i ex env → accounted id i ex' env'.
Proof.
  intros Hr. remember (ex, env) as s eqn:Es. remember (ex', env') as s' eqn:Es'.
  revert ex env Es. induction Hr as [s|s [ex1 env1] s' Hstep _ IH]; intros ex env -> Hinv Hall.
  - by injection Es' as -> ->.
  - destruct (exec_step_cases _ _ _ _ _ Hinv Hstep) as (Hinv1 & _).
    destruct (IH Es' ex1 env1 eq_refl Hinv1) as [Hq Ha]; [exact (exec_step_queued _ _ _ _ Hinv Hstep Hall)|].
    split; [done|]. intros id i Hacc. exact (Ha _ _ (exec_step_accounted _ _ _ _ _ _ Hinv Hstep Hacc)).
Qed.

(** A tick that returns has run every self-waking task to its end. *)
Lemma tick_finishes fuel ex env made ex' env' :
  exec_inv ex env → all_queued ex → tick fut_poll fuel ex env = Ret (made, ex', env') →
  tasks ex' = ∅ ∧ ∀ id t, tasks ex !! id = Some t → settled env' (sender (future t)).
Proof.
  intros Hinv Hall Ht.
  destruct (tick_loop_steps _ _ _ _ _ _ _ _ Ht) as (ex1 & Hr & He & _ & Hts & _).
  destruct (exec_steps_accounted _ _ _ _ Hr Hinv Hall) as [Hq Ha].
  assert (tasks ex1 = ∅) as Hempty.
  { apply map_empty. intros id. destruct (tasks ex1 !! id) as [t|] eqn:Hid; [|done].
    assert (id ∈ seg_elems (ready_queue ex1)) as Hin by (apply Hq; by rewrite Hid).
    rewrite He in Hin. by apply elem_of_nil in Hin. }
  split; [congruence|]. intros id t Hid.
  destruct (Ha id (sender (future t))) as [(t' & Ht' & _)|]; [by left; eauto| |done].
  by rewrite Hempty, lookup_empty in Ht'.
Qed.

Lemma run_from_tick fuel ex env made ex' env' :
  tick fut_poll fuel ex env = Ret (made, ex', env') → tasks ex' = ∅ → tasks ex ≠ ∅ →
  ∃ ex2 env2, run fut_poll park 2 fuel ex env = Ret (ex2, env2) ∧ tasks ex2 = ∅ ∧
    chans env2 = chans env'.
Proof.
  intros Ht He Hne. simpl. rewrite decide_False by done. rewrite Ht; simpl.
  destruct made; simpl.
  - rewrite decide_True by done. eauto.
  - destruct (park (world env')) as [w wakes]. simpl. rewrite decide_True by done. eauto.
Qed.

End executor_props.

(** ** Claims *)

Section executor_claims.
Context {Q C F W T P : Type} `{SegQueueLaws Q TaskId} `{ChannelLaws C (TaskResult T P)}.
Context (fut_poll : TaskId → F → W → poll_out F W T) (park : W → W * list TaskId).
Implicit Types (ex : Executor Q F) (env : Env C W).

(** C7. In every state an executor can reach (spawning, ticking, wakes and
    world changes by other threads, join handles polled or dropped), each task
    in the table is filed under its own id, which is below the next id to be
    given, and owns the one sender of a channel of its own that has room for
    its result: sending the result can therefore never block the thread. *)
Theorem executor_reachable_inv w ex env :
  rtc (sys_step fut_poll) (new, initial_env w) (ex, env) → exec_inv ex env.
Proof. intros Hr. exact (reachable_inv _ _ _ _ Hr). Qed.

(** [spawn] in a reachable state gives the task an id no task in the
    table has, files it without disturbing any other task or channel, puts
    it at the end of the run queue, and returns a handle on a new channel on
    which waiting is [Pending]. *)
Theorem spawn_correct w ex env fut {V} (wk : V) :
  rtc (sys_step fut_poll) (new, initial_env w) (ex, env) →
  ∃ id ch ex' env', spawn fut ex env = (id, ch, ex', env') ∧
    tasks ex !! id = None ∧
    tasks ex' = <[id := mkTask id (mkWrapped fut ch)]> (tasks ex) ∧
    seg_elems (ready_queue ex') = seg_elems (ready_queue ex) ++ [id] ∧
    (∀ i, i ≠ ch → chans env' !! i = chans env !! i) ∧
    (∀ id2 t, tasks ex !! id2 = Some t → sender (future t) ≠ ch) ∧
    ∃ c, chans env' !! ch = Some c ∧ (poll wk (JoinHandle_new id) c).1.1 = Pending.
Proof.
  intros Hr. pose proof (reachable_inv _ _ _ _ Hr) as Hinv.
  destruct (spawn_spec fut ex env Hinv) as [Hnone Heq]. rewrite Heq.
  do 4 eexists. split; [done|]. simpl. rewrite seg_push_elems. split_and!; try done.
  - intros i Hi. by rewrite lookup_insert_ne.
  - intros id2 t Ht. destruct Hinv as (_ & Hts & _). destruct (Hts _ _ Ht) as (_ & _ & ? & _). lia.
  - exists (ch_bounded 1). rewrite lookup_insert_eq. split; [done|].
    destruct (ch_bounded_spec 1) as (He & _ & Hs & _). unfold poll.
    pose proof (ch_try_recv_spec (ch_bounded 1)) as Hspec.
    destruct (ch_try_recv (ch_bounded 1)) as [[r|[|]] c']; destruct_and?; [congruence|done|lia].
Qed.

(** C29. A call of [tick] in a reachable state returns, without a panic and
    without blocking, whenever each future can return [Pending] only
    finitely often, and leaves the run queue empty. *)
Theorem tick_terminates (rank : F → nat) w ex env :
  (∀ id f w, po_res (fut_poll id f w) = PPending →
     (rank (po_fut (fut_poll id f w)) < rank f)%nat) →
  rtc (sys_step fut_poll) (new, initial_env w) (ex, env) →
  ∃ fuel made ex' env', tick fut_poll fuel ex env = Ret (made, ex', env') ∧
    seg_elems (ready_queue ex') = [].
Proof.
  intros Hrank Hr. pose proof (reachable_inv _ _ _ _ Hr) as Hinv.
  destruct (tick_loop_terminates _ rank Hrank ex env false Hinv) as (fuel & made & ex' & env' & Ht).
  exists fuel, made, ex', env'. split; [done|].
  by destruct (tick_loop_steps _ _ _ _ _ _ _ _ Ht) as (? & _ & _ & ? & _).
Qed.


(** C30. A task that panics does not take the executor or another task with
    it: the panic is caught, exactly its own entry leaves the table, every
    other channel is as before, and its own handle reports [Cancelled] (not
    [TaskError::Panic], which nothing ever sends). *)
Theorem panic_isolated w ex env id t {V} (wk : V) :
  rtc (sys_step fut_poll) (new, initial_env w) (ex, env) →
  tasks ex !! id = Some t →
  po_res (fut_poll id (inner (future t)) (world env)) = PPanicked →
  ∃ ex' env', tick_one fut_poll id ex env = Ret (true, ex', env') ∧
    tasks ex' = delete id (tasks ex) ∧
    (∀ i, i ≠ sender (future t) → chans env' !! i = chans env !! i) ∧
    ∃ c, chans env' !! sender (future t) = Some c ∧
      (poll wk (JoinHandle_new id) c).1.1 = Ready (Err Cancelled).
Proof.
  intros Hr Ht Hp. pose proof (reachable_inv _ _ _ _ Hr) as Hinv.
  destruct (tick_one_polls fut_poll id ex env t Hinv Ht)
    as (ex' & env' & Hone & _ & _ & _ & _ & Heff).
  unfold polled_effect in Heff. rewrite Hp in Heff. destruct Heff as (Hts & c & Hc & Hcl & Hch).
  exists ex', env'. split_and!; [done..|]. exists c. split; [done|by apply closed_cancelled].
Qed.

(** [run] does not return while a task waits that nobody wakes: with an
    empty run queue, a task in the table, and no wake-ups from other threads,
    it keeps parking for every amount of fuel. *)
Theorem run_without_wake_never_returns ex env :
  tasks ex ≠ ∅ → seg_elems (ready_queue ex) = [] → (∀ w, (park w).2 = []) →
  ∀ fuel tick_fuel, run fut_poll park fuel (S tick_fuel) ex env = NoFuel.
Proof.
  intros Hne Hq Hpark fuel tick_fuel. by apply run_idle.
Qed.

End executor_claims.

(** ** Witnesses

    A future that counts down, waking itself each time, and panics on
    negative numbers; its output is the number of polls the world has seen. *)

Definition countdown_poll (id : TaskId) (n : Z) (w : nat) : poll_out Z nat nat :=
  if n <? 0 then mkPollOut PPanicked n w []
  else if n =? 0 then mkPollOut (PReady w) n w []
  else mkPollOut PPending (n - 1) (S w) [id].

Abbreviation demo_chan := (list_channel (TaskResult nat unit)).

Definition demo_ex (n : Z) : Executor (list TaskId) Z :=
  mkExecutor {[ 1 := mkTask 1 (mkWrapped n 0) ]} [1] 2.

Definition demo_env : Env demo_chan nat :=
  mkEnv {[ 0%nat := mkListChannel [] 1 1 true ]} 1 0%nat.

Lemma demo_reachable n :
  rtc (sys_step countdown_poll) (new, initial_env (0%nat : nat)) (demo_ex n, demo_env).
Proof. apply rtc_once. apply (sys_spawn _ n new (initial_env 0%nat) 1 0); reflexivity. Qed.

Lemma countdown_rank id n w :
  po_res (countdown_poll id n w) = PPending →
  (Z.to_nat (po_fut (countdown_poll id n w)) < Z.to_nat n)%nat.
Proof. unfold countdown_poll. repeat case_match; simpl; intros; simplify_eq; lia. Qed.

Lemma countdown_wakes id n w :
  po_res (countdown_poll id n w) = PPending → id ∈ po_wakes (countdown_poll id n w).
Proof. unfold countdown_poll. repeat case_match; simpl; intros; simplify_eq. set_solver. Qed.

Lemma executor_reachable_inv_witness : exec_inv (demo_ex 3) demo_env.
Proof. exact (executor_reachable_inv countdown_poll 0%nat _ _ (demo_reachable 3)). Defined.

Lemma spawn_correct_witness :
  ∃ id ch ex' env', spawn 7 (demo_ex 3) demo_env = (id, ch, ex', env') ∧
    tasks (demo_ex 3) !! id = None.
Proof.
  destruct (spawn_correct countdown_poll 0%nat _ _ 7 tt (demo_reachable 3))
    as (id & ch & ex' & env' & H1 & H2 & _).
  exists id, ch, ex', env'. split; [exact H1|exact H2].
Defined.

Lemma tick_terminates_witness :
  ∃ fuel made ex' env', tick countdown_poll fuel (demo_ex 3) demo_env = Ret (made, ex', env') ∧
    seg_elems (ready_queue ex') = [].
Proof. exact (tick_terminates countdown_poll Z.to_nat 0%nat _ _ countdown_rank (demo_reachable 3)). Defined.


Lemma panic_isolated_witness :
  ∃ ex' env', tick_one countdown_poll 1 (demo_ex (-1)) demo_env = Ret (true, ex', env') ∧
    tasks ex' = delete (1 : TaskId) (tasks (demo_ex (-1))).
Proof.
  destruct (panic_isolated countdown_poll 0%nat _ _ 1 (mkTask 1 (mkWrapped (-1) 0)) tt
              (demo_reachable (-1)) eq_refl eq_refl) as (ex' & env' & H1 & H2 & _).
  exists ex', env'. split; [exact H1|exact H2].
Defined.

(** A future that is not ready and wakes nobody, already polled once. *)
Lemma run_without_wake_never_returns_witness :
  run (T:=nat) (P:=unit) (λ _ (n : Z) (w : nat), mkPollOut PPending n w []) (λ w, (w, []))
    1000 8
    (mkExecutor {[ 1 := mkTask 1 (mkWrapped 0 0) ]} ([] : list TaskId) 2) demo_env = NoFuel.
Proof.
  apply run_without_wake_never_returns; [|reflexivity|reflexivity].
  apply insert_non_empty.
Defined.
