(* ===== verification/Io.v ===== *)
(** * I/O operations, tokens, completions and [IoFuture]
    (src/io/mod.rs, src/io/future.rs, and [CpuIoState] of src/cpu.rs)

    A backend implements the [IoProvider] trait: [submit] hands out a token,
    [poll_complete] returns completions. The runtime files each completion in
    [completed_io] and wakes the waker registered for its token; an [IoFuture]
    polls the two maps of the [CpuIoState] of its thread. *)

From S2P Require Import Prelude Buffer.

(** ** Addresses and errors of the standard library *)

Inductive SocketAddr :=
  | V4 (octets : list Z) (port : Z)
  | V6 (octets : list Z) (port flowinfo scope_id : Z).

Inductive ErrorKind :=
  | WouldBlock | Interrupted | InvalidInput | InvalidData | UnexpectedEof | WriteZero
  | AddrNotAvailable | Unsupported | OtherKind.

(** [std::io::Error]: an OS error code, or a kind with a message. *)
Inductive io_error :=
  | OsError (code : Z)
  | CustomError (kind : ErrorKind) (msg : string).

(** ** [IoError] *)

Inductive IoError :=
  | Io (e : io_error)
  | Other (s : string).

Definition io_error_of_IoError (e : IoError) : io_error :=
  match e with
  | Io err => err
  | Other s => CustomError OtherKind s
  end.

(** ** [Op], [IoToken] and [CompletionKind] *)

Inductive Op :=
  | OpAccept (fd : Z)
  | OpRead (fd offset : Z) (len : nat)
  | OpWrite (fd offset : Z) (data : Buffer)
  | OpFsync (fd : Z)
  | OpClose (fd : Z)
  | OpReadFile (fd offset : Z) (len : nat)
  | OpWriteFile (fd offset : Z) (data : Buffer)
  | OpUdpRecv (fd : Z) (buffer : Buffer)
  | OpUdpSend (fd : Z) (data : Buffer) (addr : SocketAddr).

Definition IoToken := Z.

Definition TOKEN_COUNTER_INIT : Z := 1.

(** The token and the value of the global counter afterwards. *)
Definition IoToken_new (counter : Z) : IoToken * Z := fetch_add1 counter.

Inductive CompletionKind :=
  | CAccept (fd : Z) (addr : option SocketAddr)
  | CRead (bytes_read : nat) (data : Buffer)
  | CWrite (bytes_written : nat)
  | CFsync
  | CClose
  | CReadFile (bytes_read : nat) (data : Buffer)
  | CWriteFile (bytes_written : nat)
  | CUdpRecv (bytes_read : nat) (buffer : Buffer) (addr : SocketAddr)
  | CUdpSend (bytes_written : nat) (data : Buffer).

Abbreviation IoResult := (result CompletionKind IoError).

(** The associated type [Completion] every backend of the crate uses. *)
Definition Completion : Type := IoToken * Op * IoResult.

Definition c_token (c : Completion) : IoToken := c.1.1.
Definition c_result (c : Completion) : IoResult := c.2.

(** ** The trait [IoProvider] *)

Class IoProvider (B : Type) := {
  (** also threads the global token counter *)
  submit : Op → Z → B → IoToken * Z * B;
  poll_complete : B → Poll (list Completion) * B;
  (** the tokens the backend may still complete *)
  outstanding : B → gset IoToken
}.

(** What the runtime needs of a backend: tokens come from the counter, and a
    completion is for a token handed out earlier and not completed since. *)
Class IoProviderLaws (B : Type) `{IoProvider B} : Prop := {
  submit_spec op counter b :
    let '(token, counter', b') := submit op counter b in
    (token, counter') = IoToken_new counter ∧
    outstanding b' ⊆ {[ token ]} ∪ outstanding b;
  poll_complete_spec b :
    let '(p, b') := poll_complete b in
    match p with
    | Pending => outstanding b' ⊆ outstanding b
    | Ready cs =>
        NoDup (c_token <$> cs) ∧
        (∀ c, c ∈ cs → c_token c ∈ outstanding b) ∧
        outstanding b' ⊆ outstanding b ∖ list_to_set (c_token <$> cs)
    end
}.

(** ** [DummyIoBackend] *)

Inductive DummyIoBackend := Dummy.

Definition dummy_submit (_ : Op) (counter : Z) (b : DummyIoBackend)
    : IoToken * Z * DummyIoBackend :=
  (IoToken_new counter, b).

Definition dummy_poll_complete (b : DummyIoBackend) : Poll (list Completion) * DummyIoBackend :=
  (Ready [], b).

#[export] Instance dummy_io_provider : IoProvider DummyIoBackend := {
  submit := dummy_submit;
  poll_complete := dummy_poll_complete;
  outstanding _ := ∅
}.

#[export] Instance dummy_io_provider_laws : IoProviderLaws DummyIoBackend.
Proof.
  split; [intros op counter b|intros b]; simpl; [by split|].
  split_and!; [constructor|intros c Hc; by apply elem_of_nil in Hc|done].
Qed.

(** ** [CpuIoState] and [IoFuture]

    [Wk] is the type of wakers. *)

Section io_state.
Context {B Wk : Type}.

Record CpuIoState := mkCpuIoState {
  io_backend : B;
  io_wakers : gmap IoToken Wk;
  completed_io : gmap IoToken IoResult
}.

Definition CpuIoState_new (backend : B) : CpuIoState := mkCpuIoState backend ∅ ∅.

(** [IoFuture::poll] with the thread's I/O state and the task's waker. *)
Definition IoFuture_poll (token : IoToken) (waker : Wk) (st : CpuIoState)
    : Poll IoResult * CpuIoState :=
  match completed_io st !! token with
  | Some r => (Ready r, mkCpuIoState (io_backend st) (io_wakers st) (delete token (completed_io st)))
  | None =>
      (Pending, mkCpuIoState (io_backend st) (<[token := waker]> (io_wakers st)) (completed_io st))
  end.

(** [IoFuture::drop] *)
Definition IoFuture_drop (token : IoToken) (st : CpuIoState) : CpuIoState :=
  mkCpuIoState (io_backend st) (delete token (io_wakers st)) (delete token (completed_io st)).

(** One turn of the loop over completions: file the result, take the waker. *)
Definition file_completion (c : Completion) (st : CpuIoState) : option Wk * CpuIoState :=
  (io_wakers st !! c_token c,
   mkCpuIoState (io_backend st) (delete (c_token c) (io_wakers st))
     (<[c_token c := c_result c]> (completed_io st))).

(** The loop over the completions, shared by [Cpu::poll_io_completions] and
    [Runtime::block_on]; the wakers it wakes, in order. *)
Fixpoint deliver (cs : list Completion) (st : CpuIoState) : list Wk * CpuIoState :=
  match cs with
  | [] => ([], st)
  | c :: cs =>
      let '(waker, st) := file_completion c st in
      let '(ws, st) := deliver cs st in
      (match waker with Some w => w :: ws | None => ws end, st)
  end.

(** [poll_complete] with a waker that does nothing, then the loop; the result
    also tells whether there were completions. *)
Definition poll_io_completions `{IoProvider B} (st : CpuIoState) : bool * list Wk * CpuIoState :=
  let '(p, b) := poll_complete (io_backend st) in
  let st := mkCpuIoState b (io_wakers st) (completed_io st) in
  match p with
  | Ready (c :: cs) => let '(ws, st) := deliver (c :: cs) st in (true, ws, st)
  | _ => (false, [], st)
  end.

(** The thread-local [CURRENT_CPU_IO_STATE]; [io_state] outside a runtime
    thread panics. *)
Definition io_state (current : option CpuIoState) : outcome CpuIoState := expect current.

Definition set_current_io_state (st : CpuIoState) (_ : option CpuIoState) : option CpuIoState :=
  Some st.

Definition clear_current_io_state (_ : option CpuIoState) : option CpuIoState := None.

End io_state.
Arguments CpuIoState B Wk : clear implicits.

(** ** What happens to one token while others are busy *)

Section io_facts.
Context {B Wk : Type}.
Implicit Types (st : CpuIoState B Wk) (t : IoToken).

(** Everything the futures and the runtime do to the two maps. *)
Inductive io_event :=
  | EvPoll (t : IoToken) (w : Wk)
  | EvDrop (t : IoToken)
  | EvDeliver (cs : list Completion).

Definition io_event_step (ev : io_event) st : list Wk * CpuIoState B Wk :=
  match ev with
  | EvPoll t w => ([], (IoFuture_poll t w st).2)
  | EvDrop t => ([], IoFuture_drop t st)
  | EvDeliver cs => deliver cs st
  end.

Fixpoint io_events (evs : list io_event) st : list Wk * CpuIoState B Wk :=
  match evs with
  | [] => ([], st)
  | ev :: evs =>
      let '(ws1, st) := io_event_step ev st in
      let '(ws2, st) := io_events evs st in (ws1 ++ ws2, st)
  end.

Definition touches t (ev : io_event) : Prop :=
  match ev with
  | EvPoll t' _ | EvDrop t' => t' = t
  | EvDeliver cs => t ∈ c_token <$> cs
  end.

(** Two states that agree on what they hold for [t]. *)
Definition same_at t st st' : Prop :=
  io_wakers st !! t = io_wakers st' !! t ∧ completed_io st !! t = completed_io st' !! t.

Lemma deliver_cons c cs st :
  (deliver (c :: cs) st).2 = (deliver cs (file_completion c st).2).2 ∧
  ∀ w, w ∈ (deliver (c :: cs) st).1 ↔
    io_wakers st !! c_token c = Some w ∨ w ∈ (deliver cs (file_completion c st).2).1.
Proof.
  cbn [deliver file_completion fst snd].
  destruct (deliver cs _) as [ws st']. simpl. split; [done|]. intros w.
  destruct (io_wakers st !! c_token c) as [w0|]; [|by split; [right|intros [?|?]]].
  rewrite elem_of_cons. split; intros [H|H]; auto; left; congruence.
Qed.

Lemma file_completion_same_at t c st :
  c_token c ≠ t → same_at t (file_completion c st).2 st.
Proof. intros. split; simpl; by rewrite ?lookup_delete_ne, ?lookup_insert_ne. Qed.

Lemma deliver_same_at t cs st : t ∉ c_token <$> cs → same_at t (deliver cs st).2 st.
Proof.
  revert st. induction cs as [|c cs IH]; intros st Ht; [by split|].
  rewrite fmap_cons, not_elem_of_cons in Ht. destruct Ht as [Hne Ht].
  destruct (deliver_cons c cs st) as [-> _].
  destruct (IH (file_completion c st).2 Ht) as [H1 H2].
  destruct (file_completion_same_at t c st (not_eq_sym Hne)) as [H3 H4]. split; congruence.
Qed.

Lemma io_event_same_at t ev st : ¬ touches t ev → same_at t (io_event_step ev st).2 st.
Proof.
  destruct ev as [t' w|t'|cs]; simpl; intros Ht.
  - unfold IoFuture_poll, same_at. destruct (completed_io st !! t'); simpl;
      by rewrite ?lookup_delete_ne, ?lookup_insert_ne.
  - unfold same_at; simpl. by rewrite !lookup_delete_ne.
  - by apply deliver_same_at.
Qed.

Lemma io_events_same_at t evs st :
  Forall (λ ev, ¬ touches t ev) evs → same_at t (io_events evs st).2 st.
Proof.
  intros Hall. revert st. induction Hall as [|ev evs Hev _ IH]; intros st; [by split|].
  cbn [io_events]. pose proof (io_event_same_at t ev st Hev) as [H1 H2].
  destruct (io_event_step ev st) as [ws1 st1]. specialize (IH st1).
  destruct (io_events evs st1) as [ws2 st2]. destruct IH as [H3 H4].
  split; simpl in *; congruence.
Qed.

(** A delivery that completes [t] files its result and wakes its waker. *)
Lemma deliver_completes t op r cs st :
  NoDup (c_token <$> cs) → (t, op, r) ∈ cs →
  completed_io (deliver cs st).2 !! t = Some r ∧ io_wakers (deliver cs st).2 !! t = None ∧
  ∀ w, io_wakers st !! t = Some w → w ∈ (deliver cs st).1.
Proof.
  revert st. induction cs as [|c cs IH]; intros st Hnd Hin; [by apply elem_of_nil in Hin|].
  rewrite fmap_cons in Hnd. apply NoDup_cons in Hnd as [Hc Hnd].
  destruct (deliver_cons c cs st) as [-> Hwoken]. destruct (decide (c_token c = t)) as [<-|Hne].
  - assert (c = (c_token c, op, r)) as Heq.
    { apply elem_of_cons in Hin as [<-|Hin]; [done|]. destruct Hc.
      apply list_elem_of_fmap. by exists (c_token c, op, r). }
    destruct (deliver_same_at _ cs (file_completion c st).2 Hc) as [H1 H2].
    rewrite H1, H2. simpl. rewrite lookup_insert_eq, lookup_delete_eq. split_and!; [|done|].
    + by rewrite Heq at 1.
    + intros w Hw. apply Hwoken. by left.
  - apply elem_of_cons in Hin as [<-|Hin]; [done|].
    destruct (IH (file_completion c st).2 Hnd Hin) as (H1 & H2 & H3). split_and!; [done..|].
    intros w Hw. apply Hwoken. right. apply H3.
    by rewrite (proj1 (file_completion_same_at t c st Hne)).
Qed.

End io_facts.
Arguments io_event Wk : clear implicits.

(** ** Claims *)

(** C5. No lost wake-up and exactly-once delivery: an [IoFuture] that was
    polled before its completion arrived is pending; whatever other futures and
    completions do meanwhile, the delivery of its completion wakes the
    waker it registered, and whatever happens to other tokens after that, the
    next poll gives exactly the delivered result and leaves no trace of the
    token behind. *)
Theorem io_completion_reaches_future {B Wk} (st : CpuIoState B Wk) t op r w w' evs1 cs evs2 :
  completed_io st !! t = None →
  Forall (λ ev, ¬ touches t ev) evs1 → Forall (λ ev, ¬ touches t ev) evs2 →
  NoDup (c_token <$> cs) → (t, op, r) ∈ cs →
  let '(p1, st1) := IoFuture_poll t w st in
  let '(_, st2) := io_events evs1 st1 in
  let '(woken, st3) := deliver cs st2 in
  let '(_, st4) := io_events evs2 st3 in
  let '(p2, st5) := IoFuture_poll t w' st4 in
  p1 = Pending ∧ w ∈ woken ∧ p2 = Ready r ∧
  io_wakers st5 !! t = None ∧ completed_io st5 !! t = None.
Proof.
  intros Hnone H1 H2 Hnd Hin. unfold IoFuture_poll at 1. rewrite Hnone.
  set (st1 := mkCpuIoState _ _ _).
  pose proof (io_events_same_at t evs1 st1 H1) as [Hw1 _].
  destruct (io_events evs1 st1) as [ws1 st2]. simpl in Hw1. rewrite lookup_insert_eq in Hw1.
  destruct (deliver_completes t op r cs st2 Hnd Hin) as (Hc3 & Hw3 & Hwoken).
  destruct (deliver cs st2) as [woken st3]. simpl in *.
  pose proof (io_events_same_at t evs2 st3 H2) as [Hw4 Hc4].
  destruct (io_events evs2 st3) as [ws4 st4]. simpl in *.
  unfold IoFuture_poll. rewrite Hc4, Hc3. simpl. rewrite lookup_delete_eq, Hw4, Hw3. auto.
Qed.

Lemma io_completion_reaches_future_witness :
  let st : CpuIoState DummyIoBackend nat := CpuIoState_new Dummy in
  let '(p1, st1) := IoFuture_poll 5 10%nat st in
  let '(_, st2) := io_events [EvPoll 6 20%nat; EvDrop 7] st1 in
  let '(woken, st3) := deliver [(6, OpFsync 1, Ok CFsync); (5, OpClose 3, Ok CClose)] st2 in
  let '(_, st4) := io_events [EvPoll 6 21%nat] st3 in
  let '(p2, st5) := IoFuture_poll 5 11%nat st4 in
  p1 = Pending ∧ 10%nat ∈ woken ∧ p2 = Ready (Ok CClose) ∧
  io_wakers st5 !! (5 : IoToken) = None ∧ completed_io st5 !! (5 : IoToken) = None.
Proof.
  apply (io_completion_reaches_future (CpuIoState_new Dummy) 5 (OpClose 3) (Ok CClose) 10%nat 11%nat
           [EvPoll 6 20%nat; EvDrop 7] [(6, OpFsync 1, Ok CFsync); (5, OpClose 3, Ok CClose)]
           [EvPoll 6 21%nat]).
  - reflexivity.
  - repeat constructor; simpl; lia.
  - repeat constructor; simpl; lia.
  - apply (bool_decide_unpack (NoDup [6; 5])). reflexivity.
  - right. left.
Defined.

(** Dropping an [IoFuture] removes its waker and a result that has
    arrived, but the operation itself is not cancelled: a completion that is
    delivered after the drop wakes nobody and its result (with its buffer) stays
    in [completed_io], whatever other futures do. *)
Theorem late_completion_stays {B Wk} (st : CpuIoState B Wk) t op r evs1 cs evs2 :
  Forall (λ ev, ¬ touches t ev) evs1 → Forall (λ ev, ¬ touches t ev) evs2 →
  NoDup (c_token <$> cs) → (t, op, r) ∈ cs →
  let st1 := IoFuture_drop t st in
  let '(_, st2) := io_events evs1 st1 in
  let '(_, st3) := deliver cs st2 in
  let '(_, st4) := io_events evs2 st3 in
  io_wakers st1 !! t = None ∧ completed_io st1 !! t = None ∧
  io_wakers st2 !! t = None ∧ completed_io st4 !! t = Some r.
Proof.
  intros H1 H2 Hnd Hin st1.
  pose proof (io_events_same_at t evs1 st1 H1) as [Hw2 _].
  destruct (io_events evs1 st1) as [ws1 st2]. simpl in Hw2. rewrite lookup_delete_eq in Hw2.
  destruct (deliver_completes t op r cs st2 Hnd Hin) as (Hc3 & _ & _).
  destruct (deliver cs st2) as [woken st3]. simpl in *.
  pose proof (io_events_same_at t evs2 st3 H2) as [_ Hc4].
  destruct (io_events evs2 st3) as [ws4 st4]. simpl in *.
  rewrite !lookup_delete_eq. split_and!; [done..|congruence].
Qed.

Lemma late_completion_stays_witness :
  let st1 : CpuIoState DummyIoBackend nat := IoFuture_drop 5 (CpuIoState_new Dummy) in
  let '(_, st2) := io_events [EvPoll 6 20%nat] st1 in
  let '(_, st3) := deliver [(5, OpClose 3, Ok CClose)] st2 in
  let '(_, st4) := io_events [EvDrop 6] st3 in
  io_wakers st1 !! (5 : IoToken) = None ∧ completed_io st1 !! (5 : IoToken) = None ∧
  io_wakers st2 !! (5 : IoToken) = None ∧ completed_io st4 !! (5 : IoToken) = Some (Ok CClose).
Proof.
  apply (late_completion_stays (CpuIoState_new Dummy) 5 (OpClose 3) (Ok CClose)
           [EvPoll 6 20%nat] [(5, OpClose 3, Ok CClose)] [EvDrop 6]).
  - repeat constructor; simpl; lia.
  - repeat constructor; simpl; lia.
  - apply (bool_decide_unpack (NoDup [5])). reflexivity.
  - left.
Defined.
