(* ===== verification/Cpu.v ===== *)
(** * One CPU of the message-passing runtime (src/cpu.rs; constants of
    src/config.rs)

    A [Cpu] owns a task table, a run queue, a timer wheel, an inbox and the
    I/O state its futures use. Its boxed futures come from [Cpu::spawn] (they
    send their result to a join handle, as in the executor) or from another
    thread in a [SubmitTask] message. *)

From S2P Require Import Prelude Interfaces Waker Task Executor Timer Io.

(** ** Constants of config.rs *)

Definition CROSS_CPU_CHANNEL_CAPACITY : nat := Z.to_nat 1000.

Section cpu.
Context {Q MC C F G W T P B : Type}.

Inductive BoxFut :=
  | Spawned (w : Wrapped F)
  | Submitted (g : G).

Inductive CrossCpuMessage :=
  | SubmitTask (task_id : TaskId) (task : G)
  | Shutdown
  | Ping (reply_to : Z)
  | CancelTask (task_id : TaskId).

Context `{SegQueue Q TaskId} `{Channel C (TaskResult T P)} `{Channel MC CrossCpuMessage}
        `{IoProvider B}.

(** The I/O state of the CPU and everything else its futures act on. *)
Abbreviation CpuWorld := (CpuIoState B TaskId * W)%type.
Abbreviation CpuEnv := (Env C CpuWorld).

(** Polling a user future, and what dropping one that is suspended does. *)
Variable fut_poll : TaskId → F → CpuWorld → poll_out F CpuWorld T.
Variable fut_drop : F → CpuWorld → CpuWorld.
Variable sub_poll : TaskId → G → CpuWorld → poll_out G CpuWorld unit.
Variable sub_drop : G → CpuWorld → CpuWorld.

Record Cpu := mkCpu {
  cpu_no : Z;
  task_queue : gmap TaskId (Task BoxFut);
  ready_queue : Q;
  message_receiver : MC;
  next_task_id : Z;
  timer : TimerWheel TaskId;
  running : bool;
  cancelled_tasks : gset TaskId
}.

Definition set_tasks (c : Cpu) (ts : gmap TaskId (Task BoxFut)) (q : Q) : Cpu :=
  mkCpu (cpu_no c) ts q (message_receiver c) (next_task_id c) (timer c) (running c)
    (cancelled_tasks c).

Definition set_receiver (c : Cpu) (mc : MC) : Cpu :=
  mkCpu (cpu_no c) (task_queue c) (ready_queue c) mc (next_task_id c) (timer c) (running c)
    (cancelled_tasks c).

Definition set_timer (c : Cpu) (tw : TimerWheel TaskId) : Cpu :=
  mkCpu (cpu_no c) (task_queue c) (ready_queue c) (message_receiver c) (next_task_id c) tw
    (running c) (cancelled_tasks c).

Definition set_running (c : Cpu) (r : bool) : Cpu :=
  mkCpu (cpu_no c) (task_queue c) (ready_queue c) (message_receiver c) (next_task_id c) (timer c)
    r (cancelled_tasks c).

Definition set_cancelled (c : Cpu) (s : gset TaskId) : Cpu :=
  mkCpu (cpu_no c) (task_queue c) (ready_queue c) (message_receiver c) (next_task_id c) (timer c)
    (running c) s.

(** [Cpu::new]; [now] is the start of its timer wheel. *)
Definition Cpu_new (id : Z) (receiver : MC) (now : Z) : Cpu :=
  mkCpu id ∅ seg_new receiver (wrap64 (Z.shiftl id 32)) (TimerWheel_default now) true ∅.

(** Dropping a task whose future is suspended. *)
Definition drop_boxed (t : Task BoxFut) (env : CpuEnv) : CpuEnv :=
  match future t with
  | Spawned w => drop_task (mkTask (task_id t) w) (set_world env (fut_drop (inner w) (world env)))
  | Submitted g => set_world env (sub_drop g (world env))
  end.

(** Dropping a task whose future has returned [Ready]: only the sender is left. *)
Definition drop_finished (t : Task BoxFut) (env : CpuEnv) : CpuEnv :=
  match future t with
  | Spawned w => drop_task (mkTask (task_id t) w) env
  | Submitted _ => env
  end.

(** [HashMap::insert] and [HashMap::remove] on the task table, with the drop
    of the task that is replaced or removed. *)
Definition insert_boxed (id : TaskId) (t : Task BoxFut) (ts : gmap TaskId (Task BoxFut))
    (env : CpuEnv) : gmap TaskId (Task BoxFut) * CpuEnv :=
  (<[id := t]> ts, match ts !! id with Some old => drop_boxed old env | None => env end).

Definition remove_boxed (id : TaskId) (ts : gmap TaskId (Task BoxFut)) (env : CpuEnv)
    : gmap TaskId (Task BoxFut) * CpuEnv :=
  (delete id ts, match ts !! id with Some old => drop_boxed old env | None => env end).

(** [Cpu::spawn] *)
Definition spawn (fut : F) (c : Cpu) (env : CpuEnv) : TaskId * nat * Cpu * CpuEnv :=
  let '(id, next') := fetch_add1 (next_task_id c) in
  let ch := next_chan env in
  let env := mkEnv (<[ch := ch_bounded 1]> (chans env)) (S ch) (world env) in
  let task := Task_new id (Spawned (mkWrapped fut ch)) in
  let '(ts, env) := insert_boxed id task (task_queue c) env in
  (id, ch,
   mkCpu (cpu_no c) ts (seg_push id (ready_queue c)) (message_receiver c) next' (timer c)
     (running c) (cancelled_tasks c), env).

(** [Cpu::handle_message] *)
Definition handle_message (m : CrossCpuMessage) (c : Cpu) (env : CpuEnv) : Cpu * CpuEnv :=
  match m with
  | SubmitTask id g =>
      let '(ts, env) := insert_boxed id (from_pinned id (Submitted g)) (task_queue c) env in
      (set_tasks c ts (seg_push id (ready_queue c)), env)
  | Shutdown => (set_running c false, env)
  | Ping _ => (c, env)
  | CancelTask id =>
      let c := set_cancelled c ({[ id ]} ∪ cancelled_tasks c) in
      let '(ts, env) := remove_boxed id (task_queue c) env in
      (set_tasks c ts (ready_queue c), env)
  end.

(** [Cpu::process_messages] *)
Fixpoint process_messages (fuel : nat) (c : Cpu) (env : CpuEnv) : outcome (Cpu * CpuEnv) :=
  match fuel with
  | O => NoFuel
  | S fuel =>
      match ch_try_recv (message_receiver c) with
      | (Ok m, mc) => let '(c, env) := handle_message m (set_receiver c mc) env in
                      process_messages fuel c env
      | (Err _, mc) => Ret (set_receiver c mc, env)
      end
  end.

(** Polling a boxed future; a full channel would block the thread. *)
Definition boxed_poll (waker : TaskId) (b : BoxFut) (env : CpuEnv)
    : outcome (polled unit * BoxFut * list TaskId * CpuEnv) :=
  match b with
  | Spawned w =>
      '(r, w, wakes, env) ← wrapped_poll fut_poll waker w env; Ret (r, Spawned w, wakes, env)
  | Submitted g =>
      let o := sub_poll waker g (world env) in
      Ret (po_res o, Submitted (po_fut o), po_wakes o, set_world env (po_world o))
  end.

(** The body of the [while let] loop of [tick], for a popped id; a panic of
    the future is not caught. *)
Definition tick_task (id : TaskId) (c : Cpu) (env : CpuEnv) : outcome (bool * Cpu * CpuEnv) :=
  if decide (id ∈ cancelled_tasks c) then
    let c := set_cancelled c (cancelled_tasks c ∖ {[ id ]}) in
    let '(ts, env) := remove_boxed id (task_queue c) env in
    Ret (true, set_tasks c ts (ready_queue c), env)
  else
    match task_queue c !! id with
    | None => Ret (false, c, env)
    | Some task =>
        let ts := delete id (task_queue c) in
        '(res, fut, wakes, env) ← Task_poll boxed_poll id task env;
        let task := mkTask (task_id task) fut in
        let q := seg_push_all wakes (ready_queue c) in
        match res with
        | PPanicked => Panic
        | PReady _ => Ret (true, set_tasks c ts q, drop_finished task env)
        | PPending =>
            let '(ts, env) := insert_boxed id task ts env in Ret (true, set_tasks c ts q, env)
        end
    end.

(** [while let Some(task_id) = self.ready_queue.pop()] *)
Fixpoint tick_tasks (fuel : nat) (made_progress : bool) (c : Cpu) (env : CpuEnv)
    : outcome (bool * Cpu * CpuEnv) :=
  match fuel with
  | O => NoFuel
  | S fuel =>
      match seg_pop (ready_queue c) with
      | (None, q) => Ret (made_progress, set_tasks c (task_queue c) q, env)
      | (Some id, q) =>
          '(b, c, env) ← tick_task id (set_tasks c (task_queue c) q) env;
          tick_tasks fuel (made_progress || b) c env
      end
  end.

(** [Cpu::tick] at time [now] *)
Definition tick (fuel : nat) (now : Z) (c : Cpu) (env : CpuEnv) : outcome (bool * Cpu * CpuEnv) :=
  '(c, env) ← process_messages fuel c env;
  '(tw, ready_wakers) ← expire (timer c) now [];
  let c := set_timer (set_tasks c (task_queue c) (seg_push_all ready_wakers (ready_queue c))) tw in
  let made_progress := negb (bool_decide (ready_wakers = [])) in
  '(made_progress, c, env) ← tick_tasks fuel made_progress c env;
  let '(io_progress, woken, io) := poll_io_completions (world env).1 in
  Ret (made_progress || io_progress,
       set_tasks c (task_queue c) (seg_push_all woken (ready_queue c)),
       set_world env (io, (world env).2)).

(** [Cpu::schedule_timer]; [counter] is the global timer counter. *)
Definition schedule_timer (counter at_ : Z) (id : TaskId) (c : Cpu) : outcome (Z * Cpu) :=
  '(_, counter, tw) ← schedule counter (timer c) at_ id;
  Ret (counter, set_timer c tw).

(** One turn of the loop of [Cpu::run]. What other threads do to the inbox
    while this one waits in [recv_timeout] is [others]. *)
Definition run_turn (fuel : nat) (now : Z) (others : MC → MC) (c : Cpu) (env : CpuEnv)
    : outcome (Cpu * CpuEnv) :=
  '(_, c, env) ← tick fuel now c env;
  if seg_is_empty (ready_queue c) then
    match ch_try_recv (others (message_receiver c)) with
    | (Ok m, mc) => Ret (handle_message m (set_receiver c mc) env)
    | (Err Disconnected, mc) => Ret (set_running (set_receiver c mc) false, env)
    | (Err Empty, mc) => Ret (set_receiver c mc, env)
    end
  else process_messages fuel c env.

(** [Cpu::run]: the loop, for a list of times and interferences, one per turn. *)
Fixpoint run_loop (fuel : nat) (turns : list (Z * (MC → MC))) (c : Cpu) (env : CpuEnv)
    : outcome (Cpu * CpuEnv) :=
  if running c then
    match turns with
    | [] => NoFuel
    | (now, others) :: turns =>
        '(c, env) ← run_turn fuel now others c env;
        run_loop fuel turns c env
    end
  else Ret (c, env).

(** ** [CpuHandle]: the sending side; [counter] is [GLOBAL_TASK_ID_COUNTER] *)

Definition GLOBAL_TASK_ID_COUNTER_INIT : Z := 1.

Definition generate_global_task_id (counter : Z) : TaskId * Z := fetch_add1 counter.

(** [CpuHandle::new]: the channel between the handle and its CPU. *)
Definition CpuHandle_new : MC := ch_bounded CROSS_CPU_CHANNEL_CAPACITY.

(** [Sender::send]: [None] while the thread has to wait for room. *)
Definition handle_send (m : CrossCpuMessage) (mc : MC) : option (result unit unit * MC) :=
  match ch_send m mc with
  | Sent mc => Some (Ok tt, mc)
  | SendDisconnected => Some (Err tt, mc)
  | SendBlocks => None
  end.

Definition submit_task (g : G) (counter : Z) (mc : MC) : option (result TaskId unit * Z * MC) :=
  let '(id, counter) := generate_global_task_id counter in
  '(r, mc) ← handle_send (SubmitTask id g) mc;
  Some (result_map (λ _, id) r, counter, mc).

Definition shutdown (mc : MC) : option (result unit unit * MC) := handle_send Shutdown mc.

Definition ping (from_cpu : Z) (mc : MC) : option (result unit unit * MC) :=
  handle_send (Ping from_cpu) mc.

Definition cancel_task (id : TaskId) (mc : MC) : option (result unit unit * MC) :=
  handle_send (CancelTask id) mc.

End cpu.
Arguments BoxFut F G : clear implicits.
Arguments CrossCpuMessage G : clear implicits.
Arguments Cpu Q MC F G : clear implicits.
#[global] Arguments insert_boxed : simpl never.
#[global] Arguments remove_boxed : simpl never.
