(* ===== verification/CpuProps.v ===== *)
(** * Properties of one CPU

    The invariant of the task table and its channels, kept by every operation;
    termination of [tick]; message order; cancellation; shutdown; and the ids
    the CPUs and the global counter hand out. *)

From S2P Require Import Prelude Interfaces Waker Task Executor Timer TimerProps Io Cpu.

Section cpu_props.
Context {Q MC C F G W T P B : Type}.
Context `{SegQueueLaws Q TaskId} `{ChannelLaws C (TaskResult T P)}
        `{ChannelLaws MC (CrossCpuMessage G)} `{IoProviderLaws B}.
Abbreviation CpuWorld := (CpuIoState B TaskId * W)%type.
Abbreviation CpuEnv := (Env C CpuWorld).
Context (fut_poll : TaskId → F → CpuWorld → poll_out F CpuWorld T)
        (fut_drop : F → CpuWorld → CpuWorld)
        (sub_poll : TaskId → G → CpuWorld → poll_out G CpuWorld unit)
        (sub_drop : G → CpuWorld → CpuWorld).
Implicit Types (c : Cpu Q MC F G) (env : CpuEnv) (ts : gmap TaskId (Task (BoxFut F G))).

(** ** The task table and its channels *)

Definition boxed_sender (t : Task (BoxFut F G)) : option nat :=
  match future t with
  | Spawned w => Some (sender w)
  | Submitted _ => None
  end.

Definition owns_channel env (i : nat) : Prop :=
  (i < next_chan env)%nat ∧ ∃ ch, chans env !! i = Some ch ∧ chan_open ch.

Definition table_inv ts env : Prop :=
  (∀ id t, ts !! id = Some t →
     task_id t = id ∧ ∀ i, boxed_sender t = Some i → owns_channel env i) ∧
  (∀ id1 id2 t1 t2 i, ts !! id1 = Some t1 → ts !! id2 = Some t2 →
     boxed_sender t1 = Some i → boxed_sender t2 = Some i → id1 = id2).

(** [env'] differs from [env] at most in the world and in channel [o], which
    is disconnected and holds [sent]. *)
Definition closes env (o : option nat) (sent : list (TaskResult T P)) env' : Prop :=
  next_chan env' = next_chan env ∧
  (∀ i, o = Some i → ∃ ch, chans env' !! i = Some ch ∧ chan_closed ch sent) ∧
  (∀ i, o ≠ Some i → chans env' !! i = chans env !! i).

Lemma drop_task_closes id (w : Wrapped F) env ch :
  chans env !! sender w = Some ch → ch_senders ch = 1%nat →
  closes env (Some (sender w)) (ch_elems ch) (drop_task (mkTask id w) env).
Proof.
  intros Hch Hs. unfold drop_task; simpl. rewrite Hch.
  destruct (ch_drop_sender_spec ch) as (He' & _ & Hs' & _). split_and!; simpl; [done| |].
  - intros i [= <-]. exists (ch_drop_sender ch). rewrite lookup_insert_eq.
    split; [done|]. split; [lia|done].
  - intros i Hi. rewrite lookup_insert_ne; [done|congruence].
Qed.

Lemma drop_boxed_closes t env :
  (∀ i, boxed_sender t = Some i → owns_channel env i) →
  closes env (boxed_sender t) [] (drop_boxed fut_drop sub_drop t env).
Proof.
  unfold boxed_sender, drop_boxed. destruct (future t) as [w|g]; intros Hown.
  - destruct (Hown (sender w) eq_refl) as (_ & ch & Hch & He & _ & Hs). rewrite <-He.
    exact (drop_task_closes _ w (set_world env _) ch Hch Hs).
  - by split_and!.
Qed.

Lemma table_inv_delete ts env id t sent env' :
  table_inv ts env → ts !! id = Some t → closes env (boxed_sender t) sent env' →
  table_inv (delete id ts) env'.
Proof.
  intros [Hts Hinj] Ht (Hn & _ & Hch). split.
  - intros id' t' [Hne Ht']%lookup_delete_Some. destruct (Hts _ _ Ht') as [? Hown].
    split; [done|]. intros i Hi. destruct (Hown i Hi) as (? & ch & ? & ?).
    split; [lia|]. exists ch. rewrite Hch; [done|]. intros Hi'.
    by destruct Hne; apply (Hinj _ _ _ _ _ Ht Ht' Hi').
  - intros id1 id2 t1 t2 i [_ ?]%lookup_delete_Some [_ ?]%lookup_delete_Some. eauto.
Qed.

(** Adding a task whose channel, if any, is open and no other task's. *)
Lemma table_inv_insert ts env id t :
  table_inv ts env → ts !! id = None → task_id t = id →
  (∀ i, boxed_sender t = Some i → owns_channel env i ∧
     ∀ id' t', ts !! id' = Some t' → boxed_sender t' ≠ Some i) →
  table_inv (<[id := t]> ts) env.
Proof.
  intros [Hts Hinj] Hnone Hid Hown. split.
  - intros id' t' [[<- <-]|[Hne Ht']]%lookup_insert_Some; [|by apply Hts].
    split; [done|]. intros i Hi. by apply Hown.
  - intros id1 id2 t1 t2 i [[<- <-]|[? H1']]%lookup_insert_Some
      [[<- <-]|[? H2']]%lookup_insert_Some Hs1 Hs2; try done; [| |eauto].
    + destruct (Hown _ Hs1) as [_ Hno]. by destruct (Hno _ _ H2').
    + destruct (Hown _ Hs2) as [_ Hno]. by destruct (Hno _ _ H1').
Qed.

(** What removing or replacing the task filed under [id] does. *)
Lemma remove_boxed_spec id ts env :
  table_inv ts env →
  let '(ts', env') := remove_boxed fut_drop sub_drop id ts env in
  ts' = delete id ts ∧ closes env (ts !! id ≫= boxed_sender) [] env' ∧ table_inv ts' env'.
Proof.
  intros Hinv. unfold remove_boxed. destruct (ts !! id) as [t|] eqn:Ht; simpl.
  - assert (closes env (boxed_sender t) [] (drop_boxed fut_drop sub_drop t env)) as Hcl.
    { apply drop_boxed_closes. by destruct Hinv as [Hts _]; destruct (Hts _ _ Ht). }
    split_and!; [done..|]. by eapply table_inv_delete.
  - rewrite delete_id by done. by split_and!.
Qed.

Lemma insert_boxed_as_remove id t ts env :
  insert_boxed fut_drop sub_drop id t ts env =
    let '(ts', env') := remove_boxed fut_drop sub_drop id ts env in (<[id := t]> ts', env').
Proof. unfold insert_boxed, remove_boxed. by rewrite insert_delete_eq. Qed.

Lemma insert_submitted_inv id g ts env ts' env' :
  table_inv ts env →
  insert_boxed fut_drop sub_drop id (from_pinned id (Submitted g)) ts env = (ts', env') →
  table_inv ts' env'.
Proof.
  intros Hinv. rewrite insert_boxed_as_remove.
  pose proof (remove_boxed_spec id ts env Hinv) as Hspec.
  destruct (remove_boxed _ _ _ _ _) as [ts1 env1]. destruct Hspec as (-> & _ & Hinv1).
  intros [= <- <-]. apply table_inv_insert; [done|apply lookup_delete_eq|done|done].
Qed.

(** ** Messages *)

Lemma handle_message_inv m c env c' env' :
  table_inv (task_queue c) env →
  handle_message fut_drop sub_drop m c env = (c', env') → table_inv (task_queue c') env'.
Proof.
  intros Hinv. destruct m as [id g| |r|id]; cbn [handle_message].
  - destruct (insert_boxed _ _ _ _ _ _) as [ts1 env1] eqn:Hi. intros [= <- <-].
    by eapply insert_submitted_inv.
  - by intros [= <- <-].
  - by intros [= <- <-].
  - pose proof (remove_boxed_spec id (task_queue c) env Hinv) as Hspec.
    destruct (remove_boxed _ _ _ _ _) as [ts1 env1]. destruct Hspec as (_ & _ & Hinv1).
    by intros [= <- <-].
Qed.

(** [handle_message] on each message of a list, in order. *)
Fixpoint handle_all (ms : list (CrossCpuMessage G)) c env : Cpu Q MC F G * CpuEnv :=
  match ms with
  | [] => (c, env)
  | m :: ms => let '(c, env) := handle_message fut_drop sub_drop m c env in handle_all ms c env
  end.

Lemma handle_all_inv ms c env c' env' :
  table_inv (task_queue c) env → handle_all ms c env = (c', env') → table_inv (task_queue c') env'.
Proof.
  revert c env. induction ms as [|m ms IH]; intros c env Hinv; simpl; [by intros [= <- <-]|].
  destruct (handle_message _ _ m c env) as [c1 env1] eqn:Hm. apply IH.
  by eapply handle_message_inv.
Qed.

Lemma handle_message_receiver m c env mc :
  handle_message fut_drop sub_drop m (set_receiver c mc) env =
    let '(c', env') := handle_message fut_drop sub_drop m c env in (set_receiver c' mc, env').
Proof. by destruct m. Qed.

Lemma process_messages_spec fuel c env :
  (length (ch_elems (message_receiver c)) < fuel)%nat →
  ∃ mc, ch_elems mc = [] ∧ ch_senders mc = ch_senders (message_receiver c) ∧
    process_messages fut_drop sub_drop fuel c env =
      let '(c', env') := handle_all (ch_elems (message_receiver c)) c env in
      Ret (set_receiver c' mc, env').
Proof.
  revert c env. induction fuel as [|fuel IH]; intros c env Hlen; [lia|].
  simpl. pose proof (ch_try_recv_spec (message_receiver c)) as Hspec.
  destruct (ch_try_recv (message_receiver c)) as [[m|e] mc].
  - destruct Hspec as (He & _ & Hs & _). rewrite He in *. simpl in *.
    rewrite handle_message_receiver.
    destruct (handle_message _ _ m c env) as [c1 env1] eqn:Hm.
    destruct (IH (set_receiver c1 mc) env1) as (mc' & He' & Hs' & Hp); [simpl; lia|].
    exists mc'. simpl in *. rewrite Hp. split_and!; [done|congruence|].
    clear. generalize (ch_elems mc). intros ms. revert c1 env1.
    induction ms as [|m ms IH]; intros c1 env1; [done|]. simpl.
    rewrite handle_message_receiver. by destruct (handle_message _ _ m c1 env1).
  - assert (ch_elems (message_receiver c) = [] ∧ mc = message_receiver c) as [He ->].
    { destruct e; destruct_and?; done. }
    exists (message_receiver c). rewrite He. done.
Qed.

(** ** One poll *)

(** After a poll the task's channel, if it has one, is still its own; only a
    poll that finished the task may have put a message there. *)
Lemma boxed_poll_spec ts env id t :
  table_inv ts env → ts !! id = Some t →
  ∃ r fut wakes env', boxed_poll fut_poll sub_poll id (future t) env = Ret (r, fut, wakes, env') ∧
    boxed_sender (mkTask id fut) = boxed_sender t ∧ next_chan env' = next_chan env ∧
    match r with
    | PReady _ => ∀ i, if decide (boxed_sender t = Some i)
        then ∃ ch, chans env' !! i = Some ch ∧ ch_senders ch = 1%nat
        else chans env' !! i = chans env !! i
    | _ => chans env' = chans env
    end.
Proof.
  intros [Hts _] Ht. destruct (Hts _ _ Ht) as [_ Hown].
  unfold boxed_poll, boxed_sender in *. destruct (future t) as [w|g].
  - destruct (Hown _ eq_refl) as (_ & ch & Hch & He & Hcap & Hs). unfold wrapped_poll.
    destruct (po_res (fut_poll id (inner w) (world env))) as [v| |] eqn:Hres; simpl;
      [|by do 4 eexists|by do 4 eexists].
    rewrite Hch; simpl. pose proof (ch_send_spec (Ok v) ch) as Hspec.
    destruct (ch_send (Ok v) ch) as [ch1| |]; simpl.
    + destruct Hspec as (_ & _ & _ & _ & Hs1 & _). do 4 eexists. split_and!; [done..|].
      intros i. case_decide as Hi; simpl.
      * injection Hi as <-. exists ch1. rewrite lookup_insert_eq. split; [done|congruence].
      * rewrite lookup_insert_ne; [done|congruence].
    + do 4 eexists. split_and!; [done..|]. intros i. case_decide as Hi; simpl; [|done].
      injection Hi as <-. by exists ch.
    + rewrite He, Hcap in Hspec. simpl in Hspec. lia.
  - simpl. do 4 eexists. split_and!; [done..|].
    destruct (po_res _); simpl; [|done|done]. intros i. done.
Qed.

(** Channels no task of the table owns are left alone. *)
Definition unowned ts (i : nat) : Prop :=
  ∀ id t, ts !! id = Some t → boxed_sender t ≠ Some i.

Lemma unowned_bind ts i id : unowned ts i → ts !! id ≫= boxed_sender ≠ Some i.
Proof. intros Hun. destruct (ts !! id) as [t|] eqn:Ht; simpl; [by eapply Hun|done]. Qed.

(** ** One turn of the loop of [tick] *)

Definition tick_task_effect (id : TaskId) c env c' env' : Prop :=
  table_inv (task_queue c') env' ∧
  (message_receiver c' = message_receiver c ∧ timer c' = timer c ∧ running c' = running c ∧
   next_task_id c' = next_task_id c ∧ cpu_no c' = cpu_no c) ∧
  (cancelled_tasks c' = cancelled_tasks c ∖ {[ id ]} ∧
  (∀ id', id' ≠ id → task_queue c' !! id' = task_queue c !! id') ∧
  (∀ i, unowned (task_queue c) i → chans env' !! i = chans env !! i ∧ unowned (task_queue c') i) ∧
  next_chan env' = next_chan env).

Lemma tick_task_cancelled id c env :
  table_inv (task_queue c) env → id ∈ cancelled_tasks c →
  ∃ c' env', tick_task fut_poll fut_drop sub_poll sub_drop id c env = Ret (true, c', env') ∧
    tick_task_effect id c env c' env' ∧ task_queue c' = delete id (task_queue c) ∧
    ready_queue c' = ready_queue c.
Proof.
  intros Hinv Hin. unfold tick_task. rewrite decide_True by done.
  pose proof (remove_boxed_spec id (task_queue c) env Hinv) as Hspec. simpl.
  unfold remove_boxed in *. destruct Hspec as (_ & (Hn & _ & Hch) & Hinv').
  do 2 eexists. split; [done|]. split; [|done]. split_and!; simpl; try done.
  - intros id' Hne. by rewrite lookup_delete_ne.
  - intros i Hun. split.
    + by apply Hch, unowned_bind.
    + intros id' t' [_ Ht']%lookup_delete_Some. by eapply Hun.
Qed.

Lemma tick_task_absent id c env :
  table_inv (task_queue c) env → id ∉ cancelled_tasks c → task_queue c !! id = None →
  tick_task fut_poll fut_drop sub_poll sub_drop id c env = Ret (false, c, env) ∧
  tick_task_effect id c env c env.
Proof.
  intros Hinv Hin Ht. unfold tick_task. rewrite decide_False, Ht by done.
  split; [done|]. split_and!; try done. by rewrite difference_absent.
Qed.

(** Dropping a finished task gives up its channel, with what it sent there. *)
Lemma drop_finished_closes env env1 id fut t :
  boxed_sender (mkTask id fut) = boxed_sender t → next_chan env1 = next_chan env →
  (∀ i, if decide (boxed_sender t = Some i)
        then ∃ ch, chans env1 !! i = Some ch ∧ ch_senders ch = 1%nat
        else chans env1 !! i = chans env !! i) →
  closes env (boxed_sender t)
    (match boxed_sender t ≫= λ i, chans env1 !! i with Some ch => ch_elems ch | None => [] end)
    (drop_finished (mkTask id fut) env1).
Proof.
  intros Hsend Hn Hr0. unfold drop_finished. simpl in *. unfold boxed_sender in Hsend at 1. simpl in Hsend.
  destruct fut as [w|g]; rewrite <-Hsend in *.
  - pose proof (Hr0 (sender w)) as Hw. rewrite decide_True in Hw by done.
    destruct Hw as (ch & Hch & Hs). simpl. rewrite Hch.
    destruct (drop_task_closes id w env1 ch Hch Hs) as (Hn1 & H1' & H2').
    split_and!; [congruence|done|]. intros i Hi. rewrite H2' by done.
    specialize (Hr0 i). by rewrite decide_False in Hr0.
  - split_and!; [done|done|]. intros i Hi. specialize (Hr0 i). by rewrite decide_False in Hr0.
Qed.

(** Putting a task back with the same channel keeps the table in order. *)
Lemma table_inv_put_back ts env env1 id t fut :
  table_inv ts env → ts !! id = Some t → boxed_sender (mkTask id fut) = boxed_sender t →
  next_chan env1 = next_chan env → chans env1 = chans env →
  table_inv (<[id := mkTask id fut]> ts) env1 ∧
  ∀ i, unowned ts i → unowned (<[id := mkTask id fut]> ts) i.
Proof.
  intros [Hts Hinj] Ht Hsend Hn Hch.
  assert (∀ id' t', <[id := mkTask id fut]> ts !! id' = Some t' →
    ∃ t0, ts !! id' = Some t0 ∧ boxed_sender t' = boxed_sender t0 ∧ task_id t' = id') as Hsame.
  { intros id' t' [[<- <-]|[? Ht']]%lookup_insert_Some; [by exists t|].
    exists t'. by destruct (Hts _ _ Ht') as [? _]. }
  split; [split|].
  - intros id' t' Ht'. destruct (Hsame _ _ Ht') as (t0 & Ht0 & -> & Hid').
    split; [done|]. intros i Hi. destruct (Hts _ _ Ht0) as [_ Hown0].
    destruct (Hown0 i Hi) as (? & ch & ? & ?). split; [lia|]. exists ch. by rewrite Hch.
  - intros id1 id2 t1 t2 i H1' H2' Hs1 Hs2.
    destruct (Hsame _ _ H1') as (t3 & ? & Hs3 & _). destruct (Hsame _ _ H2') as (t4 & ? & Hs4 & _).
    rewrite Hs3 in Hs1. rewrite Hs4 in Hs2. eauto.
  - intros i Hun id' t' Ht'. destruct (Hsame _ _ Ht') as (t0 & Ht0 & -> & _). by eapply Hun.
Qed.

Lemma tick_task_polls id c env t r fut wakes env1 :
  table_inv (task_queue c) env → id ∉ cancelled_tasks c → task_queue c !! id = Some t →
  boxed_poll fut_poll sub_poll id (future t) env = Ret (r, fut, wakes, env1) →
  r ≠ PPanicked →
  ∃ c' env', tick_task fut_poll fut_drop sub_poll sub_drop id c env = Ret (true, c', env') ∧
    tick_task_effect id c env c' env' ∧
    task_queue c' = match r with
                    | PPending => <[id := mkTask id fut]> (task_queue c)
                    | _ => delete id (task_queue c)
                    end ∧
    seg_elems (ready_queue c') = seg_elems (ready_queue c) ++ wakes.
Proof.
  intros Hinv Hin Ht Hpoll Hr. pose proof Hinv as [Hts Hinj]. destruct (Hts _ _ Ht) as [Hid Hown].
  destruct (boxed_poll_spec _ _ _ _ Hinv Ht) as (r0 & fut0 & wakes0 & env0 & Hpoll0 & Hsend & Hn & Hr0).
  rewrite Hpoll in Hpoll0. injection Hpoll0 as <- <- <- <-.
  unfold tick_task, Task_poll. rewrite decide_False, Ht, Hpoll by done. simpl. rewrite Hid.
  assert (cancelled_tasks c = cancelled_tasks c ∖ {[id]}) as Hcan by (by rewrite difference_absent).
  destruct r as [u| |]; [| |done].
  - pose proof (drop_finished_closes env env1 id fut t Hsend Hn Hr0) as Hcl.
    do 2 eexists. split; [done|]. split; [|split; [done|apply seg_push_all_elems]].
    split_and!; simpl; try done.
    + by eapply table_inv_delete.
    + intros id' Hne. by rewrite lookup_delete_ne.
    + intros i Hun. destruct Hcl as (_ & _ & Hch). split; [apply Hch; by eapply Hun|].
      intros id' t' [_ Ht']%lookup_delete_Some. by eapply Hun.
    + by destruct Hcl as (-> & _).
  - unfold insert_boxed. rewrite lookup_delete_eq, insert_delete_eq.
    do 2 eexists. split; [done|]. split; [|split; [done|apply seg_push_all_elems]].
    destruct (table_inv_put_back _ _ env1 _ _ _ Hinv Ht Hsend Hn Hr0) as [Hinv' Hun'].
    split_and!; simpl; try done.
    + intros id' Hne. by rewrite lookup_insert_ne.
    + intros i Hun. rewrite Hr0. split; [done|]. by apply Hun'.
Qed.

Lemma tick_task_ret id c env b c' env' :
  table_inv (task_queue c) env →
  tick_task fut_poll fut_drop sub_poll sub_drop id c env = Ret (b, c', env') →
  tick_task_effect id c env c' env'.
Proof.
  intros Hinv Hret. destruct (decide (id ∈ cancelled_tasks c)) as [Hin|Hin].
  - destruct (tick_task_cancelled id c env Hinv Hin) as (c1 & env1 & Heq & Heff & _).
    rewrite Hret in Heq. by injection Heq as -> -> ->.
  - destruct (task_queue c !! id) as [t|] eqn:Ht.
    + destruct (boxed_poll_spec _ _ _ _ Hinv Ht) as (r & fut & wakes & env1 & Hpoll & _).
      destruct (decide (r = PPanicked)) as [->|Hr].
      * unfold tick_task, Task_poll in Hret. rewrite decide_False, Ht, Hpoll in Hret by done. done.
      * destruct (tick_task_polls _ _ _ _ _ _ _ _ Hinv Hin Ht Hpoll Hr) as (c1 & env2 & Heq & Heff & _).
        rewrite Hret in Heq. by injection Heq as -> -> ->.
    + destruct (tick_task_absent id c env Hinv Hin Ht) as [Heq Heff].
      rewrite Hret in Heq. by injection Heq as -> -> ->.
Qed.

(** ** The loop *)

Definition tick_tasks_effect c env c' env' : Prop :=
  table_inv (task_queue c') env' ∧
  (message_receiver c' = message_receiver c ∧ timer c' = timer c ∧ running c' = running c ∧
   next_task_id c' = next_task_id c ∧ cpu_no c' = cpu_no c) ∧
  (∀ i, unowned (task_queue c) i → chans env' !! i = chans env !! i ∧ unowned (task_queue c') i) ∧
  next_chan env' = next_chan env.

Lemma tick_tasks_ret fuel made c env made' c' env' :
  table_inv (task_queue c) env →
  tick_tasks fut_poll fut_drop sub_poll sub_drop fuel made c env = Ret (made', c', env') →
  tick_tasks_effect c env c' env' ∧ seg_elems (ready_queue c') = [].
Proof.
  revert made c env. induction fuel as [|fuel IH]; intros made c env Hinv Hret; [done|].
  cbn [tick_tasks] in Hret. pose proof (seg_pop_elems (ready_queue c)) as Hq.
  destruct (seg_pop (ready_queue c)) as [[id|] q].
  - destruct (tick_task _ _ _ _ id _ env) as [[[b c1] env1]| |] eqn:Ht; simpl in Hret; try done.
    assert (table_inv (task_queue (set_tasks c (task_queue c) q)) env) as Hinv0 by done.
    pose proof (tick_task_ret _ _ _ _ _ _ Hinv0 Ht) as (Hinv1 & Hf1 & _ & _ & Hch1 & Hn1).
    destruct (IH _ _ _ Hinv1 Hret) as [(Hinv2 & Hf2 & Hch2 & Hn2) He]. split; [|done].
    simpl in *. destruct_and?. split_and!; try congruence. intros i Hun.
    destruct (Hch1 i Hun) as [Heq1 Hun1]. destruct (Hch2 i Hun1) as [Heq2 Hun2].
    split; [congruence|done].
  - injection Hret as <- <- <-. destruct Hq as [_ Hq]. by split_and!.
Qed.

(** ** Termination of the loop, for futures that finish and do not panic *)

Section bounded.
Context (rank : F → nat) (sub_rank : G → nat).
Hypothesis rank_decreases : ∀ id f w,
  po_res (fut_poll id f w) = PPending → (rank (po_fut (fut_poll id f w)) < rank f)%nat.
Hypothesis sub_rank_decreases : ∀ id g w,
  po_res (sub_poll id g w) = PPending → (sub_rank (po_fut (sub_poll id g w)) < sub_rank g)%nat.
Hypothesis no_panic : ∀ id f w, po_res (fut_poll id f w) ≠ PPanicked.
Hypothesis sub_no_panic : ∀ id g w, po_res (sub_poll id g w) ≠ PPanicked.

Definition boxed_work (t : Task (BoxFut F G)) : nat :=
  match future t with
  | Spawned w => S (rank (inner w))
  | Submitted g => S (sub_rank g)
  end.

Lemma boxed_poll_bounded id t env r fut wakes env' :
  boxed_poll fut_poll sub_poll id (future t) env = Ret (r, fut, wakes, env') →
  r ≠ PPanicked ∧ (r = PPending → (boxed_work (mkTask id fut) < boxed_work t)%nat).
Proof.
  unfold boxed_work, boxed_poll, wrapped_poll. destruct (future t) as [w|g]; simpl; intros Hp.
  - pose proof (no_panic id (inner w) (world env)) as Hnp.
    pose proof (rank_decreases id (inner w) (world env)) as Hdec.
    destruct (po_res (fut_poll id (inner w) (world env))); [| |done].
    + bind_inv. repeat case_match; by simplify_eq.
    + injection Hp as <- <- _ _. split; [done|]. intros _. specialize (Hdec eq_refl). simpl; lia.
  - injection Hp as <- <- _ _. split; [done|]. intros Hr. apply sub_rank_decreases in Hr. lia.
Qed.

(** A turn of the loop decreases the work left in the table, or leaves the
    table and the queue as they are. *)
Lemma tick_task_decreases id c env :
  table_inv (task_queue c) env →
  ∃ b c' env', tick_task fut_poll fut_drop sub_poll sub_drop id c env = Ret (b, c', env') ∧
    ((map_total boxed_work (task_queue c') < map_total boxed_work (task_queue c))%nat ∨
     task_queue c' = task_queue c ∧
     seg_elems (ready_queue c') = seg_elems (ready_queue c)).
Proof.
  intros Hinv. destruct (decide (id ∈ cancelled_tasks c)) as [Hin|Hin].
  - destruct (tick_task_cancelled id c env Hinv Hin) as (c1 & env1 & Heq & _ & Hts & Hq).
    exists true, c1, env1. split; [done|]. rewrite Hts, Hq.
    destruct (task_queue c !! id) as [t|] eqn:Ht.
    + left. rewrite (map_total_delete _ (task_queue c) _ _ Ht).
      unfold boxed_work at 2. destruct (future t); lia.
    + right. by rewrite delete_id.
  - destruct (task_queue c !! id) as [t|] eqn:Ht.
    + destruct (boxed_poll_spec _ _ _ _ Hinv Ht) as (r & fut & wakes & env1 & Hpoll & _).
      destruct (boxed_poll_bounded _ _ _ _ _ _ _ Hpoll) as [Hr Hdec].
      destruct (tick_task_polls _ _ _ _ _ _ _ _ Hinv Hin Ht Hpoll Hr)
        as (c1 & env2 & Heq & _ & Hts & _).
      exists true, c1, env2. split; [done|]. left.
      rewrite (map_total_delete _ (task_queue c) _ _ Ht), Hts.
      destruct r; [unfold boxed_work at 2; destruct (future t); lia| |done].
      rewrite (map_total_insert _ _ _ _ _ Ht). specialize (Hdec eq_refl). lia.
    + destruct (tick_task_absent id c env Hinv Hin Ht) as [Heq _].
      exists false, c, env. split; [done|]. by right.
Qed.

Lemma tick_tasks_terminates c env made :
  table_inv (task_queue c) env →
  ∃ fuel made' c' env', ∀ extra,
    tick_tasks fut_poll fut_drop sub_poll sub_drop (extra + fuel) made c env = Ret (made', c', env').
Proof.
  remember (map_total boxed_work (task_queue c)) as n eqn:Hn. revert c env made Hn.
  induction n as [n IHn] using lt_wf_ind. intros c env made Hn Hinv.
  remember (length (seg_elems (ready_queue c))) as k eqn:Hk. revert c env made Hn Hinv Hk.
  induction k as [k IHk] using lt_wf_ind. intros c env made -> Hinv ->.
  pose proof (seg_pop_elems (ready_queue c)) as Hq.
  destruct (seg_pop (ready_queue c)) as [[id|] q] eqn:Hpop.
  2: { exists 1%nat. do 3 eexists. intros extra. rewrite Nat.add_1_r. cbn [tick_tasks]. by rewrite Hpop. }
  set (c0 := set_tasks c (task_queue c) q).
  destruct (tick_task_decreases id c0 env Hinv) as (b & c1 & env1 & Ht & Hdec).
  assert (table_inv (task_queue c1) env1) as Hinv1.
  { by destruct (tick_task_ret id c0 env _ _ _ Hinv Ht). }
  assert (∃ fuel made' c' env', ∀ extra,
    tick_tasks fut_poll fut_drop sub_poll sub_drop (extra + fuel) (made || b) c1 env1 =
      Ret (made', c', env')) as (fuel & made' & c' & env' & Hl).
  { destruct Hdec as [Hlt|[Hts Hqs]].
    - eapply (IHn (map_total boxed_work (task_queue c1))); done.
    - eapply (IHk (length (seg_elems (ready_queue c1)))); [|by rewrite Hts|done|done].
      rewrite Hqs, Hq. simpl. lia. }
  exists (S fuel), made', c', env'. intros extra. rewrite Nat.add_succ_r. cbn [tick_tasks].
  rewrite Hpop. fold c0. rewrite Ht; simpl. apply Hl.
Qed.

End bounded.

(** ** Reachable states *)

Lemma cpu_spawn_spec fut c env :
  table_inv (task_queue c) env →
  let '(id, ch, c', env') := spawn fut_drop sub_drop fut c env in
  id = next_task_id c ∧ ch = next_chan env ∧ next_task_id c' = wrap64 (id + 1) ∧
  timer c' = timer c ∧ task_queue c' = <[id := mkTask id (Spawned (mkWrapped fut ch))]> (task_queue c) ∧
  seg_elems (ready_queue c') = seg_elems (ready_queue c) ++ [id] ∧
  (∀ i, task_queue c !! id ≫= boxed_sender = Some i →
     ∃ cl, chans env' !! i = Some cl ∧ chan_closed cl []) ∧
  table_inv (task_queue c') env'.
Proof.
  intros Hinv. unfold spawn. cbn [fetch_add1]. rewrite insert_boxed_as_remove.
  set (env0 := mkEnv (<[next_chan env := ch_bounded 1]> (chans env)) _ (world env)).
  assert (table_inv (task_queue c) env0) as Hinv0.
  { destruct Hinv as [Hts Hinj]. split; [|done]. intros id t Ht. destruct (Hts _ _ Ht) as [? Hown].
    split; [done|]. intros i Hi. destruct (Hown i Hi) as (? & ch & ? & ?).
    split; simpl; [lia|]. exists ch. by rewrite lookup_insert_ne by lia. }
  assert (unowned (task_queue c) (next_chan env)) as Hfresh.
  { intros id t Ht Hi. destruct Hinv as [Hts _]. destruct (Hts _ _ Ht) as [_ Hown].
    destruct (Hown _ Hi) as [? _]. lia. }
  pose proof (remove_boxed_spec (next_task_id c) _ _ Hinv0) as Hspec.
  destruct (remove_boxed _ _ _ _ _) as [ts1 env1]. destruct Hspec as (-> & (Hn & Hcl & Hch) & Hinv1).
  simpl. rewrite insert_delete_eq. split_and!; try done; [apply seg_push_elems|].
  rewrite <-insert_delete_eq. apply table_inv_insert; [done|apply lookup_delete_eq|done|].
  intros i [= <-]. split.
  - split; [rewrite Hn; simpl; lia|]. exists (ch_bounded 1). rewrite Hch.
    + simpl. rewrite lookup_insert_eq. auto using ch_bounded_open.
    + by apply unowned_bind.
  - intros id' t' [_ Ht']%lookup_delete_Some. by eapply Hfresh.
Qed.

Definition cpu_inv (s : Cpu Q MC F G * CpuEnv) : Prop :=
  table_inv (task_queue s.1) s.2 ∧ wheel_wf (timer s.1).

(** Everything that happens to a CPU: what its own thread does, what other
    threads do to its inbox and to the world, and join handles in use. *)
Inductive cpu_step : Cpu Q MC F G * CpuEnv → Cpu Q MC F G * CpuEnv → Prop :=
  | cpu_spawn fut c env id ch c' env' :
      spawn fut_drop sub_drop fut c env = (id, ch, c', env') → cpu_step (c, env) (c', env')
  | cpu_message m c env :
      cpu_step (c, env) (handle_message fut_drop sub_drop m c env)
  | cpu_tick fuel now c env made c' env' :
      tick fut_poll fut_drop sub_poll sub_drop fuel now c env = Ret (made, c', env') →
      cpu_step (c, env) (c', env')
  | cpu_schedule counter at_ id c env counter' c' :
      schedule_timer counter at_ id c = Ret (counter', c') → cpu_step (c, env) (c', env)
  | cpu_inbox c env mc : cpu_step (c, env) (set_receiver c mc, env)
  | cpu_world c env w : cpu_step (c, env) (c, set_world env w)
  | cpu_join c env i ch :
      chans env !! i = Some ch → cpu_step (c, env) (c, set_chan env i (ch_try_recv ch).2)
  | cpu_drop_handle c env i ch :
      chans env !! i = Some ch → cpu_step (c, env) (c, set_chan env i (ch_drop_receiver ch)).

Lemma set_chan_table_inv ts env i ch ch' :
  table_inv ts env → chans env !! i = Some ch → (chan_open ch → chan_open ch') →
  table_inv ts (set_chan env i ch').
Proof.
  intros [Hts Hinj] Hi Hopen. split; [|done].
  intros id t Ht. destruct (Hts _ _ Ht) as [? Hown]. split; [done|]. intros j Hj.
  destruct (Hown j Hj) as (? & d & Hd & Ho). split; [done|]. simpl.
  destruct (decide (i = j)) as [->|Hne].
  - exists ch'. rewrite lookup_insert_eq. split; [done|]. apply Hopen. congruence.
  - exists d. by rewrite lookup_insert_ne.
Qed.

Lemma handle_message_timer m c env :
  timer (handle_message fut_drop sub_drop m c env).1 = timer c.
Proof. by destruct m. Qed.

Lemma handle_all_timer ms c env : timer (handle_all ms c env).1 = timer c.
Proof.
  revert c env. induction ms as [|m ms IH]; intros c env; [done|]. simpl.
  pose proof (handle_message_timer m c env) as Hm.
  destruct (handle_message _ _ m c env) as [c1 env1]. simpl in Hm. by rewrite IH.
Qed.

Lemma cpu_process_messages_inv fuel c env c' env' :
  cpu_inv (c, env) → process_messages fut_drop sub_drop fuel c env = Ret (c', env') →
  cpu_inv (c', env').
Proof.
  revert c env. induction fuel as [|fuel IH]; intros c env [Hinv Hwf] Hp; [done|].
  simpl in *. destruct (ch_try_recv (message_receiver c)) as [[m|e] mc].
  - destruct (handle_message _ _ m _ env) as [c1 env1] eqn:Hm. apply (IH c1 env1); [|done].
    pose proof (handle_message_timer m (set_receiver c mc) env) as Htm. rewrite Hm in Htm.
    split; simpl in *; [|by rewrite Htm]. by eapply handle_message_inv, Hm.
  - by injection Hp as <- <-.
Qed.

Lemma cpu_tick_inv fuel now c env made c' env' :
  cpu_inv (c, env) →
  tick fut_poll fut_drop sub_poll sub_drop fuel now c env = Ret (made, c', env') →
  cpu_inv (c', env').
Proof.
  intros Hinv Ht. unfold tick in Ht.
  destruct (process_messages _ _ fuel c env) as [[c1 env1]| |] eqn:Hp; simpl in Ht; try done.
  destruct (cpu_process_messages_inv _ _ _ _ _ Hinv Hp) as [Hinv1 Hwf1]. simpl in *.
  destruct (expire_entries (timer c1) now [] Hwf1) as (tw & fired & He & Hwf2 & _).
  rewrite He in Ht. simpl in Ht.
  destruct (tick_tasks _ _ _ _ fuel _ _ env1) as [[[made2 c2] env2]| |] eqn:Hl; simpl in Ht; try done.
  destruct (tick_tasks_ret fuel _ (set_timer (set_tasks c1 (task_queue c1) _) tw)
              env1 _ _ _ Hinv1 Hl) as [(Hinv2 & (_ & Ht2 & _) & _) _].
  destruct (poll_io_completions (world env2).1) as [[io_progress woken] io].
  injection Ht as <- <- <-. split; simpl; [exact Hinv2|]. by rewrite Ht2.
Qed.

Lemma cpu_step_inv s s' : cpu_inv s → cpu_step s s' → cpu_inv s'.
Proof.
  intros [Hinv Hwf] Hstep. destruct Hstep as [fut c env id ch c' env' Hs|m c env|fuel now c env made c' env' Ht
    |counter at_ id c env counter' c' Hs| | |c env i ch Hi|c env i ch Hi]; simpl in *.
  - pose proof (cpu_spawn_spec fut c env Hinv) as Hspec. rewrite Hs in Hspec.
    destruct Hspec as (_ & _ & _ & Htm & _ & _ & _ & Hinv'). split; simpl; [done|by rewrite Htm].
  - pose proof (handle_message_timer m c env) as Htm.
    destruct (handle_message _ _ m c env) as [c1 env1] eqn:Hm. simpl in Htm.
    split; simpl; [by eapply handle_message_inv|by rewrite Htm].
  - by apply (cpu_tick_inv fuel now c env made).
  - unfold schedule_timer in Hs.
    destruct (schedule counter (timer c) at_ id) as [[[tid counter1] tw]| |] eqn:E; simpl in Hs; try done.
    injection Hs as <- <-. destruct (schedule_entries _ _ _ _ _ _ _ Hwf E) as (_ & _ & Hwf' & _).
    by split.
  - by split.
  - by split.
  - split; [|done]. by eapply set_chan_table_inv, try_recv_open.
  - split; [|done]. by eapply set_chan_table_inv, drop_receiver_open.
Qed.

Lemma Cpu_new_inv id mc now env : cpu_inv (Cpu_new id mc now, env).
Proof.
  split; simpl.
  - split; intros *; by rewrite lookup_empty.
  - apply new_wf; lia.
Qed.

Lemma cpu_reachable id mc now env s :
  rtc cpu_step (Cpu_new id mc now, env) s → cpu_inv s.
Proof.
  intros Hr. pose proof (Cpu_new_inv id mc now env) as Hinv.
  induction Hr; eauto using cpu_step_inv.
Qed.

(** ** More on single operations *)

Lemma process_messages_more fuel extra c env s :
  process_messages fut_drop sub_drop fuel c env = Ret s →
  process_messages fut_drop sub_drop (fuel + extra) c env = Ret s.
Proof.
  revert c env. induction fuel as [|fuel IH]; intros c env Hp; [done|]. simpl in *.
  destruct (ch_try_recv (message_receiver c)) as [[m|e] mc]; [|done].
  destruct (handle_message _ _ m _ env) as [c1 env1]. by apply IH.
Qed.

Lemma handle_all_running ms c env :
  running c = false ∨ Shutdown ∈ ms → running (handle_all ms c env).1 = false.
Proof.
  revert c env. induction ms as [|m ms IH]; intros c env Hor; simpl.
  { destruct Hor as [|Hin]; [done|]. by apply elem_of_nil in Hin. }
  destruct (handle_message _ _ m c env) as [c1 env1] eqn:Hm. apply IH.
  destruct m; cbn in Hm; injection Hm as <- <-; simpl;
    destruct Hor as [?|Hin]; auto; apply elem_of_cons in Hin as [?|?]; auto; congruence.
Qed.

(** Once [running] is off it stays off. *)
Lemma process_messages_running fuel c env c' env' :
  running c = false → process_messages fut_drop sub_drop fuel c env = Ret (c', env') →
  running c' = false.
Proof.
  revert c env. induction fuel as [|fuel IH]; intros c env Hoff Hp; [done|]. simpl in Hp.
  destruct (ch_try_recv (message_receiver c)) as [[m|e] mc]; [|by injection Hp as <- <-].
  pose proof (handle_all_running [m] (set_receiver c mc) env (or_introl Hoff)) as Hm.
  simpl in Hm. destruct (handle_message _ _ m _ env) as [c1 env1]. by eapply IH.
Qed.

Lemma tick_running fuel now c env made c' env' :
  cpu_inv (c, env) → Shutdown ∈ ch_elems (message_receiver c) →
  (length (ch_elems (message_receiver c)) < fuel)%nat →
  tick fut_poll fut_drop sub_poll sub_drop fuel now c env = Ret (made, c', env') →
  running c' = false.
Proof.
  intros Hinv Hin Hlen Ht. unfold tick in Ht.
  destruct (process_messages_spec fuel c env Hlen) as (mc1 & _ & _ & Hp).
  pose proof (handle_all_running (ch_elems (message_receiver c)) c env (or_intror Hin)) as Hoff.
  destruct (handle_all _ c env) as [c1 env1]. rewrite Hp in Ht. simpl in Ht, Hoff.
  destruct (cpu_process_messages_inv _ _ _ _ _ Hinv Hp) as [Hinv1 Hwf1]. simpl in *.
  destruct (expire_entries (timer c1) now [] Hwf1) as (tw & fired & He & _).
  rewrite He in Ht. simpl in Ht.
  destruct (tick_tasks _ _ _ _ fuel _ _ env1) as [[[made2 c2] env2]| |] eqn:Hl; simpl in Ht; try done.
  destruct (tick_tasks_ret fuel _ (set_timer (set_tasks (set_receiver c1 mc1) (task_queue c1) _) tw)
              env1 _ _ _ Hinv1 Hl) as [(_ & (_ & _ & Hrun & _) & _) _].
  destruct (poll_io_completions (world env2).1) as [[io_progress woken] io].
  injection Ht as <- <- <-. simpl. by rewrite Hrun.
Qed.

(** Spawning a list of futures: the ids given. *)
Fixpoint spawn_ids (futs : list F) c env : list TaskId * Cpu Q MC F G * CpuEnv :=
  match futs with
  | [] => ([], c, env)
  | fut :: futs =>
      let '(id, _, c, env) := spawn fut_drop sub_drop fut c env in
      let '(ids, c, env) := spawn_ids futs c env in (id :: ids, c, env)
  end.

Lemma spawn_ids_spec futs c env :
  0 ≤ next_task_id c → next_task_id c + Z.of_nat (length futs) < 2 ^ 64 →
  (spawn_ids futs c env).1.1 = seqZ (next_task_id c) (Z.of_nat (length futs)).
Proof.
  revert c env. induction futs as [|fut futs IH]; intros c env Hn Hb; [done|].
  cbn [spawn_ids length] in *. destruct (spawn _ _ fut c env) as [[[id ch] c1] env1] eqn:Hs.
  assert (id = next_task_id c ∧ next_task_id c1 = next_task_id c + 1) as [-> Hn1].
  { unfold spawn in Hs. cbn [fetch_add1] in Hs. destruct (insert_boxed _ _ _ _ _ _) as [ts1 env2].
    injection Hs as <- _ <- _. simpl. split; [done|]. apply wrap64_small. unfold is_u64. lia. }
  specialize (IH c1 env1). destruct (spawn_ids futs c1 env1) as [[ids c2] env2]. simpl in *.
  rewrite IH by lia. rewrite (seqZ_cons (next_task_id c)) by lia. rewrite Hn1.
  f_equal. f_equal; lia.
Qed.

End cpu_props.

(** ** Claims *)

Section cpu_claims.
Context {Q MC C F G W T P B : Type}.
Context `{SegQueueLaws Q TaskId} `{ChannelLaws C (TaskResult T P)}
        `{ChannelLaws MC (CrossCpuMessage G)} `{IoProviderLaws B}.
Abbreviation CpuWorld := (CpuIoState B TaskId * W)%type.
Abbreviation CpuEnv := (Env C CpuWorld).
Context (fut_poll : TaskId → F → CpuWorld → poll_out F CpuWorld T)
        (fut_drop : F → CpuWorld → CpuWorld)
        (sub_poll : TaskId → G → CpuWorld → poll_out G CpuWorld unit)
        (sub_drop : G → CpuWorld → CpuWorld).
Implicit Types (c : Cpu Q MC F G) (env : CpuEnv).

(** C27. In every state a CPU can reach, the timer wheel is well formed and
    each task is filed under its own id; a task made by [spawn] owns the one
    sender of a channel of its own that has room for its result. Ids may
    collide; the invariant holds all the same. *)
Theorem cpu_reachable_inv id mc now env0 c env :
  rtc (cpu_step fut_poll fut_drop sub_poll sub_drop) (Cpu_new id mc now, env0) (c, env) →
  table_inv (task_queue c) env ∧ wheel_wf (timer c).
Proof. intros Hr. exact (cpu_reachable _ _ _ _ _ _ _ _ _ Hr). Qed.

(** A [tick] of a CPU in a reachable state returns, at any time and with
    any inbox, when its futures do not panic and can each return [Pending] only
    finitely often; it leaves the inbox empty. *)
Theorem cpu_tick_returns (rank : F → nat) (sub_rank : G → nat) id mc now0 env0 c env now :
  (∀ id f w, po_res (fut_poll id f w) = PPending →
     (rank (po_fut (fut_poll id f w)) < rank f)%nat) →
  (∀ id g w, po_res (sub_poll id g w) = PPending →
     (sub_rank (po_fut (sub_poll id g w)) < sub_rank g)%nat) →
  (∀ id f w, po_res (fut_poll id f w) ≠ PPanicked) →
  (∀ id g w, po_res (sub_poll id g w) ≠ PPanicked) →
  rtc (cpu_step fut_poll fut_drop sub_poll sub_drop) (Cpu_new id mc now0, env0) (c, env) →
  ∃ fuel made c' env',
    tick fut_poll fut_drop sub_poll sub_drop fuel now c env = Ret (made, c', env') ∧
    ch_elems (message_receiver c') = [].
Proof.
  intros Hrank Hsub Hnp Hsnp Hr.
  pose proof (cpu_reachable _ _ _ _ _ _ _ _ _ Hr) as Hinv.
  set (n := S (length (ch_elems (message_receiver c)))).
  destruct (process_messages_spec fut_drop sub_drop n c env) as (mc1 & He1 & _ & Hp); [lia|].
  destruct (handle_all _ _ _ c env) as [c0 env1]. set (c1 := set_receiver c0 mc1) in *.
  destruct (cpu_process_messages_inv _ _ _ _ _ _ _ Hinv Hp) as [Hinv1 Hwf1].
  destruct (expire_entries (timer c1) now [] Hwf1) as (tw & fired & Hex & _).
  set (c2 := set_timer (set_tasks c1 (task_queue c1)
               (seg_push_all ([] ++ wakers fired) (ready_queue c1))) tw).
  destruct (tick_tasks_terminates fut_poll fut_drop sub_poll sub_drop rank sub_rank Hrank Hsub Hnp Hsnp
              c2 env1 (negb (bool_decide ([] ++ wakers fired = []))) Hinv1)
    as (fuel & made & c3 & env3 & Hl).
  destruct (tick_tasks_ret _ _ _ _ _ _ c2 env1 _ _ _ Hinv1 (Hl n)) as [(_ & (Hrx & _) & _) _].
  exists (n + fuel)%nat. unfold tick. rewrite (process_messages_more _ _ n fuel c env (c1, env1) Hp).
  cbn [mbind outcome_bind]. rewrite Hex. cbn [mbind outcome_bind]. fold c2. rewrite Hl.
  cbn [mbind outcome_bind].
  destruct (poll_io_completions (world env3).1) as [[io_progress woken] io].
  do 3 eexists. split; [done|]. simpl. by rewrite Hrx.
Qed.

(** [process_messages] handles exactly the messages in the inbox, first
    in first out, and leaves it empty; one more unit of fuel than there are
    messages is enough. *)
Theorem process_messages_fifo fuel c env :
  (length (ch_elems (message_receiver c)) < fuel)%nat →
  ∃ mc, ch_elems mc = [] ∧
    process_messages fut_drop sub_drop fuel c env =
      let '(c', env') := handle_all fut_drop sub_drop (ch_elems (message_receiver c)) c env in
      Ret (set_receiver c' mc, env').
Proof.
  intros Hlen. destruct (process_messages_spec fut_drop sub_drop fuel c env Hlen) as (mc & ? & _ & ?).
  eauto.
Qed.

(** C28. Cancelling a task that has not finished takes effect at once and for
    good: it leaves the task table, awaiting its handle reports [Cancelled],
    and that is still so after any run of the task loop. *)
Theorem cancel_task_is_final id mc now env0 c env tid t i {V} (wk : V) h :
  rtc (cpu_step fut_poll fut_drop sub_poll sub_drop) (Cpu_new id mc now, env0) (c, env) →
  task_queue c !! tid = Some t → boxed_sender t = Some i →
  let '(c1, env1) := handle_message fut_drop sub_drop (CancelTask tid) c env in
  task_queue c1 !! tid = None ∧
  (∃ ch, chans env1 !! i = Some ch ∧ (poll wk h ch).1.1 = Ready (Err Cancelled)) ∧
  ∀ fuel made made' c2 env2,
    tick_tasks fut_poll fut_drop sub_poll sub_drop fuel made c1 env1 = Ret (made', c2, env2) →
    ∃ ch, chans env2 !! i = Some ch ∧ (poll wk h ch).1.1 = Ready (Err Cancelled).
Proof.
  intros Hr Ht Hi. destruct (cpu_reachable _ _ _ _ _ _ _ _ _ Hr) as [Hinv _]. simpl in Hinv.
  cbn [handle_message].
  pose proof (remove_boxed_spec fut_drop sub_drop tid (task_queue c) env Hinv) as Hspec.
  cbn [set_cancelled task_queue]. destruct (remove_boxed _ _ tid (task_queue c) env) as [ts1 env1].
  destruct Hspec as (-> & (_ & Hcl & _) & Hinv1). rewrite Ht in Hcl. simpl in Hcl.
  destruct (Hcl i Hi) as (ch & Hch & Hclosed). simpl. split_and!.
  - apply lookup_delete_eq.
  - exists ch. split; [done|by apply closed_cancelled].
  - intros fuel made made' c2 env2 Hl. exists ch. split; [|by apply closed_cancelled].
    destruct (tick_tasks_ret _ _ _ _ fuel made (set_tasks _ (delete tid (task_queue c)) _) _ _ _ _
                Hinv1 Hl) as [(_ & _ & Hun & _) _].
    destruct (Hun i) as [-> _]; [|done]. simpl. intros id' t' [Hne Ht']%lookup_delete_Some Hi'.
    destruct Hinv as [_ Hinj]. by destruct Hne; apply (Hinj _ _ _ _ _ Ht Ht' Hi).
Qed.

(** The ids a CPU gives to the first 2^32 tasks spawned on it are
    consecutive and carry the number of the CPU in their upper half, so
    tasks of different CPUs never share one. *)
Theorem local_ids_identify_cpu id (mc : MC) now futs env :
  0 ≤ id < 2 ^ 32 → Z.of_nat (length futs) ≤ 2 ^ 32 - 1 →
  let ids := (spawn_ids fut_drop sub_drop futs (Cpu_new id mc now : Cpu Q MC F G) env).1.1 in
  ids = seqZ (id * 2 ^ 32) (Z.of_nat (length futs)) ∧ Forall (λ i, cpu_id i = id) ids.
Proof.
  intros Hid Hlen. cbv zeta.
  assert (wrap64 (Z.shiftl id 32) = id * 2 ^ 32) as Hnext.
  { rewrite Z.shiftl_mul_pow2 by lia. apply wrap64_small. unfold is_u64. lia. }
  rewrite spawn_ids_spec; cbn [Cpu_new next_task_id]; rewrite Hnext; [|lia..].
  split; [done|]. apply Forall_forall. intros i Hi%elem_of_seqZ.
  replace i with (Z.shiftl id 32 + (i - id * 2 ^ 32))
    by (rewrite Z.shiftl_mul_pow2 by lia; lia).
  apply cpu_id_high_half; lia.
Qed.

(** C39. The ids of CPU 0 start at 0 and run into the ids [submit_task] takes
    from the global counter, which start at 1: after two local spawns the first
    task submitted from another thread has the id of the second one, whose
    task it replaces, and the owner of that task is told it was cancelled. *)
Theorem submitted_task_evicts_local_task (mc : MC) now env f0 f1 g {V} (wk : V) :
  let '(_, _, c1, env1) := spawn fut_drop sub_drop f0 (Cpu_new 0 mc now : Cpu Q MC F G) env in
  let '(id1, ch1, c2, env2) := spawn fut_drop sub_drop f1 c1 env1 in
  let '(gid, _) := generate_global_task_id GLOBAL_TASK_ID_COUNTER_INIT in
  let '(c3, env3) := handle_message fut_drop sub_drop (SubmitTask gid g) c2 env2 in
  gid = id1 ∧ task_queue c3 !! id1 = Some (mkTask id1 (Submitted g)) ∧
  ∃ ch, chans env3 !! ch1 = Some ch ∧
    (poll wk (JoinHandle_new id1) ch).1.1 = Ready (Err Cancelled).
Proof.
  destruct (Cpu_new_inv (F:=F) (G:=G) 0 mc now env) as [Hinv0 _].
  pose proof (cpu_spawn_spec fut_drop sub_drop f0 _ env Hinv0) as Hs.
  destruct (spawn _ _ f0 _ env) as [[[id0 ch0] c1] env1]. destruct Hs as (-> & _ & Hn1 & _ & _ & _ & _ & Hinv1).
  pose proof (cpu_spawn_spec fut_drop sub_drop f1 _ env1 Hinv1) as Hs.
  destruct (spawn _ _ f1 _ env1) as [[[id1 ch1] c2] env2].
  destruct Hs as (Hid1 & _ & _ & _ & Hts2 & _ & _ & Hinv2).
  assert (id1 = 1) as ->. { rewrite Hid1, Hn1. reflexivity. }
  unfold generate_global_task_id, fetch_add1, GLOBAL_TASK_ID_COUNTER_INIT, handle_message.
  rewrite insert_boxed_as_remove.
  pose proof (remove_boxed_spec fut_drop sub_drop 1 _ _ Hinv2) as Hspec.
  destruct (remove_boxed _ _ 1 (task_queue c2) env2) as [ts3 env3].
  destruct Hspec as (-> & (_ & Hcl & _) & _). rewrite Hts2, lookup_insert_eq in Hcl.
  destruct (Hcl ch1 eq_refl) as (ch & Hch & Hclosed).
  split_and!; [done|apply lookup_insert_eq|]. exists ch. split; [done|by apply closed_cancelled].
Qed.

(** A CPU whose inbox holds a [Shutdown] message leaves its event loop at
    the end of the turn it is in, whatever else is in the inbox and whatever
    its tasks do in that turn. *)
Theorem run_stops_on_shutdown id mc now0 env0 fuel now others turns c env c' env' :
  rtc (cpu_step fut_poll fut_drop sub_poll sub_drop) (Cpu_new id mc now0, env0) (c, env) →
  running c = true → Shutdown ∈ ch_elems (message_receiver c) →
  (length (ch_elems (message_receiver c)) < fuel)%nat →
  run_turn fut_poll fut_drop sub_poll sub_drop fuel now others c env = Ret (c', env') →
  running c' = false ∧
  run_loop fut_poll fut_drop sub_poll sub_drop fuel ((now, others) :: turns) c env = Ret (c', env').
Proof.
  intros Hr Hrun Hin Hlen Ht. pose proof (cpu_reachable _ _ _ _ _ _ _ _ _ Hr) as Hinv.
  assert (running c' = false) as Hoff.
  { unfold run_turn in Ht. destruct (tick _ _ _ _ fuel now c env) as [[[made c3] env3]| |] eqn:Htick;
      simpl in Ht; try done.
    assert (running c3 = false) as Hoff3.
    { by eapply tick_running. }
    destruct (seg_is_empty (ready_queue c3)).
    - destruct (ch_try_recv (others (message_receiver c3))) as [[m|[|]] mc'];
        injection Ht as Ht; simplify_eq; try done.
      pose proof (handle_all_running fut_drop sub_drop [m] (set_receiver c3 mc') env3 (or_introl Hoff3)) as Hm.
      simpl in Hm. rewrite Ht in Hm. done.
    - by eapply process_messages_running. }
  split; [done|]. cbn [run_loop]. rewrite Hrun, Ht. simpl.
  destruct turns as [|[? ?] ?]; cbn [run_loop]; by rewrite Hoff.
Qed.

End cpu_claims.

(** ** Witnesses

    Futures that count down, waking themselves; the dummy backend. *)

Abbreviation demo_world := (CpuIoState DummyIoBackend TaskId * unit)%type.
Abbreviation demo_inbox := (list_channel (CrossCpuMessage nat)).
Abbreviation demo_env := (Env (list_channel (TaskResult nat unit)) demo_world).

Definition demo_poll (id : TaskId) (n : nat) (w : demo_world) : poll_out nat demo_world nat :=
  match n with
  | O => mkPollOut (PReady 7%nat) n w []
  | S m => mkPollOut PPending m w [id]
  end.

Definition demo_sub_poll (id : TaskId) (n : nat) (w : demo_world) : poll_out nat demo_world unit :=
  match n with
  | O => mkPollOut (PReady tt) n w []
  | S m => mkPollOut PPending m w [id]
  end.

Definition demo_drop (_ : nat) (w : demo_world) : demo_world := w.

Definition demo_env0 : demo_env := mkEnv ∅ 0 (CpuIoState_new Dummy, tt).

Definition demo_inbox0 (ms : list (CrossCpuMessage nat)) : demo_inbox := mkListChannel ms 1000 1 true.

Definition demo_cpu0 (ms : list (CrossCpuMessage nat)) : Cpu (list TaskId) demo_inbox nat nat :=
  Cpu_new 3 (demo_inbox0 ms) 0.

Definition demo_spawned (ms : list (CrossCpuMessage nat)) :=
  spawn demo_drop demo_drop 2%nat (demo_cpu0 ms) demo_env0.

Lemma demo_cpu_reachable ms :
  rtc (cpu_step demo_poll demo_drop demo_sub_poll demo_drop)
    (demo_cpu0 ms, demo_env0) ((demo_spawned ms).1.2, (demo_spawned ms).2).
Proof. apply rtc_once. by eapply (cpu_spawn _ _ _ _ 2%nat). Qed.

Lemma demo_poll_rank id n w :
  po_res (demo_poll id n w) = PPending → (po_fut (demo_poll id n w) < n)%nat.
Proof. destruct n; simpl; [done|lia]. Qed.

Lemma demo_sub_poll_rank id n w :
  po_res (demo_sub_poll id n w) = PPending → (po_fut (demo_sub_poll id n w) < n)%nat.
Proof. destruct n; simpl; [done|lia]. Qed.

Lemma demo_poll_safe id n w : po_res (demo_poll id n w) ≠ PPanicked.
Proof. by destruct n. Qed.

Lemma demo_sub_poll_safe id n w : po_res (demo_sub_poll id n w) ≠ PPanicked.
Proof. by destruct n. Qed.

Lemma cpu_reachable_inv_witness :
  table_inv (task_queue (demo_spawned []).1.2) (demo_spawned []).2 ∧
  wheel_wf (timer (demo_spawned []).1.2).
Proof.
  exact (cpu_reachable_inv demo_poll demo_drop demo_sub_poll demo_drop 3 (demo_inbox0 []) 0 demo_env0
           _ _ (demo_cpu_reachable [])).
Defined.

Lemma cpu_tick_returns_witness :
  ∃ fuel made c' env',
    tick demo_poll demo_drop demo_sub_poll demo_drop fuel 5000000
      (demo_spawned [SubmitTask 9 1%nat; Ping 1]).1.2 (demo_spawned [SubmitTask 9 1%nat; Ping 1]).2
      = Ret (made, c', env') ∧ ch_elems (message_receiver c') = [].
Proof.
  exact (cpu_tick_returns demo_poll demo_drop demo_sub_poll demo_drop (λ n, n) (λ n, n)
           3 (demo_inbox0 [SubmitTask 9 1%nat; Ping 1]) 0 demo_env0 _ _ 5000000
           demo_poll_rank demo_sub_poll_rank demo_poll_safe demo_sub_poll_safe
           (demo_cpu_reachable [SubmitTask 9 1%nat; Ping 1])).
Defined.

Lemma process_messages_fifo_witness :
  ∃ mc, ch_elems mc = [] ∧
    process_messages demo_drop demo_drop 3 (demo_cpu0 [SubmitTask 9 1%nat; Shutdown]) demo_env0 =
      let '(c', env') := handle_all demo_drop demo_drop
                           (ch_elems (message_receiver (demo_cpu0 [SubmitTask 9 1%nat; Shutdown])))
                           (demo_cpu0 [SubmitTask 9 1%nat; Shutdown]) demo_env0 in
      Ret (set_receiver c' mc, env').
Proof.
  apply (process_messages_fifo demo_drop demo_drop 3
           (demo_cpu0 [SubmitTask 9 1%nat; Shutdown]) demo_env0). simpl. lia.
Defined.

Lemma cancel_task_is_final_witness :
  let '(c1, env1) := handle_message demo_drop demo_drop (CancelTask (3 * 2 ^ 32))
                       (demo_spawned []).1.2 (demo_spawned []).2 in
  task_queue c1 !! (3 * 2 ^ 32 : TaskId) = None ∧
  ∃ ch, chans env1 !! 0%nat = Some ch ∧ (poll tt (JoinHandle_new 1) ch).1.1 = Ready (Err Cancelled).
Proof.
  pose proof (cancel_task_is_final demo_poll demo_drop demo_sub_poll demo_drop 3 (demo_inbox0 []) 0
           demo_env0 _ _ (3 * 2 ^ 32) (mkTask (3 * 2 ^ 32) (Spawned (mkWrapped 2%nat 0))) 0
           tt (JoinHandle_new 1) (demo_cpu_reachable []) eq_refl eq_refl) as Hw.
  destruct (handle_message _ _ _ _ _) as [c1 env1]. destruct Hw as (H1 & H2 & _).
  split; [exact H1|exact H2].
Defined.

Lemma local_ids_identify_cpu_witness :
  (spawn_ids demo_drop demo_drop [4; 5]%nat (demo_cpu0 []) demo_env0).1.1
    = [3 * 2 ^ 32; 3 * 2 ^ 32 + 1].
Proof.
  destruct (local_ids_identify_cpu demo_drop demo_drop 3 (demo_inbox0 []) 0 [4; 5]%nat demo_env0)
    as [Hids _]; [lia|simpl; lia|]. exact Hids.
Defined.

Lemma submitted_task_evicts_local_task_witness :
  let '(_, _, c1, env1) := spawn demo_drop demo_drop 4%nat
    (Cpu_new 0 (demo_inbox0 []) 0 : Cpu (list TaskId) demo_inbox nat nat) demo_env0 in
  let '(id1, ch1, c2, env2) := spawn demo_drop demo_drop 5%nat c1 env1 in
  let '(gid, _) := generate_global_task_id GLOBAL_TASK_ID_COUNTER_INIT in
  let '(c3, env3) := handle_message demo_drop demo_drop (SubmitTask gid 6%nat) c2 env2 in
  gid = id1 ∧ task_queue c3 !! id1 = Some (mkTask id1 (Submitted 6%nat)) ∧
  ∃ ch, chans env3 !! ch1 = Some ch ∧
    (poll tt (JoinHandle_new id1) ch).1.1 = Ready (Err Cancelled).
Proof.
  exact (submitted_task_evicts_local_task demo_drop demo_drop (demo_inbox0 []) 0 demo_env0
           4%nat 5%nat 6%nat tt).
Defined.

Lemma run_stops_on_shutdown_witness :
  ∃ c' env', running c' = false ∧
    run_loop demo_poll demo_drop demo_sub_poll demo_drop 10 [(0, λ mc, mc)]
      (demo_spawned [SubmitTask 9 1%nat; Shutdown]).1.2
      (demo_spawned [SubmitTask 9 1%nat; Shutdown]).2 = Ret (c', env').
Proof.
  assert (∃ s, run_turn demo_poll demo_drop demo_sub_poll demo_drop 10 0 (λ mc, mc)
      (demo_spawned [SubmitTask 9 1%nat; Shutdown]).1.2
      (demo_spawned [SubmitTask 9 1%nat; Shutdown]).2 = Ret s) as [[c' env'] Ht].
  { eexists. vm_compute. reflexivity. }
  exists c', env'.
  apply (run_stops_on_shutdown demo_poll demo_drop demo_sub_poll demo_drop 3
           (demo_inbox0 [SubmitTask 9 1%nat; Shutdown]) 0 demo_env0 10 0 (λ mc, mc) [] _ _ _ _
           (demo_cpu_reachable [SubmitTask 9 1%nat; Shutdown])); [reflexivity| |simpl; lia|exact Ht].
  simpl. right. left.
Defined.
