(* ===== verification/Multicore.v ===== *)
(** * The thread-per-core runtime (src/multicore.rs)

    [CpuCore] is what one core's thread runs; [MultiCoreRuntime] holds the
    inboxes of the cores and a state word that [spawn] and [shutdown] check.
    The calls of the runtime are functions on that shared state when they run
    alone; the last section splits [spawn] and [shutdown] into their atomic
    actions, for any number of threads that call them at the same time. *)

From stdpp Require Import pretty.
From S2P Require Import Prelude Interfaces Waker Task Timer Io.

(** ** Errors (src/lib.rs) *)

Inductive RuntimeError :=
  | NotInitialized
  | TaskFailed (msg : string)
  | IoFailed (e : io_error).

(** ** Global task ids *)

Definition NEXT_TASK_ID_INIT : Z := 1.

Definition next_task_id (counter : Z) : TaskId * Z := fetch_add1 counter.

Definition invalid_core (core : Z) : string := String.append "Invalid core ID: " (pretty core).

Section core.
Context {Q G W B : Type}.

Inductive CoreMessage :=
  | CoreTask (id : TaskId) (fut : G)
  | CorePing (from_core : Z)
  | CoreShutdown
  | CoreCancelTask (id : TaskId).

Context `{SegQueue Q CoreMessage} `{IoProvider B}.

(** Polling a future with the waker that does nothing. *)
Variable fut_poll : G → W → polled unit * G * W.

(** ** [CpuCore] *)

Record CpuCore := mkCpuCore {
  core_id : Z;
  task_queue : list (Task G);
  message_inbox : Q;
  timer_wheel : TimerWheel unit;
  core_io : B;
  shutdown_flag : bool;
  local_task_count : nat
}.

Definition CpuCore_new (id : Z) (backend : B) (now : Z) : CpuCore :=
  mkCpuCore id [] seg_new (Timer.new 1024 1 now) backend false 0.

Definition set_queue (c : CpuCore) (tq : list (Task G)) (n : nat) : CpuCore :=
  mkCpuCore (core_id c) tq (message_inbox c) (timer_wheel c) (core_io c) (shutdown_flag c) n.

Definition set_inbox (c : CpuCore) (q : Q) : CpuCore :=
  mkCpuCore (core_id c) (task_queue c) q (timer_wheel c) (core_io c) (shutdown_flag c)
    (local_task_count c).

Definition set_shutdown (c : CpuCore) : CpuCore :=
  mkCpuCore (core_id c) (task_queue c) (message_inbox c) (timer_wheel c) (core_io c) true
    (local_task_count c).

Definition set_io (c : CpuCore) (b : B) : CpuCore :=
  mkCpuCore (core_id c) (task_queue c) (message_inbox c) (timer_wheel c) b (shutdown_flag c)
    (local_task_count c).

(** The arms of the [match] in [process_messages]; [true] is [break]. *)
Definition core_message (m : CoreMessage) (c : CpuCore) : bool * CpuCore :=
  match m with
  | CoreTask id fut =>
      (false, set_queue c (task_queue c ++ [from_pinned id fut]) (S (local_task_count c)))
  | CorePing _ => (false, c)
  | CoreShutdown => (true, set_shutdown c)
  | CoreCancelTask id =>
      (false, set_queue c (filter (λ t, task_id t ≠ id) (task_queue c)) (local_task_count c))
  end.

(** The loop of [process_messages] with [budget] messages left to take; the
    number it has processed. *)
Fixpoint message_loop (budget : nat) (processed : nat) (c : CpuCore) : nat * CpuCore :=
  match budget with
  | O => (processed, c)
  | S budget =>
      match seg_pop (message_inbox c) with
      | (None, q) => (processed, set_inbox c q)
      | (Some m, q) =>
          let '(stop, c) := core_message m (set_inbox c q) in
          if stop : bool then (S processed, c) else message_loop budget (S processed) c
      end
  end.

Definition process_messages (c : CpuCore) : bool * CpuCore :=
  let '(processed, c) := message_loop 32 0 c in ((0 <? processed)%nat, c).

(** The loop of [execute_tasks] with [budget] polls left. A panic of the
    future, or of the counter going below zero, ends the thread. *)
Fixpoint task_loop (budget : nat) (executed : nat) (c : CpuCore) (w : W)
    : outcome (nat * CpuCore * W) :=
  match budget with
  | O => Ret (executed, c, w)
  | S budget =>
      match task_queue c with
      | [] => Ret (executed, c, w)
      | task :: rest =>
          let '(res, fut, w) := fut_poll (future task) w in
          match res with
          | PReady _ =>
              match local_task_count c with
              | O => Panic
              | S n => task_loop budget (S executed) (set_queue c rest n) w
              end
          | PPending =>
              task_loop budget (S executed)
                (set_queue c (rest ++ [mkTask (task_id task) fut]) (local_task_count c)) w
          | PPanicked => Panic
          end
      end
  end.

Definition execute_tasks (c : CpuCore) (w : W) : outcome (bool * CpuCore * W) :=
  '(executed, c, w) ← task_loop 16 0 c w; Ret ((0 <? executed)%nat, c, w).

(** [process_io]: the completions themselves are dropped. *)
Definition process_io (c : CpuCore) : bool * CpuCore :=
  let '(p, b) := poll_complete (core_io c) in
  (match p with Ready (_ :: _) => true | _ => false end, set_io c b).

Definition process_timers (c : CpuCore) : bool := false.

(** One turn of the loop of [run]; [true] if no [park_timeout] follows. *)
Definition core_turn (c : CpuCore) (w : W) : outcome (bool * CpuCore * W) :=
  let '(w1, c) := process_messages c in
  '(w2, c, w) ← execute_tasks c w;
  let '(w3, c) := process_io c in
  Ret (w1 || w2 || w3 || process_timers c, c, w).

(** The loop of [run]: one turn per element of [inputs], the messages other threads push
    on the inbox before it. *)
Fixpoint core_run (inputs : list (list CoreMessage)) (c : CpuCore) (w : W)
    : outcome (result unit RuntimeError * CpuCore * W) :=
  if shutdown_flag c then Ret (Ok tt, c, w) else
  match inputs with
  | [] => NoFuel
  | ms :: inputs =>
      '(_, c, w) ← core_turn (set_inbox c (seg_push_all ms (message_inbox c))) w;
      core_run inputs c w
  end.

(** [bind_to_cpu]: the id of the core is an index into a mask of [CPU_SETSIZE]
    bits. That the kernel refuses the mask is only logged. *)
Definition CPU_SETSIZE : Z := 1024.

Definition bind_to_cpu (core : Z) : outcome (result unit RuntimeError) :=
  if core <? CPU_SETSIZE then Ret (Ok tt) else Panic.

(** What the thread of a core runs. *)
Definition core_main (inputs : list (list CoreMessage)) (c : CpuCore) (w : W)
    : outcome (result unit RuntimeError * CpuCore * W) :=
  bound ← bind_to_cpu (core_id c);
  match bound with
  | Err e => Ret (Err e, c, w)
  | Ok _ => core_run inputs c w
  end.

(** ** [MultiCoreRuntime] *)

Inductive RuntimeState := Initializing | Running | ShuttingDown | Terminated.

#[export] Instance RuntimeState_eq_dec : EqDecision RuntimeState.
Proof. solve_decision. Defined.

Record MultiCoreRuntime := mkMultiCoreRuntime {
  num_cores : Z;
  core_senders : list Q;
  state : RuntimeState;
  next_core : Z
}.

Definition set_state (rt : MultiCoreRuntime) (s : RuntimeState) : MultiCoreRuntime :=
  mkMultiCoreRuntime (num_cores rt) (core_senders rt) s (next_core rt).

Definition set_senders (rt : MultiCoreRuntime) (qs : list Q) : MultiCoreRuntime :=
  mkMultiCoreRuntime (num_cores rt) qs (state rt) (next_core rt).

(** The loop of [new] that starts the cores [core_id], [core_id + 1], ...:
    [create_io_backend] and the start of the thread may fail, and the cores
    started by then are the second component. *)
Fixpoint start_cores (create_io_backend : Z → result B RuntimeError)
    (start_thread : Z → result unit string) (now : Z) (n : nat) (core_id : Z)
    : result unit RuntimeError * list CpuCore :=
  match n with
  | O => (Ok tt, [])
  | S n =>
      match create_io_backend core_id with
      | Err e => (Err e, [])
      | Ok backend =>
          match start_thread core_id with
          | Err e => (Err (TaskFailed (String.append "Failed to spawn core thread: " e)), [])
          | Ok _ =>
              let '(r, cores) := start_cores create_io_backend start_thread now n (core_id + 1) in
              (r, CpuCore_new core_id backend now :: cores)
          end
      end
  end.

(** [MultiCoreRuntime::new]; [cpus] is what [num_cpus::get] returns. *)
Definition new (create_io_backend : Z → result B RuntimeError)
    (start_thread : Z → result unit string) (cpus now : Z) (cores : option Z)
    : result MultiCoreRuntime RuntimeError * list CpuCore :=
  let n := default cpus cores in
  if n =? 0 then (Err (TaskFailed "Cannot create runtime with 0 CPUs"), []) else
  let '(r, started) := start_cores create_io_backend start_thread now (Z.to_nat n) 0 in
  match r with
  | Err e => (Err e, started)
  | Ok _ => (Ok (set_state (mkMultiCoreRuntime n (message_inbox <$> started) Initializing 0) Running),
             started)
  end.

(** [create_io_backend] of a Linux build that selected [io_uring] or [epoll];
    [make] is the constructor of that backend. *)
Definition create_io_backend (make : Z → result B io_error) (core : Z) : result B RuntimeError :=
  match make core with
  | Ok b => Ok b
  | Err _ => Err (IoFailed (CustomError Unsupported "No suitable IO backend available"))
  end.

(** [self.core_senders[core_id].push(message)] *)
Definition push_to (core : Z) (m : CoreMessage) (rt : MultiCoreRuntime) : outcome MultiCoreRuntime :=
  q ← expect (core_senders rt !! Z.to_nat core);
  Ret (set_senders rt (<[Z.to_nat core := seg_push m q]> (core_senders rt))).

Definition spawn_on_core (core : Z) (id : TaskId) (fut : G) (rt : MultiCoreRuntime)
    : outcome (result TaskId RuntimeError * MultiCoreRuntime) :=
  rt ← push_to core (CoreTask id fut) rt; Ret (Ok id, rt).

(** [spawn] and [spawn_on]; the counter is [NEXT_TASK_ID]. *)
Definition spawn (fut : G) (counter : Z) (rt : MultiCoreRuntime)
    : outcome (result TaskId RuntimeError * Z * MultiCoreRuntime) :=
  if decide (state rt ≠ Running) then Ret (Err (TaskFailed "Runtime is not running"), counter, rt)
  else
    let '(id, counter) := next_task_id counter in
    let '(n, next') := fetch_add1 (next_core rt) in
    if num_cores rt =? 0 then Panic else
    let rt := mkMultiCoreRuntime (num_cores rt) (core_senders rt) (state rt) next' in
    '(r, rt) ← spawn_on_core (n mod num_cores rt) id fut rt;
    Ret (r, counter, rt).

Definition spawn_on (core : Z) (fut : G) (counter : Z) (rt : MultiCoreRuntime)
    : outcome (result TaskId RuntimeError * Z * MultiCoreRuntime) :=
  if decide (state rt ≠ Running) then Ret (Err (TaskFailed "Runtime is not running"), counter, rt)
  else if num_cores rt <=? core then Ret (Err (TaskFailed (invalid_core core)), counter, rt)
  else
    let '(id, counter) := next_task_id counter in
    '(r, rt) ← spawn_on_core core id fut rt;
    Ret (r, counter, rt).

(** [shutdown], run alone: the loads and the exchange see the same state. *)
Definition shutdown (rt : MultiCoreRuntime) : result unit RuntimeError * MultiCoreRuntime :=
  match state rt with
  | ShuttingDown | Terminated => (Ok tt, rt)
  | Initializing => (Err (TaskFailed "Failed to initiate shutdown"), rt)
  | Running =>
      (Ok tt, set_senders (set_state rt ShuttingDown) (seg_push CoreShutdown <$> core_senders rt))
  end.

Definition cancel_task (id : TaskId) (rt : MultiCoreRuntime) : result unit RuntimeError :=
  if decide (state rt ≠ Running) then Err (TaskFailed "Runtime is not running") else Ok tt.

(** [for to_core in 0..self.num_cores { if from_core != to_core { push } }] *)
Definition ping_from (n : Z) (from_core : Z) (sender : Q) : Q :=
  fold_left (λ q to_core, if from_core =? to_core then q else seg_push (CorePing from_core) q)
    (seqZ 0 n) sender.

Definition ping_all (rt : MultiCoreRuntime) : result unit RuntimeError * MultiCoreRuntime :=
  (Ok tt, set_senders rt (imap (λ i q, ping_from (num_cores rt) (Z.of_nat i) q) (core_senders rt))).

(** [join], given what joining each thread gives, [None] for a panic. *)
Fixpoint join_loop (results : list (option (result unit RuntimeError))) : result unit RuntimeError :=
  match results with
  | [] => Ok tt
  | Some (Ok _) :: results => join_loop results
  | Some (Err e) :: _ => Err e
  | None :: _ => Err (TaskFailed "Thread join failed: Any { .. }")
  end.

(** [Drop] *)
Definition runtime_drop (rt : MultiCoreRuntime) : MultiCoreRuntime :=
  if decide (state rt = Running) then (shutdown rt).2 else rt.

(** [join] takes the runtime, which is dropped at the end. *)
Definition join (results : list (option (result unit RuntimeError))) (rt : MultiCoreRuntime)
    : result unit RuntimeError * MultiCoreRuntime :=
  match join_loop results with
  | Err e => (Err e, runtime_drop rt)
  | Ok _ => (Ok tt, runtime_drop (set_state rt Terminated))
  end.

Record RuntimeStats := mkRuntimeStats {
  stats_num_cores : Z;
  is_shutdown : bool
}.

Definition stats (rt : MultiCoreRuntime) : RuntimeStats :=
  mkRuntimeStats (num_cores rt)
    (bool_decide (state rt = ShuttingDown) || bool_decide (state rt = Terminated)).

Definition cpu_count (rt : MultiCoreRuntime) : Z := num_cores rt.

(** ** The global runtime: [OnceLock<Arc<MultiCoreRuntime>>] *)

Definition init_runtime (made : result MultiCoreRuntime RuntimeError) (cell : option MultiCoreRuntime)
    : result unit RuntimeError * option MultiCoreRuntime :=
  match made with
  | Err e => (Err e, cell)
  | Ok rt =>
      match cell with
      | None => (Ok tt, Some rt)
      | Some _ => (Err (TaskFailed "Global runtime already initialized"), cell)
      end
  end.

Definition global_runtime (cell : option MultiCoreRuntime) : result MultiCoreRuntime RuntimeError :=
  match cell with
  | Some rt => Ok rt
  | None => Err NotInitialized
  end.

Definition global_spawn (fut : G) (counter : Z) (cell : option MultiCoreRuntime)
    : outcome (result TaskId RuntimeError * Z * option MultiCoreRuntime) :=
  match global_runtime cell with
  | Err e => Ret (Err e, counter, cell)
  | Ok rt => '(r, counter, rt) ← spawn fut counter rt; Ret (r, counter, Some rt)
  end.

Definition global_shutdown (cell : option MultiCoreRuntime)
    : result unit RuntimeError * option MultiCoreRuntime :=
  match global_runtime cell with
  | Err e => (Err e, cell)
  | Ok rt => let '(r, rt) := shutdown rt in (r, Some rt)
  end.

End core.
Arguments CoreMessage G : clear implicits.
Arguments CpuCore Q G B : clear implicits.
Arguments MultiCoreRuntime Q : clear implicits.

(** [block_on]: poll with a waker that does nothing until the future is ready;
    a panic of the future goes to the caller. *)
Fixpoint block_on {F W T} (poll : F → W → polled T * F * W) (fuel : nat) (fut : F) (w : W)
    : outcome (T * W) :=
  match fuel with
  | O => NoFuel
  | S fuel =>
      let '(res, fut, w) := poll fut w in
      match res with
      | PReady v => Ret (v, w)
      | PPending => block_on poll fuel fut w
      | PPanicked => Panic
      end
  end.

Definition block_on_cpu {Q F W T} (poll : F → W → polled T * F * W) (core : Z) (fuel : nat) (fut : F)
    (w : W) (rt : MultiCoreRuntime Q) : outcome (result T RuntimeError * W) :=
  if num_cores rt <=? core then Ret (Err (TaskFailed (invalid_core core)), w)
  else '(v, w) ← block_on poll fuel fut w; Ret (Ok v, w).

(** ** Callers in several threads

    The atomic actions of [spawn] and [shutdown], in program order. A thread
    that has returned stays at one of the last four points. *)

Section callers.
Context {Q G : Type} `{SegQueue Q (CoreMessage G)}.

Inductive caller :=
  | SpawnLoad (fut : G)
  | SpawnId (fut : G)
  | SpawnCore (id : TaskId) (fut : G)
  | SpawnPush (core : Z) (id : TaskId) (fut : G)
  | ShutLoad
  | ShutCas
  | ShutReload
  | ShutPush (next : nat)
  | Spawned (r : result TaskId RuntimeError)
  | ShutWon
  | ShutSeen
  | ShutFailed (e : RuntimeError).

(** The next action of one thread on the shared counter and runtime. *)
Definition caller_step (t : caller) (counter : Z) (rt : MultiCoreRuntime Q)
    : option (caller * Z * MultiCoreRuntime Q) :=
  match t with
  | SpawnLoad fut =>
      Some (if decide (state rt ≠ Running) then Spawned (Err (TaskFailed "Runtime is not running"))
            else SpawnId fut, counter, rt)
  | SpawnId fut => let '(id, counter) := next_task_id counter in Some (SpawnCore id fut, counter, rt)
  | SpawnCore id fut =>
      let '(n, next') := fetch_add1 (next_core rt) in
      Some (SpawnPush (n mod num_cores rt) id fut, counter,
            mkMultiCoreRuntime (num_cores rt) (core_senders rt) (state rt) next')
  | SpawnPush core id fut =>
      match push_to core (CoreTask id fut) rt with
      | Ret rt => Some (Spawned (Ok id), counter, rt)
      | _ => None
      end
  | ShutLoad =>
      Some (if decide (state rt = ShuttingDown ∨ state rt = Terminated) then ShutSeen else ShutCas,
            counter, rt)
  | ShutCas =>
      Some (if decide (state rt = Running) then (ShutPush 0, counter, set_state rt ShuttingDown)
            else (ShutReload, counter, rt))
  | ShutReload =>
      Some (if decide (state rt = ShuttingDown ∨ state rt = Terminated) then ShutSeen
            else ShutFailed (TaskFailed "Failed to initiate shutdown"), counter, rt)
  | ShutPush next =>
      match core_senders rt !! next with
      | Some q => Some (ShutPush (S next), counter,
                        set_senders rt (<[next := seg_push CoreShutdown q]> (core_senders rt)))
      | None => Some (ShutWon, counter, rt)
      end
  | _ => None
  end.

(** The threads, the shared state, and what each core has taken from its
    inbox so far. *)
Record system := mkSystem {
  callers : list caller;
  sys_counter : Z;
  runtime : MultiCoreRuntime Q;
  taken : list (list (CoreMessage G))
}.

Inductive system_step : system → system → Prop :=
  | step_caller s i t t' counter' rt' :
      callers s !! i = Some t →
      caller_step t (sys_counter s) (runtime s) = Some (t', counter', rt') →
      system_step s (mkSystem (<[i := t']> (callers s)) counter' rt' (taken s))
  | step_take s j q m q' ms :
      core_senders (runtime s) !! j = Some q → seg_pop q = (Some m, q') →
      taken s !! j = Some ms →
      system_step s (mkSystem (callers s) (sys_counter s)
                       (set_senders (runtime s) (<[j := q']> (core_senders (runtime s))))
                       (<[j := ms ++ [m]]> (taken s))).

End callers.
Arguments caller G : clear implicits.
Arguments system Q G : clear implicits.
