(* ===== verification/MulticoreProps.v ===== *)
(** * Properties of the thread-per-core runtime

    One core: which messages a turn takes and which tasks it polls, and that
    its counter is safe. The runtime: where spawned tasks go, and what
    concurrent [spawn] and [shutdown] calls leave in the inboxes. *)

From S2P Require Import Prelude Interfaces Waker Task Timer Io Multicore.

Section core_props.
Context {Q G W B : Type} `{SegQueueLaws Q (CoreMessage G)} `{IoProviderLaws B}.
Context (fut_poll : G → W → polled unit * G * W).
Implicit Types (c : CpuCore Q G B) (ms : list (CoreMessage G)) (ts : list (Task G)).

(** ** The messages of one turn *)

(** At most [budget] messages, up to and including the first [Shutdown]. *)
Fixpoint batch (budget : nat) ms : list (CoreMessage G) :=
  match budget, ms with
  | S budget, CoreShutdown :: _ => [CoreShutdown]
  | S budget, m :: ms => m :: batch budget ms
  | _, _ => []
  end.

(** What the messages do to the task queue, and how many are tasks. *)
Fixpoint apply_messages ms ts : list (Task G) :=
  match ms with
  | [] => ts
  | CoreTask id fut :: ms => apply_messages ms (ts ++ [mkTask id fut])
  | CoreCancelTask id :: ms => apply_messages ms (filter (λ t, task_id t ≠ id) ts)
  | _ :: ms => apply_messages ms ts
  end.

Fixpoint count_tasks ms : nat :=
  match ms with
  | [] => 0
  | CoreTask _ _ :: ms => S (count_tasks ms)
  | _ :: ms => count_tasks ms
  end.

Lemma message_loop_spec budget n c :
  let ms := batch budget (seg_elems (message_inbox c)) in
  let '(n', c') := message_loop budget n c in
  n' = (n + length ms)%nat ∧
  seg_elems (message_inbox c') = drop (length ms) (seg_elems (message_inbox c)) ∧
  task_queue c' = apply_messages ms (task_queue c) ∧
  local_task_count c' = (local_task_count c + count_tasks ms)%nat ∧
  (shutdown_flag c' = true ↔ shutdown_flag c = true ∨ CoreShutdown ∈ ms) ∧
  core_io c' = core_io c ∧ timer_wheel c' = timer_wheel c.
Proof.
  revert n c. induction budget as [|budget IH]; intros n c; cbv zeta.
  { simpl. split_and!; try done; try lia. split; [by left|intros [?|Hin]; [done|]].
    by apply elem_of_nil in Hin. }
  cbn [message_loop]. pose proof (seg_pop_elems (message_inbox c)) as Hq.
  destruct (seg_pop (message_inbox c)) as [[m|] q].
  2: { destruct Hq as [-> Hq]. simpl. rewrite Hq. split_and!; try done; try lia.
       split; [by left|intros [?|Hin]; [done|]]. by apply elem_of_nil in Hin. }
  rewrite Hq. destruct m as [id fut|from| |id]; cbn [core_message].
  3: { simpl. split_and!; try done; try lia.
       split; [|done]. intros _. right. left. }
  all: match goal with IH : ∀ (n : nat) (c : CpuCore _ _ _), _ |- context [message_loop ?b ?k ?x] =>
         specialize (IH k x); destruct (message_loop b k x) as [n' c'] end.
  all: simpl in *; destruct IH as (-> & -> & -> & -> & Hsh & -> & ->).
  all: split_and!; try done; try lia.
  all: rewrite Hsh, elem_of_cons; split; [intros [?|?]; auto|intros [?|[?|?]]; auto; congruence].
Qed.

(** ** The polls of one turn *)

(** Polling the tasks of a list once each, in order; those still pending. *)
Fixpoint poll_each ts (w : W) : outcome (list (Task G) * W) :=
  match ts with
  | [] => Ret ([], w)
  | t :: ts =>
      let '(res, fut, w) := fut_poll (future t) w in
      match res with
      | PReady _ => poll_each ts w
      | PPending => '(alive, w) ← poll_each ts w; Ret (mkTask (task_id t) fut :: alive, w)
      | PPanicked => Panic
      end
  end.

Lemma task_loop_poll_each ts rest n c w alive w' :
  task_queue c = ts ++ rest → (length (task_queue c) ≤ local_task_count c)%nat →
  poll_each ts w = Ret (alive, w') →
  task_loop fut_poll (length ts) n c w =
    Ret ((n + length ts)%nat,
         set_queue c (rest ++ alive) (local_task_count c - (length ts - length alive)), w') ∧
  (length alive ≤ length ts)%nat.
Proof.
  revert rest n c w alive. induction ts as [|t ts IH]; intros rest n c w alive Hq Hlen Hp.
  { injection Hp as <- <-. simpl in *. rewrite app_nil_r, Nat.add_0_r, Nat.sub_0_r, <-Hq.
    split; [by destruct c|lia]. }
  cbn [task_loop length poll_each] in *. rewrite Hq in *. cbn [app].
  destruct (fut_poll (future t) w) as [[res fut] w1]. destruct res as [u| |]; [| |done].
  - destruct (local_task_count c) as [|k] eqn:Hk; [simpl in Hlen; lia|].
    destruct (IH rest (S n) (set_queue c (ts ++ rest) k) w1 alive) as [-> Hle];
      [done|simpl in *; lia|done|].
    split; [|lia]. simpl. do 2 f_equal. f_equal; [lia|]. unfold set_queue; simpl. f_equal. lia.
  - destruct (poll_each ts w1) as [[alive1 w2]| |] eqn:Hp1; simpl in Hp; try done.
    injection Hp as <- <-.
    destruct (IH (rest ++ [mkTask (task_id t) fut]) (S n)
                (set_queue c ((ts ++ rest) ++ [mkTask (task_id t) fut]) (local_task_count c)) w1 alive1)
      as [-> Hle]; [simpl; by rewrite app_assoc|simpl in *; rewrite (length_app (ts ++ rest)); simpl; lia|done|].
    split; [|simpl; lia]. simpl. do 2 f_equal. f_equal; [lia|].
    unfold set_queue; simpl. f_equal. by rewrite <-app_assoc.
Qed.

(** ** The counter *)

Definition core_inv c : Prop := (length (task_queue c) ≤ local_task_count c)%nat.

Lemma task_loop_inv budget n c w n' c' w' :
  core_inv c → task_loop fut_poll budget n c w = Ret (n', c', w') →
  core_inv c' ∧
  (local_task_count c' - length (task_queue c') = local_task_count c - length (task_queue c))%nat ∧
  message_inbox c' = message_inbox c ∧ shutdown_flag c' = shutdown_flag c.
Proof.
  revert n c w. induction budget as [|budget IH]; intros n c w Hinv Hl; simpl in Hl.
  { by injection Hl as <- <- <-. }
  unfold core_inv in *. destruct (task_queue c) as [|t rest] eqn:Hq.
  { injection Hl as <- <- <-. by rewrite Hq. }
  destruct (fut_poll (future t) w) as [[[u| |] fut] w1]; [| |done].
  - destruct (local_task_count c) as [|k]; [done|].
    destruct (IH (S n) (set_queue c rest k) w1 ltac:(simpl in *; lia) Hl) as (? & ? & ? & ?). simpl in *.
    split_and!; try done; lia.
  - set (c1 := set_queue c (rest ++ [mkTask (task_id t) fut]) (local_task_count c)) in *.
    assert (length (task_queue c1) = S (length rest)) as Hlen1
      by (simpl; rewrite length_app; simpl; lia).
    destruct (IH (S n) c1 w1 ltac:(rewrite Hlen1; simpl in *; lia) Hl) as (? & ? & ? & ?).
    rewrite Hlen1 in *. simpl in *. split_and!; try done; lia.
Qed.

Lemma task_loop_no_panic budget n c w :
  (∀ g w, (fut_poll g w).1.1 ≠ PPanicked) → core_inv c →
  ∃ n' c' w', task_loop fut_poll budget n c w = Ret (n', c', w').
Proof.
  intros Hsafe. revert n c w. induction budget as [|budget IH]; intros n c w Hinv; simpl; [eauto|].
  unfold core_inv in Hinv. destruct (task_queue c) as [|t rest] eqn:Hq; [eauto|].
  pose proof (Hsafe (future t) w) as Hs.
  destruct (fut_poll (future t) w) as [[[u| |] fut] w1]; [| |done].
  - destruct (local_task_count c) as [|k]; [simpl in Hinv; lia|].
    apply IH. unfold core_inv; simpl in *. lia.
  - apply IH. unfold core_inv; simpl in *. rewrite length_app; simpl. lia.
Qed.

Lemma apply_messages_length ms ts :
  (length (apply_messages ms ts) ≤ length ts + count_tasks ms)%nat.
Proof.
  revert ts. induction ms as [|[id fut|from| |id] ms IH]; intros ts; simpl; [lia|..].
  - specialize (IH (ts ++ [mkTask id fut])). rewrite length_app in IH. simpl in IH. lia.
  - apply IH.
  - apply IH.
  - specialize (IH (filter (λ t, task_id t ≠ id) ts)).
    pose proof (length_filter (λ t, task_id t ≠ id) ts). lia.
Qed.

Lemma process_messages_inv c : core_inv c → core_inv (process_messages c).2.
Proof.
  unfold core_inv, process_messages. intros Hinv. pose proof (message_loop_spec 32 0 c) as Hspec.
  cbv zeta in Hspec. destruct (message_loop 32 0 c) as [n c'].
  destruct Hspec as (_ & _ & Hq & Hn & _). simpl. rewrite Hq, Hn.
  pose proof (apply_messages_length (batch 32 (seg_elems (message_inbox c))) (task_queue c)). lia.
Qed.

Lemma task_loop_empty budget n c w :
  task_queue c = [] → task_loop fut_poll budget n c w = Ret (n, c, w).
Proof. intros Hq. destruct budget; simpl; [done|]. by rewrite Hq. Qed.

(** A turn of a core without tasks stops it at a [Shutdown]; what lies behind
    is left in the inbox. *)
Lemma core_turn_stops rest c w :
  task_queue c = [] → seg_elems (message_inbox c) = CoreShutdown :: rest →
  ∃ any c', core_turn fut_poll c w = Ret (any, c', w) ∧ task_queue c' = [] ∧
    seg_elems (message_inbox c') = rest ∧ local_task_count c' = local_task_count c ∧ shutdown_flag c' = true.
Proof.
  intros Ht Hin. pose proof (message_loop_spec 32 0 c) as Hspec. cbv zeta in Hspec.
  unfold core_turn, process_messages. destruct (message_loop 32 0 c) as [n c1]. rewrite Hin in Hspec.
  destruct Hspec as (_ & Hq1 & Ht1 & Hc1 & Hf1 & _). cbn in Hq1, Hc1. cbn [batch apply_messages] in Ht1.
  rewrite Ht in Ht1. rewrite Nat.add_0_r in Hc1.
  assert (shutdown_flag c1 = true) as Hf'. { apply Hf1. right. left. }
  unfold execute_tasks. rewrite task_loop_empty by done. cbn [mbind outcome_bind].
  unfold process_io. destruct (poll_complete (core_io c1)) as [p b]. cbn [mbind outcome_bind].
  eexists _, (set_io c1 b). split; [done|]. cbn [set_io task_queue message_inbox local_task_count shutdown_flag].
  by split_and!.
Qed.

Lemma core_stops rest c w :
  task_queue c = [] → seg_elems (message_inbox c) = [] → shutdown_flag c = false →
  ∃ c', core_run fut_poll [CoreShutdown :: rest] c w = Ret (Ok tt, c', w) ∧
    task_queue c' = [] ∧ seg_elems (message_inbox c') = rest ∧ local_task_count c' = local_task_count c.
Proof.
  intros Ht Hin Hf. cbn [core_run]. rewrite Hf. set (c0 := set_inbox c _).
  destruct (core_turn_stops rest c0 w) as (any & c' & -> & Hq & Hi & Hn & Hf'); [done| |].
  { unfold c0. cbn [set_inbox message_inbox]. by rewrite seg_push_all_elems, Hin. }
  exists c'. cbn. by rewrite Hf'.
Qed.

End core_props.

(** ** Where spawned tasks go *)

Section runtime_props.
Context {Q G : Type} `{SegQueueLaws Q (CoreMessage G)}.
Implicit Types (rt : MultiCoreRuntime Q) (futs : list G).

Definition rt_wf rt : Prop :=
  0 < num_cores rt < 2 ^ 64 ∧ Z.of_nat (length (core_senders rt)) = num_cores rt ∧
  0 ≤ next_core rt < 2 ^ 64.

Lemma push_to_wf rt core (m : CoreMessage G) :
  rt_wf rt → 0 ≤ core < num_cores rt →
  ∃ q, core_senders rt !! Z.to_nat core = Some q ∧
    push_to core m rt =
      Ret (set_senders rt (<[Z.to_nat core := seg_push m q]> (core_senders rt))).
Proof.
  intros (_ & Hlen & _) Hc. unfold push_to.
  destruct (lookup_lt_is_Some_2 (core_senders rt) (Z.to_nat core)) as [q Hq]; [lia|].
  exists q. by rewrite Hq.
Qed.

Lemma spawn_running fut counter rt :
  rt_wf rt → state rt = Running →
  ∃ q rt', core_senders rt !! Z.to_nat (next_core rt mod num_cores rt) = Some q ∧
    spawn fut counter rt = Ret (Ok counter, wrap64 (counter + 1), rt') ∧
    core_senders rt' = <[Z.to_nat (next_core rt mod num_cores rt) :=
                           seg_push (CoreTask counter fut) q]> (core_senders rt) ∧
    num_cores rt' = num_cores rt ∧ next_core rt' = wrap64 (next_core rt + 1) ∧
    state rt' = Running ∧ rt_wf rt'.
Proof.
  intros Hwf Hrun. unfold spawn. rewrite decide_False by (rewrite Hrun; auto). simpl.
  pose proof Hwf as (Hn & Hlen & Hnext).
  destruct (Z.eqb_spec (num_cores rt) 0) as [?|_]; [lia|]. unfold spawn_on_core.
  set (rt1 := mkMultiCoreRuntime (num_cores rt) (core_senders rt) (state rt) _).
  assert (rt_wf rt1) as Hwf1.
  { split_and!; simpl; try done; try lia; apply wrap64_range. }
  destruct (push_to_wf rt1 (next_core rt mod num_cores rt) (CoreTask counter fut) Hwf1)
    as (q & Hq & ->); [simpl; apply Z.mod_pos_bound; lia|].
  exists q. eexists. split; [exact Hq|]. simpl. split_and!; try done.
  destruct Hwf1 as (? & ? & ?). split; [done|split; [|done]]. simpl. by rewrite length_insert.
Qed.

Fixpoint spawn_many futs (counter : Z) rt
    : outcome (list (result TaskId RuntimeError) * Z * MultiCoreRuntime Q) :=
  match futs with
  | [] => Ret ([], counter, rt)
  | fut :: futs =>
      '(r, counter, rt) ← spawn fut counter rt;
      '(rs, counter, rt) ← spawn_many futs counter rt;
      Ret (r :: rs, counter, rt)
  end.

(** The messages core [j] of [n] gets when the futures go round from [s]. *)
Fixpoint assigned (n j s counter : Z) futs : list (CoreMessage G) :=
  match futs with
  | [] => []
  | fut :: futs =>
      (if s mod n =? j then [CoreTask counter fut] else []) ++ assigned n j (s + 1) (counter + 1) futs
  end.

Lemma assigned_length n j s counter futs :
  0 < n → 0 ≤ j < n →
  Z.of_nat (length (assigned n j s counter futs)) =
    (s + Z.of_nat (length futs) - 1 - j) / n - (s - 1 - j) / n.
Proof.
  intros Hn Hj. revert s counter. induction futs as [|fut futs IH]; intros s counter.
  { cbn [assigned length]. rewrite Z.add_0_r. lia. }
  cbn [assigned length]. rewrite length_app, Nat2Z.inj_add, IH.
  replace (s + 1 + Z.of_nat (length futs) - 1 - j) with (s + Z.of_nat (S (length futs)) - 1 - j) by lia.
  replace (s + 1 - 1 - j) with (s - j) by lia.
  destruct (Z.eqb_spec (s mod n) j) as [He|He]; cbn [length].
  - assert ((s - j) / n = (s - 1 - j) / n + 1); [|lia].
    pose proof (Z.div_mod s n ltac:(lia)).
    replace (s - j) with ((s / n) * n) by lia. replace (s - 1 - j) with ((s / n - 1) * n + (n - 1)) by lia.
    rewrite Z.div_mul, Z.div_add_l, (Z.div_small (n - 1)) by lia. lia.
  - assert ((s - j) / n = (s - 1 - j) / n); [|lia].
    pose proof (Z.div_mod (s - j) n ltac:(lia)) as Hd.
    pose proof (Z.mod_pos_bound (s - j) n ltac:(lia)) as Hb.
    assert ((s - j) mod n ≠ 0).
    { intros Hz. apply He. rewrite Hz in Hd. replace s with (j + (s - j) / n * n) by lia.
      rewrite Z_mod_plus_full. apply Z.mod_small. lia. }
    apply Z.div_unique with ((s - j) mod n - 1); lia.
Qed.

Lemma assigned_balanced n j s counter futs :
  0 < n → 0 ≤ j < n →
  let k := Z.of_nat (length futs) in
  k / n ≤ Z.of_nat (length (assigned n j s counter futs)) ≤ k / n + 1.
Proof.
  intros Hn Hj k. rewrite assigned_length by done. fold k. set (x := s - 1 - j).
  replace (s + k - 1 - j) with (x + k) by lia.
  pose proof (Z.div_mod (x + k) n ltac:(lia)). pose proof (Z.mod_pos_bound (x + k) n ltac:(lia)).
  pose proof (Z.div_mod x n ltac:(lia)). pose proof (Z.mod_pos_bound x n ltac:(lia)).
  pose proof (Z.div_mod k n ltac:(lia)). pose proof (Z.mod_pos_bound k n ltac:(lia)). nia.
Qed.

Lemma spawn_many_spec futs counter rt :
  rt_wf rt → state rt = Running → 0 ≤ counter →
  counter + Z.of_nat (length futs) < 2 ^ 64 → next_core rt + Z.of_nat (length futs) < 2 ^ 64 →
  ∃ rt', spawn_many futs counter rt =
      Ret (Ok <$> seqZ counter (Z.of_nat (length futs)), counter + Z.of_nat (length futs), rt') ∧
    length (core_senders rt') = length (core_senders rt) ∧
    ∀ (j : nat) q, core_senders rt !! j = Some q → ∃ q', core_senders rt' !! j = Some q' ∧
      seg_elems q' = seg_elems q ++
        assigned (num_cores rt) (Z.of_nat j) (next_core rt) counter futs.
Proof.
  revert counter rt. induction futs as [|fut futs IH]; intros counter rt Hwf Hrun Hc Hb1 Hb2.
  { exists rt. simpl. rewrite Z.add_0_r. split_and!; [done..|]. intros j q Hq. exists q.
    by rewrite app_nil_r. }
  cbn [length] in *. destruct (spawn_running fut counter rt Hwf Hrun)
    as (q0 & rt1 & Hq0 & Hs & Hsend & Hn & Hnext & Hrun1 & Hwf1).
  assert (wrap64 (counter + 1) = counter + 1) as Hw1 by (apply wrap64_small; unfold is_u64; lia).
  assert (wrap64 (next_core rt + 1) = next_core rt + 1) as Hw2.
  { apply wrap64_small. destruct Hwf as (_ & _ & ?). unfold is_u64. lia. }
  rewrite Hw1 in Hs. rewrite Hw2 in Hnext.
  destruct (IH (counter + 1) rt1) as (rt2 & Hm & Hlen & Hel); try done; try lia.
  exists rt2. cbn [spawn_many]. rewrite Hs. simpl. rewrite Hm. simpl. split_and!.
  - rewrite (seqZ_cons counter) by lia. simpl.
    replace (Z.pred (Z.of_nat (S (length futs)))) with (Z.of_nat (length futs)) by lia.
    do 3 f_equal. lia.
  - by rewrite Hlen, Hsend, length_insert.
  - intros j q Hq. cbn [assigned]. rewrite Hsend, Hn, Hnext in Hel.
    destruct (Z.eqb_spec (next_core rt mod num_cores rt) (Z.of_nat j)) as [He|He].
    + destruct (Hel j (seg_push (CoreTask counter fut) q)) as (q' & Hq' & Hs').
      { rewrite He, Nat2Z.id in *. rewrite Hq in Hq0. injection Hq0 as <-.
        apply list_lookup_insert_eq. by eapply lookup_lt_Some. }
      exists q'. split; [done|]. by rewrite Hs', seg_push_elems, <-app_assoc.
    + destruct (Hel j q) as (q' & Hq' & Hs'); [|by exists q'].
      rewrite list_lookup_insert_ne; [done|]. intros Hj. apply He. subst j.
      rewrite Z2Nat.id; [done|]. apply Z.mod_pos_bound. destruct Hwf as (? & _). lia.
Qed.

End runtime_props.

(** ** Concurrent callers *)

Section system_props.
Context {Q G : Type} `{SegQueueLaws Q (CoreMessage G)}.
Implicit Types (s : system Q G) (t : caller G) (m : CoreMessage G).

Definition is_shutdown_msg m : bool :=
  match m with CoreShutdown => true | _ => false end.

(** How many [Shutdown] messages core [j] has been sent so far. *)
Definition shutdowns (taken : list (list (CoreMessage G))) (senders : list Q) (j : nat) : nat :=
  length (filter is_shutdown_msg (default [] (taken !! j))) +
  length (filter is_shutdown_msg (default [] (seg_elems <$> senders !! j))).

(** The cores a thread has sent [Shutdown] to, if its exchange succeeded. *)
Definition progress (n : nat) t : option nat :=
  match t with
  | ShutPush k => Some k
  | ShutWon => Some n
  | _ => None
  end.

Definition no_winner (n : nat) (ts : list (caller G)) : Prop :=
  ∀ i t, ts !! i = Some t → progress n t = None.

Definition one_winner (n k : nat) (ts : list (caller G)) : Prop :=
  ∃ i t, ts !! i = Some t ∧ progress n t = Some k ∧
    ∀ i' t', ts !! i' = Some t' → i' ≠ i → progress n t' = None.

(** No thread waits for a state it cannot see, or has failed. *)
Definition caller_ok (st : RuntimeState) t : Prop :=
  match t with
  | ShutReload | ShutSeen => st = ShuttingDown
  | ShutFailed _ => False
  | SpawnPush core _ _ => 0 ≤ core
  | _ => True
  end.

Definition system_inv (n : nat) s : Prop :=
  length (core_senders (runtime s)) = n ∧ length (taken s) = n ∧
  num_cores (runtime s) = Z.of_nat n ∧
  Forall (caller_ok (state (runtime s))) (callers s) ∧
  match state (runtime s) with
  | Running => no_winner n (callers s) ∧
      ∀ j, shutdowns (taken s) (core_senders (runtime s)) j = 0%nat
  | ShuttingDown => ∃ k, (k ≤ n)%nat ∧ one_winner n k (callers s) ∧
      ∀ j, shutdowns (taken s) (core_senders (runtime s)) j = (if (j <? k)%nat then 1 else 0)%nat
  | _ => False
  end.

Lemma shutdowns_push tk qs i q m j :
  qs !! i = Some q →
  shutdowns tk (<[i := seg_push m q]> qs) j =
    (shutdowns tk qs j + if decide (i = j) then (if is_shutdown_msg m then 1 else 0) else 0)%nat.
Proof.
  intros Hq. unfold shutdowns. case_decide as Hij.
  - subst j. rewrite list_lookup_insert_eq by (by eapply lookup_lt_Some). rewrite Hq. simpl.
    rewrite seg_push_elems, filter_app, length_app.
    destruct m; simpl; lia.
  - rewrite list_lookup_insert_ne by done. lia.
Qed.

Lemma shutdowns_take tk qs i q m q' ms j :
  qs !! i = Some q → seg_pop q = (Some m, q') → tk !! i = Some ms →
  shutdowns (<[i := ms ++ [m]]> tk) (<[i := q']> qs) j = shutdowns tk qs j.
Proof.
  intros Hq Hpop Htk. pose proof (seg_pop_elems q) as He. rewrite Hpop in He.
  unfold shutdowns. destruct (decide (i = j)) as [<-|Hij].
  - rewrite !list_lookup_insert_eq by (by eapply lookup_lt_Some). rewrite Hq, Htk. simpl.
    rewrite He, filter_app, length_app, !filter_cons. simpl. repeat case_decide; simpl; lia.
  - by rewrite !list_lookup_insert_ne.
Qed.

Lemma no_winner_insert n ts i t t' :
  no_winner n ts → ts !! i = Some t → progress n t' = None → no_winner n (<[i := t']> ts).
Proof.
  intros Hno Hi Hp i' t'' Hi'. apply list_lookup_insert_Some in Hi' as [(_ & <- & _)|[_ Hi']]; eauto.
Qed.

(** A thread that is not the winner moves without becoming one. *)
Lemma one_winner_other n k ts i t t' :
  one_winner n k ts → ts !! i = Some t → progress n t = None → progress n t' = None →
  one_winner n k (<[i := t']> ts).
Proof.
  intros (iw & tw & Hiw & Hpw & Hoth) Hi Hp Hp'.
  assert (i ≠ iw) as Hne by (intros ->; congruence).
  exists iw, tw. split_and!; [by rewrite list_lookup_insert_ne|done|].
  intros i' t'' Hi' Hne'. apply list_lookup_insert_Some in Hi' as [(_ & <- & _)|[_ Hi']]; eauto.
Qed.

(** The winner moves on. *)
Lemma one_winner_moves n k k' ts i t t' :
  one_winner n k ts → ts !! i = Some t → is_Some (progress n t) → progress n t' = Some k' →
  one_winner n k' (<[i := t']> ts) ∧ progress n t = Some k.
Proof.
  intros (iw & tw & Hiw & Hpw & Hoth) Hi [x Hp] Hp'.
  assert (i = iw) as ->.
  { destruct (decide (i = iw)) as [|Hne]; [done|]. rewrite (Hoth _ _ Hi Hne) in Hp. done. }
  split; [|congruence]. exists iw, t'. split_and!; [|done|].
  - apply list_lookup_insert_eq. by eapply lookup_lt_Some.
  - intros i' t'' Hi' Hne'. apply list_lookup_insert_Some in Hi' as [(? & _)|[_ Hi']]; [done|eauto].
Qed.

Lemma one_winner_starts n ts i t :
  no_winner n ts → ts !! i = Some t → one_winner n 0 (<[i := ShutPush 0]> ts).
Proof.
  intros Hno Hi. exists i, (ShutPush 0). split_and!; [|done|].
  - apply list_lookup_insert_eq. by eapply lookup_lt_Some.
  - intros i' t' Hi' Hne. apply list_lookup_insert_Some in Hi' as [(? & _)|[_ Hi']]; [done|eauto].
Qed.

(** A thread moves; no [Shutdown] message is sent, the state word stays. *)
Lemma quiet_move n s i t t' counter rt :
  system_inv n s → callers s !! i = Some t →
  progress n t = None → progress n t' = None → caller_ok (state (runtime s)) t' →
  num_cores rt = num_cores (runtime s) → state rt = state (runtime s) →
  length (core_senders rt) = length (core_senders (runtime s)) →
  (∀ j, shutdowns (taken s) (core_senders rt) j = shutdowns (taken s) (core_senders (runtime s)) j) →
  system_inv n (mkSystem (<[i := t']> (callers s)) counter rt (taken s)).
Proof.
  intros (Hl1 & Hl2 & Hn & Hok & Hst) Hi Hp Hp' Hok' Hn' Hst' Hl' Hsh.
  unfold system_inv; simpl. rewrite Hn', Hst', Hl'. split_and!; try done.
  { by apply Forall_insert. }
  destruct (state (runtime s)); try done.
  - destruct Hst as [Hno Hz]. split; [by eapply no_winner_insert|]. intros j. by rewrite Hsh.
  - destruct Hst as (k & Hk & Hone & Hz). exists k. split_and!; [done|by eapply one_winner_other|].
    intros j. by rewrite Hsh.
Qed.

(** The winner sends the next message. *)
Lemma winner_pushes n s i k q counter :
  system_inv n s → callers s !! i = Some (ShutPush k) →
  core_senders (runtime s) !! k = Some q →
  system_inv n (mkSystem (<[i := ShutPush (S k)]> (callers s)) counter
    (set_senders (runtime s) (<[k := seg_push CoreShutdown q]> (core_senders (runtime s)))) (taken s)).
Proof.
  intros (Hl1 & Hl2 & Hn & Hok & Hst) Hi Hq. unfold system_inv; simpl.
  split_and!; [by rewrite length_insert|done|done|by apply Forall_insert|].
  destruct (state (runtime s)); try done.
  { destruct Hst as [Hno _]. specialize (Hno _ _ Hi). done. }
  destruct Hst as (k' & Hk' & Hone & Hz).
  destruct (one_winner_moves n k' (S k) _ i (ShutPush k) (ShutPush (S k)) Hone Hi) as [Hone' Heq]; [done..|].
  injection Heq as <-. apply lookup_lt_Some in Hq as Hlt. exists (S k). split_and!; [lia|done|].
  intros j. rewrite (shutdowns_push _ _ _ _ _ _ Hq), Hz. simpl.
  destruct (Nat.ltb_spec j k), (Nat.ltb_spec j (S k)), (decide (k = j)); lia.
Qed.

(** The winner returns. *)
Lemma winner_returns n s i k counter :
  system_inv n s → callers s !! i = Some (ShutPush k) →
  core_senders (runtime s) !! k = None →
  system_inv n (mkSystem (<[i := ShutWon]> (callers s)) counter (runtime s) (taken s)).
Proof.
  intros (Hl1 & Hl2 & Hn & Hok & Hst) Hi Hq. unfold system_inv; simpl.
  split_and!; try done; [by apply Forall_insert|].
  destruct (state (runtime s)); try done.
  { destruct Hst as [Hno _]. specialize (Hno _ _ Hi). done. }
  destruct Hst as (k' & Hk' & Hone & Hz).
  destruct (one_winner_moves n k' n _ i (ShutPush k) ShutWon Hone Hi) as [Hone' Heq]; [done..|].
  injection Heq as <-. apply lookup_ge_None in Hq. assert (k = n) as -> by lia. eauto.
Qed.

Lemma cas_succeeds n s i t counter :
  system_inv n s → callers s !! i = Some t → state (runtime s) = Running →
  system_inv n (mkSystem (<[i := ShutPush 0]> (callers s)) counter
                  (set_state (runtime s) ShuttingDown) (taken s)).
Proof.
  intros (Hl1 & Hl2 & Hn & Hok & Hst) Hi Hrun. rewrite Hrun in *. destruct Hst as [Hno Hz].
  unfold system_inv; simpl. split_and!; try done.
  - apply Forall_insert; [|done]. eapply Forall_impl; [exact Hok|]. by intros [].
  - exists 0%nat. split_and!; [lia|by eapply one_winner_starts|]. intros j. by rewrite Hz.
Qed.

Ltac quiet := eapply quiet_move; try done; try (simpl; by rewrite ?length_insert).

Lemma system_step_inv n s s' : (0 < n)%nat → system_inv n s → system_step s s' → system_inv n s'.
Proof.
  intros Hpos Hinv Hstep. pose proof Hinv as (Hl1 & Hl2 & Hn & Hok & Hst).
  destruct Hstep as [s i t t' counter' rt' Hi Hstep|s j q m q' ms Hq Hpop Htk].
  2: { unfold system_inv; simpl. rewrite !length_insert. split_and!; try done.
       destruct (state (runtime s)); try done.
       - destruct Hst as [? Hz]. split; [done|]. intros j'. by erewrite shutdowns_take.
       - destruct Hst as (k & ? & ? & Hz). exists k. split_and!; try done.
         intros j'. by erewrite shutdowns_take. }
  destruct t as [fut|fut|id fut|core id fut| | | |k|r| | |e]; simpl in Hstep; try done.
  - injection Hstep as <- <- <-. quiet; by case_decide.
  - injection Hstep as <- <- <-. quiet.
  - injection Hstep as <- <- <-. quiet. simpl. apply Z.mod_pos_bound. lia.
  - unfold push_to in Hstep. destruct (core_senders (runtime s) !! Z.to_nat core) as [q|] eqn:Hq; try done.
    injection Hstep as <- <- <-. quiet; simpl.
    intros j. rewrite (shutdowns_push _ _ _ _ _ _ Hq). simpl. case_decide; lia.
  - injection Hstep as <- <- <-. quiet; case_decide as Hd; try done.
    destruct (state (runtime s)); by destruct Hd.
  - case_decide as Hrun; injection Hstep as <- <- <-; [by eapply cas_succeeds|].
    quiet. simpl. by destruct (state (runtime s)).
  - injection Hstep as <- <- <-.
    assert (state (runtime s) = ShuttingDown) as Hsd.
    { rewrite Forall_lookup in Hok. exact (Hok _ _ Hi). }
    rewrite decide_True by auto. quiet.
  - destruct (core_senders (runtime s) !! k) as [q|] eqn:Hq; injection Hstep as <- <- <-.
    + by apply winner_pushes.
    + by eapply winner_returns.
Qed.

Lemma system_reachable_inv n s s' :
  (0 < n)%nat → system_inv n s → rtc system_step s s' → system_inv n s'.
Proof. intros Hpos Hinv Hr. induction Hr; eauto using system_step_inv. Qed.

Lemma initial_system_inv ts counter rt :
  rt_wf rt → state rt = Running → Forall (λ q, seg_elems q = []) (core_senders rt) →
  Forall (λ t, ∃ fut, t = SpawnLoad fut ∨ t = ShutLoad) ts →
  system_inv (length (core_senders rt))
    (mkSystem ts counter rt (replicate (length (core_senders rt)) [])).
Proof.
  intros (_ & Hlen & _) Hrun Hempty Hts. unfold system_inv; simpl. rewrite Hrun.
  split_and!; [done|by rewrite length_replicate|done| | |].
  - eapply Forall_impl; [exact Hts|]. by intros t [fut [-> | ->]].
  - intros i t Hi. rewrite Forall_lookup in Hts. by destruct (Hts _ _ Hi) as [fut [-> | ->]].
  - intros j. unfold shutdowns. destruct (core_senders rt !! j) as [q|] eqn:Hq; simpl.
    + rewrite Forall_lookup in Hempty. rewrite (Hempty _ _ Hq).
      destruct (replicate _ [] !! j) as [l|] eqn:Hj; [|done].
      by apply lookup_replicate in Hj as [-> _].
    + destruct (replicate _ [] !! j) as [l|] eqn:Hj; [|done].
      by apply lookup_replicate in Hj as [-> _].
Qed.

Lemma caller_moves s i s' t t' counter rt :
  callers s !! i = Some t → caller_step t (sys_counter s) (runtime s) = Some (t', counter, rt) →
  s' = mkSystem (<[i := t']> (callers s)) counter rt (taken s) → system_step s s'.
Proof. intros Hi Hstep ->. by econstructor. Qed.

(** [spawn] reads [Running], then [shutdown] runs, then [spawn] goes on. *)
Lemma race_interleaving fut (q : Q) :
  seg_elems q = [] →
  ∃ q', rtc system_step
    (mkSystem [SpawnLoad fut; ShutLoad] 1 (mkMultiCoreRuntime 1 [q] Running 0) [[]])
    (mkSystem [Spawned (Ok 1); ShutWon] 2 (mkMultiCoreRuntime 1 [q'] ShuttingDown 1) [[]]) ∧
    seg_elems q' = [CoreShutdown; CoreTask 1 fut].
Proof.
  intros Hq. exists (seg_push (CoreTask 1 fut) (seg_push CoreShutdown q)). split.
  2: { by rewrite !seg_push_elems, Hq. }
  set (S ts k q st nx := mkSystem ts k (mkMultiCoreRuntime 1 [q] st nx) [[]] : system Q G).
  apply rtc_l with (S [SpawnId fut; ShutLoad] 1 q Running 0).
  { eapply (caller_moves _ 0); reflexivity. }
  apply rtc_l with (S [SpawnId fut; ShutCas] 1 q Running 0).
  { eapply (caller_moves _ 1); reflexivity. }
  apply rtc_l with (S [SpawnId fut; ShutPush 0] 1 q ShuttingDown 0).
  { eapply (caller_moves _ 1); reflexivity. }
  apply rtc_l with (S [SpawnId fut; ShutPush 1] 1 (seg_push CoreShutdown q) ShuttingDown 0).
  { eapply (caller_moves _ 1); reflexivity. }
  apply rtc_l with (S [SpawnId fut; ShutWon] 1 (seg_push CoreShutdown q) ShuttingDown 0).
  { eapply (caller_moves _ 1); reflexivity. }
  apply rtc_l with (S [SpawnCore 1 fut; ShutWon] 2 (seg_push CoreShutdown q) ShuttingDown 0).
  { eapply (caller_moves _ 0); reflexivity. }
  apply rtc_l with (S [SpawnPush 0 1 fut; ShutWon] 2 (seg_push CoreShutdown q) ShuttingDown 1).
  { eapply (caller_moves _ 0); reflexivity. }
  apply rtc_once. eapply (caller_moves _ 0); reflexivity.
Qed.

End system_props.

(** ** A call that runs alone *)

Section solo.
Context {Q G : Type} `{SegQueueLaws Q (CoreMessage G)}.
Implicit Types (t : caller G) (rt : MultiCoreRuntime Q).

(** A thread runs, undisturbed, until it has returned. *)
Fixpoint caller_run (fuel : nat) t (counter : Z) rt : outcome (caller G * Z * MultiCoreRuntime Q) :=
  match caller_step t counter rt with
  | None => Ret (t, counter, rt)
  | Some (t, counter, rt) =>
      match fuel with
      | O => NoFuel
      | S fuel => caller_run fuel t counter rt
      end
  end.

Definition shut_result t : option (result unit RuntimeError) :=
  match t with
  | ShutWon | ShutSeen => Some (Ok tt)
  | ShutFailed e => Some (Err e)
  | _ => None
  end.

(** The loop over the senders, from the [k]th on. *)
Lemma caller_run_push k counter rt fuel :
  (length (core_senders rt) - k < fuel)%nat →
  caller_run fuel (ShutPush k) counter rt =
    Ret (ShutWon, counter,
         set_senders rt (take k (core_senders rt) ++
                         (seg_push CoreShutdown <$> drop k (core_senders rt)))).
Proof.
  remember (length (core_senders rt) - k)%nat as n eqn:Hn. revert k rt fuel Hn.
  induction n as [|n IH]; intros k rt fuel Hn Hf; destruct fuel as [|fuel]; try lia.
  - cbn [caller_run caller_step].
    rewrite (lookup_ge_None_2 (core_senders rt) k) by lia. destruct fuel; cbn [caller_run caller_step].
    all: rewrite take_ge, drop_ge by lia; simpl; rewrite app_nil_r; by destruct rt.
  - destruct (lookup_lt_is_Some_2 (core_senders rt) k) as [q Hq]; [lia|].
    cbn [caller_run caller_step]. rewrite Hq.
    rewrite IH; [|cbn [set_senders core_senders]; rewrite length_insert; lia|lia].
    cbn [set_senders core_senders num_cores state next_core]. unfold set_senders; simpl. do 3 f_equal.
    rewrite (take_S_r _ _ (seg_push CoreShutdown q)).
    2: { apply list_lookup_insert_eq. lia. }
    rewrite take_insert_ge, drop_insert_lt by lia. rewrite <-app_assoc. f_equal.
    by rewrite (drop_S _ _ _ Hq).
Qed.

End solo.

(** ** Claims *)

Section multicore_claims.
Context {Q G W B : Type} `{SegQueueLaws Q (CoreMessage G)} `{IoProviderLaws B}.
Context (fut_poll : G → W → polled unit * G * W).
Implicit Types (c : CpuCore Q G B) (rt : MultiCoreRuntime Q).

(** One call of [process_messages] takes exactly the first messages of
    the inbox, at most 32 and none after a [Shutdown]; it leaves the rest in
    order, queues the tasks among them behind those already there, less those
    cancelled, and sets the shutdown flag exactly when it took a [Shutdown]. *)
Theorem process_messages_batch c :
  let ms := batch 32 (seg_elems (message_inbox c)) in
  let '(any, c') := process_messages c in
  any = negb (bool_decide (ms = [])) ∧
  seg_elems (message_inbox c') = drop (length ms) (seg_elems (message_inbox c)) ∧
  task_queue c' = apply_messages ms (task_queue c) ∧
  local_task_count c' = (local_task_count c + count_tasks ms)%nat ∧
  (shutdown_flag c' = true ↔ shutdown_flag c = true ∨ CoreShutdown ∈ ms).
Proof.
  cbv zeta. unfold process_messages. pose proof (message_loop_spec 32 0 c) as Hspec. cbv zeta in Hspec.
  destruct (message_loop 32 0 c) as [n c']. destruct Hspec as (-> & ? & ? & ? & ? & _).
  split_and!; try done. by destruct (batch 32 (seg_elems (message_inbox c))).
Qed.

(** With 16 or more tasks queued, [execute_tasks] polls the first 16 once
    each, in order, moves those still pending to the end of the queue in that
    order, and counts off the finished ones: the queue is served in turn. *)
Theorem execute_tasks_round_robin c w first rest alive w' :
  task_queue c = first ++ rest → length first = 16%nat →
  (length (task_queue c) ≤ local_task_count c)%nat →
  poll_each fut_poll first w = Ret (alive, w') →
  execute_tasks fut_poll c w =
    Ret (true, set_queue c (rest ++ alive) (local_task_count c - (16 - length alive)), w').
Proof.
  intros Hq Hl Hlen Hp. unfold execute_tasks.
  destruct (task_loop_poll_each fut_poll first rest 0 c w alive w' Hq Hlen Hp) as [Heq _].
  rewrite Hl in Heq. by rewrite Heq.
Qed.

(** A core's thread never panics on its own account: whatever messages
    it is sent, in any number of turns, its task counter does not go below
    zero, so only a panic of a future can end the loop of [run] that way. *)
Theorem core_run_no_panic id backend now inputs w :
  (∀ g w, (fut_poll g w).1.1 ≠ PPanicked) →
  core_run fut_poll inputs (CpuCore_new id backend now : CpuCore Q G B) w ≠ Panic.
Proof.
  intros Hsafe. assert (core_inv (CpuCore_new id backend now : CpuCore Q G B)) as Hinv.
  { unfold core_inv; simpl. lia. }
  revert Hinv. generalize (CpuCore_new id backend now : CpuCore Q G B). intros c. revert c w.
  induction inputs as [|ms inputs IH]; intros c w Hinv; cbn [core_run];
    destruct (shutdown_flag c); try done.
  assert (core_inv (set_inbox c (seg_push_all ms (message_inbox c)))) as Hinv1 by exact Hinv.
  apply process_messages_inv in Hinv1. unfold core_turn, execute_tasks.
  destruct (process_messages _) as [any c1]. simpl in Hinv1.
  destruct (task_loop_no_panic fut_poll 16 0 c1 w Hsafe Hinv1) as (n & c2 & w2 & Hl). rewrite Hl. simpl.
  destruct (process_io c2) as [io c3] eqn:Hio. simpl. apply IH.
  unfold process_io in Hio. destruct (poll_complete (core_io c2)) as [p b].
  injection Hio as <- <-. by destruct (task_loop_inv fut_poll _ _ _ _ _ _ _ Hinv1 Hl).
Qed.

(** C10. Tasks are spread round robin: [k] calls of [spawn] on a running
    runtime of [n] cores all succeed with consecutive ids, give core [j]
    exactly the tasks whose turn it is, in order, behind what its inbox
    already held, and so each core gets [k/n] of them or one more. *)
Theorem spawn_round_robin futs counter rt :
  rt_wf rt → state rt = Running → 0 ≤ counter →
  counter + Z.of_nat (length futs) < 2 ^ 64 → next_core rt + Z.of_nat (length futs) < 2 ^ 64 →
  let k := Z.of_nat (length futs) in
  ∃ rt', spawn_many futs counter rt = Ret (Ok <$> seqZ counter k, counter + k, rt') ∧
    ∀ (j : nat) q, core_senders rt !! j = Some q →
      let ms := assigned (num_cores rt) (Z.of_nat j) (next_core rt) counter futs in
      (∃ q', core_senders rt' !! j = Some q' ∧ seg_elems q' = seg_elems q ++ ms) ∧
      k / num_cores rt ≤ Z.of_nat (length ms) ≤ k / num_cores rt + 1.
Proof.
  intros Hwf Hrun Hc Hb1 Hb2 k.
  destruct (spawn_many_spec futs counter rt Hwf Hrun Hc Hb1 Hb2) as (rt' & Hs & _ & Hel).
  exists rt'. split; [done|]. intros j q Hq. split; [by apply Hel|].
  apply assigned_balanced; destruct Hwf as (? & Hl & _); [lia|].
  apply lookup_lt_Some in Hq. lia.
Qed.

(** C2. However the actions of any number of concurrent [spawn] and
    [shutdown] calls interleave with each other and with cores taking messages,
    no [shutdown] call fails and no core is ever sent more than one [Shutdown];
    once all calls have returned and one of them was a [shutdown], every core
    has been sent exactly one. *)
Theorem shutdown_exactly_once (ts : list (caller G)) counter rt (s : system Q G) :
  rt_wf rt → state rt = Running →
  Forall (λ q, seg_elems q = []) (core_senders rt) →
  Forall (λ t, ∃ fut, t = SpawnLoad fut ∨ t = ShutLoad) ts →
  rtc system_step (mkSystem ts counter rt (replicate (length (core_senders rt)) [])) s →
  (∀ i e, callers s !! i ≠ Some (ShutFailed e)) ∧
  (∀ j, (shutdowns (taken s) (core_senders (runtime s)) j ≤ 1)%nat) ∧
  (Forall (λ t, caller_step t (sys_counter s) (runtime s) = None) (callers s) →
   (∃ i, callers s !! i = Some ShutWon ∨ callers s !! i = Some ShutSeen) →
   ∀ j, (j < length (core_senders rt))%nat →
     shutdowns (taken s) (core_senders (runtime s)) j = 1%nat).
Proof.
  intros Hwf Hrun Hempty Hts Hr. set (n := length (core_senders rt)).
  assert (system_inv n s) as (Hl1 & _ & _ & Hok & Hst).
  { eapply (system_reachable_inv n _ s); [|by apply initial_system_inv|exact Hr].
    destruct Hwf as (? & ? & _). unfold n. lia. }
  rewrite Forall_lookup in Hok. split_and!.
  - intros i e Hi. exact (Hok _ _ Hi).
  - intros j. destruct (state (runtime s)); try done.
    + destruct Hst as [_ ->]. lia.
    + destruct Hst as (k & _ & _ & ->). case_match; lia.
  - intros Hdone [i Hi] j Hj. rewrite Forall_lookup in Hdone.
    destruct (state (runtime s)) eqn:Hstate; try done.
    + destruct Hst as [Hno _]. exfalso. destruct Hi as [Hi|Hi]; [by specialize (Hno _ _ Hi)|].
      specialize (Hok _ _ Hi). by simpl in Hok.
    + destruct Hst as (k & _ & (iw & tw & Hiw & Hpw & _) & ->). specialize (Hdone _ _ Hiw).
      assert (k = n) as ->.
      { destruct tw; simpl in Hpw, Hdone; try done; [by case_match|by injection Hpw]. }
      by rewrite (proj2 (Nat.ltb_lt j n)).
Qed.

(** C34. A task can be lost to a concurrent [shutdown]: there is an
    interleaving of one [spawn] and one [shutdown] in which [spawn] reports
    success and puts the task behind the [Shutdown] message, and the core that
    takes these messages stops without ever polling it. *)
Theorem spawn_shutdown_race fut q backend now w :
  seg_elems q = [] →
  (∃ q', rtc system_step
    (mkSystem [SpawnLoad fut; ShutLoad] 1 (mkMultiCoreRuntime 1 [q] Running 0) [[]])
    (mkSystem [Spawned (Ok 1); ShutWon] 2 (mkMultiCoreRuntime 1 [q'] ShuttingDown 1) [[]]) ∧
    seg_elems q' = [CoreShutdown; CoreTask 1 fut]) ∧
  ∃ c', core_run fut_poll [[CoreShutdown; CoreTask 1 fut]] (CpuCore_new 0 backend now : CpuCore Q G B) w
      = Ret (Ok tt, c', w) ∧
    task_queue c' = [] ∧ seg_elems (message_inbox c') = [CoreTask 1 fut].
Proof.
  intros Hq. split; [by apply race_interleaving|].
  destruct (core_stops fut_poll [CoreTask 1 fut] (CpuCore_new 0 backend now : CpuCore Q G B) w)
    as (c' & ? & ? & ? & _); [done|apply seg_new_elems|done|by exists c'].
Qed.

(** A [shutdown] call that runs alone has the effect and the result of
    the function [shutdown], whatever the state of the runtime. *)
Theorem shutdown_solo counter rt :
  ∃ fuel t, caller_run fuel ShutLoad counter rt = Ret (t, counter, (shutdown rt).2) ∧
    shut_result (G:=G) t = Some (shutdown rt).1.
Proof.
  destruct rt as [n qs st nx]. unfold shutdown; cbn [state]. destruct st.
  - exists 3%nat, (ShutFailed (TaskFailed "Failed to initiate shutdown")). by split.
  - exists (2 + S (length qs))%nat, ShutWon. split; [|done].
    transitivity (caller_run (G:=G) (S (length qs)) (ShutPush 0) counter
                    (mkMultiCoreRuntime n qs ShuttingDown nx)); [done|].
    rewrite caller_run_push by (simpl; lia). done.
  - exists 1%nat, ShutSeen. by split.
  - exists 1%nat, ShutSeen. by split.
Qed.

End multicore_claims.

(** ** Two facts about the messages themselves *)

(** [ping_all] puts the pings of core [i] into the inbox of core [i] itself. *)
Lemma ping_all_to_self {Q G} `{SegQueueLaws Q (CoreMessage G)} (rt : MultiCoreRuntime Q) (i : nat) q :
  core_senders rt !! i = Some q →
  ∃ q', core_senders (ping_all rt).2 !! i = Some q' ∧
    ∃ k, seg_elems q' = seg_elems q ++ replicate k (CorePing (Z.of_nat i)).
Proof.
  intros Hq. simpl. rewrite list_lookup_imap, Hq. simpl. eexists. split; [done|].
  unfold ping_from. generalize (seqZ 0 (num_cores rt)). intros l. clear Hq. revert q.
  induction l as [|x l IH]; intros q; simpl.
  - exists 0%nat. by rewrite app_nil_r.
  - destruct (Z.of_nat i =? x); [apply IH|].
    destruct (IH (seg_push (CorePing (Z.of_nat i)) q)) as [k Hk]. exists (S k).
    by rewrite Hk, seg_push_elems, <-app_assoc.
Qed.

(** Cancelling a queued task does not take it off the core's task counter. *)
Lemma cancel_keeps_count {Q G B} `{SegQueueLaws Q (CoreMessage G)} (c : CpuCore Q G B) id fut :
  task_queue c = [mkTask id fut] →
  task_queue (core_message (CoreCancelTask id) c).2 = [] ∧
  local_task_count (core_message (CoreCancelTask id) c).2 = local_task_count c.
Proof.
  intros Hq. simpl. rewrite Hq. split; [|done]. rewrite filter_cons_False; [done|].
  intros Hne. by apply Hne.
Qed.

(** ** Witnesses *)

Definition core_demo_poll (n : nat) (w : nat) : polled unit * nat * nat :=
  match n with
  | O => (PReady tt, n, S w)
  | S m => (PPending, m, S w)
  end.

Abbreviation core_demo := (CpuCore (list (CoreMessage nat)) nat DummyIoBackend).

Definition core_demo0 (tq : list (Task nat)) (inbox : list (CoreMessage nat)) : core_demo :=
  mkCpuCore 0 tq inbox (Timer.new 4 1 0) Dummy false (length tq).

Lemma process_messages_batch_witness :
  let c := core_demo0 [mkTask 9 0%nat] [CoreTask 1 5%nat; CoreCancelTask 9; CoreShutdown; CorePing 0] in
  let ms := batch 32 (seg_elems (message_inbox c)) in
  let '(any, c') := process_messages c in
  any = negb (bool_decide (ms = [])) ∧
  seg_elems (message_inbox c') = drop (length ms) (seg_elems (message_inbox c)) ∧
  task_queue c' = apply_messages ms (task_queue c) ∧
  local_task_count c' = (local_task_count c + count_tasks ms)%nat ∧
  (shutdown_flag c' = true ↔ shutdown_flag c = true ∨ CoreShutdown ∈ ms).
Proof.
  exact (process_messages_batch
    (core_demo0 [mkTask 9 0%nat] [CoreTask 1 5%nat; CoreCancelTask 9; CoreShutdown; CorePing 0])).
Defined.

Definition demo_tasks (k : nat) : list (Task nat) := (λ i, mkTask (Z.of_nat i) (i `mod` 2)%nat) <$> seq 0 k.

Lemma execute_tasks_round_robin_witness :
  ∃ alive w', poll_each core_demo_poll (demo_tasks 16) 0%nat = Ret (alive, w') ∧
    execute_tasks core_demo_poll (core_demo0 (demo_tasks 16 ++ [mkTask 99 3%nat]) []) 0%nat =
      Ret (true, set_queue (core_demo0 (demo_tasks 16 ++ [mkTask 99 3%nat]) [])
                   ([mkTask 99 3%nat] ++ alive) (17 - (16 - length alive)), w').
Proof.
  eexists _, _. split; [vm_compute; reflexivity|].
  apply (execute_tasks_round_robin core_demo_poll (core_demo0 (demo_tasks 16 ++ [mkTask 99 3%nat]) [])
           0%nat (demo_tasks 16) [mkTask 99 3%nat]); vm_compute; [reflexivity|reflexivity|lia|reflexivity].
Defined.

Lemma core_demo_poll_safe n w : (core_demo_poll n w).1.1 ≠ PPanicked.
Proof. by destruct n. Qed.

Lemma core_run_no_panic_witness :
  core_run core_demo_poll [[CoreTask 1 2%nat; CoreCancelTask 1; CoreTask 2 0%nat]; [CoreShutdown]]
    (CpuCore_new 0 Dummy 0 : core_demo) 0%nat ≠ Panic.
Proof.
  exact (core_run_no_panic core_demo_poll 0 Dummy 0
    [[CoreTask 1 2%nat; CoreCancelTask 1; CoreTask 2 0%nat]; [CoreShutdown]] 0%nat core_demo_poll_safe).
Defined.

Definition rt_demo : MultiCoreRuntime (list (CoreMessage nat)) :=
  mkMultiCoreRuntime 3 [[]; []; []] Running 1.

Lemma rt_demo_wf : rt_wf rt_demo.
Proof. unfold rt_wf; simpl. lia. Qed.

Lemma spawn_round_robin_witness :
  ∃ rt', spawn_many [10; 11; 12; 13]%nat 1 rt_demo = Ret (Ok <$> seqZ 1 4, 1 + 4, rt').
Proof.
  destruct (spawn_round_robin [10; 11; 12; 13]%nat 1 rt_demo rt_demo_wf eq_refl) as (rt' & Hs & _);
    [lia|simpl; lia|simpl; lia|]. exists rt'. exact Hs.
Defined.

Definition rt_demo1 : MultiCoreRuntime (list (CoreMessage nat)) := mkMultiCoreRuntime 1 [[]] Running 0.

(** The interleaving in which [shutdown] overtakes [spawn]. *)
Lemma shutdown_exactly_once_witness :
  ∃ q' : list (CoreMessage nat), shutdowns [[]] [q'] 0 = 1%nat.
Proof.
  pose proof (race_interleaving 5%nat ([] : list (CoreMessage nat))) as Hrace.
  destruct (Hrace eq_refl) as (q' & Hr & _). exists q'.
  assert (rt_wf rt_demo1) as Hwf by (unfold rt_wf; simpl; lia).
  destruct (shutdown_exactly_once [SpawnLoad 5%nat; ShutLoad] 1 rt_demo1 _ Hwf eq_refl
              ltac:(repeat constructor)
              ltac:(constructor; [exists 5%nat; left; reflexivity|
                    constructor; [exists 5%nat; right; reflexivity|constructor]]) Hr)
    as (_ & _ & Hall).
  apply Hall; [repeat constructor|exists 1%nat; left; reflexivity|simpl; lia].
Defined.

Lemma spawn_shutdown_race_witness :
  ∃ c', core_run core_demo_poll [[CoreShutdown; CoreTask 1 5%nat]]
      (CpuCore_new 0 Dummy 0 : core_demo) 0%nat = Ret (Ok tt, c', 0%nat) ∧
    task_queue c' = [] ∧ seg_elems (message_inbox c') = [CoreTask 1 5%nat].
Proof.
  exact (proj2 (spawn_shutdown_race core_demo_poll 5%nat ([] : list (CoreMessage nat)) Dummy 0 0%nat eq_refl)).
Defined.

Lemma shutdown_solo_witness :
  ∃ fuel t, caller_run (G:=nat) fuel ShutLoad 1 rt_demo = Ret (t, 1, (shutdown rt_demo).2) ∧
    shut_result (G:=nat) t = Some (shutdown rt_demo).1.
Proof. exact (shutdown_solo 1 rt_demo). Defined.
