(* ===== verification/MulticoreLive.v ===== *)
(** * A core finishes its tasks (src/multicore.rs)

    Under [spawn] and the loop of [CpuCore::run] together: futures that finish
    after finitely many polls are finished on the core they were sent to, in a
    bounded number of turns, and the thread then stops when it is told to. *)

From S2P Require Import Prelude Interfaces Waker Task Timer Io Multicore MulticoreProps.

Section live.
Context {Q G W B : Type} `{SegQueueLaws Q (CoreMessage G)} `{IoProviderLaws B}.
Context (fut_poll : G → W → polled unit * G * W).
Implicit Types (c : CpuCore Q G B) (ms : list (CoreMessage G)) (ts : list (Task G)).

(** Each poll of a future finishes it or brings it closer to its end; [finished]
    is the weight of the futures that have finished. *)
Variable rank : G → nat.
Variable weight : G → nat.
Variable finished : W → nat.

Definition ranked : Prop := ∀ g w,
  match fut_poll g w with
  | (PReady _, _, w') => finished w' = (weight g + finished w)%nat
  | (PPending, g', w') => (rank g' < rank g)%nat ∧ weight g' = weight g ∧ finished w' = finished w
  | (PPanicked, _, _) => False
  end.

(** The polls the tasks still need, at most. *)
Definition task_work ts : nat := sum_list_with (λ t, S (rank (future t))) ts.

#[local] Arguments task_work ts : simpl never.

Definition message_work (m : CoreMessage G) : nat :=
  match m with CoreTask _ fut => S (rank fut) | _ => 1 end.

Definition core_work c : nat :=
  (task_work (task_queue c) + sum_list_with message_work (seg_elems (message_inbox c)))%nat.

(** The weight of the tasks the core has, in its queue and its inbox. *)
Definition task_weight ts : nat := sum_list_with (λ t, weight (future t)) ts.

Definition message_weight (m : CoreMessage G) : nat :=
  match m with CoreTask _ fut => weight fut | _ => 0 end.

Definition core_tasks c : nat :=
  (task_weight (task_queue c) + sum_list_with message_weight (seg_elems (message_inbox c)))%nat.

#[local] Arguments task_weight ts : simpl never.

(** The messages [spawn] and [ping_all] send. *)
Definition plain_message (m : CoreMessage G) : Prop :=
  match m with CoreTask _ _ | CorePing _ => True | CoreShutdown | CoreCancelTask _ => False end.

(** The core counts exactly the tasks it has, and nobody has told it to stop. *)
Definition serving c : Prop :=
  local_task_count c = length (task_queue c) ∧ shutdown_flag c = false ∧
  Forall plain_message (seg_elems (message_inbox c)).

Lemma task_work_snoc ts t : task_work (ts ++ [t]) = (task_work ts + S (rank (future t)))%nat.
Proof. unfold task_work. rewrite sum_list_with_app. cbn. lia. Qed.

Lemma task_work_cons t ts : task_work (t :: ts) = (S (rank (future t)) + task_work ts)%nat.
Proof. done. Qed.

Lemma task_weight_snoc ts t : task_weight (ts ++ [t]) = (task_weight ts + weight (future t))%nat.
Proof. unfold task_weight. rewrite sum_list_with_app. cbn. lia. Qed.

Lemma task_weight_cons t ts : task_weight (t :: ts) = (weight (future t) + task_weight ts)%nat.
Proof. done. Qed.

(** ** One turn *)

Lemma count_tasks_app ms ms' : count_tasks (ms ++ ms') = (count_tasks ms + count_tasks ms')%nat.
Proof. induction ms as [|[] ms IH]; cbn; [done|..]; by rewrite IH. Qed.

Lemma batch_plain budget ms : Forall plain_message ms → batch budget ms = take budget ms.
Proof.
  intros Hp. revert budget. induction Hp as [|m ms Hm _ IH]; intros [|budget]; try done.
  destruct m; try done; cbn; by rewrite IH.
Qed.

(** Taking messages moves their work to the queue. *)
Lemma apply_messages_work ms ts :
  Forall plain_message ms →
  (task_work (apply_messages ms ts) ≤ task_work ts + sum_list_with message_work ms)%nat ∧
  length (apply_messages ms ts) = (length ts + count_tasks ms)%nat ∧
  task_weight (apply_messages ms ts) = (task_weight ts + sum_list_with message_weight ms)%nat ∧
  (apply_messages ms ts = [] → task_work ts + sum_list_with message_work ms = length ms)%nat.
Proof.
  intros Hp. revert ts. induction Hp as [|m ms Hm _ IH]; intros ts; cbn.
  { split_and!; [lia..|]. by intros ->. }
  destruct m as [id fut|from| |id]; try done.
  - destruct (IH (ts ++ [mkTask id fut])) as (Hw & Hl & Hwt & He).
    rewrite task_work_snoc in Hw, He. rewrite task_weight_snoc in Hwt.
    rewrite length_app in Hl. cbn in *. split_and!; [lia..|]. intros Hnil. rewrite Hnil in Hl. cbn in Hl. lia.
  - destruct (IH ts) as (Hw & Hl & Hwt & He). cbn in *. split_and!; [lia..|]. intros Hnil. specialize (He Hnil). lia.
Qed.

(** The task loop, from a queue with work to do, does some of it. *)
Lemma task_loop_work budget n c w :
  ranked → local_task_count c = length (task_queue c) →
  ∃ n' c' w', task_loop fut_poll budget n c w = Ret (n', c', w') ∧
    local_task_count c' = length (task_queue c') ∧
    (finished w' + task_weight (task_queue c') = finished w + task_weight (task_queue c))%nat ∧
    (task_work (task_queue c') + (if decide (task_queue c = []) then 0 else Nat.min 1 budget)
       ≤ task_work (task_queue c))%nat ∧
    message_inbox c' = message_inbox c ∧ shutdown_flag c' = shutdown_flag c.
Proof.
  intros Hrank. revert n c w. induction budget as [|budget IH]; intros n c w Hn; cbn [task_loop].
  { exists n, c, w. split_and!; try done. destruct (decide _); cbn; lia. }
  destruct (task_queue c) as [|t rest] eqn:Hq.
  { exists n, c, w. rewrite Hq. split_and!; try done; destruct (decide _); cbn; try done; lia. }
  rewrite decide_False by done. pose proof (Hrank (future t) w) as Hr.
  destruct (fut_poll (future t) w) as [[[u| |] fut] w1]; [| |done].
  - cbn in Hn. rewrite Hn.
    destruct (IH (S n) (set_queue c rest (length rest)) w1) as (n' & c' & w' & Hl & Hn' & Hfin & Hw & Hi & Hs); [done|].
    exists n', c', w'. rewrite task_work_cons, task_weight_cons. cbn in *.
    split_and!; try done; [lia|]. destruct (decide _); lia.
  - set (c1 := set_queue c (rest ++ [mkTask (task_id t) fut]) (local_task_count c)).
    destruct (IH (S n) c1 w1) as (n' & c' & w' & Hl & Hn' & Hfin & Hw & Hi & Hs).
    { cbn. rewrite Hn, length_app. cbn. lia. }
    exists n', c', w'. cbn [c1 set_queue task_queue] in Hw, Hfin.
    rewrite task_work_snoc in Hw. rewrite task_weight_snoc in Hfin. rewrite task_work_cons, task_weight_cons.
    cbn in *. split_and!; try done; [lia|]. destruct (decide _); lia.
Qed.

(** Taking the messages of a turn: no work is lost, and messages that bring no
    task are work done. *)
Lemma process_messages_work c :
  serving c →
  let c' := (process_messages c).2 in
  serving c' ∧ core_tasks c' = core_tasks c ∧ (core_work c' ≤ core_work c)%nat ∧
  (task_queue c' = [] → 0 < core_work c → core_work c' < core_work c)%nat.
Proof.
  intros (Hn & Hf & Hpl). unfold process_messages. pose proof (message_loop_spec 32 0 c) as Hspec.
  cbv zeta in *. destruct (message_loop 32 0 c) as [n c']. rewrite batch_plain in Hspec by done.
  set (inbox := seg_elems (message_inbox c)) in *. rewrite length_take in Hspec.
  destruct Hspec as (_ & Hin & Hq & Hc & Hsh & _). cbn [snd].
  assert (inbox = take 32 inbox ++ drop 32 inbox) as Hsplit by by rewrite take_drop.
  assert (drop (32 `min` length inbox) inbox = drop 32 inbox) as Hd.
  { destruct (decide (32 ≤ length inbox)%nat); [by rewrite Nat.min_l|].
    rewrite Nat.min_r by lia. rewrite !drop_ge by lia. done. }
  rewrite Hd in Hin. rewrite Hsplit in Hpl. apply Forall_app in Hpl as [Hpl1 Hpl2].
  destruct (apply_messages_work (take 32 inbox) (task_queue c) Hpl1) as (Hw & Hl & Hwt & He).
  assert (sum_list_with message_work inbox =
    sum_list_with message_work (take 32 inbox) + sum_list_with message_work (drop 32 inbox))%nat as Hsum.
  { rewrite Hsplit at 1. apply sum_list_with_app. }
  assert (sum_list_with message_weight inbox =
    sum_list_with message_weight (take 32 inbox) + sum_list_with message_weight (drop 32 inbox))%nat as Hcnt.
  { rewrite Hsplit at 1. apply sum_list_with_app. }
  unfold serving, core_work, core_tasks in *. fold inbox.
  rewrite Hin, Hq, Hc, Hl, Hwt, Hsum, Hcnt, Hn in *. split_and!; [done| |done|lia|lia|].
  - apply not_true_is_false. intros [?|Hs]%Hsh; [congruence|].
    rewrite Forall_forall in Hpl1. exact (Hpl1 _ Hs).
  - intros Hnil Hpos. specialize (He Hnil). rewrite Hnil. rewrite length_take in He.
    change (task_work []) with 0%nat. destruct inbox as [|m inbox]; cbn in *; lia.
Qed.

Lemma core_turn_work c w :
  ranked → serving c →
  ∃ any c' w', core_turn fut_poll c w = Ret (any, c', w') ∧ serving c' ∧
    (finished w' + core_tasks c' = finished w + core_tasks c)%nat ∧
    (core_work c' ≤ core_work c - 1)%nat.
Proof.
  intros Hrank Hs. unfold core_turn. pose proof (process_messages_work c Hs) as Hm. cbv zeta in Hm.
  destruct (process_messages c) as [b1 c1]. cbn [snd] in Hm. destruct Hm as ((Hn & Hf & Hpl) & Hct & Hle & Hlt).
  unfold execute_tasks.
  destruct (task_loop_work 16 0 c1 w Hrank Hn) as (n & c2 & w2 & -> & Hn2 & Hf2 & Hw2 & Hi2 & Hs2). cbn.
  unfold process_io. destruct (poll_complete (core_io c2)) as [p b].
  eexists _, _, _. split; [done|]. unfold serving, core_work, core_tasks in *. cbn. rewrite Hi2, Hs2.
  split; [done|]. split; [lia|]. destruct (decide (task_queue c1 = [])) as [Hnil|Hne]; cbn in Hw2; [specialize (Hlt Hnil)|]; lia.
Qed.

(** ** The loop *)

Lemma core_idle c : core_work c = 0%nat → serving c →
  task_queue c = [] ∧ seg_elems (message_inbox c) = [] ∧ local_task_count c = 0%nat.
Proof.
  unfold core_work. intros Hw (Hn & _). rewrite Hn.
  destruct (task_queue c) as [|t ts]; [|rewrite task_work_cons in Hw; lia].
  destruct (seg_elems (message_inbox c)) as [|m ms]; [done|].
  cbn in Hw. assert (0 < message_work m)%nat by (destruct m; cbn; lia). lia.
Qed.

Lemma core_run_work n c w :
  ranked → serving c → (core_work c ≤ n)%nat →
  ∃ k c1 w1, (k ≤ n)%nat ∧ serving c1 ∧ core_work c1 = 0%nat ∧
    (finished w1 + core_tasks c1 = finished w + core_tasks c)%nat ∧
    ∀ inputs, core_run fut_poll (replicate k [] ++ inputs) c w = core_run fut_poll inputs c1 w1.
Proof.
  intros Hrank. revert c w. induction n as [|n IH]; intros c w Hs Hle.
  { exists 0%nat, c, w. split_and!; [lia|done|lia|done..]. }
  destruct (decide (core_work c = 0%nat)) as [Hz|Hz].
  { exists 0%nat, c, w. by split_and!; [lia|..]. }
  destruct (core_turn_work c w Hrank Hs) as (any & c1 & w1 & Ht & Hs1 & Hc1 & Hlt).
  destruct (IH c1 w1 Hs1) as (k & c2 & w2 & Hk & Hs2 & Hz2 & Hc2 & Hrun); [lia|].
  exists (S k), c2, w2. split_and!; [lia|done|done|lia|]. intros inputs. cbn [replicate app core_run].
  destruct Hs as (_ & -> & _).
  assert (set_inbox c (seg_push_all [] (message_inbox c)) = c) as -> by by destruct c.
  rewrite Ht. apply Hrun.
Qed.

End live.

(** ** From [spawn] to the end of the tasks *)

(** A poll function that also counts the futures it finishes. *)
Definition counted {G W} (fut_poll : G → W → polled unit * G * W) (g : G) (s : W * nat)
    : polled unit * G * (W * nat) :=
  let '(res, g, w) := fut_poll g s.1 in
  (res, g, (w, match res with PReady _ => S s.2 | _ => s.2 end)).

Lemma counted_ranked {G W} (fut_poll : G → W → polled unit * G * W) (rank : G → nat) :
  (∀ g w, match fut_poll g w with
          | (PReady _, _, _) => True
          | (PPending, g', _) => (rank g' < rank g)%nat
          | (PPanicked, _, _) => False
          end) →
  ranked (counted fut_poll) rank (λ _, 1%nat) snd.
Proof.
  intros Hrank g [w0 n]. specialize (Hrank g w0). unfold counted. cbn.
  by destruct (fut_poll g w0) as [[[u| |] g'] w1].
Qed.

Lemma message_weight_one {G} (ms : list (CoreMessage G)) :
  sum_list_with (message_weight (λ _, 1%nat)) ms = count_tasks ms.
Proof. induction ms as [|[] ms IH]; simpl; [done|..]; by rewrite IH. Qed.

(** Futures with labels, and a world with a log of those that have finished. *)
Definition logs {L G W} (fut_poll : G → W → polled unit * G * W) (rank : G → nat) (label : G → L) (log : W → list L)
    : Prop := ∀ g w,
  match fut_poll g w with
  | (PReady _, _, w') => log w' = log w ++ [label g]
  | (PPending, g', w') => (rank g' < rank g)%nat ∧ label g' = label g ∧ log w' = log w
  | (PPanicked, _, _) => False
  end.

Definition occurrences {L} `{EqDecision L} (log : list L) (l : L) : nat := count_occ (λ x y, decide (x = y)) log l.

Definition has_label {L G} `{EqDecision L} (label : G → L) (l : L) (g : G) : nat := if decide (label g = l) then 1 else 0.

Lemma logs_ranked {L G W} `{EqDecision L} (fut_poll : G → W → polled unit * G * W) rank label log (l : L) :
  logs fut_poll rank label log → ranked fut_poll rank (has_label label l) (λ w, occurrences (log w) l).
Proof.
  intros Hlog g w. specialize (Hlog g w). unfold has_label, occurrences.
  destruct (fut_poll g w) as [[[u| |] g'] w']; [| |done].
  - rewrite Hlog, count_occ_app. cbn. destruct (decide (label g = l)); lia.
  - destruct Hlog as (Hr & -> & ->). done.
Qed.

(** A poll function for pairs of a label and a future, that keeps the log. *)
Definition labelled {L G W} (fut_poll : G → W → polled unit * G * W) (g : L * G) (s : W * list L)
    : polled unit * (L * G) * (W * list L) :=
  let '(res, fut, w) := fut_poll g.2 s.1 in
  (res, (g.1, fut), (w, match res with PReady _ => s.2 ++ [g.1] | _ => s.2 end)).

Lemma labelled_logs {L G W} (fut_poll : G → W → polled unit * G * W) (rank : G → nat) :
  (∀ g w, match fut_poll g w with
          | (PReady _, _, _) => True
          | (PPending, g', _) => (rank g' < rank g)%nat
          | (PPanicked, _, _) => False
          end) →
  logs (L:=L) (labelled fut_poll) (λ g, rank g.2) fst snd.
Proof.
  intros Hrank [l g] [w log]. specialize (Hrank g w). unfold labelled. cbn.
  by destruct (fut_poll g w) as [[[u| |] g'] w1].
Qed.

Definition future_work {G} (rank : G → nat) (ms : list (CoreMessage G)) : nat :=
  sum_list_with (message_work rank) ms.

Lemma assigned_plain {G} n j s counter (futs : list G) :
  Forall plain_message (assigned n j s counter futs) ∧
  count_tasks (assigned n j s counter futs) = length (assigned n j s counter futs).
Proof.
  revert s counter. induction futs as [|fut futs IH]; intros s counter; cbn; [done|].
  destruct (IH (s + 1) (counter + 1)) as [Hp Hc].
  destruct (s mod n =? j); cbn; [|done]. split; [by constructor|]. by rewrite Hc.
Qed.

(** Spawned tasks run to their end: when every poll of a future finishes it
    or brings it closer to its end, the futures given to [spawn] on a running
    runtime with empty inboxes are all finished by the core each was sent to,
    each exactly once, within as many turns of its loop as the futures may need
    polls; the core is then idle, with its task counter at zero, and its thread
    returns when the [Shutdown] comes. *)
Theorem spawned_tasks_finish {Q G W B} `{SegQueueLaws Q (CoreMessage G)} `{IoProviderLaws B}
    (fut_poll : G → W → polled unit * G * W) (rank : G → nat) futs counter (rt : MultiCoreRuntime Q)
    (backend : B) now w (j : nat) q :
  (∀ g w, match fut_poll g w with
          | (PReady _, _, _) => True
          | (PPending, g', _) => (rank g' < rank g)%nat
          | (PPanicked, _, _) => False
          end) →
  rt_wf rt → state rt = Running → 0 ≤ counter →
  counter + Z.of_nat (length futs) < 2 ^ 64 → next_core rt + Z.of_nat (length futs) < 2 ^ 64 →
  core_senders rt !! j = Some q → seg_elems q = [] →
  let ms := assigned (num_cores rt) (Z.of_nat j) (next_core rt) counter futs in
  ∃ ids counter' rt' q' k c' w',
    spawn_many futs counter rt = Ret (Ok <$> ids, counter', rt') ∧ core_senders rt' !! j = Some q' ∧
    (k ≤ future_work rank ms)%nat ∧
    core_run (counted fut_poll) (replicate k [] ++ [[CoreShutdown]])
      (set_inbox (CpuCore_new (Z.of_nat j) backend now) q') (w, 0%nat) = Ret (Ok tt, c', (w', length ms)) ∧
    task_queue c' = [] ∧ seg_elems (message_inbox c') = [] ∧ local_task_count c' = 0%nat.
Proof.
  intros Hrank Hwf Hrun Hc Hb1 Hb2 Hq Hel ms.
  destruct (spawn_many_spec futs counter rt Hwf Hrun Hc Hb1 Hb2) as (rt' & Hs & _ & Hspread).
  destruct (Hspread j q Hq) as (q' & Hq' & Hq'el). rewrite Hel in Hq'el. cbn in Hq'el. fold ms in Hq'el.
  destruct (assigned_plain (num_cores rt) (Z.of_nat j) (next_core rt) counter futs) as [Hpl Hcnt].
  fold ms in Hpl, Hcnt. set (c := set_inbox (CpuCore_new (Z.of_nat j) backend now) q' : CpuCore Q G B).
  pose proof (counted_ranked fut_poll rank Hrank) as Hr.
  assert (serving c) as Hserv by (split_and!; [done..|]; cbn; by rewrite Hq'el).
  destruct (core_run_work (counted fut_poll) rank (λ _, 1%nat) snd (core_work rank c) c (w, 0%nat) Hr Hserv)
    as (k & c1 & [w1 n1] & Hk & Hs1 & Hz1 & Hc1 & Hrun1); [done|].
  destruct (core_idle rank c1 Hz1 Hs1) as (Ht1 & Hi1 & Hn1).
  destruct (core_stops (counted fut_poll) [] c1 (w1, n1) Ht1 Hi1) as (c' & Hstop & Hend); [apply Hs1|].
  rewrite Hn1 in Hend.
  eexists _, _, rt', q', k, c', w1. split; [exact Hs|]. split; [done|]. split.
  { unfold core_work in Hk. cbn [c set_inbox CpuCore_new task_queue message_inbox] in Hk.
    by rewrite Hq'el in Hk. }
  split; [|done]. rewrite Hrun1, Hstop. repeat f_equal.
  unfold core_tasks in Hc1. rewrite Ht1, Hi1 in Hc1. cbn in Hc1. rewrite Hq'el, message_weight_one, Hcnt in Hc1. lia.
Qed.

Lemma spawned_tasks_finish_witness :
  ∃ ids counter' rt' q' k c' w',
    spawn_many [2; 0; 1; 3]%nat 1 rt_demo = Ret (Ok <$> ids, counter', rt') ∧ core_senders rt' !! 1%nat = Some q' ∧
    (k ≤ 7)%nat ∧
    core_run (counted core_demo_poll) (replicate k [] ++ [[CoreShutdown]])
      (set_inbox (CpuCore_new 1 Dummy 0 : core_demo) q') (0%nat, 0%nat) = Ret (Ok tt, c', (w', 2%nat)) ∧
    task_queue c' = [] ∧ seg_elems (message_inbox c') = [] ∧ local_task_count c' = 0%nat.
Proof.
  apply (spawned_tasks_finish core_demo_poll id [2; 0; 1; 3]%nat 1 rt_demo Dummy 0 0%nat 1%nat []).
  - intros [|n] w; cbn; [done|lia].
  - apply rt_demo_wf.
  - reflexivity.
  - lia.
  - cbn. lia.
  - cbn. lia.
  - reflexivity.
  - reflexivity.
Defined.
