(* ===== verification/MulticoreSystem.v ===== *)
(** * The life of a multi-core runtime (src/multicore.rs)

    [MultiCoreRuntime::new], threads that call [spawn], the core threads and at
    the end [shutdown] and [join], all together: a machine whose steps are the
    atomic actions of the callers and the turns of the cores' loops, driven by a
    schedule. A core's inbox is the queue its sender holds. A turn is one step: a
    message pushed while the core takes its messages is the same as one pushed
    before the turn when the core still takes it, and as one pushed after it
    when not. *)

From S2P Require Import Prelude Interfaces Waker Task Timer Io Multicore MulticoreProps MulticoreLive.

(** ** The machine *)

Inductive action := ACaller (i : nat) | ACore (j : nat).

#[export] Instance action_eq_dec : EqDecision action.
Proof. solve_decision. Defined.

(** How often a thread is scheduled. *)
Definition steps_of (a : action) (sched : list action) : nat := length (filter (a =.) sched).

Section machine.
Context {Q G W B : Type} `{SegQueue Q (CoreMessage G)} `{IoProvider B}.
Variable fut_poll : G → W → polled unit * G * W.

Record machine := mkMachine {
  m_callers : list (caller G);
  m_counter : Z;
  m_rt : MultiCoreRuntime Q;
  m_cores : list (CpuCore Q G B);
  m_world : W
}.

(** A thread that has returned does nothing more. *)
Definition caller_acts (i : nat) (m : machine) : machine :=
  match m_callers m !! i with
  | Some t =>
      match caller_step t (m_counter m) (m_rt m) with
      | Some (t', counter, rt) => mkMachine (<[i := t']> (m_callers m)) counter rt (m_cores m) (m_world m)
      | None => m
      end
  | None => m
  end.

(** One turn of the loop of [CpuCore::run], unless the loop has ended. *)
Definition core_acts (j : nat) (m : machine) : outcome machine :=
  match m_cores m !! j, core_senders (m_rt m) !! j with
  | Some c, Some q =>
      if shutdown_flag c then Ret m else
      '(_, c, w) ← core_turn fut_poll (set_inbox c q) (m_world m);
      Ret (mkMachine (m_callers m) (m_counter m)
             (set_senders (m_rt m) (<[j := message_inbox c]> (core_senders (m_rt m))))
             (<[j := c]> (m_cores m)) w)
  | _, _ => Ret m
  end.

Fixpoint m_run (sched : list action) (m : machine) : outcome machine :=
  match sched with
  | [] => Ret m
  | ACaller i :: sched => m_run sched (caller_acts i m)
  | ACore j :: sched => m ← core_acts j m; m_run sched m
  end.

End machine.
Arguments machine Q G W B : clear implicits.

(** ** Lists of cores *)

Lemma steps_of_cons a b sched :
  steps_of a (b :: sched) = ((if decide (a = b) then 1 else 0) + steps_of a sched)%nat.
Proof. unfold steps_of. rewrite filter_cons. by destruct (decide (a = b)). Qed.

Lemma sum_list_with_insert {A} (f : A → nat) l i x y :
  l !! i = Some x → (sum_list_with f (<[i := y]> l) + f x = sum_list_with f l + f y)%nat.
Proof.
  revert i. induction l as [|z l IH]; intros [|i] Hx; try done; simpl in *.
  - injection Hx as ->. lia.
  - specialize (IH i Hx). lia.
Qed.

Lemma sum_list_with_lookup {A} (f : A → nat) l i x : l !! i = Some x → (f x ≤ sum_list_with f l)%nat.
Proof.
  revert i. induction l as [|z l IH]; intros [|i] Hx; try done; simpl in *.
  - injection Hx as ->. lia.
  - specialize (IH i Hx). lia.
Qed.

Section live.
Context {Q G W B : Type} `{SegQueueLaws Q (CoreMessage G)} `{IoProviderLaws B}.
Context (fut_poll : G → W → polled unit * G * W) (rank weight : G → nat) (finished : W → nat).
Hypothesis Hranked : ranked fut_poll rank weight finished.
Implicit Types (m : machine Q G W B) (c : CpuCore Q G B).

(** The cores with the inboxes they share with their senders. *)
Definition m_pcores m : list (CpuCore Q G B) := zip_with set_inbox (m_cores m) (core_senders (m_rt m)).

(** ** Callers of [spawn] *)

(** The actions a caller still has to do, and the weight and work of its task if
    it is not yet sent. *)
Definition stage (t : caller G) : nat :=
  match t with SpawnLoad _ => 4 | SpawnId _ => 3 | SpawnCore _ _ => 2 | SpawnPush _ _ _ => 1 | _ => 0 end.

Definition caller_tasks (t : caller G) : nat :=
  match t with
  | SpawnLoad fut | SpawnId fut | SpawnCore _ fut | SpawnPush _ _ fut => weight fut
  | _ => 0
  end.

Definition caller_work (t : caller G) : nat :=
  match t with
  | SpawnLoad fut | SpawnId fut | SpawnCore _ fut | SpawnPush _ _ fut => S (rank fut)
  | _ => 0
  end.

Definition spawning (n : Z) (t : caller G) : Prop :=
  match t with
  | SpawnLoad _ | SpawnId _ | SpawnCore _ _ | Spawned (Ok _) => True
  | SpawnPush core _ _ => 0 ≤ core < n
  | _ => False
  end.

(** Of tasks of weight [k] none is lost, and [work] polls are enough for all of them. *)
Definition machine_ok (k work : nat) m : Prop :=
  rt_wf (m_rt m) ∧ state (m_rt m) = Running ∧ length (m_cores m) = length (core_senders (m_rt m)) ∧
  Forall serving (m_pcores m) ∧ Forall (spawning (num_cores (m_rt m))) (m_callers m) ∧
  (finished (m_world m) + sum_list_with (core_tasks weight) (m_pcores m) +
     sum_list_with caller_tasks (m_callers m) = k)%nat ∧
  (sum_list_with (core_work rank) (m_pcores m) + sum_list_with caller_work (m_callers m) ≤ work)%nat.

Definition stage_of m (i : nat) : nat := default 0%nat (stage <$> m_callers m !! i).
Definition work_of m (j : nat) : nat := default 0%nat (core_work rank <$> m_pcores m !! j).

Lemma stage_of_insert m i t t' counter rt i' :
  m_callers m !! i = Some t →
  stage_of (mkMachine (<[i := t']> (m_callers m)) counter rt (m_cores m) (m_world m)) i' =
    if decide (i' = i) then stage t' else stage_of m i'.
Proof.
  intros Ht. unfold stage_of. cbn. destruct (decide (i' = i)) as [->|Hne].
  - rewrite list_lookup_insert_eq; [done|]. by eapply lookup_lt_Some.
  - by rewrite list_lookup_insert_ne.
Qed.

(** An action of a caller that sends nothing. *)
Lemma caller_moves_ok k work m i t t' counter rt :
  machine_ok k work m → m_callers m !! i = Some t →
  rt_wf rt → state rt = Running → num_cores rt = num_cores (m_rt m) →
  core_senders rt = core_senders (m_rt m) → spawning (num_cores rt) t' →
  caller_tasks t' = caller_tasks t → caller_work t' = caller_work t →
  machine_ok k work (mkMachine (<[i := t']> (m_callers m)) counter rt (m_cores m) (m_world m)).
Proof.
  intros (_ & _ & Hlen & Hserv & Hsp & Hk & Hw) Ht Hwf Hrun Hn Hq Ht' Htasks Hwork.
  pose proof (sum_list_with_insert caller_tasks _ _ _ t' Ht).
  pose proof (sum_list_with_insert caller_work _ _ _ t' Ht).
  unfold machine_ok, m_pcores in *. cbn. rewrite Hq, Hn in *.
  split_and!; try done; [by apply Forall_insert|lia|lia].
Qed.

Lemma serving_push c q id fut :
  serving (set_inbox c q) →
  let c' := set_inbox c (seg_push (CoreTask id fut) q) in
  serving c' ∧ core_tasks weight c' = (core_tasks weight (set_inbox c q) + weight fut)%nat ∧
  core_work rank c' = (core_work rank (set_inbox c q) + S (rank fut))%nat.
Proof.
  intros (Hn & Hf & Hpl). unfold serving, core_tasks, core_work in *. cbn in *. rewrite seg_push_elems.
  rewrite !sum_list_with_app. cbn. split_and!; try done; [|lia|lia].
  apply Forall_app. by split; [|repeat constructor].
Qed.

(** The action that sends the task. *)
Lemma caller_pushes_ok k work m i core id fut :
  machine_ok k work m → m_callers m !! i = Some (SpawnPush core id fut) →
  ∃ rt, push_to core (CoreTask id fut) (m_rt m) = Ret rt ∧
    machine_ok k work (mkMachine (<[i := Spawned (Ok id)]> (m_callers m)) (m_counter m) rt (m_cores m) (m_world m)).
Proof.
  intros (Hwf & Hrun & Hlen & Hserv & Hsp & Hk & Hw) Ht.
  assert (0 ≤ core < num_cores (m_rt m)) as Hcore by exact (proj1 (Forall_lookup _ _) Hsp _ _ Ht).
  destruct (push_to_wf (m_rt m) core (CoreTask id fut) Hwf Hcore) as (q & Hq & ->).
  eexists. split; [done|]. set (j := Z.to_nat core) in *. set (q' := seg_push (CoreTask id fut) q).
  destruct (lookup_lt_is_Some_2 (m_cores m) j) as [c Hc].
  { rewrite Hlen. by eapply lookup_lt_Some. }
  assert (m_pcores m !! j = Some (set_inbox c q)) as Hp by (apply lookup_zip_with_Some; eauto).
  assert (zip_with set_inbox (m_cores m) (<[j := q']> (core_senders (m_rt m))) =
    <[j := set_inbox c q']> (m_pcores m)) as Hps.
  { rewrite <-(list_insert_id (m_cores m) j c) at 1 by done. symmetry. apply insert_zip_with. }
  destruct (serving_push c q id fut) as (Hs' & Hct & Hcw).
  { exact (proj1 (Forall_lookup _ _) Hserv _ _ Hp). }
  pose proof (sum_list_with_insert caller_tasks _ _ _ (Spawned (Ok id)) Ht).
  pose proof (sum_list_with_insert caller_work _ _ _ (Spawned (Ok id)) Ht).
  pose proof (sum_list_with_insert (core_tasks weight) _ _ _ (set_inbox c q') Hp).
  pose proof (sum_list_with_insert (core_work rank) _ _ _ (set_inbox c q') Hp).
  match goal with |- machine_ok _ _ ?x => change (m_pcores x = <[j := set_inbox c q']> (m_pcores m)) in Hps end.
  unfold machine_ok. rewrite Hps.
  cbn [m_rt m_cores m_callers m_world set_senders core_senders num_cores state caller_tasks caller_work stage] in *.
  rewrite length_insert. destruct Hwf as (? & Hl & ?). split_and!; try done.
  - unfold rt_wf. cbn. by rewrite length_insert.
  - by apply Forall_insert.
  - by apply Forall_insert.
  - fold q' in Hct. lia.
  - fold q' in Hcw. lia.
Qed.

Lemma caller_acts_ok k work m i :
  machine_ok k work m →
  let m' := caller_acts i m in
  machine_ok k work m' ∧ ∀ i', stage_of m' i' = (stage_of m i' - (if decide (i' = i) then 1 else 0))%nat.
Proof.
  intros Hok. cbv zeta. unfold caller_acts. destruct (m_callers m !! i) as [t|] eqn:Ht.
  2: { split; [done|]. intros i'. destruct (decide (i' = i)) as [->|]; [|lia]. unfold stage_of. by rewrite Ht. }
  pose proof Hok as (Hwf & Hrun & _ & _ & Hsp & _).
  assert (spawning (num_cores (m_rt m)) t) as Hspt by exact (proj1 (Forall_lookup _ _) Hsp _ _ Ht).
  assert (∀ t', stage t' = (stage t - 1)%nat → ∀ counter rt i',
    stage_of (mkMachine (<[i := t']> (m_callers m)) counter rt (m_cores m) (m_world m)) i' =
      (stage_of m i' - (if decide (i' = i) then 1 else 0))%nat) as Hstage.
  { intros t' Ht' counter rt i'. rewrite (stage_of_insert _ _ _ _ _ _ _ Ht).
    destruct (decide (i' = i)) as [->|]; [|lia]. unfold stage_of. by rewrite Ht. }
  destruct t as [fut|fut|id fut|core id fut| | | |next|[id|e]| | |e]; try done; cbn [caller_step].
  - rewrite decide_False by (rewrite Hrun; auto). split; [|by apply Hstage].
    by eapply caller_moves_ok.
  - split; [|by apply Hstage]. by eapply caller_moves_ok.
  - split; [|by apply Hstage]. destruct Hwf as (? & ? & ?).
    eapply caller_moves_ok; try done.
    + split; [done|]. split; [done|]. apply wrap64_range.
    + cbn. apply Z.mod_pos_bound. lia.
  - destruct (caller_pushes_ok k work m i core id fut Hok Ht) as (rt & -> & Hok').
    split; [done|]. by apply Hstage.
  - split; [done|]. intros i'. destruct (decide (i' = i)) as [->|]; [|lia].
    unfold stage_of. by rewrite Ht.
Qed.

(** ** Turns of the cores *)

Lemma core_acts_ok k work m j :
  machine_ok k work m →
  ∃ m', core_acts fut_poll j m = Ret m' ∧ machine_ok k work m' ∧ m_callers m' = m_callers m ∧
    ∀ j', (work_of m' j' ≤ work_of m j' - (if decide (j' = j) then 1 else 0))%nat.
Proof.
  intros Hok. pose proof Hok as (Hwf & Hrun & Hlen & Hserv & Hsp & Hk & Hw). unfold core_acts.
  assert (∀ j', j' ≠ j ∨ m_pcores m !! j = None →
    (work_of m j' ≤ work_of m j' - (if decide (j' = j) then 1 else 0))%nat) as Hsame.
  { intros j' [Hne|Hnone]; [rewrite decide_False by done; lia|].
    destruct (decide (j' = j)) as [->|]; [|lia]. unfold work_of. by rewrite Hnone. }
  destruct (m_cores m !! j) as [c|] eqn:Hc.
  2: { exists m. split_and!; try done. intros j'. apply Hsame. right.
       apply lookup_ge_None. unfold m_pcores. rewrite length_zip_with. apply lookup_ge_None in Hc. lia. }
  destruct (core_senders (m_rt m) !! j) as [q|] eqn:Hq.
  2: { apply lookup_ge_None in Hq. apply lookup_lt_Some in Hc. lia. }
  assert (m_pcores m !! j = Some (set_inbox c q)) as Hp by (apply lookup_zip_with_Some; eauto).
  assert (serving (set_inbox c q)) as Hs by exact (proj1 (Forall_lookup _ _) Hserv _ _ Hp).
  assert (shutdown_flag c = false) as -> by exact (proj1 (proj2 Hs)).
  destruct (core_turn_work fut_poll rank weight finished (set_inbox c q) (m_world m) Hranked Hs)
    as (any & c' & w' & -> & Hs' & Hfin & Hwork). cbn [mbind outcome_bind].
  eexists. split; [done|]. assert (set_inbox c' (message_inbox c') = c') as Hid by by destruct c'.
  assert (zip_with set_inbox (<[j := c']> (m_cores m)) (<[j := message_inbox c']> (core_senders (m_rt m))) =
    <[j := c']> (m_pcores m)) as Hps.
  { rewrite <-Hid at 3. symmetry. apply insert_zip_with. }
  match goal with |- machine_ok _ _ ?x ∧ _ => set (m' := x); change (m_pcores m' = <[j := c']> (m_pcores m)) in Hps end.
  pose proof (sum_list_with_insert (core_tasks weight) _ _ _ c' Hp).
  pose proof (sum_list_with_insert (core_work rank) _ _ _ c' Hp).
  split_and!; [|done|].
  - unfold machine_ok. rewrite Hps. cbn [m' m_rt m_cores m_callers m_world set_senders core_senders num_cores state].
    rewrite !length_insert. destruct Hwf as (? & Hl & ?). split_and!; try done; [|by apply Forall_insert|lia|lia].
    unfold rt_wf. cbn. by rewrite length_insert.
  - intros j'. unfold work_of. rewrite Hps. destruct (decide (j' = j)) as [->|Hne].
    + rewrite list_lookup_insert_eq by by eapply lookup_lt_Some. rewrite Hp. exact Hwork.
    + rewrite list_lookup_insert_ne by done. lia.
Qed.

(** ** Schedules *)

Lemma m_run_app s1 s2 m : m_run fut_poll (s1 ++ s2) m = (m' ← m_run fut_poll s1 m; m_run fut_poll s2 m').
Proof.
  revert m. induction s1 as [|[i|j] s1 IH]; intros m; cbn; [done|apply IH|].
  destruct (core_acts fut_poll j m); cbn; [apply IH|done..].
Qed.

(** Whatever the schedule, no task is lost, and callers go on when scheduled. *)
Lemma m_run_ok k work sched m :
  machine_ok k work m →
  ∃ m', m_run fut_poll sched m = Ret m' ∧ machine_ok k work m' ∧
    ∀ i, (stage_of m' i ≤ stage_of m i - steps_of (ACaller i) sched)%nat.
Proof.
  revert m. induction sched as [|[i|j] sched IH]; intros m Hok; cbn [m_run].
  - exists m. split_and!; try done. intros i. cbn. lia.
  - destruct (caller_acts_ok k work m i Hok) as [Hok1 Hst1].
    destruct (IH _ Hok1) as (m' & Hrun & Hok' & Hst). exists m'. split_and!; try done.
    intros i'. specialize (Hst i'). rewrite Hst1 in Hst. rewrite steps_of_cons.
    destruct (decide (i' = i)) as [->|]; [rewrite decide_True by done|rewrite decide_False by congruence]; lia.
  - destruct (core_acts_ok k work m j Hok) as (m1 & -> & Hok1 & Hc1 & _). cbn [mbind outcome_bind].
    destruct (IH _ Hok1) as (m' & Hrun & Hok' & Hst). exists m'. split_and!; try done.
    intros i'. specialize (Hst i'). rewrite steps_of_cons, decide_False by done.
    unfold stage_of at 2 in Hst. rewrite Hc1 in Hst. exact Hst.
Qed.

(** Once all callers have returned, each core works off what it has. *)
Lemma m_run_works k work sched m :
  machine_ok k work m → (∀ i, stage_of m i = 0%nat) →
  ∃ m', m_run fut_poll sched m = Ret m' ∧ machine_ok k work m' ∧ m_callers m' = m_callers m ∧
    ∀ j, (work_of m' j ≤ work_of m j - steps_of (ACore j) sched)%nat.
Proof.
  revert m. induction sched as [|[i|j] sched IH]; intros m Hok Hst; cbn [m_run].
  - exists m. split_and!; try done. intros j. cbn. lia.
  - assert (caller_acts i m = m) as ->.
    { unfold caller_acts. destruct (m_callers m !! i) as [t|] eqn:Ht; [|done].
      pose proof Hok as (_ & _ & _ & _ & Hsp & _).
      pose proof (proj1 (Forall_lookup _ _) Hsp _ _ Ht) as Hspt. specialize (Hst i). unfold stage_of in Hst.
      rewrite Ht in Hst. by destruct t as [| | | | | | | |[]| | |]. }
    destruct (IH m Hok Hst) as (m' & Hrun & Hok' & Hc & Hw). by exists m'.
  - destruct (core_acts_ok k work m j Hok) as (m1 & -> & Hok1 & Hc1 & Hw1). cbn [mbind outcome_bind].
    destruct (IH m1 Hok1) as (m' & Hrun & Hok' & Hc & Hw).
    { intros i. unfold stage_of. rewrite Hc1. apply Hst. }
    exists m'. split_and!; try done; [congruence|].
    intros j'. specialize (Hw j'). specialize (Hw1 j'). rewrite steps_of_cons.
    destruct (decide (j' = j)) as [->|]; [rewrite decide_True by done|rewrite decide_False by congruence]; lia.
Qed.

(** ** Task ids *)

Definition id_of (t : caller G) : option TaskId :=
  match t with SpawnCore id _ | SpawnPush _ id _ | Spawned (Ok id) => Some id | _ => None end.

Definition needs_id (t : caller G) : nat := match t with SpawnLoad _ | SpawnId _ => 1 | _ => 0 end.

(** The ids handed out are below the counter, one caller each. *)
Definition ids_ok m : Prop :=
  0 ≤ m_counter m ∧ m_counter m + Z.of_nat (sum_list_with needs_id (m_callers m)) < 2 ^ 64 ∧
  (∀ i t id, m_callers m !! i = Some t → id_of t = Some id → id < m_counter m) ∧
  (∀ i i' t t' id, m_callers m !! i = Some t → m_callers m !! i' = Some t' →
     id_of t = Some id → id_of t' = Some id → i = i').

Lemma ids_ok_move m i t t' rt :
  ids_ok m → m_callers m !! i = Some t → (needs_id t' ≤ needs_id t)%nat →
  (id_of t' = id_of t ∨ id_of t' = None) →
  ids_ok (mkMachine (<[i := t']> (m_callers m)) (m_counter m) rt (m_cores m) (m_world m)).
Proof.
  intros (Hpos & Hlim & Hlt & Hinj) Ht Hn Hid. pose proof (sum_list_with_insert needs_id _ _ _ t' Ht).
  assert (∀ i0 t0 id, <[i := t']> (m_callers m) !! i0 = Some t0 → id_of t0 = Some id →
    ∃ t1, m_callers m !! i0 = Some t1 ∧ id_of t1 = Some id) as Hold.
  { intros i0 t0 id [(-> & -> & _)|[_ ?]]%list_lookup_insert_Some Hi; [|by eauto].
    exists t. split; [done|]. destruct Hid; congruence. }
  split_and!; cbn [m_counter m_callers]; [done|lia| |].
  - intros i0 t0 id Hi0 Ht0. destruct (Hold _ _ _ Hi0 Ht0) as (t1 & ? & ?). by eapply Hlt.
  - intros i0 i1 t0 t1 id Hi0 Hi1 Ht0 Ht1. destruct (Hold _ _ _ Hi0 Ht0) as (? & ? & ?).
    destruct (Hold _ _ _ Hi1 Ht1) as (? & ? & ?). by eapply Hinj.
Qed.

Lemma ids_ok_new m i fut rt :
  ids_ok m → m_callers m !! i = Some (SpawnId fut) →
  ids_ok (mkMachine (<[i := SpawnCore (m_counter m) fut]> (m_callers m)) (wrap64 (m_counter m + 1)) rt
            (m_cores m) (m_world m)).
Proof.
  intros (Hpos & Hlim & Hlt & Hinj) Ht.
  pose proof (sum_list_with_insert needs_id _ _ _ (SpawnCore (m_counter m) fut) Ht) as Hsum. cbn in Hsum.
  rewrite wrap64_small by (unfold is_u64; lia).
  split_and!; cbn [m_counter m_callers]; [lia|lia| |].
  - intros i0 t0 id [(-> & <- & _)|[_ Hi0]]%list_lookup_insert_Some Ht0.
    + injection Ht0 as <-. lia.
    + specialize (Hlt _ _ _ Hi0 Ht0). lia.
  - intros i0 i1 t0 t1 id [(-> & <- & _)|[Hne Hi0]]%list_lookup_insert_Some
      [(-> & <- & _)|[Hne' Hi1]]%list_lookup_insert_Some Ht0 Ht1; [done|..|by eapply Hinj].
    + injection Ht0 as <-. specialize (Hlt _ _ _ Hi1 Ht1). lia.
    + injection Ht1 as <-. specialize (Hlt _ _ _ Hi0 Ht0). lia.
Qed.

Lemma caller_acts_ids m i : ids_ok m → ids_ok (caller_acts i m).
Proof.
  intros Hok. unfold caller_acts. destruct (m_callers m !! i) as [t|] eqn:Ht; [|done].
  destruct (caller_step t (m_counter m) (m_rt m)) as [[[t' counter] rt]|] eqn:Hs; [|done].
  destruct t as [fut|fut|id fut|core id fut| | | |next|r| | |e]; cbn in Hs; try done;
    [..|by (injection Hs as <- <- <-; apply ids_ok_new)| | | | | | ];
    repeat case_match; simplify_eq; eapply ids_ok_move; eauto; cbn; lia.
Qed.

Lemma m_run_ids sched m m' : ids_ok m → m_run fut_poll sched m = Ret m' → ids_ok m'.
Proof.
  revert m. induction sched as [|[i|j] sched IH]; intros m Hok; cbn [m_run].
  - by intros [= <-].
  - apply IH. by apply caller_acts_ids.
  - destruct (core_acts fut_poll j m) as [m1| |] eqn:Ha; [|done..]. cbn [mbind outcome_bind]. apply IH.
    unfold core_acts in Ha. repeat case_match; simplify_eq; try done.
    destruct (core_turn _ _ _) as [[[any c'] w']| |]; simplify_eq/=. exact Hok.
Qed.

(** ** Invariants of the world *)

Section world.
Variable world_inv : W → Prop.
Hypothesis Hpoll : ∀ g w, world_inv w → world_inv (fut_poll g w).2.

Lemma task_loop_world budget n c w n' c' w' :
  world_inv w → task_loop fut_poll budget n c w = Ret (n', c', w') → world_inv w'.
Proof.
  revert n c w. induction budget as [|budget IH]; intros n c w Hw; cbn [task_loop]; [by intros [= _ _ <-]|].
  destruct (task_queue c) as [|t rest]; [by intros [= _ _ <-]|].
  pose proof (Hpoll (future t) w Hw) as Hw1. destruct (fut_poll (future t) w) as [[[u| |] g] w1]; cbn in Hw1; [| |done].
  - destruct (local_task_count c); [done|]. by apply IH.
  - by apply IH.
Qed.

Lemma core_turn_world c w any c' w' : world_inv w → core_turn fut_poll c w = Ret (any, c', w') → world_inv w'.
Proof.
  intros Hw. unfold core_turn. destruct (process_messages c) as [b1 c1]. unfold execute_tasks.
  pose proof (task_loop_world 16 0 c1 w) as Hl. generalize dependent (task_loop fut_poll 16 0 c1 w).
  intros [[[n c2] w2]| |] Hl; [|done..]. cbn. destruct (process_io c2) as [b3 c3]. intros [= _ _ <-]. by eapply Hl.
Qed.

Lemma m_run_world sched m m' : world_inv (m_world m) → m_run fut_poll sched m = Ret m' → world_inv (m_world m').
Proof.
  revert m. induction sched as [|[i|j] sched IH]; intros m Hw; cbn [m_run]; [by intros [= <-]|apply IH|].
  - unfold caller_acts. by repeat case_match.
  - destruct (core_acts fut_poll j m) as [m1| |] eqn:Ha; [|done..]. cbn [mbind outcome_bind]. apply IH.
    unfold core_acts in Ha. repeat case_match; simplify_eq; try done.
    destruct (core_turn fut_poll _ (m_world m)) as [[[any c'] w']| |] eqn:Ht; simplify_eq/=. by eapply core_turn_world.
Qed.

End world.

(** ** The end of the schedules *)

Lemma m_run_lengths sched m m' :
  m_run fut_poll sched m = Ret m' →
  length (m_callers m') = length (m_callers m) ∧ length (m_cores m') = length (m_cores m).
Proof.
  revert m. induction sched as [|[i|j] sched IH]; intros m; cbn [m_run].
  - by intros [= <-].
  - intros [-> ->]%IH. unfold caller_acts. repeat case_match; try done. cbn. by rewrite length_insert.
  - destruct (core_acts fut_poll j m) as [m1| |] eqn:Ha; [|done..]. cbn [mbind outcome_bind]. intros [-> ->]%IH.
    unfold core_acts in Ha. repeat case_match; simplify_eq; try done.
    destruct (core_turn _ _ _) as [[[any c'] w']| |]; simplify_eq/=. by rewrite length_insert.
Qed.

Lemma stage_of_le m i : (stage_of m i ≤ 4)%nat ∧ (length (m_callers m) ≤ i → stage_of m i = 0)%nat.
Proof.
  unfold stage_of. split.
  - destruct (m_callers m !! i) as [[]|]; cbn; lia.
  - intros Hi. by rewrite (proj2 (lookup_ge_None _ _) Hi).
Qed.

Lemma work_of_le k work m j :
  machine_ok k work m → (work_of m j ≤ work)%nat ∧ (length (m_cores m) ≤ j → work_of m j = 0)%nat.
Proof.
  intros (_ & _ & _ & _ & _ & _ & Hw). unfold work_of. split.
  - destruct (m_pcores m !! j) as [c|] eqn:Hc; cbn; [|lia].
    pose proof (sum_list_with_lookup (core_work rank) _ _ _ Hc). lia.
  - intros Hj. assert (m_pcores m !! j = None) as ->; [|done].
    apply lookup_ge_None. unfold m_pcores. rewrite length_zip_with. lia.
Qed.

Lemma sum_list_with_zero {A} (f : A → nat) l : (∀ i x, l !! i = Some x → f x = 0%nat) → sum_list_with f l = 0%nat.
Proof.
  induction l as [|x l IH]; intros Hf; simpl; [done|]. rewrite (Hf 0%nat x), IH; [done| |done].
  intros i y Hy. by apply (Hf (S i)).
Qed.

(** With nothing left to do, all tasks are finished. *)
Lemma machine_idle k work m :
  machine_ok k work m → (∀ i, stage_of m i = 0%nat) → (∀ j, work_of m j = 0%nat) → finished (m_world m) = k.
Proof.
  intros (_ & _ & _ & Hserv & _ & Hk & _) Hst Hw. rewrite !sum_list_with_zero in Hk; [lia| |].
  - intros i t Ht. specialize (Hst i). unfold stage_of in Hst. rewrite Ht in Hst. cbn in Hst.
    by destruct t.
  - intros j c Hc. specialize (Hw j). unfold work_of in Hw. rewrite Hc in Hw.
    destruct (core_idle rank c Hw) as (Ht & Hi & _); [exact (proj1 (Forall_lookup _ _) Hserv _ _ Hc)|].
    unfold core_tasks. by rewrite Ht, Hi.
Qed.

(** All callers have returned, each with an id of its own. *)
Lemma callers_returned k work m :
  machine_ok k work m → (∀ i, stage_of m i = 0%nat) →
  ∃ ids, m_callers m = (λ id, Spawned (Ok id)) <$> ids ∧ (ids_ok m → NoDup ids).
Proof.
  intros (_ & _ & _ & _ & Hsp & _) Hst.
  assert (∃ ids, m_callers m = (λ id, Spawned (Ok id)) <$> ids) as [ids Hids].
  { assert (∀ i t, m_callers m !! i = Some t → spawning (num_cores (m_rt m)) t ∧ stage t = 0%nat) as Hall.
    { intros i t Ht. split; [exact (proj1 (Forall_lookup _ _) Hsp _ _ Ht)|].
      specialize (Hst i). unfold stage_of in Hst. by rewrite Ht in Hst. }
    clear -Hall. revert Hall. generalize (m_callers m). intros l. induction l as [|t l IH]; intros Hall.
    - by exists [].
    - destruct IH as [ids ->]. { intros i x Hx. by apply (Hall (S i)). }
      destruct (Hall 0%nat t eq_refl) as [Hs H0]. destruct t as [| | | | | | | |[id|e]| | |]; try done.
      by exists (id :: ids). }
  exists ids. split; [done|]. intros (_ & _ & _ & Hinj). apply NoDup_alt. intros i i' id Hi Hi'. rewrite Hids in Hinj.
  eapply (Hinj i i'); rewrite ?list_lookup_fmap, ?Hi, ?Hi'; done.
Qed.

(** ** A round of spawns on an idle runtime *)

Definition with_callers m (ts : list (caller G)) : machine Q G W B :=
  mkMachine ts (m_counter m) (m_rt m) (m_cores m) (m_world m).

Lemma machine_ok_idle k work m :
  machine_ok k work m → (∀ i, stage_of m i = 0%nat) → (∀ j, work_of m j = 0%nat) → machine_ok k 0 m.
Proof.
  intros (? & ? & ? & ? & ? & ? & _) Hst Hw. unfold machine_ok. split_and!; try done.
  rewrite !sum_list_with_zero; [done| |].
  - intros i t Ht. specialize (Hst i). unfold stage_of in Hst. rewrite Ht in Hst. by destruct t.
  - intros j c Hc. specialize (Hw j). unfold work_of in Hw. by rewrite Hc in Hw.
Qed.

Lemma machine_ok_spawn k m futs :
  machine_ok k 0 m → (∀ i, stage_of m i = 0%nat) →
  machine_ok (k + sum_list_with weight futs) (sum_list_with (λ g, S (rank g)) futs)
    (with_callers m (SpawnLoad <$> futs)).
Proof.
  intros (Hwf & Hrun & Hlen & Hserv & _ & Hk & Hw) Hst.
  assert (sum_list_with caller_tasks (m_callers m) = 0%nat) as Hz.
  { apply sum_list_with_zero. intros i t Ht. specialize (Hst i). unfold stage_of in Hst. rewrite Ht in Hst. by destruct t. }
  assert (sum_list_with caller_tasks (SpawnLoad <$> futs) = sum_list_with weight futs) as Ht.
  { clear. induction futs as [|g futs IH]; csimpl; [done|]. by rewrite IH. }
  assert (sum_list_with caller_work (SpawnLoad <$> futs) = sum_list_with (λ g, S (rank g)) futs) as Hwk.
  { clear. induction futs as [|g futs IH]; csimpl; [done|]. by rewrite IH. }
  unfold machine_ok. change (m_pcores (with_callers m _)) with (m_pcores m). cbn [with_callers m_rt m_cores m_callers m_world].
  rewrite Ht, Hwk. split_and!; try done; [|lia|lia]. by apply Forall_fmap, Forall_true.
Qed.

(** All callers return, and all their tasks are finished. *)
Lemma machine_round k m futs sched1 sched2 :
  machine_ok k 0 m → (∀ i, stage_of m i = 0%nat) →
  (∀ i, (i < length futs)%nat → (4 ≤ steps_of (ACaller i) sched1)%nat) →
  (∀ j, (j < length (m_cores m))%nat → (sum_list_with (λ g, S (rank g)) futs ≤ steps_of (ACore j) sched2)%nat) →
  ∃ m1 m2, m_run fut_poll sched1 (with_callers m (SpawnLoad <$> futs)) = Ret m1 ∧ m_run fut_poll sched2 m1 = Ret m2 ∧
    (∀ i, stage_of m1 i = 0%nat) ∧ (∃ work, machine_ok (k + sum_list_with weight futs) work m1) ∧
    m_callers m2 = m_callers m1 ∧ length (m_callers m1) = length futs ∧ length (m_cores m2) = length (m_cores m) ∧
    machine_ok (k + sum_list_with weight futs) 0 m2 ∧ finished (m_world m2) = (k + sum_list_with weight futs)%nat.
Proof.
  intros Hok Hst Hs1 Hs2. set (m0 := with_callers m (SpawnLoad <$> futs)).
  destruct (m_run_ok _ _ sched1 m0 (machine_ok_spawn k m futs Hok Hst)) as (m1 & Hrun1 & Hok1 & Hstage).
  destruct (m_run_lengths _ _ _ Hrun1) as [Hlc1 Hlk1]. cbn [m0 with_callers m_callers m_cores] in Hlc1, Hlk1.
  rewrite length_fmap in Hlc1.
  assert (∀ i, stage_of m1 i = 0%nat) as Hz1.
  { intros i. destruct (decide (i < length futs)%nat) as [Hi|]; [|apply stage_of_le; lia].
    specialize (Hs1 i Hi). specialize (Hstage i). pose proof (stage_of_le m0 i). lia. }
  destruct (m_run_works _ _ sched2 m1 Hok1 Hz1) as (m2 & Hrun2 & Hok2 & Hcall2 & Hwork).
  destruct (m_run_lengths _ _ _ Hrun2) as [_ Hlk2].
  assert (∀ i, stage_of m2 i = 0%nat) as Hz1'. { intros i. unfold stage_of. rewrite Hcall2. apply Hz1. }
  assert (∀ j, work_of m2 j = 0%nat) as Hz2.
  { intros j. destruct (decide (j < length (m_cores m))%nat) as [Hj|]; [|eapply work_of_le; [done|lia]].
    specialize (Hs2 j Hj). specialize (Hwork j). pose proof (work_of_le _ _ _ j Hok1). lia. }
  exists m1, m2. split_and!; try done; [by eexists|lia|by eapply machine_ok_idle|by eapply machine_idle].
Qed.

(** ** After [shutdown] *)

(** Nothing is left to run, and the core is told to stop or has stopped. *)
Definition core_ends c (q : Q) : Prop :=
  task_queue c = [] ∧ local_task_count c = 0%nat ∧
  (shutdown_flag c = true ∨ seg_elems q = [CoreShutdown]).

Definition machine_ends m : Prop := Forall2 core_ends (m_cores m) (core_senders (m_rt m)).

Definition stopped_of m (j : nat) : bool := default true (shutdown_flag <$> m_cores m !! j).

Lemma core_acts_ends m j :
  machine_ends m →
  ∃ m', core_acts fut_poll j m = Ret m' ∧ machine_ends m' ∧ m_world m' = m_world m ∧
    state (m_rt m') = state (m_rt m) ∧ length (m_cores m') = length (m_cores m) ∧
    ∀ j', stopped_of m' j' = if decide (j' = j) then true else stopped_of m j'.
Proof.
  intros Hend. unfold core_acts. destruct (m_cores m !! j) as [c|] eqn:Hc.
  2: { exists m. split_and!; try done. intros j'. destruct (decide (j' = j)) as [->|]; [|done].
       unfold stopped_of. by rewrite Hc. }
  destruct (Forall2_lookup_l _ _ _ _ _ Hend Hc) as (q & -> & Ht & Hn & Hq).
  destruct (shutdown_flag c) eqn:Hf.
  { exists m. split_and!; try done. intros j'. destruct (decide (j' = j)) as [->|]; [|done].
    unfold stopped_of. by rewrite Hc. }
  destruct Hq as [?|Hq]; [done|].
  destruct (core_turn_stops fut_poll [] (set_inbox c q) (m_world m) Ht Hq)
    as (any & c' & -> & Ht' & Hq' & Hn' & Hf'). cbn [mbind outcome_bind].
  eexists. split; [done|]. split_and!; try done; cbn [m_cores]; [|by rewrite length_insert|].
  - unfold machine_ends. cbn. apply Forall2_insert; [done|]. split_and!; [done| |by left]. by rewrite Hn'.
  - intros j'. unfold stopped_of. cbn [m_cores]. destruct (decide (j' = j)) as [->|].
    + rewrite list_lookup_insert_eq by by eapply lookup_lt_Some. done.
    + by rewrite list_lookup_insert_ne.
Qed.

Lemma m_run_ends sched m :
  machine_ends m → (∀ i, ACaller i ∉ sched) →
  ∃ m', m_run fut_poll sched m = Ret m' ∧ machine_ends m' ∧ m_world m' = m_world m ∧
    state (m_rt m') = state (m_rt m) ∧ length (m_cores m') = length (m_cores m) ∧
    ∀ j, stopped_of m j = true ∨ (0 < steps_of (ACore j) sched)%nat → stopped_of m' j = true.
Proof.
  revert m. induction sched as [|[i|j] sched IH]; intros m Hend Hno; cbn [m_run].
  - exists m. split_and!; try done. intros j [?|Hs]; [done|]. cbn in Hs. lia.
  - destruct (Hno i). left.
  - destruct (core_acts_ends m j Hend) as (m1 & -> & Hend1 & Hw1 & Hst1 & Hl1 & Hs1). cbn [mbind outcome_bind].
    destruct (IH m1 Hend1) as (m' & Hrun & Hend' & Hw & Hst & Hl & Hs).
    { intros i Hi. apply (Hno i). by right. }
    exists m'. split_and!; try done; [congruence..|].
    intros j' Hj'. apply Hs. rewrite Hs1. rewrite steps_of_cons in Hj'.
    destruct (decide (j' = j)) as [->|Hne]; [by left|]. rewrite decide_False in Hj' by congruence. exact Hj'.
Qed.

(** [shutdown] on an idle runtime. *)
Lemma shutdown_ends k work m :
  machine_ok k work m → (∀ j, work_of m j = 0%nat) →
  ∃ rt, shutdown (m_rt m) = (Ok tt, rt) ∧ state rt = ShuttingDown ∧
    machine_ends (mkMachine (m_callers m) (m_counter m) rt (m_cores m) (m_world m)).
Proof.
  intros (_ & Hrun & Hlen & Hserv & _) Hwork. unfold shutdown. rewrite Hrun. eexists. split; [done|]. split; [done|].
  unfold machine_ends. cbn. apply Forall2_fmap_r, Forall2_same_length_lookup. split; [done|].
  intros j c q Hc Hq. assert (m_pcores m !! j = Some (set_inbox c q)) as Hp by (apply lookup_zip_with_Some; eauto).
  specialize (Hwork j). unfold work_of in Hwork. rewrite Hp in Hwork.
  destruct (core_idle rank (set_inbox c q) Hwork) as (Ht & Hi & Hn).
  { exact (proj1 (Forall_lookup _ _) Hserv _ _ Hp). }
  split_and!; [done..|]. right. cbn in Hi. by rewrite seg_push_elems, Hi.
Qed.

Lemma machine_ends_all m :
  machine_ends m → (∀ j, (j < length (m_cores m))%nat → stopped_of m j = true) →
  Forall (λ c, shutdown_flag c = true ∧ task_queue c = [] ∧ local_task_count c = 0%nat) (m_cores m).
Proof.
  intros Hend Hst. apply Forall_lookup. intros j c Hc.
  destruct (Forall2_lookup_l _ _ _ _ _ Hend Hc) as (q & _ & Ht & Hn & _). split_and!; try done.
  specialize (Hst j). unfold stopped_of in Hst. rewrite Hc in Hst. apply Hst. by eapply lookup_lt_Some.
Qed.

End live.

(** ** [MultiCoreRuntime::new] *)

Section new.
Context {Q G W B : Type} `{SegQueueLaws Q (CoreMessage G)} `{IoProviderLaws B}.
Variable make_backend : Z → result B RuntimeError.
Variable start_thread : Z → result unit string.
Implicit Types (c : CpuCore Q G B).

Definition core_new_state c : Prop :=
  task_queue c = [] ∧ local_task_count c = 0%nat ∧ shutdown_flag c = false ∧ seg_elems (message_inbox c) = [].

(** What the attempt to start core [i] gives. *)
Definition start_result (i : Z) : result unit RuntimeError :=
  match make_backend i with
  | Err e => Err e
  | Ok _ =>
      match start_thread i with
      | Err e => Err (TaskFailed (String.append "Failed to spawn core thread: " e))
      | Ok _ => Ok tt
      end
  end.

Lemma start_cores_ok now n i :
  (∀ j, i ≤ j < i + Z.of_nat n → start_result j = Ok tt) →
  ∃ started : list (CpuCore Q G B),
    start_cores make_backend start_thread now n i = (Ok tt, started) ∧ length started = n ∧
    Forall core_new_state started ∧ Forall (λ c, core_id c < i + Z.of_nat n) started.
Proof.
  revert i. induction n as [|n IH]; intros i Hok; cbn [start_cores].
  { exists []. by split_and!. }
  pose proof (Hok i ltac:(lia)) as Hi. unfold start_result in Hi.
  destruct (make_backend i) as [b|]; [|done]. destruct (start_thread i) as [[]|]; [|done].
  destruct (IH (i + 1)) as (started & -> & Hl & Hnew & Hid). { intros j Hj. apply Hok. lia. }
  eexists. split; [done|]. split; [by rewrite <-Hl|]. split.
  - constructor; [|done]. split_and!; try done. apply seg_new_elems.
  - constructor; [cbn; lia|]. eapply Forall_impl; [exact Hid|]. cbn. lia.
Qed.

Lemma start_cores_fails now n i e k :
  (k < n)%nat → (∀ j, i ≤ j < i + Z.of_nat k → start_result j = Ok tt) → start_result (i + Z.of_nat k) = Err e →
  ∃ started : list (CpuCore Q G B),
    start_cores make_backend start_thread now n i = (Err e, started) ∧ length started = k ∧
    Forall core_new_state started.
Proof.
  revert i n. induction k as [|k IH]; intros i n Hn Hok He; (destruct n as [|n]; [lia|]); cbn [start_cores].
  - rewrite Z.add_0_r in He. unfold start_result in He. exists [].
    destruct (make_backend i) as [b|]; [|by simplify_eq]. destruct (start_thread i) as [[]|]; by simplify_eq.
  - pose proof (Hok i ltac:(lia)) as Hi. unfold start_result in Hi.
    destruct (make_backend i) as [b|]; [|done]. destruct (start_thread i) as [[]|]; [|done].
    destruct (IH (i + 1) n) as (started & -> & Hl & Hnew); [lia| | |].
    { intros j Hj. apply Hok. lia. } { rewrite <-He. f_equal. lia. }
    eexists. split; [done|]. split; [by rewrite <-Hl|]. constructor; [|done].
    split_and!; try done. apply seg_new_elems.
Qed.

Lemma new_ok cpus now cores :
  let n := default cpus cores in
  0 < n < 2 ^ 64 → (∀ i, 0 ≤ i < n → start_result i = Ok tt) →
  ∃ rt (started : list (CpuCore Q G B)),
    new make_backend start_thread cpus now cores = (Ok rt, started) ∧
    num_cores rt = n ∧ next_core rt = 0 ∧ rt_wf rt ∧ state rt = Running ∧
    core_senders rt = message_inbox <$> started ∧ length started = Z.to_nat n ∧ Forall core_new_state started ∧
    Forall (λ c, core_id c < n) started.
Proof.
  intros n Hn Hok. unfold new. fold n. rewrite (proj2 (Z.eqb_neq n 0)) by lia.
  destruct (start_cores_ok now (Z.to_nat n) 0) as (started & -> & Hl & Hnew & Hid). { intros j Hj. apply Hok. lia. }
  eexists _, started. split; [done|]. split_and!; try done.
  2: { eapply Forall_impl; [exact Hid|]. cbn. lia. }
  split; [done|]. cbn [set_state core_senders num_cores next_core]. split; [rewrite length_fmap; lia|lia].
Qed.

(** ** A core that gets no messages *)

Lemma core_turn_empty (fut_poll : G → W → polled unit * G * W) c w :
  core_new_state c → ∃ any c', core_turn fut_poll c w = Ret (any, c', w) ∧ core_new_state c'.
Proof.
  intros (Ht & Hn & Hf & Hq). unfold core_turn, process_messages. cbn [message_loop].
  pose proof (seg_pop_elems (message_inbox c)) as Hpop.
  destruct (seg_pop (message_inbox c)) as [[m|] q]; [congruence|]. destruct Hpop as [_ Hq'].
  unfold execute_tasks. rewrite task_loop_empty by done. cbn [mbind outcome_bind].
  unfold process_io. destruct (poll_complete _) as [p b]. cbn [mbind outcome_bind].
  eexists _, _. split; [done|]. by split_and!.
Qed.

Lemma core_run_empty (fut_poll : G → W → polled unit * G * W) m c w :
  core_new_state c → core_run fut_poll (replicate m []) c w = NoFuel.
Proof.
  revert c. induction m as [|m IH]; intros c Hc; cbn [replicate core_run].
  - by destruct Hc as (_ & _ & -> & _).
  - assert (set_inbox c (seg_push_all [] (message_inbox c)) = c) as -> by by destruct c.
    destruct (core_turn_empty fut_poll c w Hc) as (any & c' & -> & Hc'). cbn [mbind outcome_bind].
    destruct Hc as (_ & _ & -> & _). by apply IH.
Qed.

(** A runtime just made is idle. *)
Lemma machine_ok_new (rank weight : G → nat) finished counter rt (started : list (CpuCore Q G B)) (w : W) :
  rt_wf rt → state rt = Running → core_senders rt = message_inbox <$> started →
  Forall core_new_state started →
  machine_ok rank weight finished (finished w) 0 (mkMachine [] counter rt started w).
Proof.
  intros Hwf Hrun Hq Hnew. unfold machine_ok, m_pcores. cbn. rewrite Hq.
  assert (zip_with set_inbox started (message_inbox <$> started) = started) as ->.
  { clear Hq Hnew. induction started as [|c started IH]; cbn; [done|]. rewrite IH. by destruct c. }
  assert (∀ (f : CpuCore Q G B → nat), (∀ c, core_new_state c → f c = 0%nat) → sum_list_with f started = 0%nat) as Hz.
  { intros f Hf. clear Hq. induction Hnew as [|c started Hc _ IH]; simpl; [done|]. by rewrite IH, Hf. }
  rewrite !Hz.
  2, 3: intros c (Ht & _ & _ & Hi); unfold core_work, core_tasks; by rewrite Ht, Hi.
  split_and!; try done; [by rewrite length_fmap| |lia].
  eapply Forall_impl; [exact Hnew|]. intros c (Ht & Hn & Hf & Hi). unfold serving. by rewrite Ht, Hn, Hf, Hi.
Qed.

Lemma ids_ok_start futs counter (rt : MultiCoreRuntime Q) (started : list (CpuCore Q G B)) (w : W) :
  0 ≤ counter → counter + Z.of_nat (length futs) < 2 ^ 64 →
  ids_ok (mkMachine (SpawnLoad <$> futs : list (caller G)) counter rt started w).
Proof.
  intros Hc Hlim. split_and!; cbn [m_counter m_callers]; [done| | |].
  - assert (sum_list_with needs_id (SpawnLoad <$> futs) = length futs) as ->; [|done].
    clear. induction futs as [|g futs IH]; csimpl in *; lia.
  - intros i t id (g & -> & _)%list_lookup_fmap_Some. done.
  - intros i i' t t' id (g & -> & _)%list_lookup_fmap_Some. done.
Qed.

End new.

(** ** Labelled futures *)

Section logged.
Context {L Q G W B : Type} `{EqDecision L, Inhabited L} `{SegQueueLaws Q (CoreMessage G)} `{IoProviderLaws B}.
Context (fut_poll : G → W → polled unit * G * W) (rank : G → nat) (label : G → L) (log : W → list L).
Hypothesis Hlogs : logs fut_poll rank label log.
Implicit Types (m : machine Q G W B) (futs : list G).

(** Nothing is left to do, and [ls] are the labels of the tasks there were. *)
Definition idle_log (ls : list L) m : Prop :=
  (∀ l, machine_ok rank (has_label label l) (λ w, occurrences (log w) l) (occurrences ls l) 0 m) ∧
  ∀ i, stage_of m i = 0%nat.

Lemma occurrences_labels futs l : sum_list_with (has_label label l) futs = occurrences (label <$> futs) l.
Proof.
  unfold occurrences. induction futs as [|g futs IH]; csimpl; [done|]. rewrite IH. unfold has_label.
  by destruct (decide (label g = l)).
Qed.

Lemma round_logged ls m futs sched1 sched2 :
  idle_log ls m →
  (∀ i, (i < length futs)%nat → (4 ≤ steps_of (ACaller i) sched1)%nat) →
  (∀ j, (j < length (m_cores m))%nat → (sum_list_with (λ g, S (rank g)) futs ≤ steps_of (ACore j) sched2)%nat) →
  ∃ m1 m2, m_run fut_poll sched1 (with_callers m (SpawnLoad <$> futs)) = Ret m1 ∧
    m_run fut_poll sched2 m1 = Ret m2 ∧
    (∃ ids, m_callers m1 = (λ id, Spawned (Ok id)) <$> ids ∧ (ids_ok (with_callers m (SpawnLoad <$> futs)) → NoDup ids)) ∧
    length (m_callers m1) = length futs ∧ length (m_cores m2) = length (m_cores m) ∧
    idle_log (ls ++ (label <$> futs)) m2 ∧ log (m_world m2) ≡ₚ ls ++ (label <$> futs).
Proof.
  intros [Hok Hst] Hs1 Hs2.
  pose proof (λ l, machine_round _ _ _ _ (logs_ranked fut_poll rank label log l Hlogs) _ m futs sched1 sched2 (Hok l) Hst Hs1 Hs2) as Hround.
  destruct (Hround inhabitant) as (m1 & m2 & Hrun1 & Hrun2 & Hst1 & (work & Hok1) & Hcall & Hlc & Hlk & _ & _).
  assert (∀ l, machine_ok rank (has_label label l) (λ w, occurrences (log w) l) (occurrences (ls ++ (label <$> futs)) l) 0 m2 ∧
    occurrences (log (m_world m2)) l = occurrences (ls ++ (label <$> futs)) l) as Hall.
  { intros l. destruct (Hround l) as (m1' & m2' & Hr1 & Hr2 & _ & _ & _ & _ & _ & Hok' & Hfin).
    rewrite Hrun1 in Hr1. injection Hr1 as <-. rewrite Hrun2 in Hr2. injection Hr2 as <-.
    rewrite occurrences_labels in Hok', Hfin. unfold occurrences in *. rewrite count_occ_app. done. }
  exists m1, m2. split_and!; try done.
  - destruct (callers_returned _ _ _ _ _ _ Hok1 Hst1) as (ids & Hids & Hnd). exists ids. split; [done|].
    intros Hi. apply Hnd. by eapply m_run_ids.
  - split; [intros l; apply Hall|]. intros i. unfold stage_of. rewrite Hcall. apply Hst1.
  - apply (Permutation_count_occ (λ x y, decide (x = y))). intros l. apply Hall.
Qed.

Lemma idle_log_new counter rt (started : list (CpuCore Q G B)) (w : W) :
  log w = [] → rt_wf rt → state rt = Running → core_senders rt = message_inbox <$> started →
  Forall core_new_state started → idle_log [] (mkMachine [] counter rt started w).
Proof.
  intros Hlog Hwf Hrun Hq Hnew. split; [|done]. intros l. rewrite <-Hlog.
  by apply (machine_ok_new rank (has_label label l) (λ w, occurrences (log w) l)).
Qed.

(** [shutdown] and one more turn for each core, and then [join]. *)
Lemma idle_shutdown ls m sched :
  idle_log ls m → (∀ j, (j < length (m_cores m))%nat → (0 < steps_of (ACore j) sched)%nat) → (∀ i, ACaller i ∉ sched) →
  ∃ rt m', shutdown (m_rt m) = (Ok tt, rt) ∧
    m_run fut_poll sched (mkMachine (m_callers m) (m_counter m) rt (m_cores m) (m_world m)) = Ret m' ∧
    m_world m' = m_world m ∧ length (m_cores m') = length (m_cores m) ∧
    Forall (λ c, shutdown_flag c = true ∧ task_queue c = [] ∧ local_task_count c = 0%nat) (m_cores m') ∧
    join (const (Some (Ok tt)) <$> m_cores m') (m_rt m') = (Ok tt, set_state (m_rt m') Terminated).
Proof.
  intros [Hok _] Hs Hno. specialize (Hok inhabitant).
  assert (∀ j, work_of rank m j = 0%nat) as Hz.
  { intros j. pose proof (work_of_le _ _ _ _ _ _ j Hok). lia. }
  destruct (shutdown_ends _ _ _ _ _ _ Hok Hz) as (rt & Hsh & _ & Hend).
  destruct (m_run_ends fut_poll sched _ Hend Hno) as (m' & Hrun & Hend' & Hw & _ & Hl & Hstop).
  cbn [m_world m_cores] in Hw, Hl. exists rt, m'. split_and!; try done.
  - apply machine_ends_all; [done|]. intros j Hj. apply Hstop. right. apply Hs. lia.
  - unfold join. assert (join_loop (const (Some (Ok tt)) <$> m_cores m') = Ok tt) as ->; [|done].
    clear. induction (m_cores m'); done.
Qed.

End logged.

(** ** Properties *)

(** C1. The life of a multi-core runtime: [new] starts [n] cores, each of which
    can be bound when there are no more than an affinity mask holds; threads that
    call [spawn] at the same time as the cores run, whatever the order of their
    actions, all succeed, with task ids that are all different; when every poll
    of a future finishes it or brings it closer to its end, the cores finish
    every future exactly once, given turns enough for the polls: the labels of
    the futures that have finished are the labels of those that were spawned.
    [shutdown] then ends the loop of every core that gets one more turn, with
    nothing left in it, and [join] succeeds. *)
Theorem runtime_lifecycle {L Q G W B} `{EqDecision L, Inhabited L} `{SegQueueLaws Q (CoreMessage (L * G))} `{IoProviderLaws B}
    (fut_poll : G → W → polled unit * G * W) (rank : G → nat)
    (make_backend : Z → result B RuntimeError) start_thread cpus now cores (futs : list (L * G)) counter w
    (sched1 sched2 sched3 : list action) :
  (∀ g w, match fut_poll g w with
          | (PReady _, _, _) => True
          | (PPending, g', _) => (rank g' < rank g)%nat
          | (PPanicked, _, _) => False
          end) →
  let n := default cpus cores in
  0 < n ≤ CPU_SETSIZE → (∀ i, 0 ≤ i < n → start_result make_backend start_thread i = Ok tt) →
  0 ≤ counter → counter + Z.of_nat (length futs) < 2 ^ 64 →
  (∀ i, (i < length futs)%nat → (4 ≤ steps_of (ACaller i) sched1)%nat) →
  (∀ j, (j < Z.to_nat n)%nat → (sum_list_with (λ g, S (rank g.2)) futs ≤ steps_of (ACore j) sched2)%nat) →
  (∀ j, (j < Z.to_nat n)%nat → (0 < steps_of (ACore j) sched3)%nat) → (∀ i, ACaller i ∉ sched3) →
  let poll := labelled fut_poll in
  ∃ rt (started : list (CpuCore Q (L * G) B)) m1 m2 rt2 m3 ids,
    new make_backend start_thread cpus now cores = (Ok rt, started) ∧
    Forall (λ c, bind_to_cpu (core_id c) = Ret (Ok tt)) started ∧
    m_run poll sched1 (mkMachine (SpawnLoad <$> futs) counter rt started (w, [])) = Ret m1 ∧
    m_callers m1 = (λ id, Spawned (Ok id)) <$> ids ∧ length ids = length futs ∧ NoDup ids ∧
    m_run poll sched2 m1 = Ret m2 ∧ (m_world m2).2 ≡ₚ futs.*1 ∧
    shutdown (m_rt m2) = (Ok tt, rt2) ∧
    m_run poll sched3 (mkMachine (m_callers m2) (m_counter m2) rt2 (m_cores m2) (m_world m2)) = Ret m3 ∧
    m_world m3 = m_world m2 ∧ length (m_cores m3) = Z.to_nat n ∧
    Forall (λ c, shutdown_flag c = true ∧ task_queue c = [] ∧ local_task_count c = 0%nat) (m_cores m3) ∧
    join (const (Some (Ok tt)) <$> m_cores m3) (m_rt m3) = (Ok tt, set_state (m_rt m3) Terminated).
Proof.
  intros Hrank n Hn Hstart Hc Hlim Hs1 Hs2 Hs3 Hs3' poll.
  assert (CPU_SETSIZE < 2 ^ 64) as Hcpus by done.
  destruct (new_ok make_backend start_thread cpus now cores ltac:(fold n; lia) Hstart)
    as (rt & started & Hnew & _ & _ & Hwf & Hrun & Hq & Hl & Hst & Hid). fold n in Hl, Hid.
  set (m0 := mkMachine [] counter rt started (w, []) : machine Q (L * G) (W * list L) B).
  destruct (round_logged poll _ _ _ (labelled_logs fut_poll rank Hrank) [] m0 futs sched1 sched2) as (m1 & m2 & Hrun1 & Hrun2 & Hids & Hlc & Hlk & Hidle & Hlog).
  { by apply idle_log_new. } { done. } { intros j Hj. apply Hs2. by rewrite <-Hl. }
  destruct Hids as (ids & Hids & Hnd). cbn [m0 m_cores] in Hlk.
  destruct (idle_shutdown poll _ _ _ _ m2 sched3 Hidle) as (rt2 & m3 & Hsh & Hrun3 & Hw3 & Hl3 & Hend & Hjoin);
    [intros j Hj; apply Hs3; lia|done|].
  exists rt, started, m1, m2, rt2, m3, ids. split_and!; try done; [| | |lia].
  - eapply Forall_impl; [exact Hid|]. cbv beta. intros c Hc'. unfold bind_to_cpu.
    rewrite (proj2 (Z.ltb_lt _ _)); [done|lia].
  - rewrite <-Hlc, Hids. by rewrite length_fmap.
  - by apply Hnd, ids_ok_start.
Qed.

(** C31. When [new] fails: no cores are asked for, or the backend or the thread of
    core [k] cannot be made. The error is the one of that core, the [k] cores
    before it have already been started, and as nobody has their inboxes any
    more, none of them ever ends its loop, however long it runs. *)
Theorem new_failure_leaves_cores {Q G W B} `{SegQueueLaws Q (CoreMessage G)} `{IoProviderLaws B}
    (make_backend : Z → result B RuntimeError) start_thread cpus now cores (k : nat) e :
  let n := default cpus cores in
  (n = 0 → new (Q:=Q) (G:=G) make_backend start_thread cpus now cores =
     (Err (TaskFailed "Cannot create runtime with 0 CPUs"), [])) ∧
  (Z.of_nat k < n → (∀ i, 0 ≤ i < Z.of_nat k → start_result make_backend start_thread i = Ok tt) →
   start_result make_backend start_thread (Z.of_nat k) = Err e →
   ∃ started : list (CpuCore Q G B),
     new make_backend start_thread cpus now cores = (Err e, started) ∧ length started = k ∧
     ∀ c (fut_poll : G → W → polled unit * G * W) m w,
       c ∈ started → core_run fut_poll (replicate m []) c w = NoFuel).
Proof.
  intros n. split; intros Hn; [unfold new; fold n; by rewrite Hn|]. intros Hok He.
  unfold new. fold n. rewrite (proj2 (Z.eqb_neq n 0)) by lia.
  destruct (start_cores_fails make_backend start_thread now (Z.to_nat n) 0 e k) as (started & -> & Hl & Hnew);
    [lia|done|done|].
  exists started. split_and!; try done. intros c fut_poll m w Hc. apply core_run_empty.
  by eapply Forall_forall in Hnew.
Qed.

(** ** Witnesses *)

(** Two cores, three threads that call [spawn] while the cores run. *)
Definition life_demo1 : list action :=
  concat (replicate 4 [ACaller 2; ACore 0; ACaller 0; ACaller 1; ACore 1]).
Definition life_demo2 : list action := concat (replicate 6 [ACore 1; ACaller 1; ACore 0]).
Definition life_demo3 : list action := [ACore 1; ACore 0].

Definition life_futs : list (nat * nat) := [(7, 2); (8, 0); (9, 1)]%nat.

Lemma runtime_lifecycle_witness :
  let poll := labelled core_demo_poll in
  ∃ rt (started : list (CpuCore (list (CoreMessage (nat * nat))) (nat * nat) DummyIoBackend)) m1 m2 rt2 m3 ids,
    new (λ _, Ok Dummy) (λ _, Ok tt) 8 0 (Some 2) = (Ok rt, started) ∧
    Forall (λ c, bind_to_cpu (core_id c) = Ret (Ok tt)) started ∧
    m_run poll life_demo1 (mkMachine (SpawnLoad <$> life_futs) 1 rt started (0%nat, [])) = Ret m1 ∧
    m_callers m1 = (λ id, Spawned (Ok id)) <$> ids ∧ length ids = 3%nat ∧ NoDup ids ∧
    m_run poll life_demo2 m1 = Ret m2 ∧ (m_world m2).2 ≡ₚ [7; 8; 9]%nat ∧
    shutdown (m_rt m2) = (Ok tt, rt2) ∧
    m_run poll life_demo3 (mkMachine (m_callers m2) (m_counter m2) rt2 (m_cores m2) (m_world m2)) = Ret m3 ∧
    m_world m3 = m_world m2 ∧ length (m_cores m3) = 2%nat ∧
    Forall (λ c, shutdown_flag c = true ∧ task_queue c = [] ∧ local_task_count c = 0%nat) (m_cores m3) ∧
    join (const (Some (Ok tt)) <$> m_cores m3) (m_rt m3) = (Ok tt, set_state (m_rt m3) Terminated).
Proof.
  apply (runtime_lifecycle core_demo_poll id (λ _, Ok Dummy) (λ _, Ok tt) 8 0 (Some 2) life_futs 1 0%nat).
  - intros [|n] w; cbn; [done|lia].
  - cbn. split; [lia|done].
  - reflexivity.
  - lia.
  - cbn. lia.
  - intros [|[|[|i]]] Hi; [vm_compute; lia..|]. exfalso. cbn in Hi. lia.
  - intros [|[|j]] Hj; [vm_compute; lia..|]. exfalso. cbn in Hj. lia.
  - intros [|[|j]] Hj; [vm_compute; lia..|]. exfalso. cbn in Hj. lia.
  - intros i Hi. apply elem_of_cons in Hi as [|[|[]%elem_of_nil]%elem_of_cons]; done.
Defined.

(** The backend of the third of four cores cannot be made. *)
Lemma new_failure_leaves_cores_witness :
  let make (i : Z) : result DummyIoBackend RuntimeError := if i =? 2 then Err NotInitialized else Ok Dummy in
  ∃ started : list core_demo,
    new make (λ _, Ok tt) 8 0 (Some 4) = (Err NotInitialized, started) ∧ length started = 2%nat ∧
    ∀ c (fut_poll : nat → nat → polled unit * nat * nat) m w,
      c ∈ started → core_run fut_poll (replicate m []) c w = NoFuel.
Proof.
  intros make.
  apply (proj2 (new_failure_leaves_cores make (λ _, Ok tt) 8 0 (Some 4) 2 NotInitialized)).
  - reflexivity.
  - intros i Hi. unfold start_result, make. destruct (Z.eqb_spec i 2); [lia|done].
  - reflexivity.
Defined.
