(* ===== verification/MulticoreDemo.v ===== *)
(** * The multi-core example (examples/multicore_demo.rs)

    [main] makes a runtime with four cores, gives it tasks in three rounds and
    waits after each until they are done, computes a number under [block_on] and
    shuts the runtime down. The calls of [spawn] of one round are callers of the
    machine of [MulticoreSystem], in any order; that the main thread makes them
    one after the other is a case of it. What is printed is left out, and so are
    the times measured. *)

From S2P Require Import Prelude Interfaces Waker Task Timer Io Multicore MulticoreProps MulticoreLive MulticoreSystem.

(** ** The tasks *)

(** Tasks of [demo_basic_distribution], [demo_cpu_distribution] and
    [demo_performance_comparison]. *)
Inductive demo_task := BasicTask (i : Z) | ReportTask (i : Z) | BenchTask (i : Z).

#[export] Instance demo_task_eq_dec : EqDecision demo_task.
Proof. solve_decision. Defined.

#[export] Instance demo_task_inhabited : Inhabited demo_task := populate (BasicTask 0).

(** What the tasks share: the counter of the first round, the entries of
    [results] and the signals of the second, and the counter and the signal of
    the third. *)
Record DemoShared := mkDemoShared {
  basic_counter : Z;
  results : list Z;
  report_signals : nat;
  bench_counter : Z;
  bench_signals : nat
}.

Definition demo_shared0 : DemoShared := mkDemoShared 0 [] 0 0 0.

(** Each task does its work in its first poll. *)
Definition demo_task_poll (t : demo_task) (s : DemoShared) : polled unit * demo_task * DemoShared :=
  (PReady tt, t,
   match t with
   | BasicTask _ =>
       mkDemoShared (basic_counter s + 1) (results s) (report_signals s) (bench_counter s) (bench_signals s)
   | ReportTask i =>
       mkDemoShared (basic_counter s) (results s ++ [i]) (S (report_signals s)) (bench_counter s) (bench_signals s)
   | BenchTask i =>
       mkDemoShared (basic_counter s) (results s) (report_signals s) (bench_counter s + 1)
         (if i =? 99 then S (bench_signals s) else bench_signals s)
   end).

(** The same, with a record of the tasks done, which the program does not keep. *)
Definition demo_poll (t : demo_task) (w : DemoShared * list demo_task)
    : polled unit * demo_task * (DemoShared * list demo_task) :=
  let '(res, t', s) := demo_task_poll t w.1 in (res, t', (s, w.2 ++ [t])).

Definition basic_tasks : list demo_task := BasicTask <$> seqZ 0 20.
Definition report_tasks (cpu_count : Z) : list demo_task := ReportTask <$> seqZ 0 cpu_count.
Definition bench_tasks : list demo_task := BenchTask <$> seqZ 0 100.

(** The loop of [demo_block_on]. *)
Definition factorial : Z := fold_left (λ factorial i, wrap64 (factorial * i)) (seqZ 1 10) 1.

Section demo.
Context {Q B : Type} `{SegQueue Q (CoreMessage demo_task)} `{IoProvider B}.

Abbreviation demo_machine := (machine Q demo_task (DemoShared * list demo_task) B).

(** One round: the calls of [spawn], during [spawning], and the wait for the
    tasks, during [waiting]. A [spawn] that fails ends [main]. *)
Definition demo_round (spawning waiting : list action) (ts : list demo_task) (m : demo_machine)
    : outcome (result demo_machine unit) :=
  m ← m_run demo_poll spawning
        (mkMachine (SpawnLoad <$> ts) (m_counter m) (m_rt m) (m_cores m) (m_world m));
  if forallb (λ t, match t with Spawned (Ok _) => true | _ => false end) (m_callers m)
  then m ← m_run demo_poll waiting m; Ret (Ok m)
  else Ret (Err tt).

(** [main]; the schedules are those of the three rounds. *)
Definition demo_main (create_io_backend : Z → result B RuntimeError) (start_thread : Z → result unit string)
    (cpus now counter : Z) (s1 w1 s2 w2 s3 w3 : list action) (fuel : nat)
    : outcome (option (demo_machine * Z * result unit RuntimeError * MultiCoreRuntime Q)) :=
  match new create_io_backend start_thread cpus now (Some 4) with
  | (Err _, _) => Ret None
  | (Ok runtime, cores) =>
      m ← demo_round s1 w1 basic_tasks (mkMachine [] counter runtime cores (demo_shared0, []));
      match m with
      | Err _ => Ret None
      | Ok m =>
          m ← demo_round s2 w2 (report_tasks (cpu_count (m_rt m))) m;
          match m with
          | Err _ => Ret None
          | Ok m =>
              m ← demo_round s3 w3 bench_tasks m;
              match m with
              | Err _ => Ret None
              | Ok m =>
                  '(product, _) ← block_on (λ (f : unit) (w : unit), (PReady factorial, f, w)) fuel tt tt;
                  let '(r, runtime) := shutdown (m_rt m) in
                  Ret (Some (m, product, r, runtime))
              end
          end
      end
  end.

End demo.

(** ** Facts *)

Lemma demo_logs : logs demo_poll (λ _, 0%nat) (λ t, t) snd.
Proof. intros t [s log]. by destruct t. Qed.

(** What the tasks share is determined by the tasks done. *)
Definition basic_of (t : demo_task) : option Z := match t with BasicTask i => Some i | _ => None end.
Definition report_of (t : demo_task) : option Z := match t with ReportTask i => Some i | _ => None end.
Definition bench_of (t : demo_task) : option Z := match t with BenchTask i => Some i | _ => None end.

Definition demo_inv (w : DemoShared * list demo_task) : Prop :=
  basic_counter w.1 = Z.of_nat (length (omap basic_of w.2)) ∧
  results w.1 = omap report_of w.2 ∧ report_signals w.1 = length (omap report_of w.2) ∧
  bench_counter w.1 = Z.of_nat (length (omap bench_of w.2)) ∧
  bench_signals w.1 = length (filter (λ i, i = 99) (omap bench_of w.2)).

Lemma demo_poll_inv t w : demo_inv w → demo_inv (demo_poll t w).2.
Proof.
  destruct w as [s log]. intros (Hb & Hr & Hs & Hp & Hq). unfold demo_inv, demo_poll. cbn in *.
  rewrite !omap_app, filter_app. destruct t as [i|i|i]; cbn [demo_task_poll basic_counter results report_signals
    bench_counter bench_signals snd fst]; csimpl; rewrite ?app_nil_r, ?length_app; csimpl;
    split_and!; try done; try (rewrite Hb || rewrite Hp || rewrite Hr || rewrite Hs || idtac); try lia.
  - done.
  - rewrite filter_cons, filter_nil. destruct (Z.eqb_spec i 99); [rewrite decide_True by done|rewrite decide_False by done]; cbn; lia.
Qed.

Section demo_facts.
Context {Q B : Type} `{SegQueueLaws Q (CoreMessage demo_task)} `{IoProviderLaws B}.
Implicit Types (m : machine Q demo_task (DemoShared * list demo_task) B).

(** Each [spawn] of [k] tasks gets its four actions, and each of [n] cores a turn
    for each task. *)
Definition fair_round (n k : nat) (spawning waiting : list action) : Prop :=
  (∀ i, (i < k)%nat → (4 ≤ steps_of (ACaller i) spawning)%nat) ∧
  (∀ j, (j < n)%nat → (k ≤ steps_of (ACore j) waiting)%nat).

(** Between two rounds. *)
Definition demo_idle (ls : list demo_task) m : Prop :=
  idle_log (λ _, 0%nat) (λ t, t) snd ls m ∧ demo_inv (m_world m) ∧ length (m_cores m) = 4%nat.

Lemma sum_list_with_ones {A} (l : list A) : sum_list_with (λ _, 1%nat) l = length l.
Proof. induction l; simpl; congruence. Qed.

Lemma demo_round_ok ls m ts spawning waiting :
  demo_idle ls m → fair_round 4 (length ts) spawning waiting →
  ∃ m', demo_round spawning waiting ts m = Ret (Ok m') ∧ demo_idle (ls ++ ts) m' ∧ (m_world m').2 ≡ₚ ls ++ ts.
Proof.
  intros (Hidle & Hinv & Hl) [Hf1 Hf2].
  destruct (round_logged demo_poll _ _ _ demo_logs ls m ts spawning waiting Hidle Hf1)
    as (m1 & m2 & Hrun1 & Hrun2 & (ids & Hids & _) & _ & Hl2 & Hidle2 & Hlog).
  { intros j Hj. rewrite sum_list_with_ones. apply Hf2. lia. }
  rewrite list_fmap_id in Hidle2, Hlog.
  exists m2. unfold demo_round. unfold with_callers in Hrun1. rewrite Hrun1. cbn [mbind outcome_bind].
  assert (forallb (λ t, match t with Spawned (Ok _) => true | _ => false end) (m_callers m1) = true) as ->.
  { rewrite Hids. clear. by induction ids. }
  rewrite Hrun2. split; [done|]. split; [|done]. split_and!; [done| |lia].
  eapply (m_run_world demo_poll demo_inv demo_poll_inv); [|exact Hrun2].
  eapply (m_run_world demo_poll demo_inv demo_poll_inv); [|exact Hrun1]. exact Hinv.
Qed.

Lemma demo_idle_cpus ls m : demo_idle ls m → cpu_count (m_rt m) = 4.
Proof.
  intros ([Hok _] & _ & Hl). destruct (Hok inhabitant) as ((_ & Hn & _) & _ & Hlen & _). unfold cpu_count. lia.
Qed.

End demo_facts.

(** ** Property *)

(** C19. The multi-core example does what it says: when the four cores can be
    started, and in each of the three rounds the calls of [spawn] are made and
    every core gets as many turns as the round has tasks, [main] ends, with the
    first counter at 20, one entry in [results] and one signal for each of the
    four cores, the second counter at 100 with one signal, and the factorial of
    10; and [shutdown] succeeds. *)
Theorem multicore_demo_runs {Q B} `{SegQueueLaws Q (CoreMessage demo_task)} `{IoProviderLaws B}
    (make_backend : Z → result B RuntimeError) start_thread cpus now counter s1 w1 s2 w2 s3 w3 fuel :
  (∀ i, 0 ≤ i < 4 → start_result make_backend start_thread i = Ok tt) →
  fair_round 4 20 s1 w1 → fair_round 4 4 s2 w2 → fair_round 4 100 s3 w3 → (0 < fuel)%nat →
  ∃ (m : machine Q demo_task (DemoShared * list demo_task) B) rt,
    demo_main make_backend start_thread cpus now counter s1 w1 s2 w2 s3 w3 fuel = Ret (Some (m, 3628800, Ok tt, rt)) ∧
    state rt = ShuttingDown ∧
    let shared := (m_world m).1 in
    basic_counter shared = 20 ∧ results shared ≡ₚ [0; 1; 2; 3] ∧ report_signals shared = 4%nat ∧
    bench_counter shared = 100 ∧ bench_signals shared = 1%nat.
Proof.
  intros Hstart Hf1 Hf2 Hf3 Hfuel.
  destruct (new_ok make_backend start_thread cpus now (Some 4)) as (rt & started & Hnew & _ & _ & Hwf & Hrun & Hq & Hl & Hst & _);
    [done|exact Hstart|].
  set (m0 := mkMachine [] counter rt started (demo_shared0, []) : machine Q demo_task (DemoShared * list demo_task) B).
  assert (demo_idle [] m0) as Hi0 by (split_and!; [by apply idle_log_new|done|exact Hl]).
  destruct (demo_round_ok [] m0 basic_tasks s1 w1 Hi0 Hf1) as (m1 & Hr1 & Hi1 & _).
  destruct (demo_round_ok _ m1 (report_tasks 4) s2 w2 Hi1 Hf2) as (m2 & Hr2 & Hi2 & _).
  destruct (demo_round_ok _ m2 bench_tasks s3 w3 Hi2 Hf3) as (m3 & Hr3 & Hi3 & Hlog).
  assert (state (m_rt m3) = Running) as Hrun3 by (destruct Hi3 as ([Hok _] & _); apply (Hok inhabitant)).
  exists m3. eexists. split; [|split].
  - unfold demo_main. rewrite Hnew. fold m0. rewrite Hr1. cbn [mbind outcome_bind].
    rewrite (demo_idle_cpus _ _ Hi1), Hr2. cbn [mbind outcome_bind]. rewrite Hr3. cbn [mbind outcome_bind].
    destruct fuel as [|fuel]; [lia|]. cbn [block_on mbind outcome_bind]. unfold shutdown. rewrite Hrun3. reflexivity.
  - done.
  - destruct Hi3 as (_ & (Hb & Hr & Hs & Hp & Hsig) & _). cbv zeta. rewrite Hb, Hr, Hs, Hp, Hsig.
    rewrite Hlog. vm_compute. split_and!; try done.
Qed.

(** Every thread in turn, over and over. *)
Lemma steps_of_rounds (a : action) (n : nat) (l : list action) :
  a ∈ l → (n ≤ steps_of a (concat (replicate n l)))%nat.
Proof.
  intros Ha. induction n as [|n IH]; [lia|]. cbn [replicate concat].
  assert (steps_of a (l ++ concat (replicate n l)) = steps_of a l + steps_of a (concat (replicate n l)))%nat as ->.
  { unfold steps_of. by rewrite filter_app, length_app. }
  assert (0 < steps_of a l)%nat; [|lia]. unfold steps_of.
  destruct (filter (a =.) l) as [|x l'] eqn:E; [|cbn; lia].
  assert (a ∈ filter (a =.) l) as Hin by by apply list_elem_of_filter.
  rewrite E in Hin. by apply elem_of_nil in Hin.
Qed.

Definition demo_spawning (k : nat) : list action := concat (replicate 4 (ACaller <$> seq 0 k)).
Definition demo_waiting (k : nat) : list action := concat (replicate k (ACore <$> seq 0 4)).

Lemma demo_fair k : fair_round 4 k (demo_spawning k) (demo_waiting k).
Proof. split; intros i Hi; apply steps_of_rounds, list_elem_of_fmap_2, elem_of_seq; lia. Qed.

Lemma multicore_demo_runs_witness :
  ∃ (m : machine (list (CoreMessage demo_task)) demo_task (DemoShared * list demo_task) DummyIoBackend) rt,
    demo_main (λ _, Ok Dummy) (λ _, Ok tt) 8 0 1 (demo_spawning 20) (demo_waiting 20) (demo_spawning 4) (demo_waiting 4)
      (demo_spawning 100) (demo_waiting 100) 1 = Ret (Some (m, 3628800, Ok tt, rt)) ∧
    state rt = ShuttingDown ∧
    let shared := (m_world m).1 in
    basic_counter shared = 20 ∧ results shared ≡ₚ [0; 1; 2; 3] ∧ report_signals shared = 4%nat ∧
    bench_counter shared = 100 ∧ bench_signals shared = 1%nat.
Proof.
  apply (multicore_demo_runs (λ _, Ok Dummy) (λ _, Ok tt) 8 0 1 (demo_spawning 20) (demo_waiting 20) (demo_spawning 4)
    (demo_waiting 4) (demo_spawning 100) (demo_waiting 100) 1); [reflexivity|apply demo_fair..|lia].
Defined.
