(* ===== verification/Runtime.v ===== *)
(** * The single-threaded [Runtime] and the other ways to block on a future
    (src/executor.rs [Runtime] and [Executor::block_on], src/lib.rs [block_on],
    src/task.rs [TaskBuilder] and [spawn])

    [Runtime::block_on] makes an I/O backend and an I/O state for its thread,
    polls one future and feeds the backend's completions to the I/O state
    between polls. Tasks spawned on the runtime go to the executor it holds. *)

From S2P Require Import Prelude Interfaces Waker Task Executor Io.

Section runtime.
Context {B F W T : Type} `{IoProvider B}.

(** Polling the future with the I/O state of the thread and the waker that
    unparks it. *)
Variable fut_poll : F → CpuIoState B unit → W → polled T * F * CpuIoState B unit * W.

(** What other threads do to the world while this one is parked. *)
Variable park : W → W.

(** The loop of [Runtime::block_on]; a panic of the future unwinds through it. *)
Fixpoint block_loop (fuel : nat) (fut : F) (io : CpuIoState B unit) (w : W) : outcome (T * W) :=
  match fuel with
  | O => NoFuel
  | S fuel =>
      let '(res, fut, io, w) := fut_poll fut io w in
      match res with
      | PReady v => Ret (v, w)
      | PPanicked => Panic
      | PPending =>
          let '(_, _, io) := poll_io_completions io in
          block_loop fuel fut io (park w)
      end
  end.

(** [Runtime::block_on] with the backend its constructor gives, if it works,
    and the thread's [CURRENT_CPU_IO_STATE] after it has returned. *)
Definition Runtime_block_on (fuel : nat) (backend : result B io_error) (fut : F) (w : W)
    : outcome (T * option (CpuIoState B unit) * W) :=
  match backend with
  | Err _ => Panic
  | Ok b =>
      '(v, w) ← block_loop fuel fut (CpuIoState_new b) w;
      Ret (v, clear_current_io_state None, w)
  end.

(** [rust_miniss::block_on]: a runtime for this one call. *)
Definition lib_block_on := Runtime_block_on.

(** [Executor::block_on]: no I/O state; the thread parks until it is unparked. *)
Fixpoint Executor_block_on (poll : F → W → polled T * F * W) (fuel : nat) (fut : F) (w : W)
    : outcome (T * W) :=
  match fuel with
  | O => NoFuel
  | S fuel =>
      let '(res, fut, w) := poll fut w in
      match res with
      | PReady v => Ret (v, w)
      | PPanicked => Panic
      | PPending => Executor_block_on poll fuel fut (park w)
      end
  end.

End runtime.

(** ** [Runtime] *)

Section runtime_record.
Context {Q C F W T P : Type} `{SegQueue Q TaskId} `{Channel C (TaskResult T P)}.

Record Runtime := mkRuntime {
  executor : Executor Q F;
  runtime_shutdown_flag : bool
}.

Definition Runtime_new : Runtime := mkRuntime Executor.new false.

Definition Runtime_spawn (fut : F) (rt : Runtime) (env : Env C W) : TaskId * nat * Runtime * Env C W :=
  let '(id, ch, ex, env) := Executor.spawn fut (executor rt) env in
  (id, ch, mkRuntime ex (runtime_shutdown_flag rt), env).

(** ** [TaskBuilder::spawn_single_cpu], and so [TaskBuilder::spawn] and [spawn]

    A new executor with this one task, which a new thread runs; the handle is
    what [spawn] gives. *)
Definition spawn_single_cpu (fut : F) (env : Env C W)
    : result (TaskId * nat) unit * Executor Q F * Env C W :=
  let '(id, ch, ex, env) := Executor.spawn fut Executor.new env in (Ok (id, ch), ex, env).

Definition TaskBuilder_spawn (fut : F) (env : Env C W) := spawn_single_cpu fut env.

Definition task_spawn (fut : F) (env : Env C W) := TaskBuilder_spawn fut env.

End runtime_record.
Arguments Runtime Q F : clear implicits.

(** ** Futures to block on *)

(** An [IoFuture] as the future of [block_on]. *)
Definition io_future_poll {B W} (t : IoToken) (io : CpuIoState B unit) (w : W)
    : polled IoResult * IoToken * CpuIoState B unit * W :=
  match IoFuture_poll t tt io with
  | (Ready r, io) => (PReady r, t, io, w)
  | (Pending, io) => (PPending, t, io, w)
  end.

(** A join handle as the future of [block_on]; the world is its channel. *)
Definition join_future_poll {B C T P} `{Channel C (TaskResult T P)}
    (h : JoinHandle unit) (io : CpuIoState B unit) (c : C)
    : polled (TaskResult T P) * JoinHandle unit * CpuIoState B unit * C :=
  match Task.poll tt h c with
  | (Ready r, h, c) => (PReady r, h, io, c)
  | (Pending, h, c) => (PPending, h, io, c)
  end.

(** A join handle as the future of a task; the world is its channel. Nobody
    takes the waker that [poll] stores in the handle. *)
Definition join_task_poll {C T P} `{Channel C (TaskResult T P)} (id : TaskId) (h : JoinHandle TaskId) (c : C)
    : poll_out (JoinHandle TaskId) C (TaskResult T P) :=
  match Task.poll id h c with
  | (Ready r, h, c) => mkPollOut (PReady r) h c []
  | (Pending, h, c) => mkPollOut PPending h c []
  end.

(** ** Facts *)

Section runtime_facts.
Context {B W : Type} `{IoProviderLaws B}.

(** The backend after [k] polls. *)
Fixpoint polls (k : nat) (b : B) : B :=
  match k with
  | O => b
  | S k => polls k (poll_complete b).2
  end.

(** What poll number [k] gives. *)
Definition nth_poll (k : nat) (b : B) : Poll (list Completion) := (poll_complete (polls k b)).1.

Definition completes (p : Poll (list Completion)) (t : IoToken) (r : IoResult) : Prop :=
  ∃ cs op, p = Ready cs ∧ (t, op, r) ∈ cs.

Definition mentions (p : Poll (list Completion)) (t : IoToken) : Prop :=
  ∃ cs, p = Ready cs ∧ t ∈ c_token <$> cs.

Lemma poll_io_backend (io : CpuIoState B unit) :
  io_backend (poll_io_completions io).2 = (poll_complete (io_backend io)).2.
Proof.
  unfold poll_io_completions. destruct (poll_complete (io_backend io)) as [[[|c cs]|] b]; try done.
  set (st := mkCpuIoState _ _ _).
  assert (∀ cs (st : CpuIoState B unit), io_backend (deliver cs st).2 = io_backend st) as Hb.
  { clear. induction cs as [|c cs IH]; intros st; [done|]. by rewrite (proj1 (deliver_cons c cs st)), IH. }
  specialize (Hb (c :: cs) st). destruct (deliver (c :: cs) st) as [ws st']. exact Hb.
Qed.

Lemma poll_io_unmentioned (io : CpuIoState B unit) t :
  ¬ mentions (poll_complete (io_backend io)).1 t → same_at t (poll_io_completions io).2 io.
Proof.
  unfold poll_io_completions. intros Hno.
  destruct (poll_complete (io_backend io)) as [[[|c cs]|] b]; try done. simpl in Hno.
  set (st := mkCpuIoState _ _ _).
  assert (t ∉ c_token <$> c :: cs) as Ht by (intros Hin; apply Hno; eexists; eauto).
  pose proof (deliver_same_at t (c :: cs) st Ht) as Hs.
  destruct (deliver (c :: cs) st) as [ws st']. exact Hs.
Qed.

Lemma poll_io_completes (io : CpuIoState B unit) t r :
  completes (poll_complete (io_backend io)).1 t r →
  completed_io (poll_io_completions io).2 !! t = Some r.
Proof.
  unfold poll_io_completions. intros (cs & op & Hp & Hin).
  pose proof (poll_complete_spec (io_backend io)) as Hspec.
  destruct (poll_complete (io_backend io)) as [p b]. simpl in Hp. subst p.
  destruct cs as [|c cs]; [by apply elem_of_nil in Hin|]. set (st := mkCpuIoState _ _ _).
  destruct Hspec as [Hnd _]. destruct (deliver_completes t op r (c :: cs) st Hnd Hin) as [Hc _].
  destruct (deliver (c :: cs) st) as [ws st']. exact Hc.
Qed.

Lemma block_loop_io (park : W → W) t r k io w :
  completed_io io !! t = None →
  (∀ j, (j < k)%nat → ¬ mentions (nth_poll j (io_backend io)) t) →
  completes (nth_poll k (io_backend io)) t r →
  ∃ w', block_loop io_future_poll park (S (S k)) t io w = Ret (r, w').
Proof.
  revert io w. induction k as [|k IH]; intros io w Hnone Hno Hyes.
  - cbn [block_loop]. unfold io_future_poll at 1, IoFuture_poll. rewrite Hnone.
    set (io1 := mkCpuIoState _ _ _). pose proof (poll_io_completes io1 t r Hyes) as Hc.
    destruct (poll_io_completions io1) as [[b ws] io2]. simpl in Hc.
    unfold io_future_poll, IoFuture_poll. rewrite Hc. eauto.
  - cbn [block_loop]. unfold io_future_poll at 1, IoFuture_poll. rewrite Hnone.
    set (io1 := mkCpuIoState _ _ _).
    assert (¬ mentions (poll_complete (io_backend io1)).1 t) as Hno0 by (apply (Hno 0%nat); lia).
    pose proof (poll_io_unmentioned io1 t Hno0) as [_ Hc].
    pose proof (poll_io_backend io1) as Hb.
    destruct (poll_io_completions io1) as [[b ws] io2]. simpl in Hc, Hb.
    apply (IH io2 (park w)).
    + by rewrite Hc.
    + intros j Hj. rewrite Hb. apply (Hno (S j)). lia.
    + by rewrite Hb.
Qed.

Lemma not_outstanding_poll (b : B) t :
  t ∉ outstanding b →
  ¬ mentions (poll_complete b).1 t ∧ t ∉ outstanding (poll_complete b).2.
Proof.
  intros Ht. pose proof (poll_complete_spec b) as Hspec. destruct (poll_complete b) as [[cs|] b'].
  - destruct Hspec as (_ & Hin & Hsub). split.
    + intros (cs' & [= <-] & (c & -> & Hc)%list_elem_of_fmap). by apply Ht, Hin.
    + intros Ht'%Hsub. by apply elem_of_difference in Ht' as [? _].
  - split; [by intros (cs & ? & _)|]. intros Ht'. by apply Ht, Hspec.
Qed.

Lemma block_loop_hangs (park : W → W) t fuel io w :
  completed_io io !! t = None → t ∉ outstanding (io_backend io) →
  block_loop io_future_poll park fuel t io w = NoFuel.
Proof.
  revert io w. induction fuel as [|fuel IH]; intros io w Hnone Hout; [done|].
  cbn [block_loop]. unfold io_future_poll at 1, IoFuture_poll. rewrite Hnone.
  set (io1 := mkCpuIoState _ _ _).
  destruct (not_outstanding_poll (io_backend io1) t Hout) as [Hno Hout'].
  pose proof (poll_io_unmentioned io1 t Hno) as [_ Hc]. pose proof (poll_io_backend io1) as Hb.
  destruct (poll_io_completions io1) as [[? ?] io2]. simpl in *. apply IH; [by rewrite Hc|by rewrite Hb].
Qed.

End runtime_facts.

(** ** Claims *)

(** [Runtime::block_on] drives I/O to its end: with any backend that
    keeps the [IoProvider] contract, blocking on an [IoFuture] returns the
    result of its operation once the backend reports the completion, however
    many polls that takes, and leaves the thread without an I/O state. *)
Theorem block_on_io_completes {B W} `{IoProviderLaws B} (park : W → W) (b : B) t r k w :
  (∀ j, (j < k)%nat → ¬ mentions (nth_poll j b) t) → completes (nth_poll k b) t r →
  ∃ fuel w', Runtime_block_on io_future_poll park fuel (Ok b) t w = Ret (r, None, w').
Proof.
  intros Hno Hyes. destruct (block_loop_io park t r k (CpuIoState_new b) w) as [w' Hl]; [done..|].
  exists (S (S k)), w'. unfold Runtime_block_on. by rewrite Hl.
Qed.

(** A backend that completes token 3 at its second poll. *)
#[local] Instance late_provider : IoProvider nat := {
  submit op counter b := (IoToken_new counter, b);
  poll_complete b :=
    match b with
    | 1%nat => (Ready [(3, OpFsync 0, Ok CFsync)], 0%nat)
    | S b => (Pending, b)
    | O => (Pending, O)
    end;
  outstanding b := match b with O => ∅ | _ => {[ 3 ]} end
}.

#[local] Instance late_provider_laws : IoProviderLaws nat.
Proof.
  split; [intros op counter b|intros b]; simpl.
  - split; [done|]. apply union_subseteq_r.
  - destruct b as [|[|b]]; simpl; [done| |done]. split_and!.
    + apply NoDup_singleton.
    + intros c ->%list_elem_of_singleton. by apply elem_of_singleton.
    + apply empty_subseteq.
Qed.

Lemma block_on_io_completes_witness :
  ∃ fuel w', Runtime_block_on io_future_poll (λ w : unit, w) fuel (Ok 2%nat) 3 tt
    = Ret (Ok CFsync, None, w').
Proof.
  apply (block_on_io_completes (λ w : unit, w) 2%nat 3 (Ok CFsync) 1 tt).
  - intros j Hj. assert (j = 0%nat) as -> by lia. intros (cs & Hp & _). discriminate Hp.
  - exists [(3, OpFsync 0, Ok CFsync)], (OpFsync 0). split; [reflexivity|left].
Defined.

(** C37. Tasks spawned on a [Runtime] are never run: [block_on] polls only its
    own future, so blocking on the handle of a task just spawned with
    [Runtime::spawn] does not return, for any amount of fuel. *)
Theorem block_on_spawned_never_returns {B Q C F W T P} `{IoProvider B} `{SegQueueLaws Q TaskId}
    `{ChannelLaws C (TaskResult T P)} (b : B) (fut : F) (env : Env C W) fuel :
  let '(id, ch, rt, env') := Runtime_spawn fut (Runtime_new : Runtime Q F) env in
  ∀ c, chans env' !! ch = Some c →
    Runtime_block_on join_future_poll (λ c : C, c) fuel (Ok b) (JoinHandle_new id) c = NoFuel.
Proof.
  unfold Runtime_spawn, Executor.spawn. cbn [fetch_add1 Runtime_new executor Executor.new next_task_id
    insert_task tasks]. rewrite lookup_empty. intros c Hc. simpl in Hc. rewrite lookup_insert_eq in Hc.
  injection Hc as <-. unfold Runtime_block_on.
  assert (∀ h io, block_loop (B:=B) join_future_poll (λ c : C, c) fuel h io (ch_bounded 1) = NoFuel) as Hl.
  { induction fuel as [|fuel IH]; intros h io; [done|]. cbn [block_loop].
    unfold join_future_poll at 1. unfold Task.poll.
    destruct (ch_bounded_spec 1) as (He & _ & Hs & _).
    pose proof (ch_try_recv_spec (ch_bounded 1)) as Hspec.
    destruct (ch_try_recv (ch_bounded 1)) as [[r|[|]] c']; destruct_and?; [congruence| |lia].
    subst c'. destruct (poll_io_completions io) as [[? ?] io']. apply IH. }
  by rewrite Hl.
Qed.

Lemma block_on_spawned_never_returns_witness :
  let '(id, ch, rt, env') := Runtime_spawn 5%nat (Runtime_new : Runtime (list TaskId) nat)
    (mkEnv ∅ 0 tt : Env (list_channel (TaskResult nat unit)) unit) in
  ∀ c, chans env' !! ch = Some c →
    Runtime_block_on join_future_poll (λ c, c) 1000 (Ok Dummy) (JoinHandle_new id) c = NoFuel.
Proof.
  exact (block_on_spawned_never_returns (Q:=list TaskId) Dummy 5%nat
           (mkEnv ∅ 0 tt : Env (list_channel (TaskResult nat unit)) unit) 1000).
Defined.



(** Blocking on an operation the backend does not hold never returns:
    this is every operation submitted to [DummyIoBackend], and every one
    io_uring could not queue, since [submit] hands out a token all the same. *)
Theorem block_on_lost_operation_hangs {B W} `{IoProviderLaws B} (park : W → W) (b : B) t w fuel :
  t ∉ outstanding b → Runtime_block_on io_future_poll park fuel (Ok b) t w = NoFuel.
Proof. intros Hout. unfold Runtime_block_on. by rewrite block_loop_hangs. Qed.

Lemma block_on_lost_operation_hangs_witness :
  let '(t, _, b) := submit (OpFsync 3) 1 Dummy in
  Runtime_block_on io_future_poll (λ w : unit, w) 1000 (Ok b) t tt = NoFuel.
Proof. apply (block_on_lost_operation_hangs (λ w : unit, w) Dummy 1 tt 1000), not_elem_of_empty. Defined.
