(* ===== verification/TimerFutures.v ===== *)
(** * Futures that wait for time (src/timer/sleep.rs, src/timer/timeout.rs,
    src/timer/interval.rs, [spawn_periodic] of src/task.rs)

    Each future reads the clock itself. A [SleepFuture] schedules its waker on
    a timer wheel of its own, which nothing ever turns. *)

From S2P Require Import Prelude Interfaces Waker Task Executor Timer TimerProps.

Section timer_futures.
Context {Wk : Type}.

(** ** [SleepFuture] *)

Record SleepFuture := mkSleepFuture {
  wheel : TimerWheel Wk;
  end_time : Z
}.

(** [SleepFuture::new] reads the clock for the wheel and for the end. *)
Definition SleepFuture_new (now1 now2 duration : Z) : SleepFuture :=
  mkSleepFuture (TimerWheel_default now1) (now2 + duration).

(** [poll_inner]; [counter] is the global timer counter. *)
Definition poll_inner (now counter : Z) (waker : Wk) (f : SleepFuture)
    : outcome (Poll unit * Z * SleepFuture) :=
  if end_time f <=? now then Ret (Ready tt, counter, f)
  else
    '(_, counter, w) ← schedule counter (wheel f) (end_time f) waker;
    Ret (Pending, counter, mkSleepFuture w (end_time f)).

(** ** [Timeout] *)

Inductive TimeoutError := TimeoutErr.

Record Timeout (F : Type) := mkTimeout {
  t_future : F;
  t_timeout : SleepFuture
}.
Arguments mkTimeout {F} _ _.
Arguments t_future {F} _.
Arguments t_timeout {F} _.

(** [Timeout::new], which [FutureExt::with_timeout] calls. *)
Definition Timeout_new {F} (now1 now2 : Z) (fut : F) (duration : Z) : Timeout F :=
  mkTimeout fut (SleepFuture_new now1 now2 duration).

(** ** [Interval] *)

Record Interval := mkInterval {
  period : Z;
  next_tick : Z
}.

Definition Interval_new (now duration : Z) : Interval := mkInterval duration (now + duration).

(** Where the future of [tick] is suspended. *)
Inductive TickState :=
  | TickCheck
  | TickSleep (s : SleepFuture).

(** The clock: what the [k]th reading gives. *)
Variable clock : nat → Z.

(** Polling the future of [tick], from reading [k] on. *)
Fixpoint tick_poll (fuel k : nat) (counter : Z) (waker : Wk) (st : TickState) (iv : Interval)
    : outcome (Poll unit * nat * Z * TickState * Interval) :=
  match fuel with
  | O => NoFuel
  | S fuel =>
      match st with
      | TickCheck =>
          let now := clock k in
          if next_tick iv <=? now
          then Ret (Ready tt, S k, counter, TickCheck, mkInterval (period iv) (next_tick iv + period iv))
          else tick_poll fuel (3 + k) counter waker
                 (TickSleep (SleepFuture_new (clock (1 + k)) (clock (2 + k)) (next_tick iv - now))) iv
      | TickSleep s =>
          '(p, counter, s) ← poll_inner (clock k) counter waker s;
          match p with
          | Ready _ => tick_poll fuel (S k) counter waker TickCheck iv
          | Pending => Ret (Pending, S k, counter, TickSleep s, iv)
          end
      end
  end.

(** ** [spawn_periodic]: the [async] block it spawns *)

Inductive PeriodicState (G : Type) :=
  | PeriodicTick (st : TickState)
  | PeriodicCall (g : G).
Arguments PeriodicTick {G} st.
Arguments PeriodicCall {G} g.

(** [loop { interval.tick().await; callback().await; }]; it returns only
    [Pending]. *)
Fixpoint periodic_poll {G W} (callback : W → G * W) (call_poll : Wk → G → W → Poll unit * G * W)
    (fuel k : nat) (counter : Z) (waker : Wk) (st : PeriodicState G) (iv : Interval) (w : W)
    : outcome (nat * Z * PeriodicState G * Interval * W) :=
  match fuel with
  | O => NoFuel
  | S fuel =>
      match st with
      | PeriodicTick ts =>
          '(p, k, counter, ts, iv) ← tick_poll 4 k counter waker ts iv;
          match p with
          | Ready _ => let '(g, w) := callback w in
                       periodic_poll callback call_poll fuel k counter waker (PeriodicCall g) iv w
          | Pending => Ret (k, counter, PeriodicTick ts, iv, w)
          end
      | PeriodicCall g =>
          let '(p, g, w) := call_poll waker g w in
          match p with
          | Ready _ => periodic_poll callback call_poll fuel k counter waker (PeriodicTick TickCheck) iv w
          | Pending => Ret (k, counter, PeriodicCall g, iv, w)
          end
      end
  end.

End timer_futures.
Arguments SleepFuture Wk : clear implicits.
Arguments TickState Wk : clear implicits.
Arguments Timeout Wk F : clear implicits.
Arguments mkTimeout {Wk F} _ _.
Arguments t_future {Wk F} _.
Arguments t_timeout {Wk F} _.
Arguments PeriodicState Wk G : clear implicits.
Arguments PeriodicTick {Wk G} st.
Arguments PeriodicCall {Wk G} g.

Section timer_futures_facts.
Context {Wk : Type}.
Implicit Types (f : SleepFuture Wk) (clock : nat → Z).

Definition sleep_wf f : Prop := wheel_wf (wheel f).

Lemma SleepFuture_new_wf now1 now2 d : sleep_wf (SleepFuture_new (Wk:=Wk) now1 now2 d).
Proof. apply new_wf; lia. Qed.

Lemma poll_inner_spec now counter waker f :
  sleep_wf f →
  if end_time f <=? now then poll_inner now counter waker f = Ret (Ready tt, counter, f)
  else ∃ f', poll_inner now counter waker f = Ret (Pending, wrap64 (counter + 1), f') ∧
    sleep_wf f' ∧ end_time f' = end_time f ∧
    entries (wheel f') ≡ₚ entries (wheel f) ++ [mkEntry counter waker].
Proof.
  intros Hwf. unfold poll_inner. case_match eqn:Hle; [done|].
  destruct (schedule_wf counter (wheel f) (end_time f) waker _ Hwf (slot_offset_wf _ (end_time f) Hwf))
    as (slot & _ & Hs).
  destruct (schedule_entries _ _ _ _ _ _ _ Hwf Hs) as (_ & _ & Hwf' & Hp).
  rewrite Hs. simpl. eexists. split; [done|]. by split_and!.
Qed.

(** Polling a sleep at each of the given times. *)
Fixpoint sleep_polls (nows : list Z) (counter : Z) (waker : Wk) f
    : outcome (list (Poll unit) * Z * SleepFuture Wk) :=
  match nows with
  | [] => Ret ([], counter, f)
  | now :: nows =>
      '(p, counter, f) ← poll_inner now counter waker f;
      '(ps, counter, f) ← sleep_polls nows counter waker f;
      Ret (p :: ps, counter, f)
  end.

Lemma sleep_polls_pending nows counter waker f :
  sleep_wf f → Forall (λ now, now < end_time f) nows →
  ∃ counter' f', sleep_polls nows counter waker f = Ret (replicate (length nows) Pending, counter', f') ∧
    sleep_wf f' ∧ end_time f' = end_time f ∧
    length (entries (wheel f')) = (length (entries (wheel f)) + length nows)%nat.
Proof.
  intros Hwf Hall. revert counter f Hwf Hall. induction nows as [|now nows IH]; intros counter f Hwf Hall.
  { exists counter, f. simpl. split_and!; [done..|lia]. }
  apply Forall_cons in Hall as [Hlt Hall]. pose proof (poll_inner_spec now counter waker f Hwf) as Hp.
  destruct (Z.leb_spec (end_time f) now) as [?|_]; [lia|].
  destruct Hp as (f1 & Hp & Hwf1 & He1 & Hen1).
  destruct (IH (wrap64 (counter + 1)) f1 Hwf1) as (c2 & f2 & Hs & Hwf2 & He2 & Hen2); [by rewrite He1|].
  exists c2, f2. cbn [sleep_polls]. rewrite Hp. simpl. rewrite Hs. simpl.
  split_and!; [done|done|congruence|]. rewrite Hen2, (Permutation_length Hen1), length_app. simpl. lia.
Qed.

(** A suspended [tick] never sleeps past its own deadline check. *)
Definition tick_ok (st : TickState Wk) (iv : Interval) : Prop :=
  match st with
  | TickCheck => True
  | TickSleep s => sleep_wf s ∧ next_tick iv ≤ end_time s
  end.

Definition monotone clock : Prop := ∀ i j, (i ≤ j)%nat → clock i ≤ clock j.

Lemma tick_poll_check clock fuel k counter (waker : Wk) iv :
  next_tick iv ≤ clock k →
  tick_poll clock (S fuel) k counter waker TickCheck iv =
    Ret (Ready tt, S k, counter, TickCheck, mkInterval (period iv) (next_tick iv + period iv)).
Proof. intros Hle. cbn [tick_poll]. by rewrite (proj2 (Z.leb_le _ _) Hle). Qed.

Lemma tick_poll_early clock fuel k counter (waker : Wk) iv :
  clock k < next_tick iv →
  tick_poll clock (S fuel) k counter waker TickCheck iv =
    tick_poll clock fuel (3 + k) counter waker
      (TickSleep (SleepFuture_new (clock (1 + k)%nat) (clock (2 + k)%nat) (next_tick iv - clock k))) iv.
Proof. intros Hlt. cbn [tick_poll]. by rewrite (proj2 (Z.leb_gt _ _) Hlt). Qed.

(** From a suspended sleep: over (and then the check succeeds) or not. *)
Lemma tick_poll_sleep clock fuel k counter (waker : Wk) s iv :
  monotone clock → tick_ok (TickSleep s) iv →
  ∃ p k' counter' st' iv',
    tick_poll clock (S (S fuel)) k counter waker (TickSleep s) iv = Ret (p, k', counter', st', iv') ∧
    (k < k')%nat ∧ tick_ok st' iv' ∧
    match p with
    | Ready _ => next_tick iv ≤ clock (pred k') ∧ iv' = mkInterval (period iv) (next_tick iv + period iv)
    | Pending => iv' = iv ∧ clock k < end_time s ∧ ∃ s', st' = TickSleep s' ∧ end_time s' = end_time s
    end.
Proof.
  intros Hmono [Hwf Hle]. cbn [tick_poll]. pose proof (poll_inner_spec (clock k) counter waker s Hwf) as Hp.
  destruct (Z.leb_spec (end_time s) (clock k)) as [Hend|Hend].
  - rewrite Hp. cbn [mbind outcome_bind].
    pose proof (Hmono k (S k) ltac:(lia)). rewrite (proj2 (Z.leb_le _ _)) by lia.
    do 5 eexists. split; [done|]. simpl. split_and!; [lia|done|lia|done].
  - destruct Hp as (f' & -> & Hwf' & He & _). simpl.
    do 5 eexists. split; [done|]. split_and!; [lia|split; [done|lia]|done|lia|by eexists].
Qed.

Lemma tick_poll_spec clock k counter (waker : Wk) st iv :
  monotone clock → tick_ok st iv →
  ∃ p k' counter' st' iv',
    tick_poll clock 4 k counter waker st iv = Ret (p, k', counter', st', iv') ∧
    (k < k')%nat ∧ tick_ok st' iv' ∧
    match p with
    | Ready _ => next_tick iv ≤ clock (pred k') ∧ iv' = mkInterval (period iv) (next_tick iv + period iv)
    | Pending => iv' = iv ∧ ∃ s, st' = TickSleep s
    end.
Proof.
  intros Hmono Hok. destruct st as [|s].
  - destruct (Z.leb_spec (next_tick iv) (clock k)) as [Hle|Hlt].
    + rewrite (tick_poll_check _ _ _ _ _ _ Hle). do 5 eexists. split; [done|]. simpl. by split_and!; [lia|..].
    + rewrite (tick_poll_early _ _ _ _ _ _ Hlt).
      set (s := SleepFuture_new _ _ _).
      assert (tick_ok (TickSleep s) iv) as Hs.
      { split; [apply SleepFuture_new_wf|]. unfold s. cbn [SleepFuture_new end_time].
        pose proof (Hmono k (2 + k)%nat ltac:(lia)). lia. }
      destruct (tick_poll_sleep clock 1 (3 + k) counter waker s iv Hmono Hs)
        as (p & k' & c' & st' & iv' & Heq & ? & ? & Hp).
      exists p, k', c', st', iv'. split; [exact Heq|]. split_and!; [lia|done|].
      destruct p; [done|]. destruct Hp as (-> & _ & s' & -> & _). by split; [|eexists].
  - destruct (tick_poll_sleep clock 2 k counter waker s iv Hmono Hok)
      as (p & k' & c' & st' & iv' & Heq & ? & ? & Hp).
    exists p, k', c', st', iv'. split; [exact Heq|]. split_and!; [done..|].
    destruct p; [done|]. destruct Hp as (-> & _ & s' & -> & _). by split; [|eexists].
Qed.

(** Awaiting [n] ticks with enough polls: the readings at which they finish. *)
Fixpoint ticks_of (polls : nat) clock (k : nat) (counter : Z) (waker : Wk) (st : TickState Wk) (iv : Interval)
    : outcome (list Z * Interval) :=
  match polls with
  | O => Ret ([], iv)
  | S polls =>
      '(p, k, counter, st, iv) ← tick_poll clock 4 k counter waker st iv;
      '(done_at, iv) ← ticks_of polls clock k counter waker st iv;
      Ret (match p with Ready _ => clock (pred k) :: done_at | Pending => done_at end, iv)
  end.

Lemma ticks_of_spec polls clock k counter (waker : Wk) st iv :
  monotone clock → tick_ok st iv →
  ∃ done_at iv', ticks_of polls clock k counter waker st iv = Ret (done_at, iv') ∧
    period iv' = period iv ∧
    next_tick iv' = next_tick iv + Z.of_nat (length done_at) * period iv ∧
    ∀ i t, done_at !! i = Some t → next_tick iv + Z.of_nat i * period iv ≤ t.
Proof.
  intros Hmono. revert k counter st iv. induction polls as [|polls IH]; intros k counter st iv Hok.
  { exists [], iv. simpl. split_and!; [done|done|lia|]. intros i t Hi. by rewrite lookup_nil in Hi. }
  destruct (tick_poll_spec clock k counter waker st iv Hmono Hok)
    as (p & k' & c' & st' & iv' & Heq & _ & Hok' & Hp).
  cbn [ticks_of]. rewrite Heq. cbn [mbind outcome_bind].
  destruct (IH k' c' st' iv' Hok') as (done_at & iv2 & -> & Hper & Hnext & Hall). simpl.
  destruct p as [u|].
  - destruct Hp as [Hle ->]. simpl in *. exists (clock (pred k') :: done_at), iv2.
    split_and!; [done|done|simpl; rewrite Hnext; lia|].
    intros [|i] t; simpl; [intros [= <-]; lia|]. intros Hi. specialize (Hall _ _ Hi). lia.
  - destruct Hp as [-> _]. exists done_at, iv2. by split_and!.
Qed.

End timer_futures_facts.

(** ** A sleeping task under the executor

    The world is the clock; the wakers used go to the private wheel, so no
    task is put on the run queue. *)

Definition sleep_task_poll (id : TaskId) (f : SleepFuture TaskId * Z) (now : Z)
    : poll_out (SleepFuture TaskId * Z) Z unit :=
  match poll_inner now f.2 id f.1 with
  | Ret (Ready _, counter, s) => mkPollOut (PReady tt) (s, counter) now []
  | Ret (Pending, counter, s) => mkPollOut PPending (s, counter) now []
  | _ => mkPollOut PPanicked f now []
  end.

(** ** Claims *)

(** A sleep is never over early and is over at the first poll at or after
    its end: polled at any number of times before the end it stays pending
    (and each poll leaves one more entry in its private wheel), and polled at
    the end or later it is ready. No poll panics. *)
Theorem sleep_correct {Wk} now1 now2 d nows now counter (waker : Wk) :
  Forall (λ t, t < now2 + d) nows → now2 + d ≤ now →
  ∃ counter' f, sleep_polls nows counter waker (SleepFuture_new now1 now2 d) =
      Ret (replicate (length nows) Pending, counter', f) ∧
    length (entries (wheel f)) = length nows ∧
    poll_inner now counter' waker f = Ret (Ready tt, counter', f).
Proof.
  intros Hall Hnow.
  destruct (sleep_polls_pending nows counter waker (SleepFuture_new now1 now2 d)) as (c' & f & Hs & Hwf & He & Hlen);
    [apply SleepFuture_new_wf|done|].
  exists c', f. split; [done|]. split.
  - rewrite Hlen. unfold entries, SleepFuture_new, TimerWheel_default, Timer.new. cbn [wheel slots].
    rewrite join_replicate_nil. simpl. lia.
  - pose proof (poll_inner_spec now c' waker f Hwf) as Hp. rewrite He in Hp.
    by rewrite (proj2 (Z.leb_le (end_time (SleepFuture_new (Wk:=Wk) now1 now2 d)) now) Hnow) in Hp.
Qed.

Lemma sleep_correct_witness :
  ∃ counter' f, sleep_polls [10; 19] 1 5%nat (SleepFuture_new 0 0 20) =
      Ret (replicate 2 Pending, counter', f) ∧
    length (entries (wheel f)) = 2%nat ∧ poll_inner 20 counter' 5%nat f = Ret (Ready tt, counter', f).
Proof.
  apply (sleep_correct 0 0 20 [10; 19] 20 1 5%nat); [repeat constructor; lia|lia].
Defined.

(** An interval does not drift and does not fire early: on a clock that
    does not go back, however often and late the future of [tick] is polled,
    no poll panics or loops, the [i]th tick finishes no earlier than the start
    plus [i+1] periods, and after [n] ticks the next one is due exactly [n]
    periods later than the first. *)
Theorem interval_no_drift {Wk} clock now d polls k counter (waker : Wk) :
  monotone clock →
  ∃ done_at iv, ticks_of polls clock k counter waker TickCheck (Interval_new now d) = Ret (done_at, iv) ∧
    next_tick iv = now + d + Z.of_nat (length done_at) * d ∧
    ∀ i t, done_at !! i = Some t → now + d + Z.of_nat i * d ≤ t.
Proof.
  intros Hmono. destruct (ticks_of_spec polls clock k counter waker TickCheck (Interval_new now d) Hmono I)
    as (done_at & iv & ? & _ & ? & ?). eauto.
Qed.

Lemma interval_no_drift_witness :
  ∃ done_at iv, ticks_of 6 (λ k, 7 * Z.of_nat k) 0 1 5%nat TickCheck (Interval_new 0 20) = Ret (done_at, iv) ∧
    next_tick iv = 0 + 20 + Z.of_nat (length done_at) * 20 ∧
    ∀ i t, done_at !! i = Some t → 0 + 20 + Z.of_nat i * 20 ≤ t.
Proof.
  apply (interval_no_drift (λ k, 7 * Z.of_nat k) 0 20 6 0 1 5%nat). intros i j Hij. lia.
Defined.


