(* ===== verification/TimerRun.v ===== *)
(** * Waiting for time under [block_on] (src/timer/sleep.rs, src/timer/timeout.rs,
    [sleep], [timeout] and [FutureExt] of src/timer/mod.rs, with [block_on] of
    src/executor.rs and src/multicore.rs)

    A future reads the clock when it is polled. Both [block_on] loops poll their
    future again without waiting for its waker, so that sleeps end under them. *)

From S2P Require Import Prelude Interfaces Waker Task Timer TimerProps Io Multicore Runtime TimerFutures.

(** ** Futures that read the clock *)

(** The readings taken so far and the global timer counter. *)
Record TimerWorld := mkTimerWorld {
  reading : nat;
  timer_counter : Z
}.

Section timed.
Context {IO : Type}.

(** The clock: what the [k]th reading gives. *)
Variable clock : nat → Z.

Definition Instant_now (w : TimerWorld) : Z * TimerWorld :=
  (clock (reading w), mkTimerWorld (S (reading w)) (timer_counter w)).

(** Polling a future of type [F] with output [T]; [IO] is the state of the
    thread's I/O. *)
Definition timed (F T : Type) : Type := F → IO → TimerWorld → polled T * F * IO * TimerWorld.

(** [SleepFuture::new] at the present time. *)
Definition SleepFuture_make (duration : Z) (w : TimerWorld) : SleepFuture unit * TimerWorld :=
  let '(now1, w) := Instant_now w in
  let '(now2, w) := Instant_now w in
  (SleepFuture_new now1 now2 duration, w).

Definition SleepFuture_poll : timed (SleepFuture unit) unit := λ f io w,
  let '(now, w) := Instant_now w in
  match poll_inner now (timer_counter w) tt f with
  | Ret (Ready _, counter, f) => (PReady tt, f, io, mkTimerWorld (reading w) counter)
  | Ret (Pending, counter, f) => (PPending, f, io, mkTimerWorld (reading w) counter)
  | _ => (PPanicked, f, io, w)
  end.

(** The future of an [async fn] that makes a future of its arguments and awaits
    it: its body starts with the first poll. *)
Inductive started (A F : Type) := NotStarted (args : A) | Awaiting (f : F).
Arguments NotStarted {A F} args.
Arguments Awaiting {A F} f.

Definition async_fn {A F T} (make : A → TimerWorld → F * TimerWorld) (poll : timed F T) : timed (started A F) T :=
  λ st io w,
  let '(f, w) := match st with NotStarted args => make args w | Awaiting f => (f, w) end in
  let '(res, f, io, w) := poll f io w in (res, Awaiting f, io, w).

(** [timer::sleep] *)
Definition sleep : timed (started Z (SleepFuture unit)) unit := async_fn SleepFuture_make SleepFuture_poll.

Section inner.
Context {F T : Type} (inner : timed F T).

(** [Timeout::poll]: the inner future first, and if it is not ready the sleep. *)
Definition Timeout_poll : timed (Timeout unit F) (result T TimeoutError) := λ t io w,
  let '(res, fut, io, w) := inner (t_future t) io w in
  match res with
  | PReady v => (PReady (Ok v), mkTimeout fut (t_timeout t), io, w)
  | PPanicked => (PPanicked, mkTimeout fut (t_timeout t), io, w)
  | PPending =>
      let '(res, s, io, w) := SleepFuture_poll (t_timeout t) io w in
      (match res with PReady _ => PReady (Err TimeoutErr) | PPending => PPending | PPanicked => PPanicked end,
       mkTimeout fut s, io, w)
  end.

(** [FutureExt::with_timeout]: the time runs from the call. *)
Definition with_timeout (fut : F) (duration : Z) (w : TimerWorld) : Timeout unit F * TimerWorld :=
  let '(now1, w) := Instant_now w in
  let '(now2, w) := Instant_now w in
  (Timeout_new now1 now2 fut duration, w).

(** [timer::timeout]: the time runs from the first poll. *)
Definition timeout : timed (started (Z * F) (Timeout unit F)) (result T TimeoutError) :=
  async_fn (λ '(duration, fut), with_timeout fut duration) Timeout_poll.

End inner.

(** The future of [tick]; the interval it borrows is its output. *)
Definition tick : timed (TickState unit * Interval) Interval := λ '(st, iv) io w,
  match tick_poll clock 4 (reading w) (timer_counter w) tt st iv with
  | Ret (Ready _, k, counter, st, iv) => (PReady iv, (st, iv), io, mkTimerWorld k counter)
  | Ret (Pending, k, counter, st, iv) => (PPending, (st, iv), io, mkTimerWorld k counter)
  | _ => (PPanicked, (st, iv), io, w)
  end.

(** [async { first.await; rest }]: as soon as [first] is ready, [next] makes the
    rest of the block from its output, which is polled at once. *)
Definition and_then {F1 F2 A T} (first : timed F1 A) (next : A → TimerWorld → F2 * TimerWorld) (rest : timed F2 T)
    : timed (F1 + F2) T := λ st io w,
  match st with
  | inl f =>
      let '(res, f, io, w) := first f io w in
      match res with
      | PReady v =>
          let '(f2, w) := next v w in
          let '(res, f2, io, w) := rest f2 io w in (res, inr f2, io, w)
      | PPending => (PPending, inl f, io, w)
      | PPanicked => (PPanicked, inl f, io, w)
      end
  | inr f2 => let '(res, f2, io, w) := rest f2 io w in (res, inr f2, io, w)
  end.

(** [async { sleep(duration).await; value }] *)
Definition and_return {F A T} (first : timed F A) (value : T) : timed F T := λ f io w,
  let '(res, f, io, w) := first f io w in
  (match res with PReady _ => PReady value | PPending => PPending | PPanicked => PPanicked end, f, io, w).

(** A variable the block holds while it awaits. *)
Definition keep {X F T} (poll : timed F T) : timed (X * F) (X * T) := λ '(x, f) io w,
  let '(res, f, io, w) := poll f io w in
  (match res with PReady v => PReady (x, v) | PPending => PPending | PPanicked => PPanicked end, (x, f), io, w).

(** The end of a block, with its value. *)
Definition finish {T} : timed T T := λ v io w, (PReady v, v, io, w).

End timed.
Arguments NotStarted {A F} args.
Arguments Awaiting {A F} f.

(** ** Polling again and again *)

Section completes.
Context {IO : Type}.

(** What happens between two polls: other threads do not read this thread's clock. *)
Variable between : IO → TimerWorld → IO * TimerWorld.

Definition quiet : Prop := ∀ io w, reading (between io w).2 = reading w.

(** Polling [f] until it is ready gives [v]. *)
Inductive completes {F T} (poll : timed (IO:=IO) F T) : F → IO → TimerWorld → T → IO → TimerWorld → Prop :=
  | completes_now f io w v f' io' w' :
      poll f io w = (PReady v, f', io', w') → completes poll f io w v io' w'
  | completes_later f io w f1 io1 w1 io2 w2 v io' w' :
      poll f io w = (PPending, f1, io1, w1) → between io1 w1 = (io2, w2) →
      completes poll f1 io2 w2 v io' w' → completes poll f io w v io' w'.

Lemma and_then_rest {F1 F2 A T} (first : timed F1 A) next (rest : timed F2 T) f2 io w v io' w' :
  completes rest f2 io w v io' w' → completes (and_then first next rest) (inr f2) io w v io' w'.
Proof.
  induction 1 as [f io w v f' io' w' Hp|f io w f1 io1 w1 io2 w2 v io' w' Hp Hb _ IH].
  - eapply completes_now. cbn. by rewrite Hp.
  - eapply completes_later; [|exact Hb|exact IH]. cbn. by rewrite Hp.
Qed.

Lemma and_then_completes {F1 F2 A T} (first : timed F1 A) next (rest : timed F2 T) f io w v io1 w1 f2 w2 u io' w' :
  completes first f io w v io1 w1 → next v w1 = (f2, w2) → completes rest f2 io1 w2 u io' w' →
  completes (and_then first next rest) (inl f) io w u io' w'.
Proof.
  intros Hf Hn Hr. induction Hf as [f io w v f' io1 w1 Hp|f io w f1 io0 w0 io2 w3 v io1 w1 Hp Hb _ IH].
  - destruct Hr as [f2 io1 w2 u f3 io' w' Hp2|f2 io1 w2 f3 io3 w3 io4 w4 u io' w' Hp2 Hb2 Hr].
    + eapply completes_now. cbn. by rewrite Hp, Hn, Hp2.
    + eapply completes_later; [|exact Hb2|by apply and_then_rest]. cbn. by rewrite Hp, Hn, Hp2.
  - eapply completes_later; [|exact Hb|by apply IH]. cbn. by rewrite Hp.
Qed.

Lemma keep_completes {X F T} (x : X) (poll : timed F T) f io w v io' w' :
  completes poll f io w v io' w' → completes (keep poll) (x, f) io w (x, v) io' w'.
Proof.
  induction 1 as [f io w v f' io' w' Hp|f io w f1 io1 w1 io2 w2 v io' w' Hp Hb _ IH].
  - eapply completes_now. unfold keep. by rewrite Hp.
  - eapply completes_later; [|exact Hb|exact IH]. unfold keep. by rewrite Hp.
Qed.

Lemma finish_completes {T} (v : T) io w : completes finish v io w v io w.
Proof. by eapply completes_now. Qed.

Lemma async_fn_completes {A F T} make (poll : timed F T) (args : A) f io w w1 v io' w' :
  make args w = (f, w1) → completes poll f io w1 v io' w' →
  completes (async_fn make poll) (NotStarted args) io w v io' w'.
Proof.
  intros Hm Hc.
  assert (∀ st w0, (async_fn make poll st io w0 = let '(res, f, io, w) := poll f io w1 in (res, Awaiting f, io, w)) →
    completes (async_fn make poll) st io w0 v io' w') as Hgo; [|apply Hgo; unfold async_fn; by rewrite Hm].
  clear Hm. induction Hc as [f io w1 v f' io' w' Hp|f io w1 f1 io1 w2 io2 w3 v io' w' Hp Hb _ IH]; intros st w0 Hst;
    rewrite Hp in Hst.
  - by eapply completes_now.
  - eapply completes_later; [exact Hst|exact Hb|]. by apply IH.
Qed.

Lemma and_return_completes {F A T} (first : timed F A) (value : T) f io w v io' w' :
  completes first f io w v io' w' → completes (and_return first value) f io w value io' w'.
Proof.
  induction 1 as [f io w v f' io' w' Hp|f io w f1 io1 w1 io2 w2 v io' w' Hp Hb _ IH].
  - eapply completes_now. unfold and_return. by rewrite Hp.
  - eapply completes_later; [|exact Hb|exact IH]. unfold and_return. by rewrite Hp.
Qed.

End completes.

(** ** The loops of [block_on] *)

(** Between two polls [Runtime::block_on] polls the backend and parks. *)
Definition runtime_between {B} `{IoProvider B} (park : TimerWorld → TimerWorld)
    (io : CpuIoState B unit) (w : TimerWorld) : CpuIoState B unit * TimerWorld :=
  ((poll_io_completions io).2, park w).

Lemma block_loop_completes {B F T} `{IoProvider B} park (poll : timed F T) f io w v io' w' :
  completes (runtime_between (B:=B) park) poll f io w v io' w' →
  ∃ fuel, block_loop poll park fuel f io w = Ret (v, w').
Proof.
  induction 1 as [f io w v f' io' w' Hp|f io w f1 io1 w1 io2 w2 v io' w' Hp Hb _ [fuel IH]].
  - exists 1%nat. cbn. by rewrite Hp.
  - exists (S fuel). cbn [block_loop]. rewrite Hp. unfold runtime_between in Hb.
    destruct (poll_io_completions io1) as [[any ws] io3]. by injection Hb as -> ->.
Qed.

(** The future without I/O, for [MultiCoreRuntime::block_on]. *)
Definition without_io {F T} (poll : timed (IO:=unit) F T) (f : F) (w : TimerWorld) : polled T * F * TimerWorld :=
  let '(res, f, _, w) := poll f tt w in (res, f, w).

Lemma block_on_completes {F T} (poll : timed (IO:=unit) F T) f io w v io' w' :
  completes (λ io w, (io, w)) poll f io w v io' w' →
  ∃ fuel, Multicore.block_on (without_io poll) fuel f w = Ret (v, w').
Proof.
  induction 1 as [f [] w v f' io' w' Hp|f [] w f1 io1 w1 io2 w2 v io' w' Hp Hb _ [fuel IH]].
  - exists 1%nat. cbn. unfold without_io. by rewrite Hp.
  - exists (S fuel). cbn [block_on]. unfold without_io at 1. rewrite Hp. by injection Hb as -> ->.
Qed.

Lemma block_on_more {F W T} (poll : F → W → polled T * F * W) fuel fuel' f w r :
  block_on poll fuel f w = Ret r → (fuel ≤ fuel')%nat → block_on poll fuel' f w = Ret r.
Proof.
  revert fuel' f w. induction fuel as [|fuel IH]; intros [|fuel'] f w Hr Hle; [done|done|lia|]. cbn in *.
  destruct (poll f w) as [[[v| |] f'] w']; [done| |done]. apply IH; [done|lia].
Qed.

(** ** What the clock does *)

Definition unbounded (clock : nat → Z) : Prop := ∀ t, ∃ k, t ≤ clock k.

(** Two readings that follow each other are at most [delta] apart. *)
Definition smooth (delta : Z) (clock : nat → Z) : Prop := ∀ k, clock (S k) ≤ clock k + delta.

(** [k] is the first reading from [k0] on that is not before [t]. *)
Definition first_reading (clock : nat → Z) (k0 : nat) (t : Z) (k : nat) : Prop :=
  (k0 ≤ k)%nat ∧ t ≤ clock k ∧ ∀ j, (k0 ≤ j < k)%nat → clock j < t.

Lemma first_reading_exists clock k0 t : monotone clock → unbounded clock → ∃ k, first_reading clock k0 t k.
Proof.
  intros Hmono Hunb. destruct (Hunb t) as [k1 Hk1].
  assert (∀ n k, (k0 ≤ k)%nat → (k1 ≤ k + n)%nat → (∀ j, (k0 ≤ j < k)%nat → clock j < t) →
    ∃ k', first_reading clock k0 t k') as Hsearch.
  { induction n as [|n IH]; intros k Hk Hn Hbefore.
    - exists k. split_and!; [done| |done]. specialize (Hmono k1 k ltac:(lia)). lia.
    - destruct (Z.le_gt_cases t (clock k)) as [Hle|Hgt]; [by exists k|].
      apply (IH (S k)); [lia|lia|]. intros j Hj. destruct (decide (j = k)) as [->|]; [done|apply Hbefore; lia]. }
  apply (Hsearch k1 k0); [done|lia|]. intros j Hj. lia.
Qed.

Section facts.
Context {IO : Type}.
Variable clock : nat → Z.
Variable between : IO → TimerWorld → IO * TimerWorld.
Hypothesis Hmono : monotone clock.
Hypothesis Hunb : unbounded clock.
Hypothesis Hquiet : quiet between.
Implicit Types (f : SleepFuture unit) (io : IO) (w : TimerWorld).

Lemma completes_same {F T} (poll : timed F T) x y io io' w w' v io1 w1 :
  poll y io' w' = poll x io w → completes between poll x io w v io1 w1 → completes between poll y io' w' v io1 w1.
Proof.
  intros Hsame Hc. destruct Hc as [x io w v x1 io1 w1 Hp|x io w x1 io1 w1 io2 w2 v io3 w3 Hp Hb Hc].
  - eapply completes_now. by rewrite Hsame.
  - eapply completes_later; [by rewrite Hsame|exact Hb|exact Hc].
Qed.

Lemma SleepFuture_poll_spec f io w :
  sleep_wf f →
  if end_time f <=? clock (reading w)
  then SleepFuture_poll clock f io w = (PReady tt, f, io, mkTimerWorld (S (reading w)) (timer_counter w))
  else ∃ f' w', SleepFuture_poll clock f io w = (PPending, f', io, w') ∧
    sleep_wf f' ∧ end_time f' = end_time f ∧ reading w' = S (reading w).
Proof.
  intros Hwf. pose proof (poll_inner_spec (clock (reading w)) (timer_counter w) tt f Hwf) as Hp.
  unfold SleepFuture_poll. cbn. destruct (end_time f <=? clock (reading w)); [by rewrite Hp|].
  destruct Hp as (f' & -> & Hwf' & He & _). by eexists _, _.
Qed.

Lemma SleepFuture_completes f io w k :
  sleep_wf f → first_reading clock (reading w) (end_time f) k →
  ∃ io' w', completes between (SleepFuture_poll clock) f io w tt io' w' ∧ reading w' = S k.
Proof.
  intros Hwf (Hk & Hend & Hbefore). remember (k - reading w)%nat as n eqn:Hn.
  revert f io w Hwf Hk Hend Hbefore Hn. induction n as [|n IH]; intros f io w Hwf Hk Hend Hbefore Hn;
    pose proof (SleepFuture_poll_spec f io w Hwf) as Hp.
  - assert (k = reading w) as -> by lia. rewrite (proj2 (Z.leb_le _ _) Hend) in Hp.
    eexists _, _. split; [by eapply completes_now|done].
  - rewrite (proj2 (Z.leb_gt _ _)) in Hp by (apply Hbefore; lia).
    destruct Hp as (f' & w1 & Hp & Hwf' & He & Hr). destruct (between io w1) as [io2 w2] eqn:Hb.
    assert (reading w2 = S (reading w)) as Hr2 by (rewrite <-Hr; change w2 with (io2, w2).2; rewrite <-Hb; apply Hquiet).
    destruct (IH f' io2 w2 Hwf') as (io' & w' & Hc & Hw'); rewrite ?Hr2, ?He; [lia|done|intros j Hj; apply Hbefore; lia|lia|].
    exists io', w'. split; [|done]. by eapply completes_later.
Qed.

(** [sleep]: its end is reckoned from the second reading. *)
Lemma sleep_completes d io w k :
  first_reading clock (2 + reading w) (clock (1 + reading w)%nat + d) k →
  ∃ io' w', completes between (sleep clock) (NotStarted d) io w tt io' w' ∧ reading w' = S k.
Proof.
  intros Hk. set (f := SleepFuture_new (clock (reading w)) (clock (1 + reading w)%nat) d : SleepFuture unit).
  destruct (SleepFuture_completes f io (mkTimerWorld (2 + reading w) (timer_counter w)) k) as (io' & w' & Hc & Hr);
    [apply SleepFuture_new_wf|done|].
  exists io', w'. split; [|done]. by eapply async_fn_completes.
Qed.

(** ** [Timeout] *)

Section inner.
Context {F T : Type} (inner : timed (IO:=IO) F T) (fut_ok : F → Prop).

(** The inner future does not panic and takes no readings back. *)
Definition well_behaved : Prop := ∀ x io w,
  fut_ok x →
  let '(res, x', _, w') := inner x io w in res ≠ PPanicked ∧ fut_ok x' ∧ (reading w ≤ reading w')%nat.

(** How a timeout with the given end ends. *)
Definition timeout_outcome (limit : Z) (r : result T TimeoutError) (io' : IO) w' : Prop :=
  ∃ x io w x',
    match r with
    | Ok v => inner x io w = (PReady v, x', io', w')
    | Err _ => ∃ w1, inner x io w = (PPending, x', io', w1) ∧ limit ≤ clock (reading w1) ∧ reading w' = S (reading w1)
    end.

Lemma Timeout_completes x s io w :
  well_behaved → fut_ok x → sleep_wf s →
  ∃ r io' w', completes between (Timeout_poll clock inner) (mkTimeout x s) io w r io' w' ∧
    timeout_outcome (end_time s) r io' w'.
Proof.
  intros Hinner. destruct (Hunb (end_time s)) as [k Hk]. remember (k - reading w)%nat as n eqn:Hn.
  assert (k ≤ reading w + n)%nat as Hle by lia. clear Hn. revert x s io w Hk Hle.
  induction n as [|n IH]; intros x s io w Hk Hle Hx Hs; pose proof (Hinner x io w Hx) as Hi;
    destruct (inner x io w) as [[[res x1] io1] w1] eqn:Hp; destruct Hi as (Hnp & Hx1 & Hr);
    (destruct res as [v| |]; [|pose proof (SleepFuture_poll_spec s io1 w1 Hs) as Hsp|done]).
  1, 3: exists (Ok v), io1, w1; split; [eapply completes_now; unfold Timeout_poll; cbn; by rewrite Hp|by exists x, io, w, x1].
  all: destruct (Z.leb_spec (end_time s) (clock (reading w1))) as [Hend|Hend].
  1, 3: eexists (Err TimeoutErr), io1, _; split; [eapply completes_now; unfold Timeout_poll; cbn [t_future t_timeout]; rewrite Hp; cbn -[SleepFuture_poll]; by rewrite Hsp|];
    exists x, io, w, x1, w1; by split_and!.
  - pose proof (Hmono k (reading w1) ltac:(lia)). lia.
  - destruct Hsp as (s' & w2 & Hsp & Hs' & He & Hr2). destruct (between io1 w2) as [io3 w3] eqn:Hb.
    assert (reading w3 = reading w2) as Hr3 by (change w3 with (io3, w3).2; rewrite <-Hb; apply Hquiet).
    destruct (IH x1 s' io3 w3) as (r & io' & w' & Hc & Hout); [by rewrite He|lia|done|done|].
    rewrite He in Hout. exists r, io', w'. split; [|done].
    eapply completes_later; [|exact Hb|exact Hc]. unfold Timeout_poll. cbn [t_future t_timeout]. rewrite Hp. cbn -[SleepFuture_poll]. by rewrite Hsp.
Qed.

Lemma timeout_completes x d io w :
  well_behaved → fut_ok x →
  ∃ r io' w', completes between (timeout clock inner) (NotStarted (d, x)) io w r io' w' ∧
    timeout_outcome (clock (1 + reading w)%nat + d) r io' w'.
Proof.
  intros Hinner Hx.
  set (s := SleepFuture_new (clock (reading w)) (clock (1 + reading w)%nat) d : SleepFuture unit).
  destruct (Timeout_completes x s io (mkTimerWorld (2 + reading w) (timer_counter w)))
    as (r & io' & w' & Hc & Hout); [done|done|apply SleepFuture_new_wf|].
  exists r, io', w'. split; [|done]. by eapply async_fn_completes.
Qed.

End inner.

(** ** [tick] *)

Definition next_interval (iv : Interval) : Interval := mkInterval (period iv) (next_tick iv + period iv).

Lemma tick_sleep_completes s iv io w :
  tick_ok (TickSleep s) iv →
  ∃ io' w', completes between (tick clock) (TickSleep s, iv) io w (next_interval iv) io' w' ∧
    next_tick iv ≤ clock (pred (reading w')).
Proof.
  destruct (Hunb (end_time s)) as [k Hk]. remember (k - reading w)%nat as n eqn:Hn.
  assert (k ≤ reading w + n)%nat as Hle by lia. clear Hn. revert s io w Hk Hle.
  induction n as [|n IH]; intros s io w Hk Hle Hok;
    destruct (tick_poll_sleep clock 2 (reading w) (timer_counter w) tt s iv Hmono Hok)
      as ([u|] & k' & c' & st' & iv' & Hp & Hlt & Hok' & Hpost).
  1, 3: destruct Hpost as [Hpost ->]; eexists io, _; split; [eapply completes_now; unfold tick; by rewrite Hp|done].
  - pose proof (Hmono k (reading w) ltac:(lia)). lia.
  - destruct Hpost as (-> & Hnow & s' & -> & He). destruct (between io (mkTimerWorld k' c')) as [io2 w2] eqn:Hb.
    assert (reading w2 = k') as Hr2 by (change w2 with (io2, w2).2; rewrite <-Hb; apply Hquiet).
    destruct (IH s' io2 w2) as (io' & w' & Hc & Hw'); [by rewrite He|lia|done|].
    exists io', w'. split; [|done]. eapply completes_later; [|exact Hb|exact Hc]. unfold tick. by rewrite Hp.
Qed.

Lemma tick_completes iv io w :
  ∃ io' w', completes between (tick clock) (TickCheck, iv) io w (next_interval iv) io' w' ∧
    next_tick iv ≤ clock (pred (reading w')).
Proof.
  destruct (tick_poll_spec clock (reading w) (timer_counter w) tt TickCheck iv Hmono I)
    as ([u|] & k' & c' & st' & iv' & Hp & Hlt & Hok' & Hpost).
  - destruct Hpost as [Hpost ->]. eexists io, _. split; [eapply completes_now; unfold tick; by rewrite Hp|done].
  - destruct Hpost as (-> & s & ->). destruct (between io (mkTimerWorld k' c')) as [io2 w2] eqn:Hb.
    destruct (tick_sleep_completes s iv io2 w2 Hok') as (io' & w' & Hc & Hw').
    exists io', w'. split; [|done]. eapply completes_later; [|exact Hb|exact Hc]. unfold tick. by rewrite Hp.
Qed.

(** ** A sleep with a timeout *)

Section race.
Context {T : Type} (v : T) (delta : Z).
Hypothesis Hsmooth : smooth delta clock.

Abbreviation sleeper := (and_return (sleep (IO:=IO) clock) v).

Definition sleeper_ok (x : started Z (SleepFuture unit)) : Prop :=
  match x with NotStarted _ => True | Awaiting f => sleep_wf f end.

Lemma sleeper_poll f io w :
  sleep_wf f →
  if end_time f <=? clock (reading w)
  then sleeper (Awaiting f) io w = (PReady v, Awaiting f, io, mkTimerWorld (S (reading w)) (timer_counter w))
  else ∃ f' w', sleeper (Awaiting f) io w = (PPending, Awaiting f', io, w') ∧
    sleep_wf f' ∧ end_time f' = end_time f ∧ reading w' = S (reading w).
Proof.
  intros Hwf. pose proof (SleepFuture_poll_spec f io w Hwf) as Hp. unfold and_return, sleep, async_fn.
  destruct (end_time f <=? clock (reading w)); [by rewrite Hp|].
  destruct Hp as (f' & w' & -> & ? & ? & ?). by eexists _, _.
Qed.

Lemma sleeper_well_behaved : well_behaved sleeper sleeper_ok.
Proof.
  assert (∀ f io w, sleep_wf f → let '(res, x', _, w') := sleeper (Awaiting f) io w in
    res ≠ PPanicked ∧ sleeper_ok x' ∧ (reading w ≤ reading w')%nat) as Hgo.
  { intros f io w Hf. pose proof (sleeper_poll f io w Hf) as Hp.
    destruct (end_time f <=? clock (reading w)); [rewrite Hp; cbn; by split_and!; [..|lia]|].
    destruct Hp as (f' & w' & -> & ? & ? & ->). by split_and!; [..|lia]. }
  intros [d|f] io w Hx; [|by apply Hgo].
  specialize (Hgo (SleepFuture_new (clock (reading w)) (clock (1 + reading w)%nat) d) io
    (mkTimerWorld (2 + reading w) (timer_counter w)) (SleepFuture_new_wf _ _ _)).
  change (sleeper (NotStarted d) io w) with
    (sleeper (Awaiting (SleepFuture_new (clock (reading w)) (clock (1 + reading w)%nat) d)) io
       (mkTimerWorld (2 + reading w) (timer_counter w))).
  revert Hgo. generalize (sleeper (Awaiting (SleepFuture_new (clock (reading w)) (clock (1 + reading w)%nat) d)) io
    (mkTimerWorld (2 + reading w) (timer_counter w))).
  intros [[[res x'] io'] w'] (? & ? & Hr). cbn in Hr. by split_and!; [..|lia].
Qed.

(** The sleep ends well before the timeout. *)
Lemma race_ok f s io w :
  sleep_wf f → sleep_wf s → end_time f + delta ≤ end_time s →
  ∃ io' w', completes between (Timeout_poll clock sleeper) (mkTimeout (Awaiting f) s) io w (Ok v) io' w' ∧
    end_time f ≤ clock (pred (reading w')).
Proof.
  destruct (Hunb (end_time f)) as [k Hk]. remember (k - reading w)%nat as n eqn:Hn.
  assert (k ≤ reading w + n)%nat as Hle by lia. clear Hn. revert f s io w Hk Hle.
  induction n as [|n IH]; intros f s io w Hk Hle Hf Hs Hd; pose proof (sleeper_poll f io w Hf) as Hp;
    (destruct (Z.leb_spec (end_time f) (clock (reading w))) as [Hend|Hend]).
  1, 3: eexists io, _; split; [eapply completes_now; unfold Timeout_poll; cbn [t_future]; by rewrite Hp|done].
  - pose proof (Hmono k (reading w) ltac:(lia)). lia.
  - destruct Hp as (f1 & w1 & Hp & Hf1 & He1 & Hr1). pose proof (SleepFuture_poll_spec s io w1 Hs) as Hsp.
    pose proof (Hsmooth (reading w)). rewrite Hr1, (proj2 (Z.leb_gt _ _)) in Hsp by lia.
    destruct Hsp as (s2 & w2 & Hsp & Hs2 & He2 & Hr2). destruct (between io w2) as [io3 w3] eqn:Hb.
    assert (reading w3 = reading w2) as Hr3 by (change w3 with (io3, w3).2; rewrite <-Hb; apply Hquiet).
    destruct (IH f1 s2 io3 w3) as (io' & w' & Hc & Hw'); rewrite ?He1, ?He2; [done|lia|done..|].
    rewrite He1 in Hw'. exists io', w'. split; [|done]. eapply completes_later; [|exact Hb|exact Hc].
    unfold Timeout_poll. cbn [t_future t_timeout]. rewrite Hp. cbn -[SleepFuture_poll]. by rewrite Hsp.
Qed.

(** The timeout ends well before the sleep. *)
Lemma race_err f s io w :
  sleep_wf f → sleep_wf s → end_time s + delta ≤ end_time f → clock (reading w) < end_time f →
  ∃ io' w', completes between (Timeout_poll clock sleeper) (mkTimeout (Awaiting f) s) io w (Err TimeoutErr) io' w' ∧
    end_time s ≤ clock (pred (reading w')).
Proof.
  destruct (Hunb (end_time s)) as [k Hk]. remember (k - reading w)%nat as n eqn:Hn.
  assert (k ≤ reading w + n)%nat as Hle by lia. clear Hn. revert f s io w Hk Hle.
  induction n as [|n IH]; intros f s io w Hk Hle Hf Hs Hd Hnow; pose proof (sleeper_poll f io w Hf) as Hp;
    rewrite (proj2 (Z.leb_gt _ _) Hnow) in Hp; destruct Hp as (f1 & w1 & Hp & Hf1 & He1 & Hr1);
    pose proof (SleepFuture_poll_spec s io w1 Hs) as Hsp;
    (destruct (Z.leb_spec (end_time s) (clock (reading w1))) as [Hend|Hend]).
  1, 3: eexists io, _; split; [eapply completes_now; unfold Timeout_poll; cbn [t_future t_timeout];
    rewrite Hp; cbn -[SleepFuture_poll]; by rewrite Hsp|done].
  - pose proof (Hmono k (reading w1) ltac:(lia)). lia.
  - destruct Hsp as (s2 & w2 & Hsp & Hs2 & He2 & Hr2). destruct (between io w2) as [io3 w3] eqn:Hb.
    assert (reading w3 = reading w2) as Hr3 by (change w3 with (io3, w3).2; rewrite <-Hb; apply Hquiet).
    pose proof (Hsmooth (reading w1)).
    destruct (IH f1 s2 io3 w3) as (io' & w' & Hc & Hw'); rewrite ?He1, ?He2; [done|lia|done..|rewrite Hr3, Hr2; lia|].
    rewrite He2 in Hw'. exists io', w'. split; [|done]. eapply completes_later; [|exact Hb|exact Hc].
    unfold Timeout_poll. cbn [t_future t_timeout]. rewrite Hp. cbn -[SleepFuture_poll]. by rewrite Hsp.
Qed.

(** [async { sleep(e).await; v }.with_timeout(d).await]: what it gives when one
    of the two is clearly shorter. *)
Lemma with_timeout_race e d io w :
  0 ≤ d → let '(t, w1) := with_timeout clock (NotStarted e) d w in
  (e + 3 * delta ≤ d →
   ∃ io' w', completes between (Timeout_poll clock sleeper) t io w1 (Ok v) io' w' ∧
     clock (1 + reading w)%nat + e ≤ clock (pred (reading w'))) ∧
  (d + delta ≤ e → delta < e →
   ∃ io' w', completes between (Timeout_poll clock sleeper) t io w1 (Err TimeoutErr) io' w' ∧
     clock (1 + reading w)%nat + d ≤ clock (pred (reading w'))).
Proof.
  intros Hd. unfold with_timeout. cbn [Instant_now Nat.add reading timer_counter]. set (r := reading w).
  set (s := SleepFuture_new (clock r) (clock (S r)) d : SleepFuture unit).
  set (f := SleepFuture_new (clock (S (S r))) (clock (S (S (S r)))) e : SleepFuture unit).
  assert (∀ res io' w', completes between (Timeout_poll clock sleeper) (mkTimeout (Awaiting f) s) io
      (mkTimerWorld (S (S (S (S r)))) (timer_counter w)) res io' w' →
    completes between (Timeout_poll clock sleeper)
      (Timeout_new (clock r) (clock (S r)) (NotStarted e) d) io (mkTimerWorld (S (S r)) (timer_counter w)) res io' w') as Hstart.
  { intros res io' w'. by apply completes_same. }
  pose proof (Hsmooth (S r)). pose proof (Hsmooth (S (S r))). pose proof (Hsmooth (S (S (S r)))).
  pose proof (Hmono (S r) (S (S (S r))) ltac:(lia)).
  split; [intros Hlt|intros Hlt Hpos].
  - destruct (race_ok f s io (mkTimerWorld (S (S (S (S r)))) (timer_counter w))) as (io' & w' & Hc & Hw');
      [apply SleepFuture_new_wf..|cbn; lia|]. exists io', w'. split; [by apply Hstart|]. cbn in Hw'. lia.
  - destruct (race_err f s io (mkTimerWorld (S (S (S (S r)))) (timer_counter w))) as (io' & w' & Hc & Hw');
      [apply SleepFuture_new_wf..|cbn; lia|cbn; lia|]. exists io', w'. split; [by apply Hstart|]. exact Hw'.
Qed.

(** The same with [timeout(d, async { sleep(e).await; v }).await]. *)
Lemma timeout_race e d io w :
  0 ≤ d →
  (e + 3 * delta ≤ d →
   ∃ io' w', completes between (timeout clock sleeper) (NotStarted (d, NotStarted e)) io w (Ok v) io' w') ∧
  (d + delta ≤ e → delta < e →
   ∃ io' w', completes between (timeout clock sleeper) (NotStarted (d, NotStarted e)) io w (Err TimeoutErr) io' w').
Proof.
  intros Hd. pose proof (with_timeout_race e d io w Hd) as Hr.
  destruct (with_timeout clock (NotStarted e) d w) as [t w1] eqn:Hw. destruct Hr as [Hok Herr]. split; intros.
  - destruct Hok as (io' & w' & Hc & _); [done|]. exists io', w'. by eapply async_fn_completes.
  - destruct Herr as (io' & w' & Hc & _); [done..|]. exists io', w'. by eapply async_fn_completes.
Qed.

End race.

End facts.

(** ** Properties *)

(** C11. Blocking on [sleep(d)] returns, on a clock that does not go back and
    does not stop: the sleep is over at the very first reading that is at least
    [d] after the reading its start was taken from, and at none before. *)
Theorem block_on_sleep_returns {B} `{IoProvider B} clock park (b : B) d w :
  monotone clock → unbounded clock → (∀ w, reading (park w) = reading w) →
  ∃ fuel w' k, Runtime_block_on (sleep clock) park fuel (Ok b) (NotStarted d) w = Ret (tt, None, w') ∧
    first_reading clock (2 + reading w) (clock (1 + reading w)%nat + d) k ∧ reading w' = S k.
Proof.
  intros Hmono Hunb Hpark.
  destruct (first_reading_exists clock (2 + reading w) (clock (1 + reading w)%nat + d) Hmono Hunb) as [k Hk].
  destruct (sleep_completes clock (runtime_between (B:=B) park) (λ io w, Hpark w) d (CpuIoState_new b) w k Hk)
    as (io' & w' & [fuel Hc]%block_loop_completes & Hr).
  exists fuel, w', k. unfold Runtime_block_on. by rewrite Hc.
Qed.

(** C9. Blocking on [timeout(d, fut)] returns whatever the inner future waits
    for, so long as it does not panic: either with the output the inner future
    has just given, or with a timeout error, at a time when the inner future is
    pending and the clock has reached [d] after the start. *)
Theorem block_on_timeout_returns {B F T} `{IoProvider B} clock park (b : B)
    (inner : timed (IO:=CpuIoState B unit) F T) (fut_ok : F → Prop) x d w :
  monotone clock → unbounded clock → (∀ w, reading (park w) = reading w) →
  well_behaved inner fut_ok → fut_ok x →
  ∃ fuel r io' w', Runtime_block_on (timeout clock inner) park fuel (Ok b) (NotStarted (d, x)) w = Ret (r, None, w') ∧
    timeout_outcome clock inner (clock (1 + reading w)%nat + d) r io' w'.
Proof.
  intros Hmono Hunb Hpark Hin Hx.
  destruct (timeout_completes clock (runtime_between (B:=B) park) Hmono Hunb (λ io w, Hpark w) inner fut_ok x d
    (CpuIoState_new b) w Hin Hx) as (r & io' & w' & [fuel Hc]%block_loop_completes & Hout).
  exists fuel, r, io', w'. unfold Runtime_block_on. by rewrite Hc.
Qed.

(** ** Witnesses *)

(** A clock that moves on by 3 at each reading. *)
Definition clock_demo (k : nat) : Z := 3 * Z.of_nat k.

Lemma clock_demo_monotone : monotone clock_demo.
Proof. intros i j Hij. unfold clock_demo. lia. Qed.

Lemma clock_demo_unbounded : unbounded clock_demo.
Proof. intros t. exists (Z.to_nat t). unfold clock_demo. lia. Qed.

Lemma block_on_sleep_returns_witness :
  ∃ fuel w' k, Runtime_block_on (sleep clock_demo) id fuel (Ok Dummy) (NotStarted 20) (mkTimerWorld 0 1) = Ret (tt, None, w') ∧
    first_reading clock_demo 2 23 k ∧ reading w' = S k.
Proof.
  apply (block_on_sleep_returns clock_demo id Dummy 20 (mkTimerWorld 0 1) clock_demo_monotone clock_demo_unbounded).
  reflexivity.
Defined.

(** An operation the backend has lost, with a timeout. *)
Lemma block_on_timeout_returns_witness :
  ∃ fuel r io' w', Runtime_block_on (timeout clock_demo io_future_poll) id fuel (Ok Dummy) (NotStarted (20, 5)) (mkTimerWorld 0 1)
      = Ret (r, None, w') ∧ timeout_outcome clock_demo (io_future_poll (B:=DummyIoBackend)) 23 r io' w'.
Proof.
  apply (block_on_timeout_returns clock_demo id Dummy io_future_poll (λ _, True) 5 20 (mkTimerWorld 0 1)
    clock_demo_monotone clock_demo_unbounded); [reflexivity| |exact I].
  intros t io w _. unfold io_future_poll. destruct (IoFuture_poll t tt io) as [[r|] io']; split_and!; done || lia.
Defined.
