(* ===== verification/HelloWorld.v ===== *)
(** * The first example (examples/hello_world.rs)

    Three calls of [block_on] on one [Runtime]; the third awaits the handle of a
    task spawned on that runtime. *)

From S2P Require Import Prelude Interfaces Waker Task Executor Io Runtime.

Section hello.
Context {B Q C F P : Type} `{IoProvider B} `{SegQueue Q TaskId} `{Channel C (TaskResult string P)}.

(** The runtime, and the channels of the tasks spawned on it. *)
Definition hello_world_state : Type := Runtime Q F * Env C unit.

(** An [async] block that awaits only blocks like itself, with its value. *)
Definition ready_block {T} (value : T) (_ : unit) (io : CpuIoState B unit) (w : hello_world_state)
    : polled T * unit * CpuIoState B unit * hello_world_state := (PReady value, tt, io, w).

(** The third block: spawn [task] and await its handle, whose [Err] panics. *)
Definition spawn_and_await (task : F) (st : option (JoinHandle unit * nat)) (io : CpuIoState B unit) (w : hello_world_state)
    : polled string * option (JoinHandle unit * nat) * CpuIoState B unit * hello_world_state :=
  let '(h, ch, (rt, env)) :=
    match st with
    | None => let '(id, ch, rt, env) := Runtime_spawn task w.1 w.2 in (JoinHandle_new id, ch, (rt, env))
    | Some (h, ch) => (h, ch, w)
    end in
  match chans env !! ch with
  | None => (PPanicked, Some (h, ch), io, (rt, env))
  | Some c =>
      let '(res, h, c) := Task.poll tt h c in
      (match res with Ready (Ok v) => PReady v | Ready (Err _) => PPanicked | Pending => PPending end,
       Some (h, ch), io, (rt, mkEnv (<[ch := c]> (chans env)) (next_chan env) (world env)))
  end.

(** [main], with the three results it prints. *)
Definition hello_main (fuel : nat) (backend : result B io_error) (task : F) (w : hello_world_state)
    : outcome (Z * Z * string) :=
  '(first, _, w) ← Runtime_block_on (ready_block 42) id fuel backend tt w;
  '(second, _, w) ← Runtime_block_on (ready_block (10 + 20)) id fuel backend tt w;
  '(third, _, _) ← Runtime_block_on (spawn_and_await task) id fuel backend None w;
  Ret (first, second, third).

End hello.

Section hello_facts.
Context {B Q C F P : Type} `{IoProvider B} `{SegQueue Q TaskId} `{ChannelLaws C (TaskResult string P)}.

(** The handle of a task that has not sent anything is polled for ever. *)
Lemma await_unsent fuel (task : F) h ch io (rt : Runtime Q F) (env : Env C unit) c :
  chans env !! ch = Some c → ch_elems c = [] → (0 < ch_senders c)%nat →
  block_loop (B:=B) (spawn_and_await task) id fuel (Some (h, ch)) io (rt, env) = NoFuel.
Proof.
  revert h io env. induction fuel as [|fuel IH]; intros h io env Hc He Hs; [done|]. cbn [block_loop].
  unfold spawn_and_await at 1. rewrite Hc.
  rewrite (proj1 (proj2 (join_poll_correct tt h c)) He Hs).
  destruct (poll_io_completions io) as [[? ?] io']. apply IH; [|done..]. cbn. apply lookup_insert_eq.
Qed.

Lemma ready_block_returns {T} fuel (v : T) (b : B) (w : hello_world_state (Q:=Q) (C:=C) (F:=F)) :
  Runtime_block_on (ready_block v) id (S fuel) (Ok b) tt w = Ret (v, None, w).
Proof. done. Qed.

(** [main] of the first example never returns: the task of the third block is
    filed with the executor, which nobody runs. *)
Theorem hello_world_hangs fuel (b : B) (task : F) (env : Env C unit) :
  hello_main fuel (Ok b) task (Runtime_new : Runtime Q F, env) = NoFuel.
Proof.
  unfold hello_main. destruct fuel as [|fuel]; [done|]. rewrite !ready_block_returns. cbn [mbind outcome_bind].
  rewrite ready_block_returns. cbn [mbind outcome_bind]. unfold Runtime_block_on.
  assert (block_loop (spawn_and_await task) id (S fuel) None (CpuIoState_new b) (Runtime_new : Runtime Q F, env) = NoFuel)
    as ->; [|done].
  cbn [block_loop]. unfold spawn_and_await at 1, Runtime_spawn, Executor.spawn.
  cbn [fst snd fetch_add1 Runtime_new executor Executor.new Executor.next_task_id insert_task tasks].
  rewrite lookup_empty. cbn [chans]. rewrite lookup_insert_eq.
  destruct (ch_bounded_spec 1) as (He & _ & Hs & _).
  rewrite (proj1 (proj2 (join_poll_correct tt (JoinHandle_new 1) (ch_bounded 1)))) by (done || lia).
  destruct (poll_io_completions _) as [[? ?] io'].
  eapply await_unsent; [apply lookup_insert_eq|done|lia].
Qed.

End hello_facts.
