(* ===== verification/TimerDemo.v ===== *)
(** * The timer demonstrations (examples/comprehensive_demo.rs,
    examples/timer_demo.rs) and periodic tasks ([spawn_periodic] of src/task.rs)

    The [async] blocks of the examples, built from the futures of the timer
    module; what they print is their output. *)

From Stdlib Require Import Ascii.
From stdpp Require Import pretty.
From S2P Require Import Prelude Interfaces Waker Task Executor Timer TimerProps Io Multicore Runtime.
From S2P Require Import MulticoreProps MulticoreLive MulticoreSystem TimerFutures TimerRun.

(** [Duration::from_millis] and [Duration::as_millis] *)
Definition from_millis (n : Z) : Z := n * 1000000.
Definition as_millis (d : Z) : Z := d / 1000000.

#[local] Open Scope string_scope.
#[local] Open Scope list_scope.
#[local] Open Scope Z_scope.

(** The text of a line that has an empty one before or after it, and of one with
    a number in it. *)
Definition before_blank (line : string) : string := String.append line (String "010"%char "").

Definition after_blank (line : string) : string := String "010"%char line.

Definition line_with (before : string) (n : Z) (after : string) : string :=
  String.append before (String.append (pretty n) after).

(** ** comprehensive_demo.rs *)

Section demo.
Context {IO : Type}.
Variable clock : nat → Z.

Abbreviation sleeping := (started Z (SleepFuture unit)).
Abbreviation printed := (list string).

(** [async { timer::sleep(..).await; value }] *)
Definition sleep_for (value : string) : timed (IO:=IO) sleeping string := and_return (sleep clock) value.

Definition features_timeout (value : string) : timed (printed * started (Z * sleeping) (Timeout unit sleeping)) _ :=
  keep (timeout clock (sleep_for value)).

Definition features_combinator : timed (printed * Timeout unit sleeping) _ :=
  keep (Timeout_poll clock (sleep_for "combinator_result")).

Definition features_start {R} (_ : unit) (w : TimerWorld) : (Z * sleeping + R) * TimerWorld :=
  let '(start, w) := Instant_now clock w in (inl (start, NotStarted (from_millis 100)), w).

Definition features_slept {R} '((start, _) : Z * unit) (w : TimerWorld)
    : (printed * started (Z * sleeping) (Timeout unit sleeping) + R) * TimerWorld :=
  let '(now, w) := Instant_now clock w in
  (inl ([line_with "  Sleep test completed in " (as_millis (now - start)) "ms"],
        NotStarted (from_millis 200, NotStarted (from_millis 50))), w).

Definition features_fast {R} '((lines, r) : printed * result string TimeoutError) (w : TimerWorld)
    : (printed * started (Z * sleeping) (Timeout unit sleeping) + R) * TimerWorld :=
  (inl (lines ++ [match r with
                  | Ok value => String.append "  Timeout success: " value
                  | Err _ => "  Timeout failed (unexpected)"
                  end],
        NotStarted (from_millis 50, NotStarted (from_millis 200))), w).

Definition features_slow {R} '((lines, r) : printed * result string TimeoutError) (w : TimerWorld)
    : (printed * Timeout unit sleeping + R) * TimerWorld :=
  let '(t, w) := with_timeout clock (NotStarted (from_millis 30)) (from_millis 100) w in
  (inl (lines ++ [match r with
                  | Ok value => String.append "  Timeout should have expired, got: " value
                  | Err _ => "  Timeout expired as expected"
                  end], t), w).

Definition features_end '((lines, r) : printed * result string TimeoutError) (w : TimerWorld) : printed * TimerWorld :=
  (lines ++ [match r with
             | Ok value => String.append "  Combinator timeout: " value
             | Err _ => "  Combinator timeout expired"
             end], w).

(** [demonstrate_timer_features] *)
Definition demonstrate_timer_features : timed (started unit _) printed :=
  async_fn features_start
    (and_then (keep (sleep clock)) features_slept
      (and_then (features_timeout "fast_operation") features_fast
        (and_then (features_timeout "slow_operation") features_slow
          (and_then features_combinator features_end finish)))).

(** The block of the second feature. *)
Definition async_work : timed (IO:=IO) sleeping printed :=
  and_return (sleep clock) ["  Running async work..."; "  ✅ Async work completed!"].

(** ** timer_demo.rs, and timer_api_verification.rs, which is the same *)

Definition demo_combinator (value : string) : timed (printed * Timeout unit sleeping) _ :=
  keep (Timeout_poll clock (sleep_for value)).

Definition demo_start {R} (_ : unit) (w : TimerWorld) : (Z * sleeping + R) * TimerWorld :=
  let '(start, w) := Instant_now clock w in (inl (start, NotStarted (from_millis 100)), w).

Definition demo_slept {R} '((start, _) : Z * unit) (w : TimerWorld) : (printed * Timeout unit sleeping + R) * TimerWorld :=
  let '(now, w) := Instant_now clock w in
  let '(t, w) := with_timeout clock (NotStarted (from_millis 50)) (from_millis 200) w in
  (inl ([before_blank "=== Timer API Verification ==="; "1. Testing timer::sleep()";
         before_blank (line_with "   Slept for ~" (as_millis (now - start)) "ms (requested 100ms)");
         "2. Testing timeout via FutureExt trait"], t), w).

Definition demo_fast {R} '((lines, r) : printed * result string TimeoutError) (w : TimerWorld)
    : (printed * Timeout unit sleeping + R) * TimerWorld :=
  let '(t, w) := with_timeout clock (NotStarted (from_millis 200)) (from_millis 50) w in
  (inl (lines ++ [match r with
                  | Ok value => String.append "   Success: " value
                  | Err _ => "   Unexpected timeout"
                  end], t), w).

(** [for i in 1..=3 { interval.tick().await; .. }], with [n] ticks to come,
    the next of which is number [i]. *)
Definition tick_line (i elapsed : Z) : string :=
  line_with (line_with "   Tick " i " at ") (as_millis elapsed) "ms".

Abbreviation tick_loop_state := (nat * Z * printed * Z * (TickState unit * Interval))%type.

Fixpoint tick_rounds (n : nat) (i : Z) (lines : printed) (start : Z) (ts : TickState unit * Interval)
    (io : IO) (w : TimerWorld) : polled printed * tick_loop_state * IO * TimerWorld :=
  match n with
  | O => (PReady lines, (O, i, lines, start, ts), io, w)
  | S n' =>
      let '(res, ts, io, w) := TimerRun.tick clock ts io w in
      match res with
      | PReady iv =>
          let '(now, w) := Instant_now clock w in
          tick_rounds n' (i + 1) (lines ++ [tick_line i (now - start)]) start (TickCheck, iv) io w
      | PPending => (PPending, (n, i, lines, start, ts), io, w)
      | PPanicked => (PPanicked, (n, i, lines, start, ts), io, w)
      end
  end.

Definition demo_ticks : timed tick_loop_state printed :=
  λ '(n, i, lines, start, ts) io w, tick_rounds n i lines start ts io w.

Definition demo_slow {R} '((lines, r) : printed * result string TimeoutError) (w : TimerWorld)
    : (tick_loop_state + R) * TimerWorld :=
  let '(now, w) := Instant_now clock w in
  let interval := Interval_new now (from_millis 75) in
  let '(start, w) := Instant_now clock w in
  (inl (3%nat, 1, lines ++ [match r with
                            | Ok value => String.append "   Unexpected success: " value
                            | Err _ => "   Correctly timed out"
                            end; ""; "4. Testing timer::Interval"],
        start, (TickCheck, interval)), w).

(** [spawn_periodic] does not fail. *)
Definition demo_ticked {R} (lines : printed) (w : TimerWorld) : (printed * sleeping + R) * TimerWorld :=
  (inl (lines ++ [""; "5. Testing task::spawn_periodic()"], NotStarted (from_millis 100)), w).

(** [final_count] is what the periodic task has left in the counter. *)
Definition demo_periodic {R} (final_count : Z) '((lines, _) : printed * unit) (w : TimerWorld)
    : (printed * Timeout unit sleeping + R) * TimerWorld :=
  let '(t, w) := with_timeout clock (NotStarted (from_millis 25)) (from_millis 100) w in
  (inl (lines ++ [line_with "   Periodic task executed " final_count " times"; "";
                  "6. Testing FutureExt::with_timeout() again"], t), w).

Definition demo_end '((lines, r) : printed * result string TimeoutError) (w : TimerWorld) : printed * TimerWorld :=
  (lines ++ [match r with
             | Ok value => String.append "   Success with combinator: " value
             | Err _ => "   Unexpected timeout with combinator"
             end; ""; "=== All Timer APIs Verified Successfully ==="], w).

(** The block [main] runs on a [Runtime]. *)
Definition timer_demo (final_count : Z) : timed (started unit _) printed :=
  async_fn demo_start
    (and_then (keep (sleep clock)) demo_slept
      (and_then (demo_combinator "Task completed") demo_fast
        (and_then (demo_combinator "This won't complete") demo_slow
          (and_then demo_ticks demo_ticked
            (and_then (keep (sleep clock)) (demo_periodic final_count)
              (and_then (demo_combinator "Future completed") demo_end finish)))))).

End demo.

(** [main]: what it prints and what it returns. *)
Definition comprehensive_main {Q G B} `{SegQueue Q (CoreMessage G)} `{IoProvider B}
    (create_io_backend : Z → result B RuntimeError) (start_thread : Z → result unit string)
    (clock : nat → Z) (cpus now : Z) (fuel : nat) (w : TimerWorld)
    : outcome (list string * result unit RuntimeError * TimerWorld) :=
  let lines := ["🚀 Starting Rust-Miniss Comprehensive Demo"] in
  match new (Q:=Q) (G:=G) create_io_backend start_thread cpus now (Some 4) with
  | (Err e, _) => Ret (lines, Err e, w)
  | (Ok runtime, _) =>
      '(features, w) ← block_on (without_io (demonstrate_timer_features clock)) fuel (NotStarted tt) w;
      '(work, w) ← block_on (without_io (async_work clock)) fuel (NotStarted (from_millis 50)) w;
      Ret (lines ++ ["✅ Created multi-core runtime with 4 CPUs"; after_blank "⏰ Feature 1: Timer and Timeout Operations"] ++ features ++
             [after_blank "🔄 Feature 2: Simple Async Work"] ++ work ++
             [after_blank "✅ All features demonstrated successfully!"; line_with "📊 Final global counter value: " 0 ""],
           Ok tt, w)
  end.

(** ** Periodic tasks *)

Section periodic.
Context {G W : Type}.
Variable clock : nat → Z.
Variable callback : W → G * W.
Variable call_poll : TaskId → G → W → Poll unit * G * W.

(** The wakers the callback's future has used since the last poll. *)
Variable take_wakes : W → list TaskId * W.

(** The block [spawn_periodic] spawns; its interval is made at the first poll. *)
Abbreviation periodic := (started Z (PeriodicState TaskId G * Interval)).

(** Polling it; [fuel] bounds the ticks of one poll. The waker of the sleep goes
    to a wheel of its own. *)
Definition periodic_task_poll (fuel : nat) (id : TaskId) (f : periodic) (w : TimerWorld * W)
    : poll_out periodic (TimerWorld * W) unit :=
  let '(w0, u) := w in
  let '(st, iv, w0) :=
    match f with
    | NotStarted period =>
        let '(now, w0) := Instant_now clock w0 in (PeriodicTick TickCheck, Interval_new now period, w0)
    | Awaiting (st, iv) => (st, iv, w0)
    end in
  match periodic_poll clock callback call_poll fuel (reading w0) (timer_counter w0) id st iv u with
  | Ret (k, counter, st, iv, u) =>
      let '(wakes, u) := take_wakes u in
      mkPollOut PPending (Awaiting (st, iv)) (mkTimerWorld k counter, u) wakes
  | _ => mkPollOut PPanicked f w []
  end.

(** [n] calls of the executor's [tick]. *)
Fixpoint executor_ticks {Q F C E T P} `{SegQueue Q TaskId} `{Channel C (TaskResult T P)}
    (fut_poll : TaskId → F → E → poll_out F E T) (tick_fuel n : nat) (ex : Executor Q F) (env : Env C E)
    : outcome (Executor Q F * Env C E) :=
  match n with
  | O => Ret (ex, env)
  | S n => '(_, ex, env) ← Executor.tick fut_poll tick_fuel ex env; executor_ticks fut_poll tick_fuel n ex env
  end.

End periodic.

(** ** periodic_task_demo.rs *)

(** What [main] prints, given what [init_runtime] returns and the values of its
    counters when it reads them; the lines of the tasks themselves are theirs. *)
Definition periodic_main (init : result unit RuntimeError) (counter fast slow work : Z)
    : list string * result unit RuntimeError :=
  let lines := ["Periodic Task Demo"; "================="] in
  match init with
  | Err e => (lines, Err e)
  | Ok _ =>
      (lines ++
       [after_blank "1. Simple periodic task (prints every 500ms)"; "   Print task cancelled";
        after_blank "2. Periodic counter task (increments every 100ms)"; line_with "   Counter reached: " counter " (expected ~5)";
        after_blank "3. Multiple periodic tasks with different intervals";
        line_with "   Fast task (50ms): " fast " executions (expected ~10)";
        line_with "   Slow task (200ms): " slow " executions (expected ~2)";
        after_blank "4. Periodic task performing async work";
        line_with "   Async work completed " work " times (expected ~3)";
        after_blank "All periodic tasks completed successfully!"], Ok tt)
  end.

(** A task that counts, spawned with [spawn_periodic] in a thread of its own:
    its counter after [n] calls of that thread's [tick]. *)
Definition counting_thread (Q C : Type) {P} `{SegQueue Q TaskId} `{Channel C (TaskResult unit P)}
    (clock : nat → Z) (period : Z) (fuel tick_fuel n : nat) (w : TimerWorld) : outcome Z :=
  let '(_, _, ex, env) :=
    Executor.spawn (NotStarted period) (Executor.new (Q:=Q)) (mkEnv (∅ : gmap nat C) 0 (w, 0)) in
  '(_, env) ←
    executor_ticks (periodic_task_poll clock (λ count, (tt, count)) (λ _ _ count, (Ready tt, tt, count + 1))
                      (λ count, ([], count)) fuel) tick_fuel n ex env;
  Ret (world env).2.

(** ** Facts *)

Lemma as_millis_least n d : from_millis n ≤ d → n ≤ as_millis d.
Proof. unfold from_millis, as_millis. intros Hd. apply Z.div_le_lower_bound; lia. Qed.

Section demo_facts.
Context {IO : Type}.
Variable clock : nat → Z.
Variable between : IO → TimerWorld → IO * TimerWorld.
Variable delta : Z.
Hypothesis Hmono : monotone clock.
Hypothesis Hunb : unbounded clock.
Hypothesis Hquiet : quiet between.
Hypothesis Hsmooth : smooth delta clock.
Hypothesis Hdelta : 3 * delta ≤ from_millis 70.

(** A sleep that is timed by the block around it. *)
Lemma timed_sleep_completes (x : Z) n io w :
  x ≤ clock (reading w) →
  ∃ io' w', completes between (keep (sleep clock)) (x, NotStarted (from_millis n)) io w (x, tt) io' w' ∧
    n ≤ as_millis (clock (reading w') - x).
Proof.
  intros Hx.
  destruct (first_reading_exists clock (2 + reading w) (clock (1 + reading w)%nat + from_millis n) Hmono Hunb) as [k Hk].
  destruct (sleep_completes clock between Hquiet (from_millis n) io w k Hk) as (io' & w' & Hc & Hr).
  exists io', w'. split; [by apply keep_completes|]. apply as_millis_least. rewrite Hr.
  pose proof (Hmono k (S k) ltac:(lia)). pose proof (Hmono (reading w) (1 + reading w)%nat ltac:(lia)).
  destruct Hk as (_ & Hk & _). lia.
Qed.

Definition features_lines (slept : Z) : list string :=
  [line_with "  Sleep test completed in " slept "ms"; "  Timeout success: fast_operation";
   "  Timeout expired as expected"; "  Combinator timeout: combinator_result"].

Lemma features_completes io w :
  ∃ slept io' w', 100 ≤ slept ∧
    completes between (demonstrate_timer_features clock) (NotStarted tt) io w (features_lines slept) io' w'.
Proof.
  destruct (timed_sleep_completes (clock (reading w)) 100 io
    (mkTimerWorld (S (reading w)) (timer_counter w))) as (io1 & w1 & Hc1 & Hslept); [by apply Hmono; cbn; lia|].
  set (slept := as_millis (clock (reading w1) - clock (reading w))) in *.
  set (w1' := mkTimerWorld (S (reading w1)) (timer_counter w1)).
  destruct (timeout_race clock between Hmono Hunb Hquiet "fast_operation" delta Hsmooth (from_millis 50)
    (from_millis 200) io1 w1') as [(io2 & w2 & Hc2) _]; [done|unfold from_millis in *; lia|].
  destruct (timeout_race clock between Hmono Hunb Hquiet "slow_operation" delta Hsmooth (from_millis 200)
    (from_millis 50) io2 w2) as [_ (io3 & w3 & Hc3)]; [done|unfold from_millis in *; lia..|].
  pose proof (with_timeout_race clock between Hmono Hunb Hquiet "combinator_result" delta Hsmooth (from_millis 30)
    (from_millis 100) io3 w3 ltac:(done)) as Hr.
  destruct (with_timeout clock (NotStarted (from_millis 30)) (from_millis 100) w3) as [t w3'] eqn:Ht.
  destruct Hr as [(io4 & w4 & Hc4 & _) _]; [unfold from_millis in *; lia|].
  exists slept, io4, w4. split; [done|]. eapply async_fn_completes; [reflexivity|].
  eapply and_then_completes; [exact Hc1|reflexivity|].
  eapply and_then_completes; [by apply keep_completes|reflexivity|].
  eapply and_then_completes; [by apply keep_completes|unfold features_slow; by rewrite Ht|].
  eapply and_then_completes; [by apply keep_completes|reflexivity|]. apply finish_completes.
Qed.

Lemma demo_ticks_later n i lines start ts io w iv io1 w1 v io' w' :
  completes between (TimerRun.tick clock) ts io w iv io1 w1 →
  completes between (demo_ticks clock)
    (n, i + 1, lines ++ [tick_line i (clock (reading w1) - start)], start, (TickCheck, iv)) io1
    (mkTimerWorld (S (reading w1)) (timer_counter w1)) v io' w' →
  completes between (demo_ticks clock) (S n, i, lines, start, ts) io w v io' w'.
Proof.
  intros Ht Hn. induction Ht as [ts io w iv ts1 io1 w1 Hp|ts io w ts1 io1 w1 io2 w2 iv io3 w3 Hp Hb _ IH].
  - eapply completes_same; [|exact Hn]. cbn [demo_ticks tick_rounds]. by rewrite Hp.
  - eapply completes_later; [|exact Hb|by apply IH]. cbn [demo_ticks tick_rounds]. by rewrite Hp.
Qed.

(** [n] ticks: the [j]th of them is printed no earlier than it is due. *)
Lemma demo_ticks_completes n i lines start iv io w :
  ∃ times io' w', length times = n ∧
    (∀ j t, times !! j = Some t → next_tick iv + Z.of_nat j * period iv - start ≤ t) ∧
    completes between (demo_ticks clock) (n, i, lines, start, (TickCheck, iv)) io w
      (lines ++ imap (λ j t, tick_line (i + Z.of_nat j) t) times) io' w'.
Proof.
  revert i lines iv io w. induction n as [|n IH]; intros i lines iv io w.
  { exists [], io, w. rewrite app_nil_r. split_and!; [done|done|]. by eapply completes_now. }
  destruct (tick_completes clock between Hmono Hunb Hquiet iv io w) as (io1 & w1 & Hc & Hnext).
  destruct (IH (i + 1) (lines ++ [tick_line i (clock (reading w1) - start)]) (next_interval iv) io1
    (mkTimerWorld (S (reading w1)) (timer_counter w1))) as (times & io' & w' & Hl & Hall & Hn).
  exists (clock (reading w1) - start :: times), io', w'. split_and!; [cbn; lia| |].
  - pose proof (Hmono (pred (reading w1)) (reading w1) ltac:(lia)).
    intros [|j] t Ht; cbn in Ht; [injection Ht as <-; lia|]. specialize (Hall _ _ Ht). cbn in Hall. lia.
  - eapply demo_ticks_later; [exact Hc|]. rewrite <-app_assoc in Hn. cbn. rewrite Z.add_0_r.
    erewrite imap_ext; [exact Hn|]. intros j t _. cbn. f_equal. lia.
Qed.

(** The lines of the first four tests, and all of them. *)
Definition demo_prefix (slept : Z) : list string :=
  [before_blank "=== Timer API Verification ==="; "1. Testing timer::sleep()";
   before_blank (line_with "   Slept for ~" slept "ms (requested 100ms)");
   "2. Testing timeout via FutureExt trait"; "   Success: Task completed"; "   Correctly timed out"; "";
   "4. Testing timer::Interval"].

Definition demo_lines (slept : Z) (times : list Z) (count : Z) : list string :=
  demo_prefix slept ++ imap (λ j t, tick_line (1 + Z.of_nat j) t) times ++
  [""; "5. Testing task::spawn_periodic()"; line_with "   Periodic task executed " count " times"; "";
   "6. Testing FutureExt::with_timeout() again"; "   Success with combinator: Future completed"; "";
   "=== All Timer APIs Verified Successfully ==="].

(** The times of the ticks: [period] apart, but for the time between making the
    interval and starting to measure. *)
Definition demo_times (times : list Z) : Prop :=
  length times = 3%nat ∧ ∀ j t, times !! j = Some t → Z.of_nat (S j) * from_millis 75 - delta ≤ t.

Lemma timer_demo_completes count io w :
  ∃ slept times io' w', 100 ≤ slept ∧ demo_times times ∧
    completes between (timer_demo clock count) (NotStarted tt) io w (demo_lines slept times count) io' w'.
Proof.
  pose proof (λ v e d io w, with_timeout_race clock between Hmono Hunb Hquiet (v : string) delta Hsmooth e d io w) as Hrace.
  destruct (timed_sleep_completes (clock (reading w)) 100 io
    (mkTimerWorld (S (reading w)) (timer_counter w))) as (io1 & w1 & Hc1 & Hslept); [by apply Hmono; cbn; lia|].
  pose proof (Hrace "Task completed" (from_millis 50) (from_millis 200) io1
    (mkTimerWorld (S (reading w1)) (timer_counter w1)) ltac:(done)) as H2.
  destruct (with_timeout clock (NotStarted (from_millis 50)) (from_millis 200) _) as [t2 w2] eqn:Ht2.
  destruct H2 as [(io2 & w2' & Hc2 & _) _]; [unfold from_millis in *; lia|].
  pose proof (Hrace "This won't complete" (from_millis 200) (from_millis 50) io2 w2' ltac:(done)) as H3.
  destruct (with_timeout clock (NotStarted (from_millis 200)) (from_millis 50) w2') as [t3 w3] eqn:Ht3.
  destruct H3 as [_ (io3 & w3' & Hc3 & _)]; [unfold from_millis in *; lia..|].
  set (start := clock (S (reading w3'))). set (iv := Interval_new (clock (reading w3')) (from_millis 75)).
  destruct (demo_ticks_completes 3 1 (demo_prefix (as_millis (clock (reading w1) - clock (reading w)))) start iv io3
    (mkTimerWorld (S (S (reading w3'))) (timer_counter w3')))
    as (times & io4 & w4 & Hl & Hall & Hc4).
  destruct (first_reading_exists clock (2 + reading w4) (clock (1 + reading w4)%nat + from_millis 100) Hmono Hunb) as [k Hk].
  destruct (sleep_completes clock between Hquiet (from_millis 100) io4 w4 k Hk) as (io5 & w5 & Hc5 & _).
  pose proof (Hrace "Future completed" (from_millis 25) (from_millis 100) io5 w5 ltac:(done)) as H6.
  destruct (with_timeout clock (NotStarted (from_millis 25)) (from_millis 100) w5) as [t6 w6] eqn:Ht6.
  destruct H6 as [(io6 & w6' & Hc6 & _) _]; [unfold from_millis in *; lia|].
  eexists _, times, io6, w6'. split; [exact Hslept|]. split.
  { split; [done|]. intros j t Ht. specialize (Hall j t Ht). cbn in Hall.
    pose proof (Hsmooth (reading w3')). unfold start in Hall. lia. }
  eapply async_fn_completes; [reflexivity|].
  eapply and_then_completes; [exact Hc1|unfold demo_slept; cbn [Instant_now]; by rewrite Ht2|].
  eapply and_then_completes; [by apply keep_completes|unfold demo_fast; by rewrite Ht3|].
  eapply and_then_completes; [by apply keep_completes|reflexivity|].
  eapply and_then_completes; [exact Hc4|reflexivity|].
  eapply and_then_completes; [by apply keep_completes|unfold demo_periodic; by rewrite Ht6|].
  eapply and_then_completes; [by apply keep_completes|reflexivity|].
  unfold demo_lines. rewrite <-!app_assoc. apply finish_completes.
Qed.

End demo_facts.

Section periodic_facts.
Context {G W : Type}.
Variable clock : nat → Z.
Variable callback : W → G * W.
Variable call_poll : TaskId → G → W → Poll unit * G * W.
Variable take_wakes : W → list TaskId * W.

Abbreviation poll_periodic := (periodic_task_poll clock callback call_poll take_wakes).

(** The first poll finds neither the first tick nor the sleep before it due. *)
Lemma periodic_first_poll delta fuel id period w u :
  smooth delta clock → 0 ≤ 2 * delta < period → take_wakes u = ([], u) →
  ∃ f' w', poll_periodic (S fuel) id (NotStarted period) (w, u) = mkPollOut PPending f' (w', u) [].
Proof.
  intros Hsm Hd Hu. set (r := reading w). pose proof (Hsm r). pose proof (Hsm (S (S (S r)))).
  unfold periodic_task_poll. cbn [Instant_now reading timer_counter]. fold r. cbn [periodic_poll].
  rewrite tick_poll_early by (cbn; lia).
  set (s := SleepFuture_new _ _ _). cbn [tick_poll].
  pose proof (poll_inner_spec (clock (3 + S r)%nat) (timer_counter w) id s (SleepFuture_new_wf _ _ _)) as Hp.
  rewrite (proj2 (Z.leb_gt _ _)) in Hp by (cbn in *; lia). destruct Hp as (s' & -> & _). cbn. rewrite Hu. by eexists _, _.
Qed.

Context {Q C P : Type} `{SegQueueLaws Q TaskId} `{ChannelLaws C (TaskResult unit P)}.

Lemma tick_empty {F E} (fut_poll : TaskId → F → E → poll_out F E unit) tick_fuel (ex : Executor Q F) (env : Env C E) :
  seg_elems (ready_queue ex) = [] →
  ∃ ex', Executor.tick fut_poll (S tick_fuel) ex env = Ret (false, ex', env) ∧
    seg_elems (ready_queue ex') = [] ∧ tasks ex' = tasks ex.
Proof.
  intros Hq. unfold Executor.tick. cbn [tick_loop]. pose proof (seg_pop_elems (ready_queue ex)) as Hpop.
  destruct (seg_pop (ready_queue ex)) as [[id|] q]; [congruence|]. destruct Hpop as [_ Hq']. by eexists.
Qed.

Lemma executor_ticks_empty {F E} (fut_poll : TaskId → F → E → poll_out F E unit) tick_fuel n (ex : Executor Q F) (env : Env C E) :
  seg_elems (ready_queue ex) = [] →
  ∃ ex', executor_ticks fut_poll (S tick_fuel) n ex env = Ret (ex', env) ∧ tasks ex' = tasks ex.
Proof.
  revert ex. induction n as [|n IH]; intros ex Hq; [by eexists|]. cbn [executor_ticks].
  destruct (tick_empty fut_poll tick_fuel ex env Hq) as (ex1 & -> & Hq1 & Ht1). cbn [mbind outcome_bind].
  destruct (IH ex1 Hq1) as (ex' & -> & Ht). exists ex'. split; [done|congruence].
Qed.

Lemma periodic_ticks delta fuel tick_fuel n period w u :
  smooth delta clock → 0 ≤ 2 * delta < period → take_wakes u = ([], u) →
  let '(_, _, ex, env) :=
    Executor.spawn (NotStarted period) (Executor.new (Q:=Q)) (mkEnv (∅ : gmap nat C) 0 (w, u)) in
  ∃ ex' env', executor_ticks (poll_periodic (S fuel)) (S (S tick_fuel)) n ex env = Ret (ex', env') ∧
    tasks ex' ≠ ∅ ∧ (world env').2 = u.
Proof.
  intros Hsm Hd Hu. unfold Executor.spawn. cbn [fetch_add1 Executor.new Executor.next_task_id insert_task tasks].
  rewrite lookup_empty. set (ex := mkExecutor _ _ _). set (env := mkEnv _ _ _).
  destruct n as [|n]; [eexists _, _; split_and!; [done|apply insert_non_empty|done]|]. cbn [executor_ticks].
  destruct (periodic_first_poll delta fuel 1 period w u Hsm Hd Hu) as (f' & w' & Hp).
  destruct (silent_first_tick (poll_periodic (S fuel)) (NotStarted period) f' (w', u) (S (S tick_fuel)) ex env eq_refl
    (lookup_insert_eq _ _ _) Hp) as [[_ ?]|(ex1 & -> & Hne & Hq)]; [lia|]. cbn [mbind outcome_bind].
  destruct (executor_ticks_empty (poll_periodic (S fuel)) (S tick_fuel) n ex1 (set_world env (w', u)) Hq) as (ex' & -> & Ht).
  eexists _, _. split; [done|]. by rewrite Ht.
Qed.

End periodic_facts.

Lemma counting_thread_zero {Q C P} `{SegQueueLaws Q TaskId} `{ChannelLaws C (TaskResult unit P)} clock delta fuel tick_fuel n period w :
  smooth delta clock → 0 ≤ 2 * delta < period →
  counting_thread Q C clock period (S fuel) (S (S tick_fuel)) n w = Ret 0.
Proof.
  intros Hsm Hd. unfold counting_thread.
  pose proof (periodic_ticks clock (λ count, (tt, count)) (λ _ _ count, (Ready tt, tt, count + 1)) (λ count, ([], count))
    (Q:=Q) (C:=C) delta fuel tick_fuel n period w 0 Hsm Hd eq_refl) as Ht.
  destruct (Executor.spawn _ _ _) as [[[id ch] ex] env]. destruct Ht as (ex' & env' & -> & _ & Hcount).
  cbn. by rewrite Hcount.
Qed.

(** ** Properties *)

(** The comprehensive demonstration does what it says: when the four cores can
    be started, and the clock does not go back, does not stop and two readings
    that follow each other are at most 23 ms apart, [main] returns [Ok] after
    printing that the sleep took at least its 100 ms, that the 50 ms operation
    was done within its 200 ms, that the 200 ms operation ran into its 50 ms
    timeout, and the output of the combinator. *)
Theorem comprehensive_demo_runs {Q G B} `{SegQueueLaws Q (CoreMessage G)} `{IoProviderLaws B}
    (make_backend : Z → result B RuntimeError) start_thread clock delta cpus now w :
  (∀ i, 0 ≤ i < 4 → start_result make_backend start_thread i = Ok tt) →
  monotone clock → unbounded clock → smooth delta clock → 3 * delta ≤ from_millis 70 →
  ∃ fuel slept w', 100 ≤ slept ∧
    comprehensive_main (Q:=Q) (G:=G) make_backend start_thread clock cpus now fuel w =
      Ret (["🚀 Starting Rust-Miniss Comprehensive Demo"; "✅ Created multi-core runtime with 4 CPUs";
            after_blank "⏰ Feature 1: Timer and Timeout Operations"] ++ features_lines slept ++
           [after_blank "🔄 Feature 2: Simple Async Work"; "  Running async work..."; "  ✅ Async work completed!";
            after_blank "✅ All features demonstrated successfully!"; "📊 Final global counter value: 0"], Ok tt, w').
Proof.
  intros Hstart Hmono Hunb Hsm Hd. unfold comprehensive_main.
  destruct (new_ok (Q:=Q) (G:=G) make_backend start_thread cpus now (Some 4)) as (rt & started & -> & _);
    [done|exact Hstart|].
  assert (quiet (λ (io : unit) w, (io, w))) as Hq by done.
  destruct (features_completes clock _ delta Hmono Hunb Hq Hsm Hd tt w)
    as (slept & io1 & w1 & Hslept & [fuel1 Hb1]%block_on_completes).
  destruct (first_reading_exists clock (2 + reading w1) (clock (1 + reading w1)%nat + from_millis 50) Hmono Hunb) as [k Hk].
  destruct (sleep_completes clock _ Hq (from_millis 50) tt w1 k Hk) as (io2 & w2 & Hc2 & _).
  destruct (block_on_completes (async_work clock) _ _ _ _ _ _ (and_return_completes _ _ _ _ _ _ _ _ _ Hc2)) as [fuel2 Hb2].
  exists (Nat.max fuel1 fuel2), slept, w2. split; [done|].
  rewrite (block_on_more _ _ _ _ _ _ Hb1) by lia. cbn [mbind outcome_bind].
  rewrite (block_on_more _ _ _ _ _ _ Hb2) by lia. done.
Qed.


(** The periodic tasks of the last example are never run: whatever number of
    times each of their threads has ticked its executor, with a clock whose
    readings are less than 25 ms apart, every counter it reads is 0. *)
Theorem periodic_demo_counts_nothing {Q C P} `{SegQueueLaws Q TaskId} `{ChannelLaws C (TaskResult unit P)}
    clock delta fuel tick_fuel (n1 n2 n3 n4 : nat) w1 w2 w3 w4 :
  smooth delta clock → 0 ≤ delta < from_millis 25 →
  let count period n w := counting_thread Q C clock (from_millis period) (S fuel) (S (S tick_fuel)) n w in
  ∃ counter fast slow work,
    count 100 n1 w1 = Ret counter ∧ count 50 n2 w2 = Ret fast ∧ count 200 n3 w3 = Ret slow ∧ count 300 n4 w4 = Ret work ∧
    periodic_main (Ok tt) counter fast slow work =
      (["Periodic Task Demo"; "================="; after_blank "1. Simple periodic task (prints every 500ms)";
        "   Print task cancelled"; after_blank "2. Periodic counter task (increments every 100ms)";
        "   Counter reached: 0 (expected ~5)"; after_blank "3. Multiple periodic tasks with different intervals";
        "   Fast task (50ms): 0 executions (expected ~10)"; "   Slow task (200ms): 0 executions (expected ~2)";
        after_blank "4. Periodic task performing async work"; "   Async work completed 0 times (expected ~3)";
        after_blank "All periodic tasks completed successfully!"], Ok tt).
Proof.
  intros Hsm Hd count. exists 0, 0, 0, 0. unfold count, from_millis in *.
  split_and!; try done; eapply counting_thread_zero; (exact Hsm || lia).
Qed.

(** ** Witnesses *)

(** A clock that moves on by 5 ms at each reading. *)
Definition clock_ms (k : nat) : Z := from_millis 5 * Z.of_nat k.

Lemma clock_ms_ok : monotone clock_ms ∧ unbounded clock_ms ∧ smooth (from_millis 5) clock_ms.
Proof.
  unfold clock_ms, from_millis. split_and!.
  - intros i j Hij. lia.
  - intros t. exists (Z.to_nat t). lia.
  - intros k. lia.
Qed.

Lemma comprehensive_demo_runs_witness :
  ∃ fuel slept w', 100 ≤ slept ∧
    comprehensive_main (Q:=list (CoreMessage nat)) (λ _, Ok Dummy) (λ _, Ok tt) clock_ms 8 0 fuel (mkTimerWorld 0 1) =
      Ret (["🚀 Starting Rust-Miniss Comprehensive Demo"; "✅ Created multi-core runtime with 4 CPUs";
            after_blank "⏰ Feature 1: Timer and Timeout Operations"] ++ features_lines slept ++
           [after_blank "🔄 Feature 2: Simple Async Work"; "  Running async work..."; "  ✅ Async work completed!";
            after_blank "✅ All features demonstrated successfully!"; "📊 Final global counter value: 0"], Ok tt, w').
Proof.
  destruct clock_ms_ok as (Hmono & Hunb & Hsm).
  apply (comprehensive_demo_runs (G:=nat) (λ _, Ok Dummy) (λ _, Ok tt) clock_ms (from_millis 5)); try done.
Defined.

