(* ===== verification/AsyncIo.v ===== *)
(** * Asynchronous functions that perform one I/O operation
    (the common shape of the [async fn]s of src/net.rs and src/fs.rs)

    Every such function builds an operation, submits it to the backend of its
    thread, awaits the [IoFuture] of the token and turns the completion into its
    result. The compiler makes a state machine of it: not yet started, suspended
    at the [await], finished. [prepare] and [finish] are the code before and
    after the [await]; both may use the thread's buffer pool, which the backend
    shares with them.

    The second half says what [Runtime::block_on] does with such a function when
    the backend answers the operation, and is what the theorems on sockets and
    files use. *)

From S2P Require Import Prelude Interfaces Waker Task Buffer Io Executor Runtime.

(** ** The thread's buffer pool *)

(** The thread-local [CPU_BUFFER_POOL], as a part of the state the backend of
    the thread is in. *)
Class PoolIn (B : Type) := {
  the_pool : B → Pool;
  put_pool : Pool → B → B
}.

Class PoolInLaws (B : Type) `{PoolIn B} `{IoProvider B} : Prop := {
  the_put_pool p b : the_pool (put_pool p b) = p;
  put_the_pool b : put_pool (the_pool b) b = b;
  put_pool_outstanding p b : outstanding (put_pool p b) = outstanding b
}.

(** A backend that has no buffers of its own, next to the pool. *)
#[export] Instance pair_pool_in {B} : PoolIn (B * Pool) := {
  the_pool := snd;
  put_pool p b := (b.1, p)
}.

Lemma mapM_fmap_Some {A} (l : list A) : mapM id (Some <$> l) = Some l.
Proof. induction l as [|x l IH]; [done|]. rewrite fmap_cons. cbn. by rewrite IH. Qed.

(** [&buffer[..]] as bytes; a byte that was never written has no value. *)
Definition buffer_bytes (b : Buffer) : option (list Z) := mapM id (visible b).

Lemma buffer_bytes_Some b bytes : buffer_bytes b = Some bytes ↔ visible b = Some <$> bytes.
Proof.
  unfold buffer_bytes. rewrite mapM_Some. split.
  - induction 1 as [|o x os xs Hx _ IH]; [done|]. rewrite fmap_cons. by f_equal.
  - intros ->. apply mapM_Some, mapM_fmap_Some.
Qed.

(** ** The state machine *)

(** What running the function up to its next [await] gives: an operation to
    submit and the point at which to go on, a return, or a panic. *)
Inductive turn (S T : Type) :=
  | Await (op : Op) (s : S)
  | Return (v : T)
  | Unwind.
Arguments Await {S T} op s.
Arguments Return {S T} v.
Arguments Unwind {S T}.

Definition turn_of {S T} (o : outcome T) : turn S T :=
  match o with
  | Ret v => Return v
  | _ => Unwind
  end.

(** The code of a function, cut at its [await]s: [S] is the type of the points
    where it can be suspended, with the variables that are alive there. *)
Record AsyncBody (B S T : Type) := mkAsyncBody {
  enter : B → turn S T * B;
  resume : S → IoResult → B → turn S T * B
}.
Arguments mkAsyncBody {B S T} enter resume.
Arguments enter {B S T} _ b.
Arguments resume {B S T} _ s r b.

(** A function that awaits one operation. *)
Definition once {B T} (prepare : B → Op * B) (finish : IoResult → B → outcome T * B)
    : AsyncBody B unit T :=
  mkAsyncBody
    (λ b, let '(op, b) := prepare b in (Await op tt, b))
    (λ _ r b, let '(v, b) := finish r b in (turn_of v, b)).

Inductive AsyncFn (S : Type) := Unresumed | Suspended (s : S) (token : IoToken) | Returned.
Arguments Unresumed {S}.
Arguments Suspended {S} s token.
Arguments Returned {S}.

Definition set_backend {B Wk} (io : CpuIoState B Wk) (b : B) : CpuIoState B Wk :=
  mkCpuIoState b (io_wakers io) (completed_io io).

Section async_fn.
Context {B Wk S T : Type} `{IoProvider B}.
Variable f : AsyncBody B S T.

(** What one poll gives: the result, and the function, the I/O state of the
    thread and the token counter afterwards. *)
Abbreviation poll_result := (polled T * AsyncFn S * CpuIoState B Wk * Z)%type.

(** Submitting the operation of a turn and going on with [await]. *)
Definition proceed {R} (ret : poll_result → R)
    (await : S → IoToken → CpuIoState B Wk → Z → R)
    (t : turn S T) (io : CpuIoState B Wk) (counter : Z) : R :=
  match t with
  | Await op s =>
      let '(token, counter, b) := submit op counter (io_backend io) in
      await s token (set_backend io b) counter
  | Return v => ret (PReady v, Returned, io, counter)
  | Unwind => ret (PPanicked, Returned, io, counter)
  end.

(** The [await]: when the future is ready it is dropped and the function runs
    on, through as many further [await]s as are ready. *)
Fixpoint await_run (fuel : nat) (waker : Wk) (s : S) (token : IoToken) (io : CpuIoState B Wk) (counter : Z)
    : outcome poll_result :=
  match fuel with
  | O => NoFuel
  | Datatypes.S fuel =>
      match IoFuture_poll token waker io with
      | (Pending, io) => Ret (PPending, Suspended s token, io, counter)
      | (Ready r, io) =>
          let io := IoFuture_drop token io in
          let '(t, b) := resume f s r (io_backend io) in
          proceed Ret (await_run fuel waker) t (set_backend io b) counter
      end
  end.

(** Each [await] that is ready takes a result out of [completed_io], so the
    size of that map bounds how many one poll can pass. *)
Definition await (waker : Wk) (s : S) (token : IoToken) (io : CpuIoState B Wk) (counter : Z) : poll_result :=
  match await_run (Datatypes.S (size (completed_io io))) waker s token io counter with
  | Ret r => r
  | _ => (PPanicked, Returned, io, counter)
  end.

(** Polling the function; polling it again after it has returned panics. *)
Definition async_poll (a : AsyncFn S) (waker : Wk) (io : CpuIoState B Wk) (counter : Z) : poll_result :=
  match a with
  | Unresumed =>
      let '(t, b) := enter f (io_backend io) in
      proceed id (await waker) t (set_backend io b) counter
  | Suspended s token => await waker s token io counter
  | Returned => (PPanicked, Returned, io, counter)
  end.

(** Dropping the function drops the future it is suspended on. *)
Definition async_drop (a : AsyncFn S) (io : CpuIoState B Wk) : CpuIoState B Wk :=
  match a with
  | Suspended _ token => IoFuture_drop token io
  | _ => io
  end.

(** *** One poll, [await] by [await] *)

(** The I/O state once the result of [token] has been taken. *)
Definition taken (token : IoToken) (io : CpuIoState B Wk) : CpuIoState B Wk :=
  mkCpuIoState (io_backend io) (delete token (io_wakers io)) (delete token (completed_io io)).

Lemma await_run_ready fuel waker s token io counter r :
  completed_io io !! token = Some r →
  await_run (Datatypes.S fuel) waker s token io counter =
  (let '(t, b) := resume f s r (io_backend io) in
   proceed Ret (await_run fuel waker) t (set_backend (taken token io) b) counter).
Proof.
  intros Hr. cbn [await_run]. unfold IoFuture_poll. rewrite Hr. unfold IoFuture_drop, taken. cbn.
  by rewrite delete_delete_eq.
Qed.

Lemma taken_size token io r :
  completed_io io !! token = Some r →
  size (completed_io io) = Datatypes.S (size (completed_io (taken token io))).
Proof.
  intros Hr. cbn. rewrite map_size_delete_Some by eauto.
  assert (size (completed_io io) ≠ 0%nat); [|lia].
  rewrite map_size_non_empty_iff. intros E. by rewrite E, lookup_empty in Hr.
Qed.

(** A poll ends. *)
Lemma await_run_ends fuel waker s token io counter :
  (size (completed_io io) < fuel)%nat → ∃ r, await_run fuel waker s token io counter = Ret r.
Proof.
  revert s token io counter. induction fuel as [|fuel IH]; intros s token io counter Hf; [lia|].
  destruct (completed_io io !! token) as [r|] eqn:Hr.
  - rewrite (await_run_ready _ _ _ _ _ _ r Hr). rewrite (taken_size _ _ _ Hr) in Hf.
    destruct (resume f s r (io_backend io)) as [[op s'|v|] b]; cbn [proceed]; [|eauto..].
    destruct (submit _ _ _) as [[token' c'] b']. apply IH. cbn in *. lia.
  - cbn [await_run]. unfold IoFuture_poll. rewrite Hr. eauto.
Qed.

Lemma await_run_await fuel waker s token io counter :
  fuel = Datatypes.S (size (completed_io io)) →
  await_run fuel waker s token io counter = Ret (await waker s token io counter).
Proof.
  intros ->. unfold await.
  destruct (await_run_ends (Datatypes.S (size (completed_io io))) waker s token io counter) as [r ->]; [lia|done].
Qed.

(** An [await] whose result is there goes on. *)
Lemma await_ready waker s token io counter r :
  completed_io io !! token = Some r →
  await waker s token io counter =
  (let '(t, b) := resume f s r (io_backend io) in
   proceed id (await waker) t (set_backend (taken token io) b) counter).
Proof.
  intros Hr. unfold await at 1. rewrite (await_run_ready _ _ _ _ _ _ r Hr), (taken_size _ _ _ Hr).
  destruct (resume f s r (io_backend io)) as [[op s'|v|] b]; cbn [proceed]; [|done..].
  destruct (submit _ _ _) as [[token' c'] b']. by rewrite await_run_await.
Qed.

Lemma await_pending waker s token io counter :
  completed_io io !! token = None →
  await waker s token io counter = (PPending, Suspended s token, (IoFuture_poll token waker io).2, counter).
Proof. intros Hr. unfold await. cbn [await_run]. unfold IoFuture_poll. by rewrite Hr. Qed.

End async_fn.

(** ** Runs of a backend that answers *)

Section answers.
Context {B : Type} `{IoProviderLaws B}.
Variable park : Z → Z.

(** The backend completes [t] with [r] at poll number [k], and not before. *)
Definition answered (b : B) (t : IoToken) (r : IoResult) (k : nat) : Prop :=
  (∀ j, (j < k)%nat → ¬ mentions (nth_poll j b) t) ∧ completes (nth_poll k b) t r.

(** A request and its answer, from the backend and token counter at the
    submission to those at the poll that finds the result; the other threads
    move the counter in between. *)
Inductive ask : B * Z → Op → IoResult → B * Z → Prop :=
  | ask_intro b counter op t counter' b' r k :
      counter < u64_max →
      submit op counter b = (t, counter', b') → answered b' t r k →
      ask (b, counter) op r (polls (S k) b', Nat.iter (S k) park counter').

(** Tokens not yet handed out are not in use. *)
Definition tokens_below (io : CpuIoState B unit) (counter : Z) : Prop :=
  0 ≤ counter ∧
  (∀ t, t ∈ dom (completed_io io) → t < counter) ∧
  (∀ t, t ∈ outstanding (io_backend io) → t < counter).

(** A future that is suspended on [t]. *)
Definition waits_on {F T} (poll : F → CpuIoState B unit → Z → polled T * F * CpuIoState B unit * Z)
    (s : F) (t : IoToken) : Prop :=
  ∀ io counter, completed_io io !! t = None →
    poll s io counter = (PPending, s, (IoFuture_poll t tt io).2, counter).

Lemma iter_S_l {A} n (f : A → A) x : Nat.iter (S n) f x = Nat.iter n f (f x).
Proof. induction n as [|n IH]; [done|]. cbn in *. by rewrite IH. Qed.

Lemma polls_S k (b : B) : polls (S k) b = (poll_complete (polls k b)).2.
Proof. revert b. induction k as [|k IH]; intros b; [done|]. cbn in *. apply IH. Qed.

Lemma outstanding_poll (b : B) t :
  t ∈ outstanding (poll_complete b).2 → t ∈ outstanding b.
Proof.
  pose proof (poll_complete_spec b) as Hspec. destruct (poll_complete b) as [[cs|] b'].
  - destruct Hspec as (_ & _ & Hsub). intros Ht%Hsub. by apply elem_of_difference in Ht as [? _].
  - intros Ht. by apply Hspec.
Qed.

(** What one round of completions adds to [completed_io] was outstanding. *)
Lemma poll_io_completed (io : CpuIoState B unit) t :
  t ∈ dom (completed_io (poll_io_completions io).2) →
  t ∈ dom (completed_io io) ∨ t ∈ outstanding (io_backend io).
Proof.
  intros Ht. destruct (decide (t ∈ outstanding (io_backend io))) as [|Hno]; [by right|left].
  destruct (not_outstanding_poll _ _ Hno) as [Hm _].
  destruct (poll_io_unmentioned io t Hm) as [_ Hc].
  apply elem_of_dom in Ht. apply elem_of_dom. by rewrite <-Hc.
Qed.

Lemma tokens_below_poll (io : CpuIoState B unit) counter counter' :
  tokens_below io counter → counter ≤ counter' →
  tokens_below (poll_io_completions io).2 counter'.
Proof.
  intros (Hpos & Hc & Ho) Hle. split_and!; [lia|..].
  - intros t [Ht|Ht]%poll_io_completed; [specialize (Hc t Ht)|specialize (Ho t Ht)]; lia.
  - intros t. rewrite poll_io_backend. intros Ht%outstanding_poll. specialize (Ho t Ht). lia.
Qed.

Hypothesis park_le : ∀ counter, counter ≤ park counter.

Lemma tokens_below_waker io t counter :
  completed_io io !! t = None →
  tokens_below io counter → tokens_below (IoFuture_poll t tt io).2 counter.
Proof. intros Hnone Hb. unfold IoFuture_poll. by rewrite Hnone. Qed.

(** A suspended future is polled until the backend answers. *)
Lemma block_loop_wait {F T} (poll : F → CpuIoState B unit → Z → polled T * F * CpuIoState B unit * Z)
    s t r k io counter :
  waits_on poll s t → completed_io io !! t = None →
  answered (io_backend io) t r k → tokens_below io counter →
  ∃ io', completed_io io' !! t = Some r ∧ io_backend io' = polls (S k) (io_backend io) ∧
    tokens_below io' (Nat.iter (S k) park counter) ∧
    ∀ n, block_loop poll park (S k + n) s io counter =
         block_loop poll park n s io' (Nat.iter (S k) park counter).
Proof.
  intros Hw. revert io counter. induction k as [|k IH]; intros io counter Hnone [Hno Hyes] Hbelow.
  - exists (poll_io_completions (IoFuture_poll t tt io).2).2.
    assert (io_backend (IoFuture_poll t tt io).2 = io_backend io) as Hb
      by (unfold IoFuture_poll; by rewrite Hnone).
    split_and!.
    + apply poll_io_completes. by rewrite Hb.
    + by rewrite poll_io_backend, Hb.
    + eapply tokens_below_poll; [by apply tokens_below_waker|]. apply park_le.
    + intros n. cbn [Nat.add block_loop]. rewrite Hw by done.
      by destruct (poll_io_completions _) as [[? ?] ?].
  - assert (io_backend (IoFuture_poll t tt io).2 = io_backend io) as Hb
      by (unfold IoFuture_poll; by rewrite Hnone).
    set (io1 := (IoFuture_poll t tt io).2) in *.
    assert (completed_io io1 = completed_io io) as Hc1
      by (unfold io1, IoFuture_poll; by rewrite Hnone).
    assert (¬ mentions (poll_complete (io_backend io1)).1 t) as Hno0
      by (rewrite Hb; apply (Hno 0%nat); lia).
    destruct (IH (poll_io_completions io1).2 (park counter)) as (io' & Hr & Hb' & Hbel & Hrun).
    + destruct (poll_io_unmentioned io1 t Hno0) as [_ ->]. by rewrite Hc1.
    + rewrite poll_io_backend, Hb. split; [|exact Hyes].
      intros j Hj. apply (Hno (S j)). lia.
    + eapply tokens_below_poll; [by apply tokens_below_waker|]. apply park_le.
    + exists io'. rewrite poll_io_backend, Hb in Hb'. rewrite iter_S_l. split_and!; [done..|].
      intros n. rewrite <-Hrun. cbn [Nat.add block_loop]. rewrite Hw by done. fold io1.
      by destruct (poll_io_completions io1) as [[? ?] ?].
Qed.

(** Submitting takes a token that is not in use. *)
Lemma submit_fresh op io counter t counter' b' :
  tokens_below io counter → counter < u64_max →
  submit op counter (io_backend io) = (t, counter', b') →
  t = counter ∧ counter' = counter + 1 ∧ completed_io io !! t = None ∧
  tokens_below (set_backend io b') counter'.
Proof.
  intros (Hpos & Hc & Ho) Hlt Hs. pose proof (submit_spec op counter (io_backend io)) as Hspec.
  rewrite Hs in Hspec. destruct Hspec as [Ht Hout]. unfold IoToken_new, fetch_add1 in Ht.
  unfold u64_max in Hlt. rewrite wrap64_small in Ht by (unfold is_u64; lia).
  injection Ht as -> ->. split_and!; [done..| |].
  - apply not_elem_of_dom. intros Hin. specialize (Hc _ Hin). lia.
  - split_and!; [lia|..]; simpl.
    + intros t Hin. specialize (Hc _ Hin). lia.
    + intros t Hin%Hout. apply elem_of_union in Hin as [->%elem_of_singleton|Hin]; [lia|].
      specialize (Ho _ Hin). lia.
Qed.

End answers.

(** ** Blocking on a function *)

Section block_on_async.
Context {B S T : Type} `{IoProviderLaws B}.
Variable f : AsyncBody B S T.
Variable park : Z → Z.
Hypothesis park_le : ∀ counter, counter ≤ park counter.

(** As the future of [Runtime::block_on], whose waker is the unparker. *)
Definition async_future (a : AsyncFn S) (io : CpuIoState B unit) (counter : Z)
    : polled T * AsyncFn S * CpuIoState B unit * Z :=
  async_poll f a tt io counter.

(** The function in direct style: the operations it asks for with their
    answers, and its outcome. *)
Inductive runs : turn S T * B * Z → list (Op * IoResult) → outcome T → B * Z → Prop :=
  | runs_return v b counter : runs (Return v, b, counter) [] (Ret v) (b, counter)
  | runs_unwind b counter : runs (Unwind, b, counter) [] Panic (b, counter)
  | runs_await op s b counter r b' counter' trace o st :
      ask park (b, counter) op r (b', counter') →
      runs (resume f s r b', counter') trace o st →
      runs (Await op s, b, counter) ((op, r) :: trace) o st.

(** Between two [await]s the function adds no operation to the backend. *)
Hypothesis resume_outstanding : ∀ s r b op s' b',
  resume f s r b = (Await op s', b') → outstanding b' ⊆ outstanding b.

Lemma async_waits_on s t : waits_on async_future (Suspended s t) t.
Proof. intros io counter Hnone. by apply await_pending. Qed.

Lemma block_loop_start {F V} (poll : F → CpuIoState B unit → Z → polled V * F * CpuIoState B unit * Z)
    s s' io io' counter counter' fuel :
  poll s io counter = poll s' io' counter' →
  block_loop poll park (Datatypes.S fuel) s io counter = block_loop poll park (Datatypes.S fuel) s' io' counter'.
Proof. intros Hp. cbn [block_loop]. by rewrite Hp. Qed.

Lemma taken_below t (io : CpuIoState B unit) b counter :
  outstanding b ⊆ outstanding (io_backend io) →
  tokens_below io counter → tokens_below (set_backend (taken t io) b) counter.
Proof.
  intros Hb (Hp & Hc & Ho). split_and!; [done|..].
  - intros t' Ht'. apply Hc. cbn in Ht'. rewrite dom_delete_L in Ht'. by apply elem_of_difference in Ht' as [? _].
  - intros t' Ht'. by apply Ho, Hb.
Qed.

(** From a turn to the end, starting from any future [a] whose poll is that turn. *)
Lemma block_loop_runs tn b counter trace o st :
  runs (tn, b, counter) trace o st →
  ∀ a (io : CpuIoState B unit) io0 c0,
    io_backend io = b → (∀ op s, tn = Await op s → tokens_below io counter) →
    async_future a io0 c0 = proceed id (await f tt) tn io counter →
    ∃ fuel, block_loop async_future park (Datatypes.S fuel) a io0 c0 = (λ v, (v, st.2)) <$> o.
Proof.
  remember (tn, b, counter) as cfg eqn:Ecfg. intros Hruns. revert tn b counter Ecfg.
  induction Hruns as [v b c|b c|op s b c r b' c' trace o st Hask _ IH];
    intros tn b0 counter [= <- <- <-] a io io0 c0 Hb Hbel Hpoll.
  1, 2: exists 0%nat; cbn [block_loop]; by rewrite Hpoll.
  inversion Hask as [? ? ? t c2 b2 ? k Hlt Hs Hans]; subst.
  destruct (submit_fresh op io c t c2 b2 (Hbel _ _ eq_refl) Hlt Hs) as (-> & -> & Hnone & Hbel2).
  destruct (block_loop_wait park park_le async_future (Suspended s c) c r k (set_backend io b2) (c + 1))
    as (io' & Hr & Hb' & Hbel' & Hrun); [apply async_waits_on|done..|].
  cbn [io_backend set_backend] in Hb'.
  destruct (resume f s r (polls (Datatypes.S k) b2)) as [t' b3] eqn:Hres.
  destruct (IH t' b3 _ (f_equal2 pair Hres eq_refl) (Suspended s c) (set_backend (taken c io') b3) io'
    (Nat.iter (Datatypes.S k) park (c + 1))) as [fuel Hf].
  - done.
  - intros op' s' ->. apply taken_below; [|done]. rewrite Hb'. by eapply resume_outstanding.
  - unfold async_future, async_poll. rewrite (await_ready _ _ _ _ _ _ r Hr), Hb', Hres. done.
  - exists (k + Datatypes.S fuel)%nat. rewrite <-Hf, <-Hrun. cbn [Nat.add].
    apply block_loop_start. rewrite Hpoll. cbn [proceed]. by rewrite Hs.
Qed.

(** [block_on] returns what the function in direct style returns. *)
Lemma block_on_runs b tn b0 counter trace o st :
  enter f b = (tn, b0) → tokens_below (CpuIoState_new b0) counter →
  runs (tn, b0, counter) trace o st →
  ∃ fuel, Runtime_block_on async_future park fuel (Ok b) Unresumed counter =
          (λ v, (v, None, st.2)) <$> o.
Proof.
  intros He Hbel Hruns.
  destruct (block_loop_runs tn b0 counter trace o st Hruns Unresumed (CpuIoState_new b0)
    (CpuIoState_new b) counter) as [fuel Hf]; [done..| |].
  - unfold async_future, async_poll. cbn [io_backend CpuIoState_new]. by rewrite He.
  - exists (Datatypes.S fuel). unfold Runtime_block_on. rewrite Hf. by destruct o.
Qed.

End block_on_async.

Lemma block_on_async {B T} `{IoProviderLaws B} (prepare : B → Op * B) (finish : IoResult → B → outcome T * B)
    park b counter op b0 r b' counter' v b'' :
  (∀ counter, counter ≤ park counter) →
  tokens_below (CpuIoState_new b0) counter →
  prepare b = (op, b0) → ask park (b0, counter) op r (b', counter') → finish r b' = (Ret v, b'') →
  ∃ fuel, Runtime_block_on (async_future (once prepare finish)) park fuel (Ok b) Unresumed counter =
          Ret (v, None, counter').
Proof.
  intros Hp Hbel Hprep Hask Hfin.
  destruct (block_on_runs (once prepare finish) park Hp) with (b := b) (tn := Await op tt : turn unit T) (b0 := b0)
    (counter := counter) (trace := [(op, r)]) (o := Ret v) (st := (b'', counter')) as [fuel Hf].
  - intros ? r0 b1 op' s' b1'. cbn. by destruct (finish r0 b1) as [[]].
  - cbn. by rewrite Hprep.
  - done.
  - eapply runs_await; [exact Hask|]. cbn. rewrite Hfin. apply runs_return.
  - by exists fuel.
Qed.

(** ** A backend and a buffer pool side by side *)

Section pair_provider.
Context {B : Type} `{IoProviderLaws B}.

#[export] Instance pair_provider : IoProvider (B * Pool) := {
  submit op counter b := let '(t, counter, b1) := submit op counter b.1 in (t, counter, (b1, b.2));
  poll_complete b := let '(p, b1) := poll_complete b.1 in (p, (b1, b.2));
  outstanding b := outstanding b.1
}.

#[export] Instance pair_provider_laws : IoProviderLaws (B * Pool).
Proof.
  split.
  - intros op counter [b p]. pose proof (submit_spec op counter b) as Hs. simpl.
    by destruct (submit op counter b) as [[t c] b'].
  - intros [b p]. pose proof (poll_complete_spec b) as Hs. simpl.
    by destruct (poll_complete b) as [q b'].
Qed.

#[export] Instance pair_pool_in_laws : PoolInLaws (B * Pool).
Proof. split; [done|by intros []|done]. Qed.

Lemma pair_polls k (b : B) (p : Pool) : polls k (b, p) = (polls k b, p).
Proof.
  revert b. induction k as [|k IH]; intros b; [done|]. cbn. rewrite <-IH.
  by destruct (poll_complete b).
Qed.

Lemma pair_nth_poll k (b : B) (p : Pool) : nth_poll k (b, p) = nth_poll k b.
Proof. unfold nth_poll. rewrite pair_polls. cbn. by destruct (poll_complete (polls k b)). Qed.

Lemma pair_ask park (b : B) counter op r b' counter' (p : Pool) :
  ask park (b, counter) op r (b', counter') →
  ask park ((b, p), counter) op r ((b', p), counter').
Proof.
  intros Hask. inversion Hask as [? ? ? t c2 b2 ? k Hlt Hs [Hno Hyes]]; subst.
  change (polls k (poll_complete b2).2) with (polls (S k) b2). rewrite <-pair_polls.
  apply (ask_intro park (b, p) counter op t c2 (b2, p) r k); [done|cbn; by rewrite Hs|].
  split; [intros j Hj|]; rewrite pair_nth_poll; auto.
Qed.

End pair_provider.

(** ** A backend that answers from a script, one result per operation, at the
    next poll: it keeps the contract and computes *)

Record Script := mkScript {
  script : list IoResult;
  script_pending : gmap IoToken (Op * IoResult)
}.

Definition script_submit (op : Op) (counter : Z) (b : Script) : IoToken * Z * Script :=
  let '(t, counter') := IoToken_new counter in
  (t, counter', match script b with
                | [] => b
                | r :: rs => mkScript rs (<[t := (op, r)]> (script_pending b))
                end).

Definition script_poll (b : Script) : Poll (list Completion) * Script :=
  (Ready ((λ x, (x.1, x.2.1, x.2.2)) <$> map_to_list (script_pending b)), mkScript (script b) ∅).

#[export] Instance script_provider : IoProvider Script := {
  submit := script_submit;
  poll_complete := script_poll;
  outstanding b := dom (script_pending b)
}.

Lemma script_tokens (m : gmap IoToken (Op * IoResult)) :
  c_token <$> ((λ x, (x.1, x.2.1, x.2.2)) <$> map_to_list m) = (map_to_list m).*1.
Proof. rewrite <-list_fmap_compose. by apply list_fmap_ext. Qed.

#[export] Instance script_provider_laws : IoProviderLaws Script.
Proof.
  split; [intros op counter b|intros b]; cbn.
  - split; [done|]. destruct (script b); cbn; [apply union_subseteq_r|].
    by rewrite dom_insert_L.
  - rewrite script_tokens. split_and!.
    + apply NoDup_fst_map_to_list.
    + intros c ([t [op r]] & -> & Hin%elem_of_map_to_list)%list_elem_of_fmap. cbn.
      apply elem_of_dom. eauto.
    + rewrite dom_empty_L. apply empty_subseteq.
Qed.

Lemma script_ask (park : Z → Z) op r rs counter :
  0 ≤ counter < u64_max →
  ask park (mkScript (r :: rs) ∅, counter) op r (mkScript rs ∅, park (counter + 1)).
Proof.
  intros Hc.
  pose proof (ask_intro park (mkScript (r :: rs) ∅) counter op counter (counter + 1)
    (mkScript rs {[ counter := (op, r) ]}) r 0) as Hask. apply Hask; clear Hask.
  - lia.
  - cbn. unfold script_submit, IoToken_new, fetch_add1. cbn [script script_pending].
    rewrite wrap64_small by (unfold is_u64, u64_max in *; lia). done.
  - split; [lia|]. unfold nth_poll. cbn. eexists _, op. split; [done|].
    rewrite map_to_list_singleton. cbn. left.
Qed.
