(* ===== verification/Net.v ===== *)
(** * TCP and UDP sockets (src/net.rs)

    The asynchronous operations are state machines over [AsyncIo]; [write_all]
    is a machine around the one of [write]. A socket is its file descriptor.
    What the system calls of [bind] and [send_to] return is an argument. *)

From S2P Require Import Prelude Interfaces Waker Task Buffer Io Executor Runtime AsyncIo.

Record AsyncTcpListener := mkAsyncTcpListener { listener_fd : Z }.
Record AsyncTcpStream := mkAsyncTcpStream { stream_fd : Z }.
Record AsyncUdpSocket := mkAsyncUdpSocket { socket_fd : Z }.

(** [io::Error::kind() == ErrorKind::Interrupted]; EINTR is 4. *)
Definition is_interrupted (e : io_error) : bool :=
  match e with
  | OsError code => code =? 4
  | CustomError Interrupted _ => true
  | CustomError _ _ => false
  end.

Definition unexpected_kind : io_error := CustomError InvalidData "Unexpected completion kind".

(** ** Binding

    Each result is paired with the descriptors that are closed on the way: an
    early return drops the socket. *)

Definition AsyncTcpListener_bind (bound : result Z io_error)
    (set_nonblocking : Z → result unit io_error) : result AsyncTcpListener io_error * list Z :=
  match bound with
  | Err e => (Err e, [])
  | Ok fd =>
      match set_nonblocking fd with
      | Err e => (Err e, [fd])
      | Ok _ => (Ok (mkAsyncTcpListener fd), [])
      end
  end.

(** The result of [setsockopt] for [SO_REUSEADDR] is only logged. *)
Definition AsyncUdpSocket_bind (bound : result Z io_error)
    (set_nonblocking set_broadcast : Z → result unit io_error) (setsockopt : Z → Z)
    : result AsyncUdpSocket io_error * list Z :=
  match bound with
  | Err e => (Err e, [])
  | Ok fd =>
      match set_nonblocking fd with
      | Err e => (Err e, [fd])
      | Ok _ =>
          let _ := setsockopt fd in
          match set_broadcast fd with
          | Err e => (Err e, [fd])
          | Ok _ => (Ok (mkAsyncUdpSocket fd), [])
          end
      end
  end.

(** [From<TcpStream>]: an error of [set_nonblocking] is ignored. *)
Definition AsyncTcpStream_from (set_nonblocking : Z → result unit io_error) (fd : Z)
    : AsyncTcpStream :=
  let _ := set_nonblocking fd in mkAsyncTcpStream fd.

(** ** One operation each *)

Section net.
Context {B : Type} `{PoolIn B}.

Definition accept_prepare (l : AsyncTcpListener) (b : B) : Op * B := (OpAccept (listener_fd l), b).

Definition accept_finish (r : IoResult) (b : B)
    : outcome (result (AsyncTcpStream * option SocketAddr) io_error) * B :=
  (Ret match r with
       | Ok (CAccept fd addr) => Ok (mkAsyncTcpStream fd, addr)
       | Ok _ => Err unexpected_kind
       | Err e => Err (io_error_of_IoError e)
       end, b).

(** The buffer taken from the pool only tells how many bytes to ask for; it is
    dropped when the function returns. *)
Definition read_prepare (s : AsyncTcpStream) (b : B) : Op * B :=
  let '(buffer, pool) := get BUFFER_SIZE (the_pool b) in
  (OpRead (stream_fd s) 0 (capacity buffer), put_pool pool b).

(** [&data.as_ref()[..n]]; out of range it panics, and so it is taken to do
    where a byte of the slice has no value. *)
Definition slice_to (n : nat) (data : Buffer) : outcome (list Z) :=
  if decide (n ≤ buffer_len data)%nat then expect (mapM id (take n (visible data))) else Panic.

Definition read_finish (r : IoResult) (b : B) : outcome (result (nat * Buffer) io_error) * B :=
  (match r with
   | Ok (CRead bytes_read data) =>
       bytes ← slice_to bytes_read data;
       Ret (Ok (bytes_read, copy_from_slice bytes (new_zeroed bytes_read)))
   | Ok _ => Ret (Err unexpected_kind)
   | Err e => Ret (Err (io_error_of_IoError e))
   end, b).

Definition write_prepare (s : AsyncTcpStream) (buf : list Z) (b : B) : Op * B :=
  (OpWrite (stream_fd s) 0 (from_slice buf), b).

Definition write_result (r : IoResult) : result nat io_error :=
  match r with
  | Ok (CWrite bytes_written) => Ok bytes_written
  | Ok _ => Err unexpected_kind
  | Err e => Err (io_error_of_IoError e)
  end.

Definition write_finish (r : IoResult) (b : B) : outcome (result nat io_error) * B :=
  (Ret (write_result r), b).

Definition recv_from_prepare (s : AsyncUdpSocket) (buf : list Z) (b : B) : Op * B :=
  let '(buffer, pool) := get (length buf) (the_pool b) in
  (OpUdpRecv (socket_fd s) buffer, put_pool pool b).

(** The result and the caller's buffer afterwards. *)
Definition recv_from_finish (buf : list Z) (r : IoResult) (b : B)
    : outcome (result (nat * SocketAddr) io_error * list Z) * B :=
  match r with
  | Ok (CUdpRecv bytes_read buffer addr) =>
      let bytes_to_copy := Nat.min bytes_read (length buf) in
      match slice_to bytes_to_copy buffer with
      | Ret bytes => (Ret (Ok (bytes_read, addr), bytes ++ drop bytes_to_copy buf),
                      put_pool (recycle buffer (the_pool b)) b)
      | _ => (Panic, b)
      end
  | Ok _ => (Ret (Err (CustomError InvalidData "Unexpected completion kind for UdpRecv"), buf), b)
  | Err e => (Ret (Err (io_error_of_IoError e), buf), b)
  end.

(** [send_to] makes the system call itself; the second socket it builds on the
    descriptor is forgotten, so nothing is closed. *)
Definition send_to {W} (sendto : Z → list Z → SocketAddr → W → result nat io_error * W)
    (s : AsyncUdpSocket) (buf : list Z) (target : SocketAddr) (w : W)
    : result nat io_error * W * list Z :=
  (sendto (socket_fd s) buf target w, []).

(** ** [write_all]

    Suspended at the write of the part of the buffer that is still to be
    written. *)

(** The test of the loop, and the write. *)
Definition write_all_next (s : AsyncTcpStream) (buf : list Z) (b : B)
    : turn (list Z) (result unit io_error) * B :=
  match buf with
  | [] => (Return (Ok tt), b)
  | _ => let '(op, b) := write_prepare s buf b in (Await op buf, b)
  end.

(** The [match] on the result of the write. *)
Definition write_all_resume (s : AsyncTcpStream) (buf : list Z) (r : IoResult) (b : B)
    : turn (list Z) (result unit io_error) * B :=
  match write_result r with
  | Ok O => (Return (Err (CustomError WriteZero "failed to write whole buffer")), b)
  | Ok n => if decide (n ≤ length buf)%nat then write_all_next s (drop n buf) b else (Unwind, b)
  | Err e => if is_interrupted e then write_all_next s buf b else (Return (Err e), b)
  end.

Definition write_all (s : AsyncTcpStream) (buf : list Z)
    : AsyncBody B (list Z) (result unit io_error) :=
  mkAsyncBody (write_all_next s buf) (write_all_resume s).

End net.

(** ** [write_all] in direct style *)

(** The loop as a function of the answers its writes get: the operations it
    submits and its outcome, or none if the answers do not suffice. *)
Fixpoint write_all_ref (s : AsyncTcpStream) (buf : list Z) (rs : list IoResult)
    : list Op * option (outcome (result unit io_error)) :=
  match buf, rs with
  | [], _ => ([], Some (Ret (Ok tt)))
  | _, [] => ([], None)
  | _, r :: rs =>
      let op := OpWrite (stream_fd s) 0 (from_slice buf) in
      let more buf := let '(ops, o) := write_all_ref s buf rs in (op :: ops, o) in
      match write_result r with
      | Ok O => ([op], Some (Ret (Err (CustomError WriteZero "failed to write whole buffer"))))
      | Ok n => if decide (n ≤ length buf)%nat then more (drop n buf) else ([op], Some Panic)
      | Err e => if is_interrupted e then more buf else ([op], Some (Ret (Err e)))
      end
  end.

(** The bytes the peer was given: of each operation as many as were written. *)
Definition written (op : Op) (r : IoResult) : list (option Z) :=
  match op, r with
  | OpWrite _ _ data, Ok (CWrite n) => take n (visible data)
  | _, _ => []
  end.

Fixpoint accepted (trace : list (Op * IoResult)) : list (option Z) :=
  match trace with
  | [] => []
  | (op, r) :: trace => written op r ++ accepted trace
  end.

(** Several requests and answers, one after the other. *)
Inductive asks {B} `{IoProvider B} (park : Z → Z) : B * Z → list (Op * IoResult) → B * Z → Prop :=
  | asks_nil st : asks park st [] st
  | asks_cons st op r st' trace st'' :
      ask park st op r st' → asks park st' trace st'' → asks park st ((op, r) :: trace) st''.

Lemma from_slice_visible l : visible (from_slice l) = Some <$> l.
Proof. unfold visible, from_slice, vec_of_slice. cbn. rewrite <-(length_fmap Some). by rewrite firstn_all. Qed.

Lemma write_all_ref_accepted s buf rs ops trace :
  write_all_ref s buf rs = (ops, Some (Ret (Ok tt))) → trace = zip ops rs →
  accepted trace = Some <$> buf.
Proof.
  revert buf ops trace. induction rs as [|r rs IH]; intros buf ops trace; destruct buf as [|x buf];
    cbn [write_all_ref]; intros Hr ->; try (by injection Hr as <-); try done.
  destruct (write_result r) as [[|n]|e] eqn:Ew; [done|..].
  - case_decide as Hn; [|done].
    destruct (write_all_ref s (drop (S n) (x :: buf)) rs) as [ops' o] eqn:E. injection Hr as <- ->.
    cbn [zip zip_with accepted]. rewrite (IH _ _ _ E eq_refl).
    destruct r as [[]|]; try done. injection Ew as ->. cbn [written]. rewrite from_slice_visible.
    by rewrite <-fmap_take, <-fmap_app, take_drop.
  - destruct (is_interrupted e) eqn:Ei; [|done].
    destruct (write_all_ref s (x :: buf) rs) as [ops' o] eqn:E. injection Hr as <- ->.
    cbn [zip zip_with accepted]. rewrite (IH _ _ _ E eq_refl).
    by destruct r as [[]|].
Qed.

(** The turns of [write_all] are those of the loop in direct style. *)
Lemma write_all_runs {B} `{IoProvider B} park s buf rs ops o (b : B) counter st :
  write_all_ref s buf rs = (ops, Some o) → asks park (b, counter) (zip ops rs) st →
  runs (write_all s buf) park (write_all_next s buf b, counter) (zip ops rs) o st.
Proof.
  intros Href Hasks.
  assert (∀ buf0, runs (write_all s buf0) park (write_all_next s buf b, counter) (zip ops rs) o st) as Hgen;
    [|exact (Hgen buf)]. intros buf0.
  revert buf b counter ops Href Hasks.
  induction rs as [|r rs IH]; intros [|x buf] b counter ops; cbn [write_all_ref]; intros Href Hasks; try done.
  1, 2: injection Href as <- <-; inversion Hasks; subst; apply runs_return.
  assert (∃ ops', ops = OpWrite (stream_fd s) 0 (from_slice (x :: buf)) :: ops') as [ops' ->]
    by (repeat (case_match; simplify_eq); eauto).
  cbn [zip zip_with] in Hasks |- *. inversion Hasks as [|? ? ? [b1 c1] ? ? Hask Hrest]; subst.
  eapply runs_await; [exact Hask|]. cbn [resume write_all]. unfold write_all_resume.
  destruct (write_result r) as [[|n]|e].
  - injection Href as <- <-. inversion Hrest; subst. apply runs_return.
  - case_decide.
    + destruct (write_all_ref s (drop (S n) (x :: buf)) rs) as [ops1 o1] eqn:E. injection Href as <- ->.
      by apply IH.
    + injection Href as <- <-. inversion Hrest; subst. apply runs_unwind.
  - destruct (is_interrupted e).
    + destruct (write_all_ref s (x :: buf) rs) as [ops1 o1] eqn:E. injection Href as <- ->. by apply IH.
    + injection Href as <- <-. inversion Hrest; subst. apply runs_return.
Qed.

Lemma write_all_next_backend {B} s buf (b : B) : (write_all_next s buf b).2 = b.
Proof. by destruct buf. Qed.

Lemma write_all_resume_backend {B} s buf r (b : B) : (write_all_resume s buf r b).2 = b.
Proof. unfold write_all_resume. repeat case_match; try done; apply write_all_next_backend. Qed.

(** Blocking on [write_all]. *)
Lemma write_all_blocks {B} `{IoProviderLaws B} park s buf rs ops o (b : B) counter st :
  (∀ c, c ≤ park c) → tokens_below (CpuIoState_new b) counter →
  write_all_ref s buf rs = (ops, Some o) → asks park (b, counter) (zip ops rs) st →
  ∃ fuel, Runtime_block_on (async_future (write_all s buf)) park fuel (Ok b) Unresumed counter =
          (λ v, (v, None, st.2)) <$> o.
Proof.
  intros Hp Hbel Href Hasks.
  eapply (block_on_runs (write_all s buf) park Hp).
  - intros buf0 r b0 op s' b' Hres. pose proof (write_all_resume_backend s buf0 r b0) as Hb.
    cbn in Hres. rewrite Hres in Hb. by cbn in Hb; subst.
  - by apply surjective_pairing.
  - cbn [enter write_all]. by rewrite write_all_next_backend.
  - cbn [enter write_all]. rewrite <-surjective_pairing. by eapply write_all_runs.
Qed.

(** ** Claims *)

(** C8. [AsyncTcpStream::write_all], as the runtime drives it, is its loop in
    direct style: with any backend that answers each write (after any number of
    polls), [block_on] submits exactly the writes of [write_all_ref] on the
    answers given and returns its result, panics included. When it returns
    [Ok], the bytes the backend reported as written are, in order, exactly the
    caller's buffer. *)
Theorem write_all_correct {B} `{IoProviderLaws B} park (b : B) s buf rs ops o counter st' :
  (∀ c, c ≤ park c) → tokens_below (CpuIoState_new b) counter →
  write_all_ref s buf rs = (ops, Some o) → asks park (b, counter) (zip ops rs) st' →
  (∃ fuel, Runtime_block_on (async_future (write_all s buf)) park fuel (Ok b) Unresumed counter =
           (λ v, (v, None, st'.2)) <$> o) ∧
  (o = Ret (Ok tt) → accepted (zip ops rs) = Some <$> buf).
Proof.
  intros Hp Hbel Href Hasks. split; [by eapply write_all_blocks|].
  intros ->. by eapply write_all_ref_accepted.
Qed.

Lemma write_all_correct_witness :
  let answers := [Ok (CWrite 2); Err (Io (OsError 4)); Ok (CWrite 1)] in
  let ops := (write_all_ref (mkAsyncTcpStream 7) [10; 20; 30] answers).1 in
  (∃ fuel, Runtime_block_on (async_future (write_all (mkAsyncTcpStream 7) [10; 20; 30])) (λ c, c) fuel
             (Ok (mkScript answers ∅)) Unresumed 1 = Ret (Ok tt, None, 4)) ∧
  accepted (zip ops answers) = [Some 10; Some 20; Some 30].
Proof.
  intros answers ops.
  assert (asks (λ c, c) (mkScript answers ∅, 1) (zip ops answers) (mkScript [] ∅, 4)) as Ha.
  { repeat (eapply asks_cons; [apply script_ask; vm_compute; split; congruence|]). constructor. }
  destruct (write_all_correct (λ c, c) (mkScript answers ∅) (mkAsyncTcpStream 7) [10; 20; 30] answers ops
              (Ret (Ok tt)) 1 (mkScript [] ∅, 4)) as [Hrun Hacc].
  - intros c. apply Z.le_refl.
  - split; [lia|]. split; cbn; intros t Ht; by apply not_elem_of_empty in Ht.
  - reflexivity.
  - exact Ha.
  - split; [exact Hrun|]. exact (Hacc eq_refl).
Defined.

(** What one slice of an initialised buffer shows. *)
Lemma slice_to_ok n data :
  vec_wf data → initialised data → (n ≤ buffer_len data)%nat →
  ∃ bytes, slice_to n data = Ret bytes ∧ Some <$> bytes = take n (visible data) ∧
    length bytes = n.
Proof.
  intros Hwf Hi Hn. unfold slice_to. rewrite decide_True by done.
  assert (Forall is_Some (take n (visible data))) as Ht by by apply Forall_take.
  destruct (mapM id (take n (visible data))) as [bytes|] eqn:E.
  - exists bytes. split; [done|]. apply mapM_Some in E.
    assert (Some <$> bytes = take n (visible data)) as Hb.
    { clear -E. induction E as [|o x os xs Hx _ IH]; [done|]. rewrite fmap_cons, IH. by f_equal. }
    split; [done|]. apply (f_equal length) in Hb. rewrite length_fmap, length_take, length_visible in Hb by done.
    unfold buffer_len in Hn. lia.
  - exfalso. apply mapM_None in E. apply Exists_exists in E as (o & Ho & E).
    rewrite Forall_forall in Ht. destruct (Ht o Ho) as [z ->]. done.
Qed.

Lemma read_prepare_op {B} `{PoolIn B} s (b : B) :
  pool_inv (the_pool b) →
  read_prepare s b = (OpRead (stream_fd s) 0 BUFFER_SIZE, put_pool (tail (the_pool b)) b).
Proof.
  intros Hpool. unfold read_prepare. destruct (get BUFFER_SIZE (the_pool b)) as [buf pool] eqn:Hg.
  by destruct (get_full_size _ _ _ Hpool Hg) as [-> ->].
Qed.

(** The bytes a read is answered with, in a buffer of their own. *)
Lemma read_finish_bytes {B} n data (b : B) :
  vec_wf data → initialised data → (n ≤ buffer_len data)%nat →
  ∃ buf, read_finish (Ok (CRead n data)) b = (Ret (Ok (n, buf)), b) ∧
    buffer_len buf = n ∧ visible buf = take n (visible data).
Proof.
  intros Hwf Hi Hn. destruct (slice_to_ok _ _ Hwf Hi Hn) as (bytes & Hs & Hb & Hl).
  assert (vec_wf (new_zeroed n)) as Hz by (unfold vec_wf, new_zeroed; by rewrite vec_zeroed_capacity).
  destruct (copy_from_slice_correct bytes (new_zeroed n) Hz) as (Hvis & Hlen & _).
  eexists. split_and!; [unfold read_finish; by rewrite Hs|by rewrite Hlen|by rewrite Hvis].
Qed.

Lemma tcp_read_runs {B} `{IoProviderLaws B} `{PoolIn B} park (b : B) s counter r b' counter' :
  (∀ c, c ≤ park c) → pool_inv (the_pool b) →
  let b0 := put_pool (tail (the_pool b)) b in
  tokens_below (CpuIoState_new b0) counter →
  ask park (b0, counter) (OpRead (stream_fd s) 0 BUFFER_SIZE) r (b', counter') →
  let runs fuel v := Runtime_block_on (async_future (once (read_prepare s) read_finish)) park fuel
                       (Ok b) Unresumed counter = Ret (v, None, counter') in
  match r with
  | Ok (CRead n data) =>
      vec_wf data → initialised data → (n ≤ buffer_len data)%nat →
      ∃ fuel buf, runs fuel (Ok (n, buf)) ∧ buffer_len buf = n ∧ visible buf = take n (visible data)
  | Ok _ => ∃ fuel, runs fuel (Err (CustomError InvalidData "Unexpected completion kind"))
  | Err e => ∃ fuel, runs fuel (Err (io_error_of_IoError e))
  end.
Proof.
  intros Hp Hpool b0 Hbel Hask runs. pose proof (read_prepare_op s b Hpool) as Hprep.
  assert (∀ v, read_finish r b' = (Ret v, b') → ∃ fuel, runs fuel v) as Hruns.
  { intros v Hv. exact (block_on_async (read_prepare s) read_finish park b counter _ _ r b' counter' v b' Hp Hbel Hprep Hask Hv). }
  destruct r as [[]|e]; try by apply Hruns.
  intros Hwf Hi Hn. destruct (read_finish_bytes bytes_read data b' Hwf Hi Hn) as (buf & Hf & Hl & Hv).
  destruct (Hruns _ Hf) as [fuel Hrun]. exists fuel, buf. exact (conj Hrun (conj Hl Hv)).
Qed.

(** [AsyncTcpStream::read] asks the backend for [BUFFER_SIZE] bytes
    and, when it is answered with [n] bytes, returns [n] and a buffer of length
    [n] that shows exactly the bytes received; errors and completions of another
    kind come out as errors. Each call takes a vector out of the thread's buffer
    pool, if there is one, and does not put it back. *)
Theorem tcp_read_correct {B} `{IoProviderLaws B} `{PoolIn B} park (b : B) s counter r b' counter' :
  (∀ c, c ≤ park c) → pool_inv (the_pool b) →
  let b0 := put_pool (tail (the_pool b)) b in
  tokens_below (CpuIoState_new b0) counter →
  ask park (b0, counter) (OpRead (stream_fd s) 0 BUFFER_SIZE) r (b', counter') →
  let runs fuel v := Runtime_block_on (async_future (once (read_prepare s) read_finish)) park fuel
                       (Ok b) Unresumed counter = Ret (v, None, counter') in
  (read_prepare s b).2 = b0 ∧
  match r with
  | Ok (CRead n data) =>
      vec_wf data → initialised data → (n ≤ buffer_len data)%nat →
      ∃ fuel buf, runs fuel (Ok (n, buf)) ∧ buffer_len buf = n ∧ visible buf = take n (visible data)
  | Ok _ => ∃ fuel, runs fuel (Err (CustomError InvalidData "Unexpected completion kind"))
  | Err e => ∃ fuel, runs fuel (Err (io_error_of_IoError e))
  end.
Proof.
  intros Hp Hpool b0 Hbel Hask runs. split; [by rewrite read_prepare_op|].
  exact (tcp_read_runs park b s counter r b' counter' Hp Hpool Hbel Hask).
Qed.

Lemma script_below rs counter (p : Pool) :
  0 ≤ counter → tokens_below (CpuIoState_new (mkScript rs ∅, p)) counter.
Proof. intros Hc. split; [done|]. split; cbn; intros t Ht; by apply not_elem_of_empty in Ht. Qed.

Lemma tcp_read_correct_witness :
  let data := vec_write [104; 105] (vec_zeroed 2) in
  let b := (mkScript [Ok (CRead 2 data)] ∅, [] : Pool) in
  ∃ fuel buf, Runtime_block_on (async_future (once (read_prepare (mkAsyncTcpStream 7)) read_finish)) (λ c, c)
                fuel (Ok b) Unresumed 1 = Ret (Ok (2%nat, buf), None, 2) ∧
    buffer_len buf = 2%nat ∧ visible buf = take 2 (visible data).
Proof.
  intros data b.
  destruct (tcp_read_correct (λ c, c) b (mkAsyncTcpStream 7) 1 (Ok (CRead 2 data)) (mkScript [] ∅, []) 2)
    as [_ Hread].
  - intros c. apply Z.le_refl.
  - split; [vm_compute; lia|constructor].
  - apply script_below. lia.
  - apply pair_ask, (script_ask (λ c, c)). vm_compute. split; congruence.
  - apply Hread.
    + vm_compute. lia.
    + repeat constructor; eexists; reflexivity.
    + vm_compute. lia.
Defined.



(** A descriptor that [bind] gets from the system is, in every case, either
    the socket it returns or closed. *)
Lemma bind_no_leak bound nb bc so :
  (∀ fd, bound = Ok fd →
    (AsyncTcpListener_bind bound nb = (Ok (mkAsyncTcpListener fd), []) ∨
     ∃ e, AsyncTcpListener_bind bound nb = (Err e, [fd])) ∧
    (AsyncUdpSocket_bind bound nb bc so = (Ok (mkAsyncUdpSocket fd), []) ∨
     ∃ e, AsyncUdpSocket_bind bound nb bc so = (Err e, [fd]))) ∧
  (∀ e, bound = Err e →
    AsyncTcpListener_bind bound nb = (Err e, []) ∧ AsyncUdpSocket_bind bound nb bc so = (Err e, [])).
Proof.
  split; intros ? ->; cbn; [|done].
  destruct (nb fd); [destruct (bc fd)|]; split; eauto.
Qed.
