(* ===== verification/Fs.v ===== *)
(** * Files (src/fs.rs)

    [open] and [create] are the system calls they make, whose results are
    arguments; [read_at], [write_at] and [sync_all] are asynchronous functions
    of one operation. *)

From S2P Require Import Prelude Interfaces Waker Task Buffer Io Executor Runtime AsyncIo Net.

Record AsyncFile := mkAsyncFile { file_fd : Z }.

(** ** Opening *)

Definition O_NONBLOCK : Z := 2048.

Section open.
(** [OFlag::all().bits()] and the text of an errno, of the nix crate. *)
Variable oflag_bits : Z.
Variable errno_text : Z → string.

(** [fcntl(fd, F_GETFL)] and [fcntl(fd, F_SETFL(flags))]. *)
Variable fcntl_getfl : Z → result Z Z.
Variable fcntl_setfl : Z → Z → result unit Z.

Definition from_bits_truncate (flags : Z) : Z := Z.land flags oflag_bits.

Definition other_error (errno : Z) : io_error := CustomError OtherKind (errno_text errno).

(** The part the two functions share after the file is open: the result and
    the descriptors closed by an early return. *)
Definition make_nonblocking (fd : Z) : result AsyncFile io_error * list Z :=
  match fcntl_getfl fd with
  | Err e => (Err (other_error e), [fd])
  | Ok flags =>
      let new_flags := Z.lor (from_bits_truncate flags) O_NONBLOCK in
      match fcntl_setfl fd new_flags with
      | Err e => (Err (other_error e), [fd])
      | Ok _ => (Ok (mkAsyncFile fd), [])
      end
  end.

Definition AsyncFile_open (opened : result Z io_error) : result AsyncFile io_error * list Z :=
  match opened with
  | Err e => (Err e, [])
  | Ok fd => make_nonblocking fd
  end.

Definition AsyncFile_create (created : result Z io_error) : result AsyncFile io_error * list Z :=
  match created with
  | Err e => (Err e, [])
  | Ok fd => make_nonblocking fd
  end.

End open.

(** ** Operations *)

Section fs.
Context {B : Type} `{PoolIn B}.

Definition read_at_prepare (f : AsyncFile) (offset : Z) (len : nat) (b : B) : Op * B :=
  (OpReadFile (file_fd f) offset len, b).

Definition read_at_finish (r : IoResult) (b : B) : outcome (result (nat * Buffer) io_error) * B :=
  (Ret match r with
       | Ok (CReadFile bytes_read data) => Ok (bytes_read, data)
       | Ok _ => Err unexpected_kind
       | Err e => Err (io_error_of_IoError e)
       end, b).

Definition write_at_prepare (f : AsyncFile) (offset : Z) (buf : list Z) (b : B) : Op * B :=
  let '(buffer, pool) := get (length buf) (the_pool b) in
  (OpWriteFile (file_fd f) offset (copy_from_slice buf buffer), put_pool pool b).

Definition write_at_finish (r : IoResult) (b : B) : outcome (result nat io_error) * B :=
  (Ret match r with
       | Ok (CWriteFile bytes_written) => Ok bytes_written
       | Ok _ => Err unexpected_kind
       | Err e => Err (io_error_of_IoError e)
       end, b).

Definition sync_all_prepare (f : AsyncFile) (b : B) : Op * B := (OpFsync (file_fd f), b).

Definition sync_all_finish (r : IoResult) (b : B) : outcome (result unit io_error) * B :=
  (Ret match r with
       | Ok CFsync => Ok tt
       | Ok _ => Err unexpected_kind
       | Err e => Err (io_error_of_IoError e)
       end, b).

End fs.

(** ** Properties *)

(** [AsyncFile::open] and [create] never leak the descriptor and
    change nothing but the blocking mode: the flags they set contain
    [O_NONBLOCK] and exactly the known flags that were set before; whatever
    system call fails, the error comes out and a descriptor that was opened is
    closed once. *)
Theorem file_open_safe bits text getfl setfl opened :
  let open := AsyncFile_open bits text getfl setfl in
  open = AsyncFile_create bits text getfl setfl ∧
  match opened with
  | Err e => open opened = (Err e, [])
  | Ok fd =>
      match getfl fd with
      | Err e => open opened = (Err (CustomError OtherKind (text e)), [fd])
      | Ok flags =>
          ∃ new, open opened = match setfl fd new with
                               | Ok _ => (Ok (mkAsyncFile fd), [])
                               | Err e => (Err (CustomError OtherKind (text e)), [fd])
                               end ∧
            ∀ i, 0 ≤ i →
              Z.testbit new i = ((i =? 11) || (Z.testbit flags i && Z.testbit bits i))
      end
  end.
Proof.
  intros open. split; [done|]. destruct opened as [fd|e]; [|done].
  unfold open, AsyncFile_open, make_nonblocking. destruct (getfl fd) as [flags|e]; [|done].
  exists (Z.lor (from_bits_truncate bits flags) O_NONBLOCK). split; [by destruct (setfl fd _)|].
  intros i Hi. unfold from_bits_truncate. rewrite Z.lor_spec, Z.land_spec.
  change O_NONBLOCK with (2 ^ 11). rewrite Z.pow2_bits_eqb by lia.
  rewrite (Z.eqb_sym 11 i). apply orb_comm.
Qed.

(** C26. The asynchronous file operations hand the caller's request to the
    backend and its answer to the caller: [write_at] submits a buffer that shows
    exactly the caller's bytes at the caller's offset, [read_at] returns the
    buffer the backend filled, [sync_all] reports the result of the fsync; a
    completion of another kind is an error for all three. *)
Theorem file_ops_correct {B} `{IoProviderLaws B} `{PoolIn B} park (b : B) f offset buf len counter r b' counter' :
  (∀ c, c ≤ park c) → pool_inv (the_pool b) →
  let runs {T} (prepare : B → Op * B) (finish : IoResult → B → outcome T * B) v :=
    ∃ fuel, Runtime_block_on (async_future (once prepare finish)) park fuel (Ok b) Unresumed counter
            = Ret (v, None, counter') in
  let answers op b0 := tokens_below (CpuIoState_new b0) counter ∧
                       ask park (b0, counter) op r (b', counter') in
  (∃ data b0, write_at_prepare f offset buf b = (OpWriteFile (file_fd f) offset data, b0) ∧
     visible data = Some <$> buf ∧
     (answers (OpWriteFile (file_fd f) offset data) b0 →
      runs (write_at_prepare f offset buf) write_at_finish
        match r with Ok (CWriteFile n) => Ok n | Ok _ => Err unexpected_kind
                   | Err e => Err (io_error_of_IoError e) end)) ∧
  (answers (OpReadFile (file_fd f) offset len) b →
   runs (read_at_prepare f offset len) read_at_finish
     match r with Ok (CReadFile n data) => Ok (n, data) | Ok _ => Err unexpected_kind
                | Err e => Err (io_error_of_IoError e) end) ∧
  (answers (OpFsync (file_fd f)) b →
   runs (sync_all_prepare f) sync_all_finish
     match r with Ok CFsync => Ok tt | Ok _ => Err unexpected_kind
                | Err e => Err (io_error_of_IoError e) end).
Proof.
  intros Hp Hpool runs answers. split_and!.
  - destruct (get (length buf) (the_pool b)) as [buffer pool] eqn:Hg.
    destruct (get_spec _ _ _ _ Hpool Hg) as (Hwf & _ & _).
    assert (write_at_prepare f offset buf b =
      (OpWriteFile (file_fd f) offset (copy_from_slice buf buffer), put_pool pool b)) as Hprep
      by (unfold write_at_prepare; by rewrite Hg).
    eexists _, _. split; [exact Hprep|].
    split; [by destruct (copy_from_slice_correct buf buffer Hwf)|].
    intros [Hbel Hask]. eapply (block_on_async _ write_at_finish park); [exact Hp|exact Hbel|exact Hprep|exact Hask|].
    by destruct r as [[]|].
  - intros [Hbel Hask]. eapply (block_on_async _ read_at_finish park); [exact Hp|exact Hbel|done|exact Hask|].
    by destruct r as [[]|].
  - intros [Hbel Hask]. eapply (block_on_async _ sync_all_finish park); [exact Hp|exact Hbel|done|exact Hask|].
    by destruct r as [[]|].
Qed.

Lemma file_ops_correct_witness :
  let b := (mkScript [Ok (CWriteFile 3)] ∅, [] : Pool) in
  ∃ data b0, write_at_prepare (mkAsyncFile 4) 100 [7; 8; 9] b = (OpWriteFile 4 100 data, b0) ∧
    visible data = [Some 7; Some 8; Some 9] ∧
    ∃ fuel, Runtime_block_on (async_future (once (write_at_prepare (mkAsyncFile 4) 100 [7; 8; 9]) write_at_finish))
              (λ c, c) fuel (Ok b) Unresumed 1 = Ret (Ok 3%nat, None, 2).
Proof.
  intros b.
  destruct (file_ops_correct (λ c, c) b (mkAsyncFile 4) 100 [7; 8; 9] 0 1 (Ok (CWriteFile 3))
    (mkScript [] ∅, []) 2) as [(data & b0 & Hprep & Hvis & Hrun) _].
  - intros c. apply Z.le_refl.
  - split; [vm_compute; lia|constructor].
  - exists data, b0. split; [exact Hprep|]. split; [exact Hvis|]. apply Hrun.
    assert (b0 = b) as -> by (vm_compute in Hprep |- *; congruence).
    split; [apply script_below; lia|].
    apply pair_ask, (script_ask (λ c, c)). vm_compute. split; congruence.
Defined.
