(* ===== verification/Sockaddr.v ===== *)
(** * Socket addresses as the kernel has them (src/io/uring.rs, [UdpSend] arm of
    [submit] and the two address conversions of [poll_complete])

    A [sockaddr_storage] is a block of bytes; the code writes a [sockaddr_in]
    or [sockaddr_in6] over its start and reads one back through a pointer cast.
    The target is little-endian: a [u16] field with value [v] occupies the two
    bytes [v mod 256], [v / 256]. *)

From S2P Require Import Prelude Io.

(** ** Machine integers in memory *)

Definition swap16 (v : Z) : Z := Z.lor (Z.shiftl (Z.land v 255) 8) (Z.shiftr v 8).

Definition be4 (a b c d : Z) : Z :=
  Z.lor (Z.shiftl a 24) (Z.lor (Z.shiftl b 16) (Z.lor (Z.shiftl c 8) d)).

Definition byte_of (v : Z) (i : Z) : Z := Z.land (Z.shiftr v (8 * i)) 255.

Definition swap32 (v : Z) : Z := be4 (byte_of v 0) (byte_of v 1) (byte_of v 2) (byte_of v 3).

(** [to_be] and [from_be] on a little-endian target. *)
Definition to_be16 := swap16.
Definition from_be16 := swap16.
Definition to_be32 := swap32.
Definition from_be32 := swap32.

Definition store16 (v : Z) : list Z := [byte_of v 0; byte_of v 1].
Definition store32 (v : Z) : list Z := [byte_of v 0; byte_of v 1; byte_of v 2; byte_of v 3].

Definition load16 (m : list Z) (off : nat) : Z :=
  match take 2 (drop off m) with
  | [a; b] => Z.lor a (Z.shiftl b 8)
  | _ => 0
  end.

Definition load32 (m : list Z) (off : nat) : Z :=
  match take 4 (drop off m) with
  | [a; b; c; d] => be4 d c b a
  | _ => 0
  end.

(** ** Encoding *)

Definition SOCKADDR_STORAGE_SIZE : nat := 128.
Definition AF_INET : Z := 2.
Definition AF_INET6 : Z := 10.

(** [u32::from(Ipv4Addr)]: the octets, most significant first. *)
Definition u32_of_ipv4 (octets : list Z) : Z :=
  match octets with
  | [a; b; c; d] => be4 a b c d
  | _ => 0
  end.

Definition ipv4_of_u32 (v : Z) : list Z := [byte_of v 3; byte_of v 2; byte_of v 1; byte_of v 0].

Definition sockaddr_in (octets : list Z) (port : Z) : list Z :=
  store16 AF_INET ++ store16 (to_be16 port) ++ store32 (to_be32 (u32_of_ipv4 octets)) ++
  replicate 8 0.

Definition sockaddr_in6 (octets : list Z) (port flowinfo scope_id : Z) : list Z :=
  store16 AF_INET6 ++ store16 (to_be16 port) ++ store32 flowinfo ++ octets ++ store32 scope_id.

(** [std::ptr::write] over the start of the zeroed storage. *)
Definition ptr_write (bytes storage : list Z) : list Z := bytes ++ drop (length bytes) storage.

Definition zeroed_storage : list Z := replicate SOCKADDR_STORAGE_SIZE 0.

(** The storage and the length the code computes for an address. *)
Definition encode_addr (addr : SocketAddr) : list Z * Z :=
  match addr with
  | V4 octets port => (ptr_write (sockaddr_in octets port) zeroed_storage, 16)
  | V6 octets port flowinfo scope_id =>
      (ptr_write (sockaddr_in6 octets port flowinfo scope_id) zeroed_storage, 28)
  end.

(** ** Decoding *)

Definition decode_addr (storage : list Z) : result SocketAddr IoError :=
  let family := load16 storage 0 in
  if family =? AF_INET then
    Ok (V4 (ipv4_of_u32 (from_be32 (load32 storage 4))) (from_be16 (load16 storage 2)))
  else if family =? AF_INET6 then
    Ok (V6 (take 16 (drop 8 storage)) (from_be16 (load16 storage 2)) (load32 storage 4)
          (load32 storage 24))
  else Err (Io (CustomError InvalidData "Unsupported address family")).

(** ** Round trip *)

Definition is_byte (b : Z) : Prop := 0 ≤ b < 256.

(** The addresses [std::net] can represent. *)
Definition valid_addr (addr : SocketAddr) : Prop :=
  match addr with
  | V4 octets port => length octets = 4%nat ∧ Forall is_byte octets ∧ 0 ≤ port < 2 ^ 16
  | V6 octets port flowinfo scope_id =>
      length octets = 16%nat ∧ Forall is_byte octets ∧ 0 ≤ port < 2 ^ 16 ∧
      0 ≤ flowinfo < 2 ^ 32 ∧ 0 ≤ scope_id < 2 ^ 32
  end.

Lemma byte_of_spec v i : 0 ≤ i → byte_of v i = (v / 2 ^ (8 * i)) mod 256.
Proof.
  intros Hi. unfold byte_of. rewrite Z.shiftr_div_pow2 by lia.
  change 255 with (Z.ones 8). by rewrite Z.land_ones.
Qed.

Lemma byte_of_range v i : 0 ≤ i → is_byte (byte_of v i).
Proof. intros Hi. rewrite byte_of_spec by done. apply Z.mod_pos_bound. lia. Qed.

(** Disjoint bits can be added. *)
Lemma lor_shiftl_add a b n : 0 ≤ n → 0 ≤ b < 2 ^ n → Z.lor (Z.shiftl a n) b = a * 2 ^ n + b.
Proof.
  intros Hn Hb. rewrite <-Z.add_lor_land, Z.shiftl_mul_pow2 by done.
  assert (Z.land (a * 2 ^ n) b = 0) as ->; [|lia].
  apply Z.bits_inj'. intros i Hi. rewrite Z.land_spec, Z.bits_0.
  destruct (Z.lt_ge_cases i n).
  - by rewrite Z.mul_pow2_bits_low.
  - assert (Z.testbit b i = false) as ->; [|by rewrite andb_false_r].
    apply Z.testbit_false; [done|]. rewrite Z.div_small; [done|]. split; [lia|].
    apply Z.lt_le_trans with (2 ^ n); [lia|]. apply Z.pow_le_mono_r; lia.
Qed.

Lemma be4_spec a b c d :
  is_byte b → is_byte c → is_byte d → be4 a b c d = a * 2 ^ 24 + b * 2 ^ 16 + c * 2 ^ 8 + d.
Proof.
  unfold is_byte, be4. intros.
  rewrite (lor_shiftl_add c d 8), (lor_shiftl_add b _ 16), (lor_shiftl_add a _ 24) by lia. lia.
Qed.

Lemma byte_of_be4 a b c d :
  is_byte a → is_byte b → is_byte c → is_byte d →
  byte_of (be4 a b c d) 0 = d ∧ byte_of (be4 a b c d) 1 = c ∧
  byte_of (be4 a b c d) 2 = b ∧ byte_of (be4 a b c d) 3 = a.
Proof.
  intros Ha Hb Hc Hd. rewrite !byte_of_spec, be4_spec by (done || lia). unfold is_byte in *.
  change (2 ^ (8 * 0)) with 1. change (2 ^ (8 * 1)) with 256. change (2 ^ (8 * 2)) with 65536.
  change (2 ^ (8 * 3)) with 16777216. change (2 ^ 24) with 16777216. change (2 ^ 16) with 65536.
  change (2 ^ 8) with 256. Z.div_mod_to_equations. lia.
Qed.

Lemma swap32_be4 a b c d :
  is_byte a → is_byte b → is_byte c → is_byte d → swap32 (be4 a b c d) = be4 d c b a.
Proof.
  intros Ha Hb Hc Hd. destruct (byte_of_be4 a b c d Ha Hb Hc Hd) as (H0 & H1 & H2 & H3).
  unfold swap32. by rewrite H0, H1, H2, H3.
Qed.

(** Writing a 32-bit field and reading it back. *)
Lemma be4_store32 v :
  0 ≤ v < 2 ^ 32 → be4 (byte_of v 3) (byte_of v 2) (byte_of v 1) (byte_of v 0) = v.
Proof.
  intros Hv. rewrite be4_spec by (apply byte_of_range; lia). rewrite !byte_of_spec by lia.
  change (2 ^ (8 * 0)) with 1. change (2 ^ (8 * 1)) with 256. change (2 ^ (8 * 2)) with 65536.
  change (2 ^ (8 * 3)) with 16777216. change (2 ^ 24) with 16777216. change (2 ^ 16) with 65536.
  change (2 ^ 8) with 256. change (2 ^ 32) with 4294967296 in Hv. Z.div_mod_to_equations. lia.
Qed.

Lemma swap16_spec v : 0 ≤ v < 2 ^ 16 → swap16 v = (v mod 256) * 256 + v / 256.
Proof.
  intros Hv. unfold swap16. rewrite lor_shiftl_add; [| lia |].
  - change 255 with (Z.ones 8). rewrite Z.land_ones, Z.shiftr_div_pow2 by lia. done.
  - rewrite Z.shiftr_div_pow2 by lia. change (2 ^ 16) with 65536 in Hv. change (2 ^ 8) with 256.
    Z.div_mod_to_equations. lia.
Qed.

Lemma swap16_range v : 0 ≤ v < 2 ^ 16 → 0 ≤ swap16 v < 2 ^ 16.
Proof.
  intros Hv. rewrite swap16_spec by done. change (2 ^ 16) with 65536 in *. Z.div_mod_to_equations. lia.
Qed.

Lemma swap16_involutive v : 0 ≤ v < 2 ^ 16 → swap16 (swap16 v) = v.
Proof.
  intros Hv. rewrite (swap16_spec (swap16 v)) by (by apply swap16_range).
  rewrite swap16_spec by done. change (2 ^ 16) with 65536 in *. Z.div_mod_to_equations. lia.
Qed.

Lemma load16_store16 v : 0 ≤ v < 2 ^ 16 → Z.lor (byte_of v 0) (Z.shiftl (byte_of v 1) 8) = v.
Proof.
  intros Hv. rewrite Z.lor_comm, lor_shiftl_add; [|lia|apply byte_of_range; lia].
  rewrite !byte_of_spec by lia. change (2 ^ (8 * 0)) with 1. change (2 ^ (8 * 1)) with 256.
  change (2 ^ 8) with 256. change (2 ^ 16) with 65536 in Hv. Z.div_mod_to_equations. lia.
Qed.

Lemma load16_app pre v post :
  0 ≤ v < 2 ^ 16 → load16 (pre ++ store16 v ++ post) (length pre) = v.
Proof. intros Hv. unfold load16. rewrite drop_app_length. by apply load16_store16. Qed.

Lemma load32_app pre v post :
  0 ≤ v < 2 ^ 32 → load32 (pre ++ store32 v ++ post) (length pre) = v.
Proof. intros Hv. unfold load32. rewrite drop_app_length. by apply be4_store32. Qed.

Lemma be4_range a b c d :
  is_byte a → is_byte b → is_byte c → is_byte d → 0 ≤ be4 a b c d < 2 ^ 32.
Proof.
  intros. rewrite be4_spec by done. unfold is_byte in *.
  change (2 ^ 24) with 16777216. change (2 ^ 16) with 65536. change (2 ^ 8) with 256.
  change (2 ^ 32) with 4294967296. lia.
Qed.

Lemma ipv4_round_trip octets :
  length octets = 4%nat → Forall is_byte octets →
  ipv4_of_u32 (u32_of_ipv4 octets) = octets ∧ 0 ≤ u32_of_ipv4 octets < 2 ^ 32 ∧
  swap32 (swap32 (u32_of_ipv4 octets)) = u32_of_ipv4 octets ∧
  0 ≤ swap32 (u32_of_ipv4 octets) < 2 ^ 32.
Proof.
  intros Hl Hb. destruct octets as [|a [|b [|c [|d [|]]]]]; try done.
  rewrite !Forall_cons in Hb. destruct Hb as (Ha & Hb & Hc & Hd & _).
  unfold ipv4_of_u32. simpl. destruct (byte_of_be4 a b c d Ha Hb Hc Hd) as (-> & -> & -> & ->).
  rewrite !swap32_be4 by done. split_and!; try done; by apply be4_range.
Qed.

Lemma decode_encode_v4 octets port :
  valid_addr (V4 octets port) → decode_addr (encode_addr (V4 octets port)).1 = Ok (V4 octets port).
Proof.
  intros (Hl & Hb & Hp). destruct (ipv4_round_trip octets Hl Hb) as (Hip & _ & Hsw & Hr).
  cbn [encode_addr fst]. unfold ptr_write, sockaddr_in. rewrite <-!app_assoc.
  set (post := replicate 8 0 ++ _). unfold decode_addr, from_be16, from_be32, to_be16, to_be32.
  set (m := store16 AF_INET ++ _).
  assert (load16 m 0 = AF_INET) as -> by (apply (load16_app [] AF_INET); unfold AF_INET; lia).
  assert (load16 m 2 = swap16 port) as ->.
  { apply (load16_app (store16 AF_INET) (swap16 port)). by apply swap16_range. }
  assert (load32 m 4 = swap32 (u32_of_ipv4 octets)) as ->.
  { unfold m. rewrite app_assoc. by apply (load32_app (store16 AF_INET ++ store16 (swap16 port))). }
  by rewrite Z.eqb_refl, Hsw, Hip, swap16_involutive.
Qed.

Lemma decode_encode_v6 octets port flowinfo scope_id :
  valid_addr (V6 octets port flowinfo scope_id) →
  decode_addr (encode_addr (V6 octets port flowinfo scope_id)).1 = Ok (V6 octets port flowinfo scope_id).
Proof.
  intros (Hl & Hb & Hp & Hf & Hs). cbn [encode_addr fst]. unfold ptr_write, sockaddr_in6.
  rewrite <-!app_assoc. set (post := drop _ _). unfold decode_addr, from_be16, to_be16.
  set (m := store16 AF_INET6 ++ _).
  assert (load16 m 0 = AF_INET6) as -> by (apply (load16_app [] AF_INET6); unfold AF_INET6; lia).
  assert (load16 m 2 = swap16 port) as ->.
  { apply (load16_app (store16 AF_INET6) (swap16 port)). by apply swap16_range. }
  assert (load32 m 4 = flowinfo) as ->.
  { unfold m. rewrite app_assoc. by apply (load32_app (store16 AF_INET6 ++ store16 (swap16 port))). }
  set (pre := store16 AF_INET6 ++ store16 (swap16 port) ++ store32 flowinfo).
  assert (m = pre ++ octets ++ store32 scope_id ++ post) as -> by (unfold m, pre; by rewrite <-!app_assoc).
  assert (load32 (pre ++ octets ++ store32 scope_id ++ post) 24 = scope_id) as ->.
  { replace 24%nat with (length (pre ++ octets)) by (rewrite length_app, Hl; done).
    rewrite app_assoc. by apply load32_app. }
  assert (drop 8 (pre ++ octets ++ store32 scope_id ++ post) = octets ++ store32 scope_id ++ post) as ->.
  { by apply (drop_app_length pre). }
  rewrite take_app_le, take_ge by lia. by rewrite swap16_involutive.
Qed.

Lemma decode_encode addr : valid_addr addr → decode_addr (encode_addr addr).1 = Ok addr.
Proof. destruct addr; [apply decode_encode_v4|apply decode_encode_v6]. Qed.

(** C22. What [submit] writes for the destination of a datagram is what the
    completion side reads: for every IPv4 or IPv6 address with its port, flow
    information and scope id, decoding the encoded [sockaddr_storage] gives
    the address back. *)
Theorem sockaddr_round_trip addr : valid_addr addr → decode_addr (encode_addr addr).1 = Ok addr.
Proof. apply decode_encode. Qed.

Lemma sockaddr_round_trip_witness :
  decode_addr (encode_addr (V4 [192; 168; 0; 7] 8080)).1 = Ok (V4 [192; 168; 0; 7] 8080).
Proof.
  apply sockaddr_round_trip. simpl. split; [reflexivity|]. split; [|lia].
  unfold is_byte. repeat constructor; lia.
Defined.
