(* ===== verification/Uring.v ===== *)
(** * The io_uring backend (src/io/uring.rs)

    Submission entries hold raw pointers into boxes and buffers; which of them
    are still allocated when the kernel reads an entry is part of the model:
    [mem] is the memory those pointers point into. The ring itself, shared with
    the kernel, is a parameter. *)

From S2P Require Import Prelude Buffer Io Sockaddr.

Create HintDb frees_db.

(** ** Memory *)

Inductive block :=
  | BStorage (bytes : list Z)
  | BLen (len : Z)
  | BBuf (b : Buffer)
  | BIov (iov_base : nat) (iov_len : nat)
  | BMsg (msg_name : nat) (msg_namelen : Z) (msg_iov : nat).

(** The allocated blocks, the next address, and the thread's buffer pool. *)
Record mem := mkMem {
  heap : gmap nat block;
  next_addr : nat;
  pool : Pool
}.

(** [Box::new], or the memory a [Buffer] owns. *)
Definition alloc (b : block) (m : mem) : nat * mem :=
  (next_addr m, mkMem (<[next_addr m := b]> (heap m)) (S (next_addr m)) (pool m)).

(** Dropping a box, or moving a buffer's memory out. *)
Definition free (p : nat) (m : mem) : mem := mkMem (delete p (heap m)) (next_addr m) (pool m).

Definition set_pool (m : mem) (pl : Pool) : mem := mkMem (heap m) (next_addr m) pl.

(** What the kernel has made of the memory. *)
Definition set_heap (m : mem) (h : gmap nat block) : mem := mkMem h (next_addr m) (pool m).

(** ** Submission queue entries *)

Inductive sqe_op :=
  | SqeAccept (fd : Z) (addr len : nat)
  | SqeRead (fd : Z) (buf : nat) (len : Z) (offset : Z)
  | SqeWrite (fd : Z) (buf : nat) (len : Z) (offset : Z)
  | SqeFsync (fd : Z)
  | SqeClose (fd : Z)
  | SqeRecvMsg (fd : Z) (msg : nat)
  | SqeSendMsg (fd : Z) (msg : nat).

Record sqe := mkSqe {
  sqe_body : sqe_op;
  user_data : Z
}.

(** The pointers the kernel follows. *)
Definition sqe_ptrs (e : sqe) : list nat :=
  match sqe_body e with
  | SqeAccept _ addr len => [addr; len]
  | SqeRead _ buf _ _ | SqeWrite _ buf _ _ => [buf]
  | SqeRecvMsg _ msg | SqeSendMsg _ msg => [msg]
  | SqeFsync _ | SqeClose _ => []
  end.

(** ** [PendingOp]: the operation and the memory it keeps alive *)

Inductive PendingOp :=
  | PRead (op : Op) (buf : nat)
  | PWrite (op : Op) (data : nat)
  | PAccept (op : Op) (addr_storage addr_len : nat)
  | PFsync (op : Op)
  | PClose (op : Op)
  | PReadFile (op : Op) (buf : nat)
  | PWriteFile (op : Op) (data : nat)
  | PUdpRecv (op : Op) (buffer addr_storage addr_len : nat)
  | PUdpSend (op : Op) (data addr_storage addr_len : nat).

(** ** The arms of [submit] *)

Definition SOCKLEN : Z := Z.of_nat SOCKADDR_STORAGE_SIZE.

(** [len as u32] *)
Definition as_u32 (n : nat) : Z := Z.of_nat n mod 2 ^ 32.

Definition submit_accept (fd ud : Z) (m : mem) : sqe * PendingOp * mem :=
  let '(st, m) := alloc (BStorage zeroed_storage) m in
  let '(len, m) := alloc (BLen SOCKLEN) m in
  (mkSqe (SqeAccept fd st len) ud, PAccept (OpAccept fd) st len, m).

(** [BufferPool::get] and an entry that reads into it. *)
Definition submit_read_buf (fd offset : Z) (len : nat) (ud : Z) (m : mem) : nat * sqe * mem :=
  let '(b, pl) := get len (pool m) in
  let '(buf, m) := alloc (BBuf b) (set_pool m pl) in
  (buf, mkSqe (SqeRead fd buf (as_u32 len) offset) ud, m).

Definition submit_read (fd offset : Z) (len : nat) (ud : Z) (m : mem) : sqe * PendingOp * mem :=
  let '(buf, e, m) := submit_read_buf fd offset len ud m in (e, PRead (OpRead fd offset len) buf, m).

Definition submit_read_file (fd offset : Z) (len : nat) (ud : Z) (m : mem) : sqe * PendingOp * mem :=
  let '(buf, e, m) := submit_read_buf fd offset len ud m in
  (e, PReadFile (OpReadFile fd offset len) buf, m).

Definition submit_write_buf (fd offset : Z) (data : Buffer) (ud : Z) (m : mem) : nat * sqe * mem :=
  let '(p, m) := alloc (BBuf data) m in
  (p, mkSqe (SqeWrite fd p (as_u32 (buffer_len data)) offset) ud, m).

Definition submit_write (fd offset : Z) (data : Buffer) (ud : Z) (m : mem) : sqe * PendingOp * mem :=
  let '(p, e, m) := submit_write_buf fd offset data ud m in (e, PWrite (OpWrite fd offset data) p, m).

Definition submit_write_file (fd offset : Z) (data : Buffer) (ud : Z) (m : mem)
    : sqe * PendingOp * mem :=
  let '(p, e, m) := submit_write_buf fd offset data ud m in
  (e, PWriteFile (OpWriteFile fd offset data) p, m).

Definition submit_fsync (fd ud : Z) (m : mem) : sqe * PendingOp * mem :=
  (mkSqe (SqeFsync fd) ud, PFsync (OpFsync fd), m).

Definition submit_close (fd ud : Z) (m : mem) : sqe * PendingOp * mem :=
  (mkSqe (SqeClose fd) ud, PClose (OpClose fd), m).

(** The boxes [iov] and [msg] are locals of the arm: both are dropped, in
    reverse order, at its end. *)
Definition submit_udp_recv (fd : Z) (buffer : Buffer) (ud : Z) (m : mem) : sqe * PendingOp * mem :=
  let '(buf, m) := alloc (BBuf buffer) m in
  let '(iov, m) := alloc (BIov buf (buffer_len buffer)) m in
  let '(st, m) := alloc (BStorage zeroed_storage) m in
  let '(len, m) := alloc (BLen SOCKLEN) m in
  let '(msg, m) := alloc (BMsg st SOCKLEN iov) m in
  (mkSqe (SqeRecvMsg fd msg) ud, PUdpRecv (OpUdpRecv fd buffer) buf st len, free iov (free msg m)).

Definition submit_udp_send (fd : Z) (data : Buffer) (addr : SocketAddr) (ud : Z) (m : mem)
    : sqe * PendingOp * mem :=
  let '(buf, m) := alloc (BBuf data) m in
  let '(iov, m) := alloc (BIov buf (buffer_len data)) m in
  let '(bytes, alen) := encode_addr addr in
  let '(st, m) := alloc (BStorage bytes) m in
  let '(len, m) := alloc (BLen alen) m in
  let '(msg, m) := alloc (BMsg st alen iov) m in
  (mkSqe (SqeSendMsg fd msg) ud, PUdpSend (OpUdpSend fd data addr) buf st len, free iov (free msg m)).

Definition submit_entry (op : Op) (ud : Z) (m : mem) : sqe * PendingOp * mem :=
  match op with
  | OpAccept fd => submit_accept fd ud m
  | OpRead fd offset len => submit_read fd offset len ud m
  | OpWrite fd offset data => submit_write fd offset data ud m
  | OpFsync fd => submit_fsync fd ud m
  | OpClose fd => submit_close fd ud m
  | OpReadFile fd offset len => submit_read_file fd offset len ud m
  | OpWriteFile fd offset data => submit_write_file fd offset data ud m
  | OpUdpRecv fd buffer => submit_udp_recv fd buffer ud m
  | OpUdpSend fd data addr => submit_udp_send fd data addr ud m
  end.

(** Dropping a [PendingOp] with the buffers and boxes it owns. *)
Definition drop_pending (p : PendingOp) (m : mem) : mem :=
  match p with
  | PRead _ b | PReadFile _ b | PWrite _ b | PWriteFile _ b => free b m
  | PAccept _ st len => free len (free st m)
  | PFsync _ | PClose _ => m
  | PUdpRecv _ b st len | PUdpSend _ b st len => free len (free st (free b m))
  end.

(** ** The ring *)

Class IoUring (R : Type) := {
  (** [SubmissionQueue::push]; [None] when the queue is full *)
  ring_push : sqe → R → option R;
  (** [IoUring::submit], with the memory the kernel reads *)
  ring_submit : gmap nat block → R → R;
  (** the completion queue entries, [user_data] and [result], and the memory
      with what the kernel has written into it since *)
  ring_completion : gmap nat block → R → list (IoToken * Z) * gmap nat block * R
}.

(** The kernel writes into the program's memory; it allocates and frees
    nothing there. *)
Class IoUringLaws (R : Type) `{IoUring R} : Prop := {
  ring_completion_blocks h r :
    let '(_, h', _) := ring_completion h r in ∀ a, is_Some (h' !! a) ↔ is_Some (h !! a)
}.

Section backend.
Context {R : Type} `{IoUring R}.

Record UringBackend := mkUringBackend {
  ring : R;
  pending_ops : gmap IoToken PendingOp;
  uring_mem : mem
}.

(** [UringBackend::new], given what [IoUring::new] gives. *)
Definition uring_new (made : result R io_error) (m : mem) : result UringBackend io_error :=
  result_map (λ r, mkUringBackend r ∅ m) made.

Definition uring_submit (op : Op) (counter : Z) (u : UringBackend) : IoToken * Z * UringBackend :=
  let '(token, counter) := IoToken_new counter in
  let '(e, p, m) := submit_entry op token (uring_mem u) in
  match ring_push e (ring u) with
  | Some r =>
      let m := match pending_ops u !! token with Some old => drop_pending old m | None => m end in
      (token, counter, mkUringBackend (ring_submit (heap m) r) (<[token := p]> (pending_ops u)) m)
  | None =>
      (token, counter,
       mkUringBackend (ring_submit (heap m) (ring u)) (pending_ops u) (drop_pending p m))
  end.

(** ** Completions *)

Definition os_err {A} (res : Z) : result A IoError := Err (Io (OsError (- res))).

(** Moving a buffer out of the memory it is in. *)
Definition take_buf (p : nat) (m : mem) : Buffer * mem :=
  match heap m !! p with
  | Some (BBuf b) => (b, free p m)
  | _ => (vec_zeroed 0, m)
  end.

Definition storage_at (p : nat) (m : mem) : list Z :=
  match heap m !! p with
  | Some (BStorage bytes) => bytes
  | _ => []
  end.

Definition recycle_in (b : Buffer) (m : mem) : mem := set_pool m (recycle b (pool m)).

Definition complete_accept (op : Op) (st len : nat) (res : Z) (m : mem) : Op * IoResult * mem :=
  let r := if res <? 0 then os_err res
           else match decode_addr (storage_at st m) with
                | Ok sa => Ok (CAccept res (Some sa))
                | Err e => Err e
                end in
  (op, r, free len (free st m)).

(** [Read] and [ReadFile]: on an error the buffer goes back to the pool. *)
Definition complete_read (mk : nat → Buffer → CompletionKind) (op : Op) (buf : nat) (res : Z) (m : mem)
    : Op * IoResult * mem :=
  let '(b, m) := take_buf buf m in
  if res <? 0 then (op, os_err res, recycle_in b m)
  else (op, Ok (mk (Z.to_nat res) (set_len (Z.to_nat res) b)), m).

(** [Write] and [WriteFile]: the buffer goes back to the pool in either case. *)
Definition complete_write (mk : nat → CompletionKind) (op : Op) (data : nat) (res : Z) (m : mem)
    : Op * IoResult * mem :=
  let '(b, m) := take_buf data m in
  (op, if res <? 0 then os_err res else Ok (mk (Z.to_nat res)), recycle_in b m).

Definition complete_plain (k : CompletionKind) (op : Op) (res : Z) (m : mem) : Op * IoResult * mem :=
  (op, if res <? 0 then os_err res else Ok k, m).

Definition complete_udp_recv (op : Op) (buffer st len : nat) (res : Z) (m : mem) : Op * IoResult * mem :=
  let '(b, m) := take_buf buffer m in
  if res <? 0 then (op, os_err res, free len (free st (recycle_in b m)))
  else
    let b := set_len (Z.to_nat res) b in
    let r := match decode_addr (storage_at st m) with
             | Ok sa => Ok (CUdpRecv (Z.to_nat res) b sa)
             | Err e => Err e
             end in
    (op, r, free len (free st m)).

Definition complete_udp_send (op : Op) (data st len : nat) (res : Z) (m : mem) : Op * IoResult * mem :=
  let '(b, m) := take_buf data m in
  (op, if res <? 0 then os_err res else Ok (CUdpSend (Z.to_nat res) b), free len (free st m)).

Definition complete_op (p : PendingOp) (res : Z) (m : mem) : Op * IoResult * mem :=
  match p with
  | PAccept op st len => complete_accept op st len res m
  | PRead op buf => complete_read CRead op buf res m
  | PWrite op data => complete_write CWrite op data res m
  | PFsync op => complete_plain CFsync op res m
  | PClose op => complete_plain CClose op res m
  | PReadFile op buf => complete_read CReadFile op buf res m
  | PWriteFile op data => complete_write CWriteFile op data res m
  | PUdpRecv op buffer st len => complete_udp_recv op buffer st len res m
  | PUdpSend op data st len => complete_udp_send op data st len res m
  end.

(** [for cqe in cq]: entries nobody waits for are skipped. *)
Fixpoint cqe_loop (cqes : list (IoToken * Z)) (pend : gmap IoToken PendingOp) (m : mem)
    : list Completion * gmap IoToken PendingOp * mem :=
  match cqes with
  | [] => ([], pend, m)
  | (token, res) :: cqes =>
      match pend !! token with
      | None => cqe_loop cqes pend m
      | Some p =>
          let '(op, r, m) := complete_op p res m in
          let '(cs, pend, m) := cqe_loop cqes (delete token pend) m in
          ((token, op, r) :: cs, pend, m)
      end
  end.

Definition uring_poll_complete (u : UringBackend) : Poll (list Completion) * UringBackend :=
  let '(cqes, h, r) := ring_completion (heap (uring_mem u)) (ring u) in
  let '(cs, pend, m) := cqe_loop cqes (pending_ops u) (set_heap (uring_mem u) h) in
  (match cs with [] => Pending | _ => Ready cs end, mkUringBackend r pend m).

End backend.
Arguments UringBackend R : clear implicits.

#[export] Instance uring_provider {R} `{IoUring R} : IoProvider (UringBackend R) := {
  submit := uring_submit;
  poll_complete := uring_poll_complete;
  outstanding u := dom (pending_ops u)
}.

(** ** The backend keeps the [IoProvider] contract *)

Section uring_facts.
Context {R : Type} `{IoUring R}.
Implicit Types (u : UringBackend R) (m : mem) (pend : gmap IoToken PendingOp).

Lemma cqe_loop_tokens cqes pend m :
  let '(cs, pend', _) := cqe_loop cqes pend m in
  NoDup (c_token <$> cs) ∧ (∀ c, c ∈ cs → c_token c ∈ dom pend) ∧
  dom pend' = dom pend ∖ list_to_set (c_token <$> cs).
Proof.
  revert pend m. induction cqes as [|[token res] cqes IH]; intros pend m; cbn [cqe_loop].
  { split_and!; [constructor|intros c Hc; by apply elem_of_nil in Hc|]. simpl. by rewrite difference_empty_L. }
  destruct (pend !! token) as [p|] eqn:Hp; [|apply IH].
  destruct (complete_op p res m) as [[op r] m1]. specialize (IH (delete token pend) m1).
  destruct (cqe_loop cqes (delete token pend) m1) as [[cs pend'] m2].
  destruct IH as (Hnd & Hin & Hdom). rewrite dom_delete_L in Hdom.
  assert (token ∉ c_token <$> cs) as Hfresh.
  { intros (c & -> & Hc)%list_elem_of_fmap. specialize (Hin c Hc). rewrite dom_delete_L in Hin.
    apply elem_of_difference in Hin as [_ Hin]. by apply Hin, elem_of_singleton. }
  split_and!.
  - rewrite fmap_cons. by constructor.
  - intros c [->|Hc]%elem_of_cons; [by apply elem_of_dom_2 in Hp|].
    specialize (Hin c Hc). rewrite dom_delete_L in Hin. by apply elem_of_difference in Hin as [? _].
  - rewrite Hdom, fmap_cons, list_to_set_cons. by rewrite difference_difference_l_L.
Qed.

#[export] Instance uring_provider_laws : IoProviderLaws (UringBackend R).
Proof.
  split; [intros op counter u|intros u]; simpl.
  - unfold uring_submit. cbn [IoToken_new fetch_add1].
    destruct (submit_entry op counter (uring_mem u)) as [[e p] m].
    destruct (ring_push e (ring u)) as [r|]; simpl; (split; [done|]).
    + by rewrite dom_insert_L.
    + apply union_subseteq_r.
  - unfold uring_poll_complete. destruct (ring_completion _ (ring u)) as [[cqes h] r].
    pose proof (cqe_loop_tokens cqes (pending_ops u) (set_heap (uring_mem u) h)) as Hspec.
    destruct (cqe_loop cqes (pending_ops u) _) as [[cs pend] m].
    destruct Hspec as (Hnd & Hin & Hdom). destruct cs as [|c cs]; simpl in *.
    + rewrite Hdom, difference_empty_L. done.
    + split_and!; [done|done|]. by rewrite Hdom.
Qed.

(** ** Memory safety *)

(** Addresses not yet given out are not allocated. *)
Definition mem_wf m : Prop := ∀ a, (next_addr m ≤ a)%nat → heap m !! a = None.

(** The addresses a pending operation keeps alive. *)
Definition owned (p : PendingOp) : list nat :=
  match p with
  | PRead _ b | PReadFile _ b | PWrite _ b | PWriteFile _ b => [b]
  | PAccept _ st len => [st; len]
  | PFsync _ | PClose _ => []
  | PUdpRecv _ b st len | PUdpSend _ b st len => [b; st; len]
  end.

Definition live m (a : nat) : Prop := is_Some (heap m !! a).

Definition is_udp (op : Op) : bool :=
  match op with OpUdpRecv _ _ | OpUdpSend _ _ _ => true | _ => false end.

(** [m'] agrees with [m] on every address below [next_addr m]. *)
Definition extends m m' : Prop :=
  mem_wf m' ∧ (next_addr m ≤ next_addr m')%nat ∧
  ∀ a, (a < next_addr m)%nat → heap m' !! a = heap m !! a.

Ltac heap_lookup :=
  repeat first [rewrite lookup_insert_eq | rewrite lookup_delete_eq
               | rewrite lookup_insert_ne by lia | rewrite lookup_delete_ne by lia].

Lemma submit_entry_mem op ud m :
  mem_wf m →
  let '(e, p, m') := submit_entry op ud m in
  extends m m' ∧ Forall (live m') (owned p) ∧ Forall (λ a, next_addr m ≤ a)%nat (owned p) ∧
  user_data e = ud ∧
  if is_udp op then Forall (λ a, heap m' !! a = None) (sqe_ptrs e) ∧ sqe_ptrs e ≠ []
  else sqe_ptrs e = owned p.
Proof.
  intros Hwf. unfold live, extends.
  assert (∀ k, heap m !! (next_addr m + k)%nat = None) as Hfresh by (intros k; apply Hwf; lia).
  destruct op as [fd|fd off len|fd off data|fd|fd|fd off len|fd off data|fd buf|fd data addr]; cbn;
    unfold submit_accept, submit_read, submit_write, submit_read_file, submit_write_file,
      submit_read_buf, submit_write_buf, submit_fsync, submit_close, submit_udp_recv, submit_udp_send;
    try destruct (get len (pool m)) as [b pl]; try destruct (encode_addr addr) as [bytes alen];
    cbn; unfold mem_wf; cbn.
  all: split_and!; try done; try lia.
  all: try (intros a Ha; heap_lookup; try apply Hwf; try done; lia).
  all: try (repeat constructor; cbn; heap_lookup; try done; lia).
Qed.

(** [m'] differs from [m] only by having freed some of the addresses [l]. *)
Definition frees (l : list nat) m m' : Prop :=
  next_addr m' = next_addr m ∧ (∀ a, a ∉ l → heap m' !! a = heap m !! a) ∧
  (∀ a, heap m !! a = None → heap m' !! a = None).

Lemma frees_free l m m' a : frees l m m' → a ∈ l → frees l m (free a m').
Proof.
  intros (Hn & Hs & Hno) Ha. split_and!; simpl; [done| |].
  - intros a' Ha'. rewrite lookup_delete_ne; [auto|]. by intros ->.
  - intros a' Ha'. destruct (decide (a = a')) as [->|]; [apply lookup_delete_eq|].
    rewrite lookup_delete_ne by done. auto.
Qed.

Lemma frees_pool l m m' pl : frees l m m' → frees l m (set_pool m' pl).
Proof. done. Qed.

Lemma frees_here l m : frees l m m.
Proof. by split_and!. Qed.

#[local] Hint Resolve frees_free frees_pool frees_here list_elem_of_here list_elem_of_further : frees_db.

Lemma take_buf_frees l m a : a ∈ l → frees l m (take_buf a m).2.
Proof. intros Ha. unfold take_buf. repeat case_match; simpl; auto with frees_db. Qed.

Lemma drop_pending_frees p m : frees (owned p) m (drop_pending p m).
Proof. destruct p; simpl; auto 10 with frees_db. Qed.

Lemma complete_op_frees p res m :
  frees (owned p) m (complete_op p res m).2.
Proof.
  destruct p as [op b|op b|op st len|op|op|op b|op b|op b st len|op b st len]; simpl;
    unfold complete_accept, complete_read, complete_write, complete_plain, complete_udp_recv,
      complete_udp_send, recycle_in.
  all: try pose proof (take_buf_frees [b] m b ltac:(left)) as Hb.
  all: try pose proof (take_buf_frees [b; st; len] m b ltac:(left)) as Hb'.
  all: try destruct (take_buf b m) as [buf m1].
  all: repeat case_match; simpl in *; auto 10 with frees_db.
Qed.

Lemma frees_wf l m m' : mem_wf m → frees l m m' → mem_wf m'.
Proof. intros Hwf (Hn & _ & Hno) a Ha. apply Hno, Hwf. lia. Qed.

Definition pending_inv pend m : Prop :=
  mem_wf m ∧
  (∀ t p, pend !! t = Some p → Forall (λ a, live m a ∧ a < next_addr m)%nat (owned p)) ∧
  (∀ t1 t2 p1 p2 a, pend !! t1 = Some p1 → pend !! t2 = Some p2 →
     a ∈ owned p1 → a ∈ owned p2 → t1 = t2).

(** Freeing what one operation owns leaves the others' memory alone. *)
Lemma pending_inv_delete pend m t p m' :
  pending_inv pend m → pend !! t = Some p → frees (owned p) m m' →
  pending_inv (delete t pend) m'.
Proof.
  intros (Hwf & Hlive & Hdis) Hp Hfr. pose proof Hfr as (Hn & Hs & _).
  split; [by eapply frees_wf|]. split.
  - intros t' p' [Hne Hp']%lookup_delete_Some. specialize (Hlive _ _ Hp').
    rewrite Forall_forall in *. intros a Ha. destruct (Hlive a Ha) as [Hl Hlt].
    unfold live. rewrite Hn, Hs; [done|]. intros Ha'. by destruct Hne; eapply Hdis.
  - intros t1 t2 p1 p2 a [_ ?]%lookup_delete_Some [_ ?]%lookup_delete_Some. eauto.
Qed.

Lemma pending_inv_extends pend m m' :
  pending_inv pend m → extends m m' → pending_inv pend m'.
Proof.
  intros (Hwf & Hlive & Hdis) (Hwf' & Hn & Hs). split; [done|]. split; [|done].
  intros t p Hp. eapply Forall_impl; [exact (Hlive _ _ Hp)|]. intros a [Hl Hlt].
  split; [|lia]. unfold live. by rewrite Hs.
Qed.

Lemma pending_inv_insert pend m t p :
  pending_inv pend m → pend !! t = None → Forall (λ a, live m a ∧ a < next_addr m)%nat (owned p) →
  (∀ t' p' a, pend !! t' = Some p' → a ∈ owned p' → a ∉ owned p) →
  pending_inv (<[t := p]> pend) m.
Proof.
  intros (Hwf & Hlive & Hdis) Hnone Hl Hnew. split; [done|]. split.
  - by intros t' p' [[<- <-]|[Hne Hp']]%lookup_insert_Some; [|eauto].
  - intros t1 t2 p1 p2 a [[<- <-]|[? Hp1]]%lookup_insert_Some [[<- <-]|[? Hp2]]%lookup_insert_Some Ha1 Ha2;
      try done; [| |eauto]; exfalso; by eapply Hnew.
Qed.

Lemma cqe_loop_inv cqes pend m :
  pending_inv pend m →
  let '(_, pend', m') := cqe_loop cqes pend m in pending_inv pend' m'.
Proof.
  revert pend m. induction cqes as [|[token res] cqes IH]; intros pend m Hinv; cbn [cqe_loop]; [done|].
  destruct (pend !! token) as [p|] eqn:Hp; [|by apply IH].
  pose proof (complete_op_frees p res m) as Hfr. destruct (complete_op p res m) as [[op r] m1].
  specialize (IH (delete token pend) m1). destruct (cqe_loop cqes _ m1) as [[cs pend'] m2].
  apply IH. by eapply pending_inv_delete.
Qed.

Definition uring_inv u : Prop := pending_inv (pending_ops u) (uring_mem u).

(** What happens to a backend: submissions, polls for completions, the kernel
    writing into blocks that exist, and the thread using its buffer pool. *)
Inductive uring_step : UringBackend R → UringBackend R → Prop :=
  | uring_submits op counter u token counter' u' :
      uring_submit op counter u = (token, counter', u') → uring_step u u'
  | uring_polls u : uring_step u (uring_poll_complete u).2
  | uring_kernel u r h :
      (∀ a, is_Some (h !! a) ↔ is_Some (heap (uring_mem u) !! a)) →
      uring_step u (mkUringBackend r (pending_ops u) (set_heap (uring_mem u) h))
  | uring_pool u pl :
      uring_step u (mkUringBackend (ring u) (pending_ops u) (set_pool (uring_mem u) pl)).

(** Dropping the operation filed under a token, if there is one. *)
Lemma pending_inv_evict pend m t :
  pending_inv pend m →
  let m' := match pend !! t with Some old => drop_pending old m | None => m end in
  pending_inv (delete t pend) m' ∧
  ∃ l, frees l m m' ∧ ∀ a, a ∈ l → ∃ p, pend !! t = Some p ∧ a ∈ owned p.
Proof.
  intros Hinv. destruct (pend !! t) as [old|] eqn:Hold; simpl.
  - pose proof (drop_pending_frees old m) as Hfr. split; [by eapply pending_inv_delete|]. eauto.
  - rewrite delete_id by done. split; [done|]. exists []. split; [apply frees_here|].
    intros a Ha. by apply elem_of_nil in Ha.
Qed.

Lemma uring_submit_inv op counter u token counter' u' :
  uring_inv u → uring_submit op counter u = (token, counter', u') → uring_inv u'.
Proof.
  intros Hinv Hs. unfold uring_submit in Hs. cbn [IoToken_new fetch_add1] in Hs.
  pose proof (submit_entry_mem op counter (uring_mem u) (proj1 Hinv)) as Hspec.
  destruct (submit_entry op counter (uring_mem u)) as [[e p] m1].
  destruct Hspec as (Hext & Hl & Hge & _). pose proof (pending_inv_extends _ _ _ Hinv Hext) as Hinv1.
  assert (∀ t' p' a, pending_ops u !! t' = Some p' → a ∈ owned p' → (a < next_addr (uring_mem u))%nat) as Hold.
  { intros t' p' a Hp' Ha. destruct Hinv as (_ & Hlive & _). specialize (Hlive _ _ Hp').
    rewrite Forall_forall in Hlive. by destruct (Hlive a Ha). }
  rewrite Forall_forall in Hl, Hge. destruct (ring_push e (ring u)) as [r|].
  - injection Hs as <- _ <-. unfold uring_inv; simpl.
    destruct (pending_inv_evict _ _ counter Hinv1) as [Hinv2 (l & (Hn & Hs' & _) & Hlo)].
    rewrite <-insert_delete_eq. apply pending_inv_insert; [done|apply lookup_delete_eq| |].
    + apply Forall_forall. intros a Ha. destruct Hext as (Hwf1 & _).
      assert (live m1 a) as [x Hx] by auto. unfold live. rewrite Hn, Hs'.
      * split; [by rewrite Hx|]. destruct (decide (a < next_addr m1)%nat); [done|].
        rewrite Hwf1 in Hx; [done|lia].
      * intros Hal. destruct (Hlo a Hal) as (p' & Hp' & Ha'). specialize (Hold _ _ _ Hp' Ha').
        specialize (Hge a Ha). lia.
    + intros t' p' a [_ Hp']%lookup_delete_Some Ha Ha2. specialize (Hold _ _ _ Hp' Ha).
      specialize (Hge a Ha2). lia.
  - injection Hs as _ _ <-. unfold uring_inv; simpl. destruct Hinv1 as (Hwf1 & Hlive1 & Hdis).
    pose proof (drop_pending_frees p m1) as Hfr. split; [by eapply frees_wf|]. split; [|done].
    intros t' p' Hp'. specialize (Hlive1 _ _ Hp'). rewrite Forall_forall in *. intros a Ha.
    destruct Hfr as (Hn & Hs' & _). unfold live. rewrite Hn, Hs'; [exact (Hlive1 a Ha)|].
    intros Ha2. specialize (Hold _ _ _ Hp' Ha). specialize (Hge a Ha2). lia.
Qed.

(** The kernel's writes do not matter to who owns what. *)
Lemma pending_inv_kernel pend m h :
  pending_inv pend m → (∀ a, is_Some (h !! a) ↔ is_Some (heap m !! a)) →
  pending_inv pend (set_heap m h).
Proof.
  intros (Hwf & Hlive & Hdis) Hh. split; [|split; [|done]]; simpl.
  - intros a Ha. simpl in Ha. specialize (Hwf a Ha). apply eq_None_not_Some. rewrite Hh.
    by apply eq_None_not_Some.
  - intros t p Hp. eapply Forall_impl; [exact (Hlive _ _ Hp)|]. intros a [Hl Hlt].
    split; [by apply Hh|done].
Qed.

Context `{!IoUringLaws R}.

Lemma uring_step_inv u u' : uring_inv u → uring_step u u' → uring_inv u'.
Proof.
  intros Hinv Hstep. destruct Hstep as [op counter u token counter' u' Hs|u|u r h Hh|u pl].
  - by eapply uring_submit_inv.
  - unfold uring_poll_complete.
    pose proof (ring_completion_blocks (heap (uring_mem u)) (ring u)) as Hh.
    destruct (ring_completion _ (ring u)) as [[cqes h] r].
    pose proof (cqe_loop_inv cqes _ _ (pending_inv_kernel _ _ _ Hinv Hh)) as Hl.
    by destruct (cqe_loop cqes _ _) as [[cs pend] m].
  - by apply pending_inv_kernel.
  - exact Hinv.
Qed.

Lemma uring_reachable_inv u u' : uring_inv u → rtc uring_step u u' → uring_inv u'.
Proof. intros Hinv Hr. induction Hr; eauto using uring_step_inv. Qed.

Lemma uring_new_inv r m : mem_wf m → uring_inv (mkUringBackend r ∅ m).
Proof. intros Hwf. split; [done|]. split; intros *; simpl; by rewrite lookup_empty. Qed.

End uring_facts.

(** ** Claims *)

(** C13. For every operation but the two datagram ones, the memory the
    submission entry points to is allocated from the moment the entry is
    given to the kernel for as long as the operation is pending, whatever else
    is submitted or completed meanwhile. *)
Theorem uring_pointers_stay_live {R} `{IoUringLaws R} r0 m0 u u1 u2 op counter e p m r :
  mem_wf m0 → rtc uring_step (mkUringBackend r0 ∅ m0) u → is_udp op = false →
  submit_entry op counter (uring_mem u) = (e, p, m) → ring_push e (ring u) = Some r →
  uring_submit op counter u = (counter, wrap64 (counter + 1), u1) →
  rtc uring_step u1 u2 → pending_ops u2 !! counter = Some p →
  Forall (live (uring_mem u1)) (sqe_ptrs e) ∧ Forall (live (uring_mem u2)) (sqe_ptrs e).
Proof.
  intros Hwf Hr Hudp He Hpush Hs Hr2 Hp.
  pose proof (uring_reachable_inv _ _ (uring_new_inv r0 m0 Hwf) Hr) as Hinv.
  pose proof (submit_entry_mem op counter (uring_mem u) (proj1 Hinv)) as Hspec.
  rewrite He, Hudp in Hspec. destruct Hspec as (_ & _ & _ & _ & ->).
  pose proof (uring_submit_inv _ _ _ _ _ _ Hinv Hs) as Hinv1.
  assert (pending_ops u1 !! counter = Some p) as Hp1.
  { unfold uring_submit in Hs. cbn [IoToken_new fetch_add1] in Hs. rewrite He, Hpush in Hs.
    injection Hs as <-. simpl. apply lookup_insert_eq. }
  pose proof (uring_reachable_inv _ _ Hinv1 Hr2) as Hinv2.
  destruct Hinv1 as (_ & Hl1 & _), Hinv2 as (_ & Hl2 & _).
  split.
  - eapply Forall_impl; [exact (Hl1 _ _ Hp1)|]. by intros a [? _].
  - eapply Forall_impl; [exact (Hl2 _ _ Hp)|]. by intros a [? _].
Qed.

(** C38. The entry of a datagram operation points to a message header that is
    no longer allocated when the entry is given to the kernel: the boxes of
    the header and of its I/O vector are dropped at the end of the match arm,
    before [push] and [submit]. *)
Theorem uring_udp_header_dangles op ud m :
  mem_wf m → is_udp op = true →
  let '(e, p, m') := submit_entry op ud m in
  sqe_ptrs e ≠ [] ∧ Forall (λ a, heap m' !! a = None) (sqe_ptrs e).
Proof.
  intros Hwf Hudp. pose proof (submit_entry_mem op ud m Hwf) as Hspec.
  destruct (submit_entry op ud m) as [[e p] m']. rewrite Hudp in Hspec. by destruct Hspec as (_ & _ & _ & _ & ? & ?).
Qed.

(** ** Witnesses: a ring that takes entries and completes nothing *)

#[local] Instance idle_ring : IoUring unit := {
  ring_push _ r := Some r;
  ring_submit _ r := r;
  ring_completion h r := ([], h, r)
}.

#[local] Instance idle_ring_laws : IoUringLaws unit.
Proof. by split. Qed.

Definition demo_mem : mem := mkMem ∅ 0 [].

Lemma demo_mem_wf : mem_wf demo_mem.
Proof. intros a _. apply lookup_empty. Qed.

Definition demo_uring : UringBackend unit := mkUringBackend tt ∅ demo_mem.

Lemma uring_pointers_stay_live_witness :
  Forall (live (uring_mem (uring_submit (OpAccept 3) 1 demo_uring).2)) [0; 1]%nat.
Proof.
  exact (proj1 (uring_pointers_stay_live tt demo_mem demo_uring
    (uring_submit (OpAccept 3) 1 demo_uring).2 (uring_submit (OpAccept 3) 1 demo_uring).2
    (OpAccept 3) 1 _ _ _ tt demo_mem_wf (rtc_refl _ _) eq_refl eq_refl eq_refl eq_refl
    (rtc_refl _ _) eq_refl)).
Defined.

Lemma uring_udp_header_dangles_witness :
  let '(e, p, m') := submit_entry (OpUdpRecv 4 (vec_zeroed 8)) 7 demo_mem in
  sqe_ptrs e ≠ [] ∧ Forall (λ a, heap m' !! a = None) (sqe_ptrs e).
Proof. exact (uring_udp_header_dangles (OpUdpRecv 4 (vec_zeroed 8)) 7 demo_mem demo_mem_wf eq_refl). Defined.
