(* ===== verification/NetUring.v ===== *)
(** * Sockets over io_uring: [AsyncTcpStream] (src/net.rs) on [UringBackend]
    (src/io/uring.rs) under [Runtime::block_on] (src/executor.rs)

    The kernel is the ring of [Uring]: what it reports and what it writes into
    the program's memory are hypotheses, everything else is the program. *)

From S2P Require Import Prelude Interfaces Waker Task Buffer Io Executor Runtime AsyncIo Net Sockaddr Uring.

(** The buffer pool of the thread is the one the backend's memory has. *)
#[export] Instance uring_pool_in {R} : PoolIn (UringBackend R) := {
  the_pool u := pool (uring_mem u);
  put_pool p u := mkUringBackend (ring u) (pending_ops u) (set_pool (uring_mem u) p)
}.

#[export] Instance uring_pool_in_laws {R} `{IoUring R} : PoolInLaws (UringBackend R).
Proof. split; [done| |done]. by intros [r pend [h n p]]. Qed.

Section net_uring.
Context {R : Type} `{IoUringLaws R}.
Implicit Types (u : UringBackend R) (m : mem) (pend : gmap IoToken PendingOp).

(** What the kernel reports at the next poll: the entries and the memory. *)
Definition reports u : list (IoToken * Z) := (ring_completion (heap (uring_mem u)) (ring u)).1.1.
Definition kernel_heap u : gmap nat block := (ring_completion (heap (uring_mem u)) (ring u)).1.2.

Lemma cqe_loop_unreported t cqes pend m :
  t ∉ cqes.*1 →
  (t ∉ c_token <$> (cqe_loop cqes pend m).1.1) ∧ (cqe_loop cqes pend m).1.2 !! t = pend !! t.
Proof.
  revert pend m. induction cqes as [|[token res] cqes IH]; intros pend m Ht; cbn [cqe_loop].
  { split; [apply not_elem_of_nil|done]. }
  rewrite fmap_cons in Ht. apply not_elem_of_cons in Ht as [Hne Ht]. cbn [fst] in Hne.
  destruct (pend !! token) as [p|]; [|by apply IH].
  destruct (complete_op p res m) as [[op r] m1].
  destruct (IH (delete token pend) m1 Ht) as [Hc Hp].
  destruct (cqe_loop cqes (delete token pend) m1) as [[cs pend'] m2]. cbn in *.
  rewrite lookup_delete_ne in Hp by congruence.
  split; [|done]. apply not_elem_of_cons. done.
Qed.

Lemma unreported_poll t u :
  t ∉ (reports u).*1 →
  ¬ mentions (poll_complete u).1 t ∧ pending_ops (poll_complete u).2 !! t = pending_ops u !! t.
Proof.
  unfold reports. cbn. unfold uring_poll_complete.
  destruct (ring_completion _ (ring u)) as [[cqes h] r]. cbn. intros Ht.
  destruct (cqe_loop_unreported t cqes (pending_ops u) (set_heap (uring_mem u) h) Ht) as [Hc Hp].
  destruct (cqe_loop cqes _ _) as [[cs pend] m]. cbn in *. split; [|done].
  intros (cs' & E & Hin). destruct cs; [done|]. by injection E as <-.
Qed.

(** Memories that agree on the blocks an operation owns. *)
Definition agree (p : PendingOp) m m' : Prop := ∀ a, a ∈ owned p → heap m' !! a = heap m !! a.

(** A reported operation is completed with its own blocks as the kernel left
    them, whatever else completes in the same round. *)
Lemma cqe_loop_completes t res cqes pend m p :
  pending_inv pend m → NoDup cqes.*1 → (t, res) ∈ cqes → pend !! t = Some p →
  ∃ m', agree p m m' ∧
    (t, (complete_op p res m').1.1, (complete_op p res m').1.2) ∈ (cqe_loop cqes pend m).1.1.
Proof.
  revert pend m. induction cqes as [|[token res'] cqes IH]; intros pend m Hinv Hnd Hin Hp;
    [by apply elem_of_nil in Hin|].
  rewrite fmap_cons in Hnd. apply NoDup_cons in Hnd as [Hfr Hnd]. cbn [cqe_loop fst] in *.
  apply elem_of_cons in Hin as [[= <- <-]|Hin].
  - rewrite Hp. exists m. split; [done|]. destruct (complete_op p res m) as [[op r] m1].
    destruct (cqe_loop cqes _ _) as [[cs pend'] m2]. apply list_elem_of_here.
  - assert (token ≠ t) as Hne.
    { intros ->. apply Hfr, list_elem_of_fmap. by exists (t, res). }
    destruct (pend !! token) as [p'|] eqn:Htok; [|by apply IH].
    pose proof (complete_op_frees p' res' m) as Hfrees.
    destruct (complete_op p' res' m) as [[op' r'] m1]. cbn in Hfrees.
    destruct (IH (delete token pend) m1) as (m' & Hag & Hc);
      [by eapply pending_inv_delete|done|done|by rewrite lookup_delete_ne|].
    exists m'. split.
    + intros a Ha. rewrite (Hag a Ha). destruct Hfrees as (_ & Hs & _). rewrite Hs; [done|]. intros Hown.
      destruct Hinv as (_ & _ & Hdis). apply Hne. by eapply (Hdis token t).
    + destruct (cqe_loop cqes _ m1) as [[cs pend'] m2]. cbn in *. by right.
Qed.

Lemma uring_inv_poll u : uring_inv u → uring_inv (poll_complete u).2.
Proof. intros Hinv. eapply uring_step_inv; [done|]. apply uring_polls. Qed.

Lemma uring_inv_polls k u : uring_inv u → uring_inv (polls k u).
Proof. revert u. induction k as [|k IH]; intros u Hinv; [done|]. by apply IH, uring_inv_poll. Qed.

(** While the kernel does not report [t], its operation stays pending. *)
Lemma pending_polls k u t :
  (∀ j, (j < k)%nat → t ∉ (reports (polls j u)).*1) →
  pending_ops (polls k u) !! t = pending_ops u !! t.
Proof.
  revert u. induction k as [|k IH]; intros u Hno; [done|]. cbn [polls].
  rewrite IH; [|intros j Hj; apply (Hno (S j)); lia].
  by destruct (unreported_poll t u (Hno 0%nat ltac:(lia))).
Qed.

(** A poll completes an operation the kernel reports. *)
Lemma reported_poll u t p res :
  uring_inv u → pending_ops u !! t = Some p → NoDup (reports u).*1 → (t, res) ∈ reports u →
  ∃ m', (∀ a, a ∈ owned p → heap m' !! a = kernel_heap u !! a) ∧
    completes (poll_complete u).1 t (complete_op p res m').1.2.
Proof.
  unfold reports, kernel_heap. cbn [poll_complete uring_provider]. unfold uring_poll_complete.
  intros Hinv Hp. pose proof (ring_completion_blocks (heap (uring_mem u)) (ring u)) as Hh.
  destruct (ring_completion _ (ring u)) as [[cqes h] r]. cbn [fst snd]. intros Hnd Hin.
  destruct (cqe_loop_completes t res cqes _ (set_heap (uring_mem u) h) p
    (pending_inv_kernel _ _ _ Hinv Hh) Hnd Hin Hp) as (m' & Hag & Hc).
  exists m'. split; [exact Hag|]. destruct (cqe_loop cqes _ _) as [[cs pend'] m2]. cbn in *.
  destruct cs as [|c cs]; [by apply elem_of_nil in Hc|]. by exists (c :: cs), (complete_op p res m').1.1.
Qed.

(** The kernel's answer to an operation, in the terms of the I/O interface. *)
Lemma uring_answered u t p res k :
  uring_inv u → pending_ops u !! t = Some p →
  (∀ j, (j < k)%nat → t ∉ (reports (polls j u)).*1) →
  NoDup (reports (polls k u)).*1 → (t, res) ∈ reports (polls k u) →
  ∃ m', (∀ a, a ∈ owned p → heap m' !! a = kernel_heap (polls k u) !! a) ∧
    answered u t (complete_op p res m').1.2 k.
Proof.
  intros Hinv Hp Hno Hnd Hin.
  destruct (reported_poll (polls k u) t p res) as (m' & Hag & Hc);
    [by apply uring_inv_polls|by rewrite pending_polls|done|done|].
  exists m'. split; [exact Hag|]. split; [|exact Hc]. intros j Hj. by apply unreported_poll, Hno.
Qed.

(** A completed read gives the buffer the kernel has written. *)
Lemma complete_read_gives mk op buf n v m :
  heap m !! buf = Some (BBuf v) → (complete_read mk op buf (Z.of_nat n) m).1.2 = Ok (mk n (set_len n v)).
Proof.
  intros Hv. unfold complete_read, take_buf. rewrite Hv, (proj2 (Z.ltb_ge _ 0)) by lia. by rewrite Nat2Z.id.
Qed.

Lemma pending_below u counter :
  0 ≤ counter → (∀ t, t ∈ dom (pending_ops u) → t < counter) → tokens_below (CpuIoState_new u) counter.
Proof.
  intros Hc Hp. split; [done|]. split; [|exact Hp]. intros t Ht. by apply not_elem_of_empty in Ht.
Qed.

Lemma uring_ask park u counter op u1 r k :
  counter < u64_max → uring_submit op counter u = (counter, counter + 1, u1) →
  answered u1 counter r k →
  ask park (u, counter) op r (polls (S k) u1, Nat.iter (S k) park (counter + 1)).
Proof. intros Hc Hs Hans. by apply (ask_intro park u counter op counter (counter + 1) u1 r k). Qed.

(** The kernel reports [res] for [t] at poll number [k], and not before. *)
Definition kernel_answers u t k res : Prop :=
  (∀ j, (j < k)%nat → t ∉ (reports (polls j u)).*1) ∧
  NoDup (reports (polls k u)).*1 ∧ (t, res) ∈ reports (polls k u).

(** An operation the ring takes and the kernel reports is a request and its
    answer of the I/O interface. *)
Lemma uring_op_ask park op counter u u1 e p m r1 k res :
  uring_inv u → 0 ≤ counter < u64_max →
  submit_entry op counter (uring_mem u) = (e, p, m) → ring_push e (ring u) = Some r1 →
  (uring_submit op counter u).2 = u1 → kernel_answers u1 counter k res →
  ∃ m', (∀ a, a ∈ owned p → heap m' !! a = kernel_heap (polls k u1) !! a) ∧
    ask park (u, counter) op (complete_op p res m').1.2 (polls (S k) u1, Nat.iter (S k) park (counter + 1)).
Proof.
  intros Hinv Hc He Hpush <- (Hno & Hnd & Hin).
  set (u1 := (uring_submit op counter u).2) in *.
  assert (uring_submit op counter u = (counter, wrap64 (counter + 1), u1)) as Hs
    by (unfold u1, uring_submit; cbn [IoToken_new fetch_add1]; by rewrite He, Hpush).
  assert (pending_ops u1 !! counter = Some p) as Hp1.
  { unfold u1, uring_submit. cbn [IoToken_new fetch_add1]. rewrite He, Hpush. apply lookup_insert_eq. }
  pose proof (uring_submit_inv _ _ _ _ _ _ Hinv Hs) as Hinv1.
  destruct (uring_answered u1 counter p res k Hinv1 Hp1 Hno Hnd Hin) as (m' & Hag & Hans).
  exists m'. split; [exact Hag|]. rewrite wrap64_small in Hs by (unfold is_u64, u64_max in *; lia).
  exact (uring_ask park u counter op u1 _ k (proj2 Hc) Hs Hans).
Qed.

End net_uring.

(** C15. Reading from a TCP stream, from the caller to the kernel: with io_uring
    as the backend, [block_on] of [AsyncTcpStream::read] returns the bytes the
    kernel wrote. If the ring takes the entry, and the kernel reports [n] bytes
    for it at some later poll and has by then written [bytes] at the front of
    the buffer the entry points to, the call returns [n] and a buffer that shows
    exactly [bytes], whatever other operations are pending or complete. *)
Theorem uring_tcp_read {R} `{IoUringLaws R} park (u u1 : UringBackend R) s counter e op buf m r1 n v bytes k :
  (∀ c, c ≤ park c) → uring_inv u → pool_inv (the_pool u) →
  0 ≤ counter < u64_max → (∀ t, t ∈ dom (pending_ops u) → t < counter) →
  let u0 := put_pool (tail (the_pool u)) u in
  submit_entry (OpRead (stream_fd s) 0 BUFFER_SIZE) counter (uring_mem u0) = (e, PRead op buf, m) →
  ring_push e (ring u) = Some r1 →
  (uring_submit (OpRead (stream_fd s) 0 BUFFER_SIZE) counter u0).2 = u1 →
  kernel_answers u1 counter k (Z.of_nat n) →
  kernel_heap (polls k u1) !! buf = Some (BBuf v) → (n ≤ capacity v)%nat →
  take n (Buffer.mem v) = Some <$> bytes →
  ∃ fuel buf', Runtime_block_on (async_future (once (read_prepare s) read_finish)) park fuel
                 (Ok u) Unresumed counter = Ret (Ok (n, buf'), None, Nat.iter (S k) park (counter + 1)) ∧
    visible buf' = Some <$> bytes.
Proof.
  intros Hp Hinv Hpool Hc Hpend u0 He Hpush Hs Hk Hv Hn Hbytes.
  assert (uring_inv u0) as Hinv0 by (eapply uring_step_inv; [exact Hinv|apply uring_pool]).
  destruct (uring_op_ask park _ counter u0 u1 _ _ _ _ k _ Hinv0 Hc He Hpush Hs Hk) as (m' & Hag & Hask).
  cbn [complete_op] in Hask. rewrite (complete_read_gives _ _ _ _ v) in Hask
    by (rewrite Hag by apply list_elem_of_here; exact Hv).
  destruct (tcp_read_runs park u s counter (Ok (CRead n (set_len n v))) (polls (S k) u1)
    (Nat.iter (S k) park (counter + 1)) Hp Hpool) as (fuel & buf' & Hrun & _ & Hvis).
  - exact (pending_below u0 counter (proj1 Hc) Hpend).
  - exact Hask.
  - unfold vec_wf, capacity in *. cbn. done.
  - unfold initialised, visible. cbn. rewrite Hbytes. apply Forall_fmap, Forall_true. by eexists.
  - done.
  - exists fuel, buf'. split; [exact Hrun|]. rewrite Hvis. unfold visible. cbn.
    by rewrite take_take, Nat.min_id.
Qed.

(** Accepting a connection, from the caller to the kernel: with io_uring as
    the backend, when the kernel reports the descriptor of a connection and has
    written the peer's address into the storage the entry points to, [block_on]
    of [AsyncTcpListener::accept] returns a stream on that descriptor and that
    address, for every IPv4 and IPv6 address. *)
Theorem uring_tcp_accept {R} `{IoUringLaws R} park (u u1 : UringBackend R) l counter e op st len m r1 fd addr k :
  (∀ c, c ≤ park c) → uring_inv u →
  0 ≤ counter < u64_max → (∀ t, t ∈ dom (pending_ops u) → t < counter) →
  submit_entry (OpAccept (listener_fd l)) counter (uring_mem u) = (e, PAccept op st len, m) →
  ring_push e (ring u) = Some r1 → (uring_submit (OpAccept (listener_fd l)) counter u).2 = u1 →
  kernel_answers u1 counter k fd → 0 ≤ fd → valid_addr addr →
  kernel_heap (polls k u1) !! st = Some (BStorage (encode_addr addr).1) →
  ∃ fuel, Runtime_block_on (async_future (once (accept_prepare l) accept_finish)) park fuel (Ok u) Unresumed counter =
          Ret (Ok (mkAsyncTcpStream fd, Some addr), None, Nat.iter (S k) park (counter + 1)).
Proof.
  intros Hp Hinv Hc Hpend He Hpush Hs Hk Hfd Hval Hst.
  destruct (uring_op_ask park _ counter u u1 _ _ _ _ k fd Hinv Hc He Hpush Hs Hk) as (m' & Hag & Hask).
  cbn [complete_op] in Hask. unfold complete_accept, storage_at in Hask.
  rewrite Hag, Hst, decode_encode, (proj2 (Z.ltb_ge _ 0)) in Hask by (done || apply list_elem_of_here).
  by eapply (block_on_async (accept_prepare l) accept_finish park _ _ _ u);
    [|apply pending_below; [lia|]| |exact Hask|].
Qed.

(** C16. Writing to a TCP stream, from the caller to the kernel: with io_uring as
    the backend, [AsyncTcpStream::write] gives the kernel an entry that points
    to memory with exactly the caller's bytes and, below 4 GiB, asks for all of
    them; when the kernel reports [n] bytes, [block_on] returns [n], and when it
    reports an error, that error. *)
Theorem uring_tcp_write {R} `{IoUringLaws R} park (u u1 : UringBackend R) s bytes counter e op data m r1 res k :
  (∀ c, c ≤ park c) → uring_inv u →
  0 ≤ counter < u64_max → (∀ t, t ∈ dom (pending_ops u) → t < counter) →
  submit_entry (OpWrite (stream_fd s) 0 (from_slice bytes)) counter (uring_mem u) = (e, PWrite op data, m) →
  ring_push e (ring u) = Some r1 →
  (uring_submit (OpWrite (stream_fd s) 0 (from_slice bytes)) counter u).2 = u1 →
  kernel_answers u1 counter k res →
  (∃ len, sqe_body e = SqeWrite (stream_fd s) data len 0 ∧
    (Z.of_nat (length bytes) < 2 ^ 32 → len = Z.of_nat (length bytes))) ∧
  heap (uring_mem u1) !! data = Some (BBuf (from_slice bytes)) ∧
  ∃ fuel, Runtime_block_on (async_future (once (write_prepare s bytes) write_finish)) park fuel (Ok u) Unresumed counter =
          Ret (if res <? 0 then Err (OsError (- res)) else Ok (Z.to_nat res), None,
               Nat.iter (S k) park (counter + 1)).
Proof.
  intros Hp Hinv Hc Hpend He Hpush Hs Hk.
  destruct (uring_op_ask park _ counter u u1 _ _ _ _ k res Hinv Hc He Hpush Hs Hk) as (m' & Hag & Hask).
  pose proof He as He'. cbn in He'. injection He' as <- <- <- <-. split_and!.
  - eexists. split; [done|]. intros Hlt. unfold as_u32, buffer_len, from_slice, vec_of_slice. cbn.
    apply Z.mod_small. lia.
  - subst u1. unfold uring_submit. cbn [IoToken_new fetch_add1]. rewrite He, Hpush. cbn.
    case_match eqn:Hold; [|apply lookup_insert_eq].
    apply elem_of_dom_2, Hpend in Hold. lia.
  - cbn [complete_op] in Hask. unfold complete_write in Hask.
    destruct (take_buf _ m') as [b0 m0]. cbn [fst snd] in Hask.
    eapply (block_on_async (write_prepare s bytes) write_finish park _ _ _ u);
      [exact Hp|apply pending_below; [lia|exact Hpend]|done|exact Hask|].
    unfold write_finish. by destruct (res <? 0).
Qed.

(** ** Witnesses: a ring whose kernel answers a read with two bytes, a write
    with the bytes asked for and an accept with a connection *)

Definition kernel_write (bytes : list Z) (b : block) : block :=
  match b with
  | BBuf v => BBuf (vec_write bytes v)
  | b => b
  end.

Definition demo_peer : SocketAddr := V4 [192; 0; 2; 7] 8080.

(** The entry's token, the result, and what the kernel does to which memory. *)
Definition answer : Type := IoToken * Z * nat * (block → block).

#[local] Instance answering_ring : IoUring (option answer) := {
  ring_push e r :=
    match sqe_body e with
    | SqeRead _ buf _ _ => Some (Some (user_data e, 2, buf, kernel_write [104; 105]))
    | SqeWrite _ buf len _ => Some (Some (user_data e, len, buf, id))
    | SqeAccept _ st _ => Some (Some (user_data e, 9, st, λ _, BStorage (encode_addr demo_peer).1))
    | _ => Some r
    end;
  ring_submit _ r := r;
  ring_completion h r :=
    match r with
    | Some (t, res, a, f) => ([(t, res)], alter f a h, None)
    | None => ([], h, None)
    end
}.

#[local] Instance answering_ring_laws : IoUringLaws (option answer).
Proof.
  split. intros h [[[[t res] b] f]|]; cbn; [|done]. intros a. destruct (decide (b = a)) as [->|].
  - rewrite lookup_alter_eq. by rewrite fmap_is_Some.
  - by rewrite lookup_alter_ne.
Qed.

Definition demo_net_uring : UringBackend (option answer) :=
  mkUringBackend None ∅ (mkMem ∅ 0 []).

Lemma demo_net_uring_inv : uring_inv demo_net_uring.
Proof. apply uring_new_inv. intros a _. apply lookup_empty. Qed.

Lemma uring_tcp_read_witness :
  ∃ fuel buf', Runtime_block_on (async_future (once (read_prepare (mkAsyncTcpStream 7)) read_finish)) (λ c, c) fuel
                 (Ok demo_net_uring) Unresumed 1 = Ret (Ok (2%nat, buf'), None, 2) ∧
    visible buf' = [Some 104; Some 105].
Proof.
  pose (op := OpRead 7 0 BUFFER_SIZE).
  pose (sub := submit_entry op 1 (mkMem ∅ 0 [])).
  apply (uring_tcp_read (λ c, c) demo_net_uring (uring_submit op 1 demo_net_uring).2
    (mkAsyncTcpStream 7) 1 sub.1.1 op 0%nat sub.2 (Some (1, 2, 0%nat, kernel_write [104; 105])) 2
    (vec_write [104; 105] (vec_zeroed BUFFER_SIZE)) [104; 105] 0).
  - intros c. apply Z.le_refl.
  - apply demo_net_uring_inv.
  - split; [vm_compute; lia|constructor].
  - vm_compute. split; congruence.
  - intros t Ht. by apply not_elem_of_empty in Ht.
  - vm_compute. reflexivity.
  - vm_compute. reflexivity.
  - reflexivity.
  - split; [intros j Hj; lia|]. split; apply (bool_decide_unpack _); vm_compute; reflexivity.
  - vm_compute. reflexivity.
  - apply Nat.leb_le. vm_compute. reflexivity.
  - vm_compute. reflexivity.
Defined.

Lemma uring_tcp_accept_witness :
  ∃ fuel, Runtime_block_on (async_future (once (accept_prepare (mkAsyncTcpListener 3)) accept_finish)) (λ c, c) fuel
            (Ok demo_net_uring) Unresumed 1 = Ret (Ok (mkAsyncTcpStream 9, Some demo_peer), None, 2).
Proof.
  pose (op := OpAccept 3).
  pose (sub := submit_entry op 1 (mkMem ∅ 0 [])).
  apply (uring_tcp_accept (λ c, c) demo_net_uring (uring_submit op 1 demo_net_uring).2
    (mkAsyncTcpListener 3) 1 sub.1.1 op 0%nat 1%nat sub.2
    (Some (1, 9, 0%nat, λ _, BStorage (encode_addr demo_peer).1)) 9 demo_peer 0).
  - intros c. apply Z.le_refl.
  - apply demo_net_uring_inv.
  - vm_compute. split; congruence.
  - intros t Ht. by apply not_elem_of_empty in Ht.
  - vm_compute. reflexivity.
  - vm_compute. reflexivity.
  - reflexivity.
  - split; [intros j Hj; lia|]. split; apply (bool_decide_unpack _); vm_compute; reflexivity.
  - lia.
  - apply (bool_decide_unpack _). vm_compute. reflexivity.
  - vm_compute. reflexivity.
Defined.

Lemma uring_tcp_write_witness :
  heap (uring_mem (uring_submit (OpWrite 7 0 (from_slice [104; 105])) 1 demo_net_uring).2) !! 0%nat =
    Some (BBuf (from_slice [104; 105])) ∧
  ∃ fuel, Runtime_block_on (async_future (once (write_prepare (mkAsyncTcpStream 7) [104; 105]) write_finish)) (λ c, c)
            fuel (Ok demo_net_uring) Unresumed 1 = Ret (Ok 2%nat, None, 2).
Proof.
  pose (op := OpWrite 7 0 (from_slice [104; 105])).
  pose (sub := submit_entry op 1 (mkMem ∅ 0 [])).
  apply (uring_tcp_write (λ c, c) demo_net_uring (uring_submit op 1 demo_net_uring).2
    (mkAsyncTcpStream 7) [104; 105] 1 sub.1.1 op 0%nat sub.2 (Some (1, 2, 0%nat, id)) 2 0).
  - intros c. apply Z.le_refl.
  - apply demo_net_uring_inv.
  - vm_compute. split; congruence.
  - intros t Ht. by apply not_elem_of_empty in Ht.
  - vm_compute. reflexivity.
  - vm_compute. reflexivity.
  - reflexivity.
  - split; [intros j Hj; lia|]. split; apply (bool_decide_unpack _); vm_compute; reflexivity.
Defined.
