(* ===== verification/IoTyping.v ===== *)
(** * Completions have the kind of their operation (src/io/uring.rs, src/net.rs, src/fs.rs)

    [CompletionKind] is one type for all operations, and the functions of
    net.rs and fs.rs answer a kind they do not expect with an error. Here the
    operations are given result types: a completion is well typed when its kind
    is the one of its operation. The io_uring backend is well typed, so over it
    none of these functions ever returns that error. *)

From S2P Require Import Prelude Interfaces Buffer Io Sockaddr Executor Runtime AsyncIo Net Fs Uring NetUring.

(** ** The type of an operation's result *)

Definition kind_of (op : Op) (kind : CompletionKind) : bool :=
  match op, kind with
  | OpAccept _, CAccept _ _ | OpRead _ _ _, CRead _ _ | OpWrite _ _ _, CWrite _
  | OpFsync _, CFsync | OpClose _, CClose | OpReadFile _ _ _, CReadFile _ _
  | OpWriteFile _ _ _, CWriteFile _ | OpUdpRecv _ _, CUdpRecv _ _ _ | OpUdpSend _ _ _, CUdpSend _ _ => true
  | _, _ => false
  end.

(** The errors a backend makes: a code of the kernel, or an address that does
    not decode. *)
Definition backend_error (e : IoError) : Prop :=
  (∃ code, e = Io (OsError code)) ∨ ∃ storage, decode_addr storage = Err e.

Definition typed (op : Op) (r : IoResult) : Prop :=
  match r with
  | Ok kind => kind_of op kind = true
  | Err e => backend_error e
  end.

(** ** What the callers make of it *)

Definition unexpected_udp : io_error := CustomError InvalidData "Unexpected completion kind for UdpRecv".

(** The function that submitted [op] does not find the kind unexpected. *)
Definition expected {B} `{PoolIn B} (op : Op) (r : IoResult) (b : B) : Prop :=
  match op with
  | OpAccept _ => (accept_finish r b).1 ≠ Ret (Err unexpected_kind)
  | OpRead _ _ _ => (read_finish r b).1 ≠ Ret (Err unexpected_kind)
  | OpWrite _ _ _ => (write_finish r b).1 ≠ Ret (Err unexpected_kind)
  | OpReadFile _ _ _ => (read_at_finish r b).1 ≠ Ret (Err unexpected_kind)
  | OpWriteFile _ _ _ => (write_at_finish r b).1 ≠ Ret (Err unexpected_kind)
  | OpFsync _ => (sync_all_finish r b).1 ≠ Ret (Err unexpected_kind)
  | OpUdpRecv _ _ => ∀ buf, (recv_from_finish buf r b).1 ≠ Ret (Err unexpected_udp, buf)
  | OpClose _ | OpUdpSend _ _ _ => True
  end.

Lemma backend_error_expected e :
  backend_error e → io_error_of_IoError e ≠ unexpected_kind ∧ io_error_of_IoError e ≠ unexpected_udp.
Proof.
  intros [[code ->]|[st Hst]]; [by split|].
  unfold decode_addr in Hst. repeat case_match; try done. injection Hst as <-. by split.
Qed.

Lemma typed_expected {B} `{PoolIn B} op r (b : B) : typed op r → expected op r b.
Proof.
  destruct r as [kind|e]; cbn [typed].
  - destruct op, kind; try done; intros _; cbn; try intros buf;
      repeat (case_match || destruct (slice_to _ _)); done.
  - intros [H1 H2]%backend_error_expected. destruct op; cbn; try done; intros; congruence.
Qed.

(** ** io_uring *)

(** The operation a pending entry was made from, and that it is of the entry's
    sort. *)
Definition pending_op (p : PendingOp) : Op :=
  match p with
  | PRead op _ | PWrite op _ | PAccept op _ _ | PFsync op | PClose op
  | PReadFile op _ | PWriteFile op _ | PUdpRecv op _ _ _ | PUdpSend op _ _ _ => op
  end.

Definition pending_typed (p : PendingOp) : bool :=
  match p with
  | PRead (OpRead _ _ _) _ | PWrite (OpWrite _ _ _) _ | PAccept (OpAccept _) _ _
  | PFsync (OpFsync _) | PClose (OpClose _) | PReadFile (OpReadFile _ _ _) _
  | PWriteFile (OpWriteFile _ _ _) _ | PUdpRecv (OpUdpRecv _ _) _ _ _
  | PUdpSend (OpUdpSend _ _ _) _ _ _ => true
  | _ => false
  end.

Lemma submit_entry_typed op ud m :
  let '(_, p, _) := submit_entry op ud m in pending_op p = op ∧ pending_typed p = true.
Proof.
  destruct op; cbn; unfold submit_read, submit_read_file, submit_read_buf; try done;
    try (by destruct (get len (pool m))).
  unfold submit_udp_send. by destruct (encode_addr addr).
Qed.

Lemma complete_op_typed p res m :
  pending_typed p = true →
  let '(op, r, _) := complete_op p res m in op = pending_op p ∧ typed op r.
Proof.
  intros Hp. destruct p as [op b|op b|op st len|op|op|op b|op b|op b st len|op b st len], op; try done; cbn;
    unfold complete_read, complete_write, complete_accept, complete_plain, complete_udp_recv, complete_udp_send;
    try destruct (take_buf b m) as [buf m']; destruct (res <? 0); cbn; repeat case_match; cbn;
    (split; [done|]); first [done | by left; eexists | by right; eexists].
Qed.

Section uring_typed.
Context {R : Type} `{IoUring R}.
Implicit Types (u : UringBackend R) (pend : gmap IoToken PendingOp).

(** Entries are well typed, and under tokens already handed out. *)
Definition entries_typed pend (counter : Z) : Prop :=
  ∀ t p, pend !! t = Some p → pending_typed p = true ∧ t < counter.

Lemma cqe_loop_typed cqes pend m counter :
  entries_typed pend counter →
  let '(cs, pend', _) := cqe_loop cqes pend m in
  pend' ⊆ pend ∧ ∀ t op r, (t, op, r) ∈ cs → typed op r ∧ pending_op <$> pend !! t = Some op.
Proof.
  revert pend m. induction cqes as [|[t res] cqes IH]; intros pend m Hty; cbn [cqe_loop].
  { split; [done|]. intros t op r Hin. by apply elem_of_nil in Hin. }
  destruct (pend !! t) as [p|] eqn:Hp; [|by apply IH].
  pose proof (complete_op_typed p res m (proj1 (Hty _ _ Hp))) as Hc.
  destruct (complete_op p res m) as [[op r] m1]. destruct Hc as [-> Hc].
  specialize (IH (delete t pend) m1). destruct (cqe_loop cqes (delete t pend) m1) as [[cs pend'] m2].
  destruct IH as [Hsub Hcs].
  { intros t' p' [_ Hp']%lookup_delete_Some. eauto. }
  split; [etrans; [exact Hsub|apply delete_subseteq]|].
  intros t' op' r' [[= -> -> ->]|Hin]%elem_of_cons; [by rewrite Hp|].
  destruct (Hcs _ _ _ Hin) as [Ht (p' & Hp' & Hop)%fmap_Some]. split; [done|].
  apply lookup_delete_Some in Hp' as [_ ->]. by rewrite Hop.
Qed.

Lemma uring_poll_typed u counter :
  entries_typed (pending_ops u) counter →
  let '(p, u') := uring_poll_complete u in
  pending_ops u' ⊆ pending_ops u ∧
  ∀ cs t op r, p = Ready cs → (t, op, r) ∈ cs → typed op r ∧ pending_op <$> pending_ops u !! t = Some op.
Proof.
  intros Hty. unfold uring_poll_complete. destruct (ring_completion _ _) as [[cqes h] r0].
  pose proof (cqe_loop_typed cqes _ (set_heap (uring_mem u) h) counter Hty) as Hl.
  destruct (cqe_loop cqes _ _) as [[cs pend] m]. destruct Hl as [Hsub Hcs]. split; [done|].
  intros cs' t op r. destruct cs; [done|]. intros [= <-]. apply Hcs.
Qed.

Lemma entries_typed_mono pend pend' counter counter' :
  entries_typed pend counter → pend' ⊆ pend → counter ≤ counter' → entries_typed pend' counter'.
Proof.
  intros Hty Hsub Hle t p Hp. destruct (Hty t p); [by eapply lookup_weaken|]. split; [done|lia].
Qed.

Lemma uring_submit_typed op counter u t counter' u' :
  entries_typed (pending_ops u) counter → 0 ≤ counter < u64_max →
  uring_submit op counter u = (t, counter', u') →
  t = counter ∧ counter' = counter + 1 ∧ entries_typed (pending_ops u') counter' ∧
  ∀ p, pending_ops u' !! t = Some p → pending_op p = op.
Proof.
  intros Hty Hc Hs. unfold uring_submit in Hs. cbn [IoToken_new fetch_add1] in Hs.
  rewrite wrap64_small in Hs by (unfold is_u64, u64_max in *; lia).
  pose proof (submit_entry_typed op counter (uring_mem u)) as He.
  destruct (submit_entry op counter (uring_mem u)) as [[e p] m]. destruct He as [Hop Hp].
  destruct (ring_push e (ring u)) as [r|]; injection Hs as <- <- <-; cbn [pending_ops]; split_and!; try done.
  - intros t' p' [[<- <-]|[_ Hp']]%lookup_insert_Some; [split; [done|lia]|].
    destruct (Hty _ _ Hp'). split; [done|lia].
  - intros p'. rewrite lookup_insert_eq. by intros [= <-].
  - eapply entries_typed_mono; [exact Hty|done|lia].
  - intros p' Hp'. destruct (Hty _ _ Hp'). lia.
Qed.

(** An entry stays as it is until it is completed. *)
Lemma polls_typed u counter k :
  entries_typed (pending_ops u) counter → pending_ops (polls k u) ⊆ pending_ops u.
Proof.
  revert u. induction k as [|k IH]; intros u Hty; [done|]. cbn [polls].
  pose proof (uring_poll_typed u counter Hty) as Hp. cbn.
  destruct (uring_poll_complete u) as [p u']. destruct Hp as [Hsub _]. etrans; [|exact Hsub].
  apply IH. by eapply entries_typed_mono.
Qed.

Lemma iter_le (park : Z → Z) n c : (∀ c, c ≤ park c) → c ≤ Nat.iter n park c.
Proof. intros Hp. induction n as [|n IH]; [apply Z.le_refl|]. etrans; [exact IH|apply Hp]. Qed.

Lemma uring_ask_typed park u counter op r u' counter' :
  (∀ c, c ≤ park c) → entries_typed (pending_ops u) counter → 0 ≤ counter →
  ask park (u, counter) op r (u', counter') →
  typed op r ∧ entries_typed (pending_ops u') counter' ∧ 0 ≤ counter'.
Proof.
  intros Hpark Hty Hc Hask. inversion Hask as [? ? ? t c2 u1 ? k Hlt Hs [_ Hans]]; subst.
  destruct (uring_submit_typed op counter u t c2 u1 Hty) as (-> & -> & Hty1 & Hop); [lia|done|].
  pose proof (polls_typed u1 (counter + 1) k Hty1) as Hk.
  pose proof (uring_poll_typed (polls k u1) (counter + 1)) as Hp.
  pose proof (iter_le park (S k) (counter + 1) Hpark) as Hle.
  split_and!; [| |etrans; [|exact Hle]; lia].
  - destruct Hans as (cs & op' & Hcs & Hin). unfold nth_poll in Hcs. cbn in Hcs.
    destruct (uring_poll_complete (polls k u1)) as [pl u2]. cbn in Hcs. subst pl.
    destruct Hp as [_ Hp]; [by eapply entries_typed_mono|].
    destruct (Hp _ _ _ _ eq_refl Hin) as [Ht (p & Hp' & ->)%fmap_Some].
    rewrite <-(Hop p); [done|]. by eapply lookup_weaken.
  - eapply entries_typed_mono; [exact Hty1| |done]. by apply (polls_typed u1 (counter + 1) (S k)).
Qed.

End uring_typed.

(** ** Claims *)

(** C14. Type soundness of the io_uring backend: along any run of an
    asynchronous function over it, every answer the function gets has the kind
    of the operation it submitted or is an error of the kernel or of decoding
    an address, whatever the kernel reports and in whatever order; so no
    function of net.rs and fs.rs ever returns its unexpected-kind error. *)
Theorem uring_type_sound {R S T} `{IoUring R} (f : AsyncBody (UringBackend R) S T) park
    (u : UringBackend R) counter tn trace o st :
  (∀ c, c ≤ park c) → 0 ≤ counter → entries_typed (pending_ops u) counter →
  (∀ s r b, pending_ops (resume f s r b).2 = pending_ops b) →
  runs f park (tn, u, counter) trace o st →
  entries_typed (pending_ops st.1) st.2 ∧
  ∀ op r, (op, r) ∈ trace → typed op r ∧ ∀ b : UringBackend R, expected op r b.
Proof.
  intros Hpark Hc Hty Hres Hruns. remember (tn, u, counter) as conf eqn:Hconf.
  revert tn u counter Hc Hty Hconf.
  induction Hruns as [v b c|b c|op s b c r b' c' trace o st Hask _ IH];
    intros tn u counter Hc Hty [= <- <- <-].
  1, 2: split; [done|]; intros op r Hin; by apply elem_of_nil in Hin.
  destruct (uring_ask_typed _ _ _ _ _ _ _ Hpark Hty Hc Hask) as (Ht & Hty' & Hc').
  specialize (Hres s r b'). destruct (resume f s r b') as [tn' b2]. cbn in Hres.
  destruct (IH tn' b2 c' Hc') as [Hst Htr]; [by rewrite Hres|done|]. split; [done|].
  intros op' r' [[= -> ->]|Hin]%elem_of_cons; [|by apply Htr].
  split; [done|]. intros b3. by apply typed_expected.
Qed.

#[local] Existing Instances answering_ring answering_ring_laws.

Definition demo_write : Op := OpWrite 7 0 (from_slice [104; 105]).

Lemma demo_write_ask : ∃ st, ask (λ c, c) (demo_net_uring, 1) demo_write (Ok (CWrite 2)) st.
Proof.
  pose (sub := submit_entry demo_write 1 (mkMem ∅ 0 [])).
  destruct (uring_op_ask (λ c, c) demo_write 1 demo_net_uring (uring_submit demo_write 1 demo_net_uring).2 sub.1.1
    (PWrite demo_write 0) sub.2 (Some (1, 2, 0%nat, id)) 0 2 demo_net_uring_inv) as (m' & _ & Hask).
  - vm_compute. split; congruence.
  - vm_compute. reflexivity.
  - vm_compute. reflexivity.
  - reflexivity.
  - split; [intros j Hj; lia|]. split; apply (bool_decide_unpack _); vm_compute; reflexivity.
  - cbn [complete_op] in Hask. unfold complete_write in Hask.
    destruct (take_buf _ m') as [b0 m0]. by eexists.
Qed.

Lemma uring_type_sound_witness :
  typed demo_write (Ok (CWrite 2)) ∧ expected demo_write (Ok (CWrite 2)) demo_net_uring.
Proof.
  destruct demo_write_ask as [[u c] Hask].
  pose (f := once (write_prepare (mkAsyncTcpStream 7) [104; 105]) write_finish
               : AsyncBody (UringBackend (option answer)) _ _).
  destruct (uring_type_sound f (λ c, c) demo_net_uring 1 (Await demo_write tt)
    [(demo_write, Ok (CWrite 2))] (Ret (Ok 2%nat)) (u, c)) as [_ Hall].
  - intros c'. apply Z.le_refl.
  - lia.
  - intros t p Hp. cbn in Hp. by rewrite lookup_empty in Hp.
  - done.
  - eapply runs_await; [exact Hask|]. apply runs_return.
  - destruct (Hall demo_write (Ok (CWrite 2))) as [Ht He]; [left|]. split; [exact Ht|apply He].
Defined.
