(* ===== verification/Mio.v ===== *)
(** * What the epoll and kqueue backends use (crate [mio], the kernel)

    Both backends register descriptors with a selector of the crate [mio] and
    make the system calls themselves. Selector and kernel are one parameter,
    the class [Kernel]; the laws say what the manual pages say. Two helpers
    that the two source files have in common are here as well. *)

From S2P Require Import Prelude Buffer Io Sockaddr.

(** ** The kernel *)

Inductive Interest := READABLE | WRITABLE.

Class Kernel (K : Type) := {
  (** [Registry::register] with the token, [Registry::deregister] *)
  sys_register : Z → Z → Interest → K → result unit io_error * K;
  sys_deregister : Z → K → result unit io_error * K;
  (** [Poll::poll] without waiting: the tokens of the events *)
  sys_poll : K → result (list Z) io_error * K;
  (** the new descriptor and the [sockaddr_storage] *)
  sys_accept : Z → K → result (Z * list Z) io_error * K;
  sys_lseek : Z → Z → K → result unit io_error * K;
  sys_read : Z → nat → K → result (list Z) io_error * K;
  sys_write : Z → list (option Z) → K → result nat io_error * K;
  sys_recvfrom : Z → nat → K → result (list Z * SocketAddr) io_error * K;
  sys_sendto : Z → list (option Z) → SocketAddr → K → result nat io_error * K;
  sys_fsync : Z → K → result unit io_error * K;
  sys_fstat : Z → K → result unit io_error * K;
  sys_close : Z → K → result unit io_error * K;
  (** the descriptors that are open, those the selector watches, and which
      are sockets *)
  open_fds : K → gset Z;
  watched : K → gset Z;
  is_socket : Z → K → bool
}.

Definition EBADF : io_error := OsError 9.
Definition ESPIPE : io_error := OsError 29.

(** What epoll_ctl(2), lseek(2), close(2) and fsync(2) say. *)
Class KernelLaws (K : Type) `{Kernel K} : Prop := {
  close_open fd k : open_fds (sys_close fd k).2 = open_fds k ∖ {[ fd ]};
  close_closed fd k : (fd ∉ open_fds k) → (sys_close fd k).1 = Err EBADF;
  fsync_open fd k : open_fds (sys_fsync fd k).2 = open_fds k;
  fsync_closed fd k : (fd ∉ open_fds k) → (sys_fsync fd k).1 = Err EBADF;
  read_open fd len k : open_fds (sys_read fd len k).2 = open_fds k;
  write_open fd bytes k : open_fds (sys_write fd bytes k).2 = open_fds k;
  poll_open k : open_fds (sys_poll k).2 = open_fds k;
  deregister_open fd k : open_fds (sys_deregister fd k).2 = open_fds k;
  lseek_closed fd offset k : (fd ∉ open_fds k) → (sys_lseek fd offset k).1 = Err EBADF;
  lseek_open fd offset k : open_fds (sys_lseek fd offset k).2 = open_fds k;
  poll_socket fd k : is_socket fd (sys_poll k).2 = is_socket fd k;
  deregister_socket fd fd' k : is_socket fd (sys_deregister fd' k).2 = is_socket fd k;
  lseek_socket fd offset k : is_socket fd k = true → (sys_lseek fd offset k).1 = Err ESPIPE;
  register_refused fd token interest k :
    (fd ∉ open_fds k) ∨ fd ∈ watched k → ∃ e, (sys_register fd token interest k).1 = Err e
}.

(** [AsRawFd for Op] *)
Definition op_fd (op : Op) : Z :=
  match op with
  | OpAccept fd | OpRead fd _ _ | OpWrite fd _ _ | OpFsync fd | OpClose fd
  | OpReadFile fd _ _ | OpWriteFile fd _ _ | OpUdpRecv fd _ | OpUdpSend fd _ _ => fd
  end.

(** The errors of [std::io]: [kind() == ErrorKind::WouldBlock]; EAGAIN is 11. *)
Definition is_would_block (err : io_error) : bool :=
  match err with
  | OsError code => code =? 11
  | CustomError WouldBlock _ => true
  | CustomError _ _ => false
  end.

Section mio.
Context {K : Type} `{Kernel K}.

(** Dropping a [File] or a [UdpSocket]: the error of close is ignored. *)
Definition drop_file (fd : Z) (k : K) : K := (sys_close fd k).2.

(** When the address family is not one it knows, the new descriptor is not
    closed. *)
Definition syscall_accept (fd : Z) (k : K) : result (Z * SocketAddr) io_error * K :=
  let '(r, k) := sys_accept fd k in
  (match r with
   | Err err => Err err
   | Ok (new_fd, storage) =>
       match decode_addr storage with
       | Ok addr => Ok (new_fd, addr)
       | Err err => Err (io_error_of_IoError err)
       end
   end, k).

End mio.

(** The completions a poll returned. *)
Definition reported (p : Poll (list Completion)) : list Completion :=
  match p with Ready cs => cs | Pending => [] end.

Lemma reported_all (cs : list Completion) :
  reported match cs with [] => Pending | c :: l => Ready (c :: l) end = cs.
Proof. by destruct cs. Qed.

(** ** The map of pending operations as a list *)

#[export] Instance app_submseteq {A} :
  Proper (submseteq ==> submseteq ==> submseteq) (@app A).
Proof. intros l1 l2 Hl k1 k2 Hk. by apply submseteq_app. Qed.

Lemma pending_delete (m : gmap Z (IoToken * Op)) mio_token x :
  m !! mio_token = Some x → (map_to_list m).*2 ≡ₚ x :: (map_to_list (delete mio_token m)).*2.
Proof. intros Hx. by rewrite <-(map_to_list_delete m mio_token x Hx). Qed.

Lemma pending_insert (m : gmap Z (IoToken * Op)) mio_token x :
  (map_to_list (<[mio_token := x]> m)).*2 ⊆+ x :: (map_to_list m).*2.
Proof.
  rewrite (pending_delete (<[mio_token := x]> m) mio_token x) by apply lookup_insert_eq.
  rewrite delete_insert_eq. apply submseteq_skip.
  destruct (m !! mio_token) as [y|] eqn:Hy.
  - rewrite (pending_delete m mio_token y Hy). by apply submseteq_cons.
  - by rewrite delete_id.
Qed.

(** ** Runs of a backend

    A backend holds operations under their tokens. From a backend and a token
    counter, a run is the operations submitted and the completions returned, in
    order; in between, other threads take tokens and the backend and the kernel
    move on their own. *)

Section backend_runs.
Context {E : Type}.
Variable held : E → list (IoToken * Op).
Variable submit : Op → Z → E → IoToken * Z * E.
Variable poll_complete : E → Poll (list Completion) * E.
Variable internal : E → E → Prop.

Inductive backend_run : E * Z → list (IoToken * Op) → list Completion → E * Z → Prop :=
  | run_nil st : backend_run st [] [] st
  | run_submit e counter op t counter' e' subs cs st :
      counter < u64_max → submit op counter e = (t, counter', e') →
      backend_run (e', counter') subs cs st → backend_run (e, counter) ((t, op) :: subs) cs st
  | run_poll e counter p e' subs cs st :
      poll_complete e = (p, e') →
      backend_run (e', counter) subs cs st → backend_run (e, counter) subs (reported p ++ cs) st
  | run_internal e counter e' counter' subs cs st :
      internal e e' → counter ≤ counter' →
      backend_run (e', counter') subs cs st → backend_run (e, counter) subs cs st.

(** No step makes up an operation: each completes or keeps what it held. *)
Class holds : Prop := {
  holds_submit op counter e :
    let '(t, counter', e') := submit op counter e in
    (t, counter') = IoToken_new counter ∧ held e' ⊆+ (t, op) :: held e;
  holds_poll e :
    let '(p, e') := poll_complete e in (reported p).*1 ++ held e' ⊆+ held e;
  holds_internal e e' : internal e e' → held e' ⊆+ held e
}.

Context (Hholds : holds).

Lemma run_held st subs cs st' :
  backend_run st subs cs st' → cs.*1 ++ held st'.1 ⊆+ subs ++ held st.1.
Proof.
  induction 1 as [st|e c op t c' e' subs cs st Hlt Hs _ IH
                 |e c p e' subs cs st Hp _ IH|e c e' c' subs cs st Hi Hle _ IH]; cbn [fst] in *.
  - done.
  - pose proof (holds_submit op c e) as Hh. rewrite Hs in Hh. destruct Hh as [_ Hh].
    rewrite IH, Hh. apply Permutation_submseteq. cbn. symmetry. apply Permutation_middle.
  - pose proof (holds_poll e) as Hh. rewrite Hp in Hh. rewrite fmap_app, <-app_assoc, IH.
    etrans; [|apply submseteq_app; [reflexivity|exact Hh]].
    apply Permutation_submseteq. rewrite !app_assoc. by rewrite (Permutation_app_comm _ subs).
  - rewrite IH. by rewrite (holds_internal e e' Hi).
Qed.

Lemma run_tokens st subs cs st' :
  backend_run st subs cs st' → 0 ≤ st.2 →
  NoDup subs.*1 ∧ ∀ t, t ∈ subs.*1 → st.2 ≤ t.
Proof.
  induction 1 as [st|e c op t c' e' subs cs st Hlt Hs _ IH
                 |e c p e' subs cs st Hp _ IH|e c e' c' subs cs st Hi Hle _ IH]; cbn [fst snd] in *;
    intros Hc.
  - split; [constructor|]. intros t Ht. by apply elem_of_nil in Ht.
  - pose proof (holds_submit op c e) as Hh. rewrite Hs in Hh. destruct Hh as [Ht _].
    unfold IoToken_new, fetch_add1 in Ht. unfold u64_max in Hlt.
    rewrite wrap64_small in Ht by (unfold is_u64; lia). injection Ht as -> ->.
    destruct IH as [Hnd Hle]; [lia|]. rewrite fmap_cons. cbn [fst]. split.
    + constructor; [|done]. intros Hin%Hle. lia.
    + intros t [->|Ht%Hle]%elem_of_cons; lia.
  - by apply IH.
  - destruct IH as [Hnd Hge]; [lia|]. split; [done|]. intros t Ht%Hge. lia.
Qed.

Lemma c_token_fst (cs : list Completion) : c_token <$> cs = cs.*1.*1.
Proof. rewrite <-list_fmap_compose. by apply list_fmap_ext. Qed.

(** A token the backend does not hold, and that is not handed out again, is
    never completed. *)
Lemma run_not_held st subs cs st' t :
  backend_run st subs cs st' → 0 ≤ st.2 → t < st.2 → (t ∉ (held st.1).*1) → t ∉ c_token <$> cs.
Proof.
  intros Hrun Hpos Hlt Hno Hin. apply Hno. rewrite c_token_fst in Hin.
  apply list_elem_of_fmap in Hin as (x & -> & Hx). pose proof (run_held _ _ _ _ Hrun) as Hh.
  assert (x ∈ subs ++ held st.1) as [Hs|Hs]%elem_of_app.
  { eapply elem_of_submseteq; [|exact Hh]. apply elem_of_app. by left. }
  - destruct (run_tokens _ _ _ _ Hrun Hpos) as [_ Hge].
    assert (st.2 ≤ x.1) by by apply Hge, list_elem_of_fmap_2. lia.
  - by apply list_elem_of_fmap_2.
Qed.

(** From a backend that holds nothing, each operation completes at most once,
    under its token. *)
Lemma completes_once st subs cs st' :
  backend_run st subs cs st' → 0 ≤ st.2 → held st.1 = [] →
  NoDup (c_token <$> cs) ∧ (∀ t op r, (t, op, r) ∈ cs → (t, op) ∈ subs) ∧ cs.*1 ++ held st'.1 ⊆+ subs.
Proof.
  intros Hrun Hc Hnil. pose proof (run_held _ _ _ _ Hrun) as Hh. rewrite Hnil, app_nil_r in Hh.
  destruct (run_tokens _ _ _ _ Hrun Hc) as [Hnd _].
  assert (cs.*1 ⊆+ subs) as Hcs by (etrans; [apply submseteq_inserts_r; reflexivity|exact Hh]).
  split_and!; [|intros t op r Hin|exact Hh].
  - rewrite c_token_fst. apply submseteq_Permutation in Hcs as [rest Hcs].
    rewrite Hcs, fmap_app in Hnd. by apply NoDup_app in Hnd as [? _].
  - eapply elem_of_submseteq; [|exact Hcs]. by apply (list_elem_of_fmap_2 fst _ (t, op, r)).
Qed.

End backend_runs.

(** ** A kernel that computes *)

Record DemoKernel := mkDemoKernel {
  demo_open : gset Z;
  demo_sockets : gset Z;
  demo_watched : gmap Z Z
}.

Definition if_open {A} (fd : Z) (k : DemoKernel) (a : A) : result A io_error * DemoKernel :=
  (if decide (fd ∈ demo_open k) then Ok a else Err EBADF, k).

(** Everything that is watched is ready. *)
#[export] Instance demo_kernel : Kernel DemoKernel := {
  sys_register fd token _ k :=
    if decide (fd ∈ demo_open k) then
      match demo_watched k !! fd with
      | Some _ => (Err (OsError 17), k)
      | None => (Ok tt, mkDemoKernel (demo_open k) (demo_sockets k) (<[fd := token]> (demo_watched k)))
      end
    else (Err EBADF, k);
  sys_deregister fd k := (Ok tt, mkDemoKernel (demo_open k) (demo_sockets k) (delete fd (demo_watched k)));
  sys_poll k := (Ok (map_to_list (demo_watched k)).*2, k);
  sys_accept fd k := (Err (OsError 11), k);
  sys_lseek fd _ k :=
    if decide (fd ∈ demo_open k) then
      (if decide (fd ∈ demo_sockets k) then Err ESPIPE else Ok tt, k)
    else (Err EBADF, k);
  sys_read fd _ k := if_open fd k [];
  sys_write fd bytes k := if_open fd k (length bytes);
  sys_recvfrom _ _ k := (Err (OsError 11), k);
  sys_sendto fd bytes _ k := if_open fd k (length bytes);
  sys_fsync fd k := if_open fd k tt;
  sys_fstat fd k := if_open fd k tt;
  sys_close fd k :=
    ((if_open fd k tt).1,
     mkDemoKernel (demo_open k ∖ {[ fd ]}) (demo_sockets k) (delete fd (demo_watched k)));
  open_fds := demo_open;
  watched k := dom (demo_watched k);
  is_socket fd k := bool_decide (fd ∈ demo_open k ∧ fd ∈ demo_sockets k)
}.

#[export] Instance demo_kernel_laws : KernelLaws DemoKernel.
Proof.
  split; cbn; unfold if_open; try done.
  - intros fd k Hfd. by rewrite decide_False.
  - intros fd k Hfd. by rewrite decide_False.
  - intros fd offset k Hfd. by rewrite decide_False.
  - intros fd offset k. by case_decide.
  - intros fd offset k [Ho Hs]%bool_decide_eq_true. by rewrite !decide_True.
  - intros fd token interest k Hor. case_decide as Ho; [|by eexists].
    destruct Hor as [?|[x Hx]%elem_of_dom]; [done|]. rewrite Hx. by eexists.
Qed.
