(* ===== verification/Epoll.v ===== *)
(** * The epoll backend (src/io/epoll.rs)

    The selector of [mio] and the system calls are the class [Kernel] of [Mio]. A
    [File] or [UdpSocket] made with [from_raw_fd] owns the descriptor and closes
    it when it is dropped, and so does the model. The thread pool is the list of
    jobs that were handed to it; a job that runs is a step of its own
    ([run_job]), taken to be atomic, since the code does not synchronise it with
    the thread of the backend.

    The file does not compile as it stands. Where that leaves its meaning open
    the model takes an argument: the [WriteFile] arm uses a name, [len_copy],
    that it does not bind. [buf.as_mut()] is read as the mutable slice. *)

From S2P Require Import Prelude Buffer Io Sockaddr Mio.

Section epoll.
Context {K : Type} `{Kernel K}.

(** [len_copy] of the [WriteFile] arm. *)
Variable len_copy : Op → nat.

(** [HashMap::keys]: the keys in the order the map is walked. *)
Variable keys : gmap Z (IoToken * Op) → list Z.

Record EpollBackend := mkEpollBackend {
  poll : K;
  pending_ops : gmap Z (IoToken * Op);
  udp_recv_buffers : gmap Z Buffer;
  next_token : Z;
  thread_pool : list (IoToken * Op);
  completed_ops : list Completion;
  (** the buffer pool of the backend's thread *)
  cpu_buffer_pool : Pool
}.

Definition epoll_new (made : result K io_error) (pool : Pool) : result EpollBackend io_error :=
  result_map (λ k, mkEpollBackend k ∅ ∅ 0 [] [] pool) made.

Definition set_poll (k : K) (e : EpollBackend) : EpollBackend :=
  mkEpollBackend k (pending_ops e) (udp_recv_buffers e) (next_token e) (thread_pool e)
    (completed_ops e) (cpu_buffer_pool e).

Definition set_pending (p : gmap Z (IoToken * Op)) (e : EpollBackend) : EpollBackend :=
  mkEpollBackend (poll e) p (udp_recv_buffers e) (next_token e) (thread_pool e)
    (completed_ops e) (cpu_buffer_pool e).

Definition set_udp (u : gmap Z Buffer) (e : EpollBackend) : EpollBackend :=
  mkEpollBackend (poll e) (pending_ops e) u (next_token e) (thread_pool e)
    (completed_ops e) (cpu_buffer_pool e).

Definition set_next (n : Z) (e : EpollBackend) : EpollBackend :=
  mkEpollBackend (poll e) (pending_ops e) (udp_recv_buffers e) n (thread_pool e)
    (completed_ops e) (cpu_buffer_pool e).

Definition set_jobs (js : list (IoToken * Op)) (cs : list Completion) (e : EpollBackend) : EpollBackend :=
  mkEpollBackend (poll e) (pending_ops e) (udp_recv_buffers e) (next_token e) js cs (cpu_buffer_pool e).

Definition set_buffers (pool : Pool) (e : EpollBackend) : EpollBackend :=
  mkEpollBackend (poll e) (pending_ops e) (udp_recv_buffers e) (next_token e) (thread_pool e)
    (completed_ops e) pool.

Definition pend (mio_token : Z) (io_token : IoToken) (op : Op) (e : EpollBackend) : EpollBackend :=
  set_pending (<[mio_token := (io_token, op)]> (pending_ops e)) e.

(** ** [submit] *)

(** [Accept], [Read] and [Write]: an operation whose registration fails is
    reported on stderr and dropped. *)
Definition submit_ready (op : Op) (interest : Interest) (mio_token : Z) (io_token : IoToken)
    (e : EpollBackend) : EpollBackend :=
  let '(r, k) := sys_register (op_fd op) mio_token interest (poll e) in
  match r with
  | Err _ => set_poll k e
  | Ok _ => pend mio_token io_token op (set_poll k e)
  end.

(** [UdpRecv] and [UdpSend] are kept either way. *)
Definition submit_udp (op : Op) (interest : Interest) (mio_token : Z) (io_token : IoToken)
    (e : EpollBackend) : EpollBackend :=
  let '(_, k) := sys_register (op_fd op) mio_token interest (poll e) in
  let e := set_poll k e in
  let e := match op with
           | OpUdpRecv _ buffer => set_udp (<[mio_token := buffer]> (udp_recv_buffers e)) e
           | _ => e
           end in
  pend mio_token io_token op e.

(** The closure of [ReadFile] and of [WriteFile]: seek, and then write a fresh
    buffer of [len] bytes; the [SafeFdFile] is dropped at the end. A thread of
    the pool gives no buffer back to its own buffer pool, which stays empty. *)
Definition file_job (fd offset : Z) (len : nat) (k : K) : IoResult * K :=
  let '(sought, k) := sys_lseek fd offset k in
  match sought with
  | Err err => (Err (Io err), drop_file fd k)
  | Ok _ =>
      let '(buf, _) := get len [] in
      let '(r, k) := sys_write fd (visible buf) k in
      (match r with
       | Ok bytes_written => Ok (CWriteFile bytes_written)
       | Err err => Err (Io err)
       end, drop_file fd k)
  end.

Definition job_body (op : Op) (k : K) : option (IoResult * K) :=
  match op with
  | OpReadFile fd offset len => Some (file_job fd offset len k)
  | OpWriteFile fd offset _ => Some (file_job fd offset (len_copy op) k)
  | _ => None
  end.

(** A thread of the pool runs job number [i] and pushes its result. *)
Definition run_job (i : nat) (e : EpollBackend) : EpollBackend :=
  match thread_pool e !! i with
  | None => e
  | Some (io_token, op) =>
      match job_body op (poll e) with
      | None => e
      | Some (r, k) =>
          set_jobs (delete i (thread_pool e)) (completed_ops e ++ [(io_token, op, r)]) (set_poll k e)
      end
  end.

Definition epoll_submit (op : Op) (counter : Z) (e : EpollBackend) : IoToken * Z * EpollBackend :=
  let '(io_token, counter) := IoToken_new counter in
  let mio_token := next_token e in
  let e := set_next (wrap64 (next_token e + 1)) e in
  (io_token, counter,
   match op with
   | OpAccept _ | OpRead _ _ _ => submit_ready op READABLE mio_token io_token e
   | OpWrite _ _ _ => submit_ready op WRITABLE mio_token io_token e
   | OpReadFile _ _ _ | OpWriteFile _ _ _ =>
       set_jobs (thread_pool e ++ [(io_token, op)]) (completed_ops e) e
   | OpUdpRecv _ _ => submit_udp op READABLE mio_token io_token e
   | OpUdpSend _ _ _ => submit_udp op WRITABLE mio_token io_token e
   | OpFsync fd =>
       let '(_, k) := sys_fstat fd (poll e) in
       pend mio_token io_token op (set_poll (drop_file fd k) e)
   | OpClose fd =>
       let '(_, k) := sys_close fd (poll e) in
       pend mio_token io_token op (set_poll k e)
   end).

(** ** [poll_complete] *)

Definition event_accept (fd : Z) (e : EpollBackend) : IoResult * EpollBackend :=
  let '(r, k) := syscall_accept fd (poll e) in
  (match r with
   | Ok (new_fd, addr) => Ok (CAccept new_fd (Some addr))
   | Err err => Err (Io err)
   end, set_poll k e).

(** [Read] and [ReadFile] *)
Definition event_read (mk : nat → Buffer → CompletionKind) (fd offset : Z) (len : nat)
    (e : EpollBackend) : IoResult * EpollBackend :=
  let '(sought, k) := sys_lseek fd offset (poll e) in
  match sought with
  | Err err => (Err (Io err), set_poll (drop_file fd k) e)
  | Ok _ =>
      let '(buf, pool) := get len (cpu_buffer_pool e) in
      let '(r, k) := sys_read fd (buffer_len buf) k in
      (match r with
       | Ok bytes => Ok (mk (length bytes) (set_len (length bytes) (vec_write bytes buf)))
       | Err err => Err (Io err)
       end, set_buffers pool (set_poll (drop_file fd k) e))
  end.

(** [Write] and [WriteFile] *)
Definition event_write (mk : nat → CompletionKind) (fd offset : Z) (data : Buffer)
    (e : EpollBackend) : IoResult * EpollBackend :=
  let '(sought, k) := sys_lseek fd offset (poll e) in
  match sought with
  | Err err => (Err (Io err), set_poll (drop_file fd k) e)
  | Ok _ =>
      let '(r, k) := sys_write fd (visible data) k in
      (match r with
       | Ok bytes_written => Ok (mk bytes_written)
       | Err err => Err (Io err)
       end, set_poll (drop_file fd k) e)
  end.

(** None where the code continues with the next event. The socket is dropped
    on every path that made it. *)
Definition event_udp_recv (op : Op) (fd mio_token : Z) (io_token : IoToken) (e : EpollBackend)
    : option IoResult * EpollBackend :=
  match udp_recv_buffers e !! mio_token with
  | None => (Some (Err (Other "UDP receive buffer not found for event")), e)
  | Some buffer =>
      let e := set_udp (delete mio_token (udp_recv_buffers e)) e in
      let '(r, k) := sys_recvfrom fd (buffer_len buffer) (poll e) in
      match r with
      | Ok (bytes, addr) =>
          let buffer := set_len (length bytes) (vec_write bytes buffer) in
          (Some (Ok (CUdpRecv (length bytes) buffer addr)), set_poll (drop_file fd k) e)
      | Err err =>
          if is_would_block err then
            let '(_, k) := sys_register fd mio_token READABLE k in
            let e := set_udp (<[mio_token := buffer]> (udp_recv_buffers e)) e in
            (None, set_poll (drop_file fd k) (pend mio_token io_token op e))
          else (Some (Err (Io err)), set_poll (drop_file fd k) e)
      end
  end.

Definition event_udp_send (fd : Z) (data : Buffer) (addr : SocketAddr) (e : EpollBackend)
    : IoResult * EpollBackend :=
  let '(r, k) := sys_sendto fd (visible data) addr (poll e) in
  (match r with
   | Ok bytes_written => Ok (CUdpSend bytes_written data)
   | Err err => Err (Io err)
   end, set_poll (drop_file fd k) e).

Definition some_result (x : IoResult * EpollBackend) : option IoResult * EpollBackend :=
  (Some x.1, x.2).

Definition event_op (op : Op) (mio_token : Z) (io_token : IoToken) (e : EpollBackend)
    : option IoResult * EpollBackend :=
  match op with
  | OpAccept fd => some_result (event_accept fd e)
  | OpRead fd offset len => some_result (event_read CRead fd offset len e)
  | OpWrite fd offset data => some_result (event_write CWrite fd offset data e)
  | OpReadFile fd offset len => some_result (event_read CReadFile fd offset len e)
  | OpWriteFile fd offset data => some_result (event_write CWriteFile fd offset data e)
  | OpUdpRecv fd _ => event_udp_recv op fd mio_token io_token e
  | OpUdpSend fd data addr => some_result (event_udp_send fd data addr e)
  | OpFsync _ | OpClose _ => (None, e)
  end.

(** One turn of the loop over the events. *)
Definition handle_event (mio_token : Z) (e : EpollBackend) : list Completion * EpollBackend :=
  match pending_ops e !! mio_token with
  | None => ([], e)
  | Some (io_token, op) =>
      let e := set_pending (delete mio_token (pending_ops e)) e in
      let '(_, k) := sys_deregister (op_fd op) (poll e) in
      let '(r, e) := event_op op mio_token io_token (set_poll k e) in
      (match r with Some r => [(io_token, op, r)] | None => [] end, e)
  end.

(** One turn of the loop over the operations that need no event. *)
Definition handle_sync (mio_token : Z) (e : EpollBackend) : list Completion * EpollBackend :=
  match pending_ops e !! mio_token with
  | Some (io_token, OpFsync fd) =>
      let '(r, k) := sys_fsync fd (poll e) in
      ([(io_token, OpFsync fd, match r with Ok _ => Ok CFsync | Err err => Err (Io err) end)],
       set_pending (delete mio_token (pending_ops e)) (set_poll (drop_file fd k) e))
  | Some (io_token, OpClose fd) =>
      let '(r, k) := sys_close fd (poll e) in
      ([(io_token, OpClose fd, match r with Ok _ => Ok CClose | Err err => Err (Io err) end)],
       set_pending (delete mio_token (pending_ops e)) (set_poll k e))
  | _ => ([], e)
  end.

(** A loop that collects completions. *)
Fixpoint collect (turn : Z → EpollBackend → list Completion * EpollBackend) (tokens : list Z)
    (e : EpollBackend) : list Completion * EpollBackend :=
  match tokens with
  | [] => ([], e)
  | mio_token :: tokens =>
      let '(cs, e) := turn mio_token e in
      let '(cs', e) := collect turn tokens e in
      (cs ++ cs', e)
  end.

Definition epoll_poll_complete (e : EpollBackend) : Poll (list Completion) * EpollBackend :=
  let completions := completed_ops e in
  let e := set_jobs (thread_pool e) [] e in
  let '(events, k) := sys_poll (poll e) in
  let e := set_poll k e in
  match events with
  | Err _ => (Ready completions, e)
  | Ok events =>
      let '(cs1, e) := collect handle_event events e in
      let '(cs2, e) := collect handle_sync (keys (pending_ops e)) e in
      (match completions ++ cs1 ++ cs2 with [] => Pending | cs => Ready cs end, e)
  end.

End epoll.
Arguments EpollBackend K : clear implicits.
