(* ===== verification/EpollProps.v ===== *)
(** * Properties of the epoll backend

    What the backend holds are the operations that wait for an event, the jobs
    of the thread pool and the results not yet returned. Runs interleave
    submissions, jobs, polls and what other threads and the kernel do. *)

From S2P Require Import Prelude Interfaces Waker Task Buffer Io Executor Runtime AsyncIo Net Fs Sockaddr Mio Epoll.

Section epoll_facts.
Context {K : Type} `{Kernel K}.
Variable len_copy : Op → nat.
Variable keys : gmap Z (IoToken * Op) → list Z.
Implicit Types (e : EpollBackend K) (k : K).

(** The operations the backend holds, with their tokens. *)
Definition held e : list (IoToken * Op) :=
  (map_to_list (pending_ops e)).*2 ++ thread_pool e ++ (completed_ops e).*1.

Lemma pend_held mio_token t op e : held (pend mio_token t op e) ⊆+ (t, op) :: held e.
Proof.
  unfold held. cbn [pend set_pending pending_ops thread_pool completed_ops].
  rewrite app_comm_cons. apply submseteq_app; [apply pending_insert|done].
Qed.

Lemma take_pending_held mio_token t op e :
  pending_ops e !! mio_token = Some (t, op) →
  held e ≡ₚ (t, op) :: held (set_pending (delete mio_token (pending_ops e)) e).
Proof.
  intros Hp. unfold held. cbn [set_pending pending_ops thread_pool completed_ops].
  by rewrite (pending_delete _ _ _ Hp).
Qed.

Lemma event_op_held op mio_token t e :
  let '(r, e') := event_op op mio_token t e in
  (match r with Some _ => [(t, op)] | None => [] end) ++ held e' ⊆+ (t, op) :: held e.
Proof.
  destruct op; cbn; unfold some_result, event_accept, event_read, event_write, event_udp_recv, event_udp_send;
    repeat case_match; simplify_eq; cbn;
    first [done | by apply submseteq_skip | exact (pend_held mio_token t _ e) | by apply submseteq_cons].
Qed.

(** A turn of either loop, and so the loop, completes operations it held and
    holds at most the others afterwards. *)
Definition keeps (turn : Z → EpollBackend K → list Completion * EpollBackend K) : Prop :=
  ∀ mio_token e, let '(cs, e') := turn mio_token e in cs.*1 ++ held e' ⊆+ held e.

Lemma handle_event_keeps : keeps handle_event.
Proof.
  intros mio_token e. unfold handle_event.
  destruct (pending_ops e !! mio_token) as [[t op]|] eqn:Hp; [|done].
  pose proof (take_pending_held _ _ _ _ Hp) as Ht.
  set (e1 := set_pending _ e). destruct (sys_deregister (op_fd op) (poll e1)) as [r0 k].
  pose proof (event_op_held op mio_token t (set_poll k e1)) as Hh.
  destruct (event_op op mio_token t (set_poll k e1)) as [[r|] e2]; by rewrite Ht.
Qed.

Lemma handle_sync_keeps : keeps handle_sync.
Proof.
  intros mio_token e. unfold handle_sync.
  destruct (pending_ops e !! mio_token) as [[t op]|] eqn:Hp; [|done].
  pose proof (take_pending_held _ _ _ _ Hp) as Hh.
  destruct op; try done.
  - destruct (sys_fsync fd (poll e)) as [r k]. rewrite Hh. by apply submseteq_skip.
  - destruct (sys_close fd (poll e)) as [r k]. rewrite Hh. by apply submseteq_skip.
Qed.

Lemma collect_keeps turn tokens e :
  keeps turn → let '(cs, e') := collect turn tokens e in cs.*1 ++ held e' ⊆+ held e.
Proof.
  intros Ht. revert e. induction tokens as [|x tokens IH]; intros e; cbn [collect]; [reflexivity|].
  specialize (Ht x e). destruct (turn x e) as [cs e1]. specialize (IH e1).
  destruct (collect turn tokens e1) as [cs' e2].
  rewrite fmap_app, <-app_assoc. by rewrite IH.
Qed.

Lemma poll_held e :
  let '(p, e') := epoll_poll_complete keys e in (reported p).*1 ++ held e' ⊆+ held e.
Proof.
  unfold epoll_poll_complete. set (e0 := set_jobs (thread_pool e) [] e).
  assert (held e ≡ₚ (completed_ops e).*1 ++ held e0) as Hh.
  { unfold held, e0. cbn. rewrite app_nil_r, (Permutation_app_comm (_ <$> completed_ops e)).
    by rewrite <-app_assoc. }
  destruct (sys_poll (poll e0)) as [[events|err] k]; [|by rewrite Hh].
  pose proof (collect_keeps handle_event events (set_poll k e0) handle_event_keeps) as H1.
  destruct (collect handle_event events (set_poll k e0)) as [cs1 e1].
  pose proof (collect_keeps handle_sync (keys (pending_ops e1)) e1 handle_sync_keeps) as H2.
  destruct (collect handle_sync (keys (pending_ops e1)) e1) as [cs2 e2].
  rewrite reported_all, !fmap_app, Hh, <-!app_assoc. apply submseteq_app; [done|]. by rewrite H2.
Qed.

Lemma job_held i e : held (run_job len_copy i e) ⊆+ held e.
Proof.
  unfold run_job. destruct (thread_pool e !! i) as [[t op]|] eqn:Hi; [|done].
  destruct (job_body len_copy op (poll e)) as [[r k]|]; [|done].
  unfold held. cbn. rewrite fmap_app. cbn.
  assert (thread_pool e ≡ₚ (t, op) :: delete i (thread_pool e)) as Hd by by apply delete_Permutation.
  rewrite Hd at 2. apply submseteq_app; [done|]. apply Permutation_submseteq.
  rewrite (Permutation_app_comm (_ <$> completed_ops e)). symmetry. apply Permutation_middle.
Qed.

Lemma submit_held op counter e :
  let '(t, counter', e') := epoll_submit op counter e in
  (t, counter') = IoToken_new counter ∧ held e' ⊆+ (t, op) :: held e.
Proof.
  unfold epoll_submit. destruct (IoToken_new counter) as [t counter'].
  set (e1 := set_next _ e). split; [done|]. change (held e) with (held e1).
  destruct op; unfold submit_ready, submit_udp; repeat case_match; simplify_eq;
    first [exact (pend_held _ t _ e1) | by apply submseteq_cons | idtac].
  all: unfold held; cbn; apply Permutation_submseteq.
  all: rewrite <-app_assoc; cbn [app]; by rewrite <-!Permutation_middle.
Qed.

(** ** Runs *)

(** What happens besides submissions and polls: a job runs, the kernel moves. *)
Inductive epoll_internal : EpollBackend K → EpollBackend K → Prop :=
  | a_job i e : epoll_internal e (run_job len_copy i e)
  | a_change k e : epoll_internal e (set_poll k e).

Definition epoll_run := backend_run epoll_submit (epoll_poll_complete keys) epoll_internal.

Lemma epoll_holds : holds held epoll_submit (epoll_poll_complete keys) epoll_internal.
Proof. split; [apply submit_held|apply poll_held|]. intros e e' [i e0|k e0]; [apply job_held|done]. Qed.

End epoll_facts.

(** ** Descriptors *)

Section epoll_descriptors.
Context {K : Type} `{KernelLaws K}.
Implicit Types (e : EpollBackend K) (k : K).

(** The operations that are queued only if their registration works. *)
Definition is_ready_op (op : Op) : bool :=
  match op with OpAccept _ | OpRead _ _ _ | OpWrite _ _ _ => true | _ => false end.

Lemma submit_refused op counter e t counter' e' :
  is_ready_op op = true → (op_fd op ∉ open_fds (poll e)) ∨ op_fd op ∈ watched (poll e) →
  epoll_submit op counter e = (t, counter', e') → held e' = held e.
Proof.
  intros Hop Hfd. unfold epoll_submit. destruct (IoToken_new counter) as [t0 c0].
  assert (∀ interest mt e1, poll e1 = poll e → submit_ready op interest mt t0 e1 =
    set_poll (sys_register (op_fd op) mt interest (poll e)).2 e1) as Hr.
  { intros interest mt e1 He. unfold submit_ready. rewrite He.
    destruct (register_refused (op_fd op) mt interest (poll e) Hfd) as [err Herr].
    destruct (sys_register (op_fd op) mt interest (poll e)) as [[]]; [done|]. done. }
  destruct op; try done; rewrite Hr by done; by intros [= <- <- <-].
Qed.

(** Operations that need no event only close descriptors. *)
Lemma handle_sync_open mt e : open_fds (poll (handle_sync mt e).2) ⊆ open_fds (poll e).
Proof.
  unfold handle_sync. destruct (pending_ops e !! mt) as [[t op]|]; [|done]. destruct op; try done.
  - pose proof (fsync_open fd (poll e)) as Ho. destruct (sys_fsync fd (poll e)) as [r k]. cbn in *.
    unfold drop_file. rewrite close_open, Ho. by apply subseteq_difference_l.
  - pose proof (close_open fd (poll e)) as Ho. destruct (sys_close fd (poll e)) as [r k]. cbn in *.
    rewrite Ho. by apply subseteq_difference_l.
Qed.

Lemma sync_sweep_open tokens e :
  open_fds (poll (collect handle_sync tokens e).2) ⊆ open_fds (poll e).
Proof.
  revert e. induction tokens as [|x tokens IH]; intros e; [done|]. cbn [collect].
  pose proof (handle_sync_open x e) as Hx. destruct (handle_sync x e) as [cs e1].
  specialize (IH e1). destruct (collect handle_sync tokens e1) as [cs' e2]. cbn in *. by etrans.
Qed.

(** The operations done without an event. *)
Definition is_sync_op (op : Op) : bool :=
  match op with OpFsync _ | OpClose _ => true | _ => false end.

Lemma handle_sync_closed mt t op e :
  is_sync_op op = true → pending_ops e !! mt = Some (t, op) → (op_fd op ∉ open_fds (poll e)) →
  (handle_sync mt e).1 = [(t, op, Err (Io EBADF))].
Proof.
  intros Hop Hp Hfd. unfold handle_sync. rewrite Hp. destruct op; try done; cbn in Hfd.
  - pose proof (fsync_closed fd (poll e) Hfd) as Hr. destruct (sys_fsync fd (poll e)) as [r k].
    cbn in Hr. by subst r.
  - pose proof (close_closed fd (poll e) Hfd) as Hr. destruct (sys_close fd (poll e)) as [r k].
    cbn in Hr. by subst r.
Qed.

Lemma handle_sync_other mt mt' e :
  mt ≠ mt' → pending_ops (handle_sync mt e).2 !! mt' = pending_ops e !! mt'.
Proof.
  intros Hne. unfold handle_sync. repeat case_match; simplify_eq; cbn; try done;
    by rewrite lookup_delete_ne.
Qed.

Lemma sync_sweep_closed tokens mt t op e :
  is_sync_op op = true → mt ∈ tokens → pending_ops e !! mt = Some (t, op) →
  (op_fd op ∉ open_fds (poll e)) → (t, op, Err (Io EBADF)) ∈ (collect handle_sync tokens e).1.
Proof.
  intros Hop. revert e. induction tokens as [|x tokens IH]; intros e Hin Hp Hfd; [by apply elem_of_nil in Hin|].
  cbn [collect]. destruct (decide (x = mt)) as [->|Hne].
  - pose proof (handle_sync_closed mt t op e Hop Hp Hfd) as Hc.
    destruct (handle_sync mt e) as [cs e1]. destruct (collect handle_sync tokens e1) as [cs' e2].
    cbn in *. subst cs. left.
  - pose proof (handle_sync_other x mt e Hne) as Ho. pose proof (handle_sync_open x e) as Hs.
    destruct (handle_sync x e) as [cs e1]. cbn in Ho, Hs. rewrite <-Ho in Hp.
    apply elem_of_cons in Hin as [->|Hin]; [done|].
    assert (op_fd op ∉ open_fds (poll e1)) as Hfd1 by (intros Hx; by apply Hfd, Hs).
    specialize (IH e1 Hin Hp Hfd1).
    destruct (collect handle_sync tokens e1) as [cs' e2]. cbn in *. apply elem_of_app. by right.
Qed.

(** [Read] and [Write] on a socket: seeking fails, and the file is dropped. *)
Definition is_stream_op (op : Op) : bool :=
  match op with OpRead _ _ _ | OpWrite _ _ _ => true | _ => false end.

Lemma event_socket op mt t e :
  is_stream_op op = true → is_socket (op_fd op) (poll e) = true →
  let '(r, e') := event_op op mt t e in
  r = Some (Err (Io ESPIPE)) ∧ (op_fd op ∉ open_fds (poll e')).
Proof.
  intros Hop Hs.
  destruct op; try done; cbn in *; unfold event_read, event_write;
    pose proof (lseek_socket fd offset (poll e) Hs) as Hl;
    destruct (sys_lseek fd offset (poll e)) as [r k]; cbn in Hl; subst r;
    (split; [done|]); cbn; unfold drop_file; rewrite close_open;
    intros [_ Hin]%elem_of_difference; by apply Hin, elem_of_singleton.
Qed.

Lemma handle_event_socket op mt t e :
  is_stream_op op = true → pending_ops e !! mt = Some (t, op) → is_socket (op_fd op) (poll e) = true →
  let '(cs, e') := handle_event mt e in
  cs = [(t, op, Err (Io ESPIPE))] ∧ (op_fd op ∉ open_fds (poll e')).
Proof.
  intros Hop Hp Hs. unfold handle_event. rewrite Hp. cbn [set_pending poll].
  pose proof (deregister_socket (op_fd op) (op_fd op) (poll e)) as Hd.
  destruct (sys_deregister (op_fd op) (poll e)) as [r0 k]. cbn in Hd.
  pose proof (event_socket op mt t (set_poll k (set_pending (delete mt (pending_ops e)) e)) Hop) as He.
  destruct (event_op op mt t _) as [r e1]. cbn in He. rewrite Hd in He.
  destruct (He Hs) as [-> Hfd]. done.
Qed.

(** [submit] closes the descriptor of an operation that needs no event. *)
Lemma submit_sync_closes op counter e t counter' e' :
  is_sync_op op = true → epoll_submit op counter e = (t, counter', e') →
  pending_ops e' !! next_token e = Some (t, op) ∧ (op_fd op ∉ open_fds (poll e')).
Proof.
  intros Hop. unfold epoll_submit. destruct (IoToken_new counter) as [t0 c0].
  destruct op; try done; cbn [poll set_next next_token].
  - destruct (sys_fstat fd (poll e)) as [r k]. intros [= <- <- <-]. cbn. split; [apply lookup_insert_eq|].
    unfold drop_file. rewrite close_open. intros [_ Hin]%elem_of_difference.
    by apply Hin, elem_of_singleton.
  - pose proof (close_open fd (poll e)) as Ho. destruct (sys_close fd (poll e)) as [r k]. cbn in Ho.
    intros [= <- <- <-]. cbn. split; [apply lookup_insert_eq|]. rewrite Ho.
    intros [_ Hin]%elem_of_difference. by apply Hin, elem_of_singleton.
Qed.

End epoll_descriptors.

(** ** Claims *)


(** An accept, read or write submitted to the epoll backend for a
    descriptor that is closed, or that an operation under way is already
    watching, is dropped although [submit] returns a token: no run completes
    it, whatever is submitted and polled afterwards. *)
Theorem epoll_refused_operation_hangs {K} `{KernelLaws K} len_copy keys (e : EpollBackend K)
    op counter t counter' e' subs cs st :
  is_ready_op op = true → (op_fd op ∉ open_fds (poll e)) ∨ op_fd op ∈ watched (poll e) →
  0 ≤ counter < u64_max → (∀ t, t ∈ (held e).*1 → t < counter) →
  epoll_submit op counter e = (t, counter', e') →
  epoll_run len_copy keys (e', counter') subs cs st → t ∉ c_token <$> cs.
Proof.
  intros Hop Hfd Hc Hbel Hs Hrun. pose proof (submit_held op counter e) as Hh. rewrite Hs in Hh.
  destruct Hh as [Ht _]. unfold IoToken_new, fetch_add1, u64_max in *.
  rewrite wrap64_small in Ht by (unfold is_u64; lia). injection Ht as -> ->.
  eapply (run_not_held _ _ _ _ (epoll_holds len_copy keys)); [exact Hrun|cbn; lia..|]. cbn [fst].
  rewrite (submit_refused _ _ _ _ _ _ Hop Hfd Hs). intros Hin%Hbel. lia.
Qed.

(** Reading or writing a socket with the epoll backend: when the event
    arrives, the operation completes with ESPIPE, because the code seeks first,
    and the descriptor is closed, because the code makes a [File] of it. *)
Theorem epoll_socket_operation_fails {K} `{KernelLaws K} keys (e : EpollBackend K) mt t op k :
  is_stream_op op = true → pending_ops e !! mt = Some (t, op) → is_socket (op_fd op) (poll e) = true →
  sys_poll (poll e) = (Ok [mt], k) →
  let '(p, e') := epoll_poll_complete keys e in
  (t, op, Err (Io ESPIPE)) ∈ reported p ∧ (op_fd op ∉ open_fds (poll e')).
Proof.
  intros Hop Hp Hs Hpoll. unfold epoll_poll_complete. cbn [poll set_jobs]. rewrite Hpoll.
  cbn [collect]. set (e0 := set_poll k _).
  pose proof (poll_socket (op_fd op) (poll e)) as Hps. rewrite Hpoll in Hps. cbn in Hps.
  pose proof (handle_event_socket op mt t e0 Hop Hp ltac:(cbn; by rewrite Hps)) as He.
  destruct (handle_event mt e0) as [cs e1]. destruct He as [-> Hfd].
  pose proof (sync_sweep_open (keys (pending_ops e1)) e1) as Hsw.
  destruct (collect handle_sync (keys (pending_ops e1)) e1) as [cs2 e2]. cbn in Hsw.
  split; [|intros Hin; by apply Hfd, Hsw].
  rewrite reported_all. apply elem_of_app. right. left.
Qed.

(** [Fsync] and [Close] with the epoll backend report EBADF: [submit]
    itself closes the descriptor, and the next poll syncs or closes it again. *)
Theorem epoll_sync_operation_fails {K} `{KernelLaws K} keys (e : EpollBackend K) op counter t counter' e' k :
  (∀ m x, x ∈ dom m → x ∈ keys m) →
  is_sync_op op = true → epoll_submit op counter e = (t, counter', e') →
  sys_poll (poll e') = (Ok [], k) →
  (t, op, Err (Io EBADF)) ∈ reported (epoll_poll_complete keys e').1.
Proof.
  intros Hkeys Hop Hs Hpoll. destruct (submit_sync_closes _ _ _ _ _ _ Hop Hs) as [Hp Hfd].
  unfold epoll_poll_complete. cbn [poll set_jobs]. rewrite Hpoll. cbn [collect].
  set (e0 := set_poll k _).
  pose proof (poll_open (poll e')) as Ho. rewrite Hpoll in Ho. cbn in Ho.
  pose proof (sync_sweep_closed (keys (pending_ops e0)) (next_token e) t op e0 Hop) as Hin.
  destruct (collect handle_sync (keys (pending_ops e0)) e0) as [cs2 e2]. cbn [fst] in Hin |- *.
  rewrite reported_all. apply elem_of_app. right.
  apply Hin; [apply Hkeys; by apply elem_of_dom_2 in Hp|done|]. cbn. by rewrite Ho.
Qed.

(** The job of a [ReadFile] writes zeros over the part of the file it was to
    read, and its completion is not one [AsyncFile::read_at] accepts. *)
Lemma read_file_overwrites {K} `{Kernel K} len_copy (e : EpollBackend K) i t fd offset len k1 n k2 {B} (b : B) :
  thread_pool e !! i = Some (t, OpReadFile fd offset len) →
  sys_lseek fd offset (poll e) = (Ok tt, k1) →
  sys_write fd (replicate len (Some 0)) k1 = (Ok n, k2) →
  completed_ops (run_job len_copy i e) =
    completed_ops e ++ [(t, OpReadFile fd offset len, Ok (CWriteFile n))] ∧
  poll (run_job len_copy i e) = drop_file fd k2 ∧
  read_at_finish (Ok (CWriteFile n)) b = (Ret (Err unexpected_kind), b).
Proof.
  intros Hi Hl Hw.
  assert ((get len []).1 = vec_zeroed len) as Hg by (unfold get; by case_decide).
  assert (file_job fd offset len (poll e) = (Ok (CWriteFile n), drop_file fd k2)) as Hj.
  { unfold file_job. rewrite Hl. destruct (get len []) as [buf pool]. cbn in Hg. subst buf.
    by rewrite vec_zeroed_visible, Hw. }
  unfold run_job. rewrite Hi. cbn [job_body]. by rewrite Hj.
Qed.

(** ** Witnesses *)

Definition demo_keys (m : gmap Z (IoToken * Op)) : list Z := (map_to_list m).*1.

(** Descriptor 7 is a socket, 8 a file. *)
Definition demo_epoll : EpollBackend DemoKernel :=
  mkEpollBackend (mkDemoKernel {[ 7; 8 ]} {[ 7 ]} ∅) ∅ ∅ 0 [] [] [].

Definition demo_read : Op := OpRead 7 0 16.
Definition demo_submitted : EpollBackend DemoKernel := (epoll_submit demo_read 1 demo_epoll).2.
Definition demo_file_read : Op := OpReadFile 8 0 4.

(** A file is read, and then a socket. *)
Definition demo_job_done : EpollBackend DemoKernel :=
  run_job (λ _, 0%nat) 0 (epoll_submit demo_file_read 1 demo_epoll).2.
Definition demo_both : EpollBackend DemoKernel := (epoll_submit demo_read 2 demo_job_done).2.

Lemma demo_run :
  epoll_run (λ _, 0%nat) demo_keys (demo_epoll, 1) [(1, demo_file_read); (2, demo_read)]
    ([(1, demo_file_read, Ok (CWriteFile 4)); (2, demo_read, Err (Io ESPIPE))] ++ [])
    ((epoll_poll_complete demo_keys demo_both).2, 3).
Proof.
  eapply (run_submit _ _ _ _ _ _ _ 2 (epoll_submit demo_file_read 1 demo_epoll).2); [done|by vm_compute|].
  eapply run_internal; [apply (a_job _ 0)|reflexivity|].
  eapply (run_submit _ _ _ _ _ _ _ 3 demo_both); [done|by vm_compute|].
  apply (run_poll _ _ _ _ _ (Ready [(1, demo_file_read, Ok (CWriteFile 4)); (2, demo_read, Err (Io ESPIPE))])
    (epoll_poll_complete demo_keys demo_both).2); [by vm_compute|].
  apply run_nil.
Qed.


(** A write to a socket a read is waiting on. *)
Definition demo_write : Op := OpWrite 7 0 (vec_zeroed 1).

Definition demo_refused : EpollBackend DemoKernel := (epoll_submit demo_write 2 demo_submitted).2.

Lemma demo_refused_run :
  epoll_run (λ _, 0%nat) demo_keys (demo_refused, 3) [] ([(1, demo_read, Err (Io ESPIPE))] ++ [])
    ((epoll_poll_complete demo_keys demo_refused).2, 3).
Proof.
  apply (run_poll _ _ _ _ _ (Ready [(1, demo_read, Err (Io ESPIPE))])
    (epoll_poll_complete demo_keys demo_refused).2); [by vm_compute|].
  apply run_nil.
Qed.

Lemma epoll_refused_operation_hangs_witness :
  2 ∉ c_token <$> [(1, demo_read, Err (Io ESPIPE))] ++ [].
Proof.
  apply (epoll_refused_operation_hangs (λ _, 0%nat) demo_keys demo_submitted demo_write 2 2 3 demo_refused
    [] _ ((epoll_poll_complete demo_keys demo_refused).2, 3)).
  - reflexivity.
  - right. apply (bool_decide_unpack _). vm_compute. reflexivity.
  - vm_compute. split; congruence.
  - intros t. assert ((held demo_submitted).*1 = [1]) as -> by (vm_compute; reflexivity).
    intros ->%list_elem_of_singleton. lia.
  - vm_compute. reflexivity.
  - exact demo_refused_run.
Defined.

Lemma epoll_socket_operation_fails_witness :
  let '(p, e') := epoll_poll_complete demo_keys demo_submitted in
  (1, demo_read, Err (Io ESPIPE)) ∈ reported p ∧ (7 ∉ open_fds (poll e')).
Proof.
  apply (epoll_socket_operation_fails demo_keys demo_submitted 0 1 demo_read (poll demo_submitted)).
  - reflexivity.
  - vm_compute. reflexivity.
  - vm_compute. reflexivity.
  - vm_compute. reflexivity.
Defined.

Lemma epoll_sync_operation_fails_witness :
  let e' := (epoll_submit (OpFsync 8) 1 demo_epoll).2 in
  (1, OpFsync 8, Err (Io EBADF)) ∈ reported (epoll_poll_complete demo_keys e').1.
Proof.
  intros e'. apply (epoll_sync_operation_fails demo_keys demo_epoll (OpFsync 8) 1 1 2 e' (poll e')).
  - intros m x. unfold demo_keys. intros [y Hy]%elem_of_dom.
    apply (list_elem_of_fmap_2 fst _ (x, y)). by apply elem_of_map_to_list.
  - reflexivity.
  - reflexivity.
  - vm_compute. reflexivity.
Defined.
