(* ===== verification/Kqueue.v ===== *)
(** * The kqueue backend (src/io/kqueue.rs)

    Like the epoll backend it registers descriptors with a selector, but it has
    no thread pool: file operations are done when they are submitted, their
    results dropped, and done again when the backend is polled. A [File] or
    [UdpSocket] made with [from_raw_fd] closes the descriptor when it is dropped.

    The file does not type-check; it is read as follows. Of two arms for the
    same operation the first one counts. A vector where a [Buffer] is expected
    is the buffer with those bytes, [&mut buf] its slice. A reference where a
    value is expected is the value, so [data.recycle()] gives a copy of the
    data's buffer to the pool and the operation keeps its own. In [submit],
    [udp_recv_buffers] is the field of that name, and registering a standard
    [UdpSocket] registers its descriptor. None of this touches which system
    calls are made, or in which order. *)

From S2P Require Import Prelude Buffer Io Sockaddr Mio.

Section kqueue.
Context {K : Type} `{Kernel K}.

(** [HashMap::drain]: the entries in the order the map is walked. *)
Variable drain : gmap Z (IoToken * Op) → list (Z * (IoToken * Op)).

Record KqueueBackend := mkKqueueBackend {
  poll : K;
  pending_ops : gmap Z (IoToken * Op);
  udp_recv_buffers : gmap Z Buffer;
  next_token : Z;
  (** the buffer pool of the backend's thread *)
  cpu_buffer_pool : Pool
}.

Definition kqueue_new (made : result K io_error) (pool : Pool) : result KqueueBackend io_error :=
  result_map (λ k, mkKqueueBackend k ∅ ∅ 0 pool) made.

Definition set_poll (k : K) (q : KqueueBackend) : KqueueBackend :=
  mkKqueueBackend k (pending_ops q) (udp_recv_buffers q) (next_token q) (cpu_buffer_pool q).

Definition set_pending (p : gmap Z (IoToken * Op)) (q : KqueueBackend) : KqueueBackend :=
  mkKqueueBackend (poll q) p (udp_recv_buffers q) (next_token q) (cpu_buffer_pool q).

Definition set_udp (u : gmap Z Buffer) (q : KqueueBackend) : KqueueBackend :=
  mkKqueueBackend (poll q) (pending_ops q) u (next_token q) (cpu_buffer_pool q).

Definition set_next (n : Z) (q : KqueueBackend) : KqueueBackend :=
  mkKqueueBackend (poll q) (pending_ops q) (udp_recv_buffers q) n (cpu_buffer_pool q).

Definition set_buffers (pool : Pool) (q : KqueueBackend) : KqueueBackend :=
  mkKqueueBackend (poll q) (pending_ops q) (udp_recv_buffers q) (next_token q) pool.

Definition pend (mio_token : Z) (io_token : IoToken) (op : Op) (q : KqueueBackend) : KqueueBackend :=
  set_pending (<[mio_token := (io_token, op)]> (pending_ops q)) q.

(** ** File operations, as [submit] and [poll_complete] both do them *)

(** Seek, take a buffer from the pool, read into it; the file is dropped. *)
Definition read_file (fd offset : Z) (len : nat) (q : KqueueBackend) : IoResult * KqueueBackend :=
  let '(sought, k) := sys_lseek fd offset (poll q) in
  match sought with
  | Err err => (Err (Io err), set_poll (drop_file fd k) q)
  | Ok _ =>
      let '(buf, pool) := get len (cpu_buffer_pool q) in
      let '(r, k) := sys_read fd (buffer_len buf) k in
      (match r with
       | Ok bytes => Ok (CReadFile (length bytes) (set_len (length bytes) (vec_write bytes buf)))
       | Err err => Err (Io err)
       end, set_buffers pool (set_poll (drop_file fd k) q))
  end.

(** Seek and write; the file is dropped. *)
Definition write_data (mk : nat → CompletionKind) (fd offset : Z) (data : Buffer) (q : KqueueBackend)
    : IoResult * KqueueBackend :=
  let '(sought, k) := sys_lseek fd offset (poll q) in
  match sought with
  | Err err => (Err (Io err), set_poll (drop_file fd k) q)
  | Ok _ =>
      let '(r, k) := sys_write fd (visible data) k in
      (match r with
       | Ok bytes_written => Ok (mk bytes_written)
       | Err err => Err (Io err)
       end, set_poll (drop_file fd k) q)
  end.

(** The same, and [data.recycle()]. *)
Definition write_file (fd offset : Z) (data : Buffer) (q : KqueueBackend) : IoResult * KqueueBackend :=
  let '(r, q) := write_data CWriteFile fd offset data q in
  (r, set_buffers (recycle data (cpu_buffer_pool q)) q).

Definition fsync_file (fd : Z) (q : KqueueBackend) : IoResult * KqueueBackend :=
  let '(r, k) := sys_fsync fd (poll q) in
  (match r with Ok _ => Ok CFsync | Err err => Err (Io err) end, set_poll (drop_file fd k) q).

Definition close_fd (fd : Z) (q : KqueueBackend) : IoResult * KqueueBackend :=
  let '(r, k) := sys_close fd (poll q) in
  (match r with Ok _ => Ok CClose | Err err => Err (Io err) end, set_poll k q).

(** The four operations that need no event. *)
Definition sync_op (op : Op) (q : KqueueBackend) : option (IoResult * KqueueBackend) :=
  match op with
  | OpReadFile fd offset len => Some (read_file fd offset len q)
  | OpWriteFile fd offset data => Some (write_file fd offset data q)
  | OpFsync fd => Some (fsync_file fd q)
  | OpClose fd => Some (close_fd fd q)
  | _ => None
  end.

(** ** [submit] *)

Definition kq_submit_ready (op : Op) (interest : Interest) (mio_token : Z) (io_token : IoToken)
    (q : KqueueBackend) : KqueueBackend :=
  let '(r, k) := sys_register (op_fd op) mio_token interest (poll q) in
  match r with
  | Err _ => set_poll k q
  | Ok _ => pend mio_token io_token op (set_poll k q)
  end.

(** The socket made for the registration is dropped at the end of the arm. *)
Definition kq_submit_udp (op : Op) (interest : Interest) (mio_token : Z) (io_token : IoToken)
    (q : KqueueBackend) : KqueueBackend :=
  let '(_, k) := sys_register (op_fd op) mio_token interest (poll q) in
  let q := match op with
           | OpUdpRecv _ buffer => set_udp (<[mio_token := buffer]> (udp_recv_buffers q)) q
           | _ => q
           end in
  set_poll (drop_file (op_fd op) k) (pend mio_token io_token op q).

(** The result of the operation is dropped; it stays pending. *)
Definition kq_submit_sync (op : Op) (mio_token : Z) (io_token : IoToken) (q : KqueueBackend)
    : KqueueBackend :=
  match sync_op op q with
  | Some (_, q) => pend mio_token io_token op q
  | None => q
  end.

Definition kqueue_submit (op : Op) (counter : Z) (q : KqueueBackend) : IoToken * Z * KqueueBackend :=
  let '(io_token, counter) := IoToken_new counter in
  let mio_token := next_token q in
  let q := set_next (wrap64 (next_token q + 1)) q in
  (io_token, counter,
   match op with
   | OpAccept _ | OpRead _ _ _ => kq_submit_ready op READABLE mio_token io_token q
   | OpWrite _ _ _ => kq_submit_ready op WRITABLE mio_token io_token q
   | OpUdpRecv _ _ => kq_submit_udp op READABLE mio_token io_token q
   | OpUdpSend _ _ _ => kq_submit_udp op WRITABLE mio_token io_token q
   | OpReadFile _ _ _ | OpWriteFile _ _ _ | OpFsync _ | OpClose _ =>
       kq_submit_sync op mio_token io_token q
   end).

(** ** [poll_complete] *)

Definition kq_event_accept (fd : Z) (q : KqueueBackend) : IoResult * KqueueBackend :=
  let '(r, k) := syscall_accept fd (poll q) in
  (match r with
   | Ok (new_fd, addr) => Ok (CAccept new_fd (Some addr))
   | Err err => Err (Io err)
   end, set_poll k q).

(** The first [Read] arm: a fresh vector, truncated to what was read. *)
Definition kq_event_read (fd offset : Z) (len : nat) (q : KqueueBackend) : IoResult * KqueueBackend :=
  let '(sought, k) := sys_lseek fd offset (poll q) in
  match sought with
  | Err err => (Err (Io err), set_poll (drop_file fd k) q)
  | Ok _ =>
      let buf := vec_zeroed len in
      let '(r, k) := sys_read fd (buffer_len buf) k in
      (match r with
       | Ok bytes => Ok (CRead (length bytes) (set_len (length bytes) (vec_write bytes buf)))
       | Err err => Err (Io err)
       end, set_poll (drop_file fd k) q)
  end.

(** None where the code continues with the next event. The socket that was
    received from is dropped on every path, the one that is registered again is
    forgotten. *)
Definition kq_event_udp_recv (op : Op) (fd mio_token : Z) (io_token : IoToken) (q : KqueueBackend)
    : option IoResult * KqueueBackend :=
  match udp_recv_buffers q !! mio_token with
  | None => (Some (Err (Other "UDP receive buffer not found for event")), q)
  | Some buffer =>
      let q := set_udp (delete mio_token (udp_recv_buffers q)) q in
      let '(r, k) := sys_recvfrom fd (buffer_len buffer) (poll q) in
      match r with
      | Ok (bytes, addr) =>
          let buffer := set_len (length bytes) (vec_write bytes buffer) in
          (Some (Ok (CUdpRecv (length bytes) buffer addr)), set_poll (drop_file fd k) q)
      | Err err =>
          if is_would_block err then
            let '(_, k) := sys_register fd mio_token READABLE k in
            let q := set_udp (<[mio_token := buffer]> (udp_recv_buffers q)) q in
            (None, set_poll (drop_file fd k) (pend mio_token io_token op q))
          else (Some (Err (Io err)), set_poll (drop_file fd k) q)
      end
  end.

(** The socket is forgotten, not dropped. *)
Definition kq_event_udp_send (fd : Z) (data : Buffer) (addr : SocketAddr) (q : KqueueBackend)
    : IoResult * KqueueBackend :=
  let '(r, k) := sys_sendto fd (visible data) addr (poll q) in
  (match r with
   | Ok bytes_written => Ok (CUdpSend bytes_written data)
   | Err err => Err (Io err)
   end, set_poll k q).

Definition some_result (x : IoResult * KqueueBackend) : option IoResult * KqueueBackend :=
  (Some x.1, x.2).

Definition kq_event_op (op : Op) (mio_token : Z) (io_token : IoToken) (q : KqueueBackend)
    : option IoResult * KqueueBackend :=
  match op with
  | OpAccept fd => some_result (kq_event_accept fd q)
  | OpRead fd offset len => some_result (kq_event_read fd offset len q)
  | OpWrite fd offset data => some_result (write_data CWrite fd offset data q)
  | OpReadFile fd offset len => some_result (read_file fd offset len q)
  | OpWriteFile fd offset data => some_result (write_file fd offset data q)
  | OpUdpRecv fd _ => kq_event_udp_recv op fd mio_token io_token q
  | OpUdpSend fd data addr => some_result (kq_event_udp_send fd data addr q)
  | OpFsync _ | OpClose _ => (None, q)
  end.

Definition kq_handle_event (mio_token : Z) (q : KqueueBackend) : list Completion * KqueueBackend :=
  match pending_ops q !! mio_token with
  | None => ([], q)
  | Some (io_token, op) =>
      let q := set_pending (delete mio_token (pending_ops q)) q in
      let '(_, k) := sys_deregister (op_fd op) (poll q) in
      let '(r, q) := kq_event_op op mio_token io_token (set_poll k q) in
      (match r with Some r => [(io_token, op, r)] | None => [] end, q)
  end.

Fixpoint kq_events (events : list Z) (q : KqueueBackend) : list Completion * KqueueBackend :=
  match events with
  | [] => ([], q)
  | mio_token :: events =>
      let '(cs, q) := kq_handle_event mio_token q in
      let '(cs', q) := kq_events events q in
      (cs ++ cs', q)
  end.

(** The loop over the drained map: what needs no event is done, the rest is put
    back. *)
Fixpoint kq_sweep (entries : list (Z * (IoToken * Op))) (q : KqueueBackend)
    : list Completion * KqueueBackend :=
  match entries with
  | [] => ([], q)
  | (mio_token, (io_token, op)) :: entries =>
      match sync_op op q with
      | Some (r, q) =>
          let '(cs, q) := kq_sweep entries q in ((io_token, op, r) :: cs, q)
      | None => kq_sweep entries (pend mio_token io_token op q)
      end
  end.

Definition kqueue_poll_complete (q : KqueueBackend) : Poll (list Completion) * KqueueBackend :=
  let '(events, k) := sys_poll (poll q) in
  let q := set_poll k q in
  match events with
  | Err _ => (Ready [], q)
  | Ok events =>
      let '(cs1, q) := kq_events events q in
      let '(cs2, q) := kq_sweep (drain (pending_ops q)) (set_pending ∅ q) in
      (match cs1 ++ cs2 with [] => Pending | cs => Ready cs end, q)
  end.

End kqueue.
Arguments KqueueBackend K : clear implicits.
