(* ===== verification/KqueueProps.v ===== *)
(** * Properties of the kqueue backend *)

From S2P Require Import Prelude Buffer Io Sockaddr Mio Kqueue.

Section kqueue_facts.
Context {K : Type} `{Kernel K}.
Variable drain : gmap Z (IoToken * Op) → list (Z * (IoToken * Op)).
Hypothesis drain_entries : ∀ m, drain m ≡ₚ map_to_list m.
Implicit Types (q : KqueueBackend K) (k : K).

(** The operations the backend holds, with their tokens. *)
Definition kq_held q : list (IoToken * Op) := (map_to_list (pending_ops q)).*2.

Lemma kq_pend_held mt t op q : kq_held (pend mt t op q) ⊆+ (t, op) :: kq_held q.
Proof. apply pending_insert. Qed.

(** The operations themselves leave the map of pending operations alone. *)
Lemma sync_op_pending op q r q' : sync_op op q = Some (r, q') → pending_ops q' = pending_ops q.
Proof.
  unfold sync_op, read_file, write_file, write_data, fsync_file, close_fd.
  intros Hs. by repeat case_match; simplify_eq/=.
Qed.

Lemma kq_event_held op mt t q :
  let '(r, q') := kq_event_op op mt t q in
  (match r with Some _ => [(t, op)] | None => [] end) ++ kq_held q' ⊆+ (t, op) :: kq_held q.
Proof.
  destruct op; cbn;
    unfold some_result, kq_event_accept, kq_event_read, write_data, read_file, write_file, write_data,
      kq_event_udp_recv, kq_event_udp_send;
    repeat case_match; simplify_eq/=;
    first [done | by apply submseteq_skip | exact (kq_pend_held mt t _ q) | by apply submseteq_cons].
Qed.

Lemma kq_events_held events q :
  let '(cs, q') := kq_events events q in cs.*1 ++ kq_held q' ⊆+ kq_held q.
Proof.
  revert q. induction events as [|mt events IH]; intros q; cbn [kq_events]; [reflexivity|].
  assert (let '(cs, q') := kq_handle_event mt q in cs.*1 ++ kq_held q' ⊆+ kq_held q) as Hx.
  { unfold kq_handle_event. destruct (pending_ops q !! mt) as [[t op]|] eqn:Hp; [|done].
    set (q1 := set_pending _ q). destruct (sys_deregister (op_fd op) (poll q1)) as [r0 k].
    pose proof (kq_event_held op mt t (set_poll k q1)) as Hh.
    assert (kq_held q ≡ₚ (t, op) :: kq_held (set_poll k q1)) as Ht by by apply pending_delete.
    destruct (kq_event_op op mt t (set_poll k q1)) as [[r|] q2]; by rewrite Ht. }
  destruct (kq_handle_event mt q) as [cs q1]. specialize (IH q1).
  destruct (kq_events events q1) as [cs' q2]. rewrite fmap_app, <-app_assoc. by rewrite IH.
Qed.

Lemma kq_sweep_held entries q :
  let '(cs, q') := kq_sweep entries q in cs.*1 ++ kq_held q' ⊆+ entries.*2 ++ kq_held q.
Proof.
  revert q. induction entries as [|[mt [t op]] entries IH]; intros q; cbn [kq_sweep]; [done|].
  destruct (sync_op op q) as [[r q1]|] eqn:Hs.
  - specialize (IH q1). destruct (kq_sweep entries q1) as [cs q2].
    assert (kq_held q1 = kq_held q) as Hq by (unfold kq_held; by rewrite (sync_op_pending _ _ _ _ Hs)).
    rewrite Hq in IH. cbn. by apply submseteq_skip.
  - specialize (IH (pend mt t op q)). destruct (kq_sweep entries (pend mt t op q)) as [cs q2].
    rewrite IH, kq_pend_held. apply Permutation_submseteq. cbn. symmetry. apply Permutation_middle.
Qed.

Lemma kq_poll_held q :
  let '(p, q') := kqueue_poll_complete drain q in (reported p).*1 ++ kq_held q' ⊆+ kq_held q.
Proof.
  unfold kqueue_poll_complete. destruct (sys_poll (poll q)) as [[events|err] k]; [|done].
  pose proof (kq_events_held events (set_poll k q)) as H1.
  destruct (kq_events events (set_poll k q)) as [cs1 q1].
  pose proof (kq_sweep_held (drain (pending_ops q1)) (set_pending ∅ q1)) as H2.
  destruct (kq_sweep (drain (pending_ops q1)) (set_pending ∅ q1)) as [cs2 q2].
  rewrite reported_all, fmap_app, <-app_assoc. etrans; [|exact H1]. apply submseteq_app; [done|].
  rewrite H2, drain_entries. cbn. by rewrite app_nil_r.
Qed.

Lemma kq_submit_held op counter q :
  let '(t, counter', q') := kqueue_submit op counter q in
  (t, counter') = IoToken_new counter ∧ kq_held q' ⊆+ (t, op) :: kq_held q.
Proof.
  unfold kqueue_submit. destruct (IoToken_new counter) as [t counter'].
  set (q1 := set_next _ q). split; [done|]. change (kq_held q) with (kq_held q1).
  assert (∀ mt, kq_held (kq_submit_sync op mt t q1) ⊆+ (t, op) :: kq_held q1) as Hsync.
  { intros mt. unfold kq_submit_sync. destruct (sync_op op q1) as [[r q2]|] eqn:Hs; [|by apply submseteq_cons].
    rewrite kq_pend_held. unfold kq_held. by rewrite (sync_op_pending _ _ _ _ Hs). }
  destruct op; try apply Hsync; unfold kq_submit_ready, kq_submit_udp; repeat case_match; simplify_eq;
    first [exact (kq_pend_held _ t _ q1) | by apply submseteq_cons].
Qed.

(** Between submissions and polls the kernel changes. *)
Inductive kq_internal : KqueueBackend K → KqueueBackend K → Prop :=
  | kq_change k q : kq_internal q (set_poll k q).

Definition kqueue_run := backend_run kqueue_submit (kqueue_poll_complete drain) kq_internal.

Lemma kqueue_holds : holds kq_held kqueue_submit (kqueue_poll_complete drain) kq_internal.
Proof. split; [apply kq_submit_held|apply kq_poll_held|]. by intros q q' [k q0]. Qed.

End kqueue_facts.

(** ** Descriptors *)

Section kqueue_descriptors.
Context {K : Type} `{KernelLaws K}.
Implicit Types (q : KqueueBackend K) (k : K).

Lemma drop_file_closed fd k : fd ∉ open_fds (drop_file fd k).
Proof.
  unfold drop_file. rewrite close_open. intros [_ Hin]%elem_of_difference. by apply Hin, elem_of_singleton.
Qed.

Lemma drop_file_open fd k : open_fds (drop_file fd k) ⊆ open_fds k.
Proof. unfold drop_file. rewrite close_open. by apply subseteq_difference_l. Qed.

(** An operation that needs no event closes its descriptor, and opens none. *)
Lemma sync_op_closes op q r q' :
  sync_op op q = Some (r, q') →
  (op_fd op ∉ open_fds (poll q')) ∧ open_fds (poll q') ⊆ open_fds (poll q).
Proof.
  unfold sync_op, read_file, write_file, write_data, fsync_file, close_fd. destruct op; try done; cbn [op_fd].
  - pose proof (fsync_open fd (poll q)) as Ho. destruct (sys_fsync fd (poll q)) as [r0 k]. intros [= <- <-].
    cbn in *. split; [apply drop_file_closed|]. by rewrite drop_file_open, Ho.
  - pose proof (drop_file_closed fd (poll q)) as Hc. pose proof (drop_file_open fd (poll q)) as Ho.
    unfold drop_file in *. by destruct (sys_close fd (poll q)) as [r0 k]; intros [= <- <-].
  - pose proof (lseek_open fd offset (poll q)) as Ho.
    destruct (sys_lseek fd offset (poll q)) as [[u|err] k]; cbn in Ho.
    + destruct (get len (cpu_buffer_pool q)) as [buf pool].
      pose proof (read_open fd (buffer_len buf) k) as Hr. destruct (sys_read fd (buffer_len buf) k) as [r0 k2].
      intros [= <- <-]. cbn in *. split; [apply drop_file_closed|]. by rewrite drop_file_open, Hr, Ho.
    + intros [= <- <-]. cbn. split; [apply drop_file_closed|]. by rewrite drop_file_open, Ho.
  - pose proof (lseek_open fd offset (poll q)) as Ho.
    destruct (sys_lseek fd offset (poll q)) as [[u|err] k]; cbn in Ho.
    + pose proof (write_open fd (visible data) k) as Hr. destruct (sys_write fd (visible data) k) as [r0 k2].
      intros [= <- <-]. cbn in *. split; [apply drop_file_closed|]. by rewrite drop_file_open, Hr, Ho.
    + intros [= <- <-]. cbn. split; [apply drop_file_closed|]. by rewrite drop_file_open, Ho.
Qed.

(** On a closed descriptor it fails. *)
Lemma sync_op_ebadf op q r q' :
  sync_op op q = Some (r, q') → (op_fd op ∉ open_fds (poll q)) → r = Err (Io EBADF).
Proof.
  unfold sync_op, read_file, write_file, write_data, fsync_file, close_fd.
  destruct op; try done; cbn [op_fd]; intros Hs Hfd.
  - pose proof (fsync_closed fd (poll q) Hfd). by destruct (sys_fsync fd (poll q)); simplify_eq/=.
  - pose proof (close_closed fd (poll q) Hfd). by destruct (sys_close fd (poll q)); simplify_eq/=.
  - pose proof (lseek_closed fd offset (poll q) Hfd). by destruct (sys_lseek fd offset (poll q)); simplify_eq/=.
  - pose proof (lseek_closed fd offset (poll q) Hfd). by destruct (sys_lseek fd offset (poll q)); simplify_eq/=.
Qed.

(** The operations that need no event. *)
Definition is_sync_op (op : Op) : bool :=
  match op with OpReadFile _ _ _ | OpWriteFile _ _ _ | OpFsync _ | OpClose _ => true | _ => false end.

Lemma is_sync_op_Some op q : is_sync_op op = true → ∃ r q', sync_op op q = Some (r, q').
Proof.
  destruct op; try done; intros _; cbn;
    match goal with |- ∃ _ _, Some ?x = _ => destruct x eqn:E; rewrite ?E; by eexists _, _ end.
Qed.

Lemma kq_sweep_closed entries mt t op q :
  is_sync_op op = true → (mt, (t, op)) ∈ entries → (op_fd op ∉ open_fds (poll q)) →
  (t, op, Err (Io EBADF)) ∈ (kq_sweep entries q).1.
Proof.
  intros Hop. revert q. induction entries as [|[mt' [t' op']] entries IH]; intros q Hin Hfd;
    [by apply elem_of_nil in Hin|]. cbn [kq_sweep].
  destruct (sync_op op' q) as [[r q1]|] eqn:Hs.
  - destruct (sync_op_closes _ _ _ _ Hs) as [_ Hsub]. specialize (IH q1).
    destruct (kq_sweep entries q1) as [cs q2]. apply elem_of_cons in Hin as [[= <- <- <-]|Hin].
    + rewrite (sync_op_ebadf _ _ _ _ Hs Hfd). left.
    + right. apply IH; [done|]. intros Hx. by apply Hfd, Hsub.
  - apply IH; [|done]. apply elem_of_cons in Hin as [[= <- <- <-]|Hin]; [|done].
    destruct (is_sync_op_Some op q Hop) as (r & q' & Hx). congruence.
Qed.

End kqueue_descriptors.

(** ** Claims *)

(** The kqueue backend completes an operation at most once, under the token
    [submit] handed out for it; what it completed and what it still holds are,
    together, operations that were submitted. *)
Theorem kqueue_completes_once {K} `{Kernel K} drain k pool (q0 : KqueueBackend K) counter subs cs st :
  (∀ m, drain m ≡ₚ map_to_list m) →
  kqueue_new (Ok k) pool = Ok q0 → 0 ≤ counter → kqueue_run drain (q0, counter) subs cs st →
  NoDup (c_token <$> cs) ∧ (∀ t op r, (t, op, r) ∈ cs → (t, op) ∈ subs) ∧
  cs.*1 ++ kq_held st.1 ⊆+ subs.
Proof.
  intros Hd [= <-] Hc Hrun.
  exact (completes_once _ _ _ _ (kqueue_holds drain Hd) _ _ _ _ Hrun Hc eq_refl).
Qed.

(** Every operation on files, [Close] included, fails with the kqueue
    backend: [submit] does it, drops its result and closes the descriptor, and
    the next poll does it again on the closed descriptor and reports EBADF. *)
Theorem kqueue_file_operation_fails {K} `{KernelLaws K} drain (q : KqueueBackend K) op counter t counter' q' k :
  (∀ m, drain m ≡ₚ map_to_list m) →
  is_sync_op op = true → kqueue_submit op counter q = (t, counter', q') →
  sys_poll (poll q') = (Ok [], k) →
  (∃ r q1, sync_op op (set_next (wrap64 (next_token q + 1)) q) = Some (r, q1) ∧ poll q' = poll q1) ∧
  (t, op, Err (Io EBADF)) ∈ reported (kqueue_poll_complete drain q').1.
Proof.
  intros Hd Hop Hs Hpoll. unfold kqueue_submit in Hs. destruct (IoToken_new counter) as [t0 c0].
  destruct (is_sync_op_Some op (set_next (wrap64 (next_token q + 1)) q) Hop) as (r & q1 & Hop1).
  assert (q' = pend (next_token q) t op q1) as ->.
  { unfold kq_submit_sync in Hs. rewrite Hop1 in Hs. destruct op; try done; congruence. }
  destruct (sync_op_closes _ _ _ _ Hop1) as [Hfd _]. split; [by eexists _, _|].
  unfold kqueue_poll_complete. cbn [poll set_poll pend set_pending] in Hpoll |- *. rewrite Hpoll.
  cbn [kq_events]. set (q2 := set_poll k _).
  pose proof (poll_open (poll q1)) as Ho. rewrite Hpoll in Ho. cbn in Ho.
  pose proof (kq_sweep_closed (drain (pending_ops q2)) (next_token q) t op (set_pending ∅ q2) Hop) as Hin.
  destruct (kq_sweep (drain (pending_ops q2)) (set_pending ∅ q2)) as [cs2 q3]. cbn [fst] in Hin |- *.
  rewrite reported_all. apply Hin; [|cbn; by rewrite Ho].
  rewrite Hd. apply elem_of_map_to_list. apply lookup_insert_eq.
Qed.

(** Submitting a datagram operation closes the socket. *)
Lemma kqueue_udp_closes {K} `{KernelLaws K} (q : KqueueBackend K) op counter t counter' q' :
  (∃ fd buffer, op = OpUdpRecv fd buffer) ∨ (∃ fd data addr, op = OpUdpSend fd data addr) →
  kqueue_submit op counter q = (t, counter', q') → op_fd op ∉ open_fds (poll q').
Proof.
  intros Hop Hs. unfold kqueue_submit, kq_submit_udp in Hs.
  destruct (IoToken_new counter) as [t0 c0].
  destruct Hop as [(fd & buffer & ->)|(fd & data & addr & ->)]; cbn [op_fd] in *;
    destruct (sys_register _ _ _ _) as [r k]; injection Hs as <- <- <-; apply drop_file_closed.
Qed.

(** ** Witnesses *)

(** Descriptor 7 is a socket, 8 a file. *)
Definition demo_kqueue : KqueueBackend DemoKernel :=
  mkKqueueBackend (mkDemoKernel {[ 7; 8 ]} {[ 7 ]} ∅) ∅ ∅ 0 [].

Definition demo_write_file : Op := OpWriteFile 8 0 (from_slice [1; 2]).
Definition demo_recv : Op := OpRead 7 0 16.
Definition demo_q1 : KqueueBackend DemoKernel := (kqueue_submit demo_write_file 1 demo_kqueue).2.
Definition demo_q2 : KqueueBackend DemoKernel := (kqueue_submit demo_recv 2 demo_q1).2.

Lemma demo_kqueue_run :
  kqueue_run map_to_list (demo_kqueue, 1) [(1, demo_write_file); (2, demo_recv)]
    ([(2, demo_recv, Err (Io ESPIPE)); (1, demo_write_file, Err (Io EBADF))] ++ [])
    ((kqueue_poll_complete map_to_list demo_q2).2, 3).
Proof.
  eapply (run_submit _ _ _ _ _ _ _ 2 demo_q1); [done|by vm_compute|].
  eapply (run_submit _ _ _ _ _ _ _ 3 demo_q2); [done|by vm_compute|].
  apply (run_poll _ _ _ _ _ (Ready [(2, demo_recv, Err (Io ESPIPE)); (1, demo_write_file, Err (Io EBADF))])
    (kqueue_poll_complete map_to_list demo_q2).2); [by vm_compute|].
  apply run_nil.
Qed.

Lemma kqueue_completes_once_witness :
  NoDup (c_token <$> [(2, demo_recv, Err (Io ESPIPE)); (1, demo_write_file, Err (Io EBADF))] ++ []).
Proof.
  destruct (kqueue_completes_once map_to_list (poll demo_kqueue) [] demo_kqueue 1 _ _ _
    ltac:(done) eq_refl ltac:(lia) demo_kqueue_run) as [Hnd _]. exact Hnd.
Defined.

Lemma kqueue_file_operation_fails_witness :
  (1, demo_write_file, Err (Io EBADF)) ∈ reported (kqueue_poll_complete map_to_list demo_q1).1.
Proof.
  destruct (kqueue_file_operation_fails map_to_list demo_kqueue demo_write_file 1 1 2 demo_q1 (poll demo_q1))
    as [_ Hin].
  - reflexivity.
  - reflexivity.
  - vm_compute. reflexivity.
  - vm_compute. reflexivity.
  - exact Hin.
Defined.
