(* ===== verification/Cancellation.v ===== *)
(** * Cooperative cancellation (src/cancellation.rs)

    A [CancellationToken] is a shared flag: tokens are references into a store
    of flags, and a clone is the same reference. [CancellableFuture] looks at
    its token's flag each time it is polled, and the future inside may itself
    act on the store. *)

From S2P Require Import Prelude Interfaces Waker Task.

Definition CancellationToken : Type := positive.

(** The [AtomicBool]s behind the live tokens. *)
Abbreviation Flags := (gmap CancellationToken bool).

Definition CancellationToken_new (fl : Flags) : CancellationToken * Flags :=
  let t : CancellationToken := fresh (dom fl) in (t, <[t := false]> fl).

Definition CancellationToken_cancel (t : CancellationToken) (fl : Flags) : Flags :=
  <[t := true]> fl.

Definition is_cancelled (t : CancellationToken) (fl : Flags) : bool := default false (fl !! t).

Record CancellableFuture (F : Type) := mkCancellable {
  inner : F;
  token : CancellationToken
}.
Arguments mkCancellable {F} _ _.
Arguments inner {F} _.
Arguments token {F} _.

Definition cancellable {F} (f : F) (t : CancellationToken) : CancellableFuture F :=
  mkCancellable f t.

Section cancellation.
Context {F W T P : Type}.
Variable inner_poll : F → Flags * W → Poll T * F * (Flags * W).

Definition CancellableFuture_poll (f : CancellableFuture F) (w : Flags * W)
    : Poll (TaskResult T P) * CancellableFuture F * (Flags * W) :=
  if is_cancelled (token f) w.1 then (Ready (Err Cancelled), f, w)
  else
    let '(p, g, w) := inner_poll (inner f) w in
    (match p with Ready v => Ready (Ok v) | Pending => Pending end,
     mkCancellable g (token f), w).

(** The task is polled once after each of a list of changes made by the rest of
    the program, until it is ready; the last component counts the polls of the
    future inside. *)
Fixpoint drive (others : list (Flags * W → Flags * W)) (f : CancellableFuture F) (w : Flags * W)
    : Poll (TaskResult T P) * nat :=
  match others with
  | [] => (Pending, 0%nat)
  | other :: others =>
      let w := other w in
      let n := if is_cancelled (token f) w.1 then 0%nat else 1%nat in
      match CancellableFuture_poll f w with
      | (Ready r, _, _) => (Ready r, n)
      | (Pending, f, w) => let '(r, k) := drive others f w in (r, (n + k)%nat)
      end
  end.

(** Once the token is cancelled, in whatever turn that happens, the task is
    finished at its next poll if it was not already: at most one poll of the
    future inside per turn before, none after. *)
Lemma cancelled_within t before other after f w :
  token f = t →
  (∀ v, is_cancelled t (other v).1 = true) →
  ∃ r k, drive (before ++ other :: after) f w = (Ready r, k) ∧ (k ≤ length before)%nat ∧
    (r = Err Cancelled ∨ ∃ v, r = Ok v).
Proof.
  intros Ht Hother. revert f w Ht. induction before as [|o before IH]; intros f w Ht.
  { cbn. unfold CancellableFuture_poll. rewrite Ht, Hother.
    exists (Err Cancelled), 0%nat. auto. }
  cbn [app drive length].
  unfold CancellableFuture_poll. rewrite Ht. destruct (is_cancelled t (o w).1) eqn:Ec.
  { exists (Err Cancelled), 0%nat. split_and!; [done|lia|auto]. }
  destruct (inner_poll (inner f) (o w)) as [[[v|] g] w']; cbn.
  { exists (Ok v), 1%nat. split_and!; [done|lia|eauto]. }
  destruct (IH (mkCancellable g t) w' eq_refl) as (r & k & -> & Hk & Hr).
  exists r, (S k). split_and!; [done|lia|done].
Qed.

End cancellation.

(** Creating tokens does not touch the flags of the others; cancelling a token
    cancels every clone of it and no other token. *)
Lemma token_ops t t' fl :
  (∀ b, fl !! t = Some b →
    is_cancelled t (CancellationToken_new fl).2 = is_cancelled t fl ∧
    t ≠ (CancellationToken_new fl).1) ∧
  is_cancelled t' (CancellationToken_cancel t fl) = (bool_decide (t' = t) || is_cancelled t' fl).
Proof.
  unfold is_cancelled, CancellationToken_new, CancellationToken_cancel. split.
  - intros b Hb. assert (t ≠ fresh (dom fl)) as Hn.
    { intros ->. apply (is_fresh (dom fl)). apply elem_of_dom. eauto. }
    cbn [fst snd]. by rewrite lookup_insert_ne by congruence.
  - case_bool_decide as E; cbn; [by rewrite E, lookup_insert_eq|by rewrite lookup_insert_ne by congruence].
Qed.
