(* ===== verification/Signal.v ===== *)
(** * Shutdown on signals (src/signal.rs)

    [start] runs a thread that handles one signal at a time. [signal_hook]
    delivers to it only the three signals it registered. [on_signal] is the
    body of its loop, on the shared shutdown flag and the inboxes of the CPUs;
    [send] on a full inbox blocks the thread there. *)

From S2P Require Import Prelude Interfaces Waker Task Cpu.

Definition SIGHUP : Z := 1.
Definition SIGINT : Z := 2.
Definition SIGTERM : Z := 15.

Section signal.
Context {MC G CB : Type} `{Channel MC (CrossCpuMessage G)}.

Record SignalHandler := mkSignalHandler {
  shutdown_flag : bool;
  cpu_handles : option (list MC);
  callbacks : gmap Z (list CB)
}.

Definition SignalHandler_new (flag : bool) : SignalHandler := mkSignalHandler flag None ∅.

(** Each handle's sender is cloned. *)
Definition with_cpu_handles (flag : bool) (handles : list MC) : SignalHandler :=
  mkSignalHandler flag (Some (ch_clone_sender <$> handles)) ∅.

Definition register_callback (signal : Z) (callback : CB) (h : SignalHandler) : SignalHandler :=
  mkSignalHandler (shutdown_flag h) (cpu_handles h)
    (<[signal := default [] (callbacks h !! signal) ++ [callback]]> (callbacks h)).

(** What the thread does next: wait for another signal, stay blocked in a
    [send], end the process, or die of [unreachable!]. *)
Inductive SignalOutcome := Waiting | Blocked | ExitProcess (code : Z) | Unreachable.

(** The loop over the handles; [false] when a [send] blocks. *)
Fixpoint broadcast (handles : list MC) : list MC * bool :=
  match handles with
  | [] => ([], true)
  | mc :: rest =>
      match handle_send Shutdown mc with
      | Some (_, mc) => let '(rest, ok) := broadcast rest in (mc :: rest, ok)
      | None => (mc :: rest, false)
      end
  end.

Definition on_signal (signal : Z) (h : SignalHandler) : SignalHandler * SignalOutcome :=
  if (signal =? SIGINT) || (signal =? SIGTERM) || (signal =? SIGHUP) then
    if shutdown_flag h then (h, ExitProcess 1)
    else
      match cpu_handles h with
      | Some handles =>
          let '(handles, ok) := broadcast handles in
          (mkSignalHandler true (Some handles) (callbacks h), if ok then Waiting else Blocked)
      | None => (mkSignalHandler true None (callbacks h), Waiting)
      end
  else (h, Unreachable).

Context `{!ChannelLaws MC (CrossCpuMessage G)}.

(** The inbox has room or its CPU is gone. *)
Definition can_send (mc : MC) : Prop :=
  ch_receiver mc = false ∨ (length (ch_elems mc) < ch_cap mc)%nat.

(** What the broadcast does to one inbox. *)
Definition told (mc mc' : MC) : Prop :=
  ch_receiver mc' = ch_receiver mc ∧
  ch_elems mc' = ch_elems mc ++ (if ch_receiver mc then [Shutdown] else []).

Lemma broadcast_all handles :
  Forall can_send handles → Forall (λ mc, ch_receiver mc = false → ch_elems mc = []) handles →
  ∃ handles', broadcast handles = (handles', true) ∧ Forall2 told handles handles'.
Proof.
  induction 1 as [|mc handles Hc Hs IH]; intros Hd; [by exists []|].
  apply Forall_cons_1 in Hd as [Hd Hds]. destruct (IH Hds) as (handles' & Hb & Ht).
  cbn. unfold handle_send. pose proof (ch_send_spec Shutdown mc) as Hspec.
  destruct (ch_send Shutdown mc) as [mc'| |]; cbn; rewrite ?Hb.
  - destruct Hspec as (Hr & _ & He & _ & _ & Hr'). exists (mc' :: handles'). split; [done|].
    constructor; [|done]. unfold told. by rewrite Hr, He, Hr'.
  - exists (mc :: handles'). split; [done|]. constructor; [|done].
    unfold told. rewrite Hspec, Hd by done. done.
  - destruct Hspec as [Hr Hl]. destruct Hc as [Hc|Hc]; [congruence|lia].
Qed.

(** The first of the three signals sets the shutdown flag and appends one
    [Shutdown] message to the inbox of every CPU that is still there, behind
    what the inbox holds, provided no inbox is full; any second signal ends the
    process with status 1 and sends nothing. *)
Theorem signals_shut_down flag handles callbacks0 s1 s2 :
  flag = false → s1 ∈ [SIGINT; SIGTERM; SIGHUP] → s2 ∈ [SIGINT; SIGTERM; SIGHUP] →
  Forall can_send handles → Forall (λ mc, ch_receiver mc = false → ch_elems mc = []) handles →
  ∃ handles',
    let h' := mkSignalHandler true (Some handles') callbacks0 in
    on_signal s1 (mkSignalHandler flag (Some handles) callbacks0) = (h', Waiting) ∧
    Forall2 told handles handles' ∧
    on_signal s2 h' = (h', ExitProcess 1).
Proof.
  intros -> H1 H2 Hc Hd. destruct (broadcast_all handles Hc Hd) as (handles' & Hb & Ht).
  assert (∀ s, s ∈ [SIGINT; SIGTERM; SIGHUP] →
    (s =? SIGINT) || (s =? SIGTERM) || (s =? SIGHUP) = true) as Hsig.
  { intros s. rewrite !elem_of_cons, elem_of_nil. intros [-> | [-> | [-> | []]]]; done. }
  exists handles'. cbn. unfold on_signal. rewrite !Hsig by done. cbn. by rewrite Hb.
Qed.

End signal.
Arguments SignalHandler MC CB : clear implicits.

Lemma signals_shut_down_witness :
  let handles := [mkListChannel [Ping 3] 5 1 true; mkListChannel [] 5 1 false]
    : list (list_channel (CrossCpuMessage nat)) in
  ∃ handles',
    let h' := mkSignalHandler true (Some handles') (∅ : gmap Z (list nat)) in
    on_signal SIGTERM (mkSignalHandler false (Some handles) ∅) = (h', Waiting) ∧
    Forall2 told handles handles' ∧
    on_signal SIGINT h' = (h', ExitProcess 1).
Proof.
  intros handles. apply (signals_shut_down false handles ∅ SIGTERM SIGINT).
  - reflexivity.
  - apply (bool_decide_unpack _). reflexivity.
  - apply (bool_decide_unpack _). reflexivity.
  - constructor; [right; simpl; lia|]. constructor; [by left|constructor].
  - repeat constructor; discriminate.
Defined.
