(* ===== verification/Str.v ===== *)
(** * Rust strings: what src/http.rs and build.rs use of [str]

    A [str] is the list of its Unicode scalar values; its bytes are their UTF-8
    encoding ([utf8_encode], [String::into_bytes]) and [from_utf8] is
    [str::from_utf8], which refuses overlong forms, surrogates and values past
    U+10FFFF. [lines], [split], [split_whitespace], [trim], [find], [join],
    the decimal [to_string] and [parse] of unsigned integers follow the
    standard library's documentation. Upper- and lower-casing depend on the
    Unicode tables of the standard library in use: they are the operations of
    the class [CaseMapping], which agree with the ASCII ones on ASCII text. *)

From S2P Require Import Prelude.

Abbreviation rstr := (list Z) (only parsing).

(** A string literal of the source. *)
Definition lit (s : string) : rstr :=
  (λ a, Z.of_N (Stdlib.Strings.Ascii.N_of_ascii a)) <$> String.list_ascii_of_string s.

(** ** UTF-8 *)

Definition is_scalar (c : Z) : bool :=
  ((0 <=? c) && (c <? 0xD800)) || ((0xE000 <=? c) && (c <? 0x110000)).

Definition utf8_encode_char (c : Z) : list Z :=
  if c <? 0x80 then [c]
  else if c <? 0x800 then [0xC0 + c / 0x40; 0x80 + c mod 0x40]
  else if c <? 0x10000 then
    [0xE0 + c / 0x1000; 0x80 + (c / 0x40) mod 0x40; 0x80 + c mod 0x40]
  else
    [0xF0 + c / 0x40000; 0x80 + (c / 0x1000) mod 0x40; 0x80 + (c / 0x40) mod 0x40;
     0x80 + c mod 0x40].

Definition utf8_encode (s : rstr) : list Z := mjoin (utf8_encode_char <$> s).

Definition is_cont (b : Z) : bool := (0x80 <=? b) && (b <? 0xC0).

Fixpoint from_utf8 (bs : list Z) : option rstr :=
  match bs with
  | [] => Some []
  | b0 :: r0 =>
      if (0 <=? b0) && (b0 <? 0x80) then cons b0 <$> from_utf8 r0
      else match r0 with
      | [] => None
      | b1 :: r1 =>
          if (0xC2 <=? b0) && (b0 <? 0xE0) then
            if is_cont b1
            then cons ((b0 - 0xC0) * 0x40 + (b1 - 0x80)) <$> from_utf8 r1
            else None
          else match r1 with
          | [] => None
          | b2 :: r2 =>
              if (0xE0 <=? b0) && (b0 <? 0xF0) then
                let c := (b0 - 0xE0) * 0x1000 + (b1 - 0x80) * 0x40 + (b2 - 0x80) in
                if is_cont b1 && is_cont b2 && (0x800 <=? c) && is_scalar c
                then cons c <$> from_utf8 r2
                else None
              else match r2 with
              | [] => None
              | b3 :: r3 =>
                  let c := (b0 - 0xF0) * 0x40000 + (b1 - 0x80) * 0x1000 +
                           (b2 - 0x80) * 0x40 + (b3 - 0x80) in
                  if (0xF0 <=? b0) && (b0 <? 0xF5) && is_cont b1 && is_cont b2 && is_cont b3 &&
                     (0x10000 <=? c) && is_scalar c
                  then cons c <$> from_utf8 r3
                  else None
              end
          end
      end
  end.

(** ** Case mapping *)

Definition is_ascii (c : Z) : bool := (0 <=? c) && (c <? 0x80).
Definition ascii_upper (c : Z) : Z := if (97 <=? c) && (c <=? 122) then c - 32 else c.
Definition ascii_lower (c : Z) : Z := if (65 <=? c) && (c <=? 90) then c + 32 else c.

Class CaseMapping := {
  to_uppercase : rstr → rstr;
  to_lowercase : rstr → rstr
}.

Class CaseMappingLaws `{CaseMapping} : Prop := {
  to_uppercase_ascii s : forallb is_ascii s = true → to_uppercase s = ascii_upper <$> s;
  to_lowercase_ascii s : forallb is_ascii s = true → to_lowercase s = ascii_lower <$> s
}.

(** ** Splitting and trimming *)

(** [char::is_whitespace]: the Unicode property White_Space. *)
Definition is_whitespace (c : Z) : bool :=
  ((9 <=? c) && (c <=? 13)) || (c =? 0x20) || (c =? 0x85) || (c =? 0xA0) || (c =? 0x1680) ||
  ((0x2000 <=? c) && (c <=? 0x200A)) || (c =? 0x2028) || (c =? 0x2029) || (c =? 0x202F) ||
  (c =? 0x205F) || (c =? 0x3000).

Definition LF : Z := 10.
Definition CR : Z := 13.

(** [str::split]: the pieces between the separators, empty ones included. *)
Fixpoint split (sep : Z → bool) (s : rstr) : list rstr :=
  match s with
  | [] => [[]]
  | c :: s' =>
      if sep c then [] :: split sep s'
      else match split sep s' with
      | [] => [[c]]
      | w :: ws => (c :: w) :: ws
      end
  end.

Definition nonempty (s : rstr) : bool := match s with [] => false | _ => true end.

Definition split_whitespace (s : rstr) : list rstr := List.filter nonempty (split is_whitespace s).

Fixpoint trim_start (s : rstr) : rstr :=
  match s with
  | c :: s' => if is_whitespace c then trim_start s' else s
  | [] => []
  end.

Definition trim_end (s : rstr) : rstr := reverse (trim_start (reverse s)).
Definition trim (s : rstr) : rstr := trim_end (trim_start s).

Fixpoint split_inclusive (s : rstr) : list rstr :=
  match s with
  | [] => []
  | c :: s' =>
      if c =? LF then [LF] :: split_inclusive s'
      else match split_inclusive s' with
      | [] => [[c]]
      | w :: ws => (c :: w) :: ws
      end
  end.

Fixpoint strip_suffix (c : Z) (s : rstr) : option rstr :=
  match s with
  | [] => None
  | [d] => if d =? c then Some [] else None
  | d :: s' => cons d <$> strip_suffix c s'
  end.

Definition strip_line_end (w : rstr) : rstr :=
  match strip_suffix LF w with
  | None => w
  | Some l => match strip_suffix CR l with None => l | Some l' => l' end
  end.

Definition lines (s : rstr) : list rstr := strip_line_end <$> split_inclusive s.

(** [str::find] for a character: its position. *)
Fixpoint find (c : Z) (s : rstr) : option nat :=
  match s with
  | [] => None
  | d :: s' => if d =? c then Some 0%nat else S <$> find c s'
  end.

Fixpoint join (sep : rstr) (ls : list rstr) : rstr :=
  match ls with
  | [] => []
  | [l] => l
  | l :: ls' => l ++ sep ++ join sep ls'
  end.

(** ** Decimal numbers *)

Definition is_digit (c : Z) : bool := (48 <=? c) && (c <=? 57).

Fixpoint dec_digits (fuel : nat) (n : Z) (acc : rstr) : rstr :=
  match fuel with
  | O => acc
  | S fuel =>
      let acc := (48 + n mod 10) :: acc in
      if n <? 10 then acc else dec_digits fuel (n / 10) acc
  end.

(** [to_string] of an unsigned integer of at most 64 bits: 20 digits. *)
Definition dec (n : Z) : rstr := dec_digits 20 n [].

Inductive ParseIntError := IntEmpty | InvalidDigit | PosOverflow.

Fixpoint parse_digits (max acc : Z) (s : rstr) : result Z ParseIntError :=
  match s with
  | [] => Ok acc
  | c :: s' =>
      if is_digit c then
        let acc := acc * 10 + (c - 48) in
        if max <? acc then Err PosOverflow else parse_digits max acc s'
      else Err InvalidDigit
  end.

(** [str::parse] to an unsigned integer with greatest value [max]. *)
Definition parse_uint (max : Z) (s : rstr) : result Z ParseIntError :=
  match s with
  | [] => Err IntEmpty
  | c :: s' =>
      if (c =? 43) || (c =? 45) then
        match s' with
        | [] => Err InvalidDigit
        | _ => if c =? 43 then parse_digits max 0 s' else Err InvalidDigit
        end
      else parse_digits max 0 s
  end.

(** An instance that maps ASCII letters only. *)
#[export] Instance ascii_case_mapping : CaseMapping := {
  to_uppercase := fmap ascii_upper;
  to_lowercase := fmap ascii_lower
}.

#[export] Instance ascii_case_mapping_laws : CaseMappingLaws.
Proof. by split. Qed.

(** ** Lemmas *)

(** Decide the boolean comparisons of a goal that [lia] settles. *)
Ltac bool_lia :=
  repeat match goal with
  | |- context [?a <? ?b] =>
      first [rewrite (proj2 (Z.ltb_lt a b)) by lia | rewrite (proj2 (Z.ltb_ge a b)) by lia]
  | |- context [?a <=? ?b] =>
      first [rewrite (proj2 (Z.leb_le a b)) by lia | rewrite (proj2 (Z.leb_gt a b)) by lia]
  | |- context [?a =? ?b] =>
      first [rewrite (proj2 (Z.eqb_eq a b)) by lia | rewrite (proj2 (Z.eqb_neq a b)) by lia]
  end; cbn [andb orb negb].

Lemma is_scalar_spec c : is_scalar c = true ↔ 0 ≤ c < 0xD800 ∨ 0xE000 ≤ c < 0x110000.
Proof. unfold is_scalar. rewrite orb_true_iff, !andb_true_iff, !Z.leb_le, !Z.ltb_lt. lia. Qed.

Lemma split64 c : 0 ≤ c mod 64 < 64 ∧ c = 64 * (c / 64) + c mod 64.
Proof. split; [apply Z.mod_pos_bound; lia|apply Z.div_mod; lia]. Qed.

(** Decoding takes one encoded character off the front. *)
Lemma from_utf8_char c bs :
  is_scalar c = true →
  from_utf8 (utf8_encode_char c ++ bs) = cons c <$> from_utf8 bs.
Proof.
  intros Hc. pose proof (proj1 (is_scalar_spec c) Hc) as Hr. unfold utf8_encode_char.
  destruct (Z.ltb_spec c 0x80); [|destruct (Z.ltb_spec c 0x800); [|destruct (Z.ltb_spec c 0x10000)]];
    cbn [app from_utf8]; unfold is_cont.
  - by bool_lia.
  - pose proof (split64 c). bool_lia. do 2 f_equal. lia.
  - pose proof (split64 c). pose proof (split64 (c / 64)).
    rewrite (Z.div_div c 64 64) in * by lia. change (64 * 64) with 4096 in *.
    match goal with |- context [is_scalar ?d] => replace d with c by lia end. rewrite Hc.
    by bool_lia.
  - pose proof (split64 c). pose proof (split64 (c / 64)). pose proof (split64 (c / 4096)).
    rewrite (Z.div_div c 64 64) in * by lia. change (64 * 64) with 4096 in *.
    rewrite (Z.div_div c 4096 64) in * by lia. change (4096 * 64) with 262144 in *.
    match goal with |- context [is_scalar ?d] => replace d with c by lia end. rewrite Hc.
    by bool_lia.
Qed.

Lemma utf8_encode_cons c s : utf8_encode (c :: s) = utf8_encode_char c ++ utf8_encode s.
Proof. done. Qed.

Lemma from_utf8_encode s bs :
  forallb is_scalar s = true →
  from_utf8 (utf8_encode s ++ bs) = app s <$> from_utf8 bs.
Proof.
  induction s as [|c s IH].
  { intros _. change (utf8_encode [] ++ bs) with bs. by destruct (from_utf8 bs). }
  cbn [forallb].
  intros [Hc Hs]%andb_true_iff. rewrite utf8_encode_cons, <-app_assoc.
  rewrite from_utf8_char, IH by done. by destruct (from_utf8 bs).
Qed.

Lemma utf8_encode_app s t : utf8_encode (s ++ t) = utf8_encode s ++ utf8_encode t.
Proof. unfold utf8_encode. by rewrite fmap_app, join_app. Qed.

Lemma utf8_encode_inj s t :
  forallb is_scalar s = true → forallb is_scalar t = true → utf8_encode s = utf8_encode t → s = t.
Proof.
  intros Hs Ht E. pose proof (from_utf8_encode s [] Hs) as Es.
  pose proof (from_utf8_encode t [] Ht) as Et. rewrite E, Et in Es. cbn in Es.
  rewrite !app_nil_r in Es. congruence.
Qed.

(** *** Lines *)

Lemma strip_suffix_snoc c s : strip_suffix c (s ++ [c]) = Some s.
Proof.
  induction s as [|d s IH]; cbn; [by rewrite Z.eqb_refl|].
  rewrite IH. by destruct s.
Qed.

Lemma strip_suffix_some c s t : strip_suffix c s = Some t → s = t ++ [c].
Proof.
  revert t. induction s as [|d s IH]; intros t; [done|].
  destruct s as [|e s]; [cbn; destruct (Z.eqb_spec d c); naive_solver|].
  change (strip_suffix c (d :: e :: s)) with (cons d <$> strip_suffix c (e :: s)).
  destruct (strip_suffix c (e :: s)) as [t'|]; intros [= <-]. cbn. f_equal. by apply IH.
Qed.

Lemma split_inclusive_lf a s :
  LF ∉ a → split_inclusive (a ++ LF :: s) = (a ++ [LF]) :: split_inclusive s.
Proof.
  induction a as [|c a IH]; cbn; [done|].
  intros [? ?]%not_elem_of_cons. rewrite IH by done.
  rewrite (proj2 (Z.eqb_neq c LF)); [done|congruence].
Qed.

Lemma split_inclusive_last a : LF ∉ a → a ≠ [] → split_inclusive a = [a].
Proof.
  induction a as [|c a IH]; cbn; [done|].
  intros [? ?]%not_elem_of_cons _. rewrite (proj2 (Z.eqb_neq c LF)) by congruence.
  destruct a; [done|]. by rewrite IH.
Qed.

Definition strip_cr (a : rstr) : rstr := default a (strip_suffix CR a).

Lemma lines_lf a s : LF ∉ a → lines (a ++ LF :: s) = strip_cr a :: lines s.
Proof.
  intros Ha. unfold lines. rewrite split_inclusive_lf, fmap_cons by done. f_equal.
  unfold strip_line_end, strip_cr. rewrite strip_suffix_snoc. by destruct (strip_suffix CR a).
Qed.

Lemma lines_last a : LF ∉ a → a ≠ [] → lines a = [a].
Proof.
  intros Ha Hn. unfold lines. rewrite split_inclusive_last by done. cbn.
  unfold strip_line_end. destruct (strip_suffix LF a) eqn:E; [|done].
  apply strip_suffix_some in E as ->. set_solver.
Qed.

Lemma lines_crlf l s : LF ∉ l → lines (l ++ CR :: LF :: s) = l :: lines s.
Proof.
  intros Hl. replace (l ++ CR :: LF :: s) with ((l ++ [CR]) ++ LF :: s) by by rewrite <-app_assoc.
  rewrite lines_lf by (apply not_elem_of_app; split; [done|by apply not_elem_of_cons; split; [|apply not_elem_of_nil]]).
  unfold strip_cr. by rewrite strip_suffix_snoc.
Qed.

(** A string that contains a line feed is a first line, the feed and the rest. *)
Lemma first_line s : LF ∈ s → ∃ a b, s = a ++ LF :: b ∧ LF ∉ a.
Proof.
  induction s as [|c s IH]; [by intros ?%elem_of_nil|].
  destruct (decide (c = LF)) as [->|Hc]; [exists [], s; split; [done|apply not_elem_of_nil]|].
  intros [?|Hs]%elem_of_cons; [congruence|]. destruct (IH Hs) as (a & b & -> & Ha).
  exists (c :: a), b. split; [done|]. apply not_elem_of_cons. split; congruence.
Qed.

(** *** Bodies taken apart into lines and put together again *)

(** [body_lines.join("\n")] over the lines of a text. *)
Definition relined (s : rstr) : rstr := join [LF] (lines s).

Lemma lines_nonempty s : s ≠ [] → lines s ≠ [].
Proof. destruct s as [|c s]; [done|]. intros _. unfold lines. cbn. case_match; [done|]. by destruct (split_inclusive s). Qed.

Lemma relined_lf a b :
  LF ∉ a → b ≠ [] → relined (a ++ LF :: b) = strip_cr a ++ LF :: relined b.
Proof.
  intros Ha Hb. unfold relined. rewrite lines_lf by done.
  pose proof (lines_nonempty b Hb). by destruct (lines b).
Qed.

Lemma strip_cr_length a : (length (strip_cr a) ≤ length a)%nat.
Proof.
  unfold strip_cr. destruct (strip_suffix CR a) eqn:E; [|done].
  apply strip_suffix_some in E as ->. rewrite length_app. cbn. lia.
Qed.

Lemma strip_cr_id a : strip_cr a = a ↔ last a ≠ Some CR.
Proof.
  unfold strip_cr. destruct (strip_suffix CR a) as [t|] eqn:E; cbn.
  - apply strip_suffix_some in E as ->. rewrite last_snoc. split; [|done].
    intros Ht. apply (f_equal length) in Ht. rewrite length_app in Ht. cbn in Ht. lia.
  - split; [|done]. intros _ (t & Ht)%last_Some. subst a. by rewrite strip_suffix_snoc in E.
Qed.

Lemma text_ind (P : rstr → Prop) :
  (∀ s, LF ∉ s → P s) →
  (∀ a, LF ∉ a → P (a ++ [LF])) →
  (∀ a b, LF ∉ a → b ≠ [] → P b → P (a ++ LF :: b)) →
  ∀ s, P s.
Proof.
  intros Hn Hl Hc s. remember (length s) as n eqn:En. revert s En.
  induction (lt_wf n) as [n _ IH]. intros s ->.
  destruct (decide (LF ∈ s)) as [(a & b & -> & Ha)%first_line|]; [|by apply Hn].
  destruct b as [|c b]; [by apply Hl|]. apply Hc; [done..|].
  apply (IH (length (c :: b))); [|done]. rewrite length_app. cbn. lia.
Qed.

Lemma relined_length s : (length (relined s) ≤ length s)%nat.
Proof.
  induction s as [s Hs|a Ha|a b Ha Hb IH] using text_ind.
  - destruct s as [|c s]; [done|]. unfold relined. by rewrite lines_last.
  - unfold relined. rewrite lines_lf by done. cbn. rewrite length_app.
    pose proof (strip_cr_length a). lia.
  - rewrite relined_lf, !length_app by done. cbn. pose proof (strip_cr_length a). lia.
Qed.

Lemma relined_elem c s : c ∈ relined s → c = LF ∨ c ∈ s.
Proof.
  assert (∀ a, c ∈ strip_cr a → c ∈ a) as Hcr.
  { intros a. unfold strip_cr. destruct (strip_suffix CR a) eqn:E; [|done].
    apply strip_suffix_some in E as ->. rewrite elem_of_app. auto. }
  induction s as [s Hs|a Ha|a b Ha Hb IH] using text_ind.
  - destruct s as [|d s]; [auto|]. unfold relined. rewrite lines_last by done. auto.
  - unfold relined. rewrite lines_lf, elem_of_app by done. cbn. auto.
  - rewrite relined_lf, !elem_of_app, !elem_of_cons by done.
    intros [Hc | [Hc | Hc]]; [auto..|]. destruct (IH Hc); auto.
Qed.

(** The text has no CRLF and no final line feed. *)
Definition plain_text (s : rstr) : Prop :=
  (∀ a b, s ≠ a ++ CR :: LF :: b) ∧ last s ≠ Some LF.

Lemma plain_text_lf a b :
  LF ∉ a → b ≠ [] → plain_text (a ++ LF :: b) ↔ last a ≠ Some CR ∧ plain_text b.
Proof.
  intros Ha Hb. unfold plain_text. destruct b as [|c b]; [done|]. rewrite last_app_cons, last_cons_cons.
  split.
  - intros [Hp Hl]. split_and!; [|intros a' b' E|done].
    + intros (a' & ->)%last_Some. apply (Hp a' (c :: b)). by rewrite <-app_assoc.
    + apply (Hp (a ++ LF :: a') b'). by rewrite E, <-app_assoc.
  - intros (Hcr & Hp & Hl). split; [|done]. intros a' b' E.
    apply app_eq_inv in E as [(l & -> & E) | (l & -> & E)].
    + destruct l as [|x [|y l]]; simplify_eq/=.
      * by apply (Hcr); rewrite last_snoc.
      * apply Ha, elem_of_app. right. apply elem_of_cons. right. apply list_elem_of_here.
    + destruct l as [|x l]; simplify_eq/=. by apply (Hp l b').
Qed.

(** Taking a text apart and joining it gives it back exactly when it is plain. *)
Lemma relined_id s : relined s = s ↔ plain_text s.
Proof.
  induction s as [s Hs|a Ha|a b Ha Hb IH] using text_ind.
  - split; intros _; [split|].
    + intros a b ->. apply Hs, elem_of_app. right. by do 2 constructor.
    + intros (t & ->)%last_Some. set_solver.
    + destruct s as [|c s]; [done|]. unfold relined. by rewrite lines_last.
  - split; [|intros [_ Hl]; by rewrite last_snoc in Hl].
    unfold relined. rewrite lines_lf by done. cbn. intros E%(f_equal length).
    rewrite length_app in E. cbn in E. pose proof (strip_cr_length a). lia.
  - rewrite plain_text_lf, <-IH, <-strip_cr_id, relined_lf by done. split; [|by intros [-> ->]].
    intros E. pose proof (strip_cr_length a). pose proof (relined_length b).
    pose proof (f_equal length E) as El. rewrite !length_app in El. cbn in El.
    apply app_inj_1 in E as [-> [= ->]]; [done|lia].
Qed.

(** *** Words, trimming, searching *)

Lemma split_head sep w s :
  forallb (λ c, negb (sep c)) w = true →
  split sep (w ++ s) = match split sep s with [] => [w] | v :: vs => (w ++ v) :: vs end.
Proof.
  induction w as [|c w IH]; cbn.
  { intros _. destruct s as [|c s]; [done|]. cbn. case_match; [done|]. by destruct (split sep s). }
  intros [->%negb_true_iff Hw]%andb_true_iff. rewrite IH by done. by destruct (split sep s).
Qed.

Lemma split_piece sep w c s :
  forallb (λ c, negb (sep c)) w = true → sep c = true →
  split sep (w ++ c :: s) = w :: split sep s.
Proof. intros Hw Hc. rewrite split_head by done. cbn. rewrite Hc. by rewrite app_nil_r. Qed.

Lemma split_final sep w : forallb (λ c, negb (sep c)) w = true → split sep w = [w].
Proof. intros Hw. rewrite <-(app_nil_r w) at 1. rewrite split_head by done. cbn. by rewrite app_nil_r. Qed.

(** A word: not empty, no white space. *)
Definition is_word (w : rstr) : bool := nonempty w && forallb (λ c, negb (is_whitespace c)) w.

Lemma split_whitespace_word w s :
  is_word w = true → split_whitespace (w ++ 32 :: s) = w :: split_whitespace s.
Proof.
  intros [Hn Hw]%andb_true_iff. unfold split_whitespace. rewrite split_piece by done. cbn.
  by rewrite Hn.
Qed.

Lemma split_whitespace_last w : is_word w = true → split_whitespace w = [w].
Proof.
  intros [Hn Hw]%andb_true_iff. unfold split_whitespace. rewrite split_final by done. cbn.
  by rewrite Hn.
Qed.

Lemma trim_space v : trim (32 :: v) = trim v.
Proof. done. Qed.

Lemma find_first c a b : c ∉ a → find c (a ++ c :: b) = Some (length a).
Proof.
  induction a as [|d a IH]; cbn; [by rewrite Z.eqb_refl|].
  intros [? ?]%not_elem_of_cons. rewrite IH by done. by rewrite (proj2 (Z.eqb_neq d c)) by congruence.
Qed.

Lemma trim_end_head c s :
  is_whitespace c = false → ∃ s', trim_end (c :: s) = c :: s' ∧ s' = trim_end s.
Proof.
  intros Hc. exists (trim_end s). split; [|done]. unfold trim_end. rewrite reverse_cons.
  generalize (reverse s) as t. induction t as [|d t IH]; cbn [app trim_start]; [by rewrite Hc|].
  destruct (is_whitespace d); [done|]. 
  change (d :: t ++ [c]) with ((d :: t) ++ [c]). by rewrite reverse_app.
Qed.

Lemma trim_end_app w s :
  forallb (λ c, negb (is_whitespace c)) w = true → trim_end (w ++ s) = w ++ trim_end s.
Proof.
  induction w as [|c w IH]; [done|]. cbn [forallb app].
  intros [Hc%negb_true_iff Hw]%andb_true_iff.
  destruct (trim_end_head c (w ++ s) Hc) as (s' & -> & ->). by rewrite IH.
Qed.

(** *** Decimal numbers *)

Lemma parse_digits_app max acc s t :
  parse_digits max acc (s ++ t) =
  match parse_digits max acc s with Ok a => parse_digits max a t | Err e => Err e end.
Proof.
  revert acc. induction s as [|c s IH]; intros acc; [done|]. cbn.
  destruct (is_digit c); [|done]. case_match; [done|]. apply IH.
Qed.

Lemma dec_digits_snoc fuel n acc : dec_digits fuel n acc = dec_digits fuel n [] ++ acc.
Proof.
  revert n acc. induction fuel as [|fuel IH]; intros n acc; [done|]. cbn.
  case_match; [done|]. by rewrite IH, (IH _ [_]), <-app_assoc.
Qed.

Lemma parse_dec_digits max fuel n :
  0 ≤ n ≤ max → n < 10 ^ Z.of_nat fuel →
  parse_digits max 0 (dec_digits fuel n []) = Ok n.
Proof.
  revert n. induction fuel as [|fuel IH]; intros n Hn Hf.
  { change (10 ^ Z.of_nat 0) with 1 in Hf. replace n with 0 by lia. done. }
  rewrite Nat2Z.inj_succ, Z.pow_succ_r in Hf by lia. cbn [dec_digits].
  pose proof (Z.mod_pos_bound n 10). pose proof (Z.div_mod n 10).
  destruct (Z.ltb_spec n 10).
  - rewrite Z.mod_small by lia. cbn [parse_digits]. unfold is_digit. bool_lia. f_equal. lia.
  - rewrite dec_digits_snoc, parse_digits_app, IH by (try apply Z.div_lt_upper_bound; lia).
    cbn [parse_digits]. unfold is_digit. bool_lia. f_equal. lia.
Qed.

Lemma dec_digits_digits fuel n acc :
  0 ≤ n → forallb is_digit acc = true → forallb is_digit (dec_digits fuel n acc) = true.
Proof.
  revert n acc. induction fuel as [|fuel IH]; intros n acc Hn Ha; [done|]. cbn [dec_digits].
  pose proof (Z.mod_pos_bound n 10).
  assert (forallb is_digit ((48 + n mod 10) :: acc) = true).
  { cbn [forallb]. rewrite Ha. unfold is_digit. by bool_lia. }
  case_match; [done|]. apply IH; [|done]. apply Z.div_pos; lia.
Qed.

Lemma dec_is_digits n : 0 ≤ n → forallb is_digit (dec n) = true.
Proof. intros. by apply dec_digits_digits. Qed.

Lemma dec_digits_nonempty fuel n : dec_digits (S fuel) n [] ≠ [].
Proof.
  cbn [dec_digits]. case_match; [done|]. rewrite dec_digits_snoc.
  intros [_ ?]%app_eq_nil. done.
Qed.

Lemma dec_nonempty n : dec n ≠ [].
Proof. apply dec_digits_nonempty. Qed.

Lemma parse_uint_digits max s :
  s ≠ [] → forallb is_digit s = true → parse_uint max s = parse_digits max 0 s.
Proof.
  destruct s as [|c s]; [done|]. intros _. cbn [forallb parse_uint].
  intros [Hc _]%andb_true_iff. apply andb_true_iff in Hc as [?%Z.leb_le ?%Z.leb_le].
  by bool_lia.
Qed.

(** Printing and parsing of machine integers. *)
Lemma parse_uint_dec max n : 0 ≤ n ≤ max → max < 10 ^ 20 → parse_uint max (dec n) = Ok n.
Proof.
  intros Hn Hm. rewrite parse_uint_digits by
    (apply dec_nonempty || (apply dec_is_digits; lia)).
  apply parse_dec_digits; [done|]. change (10 ^ Z.of_nat 20) with (10 ^ 20). lia.
Qed.
