(* ===== verification/Http.v ===== *)
(** * HTTP requests and responses (src/http.rs)

    [parse] is [Request::parse] from the bytes read to the request, [to_bytes]
    is [Response::to_bytes]. A [HashMap] of headers is a finite map; the order
    in which [to_bytes] walks it is not determined by the program and is an
    argument, any list of the map's entries. *)

From S2P Require Import Prelude Str.

Inductive Method :=
  | GET
  | POST
  | PUT
  | DELETE
  | HEAD
  | OPTIONS
  | PATCH
  | Other (method : rstr).

Record Request := mkRequest {
  method : Method;
  path : rstr;
  version : rstr;
  headers : gmap rstr rstr;
  body : list Z
}.

Record Response := mkResponse {
  status : Z;
  resp_version : rstr;
  resp_headers : gmap rstr rstr;
  resp_body : list Z
}.

(** [io::Error::new(io::ErrorKind::InvalidData, msg)]. *)
Inductive HttpError := InvalidData (msg : string).

Definition Method_fmt (m : Method) : rstr :=
  match m with
  | GET => lit "GET"
  | POST => lit "POST"
  | PUT => lit "PUT"
  | DELETE => lit "DELETE"
  | HEAD => lit "HEAD"
  | OPTIONS => lit "OPTIONS"
  | PATCH => lit "PATCH"
  | Other method => method
  end.

Definition COLON : Z := 58.
Definition SP : Z := 32.

Section http.
Context `{CM : CaseMapping}.

Definition Method_from (method : rstr) : Method :=
  let upper := to_uppercase method in
  if bool_decide (upper = lit "GET") then GET
  else if bool_decide (upper = lit "POST") then POST
  else if bool_decide (upper = lit "PUT") then PUT
  else if bool_decide (upper = lit "DELETE") then DELETE
  else if bool_decide (upper = lit "HEAD") then HEAD
  else if bool_decide (upper = lit "OPTIONS") then OPTIONS
  else if bool_decide (upper = lit "PATCH") then PATCH
  else Other method.

(** [StatusCode]'s [Display]. *)
Definition StatusCode_fmt (code : Z) : rstr :=
  let reason :=
    if code =? 200 then lit "OK"
    else if code =? 400 then lit "Bad Request"
    else if code =? 404 then lit "Not Found"
    else if code =? 500 then lit "Internal Server Error"
    else lit "Unknown" in
  dec code ++ SP :: reason.

Definition Request_new (m : Method) (p : rstr) : Request := mkRequest m p (lit "HTTP/1.1") ∅ [].

(** One header line. *)
Definition header_line (line : rstr) (hs : gmap rstr rstr) : gmap rstr rstr :=
  match find COLON line with
  | Some colon_pos =>
      <[to_lowercase (trim (take colon_pos line)) := trim (drop (colon_pos + 1) line)]> hs
  | None => hs
  end.

(** The loop over the lines after the request line. *)
Fixpoint header_loop (ls : list rstr) (i : nat) (hs : gmap rstr rstr) :
    gmap rstr rstr * option nat :=
  match ls with
  | [] => (hs, None)
  | line :: ls =>
      match line with
      | [] => (hs, Some (i + 2)%nat)
      | _ => header_loop ls (S i) (header_line line hs)
      end
  end.

Definition parse (data : list Z) : result Request HttpError :=
  match from_utf8 data with
  | None => Err (InvalidData "Invalid UTF-8")
  | Some request_str =>
      match lines request_str with
      | [] => Err (InvalidData "Empty request")
      | request_line :: rest =>
          match split_whitespace request_line with
          | [m; p; v] =>
              let '(hs, body_start) := header_loop rest 0 ∅ in
              let b := match body_start with
                | Some start => utf8_encode (join [LF] (drop start (lines request_str)))
                | None => []
                end in
              Ok (mkRequest (Method_from m) p v hs b)
          | _ => Err (InvalidData "Invalid request line")
          end
      end
  end.

Definition Response_new (code : Z) : Response :=
  mkResponse code (lit "HTTP/1.1") (<[lit "server" := lit "miniss/1.0"]> ∅) [].

Definition with_body (r : Response) (body_bytes : list Z) : Response :=
  mkResponse (status r) (resp_version r)
    (<[lit "content-length" := dec (Z.of_nat (length body_bytes))]> (resp_headers r)) body_bytes.

Definition with_header (r : Response) (name value : rstr) : Response :=
  mkResponse (status r) (resp_version r) (<[to_lowercase name := value]> (resp_headers r))
    (resp_body r).

(** One "name: value" line, with its line end. *)
Definition header_text (h : rstr * rstr) : rstr := h.1 ++ COLON :: SP :: h.2 ++ [CR; LF].

(** [order]: the entries of the header map as the iteration yields them. *)
Definition to_bytes (r : Response) (order : list (rstr * rstr)) : list Z :=
  let response := resp_version r ++ SP :: StatusCode_fmt (status r) ++ [CR; LF] in
  let response := fold_left (λ s h, s ++ header_text h) order response in
  utf8_encode (response ++ [CR; LF]) ++ resp_body r.

(** [StaticHandler::handle]. *)
Definition static_handle (content content_type : rstr) : Response :=
  with_body (with_header (Response_new 200) (lit "content-type") content_type)
    (utf8_encode content).

(** ** Methods *)

(** The methods that [Method::from] can give. *)
Definition canonical (m : Method) : Prop :=
  match m with
  | Other s => Method_from s = Other s
  | _ => True
  end.

Context `{CML : !CaseMappingLaws}.

Lemma Method_from_fmt m : canonical m → Method_from (Method_fmt m) = m.
Proof.
  destruct m; cbn [canonical Method_fmt]; try done; intros _; unfold Method_from;
    rewrite to_uppercase_ascii by done; done.
Qed.

(** ** Requests *)

(** A request as a client writes it: request line, header lines, a blank line,
    and the body. *)
Definition request_text (m p v : rstr) (hs : list (rstr * rstr)) (b : rstr) : rstr :=
  m ++ SP :: p ++ SP :: v ++ CR :: LF :: (hs ≫= header_text) ++ CR :: LF :: b.

(** A header whose text stays on one line and has its colon after the name. *)
Definition header_ok (h : rstr * rstr) : Prop :=
  (COLON ∉ h.1) ∧ (LF ∉ h.1) ∧ (LF ∉ h.2).

(** What the header loop records for a list of headers: names trimmed and in
    lower case, values trimmed, later ones over earlier ones. *)
Definition record_headers (hs : list (rstr * rstr)) (acc : gmap rstr rstr) : gmap rstr rstr :=
  fold_left (λ acc h, <[to_lowercase (trim h.1) := trim h.2]> acc) hs acc.

Lemma header_text_line (h : rstr * rstr) acc :
  COLON ∉ h.1 → header_line (h.1 ++ COLON :: SP :: h.2) acc =
  <[to_lowercase (trim h.1) := trim h.2]> acc.
Proof.
  intros Hc. unfold header_line. rewrite find_first by done.
  rewrite take_app_length, <-drop_drop, drop_app_length. cbn [drop]. by rewrite trim_space.
Qed.

Lemma header_lines hs s :
  Forall header_ok hs →
  lines ((hs ≫= header_text) ++ s) = ((λ h, h.1 ++ COLON :: SP :: h.2) <$> hs) ++ lines s.
Proof.
  induction 1 as [|h hs (Hc & Hn & Hv) _ IH]; [done|].
  cbn [fmap list_fmap app]. rewrite bind_cons, <-IH, <-app_assoc. unfold header_text.
  rewrite <-lines_crlf.
  - f_equal. rewrite <-!app_assoc. cbn. by rewrite <-!app_assoc.
  - rewrite not_elem_of_app, !not_elem_of_cons. done.
Qed.

Lemma header_loop_lines hs rest i acc :
  Forall header_ok hs →
  header_loop (((λ h, h.1 ++ COLON :: SP :: h.2) <$> hs) ++ [] :: rest) i acc =
  (record_headers hs acc, Some (i + length hs + 2)%nat).
Proof.
  intros Hhs. revert i acc. induction Hhs as [|h hs (Hc & _) _ IH]; intros i acc.
  { cbn. by rewrite Nat.add_0_r. }
  rewrite fmap_cons. cbn [app header_loop length].
  pose proof (header_text_line h acc Hc) as Hl.
  destruct (h.1 ++ COLON :: SP :: h.2) as [|c l] eqn:E; [by destruct (h.1)|].
  rewrite <-E in *. rewrite Hl, IH. unfold record_headers. cbn [fold_left]. do 2 f_equal. lia.
Qed.

Definition words_ok (ws : list rstr) : bool := forallb is_word ws.

Lemma request_line_words m p v :
  words_ok [m; p; v] = true → split_whitespace (m ++ SP :: p ++ SP :: v) = [m; p; v].
Proof.
  unfold words_ok. cbn [forallb]. rewrite !andb_true_iff. intros (Hm & Hp & Hv & _).
  unfold SP. by rewrite !split_whitespace_word, split_whitespace_last.
Qed.

Lemma word_no_lf w : is_word w = true → LF ∉ w.
Proof.
  intros [_ Hw]%andb_true_iff. rewrite forallb_forall in Hw. intros Hin%list_elem_of_In.
  by specialize (Hw _ Hin).
Qed.

Lemma request_text_lines m p v hs b :
  words_ok [m; p; v] = true → Forall header_ok hs →
  lines (request_text m p v hs b) =
  (m ++ SP :: p ++ SP :: v) :: ((λ h, h.1 ++ COLON :: SP :: h.2) <$> hs) ++ [] :: lines b.
Proof.
  unfold words_ok. cbn [forallb]. rewrite !andb_true_iff. intros (Hm & Hp & Hv & _) Hhs.
  unfold request_text.
  trans (lines ((m ++ SP :: p ++ SP :: v) ++ CR :: LF :: (hs ≫= header_text) ++ CR :: LF :: b)).
  { f_equal. rewrite <-!app_assoc. cbn. by rewrite <-!app_assoc. }
  rewrite lines_crlf.
  - rewrite header_lines by done. change (CR :: LF :: b) with ([] ++ CR :: LF :: b).
    by rewrite lines_crlf by apply not_elem_of_nil.
  - repeat (rewrite not_elem_of_app || rewrite not_elem_of_cons). auto 10 using word_no_lf.
Qed.

(** What [parse] makes of a well-formed request text. *)
Lemma parse_request_text m p v hs b :
  words_ok [m; p; v] = true → Forall header_ok hs →
  forallb is_scalar (request_text m p v hs b) = true →
  parse (utf8_encode (request_text m p v hs b)) =
  Ok (mkRequest (Method_from m) p v (record_headers hs ∅) (utf8_encode (relined b))).
Proof.
  intros Hw Hhs Hsc. unfold parse.
  rewrite <-(app_nil_r (utf8_encode _)), from_utf8_encode by done. cbn [from_utf8 fmap option_fmap option_map].
  rewrite app_nil_r, request_text_lines, request_line_words by done.
  rewrite header_loop_lines by done. do 3 f_equal. unfold relined. f_equal.
  rewrite Nat.add_0_l, Nat.add_comm. cbn [Nat.add drop].
  rewrite <-Nat.add_1_r, <-drop_drop. rewrite (drop_app_length' (_ <$> _)) by by rewrite length_fmap.
  done.
Qed.

(** ** Responses *)

Lemma fold_header_text order s :
  fold_left (λ s h, s ++ header_text h) order s = s ++ (order ≫= header_text).
Proof.
  revert s. induction order as [|h order IH]; intros s; cbn [fold_left]; [by rewrite app_nil_r|].
  by rewrite IH, bind_cons, <-app_assoc.
Qed.

(** The text of a response before its body. *)
Definition response_head (r : Response) (order : list (rstr * rstr)) : rstr :=
  (resp_version r ++ SP :: StatusCode_fmt (status r)) ++
  CR :: LF :: (order ≫= header_text) ++ [CR; LF].

Lemma to_bytes_head r order : to_bytes r order = utf8_encode (response_head r order) ++ resp_body r.
Proof.
  unfold to_bytes. rewrite fold_header_text. do 2 f_equal. unfold response_head.
  repeat (rewrite <-!app_assoc; cbn). done.
Qed.

Lemma status_no_lf code : 0 ≤ code → LF ∉ StatusCode_fmt code.
Proof.
  intros Hc. unfold StatusCode_fmt. rewrite not_elem_of_app, not_elem_of_cons. split_and!.
  - intros Hin%list_elem_of_In. pose proof (dec_is_digits code Hc) as Hd.
    rewrite forallb_forall in Hd. by specialize (Hd _ Hin).
  - done.
  - repeat case_match; by apply (bool_decide_unpack _).
Qed.

(** A header map that reads back as itself: names in lower case, and no
    padding, line feed or (in the names) colon. *)
Definition headers_clean (m : gmap rstr rstr) : Prop :=
  map_Forall (λ n v, header_ok (n, v) ∧ to_lowercase (trim n) = n ∧ trim v = v) m.

Lemma record_headers_order order m acc :
  NoDup order.*1 → list_to_map order = m → headers_clean m →
  record_headers order acc = m ∪ acc.
Proof.
  intros Hnd <-. revert acc. induction order as [|[n v] order IH]; intros acc.
  { intros _. cbn. by rewrite (left_id_L ∅ (∪)). }
  cbn [fmap list_fmap] in Hnd. apply NoDup_cons in Hnd as [Hn Hnd]. cbn [list_to_map foldr fst].
  assert ((list_to_map order : gmap rstr rstr) !! n = None) as Hnone
    by by apply not_elem_of_list_to_map_1.
  intros Hcl. apply map_Forall_insert in Hcl as [(_ & Hln & Hv) Hcl]; [|done].
  unfold record_headers in *. cbn [fold_left fst snd] in *. rewrite Hln, Hv, IH by done.
  rewrite <-insert_union_l. by rewrite <-insert_union_r.
Qed.

Lemma relined_scalar b : forallb is_scalar b = true → forallb is_scalar (relined b) = true.
Proof.
  rewrite !forallb_forall. intros Hb c Hc%list_elem_of_In%relined_elem.
  destruct Hc as [-> | Hc]; [done|]. by apply Hb, list_elem_of_In.
Qed.

Lemma request_text_scalar_body m p v hs b :
  forallb is_scalar (request_text m p v hs b) = true → forallb is_scalar b = true.
Proof.
  unfold request_text. repeat (rewrite forallb_app || cbn [forallb]).
  rewrite !andb_true_iff. intuition.
Qed.

(** C23. [Request::parse] on a request as a client writes it (method, path and
    version separated by one space, one line per header, a blank line, the
    body): it succeeds; the method is recognised, path and version are taken as
    they are; every header is recorded with its name trimmed and in lower case
    and its value trimmed, a later one replacing an earlier one of the same
    name; and the body is the body sent exactly when that has no CRLF and no
    final line feed, because it is reassembled from lines. *)
Theorem parse_request_correct m p v hs b :
  words_ok [m; p; v] = true → Forall header_ok hs →
  forallb is_scalar (request_text m p v hs b) = true →
  ∃ r, parse (utf8_encode (request_text m p v hs b)) = Ok r ∧
    method r = Method_from m ∧ path r = p ∧ version r = v ∧
    headers r = record_headers hs ∅ ∧
    (body r = utf8_encode b ↔ plain_text b).
Proof.
  intros Hw Hhs Hsc. eexists. split; [by apply parse_request_text|]. cbn.
  apply request_text_scalar_body in Hsc as Hb. split_and!; try done.
  rewrite <-relined_id. split; [|by intros ->].
  apply utf8_encode_inj; [by apply relined_scalar|done].
Qed.


(** [StaticHandler::handle]: the response is 200, its body is the content,
    its content type the one given, and its [content-length] header reads back,
    as a [u64], as the number of bytes of the body. *)
Theorem static_handle_framing content content_type :
  Z.of_nat (length (utf8_encode content)) ≤ u64_max →
  let r := static_handle content content_type in
  status r = 200 ∧ resp_body r = utf8_encode content ∧
  resp_headers r !! lit "content-type" = Some content_type ∧
  ∃ len, resp_headers r !! lit "content-length" = Some len ∧
    parse_uint u64_max len = Ok (Z.of_nat (length (resp_body r))).
Proof.
  intros Hlen. cbn [static_handle with_body with_header status resp_headers resp_body].
  rewrite to_lowercase_ascii by done. split_and!; [done..| |].
  - rewrite lookup_insert_ne by by apply (bool_decide_unpack _). apply lookup_insert_eq.
  - eexists. split; [apply lookup_insert_eq|]. apply parse_uint_dec; [lia|]. done.
Qed.

End http.

Definition demo_headers : list (rstr * rstr) :=
  [(lit "Host", lit "a"); (lit "X-Y", lit " 1")].

Lemma parse_request_correct_witness :
  ∃ r, parse (utf8_encode (request_text (lit "get") (lit "/") (lit "HTTP/1.1") demo_headers (lit "x"))) = Ok r ∧
    method r = Method_from (lit "get") ∧ path r = lit "/" ∧ version r = lit "HTTP/1.1" ∧
    headers r = record_headers demo_headers ∅ ∧ (body r = utf8_encode (lit "x") ↔ plain_text (lit "x")).
Proof.
  apply (parse_request_correct (lit "get") (lit "/") (lit "HTTP/1.1") demo_headers (lit "x")).
  - reflexivity.
  - repeat constructor; by apply (bool_decide_unpack _).
  - vm_compute. reflexivity.
Defined.


Lemma static_handle_framing_witness :
  let r := static_handle (lit "hello") (lit "text/plain") in
  status r = 200 ∧ resp_body r = utf8_encode (lit "hello") ∧
  resp_headers r !! lit "content-type" = Some (lit "text/plain") ∧
  ∃ len, resp_headers r !! lit "content-length" = Some len ∧
    parse_uint u64_max len = Ok (Z.of_nat (length (resp_body r))).
Proof. apply (static_handle_framing (lit "hello") (lit "text/plain")). vm_compute. discriminate. Defined.
