(* ===== verification/HttpHandlers.v ===== *)
(** * [EchoHandler] (src/http.rs)

    The handler answers with a text made of the request: its parts as they are
    displayed, its headers in the pretty [Debug] format of a hash map, its body
    as [String::from_utf8_lossy] reads it. Those two are modelled from the
    standard library's documentation; which characters beyond ASCII [Debug]
    shows as they are is in the Unicode tables of the standard library in use,
    the operation of the class [DebugTables]. *)

From S2P Require Import Prelude Str Http.

(** ** [String::from_utf8_lossy] *)

Definition REPLACEMENT : Z := 0xFFFD.

(** The second byte of a sequence that starts with [b0]. *)
Definition second_ok (b0 b1 : Z) : bool :=
  ((0xC2 <=? b0) && (b0 <? 0xE0) && is_cont b1) ||
  ((b0 =? 0xE0) && (0xA0 <=? b1) && (b1 <? 0xC0)) ||
  ((0xE1 <=? b0) && (b0 <? 0xED) && is_cont b1) ||
  ((b0 =? 0xED) && (0x80 <=? b1) && (b1 <? 0xA0)) ||
  ((0xEE <=? b0) && (b0 <? 0xF0) && is_cont b1) ||
  ((b0 =? 0xF0) && (0x90 <=? b1) && (b1 <? 0xC0)) ||
  ((0xF1 <=? b0) && (b0 <? 0xF4) && is_cont b1) ||
  ((b0 =? 0xF4) && (0x80 <=? b1) && (b1 <? 0x90)).

(** Each longest prefix of a sequence that cannot be continued becomes one
    replacement character. *)
Fixpoint from_utf8_lossy (bs : list Z) : rstr :=
  match bs with
  | [] => []
  | b0 :: r0 =>
      if b0 <? 0x80 then b0 :: from_utf8_lossy r0
      else match r0 with
      | [] => [REPLACEMENT]
      | b1 :: r1 =>
          if second_ok b0 b1 then
            if b0 <? 0xE0 then ((b0 - 0xC0) * 0x40 + (b1 - 0x80)) :: from_utf8_lossy r1
            else match r1 with
            | [] => [REPLACEMENT]
            | b2 :: r2 =>
                if is_cont b2 then
                  if b0 <? 0xF0
                  then ((b0 - 0xE0) * 0x1000 + (b1 - 0x80) * 0x40 + (b2 - 0x80)) :: from_utf8_lossy r2
                  else match r2 with
                  | [] => [REPLACEMENT]
                  | b3 :: r3 =>
                      if is_cont b3
                      then ((b0 - 0xF0) * 0x40000 + (b1 - 0x80) * 0x1000 + (b2 - 0x80) * 0x40 + (b3 - 0x80))
                             :: from_utf8_lossy r3
                      else REPLACEMENT :: from_utf8_lossy r2
                  end
                else REPLACEMENT :: from_utf8_lossy r1
            end
          else REPLACEMENT :: from_utf8_lossy r0
      end
  end.

(** ** [Debug] for strings and hash maps *)

Class DebugTables := {
  (** printable, and not of the property Grapheme_Extend; asked beyond ASCII *)
  shown : Z → bool
}.

Definition BACKSLASH : Z := 92.
Definition QUOTE : Z := 34.

Definition hex_digit (d : Z) : Z := if d <? 10 then 48 + d else 87 + d.

Fixpoint hex_digits (fuel : nat) (n : Z) (acc : rstr) : rstr :=
  match fuel with
  | O => acc
  | S fuel =>
      let acc := hex_digit (n mod 16) :: acc in
      if n / 16 =? 0 then acc else hex_digits fuel (n / 16) acc
  end.

(** [char::escape_unicode]; six digits are enough for a [char]. *)
Definition escape_unicode (c : Z) : rstr := BACKSLASH :: lit "u{" ++ hex_digits 6 c [] ++ lit "}".

Section echo.
Context `{DebugTables}.

Definition debug_plain (c : Z) : bool :=
  if c <? 0x80 then (0x20 <=? c) && (c <? 0x7F) else shown c.

Definition escape_debug (c : Z) : rstr :=
  if c =? 0 then BACKSLASH :: lit "0"
  else if c =? 9 then BACKSLASH :: lit "t"
  else if c =? 13 then BACKSLASH :: lit "r"
  else if c =? 10 then BACKSLASH :: lit "n"
  else if c =? QUOTE then [BACKSLASH; QUOTE]
  else if c =? BACKSLASH then [BACKSLASH; BACKSLASH]
  else if debug_plain c then [c]
  else escape_unicode c.

Definition debug_str (s : rstr) : rstr := QUOTE :: mjoin (escape_debug <$> s) ++ [QUOTE].

(** [PadAdapter]: four spaces at the start of each line. *)
Fixpoint pad (on_newline : bool) (s : rstr) : rstr :=
  match s with
  | [] => []
  | c :: s => (if on_newline then lit "    " else []) ++ c :: pad (c =? LF) s
  end.

Definition debug_entry (h : rstr * rstr) : rstr :=
  pad true (debug_str h.1 ++ lit ": " ++ debug_str h.2 ++ lit "," ++ [LF]).

(** [{:#?}] of a map whose iteration yields [order]. *)
Definition debug_map (order : list (rstr * rstr)) : rstr :=
  lit "{" ++ match order with [] => [] | _ => LF :: mjoin (debug_entry <$> order) end ++ lit "}".

(** ** [EchoHandler::handle] *)

Definition echo_text (request : Request) (order : list (rstr * rstr)) : rstr :=
  lit "Method: " ++ Method_fmt (method request) ++ [LF] ++
  lit "Path: " ++ path request ++ [LF] ++
  lit "Version: " ++ version request ++ [LF] ++
  lit "Headers: " ++ debug_map order ++ [LF] ++
  lit "Body: " ++ from_utf8_lossy (body request) ++ [LF].

Definition echo_handle `{CaseMapping} (request : Request) (order : list (rstr * rstr)) : Response :=
  with_body (with_header (Response_new 200) (lit "content-type") (lit "text/plain"))
    (utf8_encode (echo_text request order)).

End echo.

(** ** The lossy reading of valid UTF-8 *)

Lemma is_cont_spec b : is_cont b = true ↔ 0x80 ≤ b < 0xC0.
Proof. unfold is_cont. rewrite andb_true_iff, Z.leb_le, Z.ltb_lt. lia. Qed.

Lemma second_ok_spec b0 b1 :
  second_ok b0 b1 = true ↔
  0x80 ≤ b1 < 0xC0 ∧ 0xC2 ≤ b0 < 0xF5 ∧
  (b0 = 0xE0 → 0xA0 ≤ b1) ∧ (b0 = 0xED → b1 < 0xA0) ∧ (b0 = 0xF0 → 0x90 ≤ b1) ∧ (b0 = 0xF4 → b1 < 0x90).
Proof.
  unfold second_ok, is_cont. rewrite !orb_true_iff, !andb_true_iff, !Z.leb_le, !Z.ltb_lt, !Z.eqb_eq. lia.
Qed.

(** The digits of [c] in base 64. *)
Lemma base64 c :
  0 ≤ c → c / 4096 = c / 64 / 64 ∧ c / 262144 = c / 64 / 64 / 64 ∧ 0 ≤ c mod 64 < 64 ∧ c = 64 * (c / 64) + c mod 64 ∧
  0 ≤ (c / 64) mod 64 < 64 ∧ c / 64 = 64 * (c / 64 / 64) + (c / 64) mod 64 ∧
  0 ≤ (c / 64 / 64) mod 64 < 64 ∧ c / 64 / 64 = 64 * (c / 64 / 64 / 64) + (c / 64 / 64) mod 64.
Proof.
  intros Hc. pose proof (split64 c). pose proof (split64 (c / 64)). pose proof (split64 (c / 64 / 64)).
  rewrite !Z.div_div in * by lia. tauto.
Qed.

(** Sequences of two, three and four bytes. *)
Lemma lossy2 b0 b1 bs :
  second_ok b0 b1 = true → b0 < 0xE0 →
  from_utf8_lossy (b0 :: b1 :: bs) = ((b0 - 0xC0) * 0x40 + (b1 - 0x80)) :: from_utf8_lossy bs.
Proof.
  intros Hs Hlt. pose proof (proj1 (second_ok_spec _ _) Hs). cbn [from_utf8_lossy].
  by rewrite (proj2 (Z.ltb_ge b0 0x80)), Hs, (proj2 (Z.ltb_lt b0 0xE0)) by lia.
Qed.

Lemma lossy3 b0 b1 b2 bs :
  second_ok b0 b1 = true → is_cont b2 = true → 0xE0 ≤ b0 < 0xF0 →
  from_utf8_lossy (b0 :: b1 :: b2 :: bs) =
    ((b0 - 0xE0) * 0x1000 + (b1 - 0x80) * 0x40 + (b2 - 0x80)) :: from_utf8_lossy bs.
Proof.
  intros Hs Hc Hb. cbn [from_utf8_lossy]. rewrite (proj2 (Z.ltb_ge b0 0x80)), Hs by lia.
  by rewrite (proj2 (Z.ltb_ge b0 0xE0)), Hc, (proj2 (Z.ltb_lt b0 0xF0)) by lia.
Qed.

Lemma lossy4 b0 b1 b2 b3 bs :
  second_ok b0 b1 = true → is_cont b2 = true → is_cont b3 = true → 0xF0 ≤ b0 →
  from_utf8_lossy (b0 :: b1 :: b2 :: b3 :: bs) =
    ((b0 - 0xF0) * 0x40000 + (b1 - 0x80) * 0x1000 + (b2 - 0x80) * 0x40 + (b3 - 0x80)) :: from_utf8_lossy bs.
Proof.
  intros Hs Hc2 Hc3 Hb. cbn [from_utf8_lossy]. rewrite (proj2 (Z.ltb_ge b0 0x80)), Hs by lia.
  by rewrite (proj2 (Z.ltb_ge b0 0xE0)), Hc2, (proj2 (Z.ltb_ge b0 0xF0)), Hc3 by lia.
Qed.

Lemma from_utf8_lossy_char c bs :
  is_scalar c = true → from_utf8_lossy (utf8_encode_char c ++ bs) = c :: from_utf8_lossy bs.
Proof.
  intros Hr%is_scalar_spec. destruct (base64 c) as (E1 & E2 & H0 & Q0 & H1 & Q1 & H2 & Q2); [lia|].
  unfold utf8_encode_char. rewrite E1, E2.
  destruct (Z.ltb_spec c 0x80) as [Hc|]; [|destruct (Z.ltb_spec c 0x800); [|destruct (Z.ltb_spec c 0x10000)]];
    cbn [app].
  - cbn [from_utf8_lossy]. by rewrite (proj2 (Z.ltb_lt _ _) Hc).
  - rewrite lossy2 by (apply second_ok_spec || idtac; lia). f_equal. lia.
  - rewrite lossy3 by (apply second_ok_spec || apply is_cont_spec || idtac; lia). f_equal. lia.
  - rewrite lossy4 by (apply second_ok_spec || apply is_cont_spec || idtac; lia). f_equal. lia.
Qed.

Lemma from_utf8_lossy_encode s : forallb is_scalar s = true → from_utf8_lossy (utf8_encode s) = s.
Proof.
  induction s as [|c s IH]; [done|]. cbn [forallb]. intros [Hc Hs]%andb_true_iff.
  rewrite utf8_encode_cons, from_utf8_lossy_char by done. by rewrite IH.
Qed.

(** ** The [Debug] format can be read back *)

Definition hex_value (d : Z) : Z := if d <? 58 then d - 48 else d - 87.
Definition hex_fold (v : Z) (s : rstr) : Z := fold_left (λ v d, 16 * v + hex_value d) s v.

Lemma hex_digit_value d : 0 ≤ d < 16 → hex_value (hex_digit d) = d.
Proof. intros Hd. unfold hex_value, hex_digit. destruct (Z.ltb_spec d 10); bool_lia; lia. Qed.

Lemma hex_fold_cons v d s : hex_fold v (d :: s) = hex_fold (16 * v + hex_value d) s.
Proof. done. Qed.

Lemma hex_digits_value fuel n acc :
  0 ≤ n < 16 ^ Z.of_nat fuel → hex_fold 0 (hex_digits fuel n acc) = hex_fold n acc.
Proof.
  revert n acc. induction fuel as [|fuel IH]; intros n acc Hn.
  { assert (n = 0) as -> by (cbn in Hn; lia). done. }
  rewrite Nat2Z.inj_succ, Z.pow_succ_r in Hn by lia. cbn [hex_digits].
  pose proof (Z.mod_pos_bound n 16 ltac:(lia)). pose proof (Z.div_mod n 16 ltac:(lia)) as Hd.
  destruct (Z.eqb_spec (n / 16) 0) as [Hz|Hz].
  - rewrite hex_fold_cons, hex_digit_value by lia. f_equal. lia.
  - rewrite IH by (split; [apply Z.div_pos; lia|apply Z.div_lt_upper_bound; lia]).
    rewrite hex_fold_cons, hex_digit_value by lia. f_equal. lia.
Qed.

(** Digits are visible ASCII and not the closing brace. *)
Definition is_hex (d : Z) : Prop := 48 ≤ d < 58 ∨ 97 ≤ d < 103.

Lemma hex_digits_hex fuel n acc : Forall is_hex acc → Forall is_hex (hex_digits fuel n acc).
Proof.
  revert n acc. induction fuel as [|fuel IH]; intros n acc Ha; cbn [hex_digits]; [done|].
  assert (Forall is_hex (hex_digit (n mod 16) :: acc)).
  { constructor; [|done]. pose proof (Z.mod_pos_bound n 16 ltac:(lia)). unfold is_hex, hex_digit.
    destruct (Z.ltb_spec (n mod 16) 10); lia. }
  case_match; [done|]. by apply IH.
Qed.

(** Equal texts that are cut at the first [sep] are cut at the same place. *)
Lemma cut_at (sep : Z) a b x y : sep ∉ a → (sep ∉ b) → a ++ sep :: x = b ++ sep :: y → a = b ∧ x = y.
Proof.
  revert b. induction a as [|c a IH]; intros [|d b]; cbn; rewrite ?not_elem_of_cons.
  - by intros _ _ [= ->].
  - intros _ [? _] [= -> _]. done.
  - intros [? _] _ [= -> _]. done.
  - intros [_ Ha] [_ Hb] [= -> E]. by destruct (IH b Ha Hb E) as [-> ->].
Qed.

Section debug_facts.
Context `{DebugTables}.

Lemma escape_unicode_cancel c d x y :
  is_scalar c = true → is_scalar d = true →
  escape_unicode c ++ x = escape_unicode d ++ y → c = d ∧ x = y.
Proof.
  intros Hc%is_scalar_spec Hd%is_scalar_spec E. unfold escape_unicode in E. cbn in E.
  injection E as E. rewrite <-!app_assoc in E. cbn in E.
  assert (∀ n, 125 ∉ hex_digits 6 n []) as Hno.
  { intros n Hin. pose proof (hex_digits_hex 6 n [] ltac:(done)) as Hall.
    rewrite Forall_forall in Hall. destruct (Hall _ Hin); lia. }
  destruct (cut_at 125 _ _ x y (Hno c) (Hno d) E) as [Ex ->]. split; [|done].
  pose proof (hex_digits_value 6 c []) as Vc. pose proof (hex_digits_value 6 d []) as Vd.
  rewrite Ex in Vc. etrans; [symmetry; apply Vc|apply Vd]; change (16 ^ Z.of_nat 6) with 16777216; lia.
Qed.

(** No escape is the beginning of another, and none begins with a quote. *)
Lemma escape_debug_cancel c d x y :
  is_scalar c = true → is_scalar d = true →
  escape_debug c ++ x = escape_debug d ++ y → c = d ∧ x = y.
Proof.
  intros Hc Hd. unfold escape_debug, QUOTE, BACKSLASH.
  repeat case_match; intros E; try exact (escape_unicode_cancel c d x y Hc Hd E);
    rewrite ?Z.eqb_eq, ?Z.eqb_neq in *; cbn in E; simplify_eq/=; try done; lia.
Qed.

Lemma escape_debug_visible c :
  is_scalar c = true → Forall (λ b, 0x20 ≤ b ∧ is_scalar b = true) (escape_debug c) ∧
  ∃ b rest, escape_debug c = b :: rest ∧ b ≠ QUOTE.
Proof.
  intros Hc. pose proof (proj1 (is_scalar_spec c) Hc). unfold escape_debug, QUOTE, BACKSLASH.
  repeat case_match; rewrite ?Z.eqb_eq, ?Z.eqb_neq in *; try (split; [by repeat constructor|by eexists _, _]).
  - split; [|by eexists _, _]. constructor; [|done]. split; [|done].
    unfold debug_plain in *. destruct (Z.ltb_spec c 0x80); [|lia].
    match goal with E : _ && _ = true |- _ => apply andb_true_iff in E as [?%Z.leb_le _] end. lia.
  - split; [|by eexists _, _]. unfold escape_unicode. apply Forall_cons; split; [done|].
    rewrite !Forall_app. split_and!; [by repeat constructor| |by repeat constructor].
    eapply Forall_impl; [by apply hex_digits_hex|]. intros b Hb. unfold is_hex in Hb.
    split; [lia|]. apply is_scalar_spec. lia.
Qed.

Lemma debug_str_cancel s t x y :
  forallb is_scalar s = true → forallb is_scalar t = true →
  debug_str s ++ x = debug_str t ++ y → s = t ∧ x = y.
Proof.
  unfold debug_str. intros Hs Ht E. injection E as E. rewrite <-!app_assoc in E. cbn in E.
  revert t Hs Ht E. induction s as [|c s IH]; intros [|d t]; cbn; rewrite ?andb_true_iff.
  - by intros _ _ [= ->].
  - intros _ [Hd _] E. destruct (escape_debug_visible d Hd) as (_ & b & rest & Hb & Hne).
    rewrite Hb in E. cbn in E. congruence.
  - intros [Hc _] _ E. destruct (escape_debug_visible c Hc) as (_ & b & rest & Hb & Hne).
    rewrite Hb in E. cbn in E. congruence.
  - intros [Hc Hs] [Hd Ht] E. rewrite <-!app_assoc in E.
    destruct (escape_debug_cancel c d _ _ Hc Hd E) as [-> E'].
    by destruct (IH t Hs Ht E') as [-> ->].
Qed.

Lemma debug_str_visible s :
  forallb is_scalar s = true → Forall (λ b, 0x20 ≤ b ∧ is_scalar b = true) (debug_str s).
Proof.
  intros Hs. unfold debug_str. apply Forall_cons; split; [done|]. apply Forall_app; split; [|by repeat constructor].
  induction s as [|c s IH]; [constructor|]. cbn in *. apply andb_true_iff in Hs as [Hc Hs].
  apply Forall_app; split; [by apply escape_debug_visible|by apply IH].
Qed.

(** On one line the adapter only indents. *)
Lemma pad_line s : LF ∉ s → pad true (s ++ [LF]) = lit "    " ++ s ++ [LF].
Proof.
  assert (∀ s, LF ∉ s → pad false (s ++ [LF]) = s ++ [LF]) as Hfalse.
  { clear s. induction s as [|c s IH]; cbn; [done|]. intros [Hc Hs]%not_elem_of_cons.
    rewrite (proj2 (Z.eqb_neq c LF)) by congruence. by rewrite IH. }
  destruct s as [|c s]; [done|]. intros [Hc Hs]%not_elem_of_cons. cbn.
  rewrite (proj2 (Z.eqb_neq c LF)) by congruence. by rewrite Hfalse.
Qed.

Definition scalar_header (h : rstr * rstr) : Prop :=
  forallb is_scalar h.1 = true ∧ forallb is_scalar h.2 = true.

(** Each header is one indented line. *)
Lemma debug_entry_line h :
  scalar_header h →
  debug_entry h = lit "    " ++ debug_str h.1 ++ lit ": " ++ debug_str h.2 ++ lit "," ++ [LF] ∧
  Forall (λ b, is_scalar b = true) (debug_entry h).
Proof.
  intros [H1%debug_str_visible H2%debug_str_visible].
  assert (debug_entry h = lit "    " ++ debug_str h.1 ++ lit ": " ++ debug_str h.2 ++ lit "," ++ [LF]) as ->.
  { unfold debug_entry. rewrite (app_assoc (debug_str h.2)), (app_assoc (lit ": ")), (app_assoc (debug_str h.1)).
    rewrite pad_line; [by rewrite <-!app_assoc|]. unfold LF.
    rewrite !elem_of_app. rewrite Forall_forall in H1, H2.
    intros [Hx%H1|[Hx|[Hx%H2|Hx]]]; [lia| |lia|]; by apply (bool_decide_pack _) in Hx. }
  split; [done|]. rewrite !Forall_app. split_and!; try (by repeat constructor);
    (eapply Forall_impl; [eassumption|]); by intros b [_ ?].
Qed.

Lemma debug_entry_cancel h h' x y :
  scalar_header h → scalar_header h' → debug_entry h ++ x = debug_entry h' ++ y → h = h' ∧ x = y.
Proof.
  intros Hh Hh'. destruct (debug_entry_line h Hh) as [-> _]. destruct (debug_entry_line h' Hh') as [-> _].
  destruct Hh as [Hk Hv], Hh' as [Hk' Hv'], h as [k v], h' as [k' v']. cbn [fst snd] in *.
  rewrite <-!app_assoc. cbn [app lit]. intros E. apply app_inv_head in E.
  apply debug_str_cancel in E as [-> E]; [|done..]. apply app_inv_head in E.
  apply debug_str_cancel in E as [-> E]; [|done..]. apply app_inv_head in E. by injection E as ->.
Qed.

(** From the text of a map its entries can be read back, in order. *)
Lemma debug_map_inj order order' :
  Forall scalar_header order → Forall scalar_header order' → debug_map order = debug_map order' → order = order'.
Proof.
  assert (∀ l l', Forall scalar_header l → Forall scalar_header l' →
    mjoin (debug_entry <$> l) ++ lit "}" = mjoin (debug_entry <$> l') ++ lit "}" → l = l') as Hentries.
  { intros l l' Hl. revert l'. induction Hl as [|h l Hh Hl IH]; intros l' Hl' E; destruct Hl' as [|h' l' Hh' Hl'].
    - done.
    - destruct (debug_entry_line h' Hh') as [Hx _]. cbn [fmap list_fmap mjoin list_join] in E. by rewrite Hx in E.
    - destruct (debug_entry_line h Hh) as [Hx _]. cbn [fmap list_fmap mjoin list_join] in E. by rewrite Hx in E.
    - cbn [fmap list_fmap mjoin list_join] in E. rewrite <-!app_assoc in E.
      destruct (debug_entry_cancel _ _ _ _ Hh Hh' E) as [-> E']. f_equal. by apply IH. }
  intros Ho Ho'. unfold debug_map. intros E. apply app_inv_head in E.
  destruct order as [|h order], order' as [|h' order']; [done|discriminate E|discriminate E|].
  apply Hentries; [done|done|]. exact (app_inv_head [LF] _ _ E).
Qed.

Lemma debug_map_scalar order :
  Forall scalar_header order → forallb is_scalar (debug_map order) = true.
Proof.
  intros Ho. apply forallb_forall. intros b Hb%list_elem_of_In. revert b Hb. apply Forall_forall.
  unfold debug_map. apply Forall_app; split; [by repeat constructor|].
  apply Forall_app; split; [|by repeat constructor].
  destruct order as [|h order]; [constructor|]. apply Forall_cons; split; [done|].
  induction Ho as [|h' l Hh _ IH]; [constructor|]. cbn [fmap list_fmap mjoin list_join].
  apply Forall_app; split; [by apply debug_entry_line|done].
Qed.

End debug_facts.

(** ** Claims *)

(** A [Request]'s strings are strings. *)
Definition request_strings (r : Request) : Prop :=
  forallb is_scalar (Method_fmt (method r)) = true ∧ forallb is_scalar (path r) = true ∧
  forallb is_scalar (version r) = true ∧ map_Forall (λ k v, scalar_header (k, v)) (headers r).

(** [EchoHandler::handle] reports the request: it answers 200 with a plain
    text whose length the [content-length] header gives; the text has the
    method, path, version and headers, and the body unchanged when it is valid
    UTF-8; and the part for the headers determines them, whatever quotes,
    backslashes or control characters they hold and in whatever order the map
    is iterated. *)
Theorem echo_handle_reports `{DebugTables} `{CaseMappingLaws} request order text :
  request_strings request → forallb is_scalar text = true → body request = utf8_encode text →
  order ≡ₚ map_to_list (headers request) →
  let r := echo_handle request order in
  status r = 200 ∧ resp_headers r !! lit "content-type" = Some (lit "text/plain") ∧
  resp_headers r !! lit "content-length" = Some (dec (Z.of_nat (length (resp_body r)))) ∧
  from_utf8 (resp_body r) =
    Some (lit "Method: " ++ Method_fmt (method request) ++ [LF] ++ lit "Path: " ++ path request ++ [LF] ++
          lit "Version: " ++ version request ++ [LF] ++ lit "Headers: " ++ debug_map order ++ [LF] ++
          lit "Body: " ++ text ++ [LF]) ∧
  ∀ other order', request_strings other → order' ≡ₚ map_to_list (headers other) →
    debug_map order' = debug_map order → headers other = headers request.
Proof.
  intros (Hm & Hp & Hv & Hh) Ht Hb Hord.
  assert (∀ m o, map_Forall (λ k v, scalar_header (k, v)) m → o ≡ₚ map_to_list m → Forall scalar_header o) as Hall.
  { intros m o Hmap ->. apply map_Forall_to_list in Hmap. eapply Forall_impl; [exact Hmap|]. by intros []. }
  cbv zeta. unfold echo_handle. cbn [with_body with_header status resp_headers resp_body].
  rewrite to_lowercase_ascii by done. split_and!.
  - done.
  - rewrite lookup_insert_ne by by apply (bool_decide_unpack _). apply lookup_insert_eq.
  - apply lookup_insert_eq.
  - unfold echo_text. rewrite Hb, from_utf8_lossy_encode by done.
    match goal with |- from_utf8 (utf8_encode ?x) = _ =>
      rewrite <-(app_nil_r (utf8_encode x)), (from_utf8_encode x []); [cbn [from_utf8 fmap option_fmap option_map]|] end.
    + by rewrite app_nil_r.
    + rewrite !forallb_app, Hm, Hp, Hv, Ht, debug_map_scalar by by eapply Hall. done.
  - intros other order' (_ & _ & _ & Hoh) Hord' E.
    apply debug_map_inj in E as ->; [|exact (Hall _ _ Hoh Hord')|exact (Hall _ _ Hh Hord)].
    apply map_to_list_inj. by rewrite <-Hord, <-Hord'.
Qed.

(** ** Witness: a header with a quote and a line end *)

#[local] Instance latin_tables : DebugTables := {| shown c := c <? 0x300 |}.

Definition demo_request : Request :=
  mkRequest POST (lit "/echo") (lit "HTTP/1.1") {[ lit "x-note" := lit "say " ++ [QUOTE; LF] ]} (utf8_encode (lit "hi")).

Lemma echo_handle_reports_witness :
  from_utf8 (resp_body (echo_handle demo_request (map_to_list (headers demo_request)))) =
    Some (lit "Method: POST" ++ [LF] ++ lit "Path: /echo" ++ [LF] ++ lit "Version: HTTP/1.1" ++ [LF] ++
          lit "Headers: {" ++ [LF] ++ lit "    " ++ [QUOTE] ++ lit "x-note" ++ [QUOTE] ++ lit ": " ++ [QUOTE] ++
          lit "say \" ++ [QUOTE] ++ lit "\n" ++ [QUOTE] ++ lit "," ++ [LF] ++ lit "}" ++ [LF] ++ lit "Body: hi" ++ [LF]).
Proof.
  destruct (echo_handle_reports demo_request (map_to_list (headers demo_request)) (lit "hi"))
    as (_ & _ & _ & Htext & _).
  - split_and!; [reflexivity..|]. by apply map_Forall_singleton.
  - reflexivity.
  - reflexivity.
  - reflexivity.
  - etrans; [exact Htext|]. vm_compute. reflexivity.
Defined.
