(* ===== verification/HttpConn.v ===== *)
(** * HTTP over a connection (src/http.rs, [HttpConnection])

    [read_request] is one read of the stream and [Request::parse] on what it
    returned; [send_response] is [Response::to_bytes] and [write_all]. *)

From S2P Require Import Prelude Interfaces Waker Task Buffer Io Executor Runtime AsyncIo Net Str Http.

Record HttpConnection := mkHttpConnection { stream : AsyncTcpStream }.

Section http_connection.
Context `{CM : CaseMapping} {B : Type} `{PoolIn B}.

(** The errors of [Request::parse] are [io::Error]s. *)
Definition io_error_of_HttpError (e : HttpError) : io_error :=
  match e with Http.InvalidData msg => CustomError Io.InvalidData msg end.

Definition parsed (r : result Request HttpError) : result Request io_error :=
  match r with
  | Ok q => Ok q
  | Err e => Err (io_error_of_HttpError e)
  end.

Definition read_request_prepare (c : HttpConnection) (b : B) : Op * B := read_prepare (stream c) b.

(** A byte of the buffer that has no value would panic; there is none. *)
Definition read_request_finish (r : IoResult) (b : B) : outcome (result Request io_error) * B :=
  let '(v, b) := read_finish r b in
  (v ← v;
   match v with
   | Err e => Ret (Err e)
   | Ok (_, buffer) => bytes ← expect (buffer_bytes buffer); Ret (parsed (parse bytes))
   end, b).

(** [order]: the entries of the header map as [to_bytes] walks them. *)
Definition send_response (c : HttpConnection) (response : Response) (order : list (rstr * rstr))
    : AsyncBody B (list Z) (result unit io_error) :=
  write_all (stream c) (to_bytes response order).

Lemma read_request_bytes n data bytes (b : B) :
  vec_wf data → (n ≤ buffer_len data)%nat → take n (visible data) = Some <$> bytes →
  read_request_finish (Ok (CRead n data)) b = (Ret (parsed (parse bytes)), b).
Proof.
  intros Hwf Hn Hb. unfold read_request_finish.
  assert (slice_to n data = Ret bytes) as Hs.
  { unfold slice_to. rewrite decide_True, Hb by done.
    by rewrite mapM_fmap_Some. }
  assert (length bytes = n) as Hl.
  { apply (f_equal length) in Hb. rewrite length_fmap, length_take, length_visible in Hb by done.
    unfold buffer_len in Hn. lia. }
  assert (vec_wf (new_zeroed n)) as Hz by (unfold vec_wf, new_zeroed; by rewrite vec_zeroed_capacity).
  destruct (copy_from_slice_correct bytes (new_zeroed n) Hz) as (Hvis & _).
  unfold read_finish. rewrite Hs. cbn [mbind outcome_bind fst].
  assert (buffer_bytes (copy_from_slice bytes (new_zeroed n)) = Some bytes) as ->
    by by apply buffer_bytes_Some.
  done.
Qed.

End http_connection.

(** ** Claims *)

(** A request whose body is cut short. *)
Lemma request_text_prefix m p v hs b1 b2 :
  utf8_encode (request_text m p v hs b1) `prefix_of` utf8_encode (request_text m p v hs (b1 ++ b2)).
Proof.
  exists (utf8_encode b2). rewrite <-utf8_encode_app. f_equal. unfold request_text.
  repeat (rewrite <-!app_assoc; cbn). done.
Qed.

(** C24. [HttpConnection::read_request] takes for the request what one read of
    the stream delivers: it returns what [Request::parse] makes of exactly those
    bytes, errors included. So when a client's request arrives in pieces and the
    first one ends inside the body, the request returned has the method, path,
    version and headers sent and only the part of the body that was there,
    whatever its [content-length] header says. *)
Theorem http_request_read `{CaseMapping} {B} `{IoProviderLaws B} `{PoolIn B}
    park (b : B) c counter n data bytes b' counter' :
  (∀ x, x ≤ park x) → pool_inv (the_pool b) →
  let b0 := put_pool (tail (the_pool b)) b in
  tokens_below (CpuIoState_new b0) counter →
  ask park (b0, counter) (OpRead (stream_fd (stream c)) 0 BUFFER_SIZE) (Ok (CRead n data)) (b', counter') →
  vec_wf data → (n ≤ buffer_len data)%nat → take n (visible data) = Some <$> bytes →
  let returns q := ∃ fuel, Runtime_block_on (async_future (once (read_request_prepare c) read_request_finish))
                     park fuel (Ok b) Unresumed counter = Ret (q, None, counter') in
  returns (parsed (parse bytes)) ∧
  ∀ m p v hs b1 b2,
    words_ok [m; p; v] = true → Forall header_ok hs →
    forallb is_scalar (request_text m p v hs b1) = true →
    bytes = utf8_encode (request_text m p v hs b1) →
    bytes `prefix_of` utf8_encode (request_text m p v hs (b1 ++ b2)) ∧
    returns (Ok (mkRequest (Method_from m) p v (record_headers hs ∅) (utf8_encode (relined b1)))).
Proof.
  intros Hp Hpool b0 Hbel Hask Hwf Hn Hb returns.
  assert (returns (parsed (parse bytes))) as Hret.
  { exact (block_on_async (read_request_prepare c) read_request_finish park b counter _ _ _ b' counter'
      _ b' Hp Hbel (read_prepare_op (stream c) b Hpool) Hask (read_request_bytes n data bytes b' Hwf Hn Hb)). }
  split; [exact Hret|]. intros m p v hs b1 b2 Hw Hhs Hsc ->.
  split; [apply request_text_prefix|]. rewrite parse_request_text in Hret by done. exact Hret.
Qed.

(** [HttpConnection::send_response], with any backend that answers its
    writes: it submits the writes of [write_all_ref] on the bytes of the
    response and returns the result of that loop; when it returns [Ok], what the
    backend reported as written is, in order, the head of the response in the
    order the header map was walked, and then the body. *)
Theorem http_response_sent `{CaseMapping} {B} `{IoProviderLaws B}
    park (b : B) c response order rs ops o counter st' :
  (∀ x, x ≤ park x) → tokens_below (CpuIoState_new b) counter →
  write_all_ref (stream c) (to_bytes response order) rs = (ops, Some o) →
  asks park (b, counter) (zip ops rs) st' →
  (∃ fuel, Runtime_block_on (async_future (send_response c response order)) park fuel (Ok b)
             Unresumed counter = (λ v, (v, None, st'.2)) <$> o) ∧
  (o = Ret (Ok tt) →
   accepted (zip ops rs) = Some <$> utf8_encode (response_head response order) ++ resp_body response).
Proof.
  intros Hp Hbel Href Hasks. split.
  - by eapply write_all_blocks.
  - intros ->. rewrite <-to_bytes_head. by eapply write_all_ref_accepted.
Qed.

(** ** Witnesses *)

Definition demo_piece : list Z :=
  utf8_encode (request_text (lit "POST") (lit "/") (lit "HTTP/1.1") demo_headers (lit "ab")).

Lemma http_request_read_witness :
  let b := (mkScript [Ok (CRead (length demo_piece) (from_slice demo_piece))] ∅, [] : Pool) in
  ∃ fuel, Runtime_block_on
      (async_future (once (read_request_prepare (mkHttpConnection (mkAsyncTcpStream 7))) read_request_finish))
      (λ c, c) fuel (Ok b) Unresumed 1 =
    Ret (Ok (mkRequest POST (lit "/") (lit "HTTP/1.1") (record_headers demo_headers ∅) (lit "ab")), None, 2).
Proof.
  intros b.
  destruct (http_request_read (λ c, c) b (mkHttpConnection (mkAsyncTcpStream 7)) 1 (length demo_piece)
    (from_slice demo_piece) demo_piece (mkScript [] ∅, []) 2) as [_ Hpiece].
  - intros c. apply Z.le_refl.
  - split; [vm_compute; lia|constructor].
  - apply script_below. lia.
  - apply pair_ask, (script_ask (λ c, c)). vm_compute. split; congruence.
  - apply Nat.leb_le. vm_compute. reflexivity.
  - apply Nat.leb_le. vm_compute. reflexivity.
  - vm_compute. reflexivity.
  - destruct (Hpiece (lit "POST") (lit "/") (lit "HTTP/1.1") demo_headers (lit "ab") (lit "cd")) as [_ Hrun].
    + reflexivity.
    + repeat constructor; by apply (bool_decide_unpack _).
    + vm_compute. reflexivity.
    + reflexivity.
    + exact Hrun.
Defined.

Lemma http_response_sent_witness :
  let r := mkResponse 404 (lit "HTTP/1.1") ∅ [104; 105] in
  let c := mkHttpConnection (mkAsyncTcpStream 7) in
  let answers := [Ok (CWrite 20); Ok (CWrite 8)] in
  let ops := (write_all_ref (stream c) (to_bytes r []) answers).1 in
  (∃ fuel, Runtime_block_on (async_future (send_response c r [])) (λ x, x) fuel
             (Ok (mkScript answers ∅)) Unresumed 1 = Ret (Ok tt, None, 3)) ∧
  accepted (zip ops answers) = Some <$> utf8_encode (response_head r []) ++ [104; 105].
Proof.
  intros r c answers ops.
  assert (asks (λ x, x) (mkScript answers ∅, 1) (zip ops answers) (mkScript [] ∅, 3)) as Ha.
  { repeat (eapply asks_cons; [apply script_ask; vm_compute; split; congruence|]). constructor. }
  destruct (http_response_sent (λ x, x) (mkScript answers ∅) c r [] answers ops
              (Ret (Ok tt)) 1 (mkScript [] ∅, 3)) as [Hrun Hacc].
  - intros x. apply Z.le_refl.
  - split; [lia|]. split; cbn; intros t Ht; by apply not_elem_of_empty in Ht.
  - reflexivity.
  - exact Ha.
  - split; [exact Hrun|]. exact (Hacc eq_refl).
Defined.
