(* ===== verification/HttpEcho.v ===== *)
(** * The HTTP server of the examples (examples/http_echo.rs)

    One asynchronous function that runs until an accept fails: it accepts a
    connection, reads once, writes a fixed response with one write and drops
    the connection before it accepts the next. What it drops is recorded; the
    output on the terminal is left out. *)

From S2P Require Import Prelude Interfaces Waker Task Buffer Io Executor Runtime AsyncIo Net Str.

(** The loop of [main] over its arguments: the address to listen on. *)
Fixpoint addr_loop (args : list rstr) (addr : rstr) : rstr :=
  match args with
  | [] => addr
  | arg :: args =>
      if bool_decide (arg = lit "--addr") || bool_decide (arg = lit "-a") then
        match args with
        | v :: args => addr_loop args v
        | [] => addr
        end
      else addr_loop args addr
  end.

Definition main_addr (args : list rstr) : rstr := addr_loop args (lit "127.0.0.1:8080").

(** The static response. *)
Definition response : list Z :=
  lit "HTTP/1.1 200 OK" ++ [CR; LF] ++ lit "Content-Length: 12" ++ [CR; LF; CR; LF] ++ lit "Hello world!".

Section http_echo.
Context {B : Type} `{PoolIn B}.

(** Where the server can be suspended, with the descriptors closed so far and
    the stream [handle_client] owns. *)
Inductive ServerPoint :=
  | Accepting (closed : list Z)
  | Reading (closed : list Z) (stream : AsyncTcpStream)
  | Writing (closed : list Z) (stream : AsyncTcpStream).

(** The top of the loop. *)
Definition server_loop (l : AsyncTcpListener) (closed : list Z) (b : B)
    : turn ServerPoint (list Z) * B :=
  let '(op, b) := accept_prepare l b in (Await op (Accepting closed), b).

(** [handle_client] up to its read, and from the read to its write or its early
    return; the stream is dropped when it returns. *)
Definition client_start (closed : list Z) (stream : AsyncTcpStream) (b : B)
    : turn ServerPoint (list Z) * B :=
  let '(op, b) := read_prepare stream b in (Await op (Reading closed stream), b).

Definition client_read (l : AsyncTcpListener) (closed : list Z) (stream : AsyncTcpStream)
    (r : IoResult) (b : B) : turn ServerPoint (list Z) * B :=
  let '(v, b) := read_finish r b in
  match v with
  | Ret (Ok (bytes_read, data)) =>
      match slice_to bytes_read data with
      | Ret _ => let '(op, b) := write_prepare stream response b in (Await op (Writing closed stream), b)
      | _ => (Unwind, b)
      end
  | Ret (Err _) => server_loop l (closed ++ [stream_fd stream]) b
  | _ => (Unwind, b)
  end.

(** When an accept fails the loop ends and the listener is dropped. *)
Definition server_resume (l : AsyncTcpListener) (s : ServerPoint) (r : IoResult) (b : B)
    : turn ServerPoint (list Z) * B :=
  match s with
  | Accepting closed =>
      let '(v, b) := accept_finish r b in
      match v with
      | Ret (Ok (stream, _)) => client_start closed stream b
      | Ret (Err _) => (Return (closed ++ [listener_fd l]), b)
      | _ => (Unwind, b)
      end
  | Reading closed stream => client_read l closed stream r b
  | Writing closed stream =>
      let '(_, b) := write_finish r b in server_loop l (closed ++ [stream_fd stream]) b
  end.

(** The future of [main], given what binding the listener gave. *)
Definition http_echo (bound : result AsyncTcpListener io_error) : AsyncBody B ServerPoint (list Z) :=
  match bound with
  | Ok l => mkAsyncBody (server_loop l []) (server_resume l)
  | Err _ => mkAsyncBody (λ b, (Return [], b)) (λ _ _ b, (Unwind, b))
  end.

End http_echo.

(** ** What the server asks for *)

(** One connection: the operations and answers, and its descriptor. *)
Inductive conversation (l : Z) : list (Op * IoResult) * Z → Prop :=
  | served c addr len n data r :
      conversation l
        ([(OpAccept l, Ok (CAccept c addr)); (OpRead c 0 len, Ok (CRead n data));
          (OpWrite c 0 (from_slice response), r)], c)
  | read_failed c addr len r :
      (∀ n data, r ≠ Ok (CRead n data)) →
      conversation l ([(OpAccept l, Ok (CAccept c addr)); (OpRead c 0 len, r)], c).

(** An answer that is not a connection. *)
Definition refused (r : IoResult) : Prop := ∀ c addr, r ≠ Ok (CAccept c addr).

Section http_echo_facts.
Context {B : Type} `{IoProviderLaws B} `{!PoolIn B} `{!PoolInLaws B}.
Implicit Types (b : B).

Lemma read_prepare_read s b :
  ∃ len pool, read_prepare s b = (OpRead (stream_fd s) 0 len, put_pool pool b).
Proof. unfold read_prepare. destruct (get BUFFER_SIZE (the_pool b)) as [buf pool]. eauto. Qed.

#[local] Opaque read_prepare.

Lemma client_read_cases l closed stream r b :
  (∃ n data, r = Ok (CRead n data) ∧
    (client_read l closed stream r b = (Unwind, b) ∨
     client_read l closed stream r b =
       (Await (OpWrite (stream_fd stream) 0 (from_slice response)) (Writing closed stream), b))) ∨
  ((∀ n data, r ≠ Ok (CRead n data)) ∧
   client_read l closed stream r b = server_loop l (closed ++ [stream_fd stream]) b).
Proof.
  unfold client_read, read_finish. destruct r as [[]|e]; cbn; try (by right). left. eexists _, _. split; [done|].
  destruct (slice_to bytes_read data) as [bytes| |]; cbn; [|by left..].
  destruct (slice_to bytes_read _); [by right|by left..].
Qed.

(** The turns of the server keep what the backend has outstanding. *)
Lemma server_outstanding l s r b op s' b' :
  server_resume l s r b = (Await op s', b') → outstanding b' ⊆ outstanding b.
Proof.
  destruct s as [closed|closed stream|closed stream]; cbn [server_resume].
  - unfold accept_finish. destruct r as [[fd addr| | | | | | | |]|e]; [|intros Hr; discriminate Hr..].
    unfold client_start. destruct (read_prepare_read (mkAsyncTcpStream fd) b) as (len & pool & ->).
    intros [= <- <- <-]. by rewrite put_pool_outstanding.
  - destruct (client_read_cases l closed stream r b) as [(n & data & _ & [E|E])|[_ E]];
      rewrite E; [discriminate|by intros [= <- <- <-]..].
  - by intros [= <- <- <-].
Qed.

(** From the top of the loop: conversations, and then an accept that fails. *)
Lemma server_runs park l f n closed b counter trace out st :
  resume f = server_resume l → (length trace < n)%nat →
  runs f park (server_loop l closed b, counter) trace (Ret out) st →
  ∃ convs r, Forall (conversation (listener_fd l)) convs ∧ refused r ∧
    trace = mjoin convs.*1 ++ [(OpAccept (listener_fd l), r)] ∧
    out = closed ++ convs.*2 ++ [listener_fd l].
Proof.
  intros Hf. revert closed b counter trace. induction n as [|n IH]; intros closed b counter trace Hn; [lia|].
  assert (∀ closed b counter trace c conv, (length conv + length trace < S n)%nat → (0 < length conv)%nat →
    conversation (listener_fd l) (conv, c) →
    runs f park (server_loop l (closed ++ [c]) b, counter) trace (Ret out) st →
    ∃ convs r, Forall (conversation (listener_fd l)) convs ∧ refused r ∧
      conv ++ trace = mjoin convs.*1 ++ [(OpAccept (listener_fd l), r)] ∧
      out = closed ++ convs.*2 ++ [listener_fd l]) as Hnext.
  { intros closed' b' counter' trace' c conv Hl Hl' Hconv Hruns.
    destruct (IH (closed' ++ [c]) b' counter' trace') as (convs & r & Hall & Hr & -> & ->); [lia|done|].
    exists ((conv, c) :: convs), r. split_and!; [by constructor|done|by cbn; rewrite <-app_assoc|].
    by rewrite <-app_assoc. }
  unfold server_loop at 1. cbn [accept_prepare]. intros Hruns.
  inversion Hruns as [| |? ? ? ? r b1 c1 trace1 ? ? _ Hrest]; subst. clear Hruns. rewrite Hf in Hrest.
  cbn [server_resume accept_finish] in Hrest.
  destruct r as [[fd addr| | | | | | | |]|e];
    [|inversion Hrest; subst; eexists [], _; split; [apply Forall_nil_2|];
      split; [|split; reflexivity]; intros ? ?; discriminate..].
  unfold client_start in Hrest.
  destruct (read_prepare_read (mkAsyncTcpStream fd) b1) as (len & pool & Hrp). rewrite Hrp in Hrest.
  inversion Hrest as [| |? ? ? ? r2 b2 c2 trace2 ? ? _ Hrest2]; subst. clear Hrest. rewrite Hf in Hrest2.
  cbn [server_resume stream_fd length] in Hrest2, Hn.
  destruct (client_read_cases l closed (mkAsyncTcpStream fd) r2 b2)
    as [(n2 & data & -> & [E|E])|[Hr2 E]]; rewrite E in Hrest2; cbn [stream_fd] in Hrest2.
  - inversion Hrest2.
  - inversion Hrest2 as [| |? ? ? ? r3 b3 c3 trace3 ? ? _ Hrest3]; subst. rewrite Hf in Hrest3.
    cbn in Hrest3, Hn. refine (Hnext closed b3 c3 trace3 fd [_; _; _] _ _ (served _ _ _ _ _ _ _) Hrest3);
      cbn; lia.
  - refine (Hnext closed b2 c2 trace2 fd [_; _] _ _ (read_failed _ _ _ _ _ Hr2) Hrest2); cbn; lia.
Qed.

End http_echo_facts.

(** ** Claim *)

(** C18. The HTTP server of the examples: for all answers of the backend with
    which the server comes to its end, [block_on] returns, and its operations
    were conversations (accept a connection, read it once, and, if that worked,
    write the whole response to it), one after the other and in the order of
    the accepts, and then an accept that failed; the descriptors it closed are
    those of all the connections, each once and in that order, and then the
    listener. *)
Theorem http_echo_serves {B} `{IoProviderLaws B} `{!PoolIn B} `{!PoolInLaws B}
    park (b : B) l counter trace out st :
  (∀ c, c ≤ park c) → tokens_below (CpuIoState_new b) counter →
  runs (http_echo (Ok l)) park (enter (http_echo (Ok l)) b, counter) trace (Ret out) st →
  (∃ fuel, Runtime_block_on (async_future (http_echo (Ok l))) park fuel (Ok b) Unresumed counter =
           Ret (out, None, st.2)) ∧
  ∃ convs r, Forall (conversation (listener_fd l)) convs ∧ refused r ∧
    trace = mjoin convs.*1 ++ [(OpAccept (listener_fd l), r)] ∧
    out = convs.*2 ++ [listener_fd l].
Proof.
  intros Hp Hbel Hruns. split.
  - apply (block_on_runs (http_echo (Ok l)) park Hp (server_outstanding l) b _ b counter trace (Ret out) st
      eq_refl Hbel Hruns).
  - exact (server_runs park l (http_echo (Ok l)) (S (length trace)) [] b counter trace out st eq_refl
      (Nat.lt_succ_diag_r _) Hruns).
Qed.

(** Two connections: one is served, the read of the other fails. *)
Definition demo_answers : list IoResult :=
  [Ok (CAccept 5 None); Ok (CRead 2 (from_slice [71; 69])); Ok (CWrite 51);
   Ok (CAccept 6 None); Err (Io (OsError 104)); Err (Io (OsError 22))].

Definition demo_echo : AsyncBody (Script * Pool) ServerPoint (list Z) :=
  http_echo (Ok (mkAsyncTcpListener 3)).

Lemma demo_echo_runs :
  ∃ trace, length trace = 6%nat ∧
    runs demo_echo (λ c, c) (enter demo_echo (mkScript demo_answers ∅, []), 1) trace (Ret [5; 6; 3])
      ((mkScript [] ∅, []), 7).
Proof.
  eexists. split; cycle 1.
  - do 6 (eapply runs_await; [apply pair_ask, (script_ask (λ c, c)); vm_compute; split; congruence|]).
    apply runs_return.
  - reflexivity.
Qed.

Lemma http_echo_serves_witness :
  ∃ fuel, Runtime_block_on (async_future demo_echo) (λ c, c) fuel (Ok (mkScript demo_answers ∅, []))
            Unresumed 1 = Ret ([5; 6; 3], None, 7).
Proof.
  destruct demo_echo_runs as (trace & _ & Hruns).
  destruct (http_echo_serves (λ c, c) (mkScript demo_answers ∅, []) (mkAsyncTcpListener 3) 1 trace [5; 6; 3]
    ((mkScript [] ∅, []), 7)) as [Hrun _].
  - intros c. apply Z.le_refl.
  - apply script_below. lia.
  - exact Hruns.
  - exact Hrun.
Defined.
