(* ===== verification/FileDemo.v ===== *)
(** * Reading a file on io_uring, and the file example (src/fs.rs, examples/async_file_demo.rs)

    [AsyncFile::read_at] over the io_uring backend, and on top of it the
    example, which writes a temporary file with the standard library, reads it
    back with the runtime and asserts that it is the same. [file_io_demo.rs] is
    the same program. *)

From S2P Require Import Prelude Interfaces Waker Task Buffer Io Executor Runtime AsyncIo Net Fs Sockaddr Uring NetUring Str.

(** ** [main] of the example *)

Definition test_data : list Z := utf8_encode (lit "Hello, async file I/O!").

Section file_demo.
Context {B : Type} `{PoolIn B}.

(** What [NamedTempFile::new], [write_all] and [AsyncFile::open] return. The
    value of the function goes with the descriptor it closes. *)
Definition file_demo_enter (temp_file written : result unit io_error) (opened : result AsyncFile io_error)
    (b : B) : turn AsyncFile (result unit io_error * list Z) * B :=
  match temp_file with
  | Err e => (Return (Err e, []), b)
  | Ok _ =>
      match written with
      | Err e => (Return (Err e, []), b)
      | Ok _ =>
          match opened with
          | Err e => (Return (Err e, []), b)
          | Ok async_file => let '(op, b) := read_at_prepare async_file 0 1024 b in (Await op async_file, b)
          end
      end
  end.

(** The two assertions; slicing past the end panics as well. *)
Definition file_demo_resume (async_file : AsyncFile) (r : IoResult) (b : B)
    : turn AsyncFile (result unit io_error * list Z) * B :=
  let '(v, b) := read_at_finish r b in
  match v with
  | Ret (Ok (bytes_read, data)) =>
      (if decide (bytes_read = length test_data) then
         match slice_to bytes_read data with
         | Ret bytes => if decide (bytes = test_data) then Return (Ok tt, [file_fd async_file]) else Unwind
         | _ => Unwind
         end
       else Unwind, b)
  | Ret (Err e) => (Return (Err e, [file_fd async_file]), b)
  | _ => (Unwind, b)
  end.

Definition file_demo (temp_file written : result unit io_error) (opened : result AsyncFile io_error)
    : AsyncBody B AsyncFile (result unit io_error * list Z) :=
  mkAsyncBody (file_demo_enter temp_file written opened) file_demo_resume.

End file_demo.

(** ** [read_at] on io_uring *)

(** The entry asks for the part of the file the caller named, into a buffer of
    that length, and the answer is what the kernel put there. *)
Lemma uring_read_at {R} `{IoUringLaws R} park (u u1 : UringBackend R) f offset len counter e op buf m r1 n v k :
  uring_inv u → 0 ≤ counter < u64_max →
  submit_entry (OpReadFile (file_fd f) offset len) counter (uring_mem u) = (e, PReadFile op buf, m) →
  ring_push e (ring u) = Some r1 → (uring_submit (OpReadFile (file_fd f) offset len) counter u).2 = u1 →
  kernel_answers u1 counter k (Z.of_nat n) → kernel_heap (polls k u1) !! buf = Some (BBuf v) →
  sqe_body e = SqeRead (file_fd f) buf (as_u32 len) offset ∧
  ask park (u, counter) (OpReadFile (file_fd f) offset len) (Ok (CReadFile n (set_len n v)))
    (polls (S k) u1, Nat.iter (S k) park (counter + 1)).
Proof.
  intros Hinv Hc He Hpush Hs Hk Hv. split.
  { cbn in He. unfold submit_read_file, submit_read_buf in He. destruct (get len _) as [b pl].
    cbn in He. by injection He as <- _ <- _. }
  destruct (uring_op_ask park _ counter u u1 _ _ _ _ k _ Hinv Hc He Hpush Hs Hk) as (m' & Hag & Hask).
  cbn [complete_op] in Hask. rewrite (complete_read_gives _ _ _ _ v) in Hask; [exact Hask|].
  rewrite Hag by apply list_elem_of_here. exact Hv.
Qed.

Lemma slice_to_front n bytes v :
  (n ≤ capacity v)%nat → take n (Buffer.mem v) = Some <$> bytes → slice_to n (set_len n v) = Ret bytes.
Proof.
  intros Hn Hb. unfold slice_to. rewrite decide_True by done. unfold visible. cbn.
  rewrite take_take, Nat.min_id, Hb. by rewrite mapM_fmap_Some.
Qed.

#[local] Opaque test_data.

Lemma file_demo_one_await {B} f r (b : B) o s b' : file_demo_resume f r b ≠ (Await o s, b').
Proof.
  unfold file_demo_resume. destruct r as [[]|e]; cbn [read_at_finish]; try discriminate.
  destruct (decide (_ = length test_data)); [|discriminate].
  destruct (slice_to _ _) as [bytes| |]; [|discriminate..]. destruct (decide (bytes = test_data)); discriminate.
Qed.

(** The example passes on io_uring: when the kernel reports as many bytes as the
    temporary file has and has put them into the buffer, both assertions hold,
    [main] returns [Ok] and has closed the file. *)
Theorem file_demo_passes {R} `{IoUringLaws R} park (u u1 : UringBackend R) f counter e op buf m r1 v k :
  (∀ c, c ≤ park c) → uring_inv u →
  0 ≤ counter < u64_max → (∀ t, t ∈ dom (pending_ops u) → t < counter) →
  submit_entry (OpReadFile (file_fd f) 0 1024) counter (uring_mem u) = (e, PReadFile op buf, m) →
  ring_push e (ring u) = Some r1 → (uring_submit (OpReadFile (file_fd f) 0 1024) counter u).2 = u1 →
  kernel_answers u1 counter k (Z.of_nat (length test_data)) →
  kernel_heap (polls k u1) !! buf = Some (BBuf v) → (length test_data ≤ capacity v)%nat →
  take (length test_data) (Buffer.mem v) = Some <$> test_data →
  ∃ fuel, Runtime_block_on (async_future (file_demo (Ok tt) (Ok tt) (Ok f))) park fuel (Ok u) Unresumed counter =
          Ret (Ok tt, [file_fd f], None, Nat.iter (S k) park (counter + 1)).
Proof.
  intros Hp Hinv Hc Hpend He Hpush Hs Hk Hv Hcap Hbytes.
  destruct (uring_read_at park u u1 f 0 1024 counter e op buf m r1 (length test_data) v k Hinv Hc He Hpush Hs Hk Hv)
    as [_ Hask].
  set (a := file_demo (Ok tt) (Ok tt) (Ok f) : AsyncBody (UringBackend R) _ _).
  apply (block_on_runs a park Hp) with
    (b0 := u) (tn := Await (OpReadFile (file_fd f) 0 1024) f)
    (trace := [(OpReadFile (file_fd f) 0 1024, Ok (CReadFile (length test_data) (set_len (length test_data) v)))])
    (o := Ret (Ok tt, [file_fd f])) (st := (polls (S k) u1, Nat.iter (S k) park (counter + 1))).
  - intros s r b o s' b' E. destruct (file_demo_one_await s r b o s' b' E).
  - reflexivity.
  - apply pending_below; [exact (proj1 Hc)|exact Hpend].
  - eapply runs_await; [exact Hask|]. cbn [a file_demo resume]. unfold file_demo_resume. cbn [read_at_finish].
    rewrite decide_True by reflexivity. rewrite (slice_to_front _ _ _ Hcap Hbytes).
    rewrite decide_True by reflexivity. apply runs_return.
Qed.

(** A ring whose kernel answers a read with the contents of the file. *)
#[local] Instance file_ring : IoUring (option (IoToken * nat)) := {
  ring_push e r := match sqe_body e with SqeRead _ buf _ _ => Some (Some (user_data e, buf)) | _ => Some r end;
  ring_submit _ r := r;
  ring_completion h r :=
    match r with
    | Some (t, a) => ([(t, Z.of_nat (length test_data))], alter (kernel_write test_data) a h, None)
    | None => ([], h, None)
    end
}.

#[local] Instance file_ring_laws : IoUringLaws (option (IoToken * nat)).
Proof.
  split. intros h [[t b]|]; cbn; [|done]. intros a. destruct (decide (b = a)) as [->|].
  - rewrite lookup_alter_eq. by rewrite fmap_is_Some.
  - by rewrite lookup_alter_ne.
Qed.

Definition demo_file_uring : UringBackend (option (IoToken * nat)) := mkUringBackend None ∅ (mkMem ∅ 0 []).

Lemma file_demo_passes_witness :
  ∃ fuel, Runtime_block_on (async_future (file_demo (Ok tt) (Ok tt) (Ok (mkAsyncFile 4)))) (λ c, c) fuel
            (Ok demo_file_uring) Unresumed 1 = Ret (Ok tt, [4], None, 2).
Proof.
  pose (op := OpReadFile 4 0 1024).
  pose (sub := submit_entry op 1 (mkMem ∅ 0 [])).
  apply (file_demo_passes (λ c, c) demo_file_uring (uring_submit op 1 demo_file_uring).2
    (mkAsyncFile 4) 1 sub.1.1 op 0%nat sub.2 (Some (1, 0%nat)) (vec_write test_data (vec_zeroed 1024)) 0).
  - intros c. apply Z.le_refl.
  - apply uring_new_inv. intros a _. apply lookup_empty.
  - vm_compute. split; congruence.
  - intros t Ht. by apply not_elem_of_empty in Ht.
  - vm_compute. reflexivity.
  - vm_compute. reflexivity.
  - reflexivity.
  - split; [intros j Hj; lia|]. split; apply (bool_decide_unpack _); vm_compute; reflexivity.
  - vm_compute. reflexivity.
  - apply Nat.leb_le. vm_compute. reflexivity.
  - vm_compute. reflexivity.
Defined.
