(* ===== verification/UdpDemo.v ===== *)
(** * The datagram example (examples/udp_echo_demo.rs)

    One asynchronous block that sends datagrams to its own socket and receives
    them back. What it prints is recorded as events with the values shown. *)

From stdpp Require Import pretty.
From S2P Require Import Prelude Interfaces Waker Task Buffer Io Executor Runtime AsyncIo Net Str HttpHandlers.

(** ** The program *)

Inductive UdpEvent :=
  | BindFailed (e : io_error)
  | LocalAddrFailed (e : io_error)
  | BoundTo (addr : SocketAddr)
  | SendFailed (e : io_error)
  | Sent (bytes : nat) (data : rstr)
  | ReceiveFailed (e : io_error)
  | Received (bytes : nat) (from : SocketAddr) (data : rstr)
  | MessageSendFailed (i : Z) (e : io_error)
  | MessageSent (i : Z) (bytes : nat)
  | ResponseFailed (i : Z) (e : io_error)
  | Response (data : rstr)
  | UnexpectedSuccess (bytes : nat)
  | ExpectedError (e : io_error)
  | Completed.

Definition demo_addr : SocketAddr := V4 [127; 0; 0; 1] 8081.
Definition invalid_addr : SocketAddr := V4 [127; 0; 0; 1] 0.
Definition hello : list Z := utf8_encode (lit "Hello, async UDP!").
Definition message (i : Z) : list Z := utf8_encode (lit (String.append "Message " (pretty i))).

Section udp_demo.
Context {B : Type} `{PoolIn B}.

(** The system call of [send_to]. *)
Variable sendto : Z → list Z → SocketAddr → B → result nat io_error * B.

(** Suspended in a [recv_from], with the events so far and the receive buffer;
    the second is in round [i] of the loop, with [n] rounds to come after it. *)
Inductive UdpPoint :=
  | FirstReply (events : list UdpEvent) (buf : list Z)
  | NextReply (n : nat) (i : Z) (events : list UdpEvent) (buf : list Z).

(** The value of the block, and the descriptors it closes. *)
Abbreviation udp_turn := (turn UdpPoint (list UdpEvent * list Z)).

(** [&buf[..n]] *)
Definition array_to (n : nat) (buf : list Z) : outcome (list Z) :=
  if decide (n ≤ length buf)%nat then Ret (take n buf) else Panic.

(** The third part. *)
Definition udp_last (s : AsyncUdpSocket) (events : list UdpEvent) (b : B) : udp_turn * B :=
  let '(r, b, _) := send_to sendto s (utf8_encode (lit "Test error")) invalid_addr b in
  (Return (events ++ [match r with Ok bytes => UnexpectedSuccess bytes | Err e => ExpectedError e end; Completed],
           [socket_fd s]), b).

(** [for i in 1..=3], from round [i] on with [n] rounds to go. *)
Fixpoint udp_rounds (s : AsyncUdpSocket) (n : nat) (i : Z) (events : list UdpEvent) (buf : list Z) (b : B)
    : udp_turn * B :=
  match n with
  | O => udp_last s events b
  | S n =>
      let '(r, b, _) := send_to sendto s (message i) demo_addr b in
      match r with
      | Err e => udp_rounds s n (i + 1) (events ++ [MessageSendFailed i e]) buf b
      | Ok bytes =>
          let '(op, b) := recv_from_prepare s buf b in
          (Await op (NextReply n i (events ++ [MessageSent i bytes]) buf), b)
      end
  end.

Definition udp_resume (s : AsyncUdpSocket) (p : UdpPoint) (r : IoResult) (b : B) : udp_turn * B :=
  match p with
  | FirstReply events buf =>
      let '(v, b) := recv_from_finish buf r b in
      match v with
      | Ret (Ok (bytes_read, sender), buf) =>
          match array_to bytes_read buf with
          | Ret data => udp_rounds s 3 1 (events ++ [Received bytes_read sender (from_utf8_lossy data)]) buf b
          | _ => (Unwind, b)
          end
      | Ret (Err e, _) => (Return (events ++ [ReceiveFailed e], [socket_fd s]), b)
      | _ => (Unwind, b)
      end
  | NextReply n i events buf =>
      let '(v, b) := recv_from_finish buf r b in
      match v with
      | Ret (Ok (bytes_read, _), buf) =>
          match array_to bytes_read buf with
          | Ret data => udp_rounds s n (i + 1) (events ++ [Response (from_utf8_lossy data)]) buf b
          | _ => (Unwind, b)
          end
      | Ret (Err e, buf) => udp_rounds s n (i + 1) (events ++ [ResponseFailed i e]) buf b
      | _ => (Unwind, b)
      end
  end.

(** What [bind] and [local_addr] return are arguments. *)
Definition udp_enter (bound : result AsyncUdpSocket io_error) (local_addr : result SocketAddr io_error) (b : B)
    : udp_turn * B :=
  match bound with
  | Err e => (Return ([BindFailed e], []), b)
  | Ok s =>
      match local_addr with
      | Err e => (Return ([LocalAddrFailed e], [socket_fd s]), b)
      | Ok addr =>
          let '(r, b, _) := send_to sendto s hello demo_addr b in
          match r with
          | Err e => (Return ([BoundTo addr; SendFailed e], [socket_fd s]), b)
          | Ok bytes =>
              let buf := replicate 1024 0 in
              let '(op, b) := recv_from_prepare s buf b in
              (Await op (FirstReply [BoundTo addr; Sent bytes (from_utf8_lossy hello)] buf), b)
          end
      end
  end.

Definition udp_demo (bound : result AsyncUdpSocket io_error) (local_addr : result SocketAddr io_error)
    : AsyncBody B UdpPoint (list UdpEvent * list Z) :=
  mkAsyncBody (udp_enter bound local_addr)
    (match bound with Ok s => udp_resume s | Err _ => λ _ _ b, (Unwind, b) end).

End udp_demo.

(** ** A network that echoes *)

Section udp_facts.
Context {B : Type} `{IoProviderLaws B} `{!PoolIn B} `{!PoolInLaws B}.
Variable sendto : Z → list Z → SocketAddr → B → result nat io_error * B.

(** Sending is none of the backend's operations. *)
Hypothesis Hsendto : ∀ fd msg addr b, outstanding (sendto fd msg addr b).2 = outstanding b.

Variable park : Z → Z.
Implicit Types (b : B) (s : AsyncUdpSocket).

(** The receive buffer after a message. *)
Definition received_into (msg buf : list Z) : list Z := msg ++ drop (length msg) buf.

(** [msg] is sent whole, and the backend answers the receive that follows with
    it. *)
Inductive echoed s (buf : list Z) (msg : list Z) : B → Z → B → Z → Prop :=
  echoed_intro b counter b1 op b2 data b3 counter' :
    sendto (socket_fd s) msg demo_addr b = (Ok (length msg), b1) →
    recv_from_prepare s buf b1 = (op, b2) →
    ask park (b2, counter) op (Ok (CUdpRecv (length msg) data demo_addr)) (b3, counter') →
    (length msg ≤ buffer_len data)%nat → take (length msg) (visible data) = Some <$> msg →
    echoed s buf msg b counter (put_pool (recycle data (the_pool b3)) b3) counter'.

(** Messages [message i], [message (i + 1)], ... are echoed. *)
Inductive echoed_all s : nat → Z → list Z → B → Z → B → Z → Prop :=
  | echoed_none i buf b counter : echoed_all s 0 i buf b counter b counter
  | echoed_more n i buf b counter b1 counter1 b2 counter2 :
      echoed s buf (message i) b counter b1 counter1 → (length (message i) ≤ length buf)%nat →
      echoed_all s n (i + 1) (received_into (message i) buf) b1 counter1 b2 counter2 →
      echoed_all s (S n) i buf b counter b2 counter2.

Lemma received_into_length msg buf : (length msg ≤ length buf)%nat → length (received_into msg buf) = length buf.
Proof. intros Hl. unfold received_into. rewrite length_app, length_drop. lia. Qed.

Lemma reply_finish msg data buf b :
  (length msg ≤ buffer_len data)%nat → take (length msg) (visible data) = Some <$> msg → (length msg ≤ length buf)%nat →
  recv_from_finish buf (Ok (CUdpRecv (length msg) data demo_addr)) b =
    (Ret (Ok (length msg, demo_addr), received_into msg buf), put_pool (recycle data (the_pool b)) b) ∧
  array_to (length msg) (received_into msg buf) = Ret msg.
Proof.
  intros Hd Hm Hl. split.
  - cbn [recv_from_finish]. rewrite Nat.min_l by done. unfold slice_to. rewrite decide_True by done.
    by rewrite Hm, mapM_fmap_Some.
  - unfold array_to, received_into. rewrite decide_True by (rewrite length_app; lia). by rewrite take_app_length.
Qed.

Lemma recv_from_prepare_outstanding s buf b op b' :
  recv_from_prepare s buf b = (op, b') → outstanding b' = outstanding b.
Proof.
  unfold recv_from_prepare. destruct (get _ _) as [buffer pool]. intros [= _ <-]. apply put_pool_outstanding.
Qed.

Lemma udp_rounds_outstanding s n i events buf b op p b' :
  udp_rounds sendto s n i events buf b = (Await op p, b') → outstanding b' = outstanding b.
Proof.
  revert i events b. induction n as [|n IH]; intros i events b; cbn [udp_rounds].
  { unfold udp_last, send_to. destruct (sendto _ _ _ b) as [r b1]. discriminate. }
  unfold send_to. pose proof (Hsendto (socket_fd s) (message i) demo_addr b) as Ho.
  destruct (sendto _ _ _ b) as [[bytes|e] b1]; cbn in Ho; rewrite <-Ho.
  - destruct (recv_from_prepare s buf b1) as [op1 b2] eqn:Hr. intros [= _ _ <-]. by eapply recv_from_prepare_outstanding.
  - apply IH.
Qed.

Lemma recv_from_finish_outstanding buf r b : outstanding (recv_from_finish buf r b).2 = outstanding b.
Proof.
  destruct r as [[]|e]; cbn; try done. destruct (slice_to _ _); cbn; [apply put_pool_outstanding|done..].
Qed.

Lemma udp_resume_outstanding s p r b op p' b' :
  udp_resume sendto s p r b = (Await op p', b') → outstanding b' ⊆ outstanding b.
Proof.
  destruct p as [events buf|n i events buf]; cbn [udp_resume];
    pose proof (recv_from_finish_outstanding buf r b) as Ho;
    destruct (recv_from_finish buf r b) as [[[[[bytes sender]|e] buf']| |] b1]; cbn in Ho; rewrite <-Ho; try discriminate.
  - destruct (array_to bytes buf'); [|discriminate..]. by intros ->%udp_rounds_outstanding.
  - destruct (array_to bytes buf'); [|discriminate..]. by intros ->%udp_rounds_outstanding.
  - by intros ->%udp_rounds_outstanding.
Qed.

(** What is printed for [n] echoed messages. *)
Fixpoint echo_events (n : nat) (i : Z) : list UdpEvent :=
  match n with
  | O => []
  | S n => [MessageSent i (length (message i)); Response (from_utf8_lossy (message i))] ++ echo_events n (i + 1)
  end.

Lemma udp_rounds_run f s n i events buf b counter b1 counter1 r b2 :
  resume f = udp_resume sendto s → echoed_all s n i buf b counter b1 counter1 →
  sendto (socket_fd s) (utf8_encode (lit "Test error")) invalid_addr b1 = (r, b2) →
  ∃ trace, runs f park (udp_rounds sendto s n i events buf b, counter) trace
    (Ret (events ++ echo_events n i ++
            [match r with Ok bytes => UnexpectedSuccess bytes | Err e => ExpectedError e end; Completed], [socket_fd s]))
    (b2, counter1).
Proof.
  intros Hf Hall Hlast. revert events.
  induction Hall as [i buf b counter|n i buf b counter b3 counter3 b4 counter4 Hone Hl Hall IH]; intros events.
  - exists []. cbn [udp_rounds echo_events]. unfold udp_last, send_to. rewrite Hlast. apply runs_return.
  - destruct Hone as [b counter ba op bb data bc counter3 Hsend Hprep Hask Hd Hm].
    destruct (reply_finish (message i) data buf bc Hd Hm Hl) as [Hfin Harr].
    destruct (IH Hlast (events ++ [MessageSent i (length (message i))] ++ [Response (from_utf8_lossy (message i))]))
      as [trace Hruns].
    eexists (_ :: trace). cbn [udp_rounds]. unfold send_to. rewrite Hsend, Hprep.
    eapply runs_await; [exact Hask|]. rewrite Hf. cbn [udp_resume]. rewrite Hfin, Harr.
    rewrite <-!app_assoc in Hruns |- *. exact Hruns.
Qed.

End udp_facts.

Lemma hello_text : Sent (length hello) (from_utf8_lossy hello) = Sent 17 (lit "Hello, async UDP!").
Proof. vm_compute. reflexivity. Qed.

Lemma hello_back :
  Received (length hello) demo_addr (from_utf8_lossy hello) = Received 17 demo_addr (lit "Hello, async UDP!").
Proof. vm_compute. reflexivity. Qed.

Lemma three_echoes :
  echo_events 3 1 = [MessageSent 1 9; Response (lit "Message 1"); MessageSent 2 9; Response (lit "Message 2");
                     MessageSent 3 9; Response (lit "Message 3")].
Proof. vm_compute. reflexivity. Qed.

(** ** Property *)

(** C20. The datagram example on a network that echoes: when each of the four
    messages is sent whole and the receive after it is answered with it, the
    example receives every message as it was sent, in order, whatever the send
    to port 0 at the end gives, and closes its socket. *)
Theorem udp_demo_echoes {B} `{IoProviderLaws B} `{!PoolIn B} `{!PoolInLaws B} sendto park (b : B) s addr counter
    b1 counter1 b2 counter2 r b3 :
  (∀ fd msg addr b, outstanding (sendto fd msg addr b).2 = outstanding b) → (∀ c, c ≤ park c) →
  tokens_below (CpuIoState_new b) counter →
  echoed sendto park s (replicate 1024 0) hello b counter b1 counter1 →
  echoed_all sendto park s 3 1 (received_into hello (replicate 1024 0)) b1 counter1 b2 counter2 →
  sendto (socket_fd s) (utf8_encode (lit "Test error")) invalid_addr b2 = (r, b3) →
  ∃ fuel, Runtime_block_on (async_future (udp_demo sendto (Ok s) (Ok addr))) park fuel (Ok b) Unresumed counter =
    Ret ([BoundTo addr; Sent 17 (lit "Hello, async UDP!"); Received 17 demo_addr (lit "Hello, async UDP!");
          MessageSent 1 9; Response (lit "Message 1"); MessageSent 2 9; Response (lit "Message 2");
          MessageSent 3 9; Response (lit "Message 3");
          match r with Ok bytes => UnexpectedSuccess bytes | Err e => ExpectedError e end; Completed],
         [socket_fd s], None, counter2).
Proof.
  intros Hsend Hpark (Hpos & Hdone & Hout) Hfirst Hall Hlast.
  destruct Hfirst as [b counter ba op bb data bc counter1 Hs Hprep Hask Hd Hm].
  assert (length hello ≤ length (replicate 1024 0))%nat as Hl by (apply Nat.leb_le; vm_compute; reflexivity).
  destruct (reply_finish hello data (replicate 1024 0) bc Hd Hm Hl) as [Hfin Harr].
  set (a := udp_demo sendto (Ok s) (Ok addr)).
  destruct (udp_rounds_run sendto park a s 3 1
    ([BoundTo addr; Sent (length hello) (from_utf8_lossy hello)] ++ [Received (length hello) demo_addr (from_utf8_lossy hello)])
    _ _ _ _ _ _ _ eq_refl Hall Hlast) as [trace Hruns].
  match type of Hruns with runs _ _ _ _ ?o _ => set (out := o) in Hruns end.
  destruct (block_on_runs a park Hpark (udp_resume_outstanding sendto Hsend s) b
    (Await op (FirstReply [BoundTo addr; Sent (length hello) (from_utf8_lossy hello)] (replicate 1024 0))) bb counter
    ((op, Ok (CUdpRecv (length hello) data demo_addr)) :: trace) out (b3, counter2)) as [fuel Hf].
  - cbn [a udp_demo enter]. unfold udp_enter, send_to. rewrite Hs, Hprep. reflexivity.
  - split_and!; [done|done|]. intros t. cbn. rewrite (recv_from_prepare_outstanding _ _ _ _ _ Hprep).
    change ba with (Ok (A:=nat) (E:=io_error) (length hello), ba).2. rewrite <-Hs, Hsend. apply Hout.
  - eapply runs_await; [exact Hask|]. cbn [a udp_demo resume udp_resume]. rewrite Hfin, Harr. exact Hruns.
  - exists fuel. rewrite Hf. unfold out. rewrite hello_text, hello_back, three_echoes. reflexivity.
Qed.

(** A network that echoes, with the messages in the script of the backend. *)
Definition reply (msg : list Z) : IoResult := Ok (CUdpRecv (length msg) (vec_write msg (vec_zeroed 1024)) demo_addr).

Definition demo_replies : list IoResult := [reply hello; reply (message 1); reply (message 2); reply (message 3)].

Definition demo_sendto (fd : Z) (msg : list Z) (addr : SocketAddr) (b : Script * Pool)
    : result nat io_error * (Script * Pool) :=
  (if bool_decide (msg = utf8_encode (lit "Test error")) then Err (OsError 22) else Ok (length msg), b).

Lemma demo_echoed buf msg rs pool counter :
  0 ≤ counter < u64_max → bool_decide (msg = utf8_encode (lit "Test error")) = false →
  take (length msg) (visible (vec_write msg (vec_zeroed 1024))) = Some <$> msg → (length msg ≤ 1024)%nat →
  echoed demo_sendto (λ c, c) (mkAsyncUdpSocket 9) buf msg (mkScript (reply msg :: rs) ∅, pool) counter
    (mkScript rs ∅, recycle (vec_write msg (vec_zeroed 1024)) (get (length buf) pool).2) (counter + 1).
Proof.
  intros Hc Hs Hv Hl. set (b := (mkScript rs ∅, (get (length buf) pool).2)).
  change (mkScript rs ∅, recycle (vec_write msg (vec_zeroed 1024)) (get (length buf) pool).2)
    with (put_pool (recycle (vec_write msg (vec_zeroed 1024)) (the_pool b)) b).
  apply (echoed_intro demo_sendto (λ c, c) (mkAsyncUdpSocket 9) buf msg _ counter
    (mkScript (reply msg :: rs) ∅, pool) (OpUdpRecv 9 (get (length buf) pool).1)
    (mkScript (reply msg :: rs) ∅, (get (length buf) pool).2)).
  - unfold demo_sendto. by rewrite Hs.
  - unfold recv_from_prepare. cbn [the_pool pair_pool_in snd]. by destruct (get (length buf) pool).
  - apply pair_ask, (script_ask (λ c, c)). exact Hc.
  - cbn. lia.
  - exact Hv.
Qed.

Lemma udp_demo_echoes_witness :
  ∃ fuel, Runtime_block_on (async_future (udp_demo demo_sendto (Ok (mkAsyncUdpSocket 9)) (Ok demo_addr))) (λ c, c) fuel
    (Ok (mkScript demo_replies ∅, [])) Unresumed 1 =
    Ret ([BoundTo demo_addr; Sent 17 (lit "Hello, async UDP!"); Received 17 demo_addr (lit "Hello, async UDP!");
          MessageSent 1 9; Response (lit "Message 1"); MessageSent 2 9; Response (lit "Message 2");
          MessageSent 3 9; Response (lit "Message 3"); ExpectedError (OsError 22); Completed],
         [9], None, 5).
Proof.
  eapply (udp_demo_echoes demo_sendto (λ c, c) (mkScript demo_replies ∅, []) (mkAsyncUdpSocket 9) demo_addr 1
    _ _ _ 5 (Err (OsError 22))).
  - reflexivity.
  - intros c. apply Z.le_refl.
  - apply script_below. lia.
  - apply demo_echoed; vm_compute; [split; congruence|reflexivity..|lia].
  - do 3 (eapply echoed_more;
      [apply demo_echoed; vm_compute; [split; congruence|reflexivity..|lia]|apply Nat.leb_le; vm_compute; reflexivity|]).
    apply (echoed_none _ _ _ _ _ _ 5).
  - vm_compute. reflexivity.
Defined.
