(* ===== verification/BuildScript.v ===== *)
(** * The build script (build.rs)

    [parse_kernel_version] reads the release that [uname -r] prints, and
    [main] chooses the I/O backend from it. The target operating system
    ([cfg!]) and the outcome of running [uname] and decoding its output are
    arguments. *)

From S2P Require Import Prelude Str.

Inductive TargetOs := Linux | MacOs | OtherUnix | NotUnix.

(** The directives printed for cargo that select a backend. *)
Inductive Directive := HasIoUring | IoBackend (backend : string).

Inductive VersionError :=
  | CommandFailed
  | NotUtf8
  | ParseInt (e : ParseIntError)
  | InvalidVersionFormat.

Definition Version : Type := Z * Z * Z.

Definition u32_max : Z := 2 ^ 32 - 1.

Definition is_separator (c : Z) : bool := (c =? 46) || (c =? 45).

Definition parse_u32 (s : rstr) : result Z VersionError :=
  result_map_err ParseInt (parse_uint u32_max s).

Definition parse_kernel_version (version_str : rstr) : result Version VersionError :=
  match split is_separator (trim version_str) with
  | p0 :: p1 :: p2 :: _ =>
      match parse_u32 p0 with
      | Err e => Err e
      | Ok major =>
          match parse_u32 p1 with
          | Err e => Err e
          | Ok minor =>
              let patch_str :=
                match split (λ c, negb (is_digit c)) p2 with
                | [] => lit "0"
                | w :: _ => w
                end in
              match parse_u32 patch_str with
              | Err e => Err e
              | Ok patch => Ok (major, minor, patch)
              end
          end
      end
  | _ => Err InvalidVersionFormat
  end.

(** [uname]: the bytes [Command::output] captures, or nothing if it fails. *)
Definition get_kernel_version (uname : option (list Z)) : result Version VersionError :=
  match uname with
  | None => Err CommandFailed
  | Some stdout =>
      match from_utf8 stdout with
      | None => Err NotUtf8
      | Some version_str => parse_kernel_version version_str
      end
  end.

Definition is_io_uring_actually_supported_on_linux : bool := true.

(** [>=] on tuples is lexicographic. *)
Definition version_ge (v w : Version) : bool :=
  let '(a, b, c) := v in
  let '(a', b', c') := w in
  (a' <? a) || ((a =? a') && ((b' <? b) || ((b =? b') && (c' <=? c)))).

Definition main (target_os : TargetOs) (uname : option (list Z)) : list Directive :=
  match target_os with
  | Linux =>
      match get_kernel_version uname with
      | Ok version =>
          if version_ge version (5, 10, 0) && is_io_uring_actually_supported_on_linux
          then [HasIoUring; IoBackend "io_uring"]
          else [IoBackend "epoll"]
      | Err _ => [IoBackend "epoll"]
      end
  | MacOs => [IoBackend "kqueue"]
  | OtherUnix => [IoBackend "epoll"]
  | NotUnix => []
  end.

(** ** Properties *)

Definition starts_with_digit (s : rstr) : bool :=
  match s with c :: _ => is_digit c | [] => false end.

(** A release "major.minor.patch" with whatever the distribution appends. *)
Definition release (major minor patch : Z) (suffix : rstr) : rstr :=
  dec major ++ 46 :: dec minor ++ 46 :: dec patch ++ suffix.

Lemma digits_not s (P : Z → bool) :
  (∀ c, is_digit c = true → P c = false) → forallb is_digit s = true →
  forallb (λ c, negb (P c)) s = true.
Proof.
  intros HP. rewrite !forallb_forall. intros Hs c Hc. by rewrite HP by auto.
Qed.

Lemma digit_range c : is_digit c = true ↔ 48 ≤ c ≤ 57.
Proof. unfold is_digit. by rewrite andb_true_iff, !Z.leb_le. Qed.

Lemma digit_not_space c : is_digit c = true → is_whitespace c = false.
Proof. intros H%digit_range. unfold is_whitespace. by bool_lia. Qed.

Lemma digit_not_separator c : is_digit c = true → is_separator c = false.
Proof. intros H%digit_range. unfold is_separator. by bool_lia. Qed.

Lemma trim_start_head c s : is_whitespace c = false → trim_start (c :: s) = c :: s.
Proof. intros Hc. cbn. by rewrite Hc. Qed.

(** Trimming touches the suffix only. *)
Lemma trim_release major minor patch suffix :
  0 ≤ major → 0 ≤ minor → 0 ≤ patch →
  trim (release major minor patch suffix) = release major minor patch (trim_end suffix).
Proof.
  intros Ha Hb Hc. unfold trim.
  assert (∀ n, 0 ≤ n → forallb (λ c, negb (is_whitespace c)) (dec n) = true) as Hd.
  { intros n Hn. apply digits_not; [apply digit_not_space|by apply dec_is_digits]. }
  assert (trim_start (release major minor patch suffix) = release major minor patch suffix) as ->.
  { unfold release. pose proof (Hd major Ha) as Hm.
    pose proof (dec_nonempty major) as Hn. destruct (dec major) as [|c s]; [done|].
    cbn in Hm. apply andb_true_iff in Hm as [Hm%negb_true_iff _]. by apply trim_start_head. }
  unfold release. rewrite trim_end_app by auto. f_equal.
  destruct (trim_end_head 46 (dec minor ++ 46 :: dec patch ++ suffix)) as (s & -> & ->); [done|].
  f_equal. rewrite trim_end_app by auto. f_equal.
  destruct (trim_end_head 46 (dec patch ++ suffix)) as (s & -> & ->); [done|].
  f_equal. by rewrite trim_end_app by auto.
Qed.

Lemma split_head_cons sep s : ∃ w ws, split sep s = w :: ws.
Proof.
  induction s as [|c s (w & ws & IH)]; cbn; [eauto|]. rewrite IH. case_match; eauto.
Qed.

Lemma split_suffix_piece sep s w ws :
  starts_with_digit s = false → split sep s = w :: ws → starts_with_digit w = false.
Proof.
  destruct s as [|c s]; cbn; [by intros _ [= <- <-]|].
  destruct (split_head_cons sep s) as (w' & ws' & ->). intros Hc.
  destruct (sep c); by intros [= <- <-].
Qed.

Lemma patch_digits p s :
  0 ≤ p → starts_with_digit s = false →
  ∃ ws, split (λ c, negb (is_digit c)) (dec p ++ s) = dec p :: ws.
Proof.
  intros Hp Hs.
  assert (forallb (λ c, negb (negb (is_digit c))) (dec p) = true) as Hd.
  { apply (digits_not _ (λ c, negb (is_digit c))); [by intros c ->|by apply dec_is_digits]. }
  destruct s as [|c s].
  { rewrite app_nil_r, split_final by done. eauto. }
  cbn in Hs. rewrite split_piece by first [done | by rewrite Hs]. eauto.
Qed.

Lemma trim_end_prefix s : ∃ t, s = trim_end s ++ t.
Proof.
  assert (∀ r, ∃ t, r = t ++ trim_start r) as Hs.
  { induction r as [|c r (t & IH)]; [by exists []|]. cbn.
    destruct (is_whitespace c); [|by exists []]. exists (c :: t). by rewrite IH at 1. }
  destruct (Hs (reverse s)) as (t & Ht). exists (reverse t). unfold trim_end.
  by rewrite <-reverse_app, <-Ht, reverse_involutive.
Qed.

Lemma trim_end_starts s : starts_with_digit s = false → starts_with_digit (trim_end s) = false.
Proof.
  destruct (trim_end_prefix s) as (t & Ht). destruct (trim_end s) as [|c u]; [done|].
  rewrite Ht. done.
Qed.

Lemma parse_release major minor patch suffix :
  0 ≤ major ≤ u32_max → 0 ≤ minor ≤ u32_max → 0 ≤ patch ≤ u32_max →
  starts_with_digit suffix = false →
  parse_kernel_version (release major minor patch suffix) = Ok (major, minor, patch).
Proof.
  intros Ha Hb Hc Hs. unfold parse_kernel_version.
  rewrite trim_release by lia. apply trim_end_starts in Hs. revert Hs.
  generalize (trim_end suffix) as t. intros t Ht. unfold release.
  assert (∀ n, 0 ≤ n → forallb (λ c, negb (is_separator c)) (dec n) = true) as Hd.
  { intros n Hn. apply digits_not; [apply digit_not_separator|by apply dec_is_digits]. }
  assert (∀ n, 0 ≤ n ≤ u32_max → parse_u32 (dec n) = Ok n) as Hu.
  { intros n Hn. unfold parse_u32. by rewrite parse_uint_dec. }
  rewrite split_piece, split_piece, split_head by first [done | apply Hd; lia].
  destruct (split_head_cons is_separator t) as (w & ws & Hw). rewrite Hw, !Hu by done.
  destruct (patch_digits patch w) as (ws' & ->); [lia|by eapply split_suffix_piece|].
  by rewrite Hu.
Qed.

(** On Linux the build script selects io_uring exactly for kernels from 5.10
    on, and epoll otherwise: for every release "major.minor.patch" of 32-bit
    numbers followed by anything that does not continue the patch number (a
    distribution's suffix, the line feed of [uname]). *)
Theorem backend_selected major minor patch suffix :
  0 ≤ major ≤ u32_max → 0 ≤ minor ≤ u32_max → 0 ≤ patch ≤ u32_max →
  starts_with_digit suffix = false →
  forallb is_scalar (release major minor patch suffix) = true →
  main Linux (Some (utf8_encode (release major minor patch suffix))) =
  if decide (5 < major ∨ major = 5 ∧ 10 ≤ minor)
  then [HasIoUring; IoBackend "io_uring"]
  else [IoBackend "epoll"].
Proof.
  intros Ha Hb Hc Hs Hsc. cbn [main get_kernel_version].
  rewrite <-(app_nil_r (utf8_encode _)), from_utf8_encode by done. cbn [from_utf8 fmap option_fmap option_map].
  rewrite app_nil_r, parse_release by done. rewrite andb_true_r.
  assert (version_ge (major, minor, patch) (5, 10, 0) =
    bool_decide (5 < major ∨ major = 5 ∧ 10 ≤ minor)) as ->; [|by case_decide; case_bool_decide].
  unfold version_ge.
  destruct (Z.ltb_spec 5 major), (Z.eqb_spec major 5), (Z.ltb_spec 10 minor),
    (Z.eqb_spec minor 10), (Z.leb_spec 0 patch); cbn; symmetry;
    first [apply bool_decide_eq_true_2; lia | apply bool_decide_eq_false_2; lia | lia].
Qed.

Lemma backend_selected_witness :
  main Linux (Some (utf8_encode (release 5 15 0 (lit "-91-generic" ++ [LF])))) =
  if decide (5 < 5 ∨ 5 = 5 ∧ 10 ≤ 15)
  then [HasIoUring; IoBackend "io_uring"]
  else [IoBackend "epoll"].
Proof.
  apply (backend_selected 5 15 0 (lit "-91-generic" ++ [LF]));
    first [split; vm_compute; discriminate | vm_compute; reflexivity].
Defined.
